(* ===== verification/_CoqProject ===== *)
-Q . S2P
Prelude.v
Orders.v
Clearing.v
Engine.v
RoundPlan.v
Batch.v
Bytes.v
WorkPackage.v
ChainSpec.v
Submit.v
Deploy.v
WebSocket.v
Wire.v
Settlement.v
Fuzz.v
Setup.v
Ledger.v
Tape.v
Telemetry.v
Treasury.v
Startup.v
Executions.v
Door.v
DoorSafety.v
DoorInv.v
Netwatch.v
NetwatchRun.v
OneHead.v
Parity.v
Finality.v
Rounds.v
RoundLogic.v
RoundInv.v
RoundSafety.v
RoundBuild.v
RoundTheorems.v
Mine.v
DevKeys.v
Accounts.v
Genesis.v
Netgen.v
Http.v
Backends.v
Supervise.v
Metrics.v
Soak.v
