(* ===== verification/Prelude.v ===== *)
(** * Jamswap: the off-chain builder, verified

    Jamswap is a batch-auction exchange run as a JAM service.  Traders send signed orders to an off-chain builder (Python,
    src/offchain/); every few seconds, per market, the builder takes a batch out of its mempool, clears it at one uniform
    price, packs a round into a work-package and submits it; the service (Rust, src/service and src/crates) re-checks the
    round and settles it on chain.  The builder then watches the chain until the round is durable, writes receipts and
    re-seals what a sealed order has left.  Around it: a treasury that keeps a reserve of the rent asset, order telemetry
    with a soak verdict, and a watch that judges whether a net of nodes agrees.  Test nets are generated: their genesis
    (dev accounts, the service's storage), their compose files, and a supervisor for native nodes (src/nets/).

    ** How the parts interact

    The door (api_order and the other POST handlers of server.py) admits orders into the mempool [pending].  The auction
    loop calls _build_round, which asks round.py for a plan (which calls clearing.py and the batch policy), assembles the
    payload and submits it through chain.py (over jip2.py, as a package of workpackage.py, with the authorizer of
    chainspec.py).  The resolver sweeps registrations, cancels and every market's rounds, and settles or releases them.
    Every placement, receipt and miss goes to order_telemetry.py, whose log soak_verdict.py judges; netwatch.py judges the
    chain beneath.  Class H of server.py turns the outcome of a handler into an HTTP reply and into counters, which the
    metrics page of metrics.py shows; a soak reads the page of the load generator the same way.  chain.py hides two
    backends behind one interface; Backends.v states what it promises as a class of laws, of which both are instances.

    ** Files

    - Prelude.v: Python results and exceptions; a state and exception monad with a calculus of state relations; tactics,
      hint databases, sums and sorting.
    - Orders.v: the order dict.  [o_ref] is the object's identity: the builder passes the same dict around.
    - Clearing.v: clearing.py, [clear].
    - Engine.v: the Rust engine it is a port of (match-engine's lib.rs: clear, resting), with its 64-bit sums.
    - Settlement.v: the settlement the service applies (wire.rs: its bytes and deltas; lib.rs: apply_settlement), with the
      storage writes the host may refuse.
    - Fuzz.v: dex_fuzz.py, the batches it places and the oracle that judges them.
    - RoundPlan.v: round.py, [plan_round] and [plan_batch]; the capacity policy is the class [FitPolicy], which Batch.v
      implements.
    - Batch.v: server.py, the batch policy ([cap_batch]), the seq discipline ([seq_sanitize]), market prices; and the
      service's own acceptance test for a round (floors.rs).
    - Bytes.v, WorkPackage.v, ChainSpec.v: byte strings and readers, workpackage.py, chainspec.py.
    - Submit.v: chain.py, [Jip2Chain]: reads, package building, submission over the cores.
    - Deploy.v: deploy.py, [deploy]: create a service, provide its code, wait until it is usable.
    - WebSocket.v: jip2.py: masking, frames, messages, the request loop.
    - Wire.v: the payloads server.py and dex_setup.py write, and how the service parses them (lib.rs, wire.rs,
      deposit.rs).
    - Setup.v: dex_setup.py: the reads that tell whether an operation landed, [Runner.run], and [setup] on top of it.
    - Ledger.v: metrics.py's counters, histograms and pending ledger with server.py's submit, as interleaved threads.
    - Tape.v, Mine.v: the trade tape and a trader's view of open orders (server.py).
    - Startup.v: the waits of server.py before it opens: listing the markets, the reserve.
    - Telemetry.v: order_telemetry.py and soak_verdict.py.
    - Treasury.v: treasury.py, the treasury handlers and the reserve keeper of server.py.
    - Executions.v: receipts, dispositions and feeds of server.py.
    - Door.v, DoorSafety.v, DoorInv.v: the POST handlers of server.py, with cancels and registrations.
    - Netwatch.v, NetwatchRun.v, Parity.v: netwatch.py; OneHead.v: nets/onehead.py.
    - Finality.v: the finality watch of server.py.
    - Rounds.v: one market's rounds in server.py: building, submitting, resolving, releasing, settling.  RoundLogic.v has
      the program logic for its monad, RoundInv.v the invariant, RoundSafety.v and RoundBuild.v its preservation,
      RoundTheorems.v the results.
    - DevKeys.v: nets/devkeys.py: seeds, Ed25519 public keys, peer ids.  Accounts.v: the service's registry and ledger and
      the work items that change them (lib.rs).  Genesis.v: nets/genesis.py, the storage it seeds for Accounts.v and the
      one-shot minter.  Netgen.v: nets/netgen.py and profiles.py, down to the text of the compose files.
    - Http.v: class H of server.py and refusal_reason.  Backends.v: chain.py's interface, JamnpChain, from_env, and
      Authorizer's text form (workpackage.py).
    - Supervise.v: nets/supervise.py as a state machine with signals.  Metrics.v: metrics.py's render and the exposition format.
      Soak.v: the counters of loadgen.py and how soak.py reads and judges them.

    ** How code becomes definitions

    Pure functions are functions.  Code that keeps state is written in a monad of state and exceptions ([SE], and [M] of
    Rounds.v): the state survives a raise, so what ran before an exception has happened, as in Python.  The outside world
    (clock, chain, node, socket) is a sequence of views, one consumed per call, so that any two reads may see different
    states of the chain.  Dicts are finite maps, or association lists where their order matters; integers are [Z] with
    the range checks of struct.pack, to_bytes and bytes written out; seconds are integers (milliseconds in Door.v), and
    quotients exact where the code has floats.  Hashes, signature checks and the committee binary are parameters;
    metrics (but for Ledger.v, Http.v, Metrics.v and Soak.v), prints and files (but for the volume of Genesis.v) are left out.  JSON, the
    connection, the bridges, the tools gen-spec and lasair's, and how much storage the host grants are parameters.

    ** What the theorems show

    - Clearing: the volume is the largest over all prices and is matched at the price chosen, with the stated tie-breaks
      ([clear_maximal]); buys and sells match; no fill
      beats its limit or its quantity; priority is by price, then id; the result does not depend on the order of the batch.
      The Rust engine computes the same ([engine_matches_port]); settling its result makes no value
      ([settlement_conserves]) and passes the fuzzer's oracle ([fuzz_oracle_accepts]).
    - Planning: every queued order is placed exactly once; nothing is revealed without a counterparty; what stays hidden
      would not have traded; capacity is shared fairly.
    - Rounds: no order is lost and none ends twice, in every sequence of builds, sweeps, re-seals, cancels and arrivals with a
      coherent log, re-orgs included ([no_order_lost]); what an assembled round reveals crosses; what is receipted is durable;
      the owner's view is exactly the owner's orders that are queued, settling or on the book ([mine_shows_open]).
    - Agreement with the service: a sanitized round passes the service's own test; the payload is parsed back to the same
      orders; a deposit is credited once.
    - The door: accepted orders are admissible; refused ones leave nothing but what [refused_leaves] lists; each pending
      registration is confirmed, retried or given up as its entry says ([registrations_settle]).
    - Submission: at most one copy of a submission reaches the chain, a refusal means none did, packages are within the
      limits of the chain parameters the client read ([submitted_package_within_limits]), and a core that accepts is found; messages are received as sent.  Set-up ends, with every operation seen on
      chain or with the set-up's error ([run_lands_or_gives_up]).
      A deployed service is usable ([deployed_service_usable]); creating one ends when the node answers
      ([create_ends]) and, on a node that cannot tell a package's status, need not when the service appears under another id
      ([create_spins]).  The waits before the exchange opens end ([ensure_markets_ends], [wait_reserved_ends]).
    - Codecs: rounds round-trip, and packages have one reading.  Treasury: the keeper never hoards and profit never touches the reserve.
      Telemetry: the verdict finds in the log the orders the server holds open, and as many stuck as its gauge calls stale
      ([stale_matches_stuck]).  Metrics: counters, histogram and ledger are exact in every
      interleaving, and a refusal never turns into a timeout ([ledger_exact], [refused_never_times_out]).  Tape: the last day,
      each volume once ([tape_window]).  Net watch: a passing verdict or parity check means what it
      says, and so do the words of a head sample ([sample_sound]).
    - The front and the backends: the reply to a readable order says what happened to it ([order_reply_truthful]); whichever backend the
      environment selects, ChainBusy and ChainUnsupported mean unsent and a receipt means one call that was not refused
      ([selected_chain_honest]); an authorizer's text configures that authorizer ([authorizer_configures]).
    - Nets: double-and-add computes the multiple RFC 8032's addition gives, on the curve ([mul_computes_multiple],
      [public_key_on_curve]); a peer id names its key ([dev_account_named_by_key]).  The service's balances and custody stay
      equal and its registry one-to-one ([ledger_stays_balanced]); genesis seeds a storage in which they are
      ([genesis_seeds_ledger]); the ready marker means every file is there ([ready_means_complete]); the minter and the
      compose file describe the same nodes ([genesis_matches_compose]); published ports are distinct, within a net and
      between nets ([published_ports_disjoint]); every dependency is in the document ([compose_closed]), and the document
      rendered for one profile, pj6, has the checksum of the committed one ([rendered_as_committed]).
    - Operation: the supervisor runs one child, waits the delay it logs before it starts the next, and does start it
      ([supervisor_runs_one]); a metrics page reads back as its registry ([page_reads_back]); the soak counts the load that was
      offered ([offered_load_counted]).

    ** Bounds, fuel and assumptions

    [fit_loop] has the fuel the code's own counter gives it (FIT_PASSES); [recv_loop] has one more than the bytes still to
    come, and [recv_total] proves that enough; [run_ops] has four turns per second of its timeout and eight more, which
    [run_ends] proves enough; the creation loop of Deploy.v has two turns per second left and two more ([create_ends]); the
    loops of Startup.v have one per second of their timeout and two more ([poll_ends]); chain-spec pools have the length of
    the buffer.  The doublings of DevKeys.v have the scalar's bit length, and the label reader of Metrics.v the length of its
    text, which [take_labels_text] proves enough; the event stream of Http.v has no end of its own and says so when its fuel
    is used up.  [selected_chain_honest] assumes that requests raise their libraries' errors and not the backend's own;
    [page_reads_back] assumes plain labels and values below a million: [stale_seq_breaks_page] and [page_rounds] are pages
    without; [ledger_stays_balanced] and [settlement_conserves] are about runs of which the host refuses no storage write, the first also
    about deposits that fit 64 bits, the second about accounts that can deliver and pay: [refused_custody], [refused_nonce],
    [refused_credit], [saturated_custody] and [unfunded_mints] are runs without, in which the books do not balance.
    [no_order_lost] and [mine_shows_open] assume a coherent log ([coherent]): fresh order keys (which hold of a door that serves one
    request at a time, [reachable_unique]), a round id that names one set of orders, no round read as landed while another
    that shares an order counts as landed, or after an order of it was ended, and no read failure inside _rival_landed.  A
    re-org that is noticed before the other round lands is coherent, and the witness is such a run; in [settled_twice] the
    re-org comes after the settled round is no longer tracked, and an order ends twice.  [order_reply_truthful] is about
    requests whose body can be read: [malformed_body] is one that cannot and gets no reply.  Handlers run one after another, except in Ledger.v and Supervise.v, where
    they interleave: elsewhere the locks the code takes are not modelled, nor races between its threads.  Writes of files (the
    telemetry log, the genesis volume) succeed and are complete.

    ** Not modelled

    The read-only status views with their JSON and display formats, the encrypted-round payload (built by the committee binary),
    the command lines, and the tools around the system: the traffic of the load generator, canary, smoke test, the fuzzer's
    driver, simulator, exporter, dashboards, the soak's driving of containers and its reports.  They format state modelled
    elsewhere, or drive a running system through processes and sockets.  Of the Rust service what the builder relies on is
    modelled: round parsing, the seq floors, the registry and ledger with the items that change them, the clearing engine and
    the settlement; not carry credits, commit ages and the committee's cryptography. *)
From stdpp Require Export base tactics list gmap strings sorting.
From Stdlib Require Export ZArith Lia.

#[global] Open Scope Z_scope.

(** ** Python results

    A call either returns or raises.  The constructors of [exn] are the exception classes the
    modelled code raises or catches; the string is the guard that raised. *)
Inductive exn : Type :=
| ValueError (why : string)
| OverflowError
| StructError
| KeyError (key : string)
| IndexError
| ChainError (why : string)
| ChainBusy (why : string)
| ChainUnsupported (why : string)
| OSError (why : string)
| WebSocketError (why : string)
| Jip2Error (code : option Z)
| SetupError (why : string)
| DeployError (why : string).

#[global] Instance exn_eq_dec : EqDecision exn.
Proof. solve_decision. Defined.

(** [except ChainError]: ChainBusy and ChainUnsupported are its subclasses. *)
Definition is_chain_error (e : exn) : bool := match e with ChainError _ | ChainBusy _ | ChainUnsupported _ => true | _ => false end.

Inductive result (A : Type) : Type :=
| Ok (a : A)
| Raise (e : exn).
Arguments Ok {A} _.
Arguments Raise {A} _.

#[global] Instance result_eq_dec `{EqDecision A} : EqDecision (result A).
Proof. solve_decision. Defined.

#[global] Instance result_ret : MRet result := @Ok.
#[global] Instance result_bind : MBind result :=
  λ A B f r, match r with Ok a => f a | Raise e => Raise e end.
#[global] Instance result_fmap : FMap result :=
  λ A B f r, match r with Ok a => Ok (f a) | Raise e => Raise e end.

Definition is_ok {A} (r : result A) : bool :=
  match r with Ok _ => true | Raise _ => false end.

(** [if not c: raise e] *)
Definition guard_or (c : bool) (e : exn) : result unit := if c then Ok tt else Raise e.

Lemma bind_ok {A B} (r : result A) (f : A → result B) b :
  (r ≫= f) = Ok b ↔ ∃ a, r = Ok a ∧ f a = Ok b.
Proof. destruct r; cbn; naive_solver. Qed.

Lemma guard_or_ok c e u : guard_or c e = Ok u ↔ c = true.
Proof. unfold guard_or. destruct c, u; naive_solver. Qed.

(** ** Stateful code that may raise

    A state that survives an exception: what ran before a raise has happened. *)
Definition SE (S A : Type) : Type := S → result A * S.
#[global] Instance SE_ret {S} : MRet (SE S) := λ A a s, (Ok a, s).
#[global] Instance SE_bind {S} : MBind (SE S) := λ A B f c s,
  match c s with (Ok a, s') => f a s' | (Raise e, s') => (Raise e, s') end.
Definition se_get {S A} (f : S → A) : SE S A := λ s, (Ok (f s), s).
Definition se_put {S} (f : S → S) : SE S unit := λ s, (Ok tt, f s).
Definition se_lift {S A} (r : result A) : SE S A := λ s, (r, s).
Definition se_try {S A} (c : SE S A) : SE S (result A) := λ s, let '(r, s') := c s in (Ok r, s').
Definition refuse_if {S} (c : bool) (why : string) : SE S unit := se_lift (guard_or (negb c) (ValueError why)).

Lemma se_bind_ok {S A B} (c : SE S A) (f : A → SE S B) s b s' :
  (c ≫= f) s = (Ok b, s') ↔ ∃ a s1, c s = (Ok a, s1) ∧ f a s1 = (Ok b, s').
Proof. unfold mbind, SE_bind. destruct (c s) as [[a|e] s1]; naive_solver. Qed.
Lemma se_bind_raise {S A B} (c : SE S A) (f : A → SE S B) s e s' :
  (c ≫= f) s = (Raise e, s') ↔ c s = (Raise e, s') ∨ ∃ a s1, c s = (Ok a, s1) ∧ f a s1 = (Raise e, s').
Proof. unfold mbind, SE_bind. destruct (c s) as [[a|e'] s1]; naive_solver. Qed.
Lemma se_run {S A} (c : SE S A) s r s' : c s = (r, s') → (c s).2 = s'.
Proof. by intros ->. Qed.

Lemma refuse_ok {S} (c : bool) why (s : S) u s' : refuse_if c why s = (Ok u, s') → c = false ∧ s' = s.
Proof. unfold refuse_if, se_lift, guard_or. destruct c; cbn; [done|]. by intros [= _ <-]. Qed.
Lemma lift_ok {S A} (r : result A) (s : S) a s' : se_lift r s = (Ok a, s') → r = Ok a ∧ s' = s.
Proof. unfold se_lift. by intros [= -> <-]. Qed.

(** *** Relations between the state before and after *)

(** [rel c R]: every run of [c] ends in a state related to the one it began in. *)
Definition rel {S A} (R : S → S → Prop) (c : SE S A) : Prop := ∀ d, R d (c d).2.

Class Transition {S} (R : S → S → Prop) : Prop := {
  tr_refl d : R d d;
  tr_trans a b c : R a b → R b c → R a c
}.

Section transitions.
Context {S} (R : S → S → Prop) `{!Transition R}.

Lemma rel_bind {A B} (c : SE S A) (f : A → SE S B) : rel R c → (∀ a, rel R (f a)) → rel R (c ≫= f).
Proof.
  intros Hc Hf d. unfold mbind, SE_bind. specialize (Hc d). destruct (c d) as [[a|e] d1]; [|exact Hc].
  eapply tr_trans; [exact Hc|apply Hf].
Qed.
Lemma rel_ret {A} (a : A) : rel R (mret a).
Proof. intros d. apply tr_refl. Qed.
Lemma rel_lift {A} (r : result A) : rel R (se_lift r).
Proof. intros d. apply tr_refl. Qed.
Lemma rel_get {A} (f : S → A) : rel R (se_get f).
Proof. intros d. apply tr_refl. Qed.
Lemma rel_put f : (∀ d, R d (f d)) → rel R (se_put f).
Proof. intros H d. apply H. Qed.
Lemma rel_try {A} (c : SE S A) : rel R c → rel R (se_try c).
Proof. intros H d. unfold se_try. specialize (H d). by destruct (c d). Qed.
Lemma rel_refuse c why : rel R (refuse_if c why).
Proof. apply rel_lift. Qed.
End transitions.

Create HintDb rel.
#[export] Hint Resolve rel_ret rel_lift rel_get rel_refuse : rel.
(** Goes through the binds of a handler. *)
Ltac rel_step :=
  repeat first
    [ solve [eauto 3 with rel typeclass_instances]
    | apply rel_bind; [apply _| |intros ?]
    | solve [apply rel_ret; apply _ | apply rel_lift; apply _ | apply rel_get; apply _ | apply rel_refuse; apply _]
    | apply rel_try
    | case_match ].

(** Computations that do not raise, and what is left when one does. *)
Definition total {S A} (c : SE S A) : Prop := ∀ d, is_ok (c d).1 = true.
Definition raises {S A} (R : S → S → Prop) (c : SE S A) : Prop := ∀ d e d', c d = (Raise e, d') → R d d'.

Lemma total_bind {S A B} (c : SE S A) (f : A → SE S B) : total c → (∀ a, total (f a)) → total (c ≫= f).
Proof. intros Hc Hf d. specialize (Hc d). unfold mbind, SE_bind. destruct (c d) as [[a|e] d1]; [apply Hf|done]. Qed.
Lemma total_raises {S A} (R : S → S → Prop) (c : SE S A) : total c → raises R c.
Proof. intros Hc d e d' H. specialize (Hc d). by rewrite H in Hc. Qed.
Lemma rel_raises {S A} (R : S → S → Prop) (c : SE S A) : rel R c → raises R c.
Proof. intros Hc d e d' H. specialize (Hc d). by rewrite H in Hc. Qed.
Lemma raises_bind {S A B} (R : S → S → Prop) `{!Transition R} (c : SE S A) (f : A → SE S B) : rel R c → (∀ a, raises R (f a)) → raises R (c ≫= f).
Proof.
  intros Hc Hf d e d' [H|(a & d1 & H1 & H2)]%se_bind_raise; [by eapply rel_raises|]. specialize (Hc d). rewrite H1 in Hc.
  eapply tr_trans; [exact Hc|by eapply Hf].
Qed.
Lemma total_try {S A} (c : SE S A) : total (se_try c).
Proof. intros d. unfold se_try. by destruct (c d). Qed.
Ltac total_step := repeat first [apply total_try | apply total_bind; [|intros ?] | solve [intros d; reflexivity] | case_match].

(** [while True]: the body continues with [inr] and leaves with [inl]; [None] when the fuel is used up. *)
Fixpoint iterate {S A B} (fuel : nat) (body : A → SE S (B + A)) (a : A) (s : S) : option (result B * S) :=
  match fuel with
  | O => None
  | S fuel' =>
      match body a s with
      | (Raise e, s') => Some (Raise e, s')
      | (Ok (inl b), s') => Some (Ok b, s')
      | (Ok (inr a'), s') => iterate fuel' body a' s'
      end
  end.
(** A bound that every continuing step lowers is fuel enough; so is a measure. *)
Lemma iterate_bounded {S A B} (I : nat → A → S → Prop) (body : A → SE S (B + A)) :
  (∀ k a s a' s', I k a s → body a s = (Ok (inr a'), s') → ∃ k', (k' < k)%nat ∧ I k' a' s') →
  ∀ fuel k a s, I k a s → (k < fuel)%nat → is_Some (iterate fuel body a s).
Proof.
  intros Hstep. induction fuel as [|fuel IH]; intros k a s Ha Hf; [lia|]. cbn.
  destruct (body a s) as [[[b|a']|e] s'] eqn:E; [eauto| |eauto]. destruct (Hstep _ _ _ _ _ Ha E) as (k' & Hlt & Ha'). eapply IH; [done|lia].
Qed.
Lemma iterate_total {S A B} (I : A → S → Prop) (measure : A → S → nat) (body : A → SE S (B + A)) :
  (∀ a s a' s', I a s → body a s = (Ok (inr a'), s') → I a' s' ∧ (measure a' s' < measure a s)%nat) →
  ∀ fuel a s, I a s → (measure a s < fuel)%nat → is_Some (iterate fuel body a s).
Proof.
  intros Hstep fuel a s Ha Hf. apply (iterate_bounded (λ k a s, I a s ∧ k = measure a s)) with (k := measure a s); [|done..].
  intros k a0 s0 a' s' [H ->] E. destruct (Hstep _ _ _ _ H E). eauto.
Qed.
(** A body that always continues uses up any fuel. *)
Lemma iterate_forever {S A B} (I : A → S → Prop) (body : A → SE S (B + A)) :
  (∀ a s, I a s → ∃ a' s', body a s = (Ok (inr a'), s') ∧ I a' s') → ∀ fuel a s, I a s → iterate fuel body a s = None.
Proof. intros Hb. induction fuel as [|fuel IH]; intros a s Ha; [done|]. cbn. destruct (Hb a s Ha) as (a' & s' & -> & Ha'). by apply IH. Qed.
Lemma iterate_inv {S A B} (I : A → S → Prop) (Q : B → S → Prop) (E : S → Prop) (body : A → SE S (B + A)) :
  (∀ a s r s', I a s → body a s = (r, s') → match r with Ok (inl b) => Q b s' | Ok (inr a') => I a' s' | Raise _ => E s' end) →
  ∀ fuel a s r s', I a s → iterate fuel body a s = Some (r, s') → match r with Ok b => Q b s' | Raise _ => E s' end.
Proof.
  intros Hstep. induction fuel as [|fuel IH]; intros a s r s' Ha H; [done|]. cbn in H.
  destruct (body a s) as [r0 s1] eqn:Eb. specialize (Hstep _ _ _ _ Ha Eb). destruct r0 as [[b|a']|e]; [by simplify_eq| |by simplify_eq].
  eapply IH; [exact Hstep|exact H].
Qed.

(** Splits a hypothesis [e1 ≫= λ x, e2 = Ok r] into the successes of its parts. *)
Ltac inv_bind :=
  repeat match goal with
  | H : (_ ≫= _) = Ok _ |- _ => apply bind_ok in H; destruct H as (? & ? & H)
  | H : guard_or _ _ = Ok _ |- _ => apply guard_or_ok in H
  | H : Ok _ = Ok _ |- _ => injection H as H
  | H : Raise _ = Ok _ |- _ => discriminate H
  end.

(** Case analysis on the first [match] or [if] of the goal or of a hypothesis, keeping the
    equation. *)
Ltac case_match_eqn :=
  match goal with
  | H : context [ match ?x with _ => _ end ] |- _ => destruct x eqn:?
  | |- context [ match ?x with _ => _ end ] => destruct x eqn:?
  end.

(** Reflects boolean comparisons on [Z] in hypotheses and goal. *)
Ltac zbool :=
  repeat match goal with
  | H : (_ && _) = true |- _ => apply andb_true_iff in H; destruct H
  | H : (_ || _) = false |- _ => apply orb_false_iff in H; destruct H
  | H : negb _ = true |- _ => apply negb_true_iff in H
  | H : negb _ = false |- _ => apply negb_false_iff in H
  | H : (_ =? _) = true |- _ => apply Z.eqb_eq in H
  | H : (_ =? _) = false |- _ => apply Z.eqb_neq in H
  | H : (_ <? _) = true |- _ => apply Z.ltb_lt in H
  | H : (_ <? _) = false |- _ => apply Z.ltb_ge in H
  | H : (_ <=? _) = true |- _ => apply Z.leb_le in H
  | H : (_ <=? _) = false |- _ => apply Z.leb_gt in H
  end.

(** ** Sums over lists: Python's [sum(f(x) for x in l)] *)
Section zsum.
Context {A : Type}.
Implicit Types (f g : A → Z) (l k : list A).

Definition zsum f l : Z := foldr (λ x acc, f x + acc) 0 l.

Lemma zsum_nil f : zsum f [] = 0.
Proof. done. Qed.

Lemma zsum_cons f x l : zsum f (x :: l) = f x + zsum f l.
Proof. done. Qed.

Lemma zsum_app f l k : zsum f (l ++ k) = zsum f l + zsum f k.
Proof. induction l; cbn -[Z.add] in *; [done|]. unfold zsum in *. cbn. lia. Qed.

#[global] Instance zsum_perm f : Proper ((≡ₚ) ==> (=)) (zsum f).
Proof. unfold zsum. induction 1; cbn in *; lia. Qed.

Lemma zsum_nonneg f l : (∀ x, x ∈ l → 0 ≤ f x) → 0 ≤ zsum f l.
Proof.
  induction l as [|x l IH]; intros H; [done|]. rewrite zsum_cons.
  pose proof (H x (list_elem_of_here _ _)).
  assert (0 ≤ zsum f l) by (apply IH; intros; apply H; by apply list_elem_of_further). lia.
Qed.

Lemma zsum_elem_le f l x : (∀ y, y ∈ l → 0 ≤ f y) → x ∈ l → f x ≤ zsum f l.
Proof.
  intros Hn (l1 & l2 & ->)%list_elem_of_split. rewrite zsum_app, zsum_cons.
  assert (0 ≤ zsum f l1) by (apply zsum_nonneg; set_solver).
  assert (0 ≤ zsum f l2) by (apply zsum_nonneg; set_solver). lia.
Qed.

Lemma zsum_ext f g l : (∀ x, x ∈ l → f x = g x) → zsum f l = zsum g l.
Proof.
  induction l as [|x l IH]; intros H; [done|]. rewrite !zsum_cons.
  rewrite (H x) by apply list_elem_of_here. f_equal. apply IH.
  intros; apply H; by apply list_elem_of_further.
Qed.

Lemma zsum_zero f l : (∀ x, x ∈ l → f x = 0) → zsum f l = 0.
Proof. intros H. rewrite (zsum_ext f (λ _, 0)) by done. induction l; set_solver. Qed.

(** A sum over a subset of the elements, when the rest is not negative. *)
Lemma zsum_filter_mono f (P Q : A → Prop) `{!∀ x, Decision (P x), !∀ x, Decision (Q x)} l :
  (∀ x, x ∈ l → 0 ≤ f x) → (∀ x, x ∈ l → P x → Q x) →
  zsum f (filter P l) ≤ zsum f (filter Q l).
Proof.
  induction l as [|x l IH]; intros Hn HPQ; [done|]. rewrite !filter_cons.
  assert (IH' : zsum f (filter P l) ≤ zsum f (filter Q l)) by (apply IH; set_solver).
  pose proof (Hn x (list_elem_of_here _ _)). pose proof (HPQ x (list_elem_of_here _ _)).
  repeat case_decide; rewrite ?zsum_cons; naive_solver lia.
Qed.

(** Filtering on a stronger condition drops only zero terms. *)
Lemma zsum_filter_zero f (P Q : A → Prop) `{!∀ x, Decision (P x), !∀ x, Decision (Q x)} l :
  (∀ x, x ∈ l → P x → Q x) → (∀ x, x ∈ l → Q x → ¬ P x → f x = 0) →
  zsum f (filter Q l) = zsum f (filter P l).
Proof.
  induction l as [|x l IH]; intros HPQ Hz; [done|]. rewrite !filter_cons.
  assert (IH' : zsum f (filter Q l) = zsum f (filter P l)) by (apply IH; set_solver).
  pose proof (HPQ x (list_elem_of_here _ _)). pose proof (Hz x (list_elem_of_here _ _)).
  repeat case_decide; rewrite ?zsum_cons; naive_solver lia.
Qed.
End zsum.
Lemma zsum_map {A B} (f : B → Z) (g : A → B) l : zsum f (map g l) = zsum (λ x, f (g x)) l.
Proof. induction l as [|x l IH]; [done|]. cbn [map]. by rewrite !zsum_cons, IH. Qed.

(** ** List facts the components share *)
Lemma StronglySorted_filter {A} (R : A → A → Prop) (P : A → Prop) `{!∀ x, Decision (P x)} l :
  StronglySorted R l → StronglySorted R (filter P l).
Proof.
  induction 1 as [|x l Hs IH Hx]; [constructor|]. rewrite filter_cons. case_decide; [|done].
  constructor; [done|]. rewrite Forall_forall in *. intros y [_ Hy]%list_elem_of_filter. eauto.
Qed.

Lemma NoDup_map_filter {A B} (f : A → B) (P : A → Prop) `{!∀ x, Decision (P x)} l :
  NoDup (map f l) → NoDup (map f (filter P l)).
Proof. intros Hnd. eapply sublist_NoDup; [exact Hnd|]. apply fmap_sublist, sublist_filter. Qed.

Lemma filter_ext_elem {A} (P Q : A → Prop) `{!∀ x, Decision (P x), !∀ x, Decision (Q x)}
    (l : list A) :
  (∀ x, x ∈ l → P x ↔ Q x) → filter P l = filter Q l.
Proof.
  induction l as [|x l IH]; intros HPQ; [done|]. rewrite !filter_cons.
  rewrite IH by set_solver. apply decide_ext, HPQ. set_solver.
Qed.

Lemma filter_all {A} (P : A → Prop) `{!∀ x, Decision (P x)} (l : list A) :
  (∀ x, x ∈ l → P x) → filter P l = l.
Proof.
  induction l as [|x l IH]; intros HP; [done|]. rewrite filter_cons, decide_True by (apply HP; set_solver).
  f_equal. apply IH. set_solver.
Qed.

Lemma filter_none {A} (P : A → Prop) `{!∀ x, Decision (P x)} (l : list A) :
  (∀ x, x ∈ l → ¬ P x) → filter P l = [].
Proof.
  induction l as [|x l IH]; intros HP; [done|]. rewrite filter_cons, decide_False by (apply HP; set_solver).
  apply IH. set_solver.
Qed.

Lemma submseteq_NoDup {A} (l k : list A) : l ⊆+ k → NoDup k → NoDup l.
Proof. intros [r ->]%submseteq_Permutation. by intros [? _]%NoDup_app. Qed.

Lemma filter_bool_perm {A} (f : A → bool) (l : list A) :
  filter (λ x, f x = true) l ++ filter (λ x, f x = false) l ≡ₚ l.
Proof.
  induction l as [|x l IH]; [done|]. rewrite !filter_cons.
  destruct (f x); [rewrite decide_True, decide_False by done|rewrite decide_False, decide_True by done].
  - by rewrite <- app_comm_cons, IH.
  - by rewrite <- Permutation_middle, IH.
Qed.

Lemma filter_dec_perm {A} (P : A → Prop) `{!∀ x, Decision (P x)} (l : list A) :
  filter P l ++ filter (λ x, ¬ P x) l ≡ₚ l.
Proof.
  induction l as [|x l IH]; [done|]. rewrite !filter_cons. destruct (decide (P x)).
  - rewrite decide_False by tauto. by rewrite <- app_comm_cons, IH.
  - rewrite decide_True by done. by rewrite <- Permutation_middle, IH.
Qed.

(** A key that is unique in a list determines its element. *)
Lemma NoDup_map_inj {A B} (f : A → B) l a b :
  NoDup (map f l) → a ∈ l → b ∈ l → f a = f b → a = b.
Proof.
  induction l as [|x l IH]; intros Hnd Ha Hb E; [set_solver|]. cbn in Hnd.
  apply NoDup_cons in Hnd as [Hni Hnd].
  assert (∀ y, y ∈ l → f y ≠ f x).
  { intros y Hy Heq. apply Hni. rewrite <- Heq. by apply list_elem_of_fmap_2. }
  apply elem_of_cons in Ha as [->|Ha], Hb as [->|Hb]; naive_solver.
Qed.

(** Counting occurrences: lists whose restrictions to every class agree are rearrangements. *)
Lemma count_occ_filter {A} `{EqDecision A} (P : A → Prop) `{!∀ x, Decision (P x)} l x :
  P x → count_occ (decide_rel (=)) (filter P l) x = count_occ (decide_rel (=)) l x.
Proof.
  intros HP. induction l as [|y l IH]; [done|]. rewrite filter_cons. cbn.
  destruct (decide_rel eq y x) as [->|Hne].
  - rewrite decide_True by done. cbn. destruct (decide_rel eq x x); [by f_equal|done].
  - case_decide; [|done]. cbn. by destruct (decide_rel eq y x).
Qed.

Lemma perm_by_class {A B} `{EqDecision A} (P : B → A → Prop) `{!∀ b x, Decision (P b x)} l k :
  (∀ x, ∃ b, P b x) → (∀ b, filter (P b) l ≡ₚ filter (P b) k) → l ≡ₚ k.
Proof.
  intros Hex Heq. apply (Permutation_count_occ (decide_rel (=))). intros x.
  destruct (Hex x) as [b Hb]. rewrite <- (count_occ_filter (P b) l x Hb), <- (count_occ_filter (P b) k x Hb).
  apply Permutation_count_occ, Heq.
Qed.

(** ** Stable sorting: Python's [sorted(l, key=...)]

    Insertion sort; an element goes in front of the ones it is not greater than, so equal keys
    keep their order. *)
Section sort.
Context {A : Type} (leb : A → A → bool).

Fixpoint insert_by (x : A) (l : list A) : list A :=
  match l with
  | [] => [x]
  | y :: l' => if leb x y then x :: y :: l' else y :: insert_by x l'
  end.

Fixpoint sort_by (l : list A) : list A :=
  match l with
  | [] => []
  | x :: l' => insert_by x (sort_by l')
  end.

Lemma insert_by_perm x l : insert_by x l ≡ₚ x :: l.
Proof.
  induction l as [|y l IH]; cbn; [done|]. case_match; [done|]. rewrite IH. apply perm_swap.
Qed.

Lemma sort_by_perm l : sort_by l ≡ₚ l.
Proof. induction l as [|x l IH]; cbn; [done|]. rewrite insert_by_perm. by rewrite IH. Qed.

Lemma elem_of_sort_by x l : x ∈ sort_by l ↔ x ∈ l.
Proof. by rewrite sort_by_perm. Qed.

Hypothesis leb_total : ∀ x y, leb x y = true ∨ leb y x = true.
Hypothesis leb_trans : ∀ x y z, leb x y = true → leb y z = true → leb x z = true.

Lemma insert_by_sorted x l :
  StronglySorted (λ a b, leb a b = true) l → StronglySorted (λ a b, leb a b = true) (insert_by x l).
Proof.
  induction 1 as [|y l Hs IH Hy]; cbn; [by repeat constructor|]. destruct (leb x y) eqn:E.
  - repeat constructor; try done. eapply Forall_impl; [exact Hy|]. intros; by eapply leb_trans.
  - constructor; [done|]. rewrite insert_by_perm. constructor; [|done].
    by destruct (leb_total x y); [congruence|].
Qed.

Lemma sort_by_sorted l : StronglySorted (λ a b, leb a b = true) (sort_by l).
Proof. induction l; cbn; [constructor|]. by apply insert_by_sorted. Qed.

(** Two sorted arrangements of the same elements agree when the key determines the element. *)
Lemma sorted_perm_unique l k :
  StronglySorted (λ a b, leb a b = true) l → StronglySorted (λ a b, leb a b = true) k →
  (∀ a b, a ∈ l → b ∈ l → leb a b = true → leb b a = true → a = b) →
  l ≡ₚ k → l = k.
Proof.
  intros Hl. revert k. induction Hl as [|x l Hl IH Hx]; intros k Hk Hanti Hp.
  { by apply Permutation_nil_l in Hp. }
  destruct Hk as [|y k Hk Hy]; [by apply Permutation_nil_r in Hp|].
  assert (x = y) as ->.
  { assert (x ∈ y :: k) as [->|Hxk]%elem_of_cons by (rewrite <- Hp; set_solver); [done|].
    assert (y ∈ x :: l) as [->|Hyl]%elem_of_cons by (rewrite Hp; set_solver); [done|].
    rewrite Forall_forall in Hx, Hy. apply Hanti; set_solver. }
  f_equal. apply IH; [done| |by apply Permutation_cons_inv in Hp].
  intros; apply Hanti; set_solver.
Qed.

Lemma sort_by_perm_eq l k :
  (∀ a b, a ∈ l → b ∈ l → leb a b = true → leb b a = true → a = b) →
  l ≡ₚ k → sort_by l = sort_by k.
Proof.
  intros Hanti Hp. apply sorted_perm_unique; [apply sort_by_sorted..| |].
  - intros a b Ha Hb. rewrite elem_of_sort_by in Ha, Hb. by apply Hanti.
  - by rewrite !sort_by_perm.
Qed.
End sort.
