(* ===== verification/Orders.v ===== *)
(** * Orders

    The order dict the off-chain layer passes around: created by [api_order]
    (src/offchain/server.py), planned by src/offchain/round.py, cleared by
    src/offchain/clearing.py. *)
From S2P Require Import Prelude.

(** [side] is an integer in the code (0 and 1 from the API; any byte from a parsed book). *)
Definition BUY : Z := 0.
Definition SELL : Z := 1.

Inductive order_type := limit | market.
#[global] Instance order_type_eq_dec : EqDecision order_type.
Proof. solve_decision. Defined.

(** The order dict.  [o_ref] is the identity of the dict object, what [id(o)] returns: two
    entries of a list with one [o_ref] are the same Python object.  Optional keys
    ([expiry], [reveal], [ciphertext], [commit]) are options; times are integers in the unit
    of the clock (the code only compares and subtracts them). *)
Record order := Order {
  o_ref : positive;
  account : Z;
  oid : Z;
  side : Z;
  price : Z;
  qty : Z;
  otype : order_type;
  sealed : bool;
  seq : Z;
  signed_price : Z;
  pubkey : list Z;
  sig : list Z;
  expiry : option Z;
  reveal : option (list Z);
  ciphertext : option (list Z);
  commit : option (list Z)
}.

#[global] Instance order_eq_dec : EqDecision order.
Proof. solve_decision. Defined.

(** The API only creates orders of the two sides and with quantities that fit the wire. *)
Definition valid_side (o : order) : Prop := side o = BUY ∨ side o = SELL.
Definition nonneg_qty (o : order) : Prop := 0 ≤ qty o.

(** A plain order, for examples: no signature material, no expiry. *)
Definition mk_order (ref : positive) (a i s p q : Z) (hidden : bool) : order :=
  {| o_ref := ref; account := a; oid := i; side := s; price := p; qty := q; otype := limit;
     sealed := hidden; seq := 0; signed_price := p; pubkey := []; sig := []; expiry := None;
     reveal := None; ciphertext := None; commit := None |}.
