(* ===== verification/Clearing.v ===== *)
(** * Uniform-price batch clearing

    src/offchain/clearing.py: [clear] picks the one price that maximises the matched volume
    (then the smallest imbalance, then the lowest price) and rations both sides to that volume
    by price-time priority. *)
From S2P Require Import Prelude Orders.

Record clearing := Clearing {
  c_price : Z;
  c_volume : Z;
  c_fills : gmap Z Z                  (** oid -> filled quantity *)
}.

#[global] Instance clearing_eq_dec : EqDecision clearing.
Proof. solve_decision. Defined.

Definition no_clearing : clearing := Clearing 0 0 ∅.

(** ** The code *)

(** The orders that would trade at price [p]. *)
Definition bids_at (p : Z) (o : order) : Prop := side o = BUY ∧ p ≤ price o.
Definition asks_at (p : Z) (o : order) : Prop := side o = SELL ∧ price o ≤ p.
#[global] Instance bids_at_dec p o : Decision (bids_at p o).
Proof. unfold bids_at. apply _. Defined.
#[global] Instance asks_at_dec p o : Decision (asks_at p o).
Proof. unfold asks_at. apply _. Defined.

Definition demand (orders : list order) (p : Z) : Z := zsum qty (filter (bids_at p) orders).
Definition supply (orders : list order) (p : Z) : Z := zsum qty (filter (asks_at p) orders).

(** [sorted({o["price"] for o in orders})] *)
Definition candidates (orders : list order) : list Z :=
  sort_by Z.leb (remove_dups (map price orders)).

(** The loop's running best: price, volume, imbalance ([None] is [float("inf")]). *)
Definition best : Type := Z * Z * option Z.

Definition below_inf (x : Z) (b : option Z) : bool :=
  match b with None => true | Some y => x <? y end.

Definition improve (orders : list order) (b : best) (p : Z) : best :=
  let '(best_p, best_v, best_imb) := b in
  let d := demand orders p in
  let s := supply orders p in
  let v := Z.min d s in
  let imb := Z.abs (d - s) in
  if (best_v <? v) || ((v =? best_v) && (0 <? v) && below_inf imb best_imb)
  then (p, v, Some imb) else b.

Definition best_price (orders : list order) : best :=
  foldl (improve orders) (0, 0, None) (candidates orders).

(** Sort keys [(-price, oid)] and [(price, oid)]. *)
Definition buy_leb (a b : order) : bool :=
  (price b <? price a) || ((price a =? price b) && (oid a <=? oid b)).
Definition sell_leb (a b : order) : bool :=
  (price a <? price b) || ((price a =? price b) && (oid a <=? oid b)).

Definition buy_queue (orders : list order) (p : Z) : list order :=
  sort_by buy_leb (filter (bids_at p) orders).
Definition sell_queue (orders : list order) (p : Z) : list order :=
  sort_by sell_leb (filter (asks_at p) orders).

Fixpoint ration (rem : Z) (side : list order) (fills : gmap Z Z) : gmap Z Z :=
  match side with
  | [] => fills
  | o :: rest =>
      if rem =? 0 then fills else
      let f := Z.min rem (qty o) in
      ration (rem - f) rest (<[oid o := default 0 (fills !! oid o) + f]> fills)
  end.

Definition clear (orders : list order) : clearing :=
  let '(p, v, _) := best_price orders in
  if v =? 0 then no_clearing
  else Clearing p v (ration v (sell_queue orders p) (ration v (buy_queue orders p) ∅)).

(** [fills.get(oid, 0)] *)
Definition fill_of (c : clearing) (o : order) : Z := default 0 (c_fills c !! oid o).

(** ** The price

    Volume is at most what the chosen price clears, for every price (not only the submitted
    ones); [best_price] is characterised once, by the invariant of its loop. *)
Definition vol (orders : list order) (p : Z) : Z := Z.min (demand orders p) (supply orders p).
Definition imbalance (orders : list order) (p : Z) : Z :=
  Z.abs (demand orders p - supply orders p).

Lemma demand_nonneg orders p : (∀ o, o ∈ orders → nonneg_qty o) → 0 ≤ demand orders p.
Proof. intros H. apply zsum_nonneg. intros o [_ Ho]%list_elem_of_filter. by apply H. Qed.

Lemma supply_nonneg orders p : (∀ o, o ∈ orders → nonneg_qty o) → 0 ≤ supply orders p.
Proof. intros H. apply zsum_nonneg. intros o [_ Ho]%list_elem_of_filter. by apply H. Qed.

Lemma vol_nonneg orders p : (∀ o, o ∈ orders → nonneg_qty o) → 0 ≤ vol orders p.
Proof.
  intros H. unfold vol. pose proof (demand_nonneg orders p H). pose proof (supply_nonneg orders p H).
  lia.
Qed.

Lemma elem_of_candidates orders p : p ∈ candidates orders ↔ ∃ o, o ∈ orders ∧ price o = p.
Proof.
  unfold candidates. rewrite elem_of_sort_by, elem_of_remove_dups, list_elem_of_fmap.
  naive_solver.
Qed.

(** What the loop knows after the candidates [seen]: the best so far dominates each of them in
    the order volume, then imbalance, then price. *)
Definition dominates (orders : list order) (b : best) (p : Z) : Prop :=
  let '(bp, bv, bi) := b in
  vol orders p < bv ∨ (vol orders p = bv ∧ (bv = 0 ∨
    (bv = vol orders bp ∧ bi = Some (imbalance orders bp) ∧
     (imbalance orders bp < imbalance orders p ∨
      imbalance orders bp = imbalance orders p ∧ bp ≤ p)))).

Definition best_ok (orders : list order) (seen : list Z) (b : best) : Prop :=
  let '(bp, bv, bi) := b in
  0 ≤ bv ∧ (bv = 0 ∧ bi = None ∨
            bv = vol orders bp ∧ 0 < bv ∧ bi = Some (imbalance orders bp) ∧ bp ∈ seen) ∧
  ∀ p, p ∈ seen → dominates orders b p.

Lemma improve_ok orders seen b p :
  (∀ q, q ∈ seen → q ≤ p) → 0 ≤ vol orders p →
  best_ok orders seen b → best_ok orders (seen ++ [p]) (improve orders b p).
Proof.
  destruct b as [[bp bv] bi]. intros Hsorted Hnn (Hnn' & Hcase & Hdom). unfold improve.
  fold (vol orders p) (imbalance orders p). destruct (_ || _) eqn:E.
  - assert (0 < vol orders p).
    { apply orb_true_iff in E as [E|E]; zbool; lia. }
    split; [lia|]. split; [right; set_solver|].
    intros q [Hq| ->%list_elem_of_singleton]%elem_of_app; [|cbn; right; split; [done|]; right; split_and!; [done..|lia]].
    specialize (Hdom q Hq). cbn in Hdom |- *. apply Hsorted in Hq.
    apply orb_true_iff in E as [E|E]; [zbool; lia|].
    apply andb_true_iff in E as [[Ev Epos]%andb_true_iff Eimb]. zbool.
    destruct Hdom as [?|(? & [?|(? & -> & ?)])]; [lia..|]. cbn in Eimb. zbool.
    right. split_and!; [lia|]. right. split_and!; [done..|lia].
  - apply orb_false_iff in E as [Ev E]. zbool. split; [done|].
    split; [destruct Hcase as [?|(?&?&?&?)]; [by left|right; set_solver]|].
    intros q [Hq| ->%list_elem_of_singleton]%elem_of_app; [by apply Hdom|]. cbn.
    destruct (decide (vol orders p < bv)); [by left|]. right. split; [lia|].
    destruct Hcase as [[-> _]|(? & ? & -> & Hin)]; [by left|]. right. split_and!; [done..|].
    apply Hsorted in Hin.
    assert (imbalance orders bp ≤ imbalance orders p); [|lia].
    apply andb_false_iff in E as [[?|?]%andb_false_iff|?]; cbn in *; zbool; lia.
Qed.

Lemma best_price_ok orders :
  (∀ o, o ∈ orders → nonneg_qty o) → best_ok orders (candidates orders) (best_price orders).
Proof.
  intros Hq. unfold best_price.
  assert (Hsort : StronglySorted (λ a b, Z.leb a b = true) (candidates orders)).
  { apply sort_by_sorted; intros; zbool; rewrite ?Z.leb_le in *; lia. }
  assert (Hgen : ∀ todo seen b, StronglySorted (λ a b, Z.leb a b = true) todo →
    (∀ p q, p ∈ seen → q ∈ todo → p ≤ q) → best_ok orders seen b →
    best_ok orders (seen ++ todo) (foldl (improve orders) b todo)).
  { intros todo. induction todo as [|p todo IH]; intros seen b Hs Hle Hb; cbn [foldl].
    { by rewrite app_nil_r. }
    inversion_clear Hs as [|? ? Hs' Hp]. rewrite Forall_forall in Hp.
    replace (seen ++ p :: todo) with ((seen ++ [p]) ++ todo) by by rewrite <- (assoc_L (++)).
    apply IH; [done| |apply improve_ok; [set_solver|by apply vol_nonneg|done]].
    intros q r [Hq'| ->%list_elem_of_singleton]%elem_of_app Hr; [set_solver|].
    apply Hp in Hr. by zbool. }
  apply (Hgen _ [] (0, 0, None)); [done|set_solver|].
  split; [done|]. split; [by left|]. set_solver.
Qed.

(** The two outcomes of [clear]. *)
Lemma clear_cases orders :
  (∀ o, o ∈ orders → nonneg_qty o) →
  (clear orders = no_clearing ∧ ∀ p, p ∈ candidates orders → vol orders p = 0) ∨
  (∃ p v fills, clear orders = Clearing p v fills ∧
     fills = ration v (sell_queue orders p) (ration v (buy_queue orders p) ∅) ∧
     p ∈ candidates orders ∧ v = vol orders p ∧ 0 < v ∧
     ∀ q, q ∈ candidates orders → vol orders q ≤ v ∧
       (vol orders q = v → imbalance orders p < imbalance orders q ∨
          imbalance orders p = imbalance orders q ∧ p ≤ q)).
Proof.
  intros Hq. pose proof (best_price_ok orders Hq) as Hb. unfold clear.
  destruct (best_price orders) as [[p v] bi]. destruct Hb as (Hv & Hcase & Hdom). cbn in Hdom.
  destruct (Z.eqb_spec v 0) as [->|Hne].
  - left. split; [done|]. intros q Hin. apply Hdom in Hin. pose proof (vol_nonneg orders q Hq). lia.
  - right. destruct Hcase as [[? _]|(-> & Hpos & -> & Hin)]; [done|].
    do 3 eexists. split_and!; [done|done|done|done|lia|].
    intros q Hqin. apply Hdom in Hqin. lia.
Qed.

(** Every price is matched or beaten by a submitted one: the lowest submitted price not below it
    sees the same demand and at least the supply. *)
Lemma vol_candidate orders q :
  (∀ o, o ∈ orders → nonneg_qty o) → 0 < vol orders q →
  ∃ p, p ∈ candidates orders ∧ vol orders q ≤ vol orders p.
Proof.
  intros Hq Hpos.
  destruct (filter (λ p, q ≤ p) (candidates orders)) as [|p above] eqn:Ha.
  - exfalso. assert (demand orders q = 0); [|unfold vol in Hpos; lia].
    apply zsum_zero. intros o [[_ Hle] Ho]%list_elem_of_filter.
    assert (price o ∈ filter (λ p, q ≤ p) (candidates orders)); [|rewrite Ha in *; set_solver].
    apply list_elem_of_filter. split; [done|]. apply elem_of_candidates. eauto.
  - assert (Hp : q ≤ p ∧ p ∈ candidates orders).
    { apply (list_elem_of_filter (λ p, q ≤ p)). rewrite Ha. set_solver. }
    assert (Hlow : ∀ o, o ∈ orders → q ≤ price o → p ≤ price o).
    { intros o Ho Hle.
      assert (Hs : StronglySorted (λ a b, Z.leb a b = true) (p :: above)).
      { rewrite <- Ha. apply StronglySorted_filter, sort_by_sorted;
          intros; rewrite ?Z.leb_le in *; lia. }
      assert (Hin : price o ∈ p :: above).
      { rewrite <- Ha. apply list_elem_of_filter. split; [done|]. apply elem_of_candidates. eauto. }
      inversion_clear Hs as [|? ? _ Hall]. rewrite Forall_forall in Hall.
      apply elem_of_cons in Hin as [->|Hin]; [done|]. apply Hall in Hin. by zbool. }
    exists p. split; [tauto|]. unfold vol, demand, supply.
    assert (zsum qty (filter (bids_at q) orders) ≤ zsum qty (filter (bids_at p) orders)).
    { apply zsum_filter_mono; [done|]. intros o Ho [? ?]. split; naive_solver. }
    assert (zsum qty (filter (asks_at q) orders) ≤ zsum qty (filter (asks_at p) orders)).
    { apply zsum_filter_mono; [done|]. intros o Ho [? ?]. split; [done|lia]. }
    lia.
Qed.

(** ** Rationing *)

(** What an order receives when [ahead] is served before it. *)
Definition share (v : Z) (ahead : list order) (o : order) : Z :=
  Z.min (qty o) (Z.max 0 (v - zsum qty ahead)).

Lemma ration_other rem l m i : i ∉ map oid l → ration rem l m !! i = m !! i.
Proof.
  revert rem m. induction l as [|o l IH]; intros rem m Hi; cbn; [done|]. case_match; [done|].
  rewrite IH by set_solver. apply lookup_insert_ne. set_solver.
Qed.

Lemma ration_fill rem l1 o l2 m :
  (∀ x, x ∈ l1 ++ o :: l2 → nonneg_qty x) → 0 ≤ rem → NoDup (map oid (l1 ++ o :: l2)) →
  m !! oid o = None →
  default 0 (ration rem (l1 ++ o :: l2) m !! oid o) = share rem l1 o.
Proof.
  revert rem m. induction l1 as [|x l1 IH]; intros rem m Hq Hrem Hnd Hm; cbn in Hnd |- *.
  - apply NoDup_cons in Hnd as [Hni _]. assert (0 ≤ qty o) by (apply Hq; set_solver).
    unfold share. cbn. destruct (Z.eqb_spec rem 0) as [->|].
    + rewrite Hm. cbn. lia.
    + rewrite ration_other by done. rewrite lookup_insert_eq, Hm. cbn. lia.
  - apply NoDup_cons in Hnd as [Hni Hnd]. assert (0 ≤ qty x) by (apply Hq; set_solver).
    assert (0 ≤ qty o) by (apply Hq; set_solver).
    assert (0 ≤ zsum qty l1) by (apply zsum_nonneg; intros; apply Hq; set_solver).
    assert (oid x ≠ oid o) by (rewrite map_app in Hni; set_solver).
    unfold share. rewrite zsum_cons. destruct (Z.eqb_spec rem 0) as [->|].
    + rewrite Hm. cbn. lia.
    + rewrite IH; [unfold share; lia|set_solver|lia|done|by rewrite lookup_insert_ne].
Qed.

Lemma share_bounds v ahead o : nonneg_qty o → 0 ≤ share v ahead o ≤ qty o.
Proof. unfold share, nonneg_qty. lia. Qed.

(** Serving a queue in order hands out the whole volume. *)
Lemma share_sum v l (f : order → Z) :
  (∀ x, x ∈ l → nonneg_qty x) → 0 ≤ v →
  (∀ l1 o l2, l = l1 ++ o :: l2 → f o = share v l1 o) →
  zsum f l = Z.min v (zsum qty l).
Proof.
  intros Hq Hv Hf.
  assert (Hgen : ∀ l2 l1, l = l1 ++ l2 →
    zsum f l2 = Z.min (Z.max 0 (v - zsum qty l1)) (zsum qty l2)).
  { intros l2. induction l2 as [|o l2 IH]; intros l1 ->; [rewrite !zsum_nil; lia|].
    assert (0 ≤ qty o) by (apply Hq; set_solver).
    assert (0 ≤ zsum qty l2) by (apply zsum_nonneg; intros; apply Hq; set_solver).
    rewrite !zsum_cons, (Hf l1 o l2 eq_refl), (IH (l1 ++ [o])) by by rewrite <- (assoc_L (++)).
    unfold share. rewrite zsum_app, zsum_cons, zsum_nil. lia. }
  assert (0 ≤ zsum qty l) by (by apply zsum_nonneg).
  rewrite (Hgen l [] eq_refl), zsum_nil. lia.
Qed.

(** ** Per-order fills, when order ids are distinct *)
Section fills.
Context (orders : list order).
Hypothesis Hqty : ∀ o, o ∈ orders → nonneg_qty o.
Hypothesis Hoids : NoDup (map oid orders).

Lemma elem_of_buy_queue p o : o ∈ buy_queue orders p ↔ o ∈ orders ∧ side o = BUY ∧ p ≤ price o.
Proof. unfold buy_queue. rewrite elem_of_sort_by, list_elem_of_filter. unfold bids_at, asks_at. tauto. Qed.

Lemma elem_of_sell_queue p o : o ∈ sell_queue orders p ↔ o ∈ orders ∧ side o = SELL ∧ price o ≤ p.
Proof. unfold sell_queue. rewrite elem_of_sort_by, list_elem_of_filter. unfold bids_at, asks_at. tauto. Qed.

Lemma buy_queue_oids p : NoDup (map oid (buy_queue orders p)).
Proof. unfold buy_queue. rewrite sort_by_perm. by apply NoDup_map_filter. Qed.

Lemma sell_queue_oids p : NoDup (map oid (sell_queue orders p)).
Proof. unfold sell_queue. rewrite sort_by_perm. by apply NoDup_map_filter. Qed.

Lemma oid_not_in_queue p o queue :
  (∀ x, x ∈ queue → x ∈ orders ∧ side x = p) → o ∈ orders → side o ≠ p → oid o ∉ map oid queue.
Proof.
  intros Hin Ho Hs (x & Heq & Hx)%list_elem_of_fmap. apply Hin in Hx as [Hx <-].
  apply Hs. by rewrite (NoDup_map_inj oid orders o x Hoids Ho Hx Heq).
Qed.

Lemma fill_buy p v l1 o l2 :
  buy_queue orders p = l1 ++ o :: l2 → 0 ≤ v →
  fill_of (Clearing p v (ration v (sell_queue orders p) (ration v (buy_queue orders p) ∅))) o
  = share v l1 o.
Proof.
  intros Hbq Hv. assert (o ∈ buy_queue orders p) as (Ho & Hside & _)%elem_of_buy_queue
    by (rewrite Hbq; set_solver).
  unfold fill_of. cbn [c_fills]. rewrite ration_other.
  - pose proof (buy_queue_oids p) as Hnd. rewrite Hbq in Hnd |- *. apply ration_fill; try done.
    intros x Hx. rewrite <- Hbq in Hx. apply elem_of_buy_queue in Hx. naive_solver.
  - apply (oid_not_in_queue SELL); [|done|by rewrite Hside].
    intros x Hx%elem_of_sell_queue. tauto.
Qed.

Lemma fill_sell p v l1 o l2 :
  sell_queue orders p = l1 ++ o :: l2 → 0 ≤ v →
  fill_of (Clearing p v (ration v (sell_queue orders p) (ration v (buy_queue orders p) ∅))) o
  = share v l1 o.
Proof.
  intros Hsq Hv. assert (o ∈ sell_queue orders p) as (Ho & Hside & _)%elem_of_sell_queue
    by (rewrite Hsq; set_solver).
  unfold fill_of. cbn [c_fills]. pose proof (sell_queue_oids p) as Hnd. rewrite Hsq in Hnd |- *.
  apply ration_fill; try done.
  - intros x Hx. rewrite <- Hsq in Hx. apply elem_of_sell_queue in Hx. naive_solver.
  - rewrite ration_other; [apply lookup_empty|].
    apply (oid_not_in_queue BUY); [|done|by rewrite Hside].
    intros x Hx%elem_of_buy_queue. tauto.
Qed.

Lemma fill_ineligible p v o :
  o ∈ orders → o ∉ buy_queue orders p → o ∉ sell_queue orders p →
  fill_of (Clearing p v (ration v (sell_queue orders p) (ration v (buy_queue orders p) ∅))) o = 0.
Proof.
  intros Ho Hb Hs. unfold fill_of. cbn [c_fills]. rewrite !ration_other; [by rewrite lookup_empty|..].
  all: intros (x & Heq & Hx)%list_elem_of_fmap.
  - assert (x ∈ orders) by (apply elem_of_buy_queue in Hx; tauto).
    by rewrite (NoDup_map_inj oid orders o x) in Hb.
  - assert (x ∈ orders) by (apply elem_of_sell_queue in Hx; tauto).
    by rewrite (NoDup_map_inj oid orders o x) in Hs.
Qed.
End fills.

(** Splits on the two outcomes of [clear orders], naming the price, volume and fills. *)
Ltac clear_split orders Hq :=
  destruct (clear_cases orders Hq)
    as [[Hc Hzero]|(p & v & fills & Hc & Hfills & Hp & Hv & Hpos & Hbest)];
  rewrite Hc; cbn [c_price c_volume c_fills no_clearing].

Lemma vol_le_volume orders q :
  (∀ o, o ∈ orders → nonneg_qty o) → vol orders q ≤ c_volume (clear orders).
Proof.
  intros Hq. destruct (decide (0 < vol orders q)) as [Hpos'|Hle].
  - destruct (vol_candidate orders q Hq Hpos') as (p' & Hp' & Hle).
    clear_split orders Hq; [rewrite (Hzero p' Hp') in Hle; lia|]. destruct (Hbest p' Hp'). lia.
  - clear_split orders Hq; lia.
Qed.

(** The fill of an order on either queue, and of an order on neither. *)
Lemma fill_of_cases orders o :
  (∀ o, o ∈ orders → nonneg_qty o) → NoDup (map oid orders) → o ∈ orders →
  let c := clear orders in
  (fill_of c o = 0) ∨
  (∃ l1 l2, 0 < c_volume c ∧ buy_queue orders (c_price c) = l1 ++ o :: l2 ∧
            fill_of c o = share (c_volume c) l1 o) ∨
  (∃ l1 l2, 0 < c_volume c ∧ sell_queue orders (c_price c) = l1 ++ o :: l2 ∧
            fill_of c o = share (c_volume c) l1 o).
Proof.
  intros Hq Hnd Ho. cbn zeta. clear_split orders Hq.
  { left. done. }
  subst fills. destruct (decide (o ∈ buy_queue orders p)) as [(l1 & l2 & Hb)%list_elem_of_split|Hb].
  { right; left. exists l1, l2. split_and!; [done..|]. eapply fill_buy; [done..|lia]. }
  destruct (decide (o ∈ sell_queue orders p)) as [(l1 & l2 & Hs)%list_elem_of_split|Hs].
  { right; right. exists l1, l2. split_and!; [done..|]. eapply fill_sell; [done..|lia]. }
  left. by apply fill_ineligible.
Qed.

Lemma fill_nonneg orders o :
  (∀ o, o ∈ orders → nonneg_qty o) → NoDup (map oid orders) → o ∈ orders → 0 ≤ fill_of (clear orders) o.
Proof.
  intros Hq Hnd Ho. pose proof (Hq o Ho) as Hqo.
  destruct (fill_of_cases orders o Hq Hnd Ho) as [->|[(l1 & l2 & _ & Hb & ->)|(l1 & l2 & _ & Hs & ->)]];
    [done|by apply share_bounds..].
Qed.

Lemma fill_le_qty orders o :
  (∀ o, o ∈ orders → nonneg_qty o) → NoDup (map oid orders) → o ∈ orders → fill_of (clear orders) o ≤ qty o.
Proof.
  intros Hq Hnd Ho. pose proof (Hq o Ho) as Hqo.
  destruct (fill_of_cases orders o Hq Hnd Ho) as [->|[(l1 & l2 & _ & Hb & ->)|(l1 & l2 & _ & Hs & ->)]];
    [done|by apply share_bounds..].
Qed.

(** A queue's fills add up to the volume. *)
Lemma buy_fills_sum orders :
  (∀ o, o ∈ orders → nonneg_qty o) → NoDup (map oid orders) →
  zsum (fill_of (clear orders)) (filter (λ o, side o = BUY) orders) = c_volume (clear orders).
Proof.
  intros Hq Hnd. clear_split orders Hq; [apply zsum_zero; intros; reflexivity|]. subst fills.
  set (c := Clearing _ _ _).
  rewrite (zsum_filter_zero _ (bids_at p) (λ o, side o = BUY)).
  - transitivity (zsum (fill_of c) (buy_queue orders p)); [by unfold buy_queue; rewrite sort_by_perm|].
    rewrite (share_sum v); [|intros x [? _]%elem_of_buy_queue; naive_solver|lia|].
    + assert (zsum qty (buy_queue orders p) = demand orders p)
        by (unfold buy_queue, demand; by rewrite sort_by_perm).
      unfold vol in Hv. lia.
    + intros l1 o l2 Hb. eapply fill_buy; [done..|lia].
  - intros o _ [? _]. done.
  - intros o Ho Hside Hnb. apply fill_ineligible; [done..| |].
    + intros (_ & ? & ?)%elem_of_buy_queue. by apply Hnb.
    + intros (_ & Hs & _)%elem_of_sell_queue. by rewrite Hside in Hs.
Qed.

Lemma sell_fills_sum orders :
  (∀ o, o ∈ orders → nonneg_qty o) → NoDup (map oid orders) →
  zsum (fill_of (clear orders)) (filter (λ o, side o = SELL) orders) = c_volume (clear orders).
Proof.
  intros Hq Hnd. clear_split orders Hq; [apply zsum_zero; intros; reflexivity|]. subst fills.
  set (c := Clearing _ _ _).
  rewrite (zsum_filter_zero _ (asks_at p) (λ o, side o = SELL)).
  - transitivity (zsum (fill_of c) (sell_queue orders p));
      [by unfold sell_queue; rewrite sort_by_perm|].
    rewrite (share_sum v); [|intros x [? _]%elem_of_sell_queue; naive_solver|lia|].
    + assert (zsum qty (sell_queue orders p) = supply orders p)
        by (unfold sell_queue, supply; by rewrite sort_by_perm).
      unfold vol in Hv. lia.
    + intros l1 o l2 Hb. eapply fill_sell; [done..|lia].
  - intros o _ [? _]. done.
  - intros o Ho Hside Hnb. apply fill_ineligible; [done..| |].
    + intros (_ & Hs & _)%elem_of_buy_queue. by rewrite Hside in Hs.
    + intros (_ & ? & ?)%elem_of_sell_queue. by apply Hnb.
Qed.

(** ** Order of arrival does not matter *)
Lemma demand_perm l k p : l ≡ₚ k → demand l p = demand k p.
Proof. intros H. unfold demand. by rewrite H. Qed.

Lemma supply_perm l k p : l ≡ₚ k → supply l p = supply k p.
Proof. intros H. unfold supply. by rewrite H. Qed.

Lemma remove_dups_perm `{EqDecision A} (l k : list A) : l ≡ₚ k → remove_dups l ≡ₚ remove_dups k.
Proof.
  intros H. apply NoDup_Permutation; [apply NoDup_remove_dups..|].
  intros x. by rewrite !elem_of_remove_dups, H.
Qed.

Lemma candidates_perm l k : l ≡ₚ k → candidates l = candidates k.
Proof.
  intros H. unfold candidates. apply sort_by_perm_eq.
  - intros x y. rewrite !Z.leb_le. lia.
  - intros x y z. rewrite !Z.leb_le. lia.
  - intros a b _ _. rewrite !Z.leb_le. lia.
  - apply remove_dups_perm. by rewrite H.
Qed.

Lemma best_price_perm l k : l ≡ₚ k → best_price l = best_price k.
Proof.
  intros H. unfold best_price. rewrite (candidates_perm l k H).
  assert (Hi : ∀ b p, improve l b p = improve k b p).
  { intros [[bp bv] bi] p. unfold improve. by rewrite (demand_perm l k), (supply_perm l k). }
  generalize (0, 0, @None Z : option Z) as b. induction (candidates k) as [|p ps IH]; intros b; cbn; [done|].
  by rewrite Hi, IH.
Qed.

Lemma buy_leb_spec a b :
  buy_leb a b = true ↔ price b < price a ∨ price a = price b ∧ oid a ≤ oid b.
Proof. unfold buy_leb. rewrite orb_true_iff, andb_true_iff, Z.ltb_lt, Z.eqb_eq, Z.leb_le. done. Qed.

Lemma sell_leb_spec a b :
  sell_leb a b = true ↔ price a < price b ∨ price a = price b ∧ oid a ≤ oid b.
Proof. unfold sell_leb. rewrite orb_true_iff, andb_true_iff, Z.ltb_lt, Z.eqb_eq, Z.leb_le. done. Qed.

Lemma buy_queue_sorted orders p : StronglySorted (λ a b, buy_leb a b = true) (buy_queue orders p).
Proof. apply sort_by_sorted; intros; rewrite ?buy_leb_spec in *; lia. Qed.

Lemma sell_queue_sorted orders p : StronglySorted (λ a b, sell_leb a b = true) (sell_queue orders p).
Proof. apply sort_by_sorted; intros; rewrite ?sell_leb_spec in *; lia. Qed.

Lemma queues_perm l k p :
  NoDup (map oid l) → l ≡ₚ k → buy_queue l p = buy_queue k p ∧ sell_queue l p = sell_queue k p.
Proof.
  intros Hnd H. split; (apply sort_by_perm_eq; [..|by rewrite H]);
    intros *; rewrite ?buy_leb_spec, ?sell_leb_spec, ?list_elem_of_filter; try lia.
  all: intros [_ Ha] [_ Hb] ? ?; apply (NoDup_map_inj oid l); [done..|lia].
Qed.

(** ** Properties *)

(** (C2) The volume [clear] settles is the largest any price could match, and it is really
    matched at the price chosen.  No price whatsoever, submitted or not, would match more (the
    code only tries the submitted limit prices, and that is enough); and either nothing matches
    and nothing is settled, or the volume is exactly the smaller of demand and supply at the
    chosen price, which is a submitted one and, among the submitted prices that match as much,
    has the smallest imbalance and is the lowest of those. *)
Theorem clear_maximal orders :
  (∀ o, o ∈ orders → nonneg_qty o) →
  let v := c_volume (clear orders) in
  let p := c_price (clear orders) in
  (∀ q, Z.min (demand orders q) (supply orders q) ≤ v) ∧
  ((v = 0 ∧ clear orders = no_clearing) ∨
   (0 < v ∧ v = Z.min (demand orders p) (supply orders p) ∧ p ∈ candidates orders ∧
    ∀ q, q ∈ candidates orders → Z.min (demand orders q) (supply orders q) = v →
      imbalance orders p < imbalance orders q ∨
      imbalance orders p = imbalance orders q ∧ p ≤ q)).
Proof.
  intros Hq. cbn zeta. split; [intros q; by apply (vol_le_volume orders q)|].
  clear_split orders Hq; [by left|]. right. fold (vol orders p). subst v.
  split_and!; [done..|]. intros q Hcand Hqv. fold (vol orders q) in Hqv. naive_solver.
Qed.

(** (C3) Conservation: with distinct order ids, the fills of the buys and the fills of the sells
    each add up to the cleared volume. *)
Theorem clear_conserves orders :
  (∀ o, o ∈ orders → nonneg_qty o) → NoDup (map oid orders) →
  zsum (fill_of (clear orders)) (filter (λ o, side o = BUY) orders) = c_volume (clear orders) ∧
  zsum (fill_of (clear orders)) (filter (λ o, side o = SELL) orders) = c_volume (clear orders).
Proof. intros Hq Hnd. split; [by apply buy_fills_sum|by apply sell_fills_sum]. Qed.

(** No order is over-filled, and none trades outside its limit: a filled buy's limit is at
    or above the uniform price, a filled sell's at or below it. *)
Theorem clear_respects_limits orders o :
  (∀ o, o ∈ orders → nonneg_qty o) → NoDup (map oid orders) → o ∈ orders →
  0 ≤ fill_of (clear orders) o ≤ qty o ∧
  (0 < fill_of (clear orders) o →
     side o = BUY ∧ c_price (clear orders) ≤ price o ∨
     side o = SELL ∧ price o ≤ c_price (clear orders)).
Proof.
  intros Hq Hnd Ho. pose proof (Hq o Ho) as Hqo.
  destruct (fill_of_cases orders o Hq Hnd Ho) as [->|[(l1 & l2 & _ & Hb & ->)|(l1 & l2 & _ & Hs & ->)]].
  - unfold nonneg_qty in Hqo. lia.
  - split; [by apply share_bounds|]. intros _. left.
    apply (elem_of_buy_queue orders). rewrite Hb. set_solver.
  - split; [by apply share_bounds|]. intros _. right.
    apply (elem_of_sell_queue orders). rewrite Hs. set_solver.
Qed.

(** An order ahead in its queue that is not filled leaves nothing for the ones behind it. *)
Lemma share_starved v ahead o between o' :
  (∀ x, x ∈ ahead ++ o :: between → nonneg_qty x) → nonneg_qty o' →
  share v ahead o < qty o → share v (ahead ++ o :: between) o' = 0.
Proof.
  unfold share. intros Hq Hq' Hlt. rewrite zsum_app, zsum_cons.
  assert (0 ≤ zsum qty between) by (apply zsum_nonneg; intros; apply Hq; set_solver).
  assert (0 ≤ qty o) by (apply Hq; set_solver). unfold nonneg_qty in Hq'. lia.
Qed.

(** In a queue sorted by a reflexive order, a strictly better element stands first. *)
Lemma sorted_before {A} (leb : A → A → bool) l a b :
  (∀ x, leb x x = true) → StronglySorted (λ x y, leb x y = true) l →
  a ∈ l → b ∈ l → leb b a = false → ∃ l1 l2 l3, l = l1 ++ a :: l2 ++ b :: l3.
Proof.
  intros Hrefl Hs Ha Hb Hlt. induction Hs as [|x l Hs IH Hx]; [set_solver|].
  rewrite Forall_forall in Hx. apply elem_of_cons in Ha as [->|Ha].
  - apply elem_of_cons in Hb as [->|Hb]; [by rewrite Hrefl in Hlt|].
    apply list_elem_of_split in Hb as (l2 & l3 & ->). by exists [], l2, l3.
  - apply elem_of_cons in Hb as [->|Hb]; [by rewrite Hx in Hlt|].
    destruct (IH Ha Hb) as (l1 & l2 & l3 & ->). by exists (x :: l1), l2, l3.
Qed.

(** Price-time priority: the better limit first, the lower order id among equals. *)
Definition ahead_of (a b : order) : Prop :=
  (side a = BUY ∧ side b = BUY ∧ (price b < price a ∨ price a = price b ∧ oid a < oid b)) ∨
  (side a = SELL ∧ side b = SELL ∧ (price a < price b ∨ price a = price b ∧ oid a < oid b)).

(** While an order of a served queue is not completely filled, a worse one gets nothing. *)
Lemma queue_priority leb queue v (f : order → Z) a b :
  (∀ x, leb x x = true) → StronglySorted (λ x y, leb x y = true) queue →
  (∀ x, x ∈ queue → nonneg_qty x) →
  (∀ l1 o l2, queue = l1 ++ o :: l2 → f o = share v l1 o) →
  a ∈ queue → b ∈ queue → leb b a = false → f a < qty a → f b = 0.
Proof.
  intros Hrefl Hs Hq Hf Ha Hb Hlt Hfa.
  destruct (sorted_before leb queue a b) as (k1 & k2 & k3 & Hk); try done.
  rewrite (Hf (k1 ++ a :: k2) b k3) by by rewrite Hk, <- (assoc_L (++)).
  rewrite (Hf k1 a _ Hk) in Hfa. eapply share_starved; [|by apply Hq|done].
  intros x Hx. apply Hq. rewrite Hk. set_solver.
Qed.

(** (C4) Price-time priority: while an order with priority over another of its side is not
    completely filled, the other gets nothing. *)
Theorem clear_priority orders a b :
  (∀ o, o ∈ orders → nonneg_qty o) → NoDup (map oid orders) → a ∈ orders → b ∈ orders →
  ahead_of a b → fill_of (clear orders) a < qty a → fill_of (clear orders) b = 0.
Proof.
  intros Hq Hnd Ha Hb Hahead. clear_split orders Hq; [done|]. subst fills.
  set (c := Clearing _ _ _).
  destruct Hahead as [(Hsa & Hsb & Hbetter)|(Hsa & Hsb & Hbetter)].
  - destruct (decide (p ≤ price b)) as [Hel|Hel].
    + apply (queue_priority buy_leb (buy_queue orders p) v).
      * intros x. apply buy_leb_spec. lia.
      * apply buy_queue_sorted.
      * intros x [Hx _]%elem_of_buy_queue. by apply Hq.
      * intros l1 o l2 Hbq. eapply fill_buy; [done..|lia].
      * apply elem_of_buy_queue. split_and!; [done..|lia].
      * by apply elem_of_buy_queue.
      * apply not_true_iff_false. rewrite buy_leb_spec. lia.
    + intros _. apply fill_ineligible; [done..| |]; rewrite ?elem_of_buy_queue, ?elem_of_sell_queue;
        unfold BUY, SELL in *; lia.
  - destruct (decide (price b ≤ p)) as [Hel|Hel].
    + apply (queue_priority sell_leb (sell_queue orders p) v).
      * intros x. apply sell_leb_spec. lia.
      * apply sell_queue_sorted.
      * intros x [Hx _]%elem_of_sell_queue. by apply Hq.
      * intros l1 o l2 Hbq. eapply fill_sell; [done..|lia].
      * apply elem_of_sell_queue. split_and!; [done..|lia].
      * by apply elem_of_sell_queue.
      * apply not_true_iff_false. rewrite sell_leb_spec. lia.
    + intros _. apply fill_ineligible; [done..| |]; rewrite ?elem_of_buy_queue, ?elem_of_sell_queue;
        unfold BUY, SELL in *; lia.
Qed.

Lemma clear_perm orders orders' :
  NoDup (map oid orders) → orders ≡ₚ orders' → clear orders = clear orders'.
Proof.
  intros Hnd Hp. unfold clear. rewrite (best_price_perm _ _ Hp).
  destruct (best_price orders') as [[p v] bi].
  by destruct (queues_perm orders orders' p Hnd Hp) as [-> ->].
Qed.

(** The result of an auction does not depend on the order in which its orders arrive:
    with distinct ids, permuting the batch changes neither price, volume nor any fill. *)
Theorem clear_order_independent orders orders' :
  NoDup (map oid orders) → orders ≡ₚ orders' → clear orders = clear orders'.
Proof. apply clear_perm. Qed.

(** ** Witnesses

    The batch of docs/ARCHITECTURE.md: asks 100 at 1.10, 1.20 and 1.30, a buy of 100 at 1.25. *)
Definition book_example : list order :=
  [mk_order 1 1 1001 SELL 11000 1000000 false; mk_order 2 2 1002 SELL 12000 1000000 false;
   mk_order 3 3 1003 SELL 13000 1000000 false; mk_order 4 4 1004 BUY 12500 1000000 false].

Lemma book_example_qty : ∀ o, o ∈ book_example → nonneg_qty o.
Proof. apply Forall_forall. by repeat constructor. Qed.

Lemma book_example_oids : NoDup (map oid book_example).
Proof. by apply (bool_decide_unpack _). Qed.

Example book_example_clears : clear book_example = Clearing 11000 1000000
  (<[1001 := 1000000]> (<[1004 := 1000000]> ∅)).
Proof. vm_compute. reflexivity. Qed.

Lemma clear_maximal_witness :
  Z.min (demand book_example 12500) (supply book_example 12500) ≤ 1000000 ∧
  Z.min (demand book_example 11000) (supply book_example 11000) = 1000000 ∧
  (imbalance book_example 11000 < imbalance book_example 12000 ∨
   imbalance book_example 11000 = imbalance book_example 12000 ∧ 11000 ≤ 12000).
Proof.
  pose proof (clear_maximal book_example book_example_qty) as [Hmax Hat].
  rewrite book_example_clears in Hmax, Hat. cbn [c_volume c_price] in Hmax, Hat.
  destruct Hat as [[? _]|(_ & Hv & _ & Hbest)]; [done|].
  split_and!; [apply Hmax|by symmetry|].
  apply Hbest; [by apply (bool_decide_unpack _)|by vm_compute].
Defined.

Lemma clear_conserves_witness :
  zsum (fill_of (clear book_example)) (filter (λ o, side o = SELL) book_example) = 1000000.
Proof.
  pose proof (clear_conserves book_example book_example_qty book_example_oids) as [_ H].
  rewrite book_example_clears in H |- *. exact H.
Defined.

Lemma clear_respects_limits_witness :
  0 ≤ fill_of (clear book_example) (mk_order 4 4 1004 BUY 12500 1000000 false) ≤ 1000000.
Proof.
  apply (clear_respects_limits book_example (mk_order 4 4 1004 BUY 12500 1000000 false)
           book_example_qty book_example_oids).
  by apply (bool_decide_unpack _).
Defined.

(** The 1.10 ask of 100 is partly filled by a buy of 40, so the 1.20 ask gets nothing. *)
Definition partial_example : list order :=
  [mk_order 1 1 1001 SELL 11000 1000000 false; mk_order 2 2 1002 SELL 12000 1000000 false;
   mk_order 4 4 1004 BUY 12500 400000 false].

Lemma clear_priority_witness :
  fill_of (clear partial_example) (mk_order 2 2 1002 SELL 12000 1000000 false) = 0.
Proof.
  apply (clear_priority partial_example (mk_order 1 1 1001 SELL 11000 1000000 false)).
  - apply Forall_forall. by repeat constructor.
  - by apply (bool_decide_unpack _).
  - by apply (bool_decide_unpack _).
  - by apply (bool_decide_unpack _).
  - right. cbn. lia.
  - vm_compute. reflexivity.
Defined.

Lemma clear_order_independent_witness : clear book_example = clear (reverse book_example).
Proof.
  apply (clear_order_independent book_example).
  - exact book_example_oids.
  - symmetry. apply reverse_Permutation.
Defined.
