(* ===== verification/Engine.v ===== *)
(** * The engine the chain runs

    src/crates/match-engine/src/lib.rs: [clear] and [resting], the Rust code that [refine] executes and that
    src/offchain/clearing.py ports.  Sums are 64-bit and fills 32-bit integers, with their wrap-around; the unstable sorts are
    sorts by the same keys, which no two orders share when ids are distinct.  The file's theorem is that the port and the
    engine agree. *)
From S2P Require Import Prelude Orders Clearing.

Definition u32 (x : Z) : Z := x mod 2 ^ 32.
Definition u64 (x : Z) : Z := x mod 2 ^ 64.
Definition U64_MAX : Z := 2 ^ 64 - 1.

Record engine_clearing := EngineClearing { e_price : Z; e_volume : Z; e_fills : list (Z * Z) }.

(** A [Side] is [Buy] or [Sell]: every byte but 0 parses as [Sell]. *)
Definition engine_bid (p : Z) (o : order) : Prop := side o = BUY ∧ p ≤ price o.
Definition engine_ask (p : Z) (o : order) : Prop := side o ≠ BUY ∧ price o ≤ p.
#[global] Instance engine_bid_dec p o : Decision (engine_bid p o).
Proof. unfold engine_bid. apply _. Defined.
#[global] Instance engine_ask_dec p o : Decision (engine_ask p o).
Proof. unfold engine_ask. apply _. Defined.

Definition engine_demand (orders : list order) (p : Z) : Z := foldl (λ acc o, u64 (acc + qty o)) 0 (filter (engine_bid p) orders).
Definition engine_supply (orders : list order) (p : Z) : Z := foldl (λ acc o, u64 (acc + qty o)) 0 (filter (engine_ask p) orders).

(** The price loop: price, volume, imbalance *)
Definition engine_improve (orders : list order) (b : Z * Z * Z) (p : Z) : Z * Z * Z :=
  let '(best_p, best_v, best_imbalance) := b in
  let d := engine_demand orders p in
  let s := engine_supply orders p in
  let v := Z.min d s in
  let imbalance := Z.abs (d - s) in
  if (best_v <? v) || ((v =? best_v) && (0 <? v) && (imbalance <? best_imbalance)) then (p, v, imbalance) else b.

(** [ration]: the fills pushed, in order *)
Fixpoint engine_ration (rem : Z) (queue : list order) : list (Z * Z) :=
  match queue with
  | [] => []
  | o :: rest => if rem =? 0 then [] else let f := Z.min rem (qty o) in (oid o, u32 f) :: engine_ration (rem - f) rest
  end.

(** [clear] *)
Definition engine_clear (orders : list order) : engine_clearing :=
  let '(p, v, _) := foldl (engine_improve orders) (0, 0, U64_MAX) (candidates orders) in
  if v =? 0 then EngineClearing 0 0 []
  else
    let buys := sort_by buy_leb (filter (engine_bid p) orders) in
    let sells := sort_by sell_leb (filter (engine_ask p) orders) in
    EngineClearing p v (engine_ration v buys ++ engine_ration v sells).

(** [resting]: what is left of each order *)
Definition with_qty (q : Z) (o : order) : order :=
  Order (o_ref o) (account o) (oid o) (side o) (price o) q (otype o) (sealed o) (seq o) (signed_price o) (pubkey o) (sig o) (expiry o) (reveal o) (ciphertext o) (commit o).
Definition resting (orders : list order) (c : engine_clearing) : list order :=
  flat_map (λ o,
    let filled := zsum snd (filter (λ f, f.1 = oid o) (e_fills c)) in
    let rem := qty o - filled in
    if 0 <? rem then [with_qty (u32 rem) o] else []) orders.

(** ** The port agrees *)

(** What the wire gives a builder that keeps to it: 32-bit quantities, fewer than 2^32 orders; and what the builder ensures: sides that
    are buy or sell, ids that differ.  (The wire could carry another side byte or an id twice, and there the two engines differ.) *)
Record wire_batch (orders : list order) : Prop := {
  wb_side o : o ∈ orders → valid_side o;
  wb_qty o : o ∈ orders → 0 ≤ qty o < 2 ^ 32;
  wb_length : Z.of_nat (length orders) < 2 ^ 32;
  wb_oids : NoDup (map oid orders)
}.

Lemma zsum_bound (orders : list order) n : (∀ o, o ∈ orders → 0 ≤ qty o < n) → 0 ≤ zsum qty orders ≤ Z.of_nat (length orders) * (n - 1).
Proof.
  induction orders as [|o l IH]; intros H; [cbn; lia|]. rewrite zsum_cons. cbn [length]. rewrite Nat2Z.inj_succ.
  assert (0 ≤ qty o < n) by (apply H; set_solver). assert (0 ≤ zsum qty l ≤ Z.of_nat (length l) * (n - 1)) by (apply IH; intros; apply H; set_solver). nia.
Qed.
Lemma foldl_u64 l acc : 0 ≤ acc < 2 ^ 64 → foldl (λ acc o, u64 (acc + qty o)) acc l = u64 (acc + zsum qty l).
Proof.
  revert acc. induction l as [|o l IH]; intros acc Ha; cbn [foldl].
  - rewrite zsum_nil, Z.add_0_r. unfold u64. by rewrite Z.mod_small.
  - rewrite IH by (unfold u64; apply Z.mod_pos_bound; lia). rewrite zsum_cons. unfold u64. rewrite Zplus_mod_idemp_l. f_equal. lia.
Qed.

Section parity.
Context (orders : list order) (Hw : wire_batch orders).

Lemma sum_fits (P : order → Prop) `{!∀ o, Decision (P o)} : foldl (λ acc o, u64 (acc + qty o)) 0 (filter P orders) = zsum qty (filter P orders).
Proof using Hw.
  rewrite foldl_u64 by lia. unfold u64. rewrite Z.add_0_l. apply Z.mod_small.
  assert (∀ o, o ∈ filter P orders → 0 ≤ qty o < 2 ^ 32) as Hq by (intros o [_ Ho]%list_elem_of_filter; by apply Hw).
  pose proof (zsum_bound _ _ Hq). pose proof (length_filter P orders). pose proof (wb_length _ Hw). nia.
Qed.
Lemma ask_filter p : filter (engine_ask p) orders = filter (asks_at p) orders.
Proof using Hw.
  apply filter_ext_elem. intros o Ho. pose proof (wb_side _ Hw o Ho) as Hs. unfold engine_ask, asks_at, valid_side, BUY, SELL in *. split; intros [? ?]; split; try done; lia.
Qed.
Lemma demand_fits p : engine_demand orders p = demand orders p.
Proof using Hw. apply sum_fits. Qed.
Lemma supply_fits p : engine_supply orders p = supply orders p.
Proof using Hw. unfold engine_supply. rewrite ask_filter. apply sum_fits. Qed.

(** The two loops go together: before a price is chosen both bests are initial. *)
Definition same_best (e : Z * Z * Z) (b : best) : Prop :=
  e.1 = b.1 ∧ match b.2 with None => b.1.2 = 0 | Some i => e.2 = i end.
Lemma improve_same e b p : same_best e b → 0 ≤ b.1.2 → same_best (engine_improve orders e p) (improve orders b p) ∧ 0 ≤ (improve orders b p).1.2.
Proof using Hw.
  destruct e as [[ep ev] ei], b as [[bp bv] bi]. intros [[= -> ->] Hi] Hv. cbn in Hi, Hv. unfold engine_improve, improve. rewrite demand_fits, supply_fits.
  set (v := Z.min _ _). destruct (Z.ltb_spec bv v) as [Hlt|Hge]; cbn [orb]; [split; [done|cbn; lia]|].
  destruct (Z.eqb_spec v bv) as [->|]; cbn [andb]; [|by split].
  destruct (Z.ltb_spec 0 bv); cbn [andb]; [|by split]. destruct bi as [i|]; cbn [below_inf]; [|lia]. cbn in Hi. subst ei.
  destruct (_ <? i); split; cbn; done || lia.
Qed.
Lemma loop_same l e b : same_best e b → 0 ≤ b.1.2 → same_best (foldl (engine_improve orders) e l) (foldl (improve orders) b l).
Proof using Hw.
  revert e b. induction l as [|p l IH]; intros e b H Hv; [done|]. cbn [foldl]. destruct (improve_same e b p H Hv). by apply IH.
Qed.
End parity.

(** The fills pushed are the dict's entries. *)
Lemma ration_map rem l m : (∀ o, o ∈ l → 0 ≤ qty o < 2 ^ 32) → 0 ≤ rem → NoDup (map oid l) → (∀ o, o ∈ l → m !! oid o = None) →
  ration rem l m = list_to_map (engine_ration rem l) ∪ m ∧ NoDup (engine_ration rem l).*1 ∧ ∀ i, i ∈ (engine_ration rem l).*1 → i ∈ map oid l.
Proof.
  revert rem m. induction l as [|o l IH]; intros rem m Hq Hr Hnd Hm; cbn [ration engine_ration].
  { split_and!; [cbn; by rewrite (left_id_L ∅ (∪))|constructor|set_solver]. }
  destruct (rem =? 0) eqn:Er; [split_and!; [cbn; by rewrite (left_id_L ∅ (∪))|constructor|set_solver]|]. zbool.
  cbn [map] in Hnd. apply NoDup_cons in Hnd as [Hni Hnd]. assert (0 ≤ qty o < 2 ^ 32) by (apply Hq; set_solver).
  destruct (IH (rem - Z.min rem (qty o)) (<[oid o := default 0 (m !! oid o) + Z.min rem (qty o)]> m)) as (E & Hn & Hin).
  { intros x Hx. apply Hq. set_solver. } { lia. } { done. }
  { intros x Hx. rewrite lookup_insert_ne; [apply Hm; set_solver|]. intros E. apply Hni. rewrite E. by apply list_elem_of_fmap_2. }
  rewrite E. split_and!.
  - rewrite (Hm o) by set_solver. cbn [default list_to_map foldr fst snd]. assert (u32 (Z.min rem (qty o)) = Z.min rem (qty o)) as -> by (unfold u32; apply Z.mod_small; lia).
    rewrite Z.add_0_l. change (foldr (λ p, <[p.1 := p.2]>) ∅ ?x) with (list_to_map (M := gmap Z Z) x). rewrite <- insert_union_l, insert_union_r; [done|].
    apply not_elem_of_list_to_map_1. intros Hx. by apply Hni, Hin.
  - cbn. constructor; [|done]. intros Hx. by apply Hni, Hin.
  - cbn. set_solver.
Qed.

Lemma engine_matches orders : wire_batch orders →
  e_price (engine_clear orders) = c_price (clear orders) ∧ e_volume (engine_clear orders) = c_volume (clear orders) ∧
  c_fills (clear orders) = list_to_map (e_fills (engine_clear orders)) ∧ NoDup (e_fills (engine_clear orders)).*1.
Proof.
  intros Hw. assert (∀ o, o ∈ orders → nonneg_qty o) as Hq by (intros o Ho; by apply Hw).
  pose proof (best_price_ok orders Hq) as Hb. unfold engine_clear, clear. unfold best_price in *. pose proof (loop_same orders Hw (candidates orders) (0, 0, U64_MAX) (0, 0, None) ltac:(done) ltac:(done)) as [He _].
  destruct (foldl (engine_improve orders) _ _) as [[p v] imb]. destruct (foldl (improve orders) _ _) as [[p' v'] imb']. destruct Hb as [Hv' _]. injection He as -> ->.
  destruct (v' =? 0) eqn:Ev; [cbn; split_and!; [done..|constructor]|]. zbool. cbn [e_price e_volume e_fills c_price c_volume c_fills].
  rewrite ask_filter by done. change (sort_by sell_leb _) with (sell_queue orders p'). change (sort_by buy_leb _) with (buy_queue orders p').
  destruct (ration_map v' (buy_queue orders p') ∅) as (Eb & Nb & Ib).
  { intros o [Ho _]%elem_of_buy_queue. by apply Hw. } { done. } { apply buy_queue_oids, Hw. } { intros. apply lookup_empty. }
  assert (∀ o i, o ∈ sell_queue orders p' → oid o = i → i ∉ map oid (buy_queue orders p')) as Hdis.
  { intros o i (Ho & Hs & _)%elem_of_sell_queue <-. apply (oid_not_in_queue orders (wb_oids _ Hw) BUY); [|done|by rewrite Hs].
    intros x Hx%elem_of_buy_queue. tauto. }
  destruct (ration_map v' (sell_queue orders p') (ration v' (buy_queue orders p') ∅)) as (Es & Ns & Is).
  { intros o [Ho _]%elem_of_sell_queue. by apply Hw. } { done. } { apply sell_queue_oids, Hw. }
  { intros o Ho. rewrite ration_other; [apply lookup_empty|by eapply Hdis]. }
  split_and!; [done..| |].
  - rewrite Es, Eb, (right_id_L ∅ (∪)), list_to_map_app. apply map_union_comm, map_disjoint_spec. intros i x y Hx Hy.
    apply elem_of_list_to_map_2, list_elem_of_fmap_2 with (f := fst) in Hx, Hy. cbn [fst] in Hx, Hy. apply Is, list_elem_of_fmap in Hx as (o & -> & Ho). apply (Hdis o (oid o) Ho eq_refl), Ib, Hy.
  - rewrite fmap_app. apply NoDup_app. split_and!; [done| |done]. intros i Hb Hs. apply Is, list_elem_of_fmap in Hs as (o & -> & Ho). by apply (Hdis o (oid o) Ho eq_refl), Ib.
Qed.

Lemma flat_map_ext_elem {A B} (f g : A → list B) l : (∀ x, x ∈ l → f x = g x) → flat_map f l = flat_map g l.
Proof. induction l as [|x l IH]; intros H; [done|]. cbn. rewrite H, IH by set_solver. done. Qed.
(** What [resting] takes off an order is its fill. *)
Lemma filled_once (l : list (Z * Z)) i : NoDup l.*1 → zsum snd (filter (λ f, f.1 = i) l) = default 0 ((list_to_map l : gmap Z Z) !! i).
Proof.
  induction l as [|[j x] l IH]; cbn [fmap list_fmap fst]; intros H; [done|]. apply NoDup_cons in H as [Hni Hn]. rewrite filter_cons. cbn [fst list_to_map foldr].
  change (foldr (λ p, <[p.1 := p.2]>) ∅ l) with (list_to_map (M := gmap Z Z) l). case_decide as Hj.
  - subst j. rewrite lookup_insert_eq, zsum_cons, (IH Hn), not_elem_of_list_to_map_1 by done. cbn. lia.
  - rewrite lookup_insert_ne by done. by apply IH.
Qed.

Lemma resting_port orders : wire_batch orders →
  resting orders (engine_clear orders) = flat_map (λ o, if 0 <? qty o - fill_of (clear orders) o then [with_qty (qty o - fill_of (clear orders) o) o] else []) orders.
Proof.
  intros Hw. destruct (engine_matches orders Hw) as (_ & _ & Ef & Hn). unfold resting.
  apply flat_map_ext_elem. intros o Ho. rewrite filled_once by done. rewrite <- Ef. change (default 0 _) with (fill_of (clear orders) o).
  destruct (Z.ltb_spec 0 (qty o - fill_of (clear orders) o)); [|done]. do 2 f_equal. unfold u32. apply Z.mod_small.
  pose proof (fill_nonneg orders o ltac:(intros; by apply Hw) (wb_oids _ Hw) Ho). pose proof (wb_qty _ Hw o Ho). lia.
Qed.

(** (C25) The port is the engine: on every batch of fewer than 2^32 orders with distinct ids, each a buy or a sell with a 32-bit
    quantity, clearing.py and the Rust engine choose the same price and volume, the fills the engine lists are, entry for entry, the fills of the port's dict, and what the engine leaves resting is each
    order less its fill in the port. *)
Theorem engine_matches_port orders : wire_batch orders →
  let e := engine_clear orders in let c := clear orders in
  e_price e = c_price c ∧ e_volume e = c_volume c ∧ c_fills c = list_to_map (e_fills e) ∧ NoDup (e_fills e).*1 ∧
  resting orders e = flat_map (λ o, if 0 <? qty o - fill_of c o then [with_qty (qty o - fill_of c o) o] else []) orders.
Proof. intros Hw. destruct (engine_matches orders Hw) as (Ep & Ev & Ef & Hn). cbn zeta. split_and!; [done..|]. by apply resting_port. Qed.

Lemma engine_matches_port_witness : e_price (engine_clear book_example) = c_price (clear book_example) ∧ 0 < e_volume (engine_clear book_example) ∧
  length (resting book_example (engine_clear book_example)) = length (filter (λ o, 0 < qty o - fill_of (clear book_example) o) book_example).
Proof.
  destruct (engine_matches_port book_example) as (Ep & _ & _ & _ & Er).
  - split; [|intros o Ho|vm_compute; reflexivity|exact book_example_oids].
    + intros o Ho. unfold book_example in Ho. repeat (apply elem_of_cons in Ho as [->|Ho]; [first [left; reflexivity|right; reflexivity]|]). by apply not_elem_of_nil in Ho.
    + unfold book_example in Ho. repeat (apply elem_of_cons in Ho as [->|Ho]; [cbn; lia|]). by apply not_elem_of_nil in Ho.
  - split; [exact Ep|]. split; [vm_compute; reflexivity|]. rewrite Er. vm_compute. reflexivity.
Defined.
