(* ===== verification/RoundPlan.v ===== *)
(** * Round planning

    src/offchain/round.py: [plan_round] decides which queued orders clear in this auction, which
    sealed orders stay hidden, wait for their commit or expire; [plan_batch] does so under a
    capacity policy. *)
From S2P Require Import Prelude Orders Clearing.

(** The fields of [RoundPlan]. *)
Record plan := RoundPlan {
  pl_reveal : list order;
  pl_public : list order;
  pl_carry : list order;
  pl_expired : list order;
  pl_deferred : list order;
  pl_overflow : list order
}.

(** ** The code *)

(** [min(l) if l else None], [max(l) if l else None] *)
Definition min_opt (l : list Z) : option Z :=
  match l with [] => None | x :: l' => Some (foldl Z.min x l') end.
Definition max_opt (l : list Z) : option Z :=
  match l with [] => None | x :: l' => Some (foldl Z.max x l') end.

Definition best_opposing (orders : list order) : option Z * option Z :=
  (min_opt (map price (filter (λ o, side o = SELL) orders)),
   max_opt (map price (filter (λ o, side o = BUY) orders))).

Definition crosses (o : order) (min_sell max_buy : option Z) : bool :=
  if side o =? BUY
  then match min_sell with Some s => s <=? price o | None => false end
  else match max_buy with Some b => price o <=? b | None => false end.

(** [exp is not None and exp <= now] *)
Definition lapsed (o : order) (now : Z) : bool :=
  match expiry o with Some e => e <=? now | None => false end.

(** The body of the loop over the ready sealed orders: (reveal, carry, expired). *)
Definition place_ready (min_sell max_buy : option Z) (now : Z)
    (acc : list order * list order * list order) (o : order)
    : list order * list order * list order :=
  let '(reveal, carry, expired) := acc in
  if crosses o min_sell max_buy then (reveal ++ [o], carry, expired)
  else if lapsed o now then (reveal, carry, expired ++ [o])
  else (reveal, carry ++ [o], expired).

(** The body of the loop over the sealed orders that are not ready: (expired, deferred). *)
Definition place_waiting (now : Z) (acc : list order * list order) (o : order)
    : list order * list order :=
  let '(expired, deferred) := acc in
  if lapsed o now then (expired ++ [o], deferred) else (expired, deferred ++ [o]).

Definition plan_round (pending resting : list order) (now : Z) (sealed_ready : order → bool)
    : plan :=
  let public := filter (λ o, sealed o = false) pending in
  let hidden := filter (λ o, sealed o = true) pending in
  let ready := filter (λ o, sealed_ready o = true) hidden in
  let not_ready := filter (λ o, sealed_ready o = false) hidden in
  let everything := resting ++ public ++ ready in
  let '(min_sell, max_buy) := best_opposing everything in
  let '(reveal, carry, expired) := foldl (place_ready min_sell max_buy now) ([], [], []) ready in
  let '(expired, deferred) := foldl (place_waiting now) (expired, []) not_ready in
  RoundPlan reveal public carry expired deferred [].

(** [sealed_ready=None] *)
Definition all_ready (o : order) : bool := true.

Definition FIT_PASSES : nat := 4.

(** [{id(o) for o in l}] *)
Definition refs (l : list order) : gset positive := list_to_set (map o_ref l).

(** The orders that compete for the cap: the public ones and those in [crossing]. *)
Definition competing (crossing : gset positive) (pending : list order) : list order :=
  filter (λ o, sealed o = false ∨ o_ref o ∈ crossing) pending.

(** [for n in range(FIT_PASSES + 1)], [todo] iterations left; returns the last plan and the
    accumulated [carry] and [expired]. *)
Fixpoint fit_loop (fit : list order → list order * list order) (pending resting : list order)
    (now : Z) (todo n : nat) (crossing : gset positive) (prev : plan)
    (carry expired : list order) : plan * list order * list order :=
  match todo with
  | O => (prev, carry, expired)
  | S todo' =>
      let crossing := if decide (n = FIT_PASSES) then refs (pl_reveal prev) else crossing in
      let batch := (fit (competing crossing pending)).1 in
      let p := plan_round batch resting now all_ready in
      let stuck := pl_carry p ++ pl_expired p in
      match stuck with
      | [] => (p, carry, expired)
      | _ => fit_loop fit pending resting now todo' (S n) (crossing ∖ refs stuck) p
               (carry ++ pl_carry p) (expired ++ pl_expired p)
      end
  end.

Definition plan_batch (pending resting : list order)
    (fit : list order → list order * list order) (now : Z) (sealed_ready : order → bool) : plan :=
  let full := plan_round pending resting now sealed_ready in
  let '(p, carry, expired) :=
    fit_loop fit pending resting now (S FIT_PASSES) 0 (refs (pl_reveal full)) full
      (pl_carry full) (pl_expired full) in
  let placed := refs (pl_reveal p ++ pl_public p ++ carry ++ expired ++ pl_deferred full) in
  RoundPlan (pl_reveal p) (pl_public p) carry expired (pl_deferred full)
    (filter (λ o, o_ref o ∉ placed) pending).

(** ** The plan as filters *)
Section plan_round_facts.
Context (pending resting : list order) (now : Z) (sealed_ready : order → bool).

Definition ready_orders : list order :=
  filter (λ o, sealed_ready o = true) (filter (λ o, sealed o = true) pending).
Definition waiting_orders : list order :=
  filter (λ o, sealed_ready o = false) (filter (λ o, sealed o = true) pending).
(** The liquidity crossing is judged against. *)
Definition liquidity : list order :=
  resting ++ filter (λ o, sealed o = false) pending ++ ready_orders.
Definition crossing_now (o : order) : Prop :=
  crosses o (best_opposing liquidity).1 (best_opposing liquidity).2 = true.
End plan_round_facts.

Lemma foldl_place_ready ms mb now l r c e :
  foldl (place_ready ms mb now) (r, c, e) l =
  (r ++ filter (λ o, crosses o ms mb = true) l,
   c ++ filter (λ o, lapsed o now = false ∧ crosses o ms mb = false) l,
   e ++ filter (λ o, lapsed o now = true ∧ crosses o ms mb = false) l).
Proof.
  revert r c e. induction l as [|o l IH]; intros r c e; [by rewrite !app_nil_r|].
  cbn [foldl place_ready]. rewrite !filter_cons.
  destruct (crosses o ms mb), (lapsed o now); rewrite IH; cbn; by rewrite <- ?(assoc_L (++)).
Qed.

Lemma foldl_place_waiting now l e d :
  foldl (place_waiting now) (e, d) l =
  (e ++ filter (λ o, lapsed o now = true) l, d ++ filter (λ o, lapsed o now = false) l).
Proof.
  revert e d. induction l as [|o l IH]; intros e d; [by rewrite !app_nil_r|].
  cbn [foldl place_waiting]. rewrite !filter_cons.
  destruct (lapsed o now); rewrite IH; cbn; by rewrite <- ?(assoc_L (++)).
Qed.

Lemma plan_round_eq pending resting now rdy :
  let ms := (best_opposing (liquidity pending resting rdy)).1 in
  let mb := (best_opposing (liquidity pending resting rdy)).2 in
  plan_round pending resting now rdy = RoundPlan
    (filter (λ o, crosses o ms mb = true) (ready_orders pending rdy))
    (filter (λ o, sealed o = false) pending)
    (filter (λ o, lapsed o now = false ∧ crosses o ms mb = false) (ready_orders pending rdy))
    (filter (λ o, lapsed o now = true ∧ crosses o ms mb = false) (ready_orders pending rdy) ++
     filter (λ o, lapsed o now = true) (waiting_orders pending rdy))
    (filter (λ o, lapsed o now = false) (waiting_orders pending rdy)) [].
Proof.
  cbn zeta. unfold plan_round. fold (ready_orders pending rdy) (waiting_orders pending rdy).
  fold (liquidity pending resting rdy).
  destruct (best_opposing (liquidity pending resting rdy)) as [ms mb] eqn:E. cbn [fst snd].
  by rewrite foldl_place_ready, foldl_place_waiting.
Qed.

(** ** Crossing *)

(** [c] is on the other side of [o] at a price [o] accepts. *)
Definition counterparty (o c : order) : Prop :=
  if side o =? BUY then side c = SELL ∧ price c ≤ price o
  else side c = BUY ∧ price o ≤ price c.

Lemma counterparty_sym o c : valid_side o → counterparty o c → counterparty c o.
Proof.
  unfold counterparty, valid_side, BUY, SELL. intros ?.
  destruct (Z.eqb_spec (side o) 0), (Z.eqb_spec (side c) 0); lia.
Qed.

Lemma min_opt_spec l m : min_opt l = Some m → m ∈ l ∧ ∀ x, x ∈ l → m ≤ x.
Proof.
  destruct l as [|x l]; [done|]. intros [= <-]. revert x.
  induction l as [|y l IH]; intros x; cbn; [set_solver by lia|].
  destruct (IH (Z.min x y)) as [Hin Hle]. split.
  - apply elem_of_cons in Hin as [->|Hin]; [|set_solver].
    destruct (Z.min_spec x y) as [[_ ->]|[_ ->]]; set_solver.
  - intros z Hz. assert (foldl Z.min (Z.min x y) l ≤ Z.min x y) by (apply Hle; set_solver).
    apply elem_of_cons in Hz as [->|[->|Hz]%elem_of_cons]; [lia..|]. apply Hle. set_solver.
Qed.

Lemma max_opt_spec l m : max_opt l = Some m → m ∈ l ∧ ∀ x, x ∈ l → x ≤ m.
Proof.
  destruct l as [|x l]; [done|]. intros [= <-]. revert x.
  induction l as [|y l IH]; intros x; cbn; [set_solver by lia|].
  destruct (IH (Z.max x y)) as [Hin Hle]. split.
  - apply elem_of_cons in Hin as [->|Hin]; [|set_solver].
    destruct (Z.max_spec x y) as [[_ ->]|[_ ->]]; set_solver.
  - intros z Hz. assert (Z.max x y ≤ foldl Z.max (Z.max x y) l) by (apply Hle; set_solver).
    apply elem_of_cons in Hz as [->|[->|Hz]%elem_of_cons]; [lia..|]. apply Hle. set_solver.
Qed.

(** Comparing with the two best prices finds a counterparty exactly when there is one. *)
Lemma crosses_spec o l :
  crosses o (best_opposing l).1 (best_opposing l).2 = true ↔ ∃ c, c ∈ l ∧ counterparty o c.
Proof.
  unfold crosses, counterparty, best_opposing. cbn [fst snd].
  destruct (Z.eqb_spec (side o) BUY) as [Hs|Hs].
  - destruct (min_opt _) as [m|] eqn:E.
    + apply min_opt_spec in E as [(c & -> & [Hc Hin]%list_elem_of_filter)%list_elem_of_fmap Hle].
      rewrite Z.leb_le. split; [naive_solver|]. intros (d & Hd & Hsd & Hpd).
      etransitivity; [|exact Hpd]. apply Hle, list_elem_of_fmap_2, list_elem_of_filter. done.
    + split; [done|]. intros (d & Hd & Hsd & _).
      assert (price d ∈ map price (filter (λ o, side o = SELL) l)) as Hin
        by (apply list_elem_of_fmap_2, list_elem_of_filter; done).
      by destruct (map _ _); [apply not_elem_of_nil in Hin|].
  - destruct (max_opt _) as [m|] eqn:E.
    + apply max_opt_spec in E as [(c & -> & [Hc Hin]%list_elem_of_filter)%list_elem_of_fmap Hle].
      rewrite Z.leb_le. split; [naive_solver|]. intros (d & Hd & Hsd & Hpd).
      etransitivity; [exact Hpd|]. apply Hle, list_elem_of_fmap_2, list_elem_of_filter. done.
    + split; [done|]. intros (d & Hd & Hsd & _).
      assert (price d ∈ map price (filter (λ o, side o = BUY) l)) as Hin
        by (apply list_elem_of_fmap_2, list_elem_of_filter; done).
      by destruct (map _ _); [apply not_elem_of_nil in Hin|].
Qed.

(** ** Membership in the parts of a plan *)
Lemma perm_assemble {A} (pend pub hid rd wt rev no car exp1 exp2 def : list A) :
  hid ++ pub ≡ₚ pend → rd ++ wt ≡ₚ hid → rev ++ no ≡ₚ rd → exp1 ++ car ≡ₚ no →
  exp2 ++ def ≡ₚ wt → rev ++ pub ++ car ++ (exp1 ++ exp2) ++ def ≡ₚ pend.
Proof. intros <- <- <- <- <-. solve_Permutation. Qed.

Section members.
Context (pending resting : list order) (now : Z) (rdy : order → bool).
Let p := plan_round pending resting now rdy.
Let liq := liquidity pending resting rdy.

Lemma elem_of_ready o :
  o ∈ ready_orders pending rdy ↔ o ∈ pending ∧ sealed o = true ∧ rdy o = true.
Proof. unfold ready_orders. rewrite !list_elem_of_filter. tauto. Qed.

Lemma elem_of_waiting o :
  o ∈ waiting_orders pending rdy ↔ o ∈ pending ∧ sealed o = true ∧ rdy o = false.
Proof. unfold waiting_orders. rewrite !list_elem_of_filter. tauto. Qed.

Lemma elem_of_public o : o ∈ pl_public p ↔ o ∈ pending ∧ sealed o = false.
Proof. unfold p. rewrite plan_round_eq. cbn. rewrite list_elem_of_filter. tauto. Qed.

Lemma elem_of_reveal o :
  o ∈ pl_reveal p ↔ o ∈ ready_orders pending rdy ∧ ∃ c, c ∈ liq ∧ counterparty o c.
Proof.
  unfold p. rewrite plan_round_eq. cbn [pl_reveal]. rewrite list_elem_of_filter, crosses_spec. tauto.
Qed.

Lemma elem_of_carry o :
  o ∈ pl_carry p ↔ o ∈ ready_orders pending rdy ∧ lapsed o now = false ∧
                   ¬ ∃ c, c ∈ liq ∧ counterparty o c.
Proof.
  unfold p. rewrite plan_round_eq. cbn [pl_carry].
  rewrite list_elem_of_filter, <- (not_true_iff_false (crosses _ _ _)), crosses_spec. fold liq. tauto.
Qed.

Lemma elem_of_expired o :
  o ∈ pl_expired p ↔ lapsed o now = true ∧
    (o ∈ waiting_orders pending rdy ∨
     o ∈ ready_orders pending rdy ∧ ¬ ∃ c, c ∈ liq ∧ counterparty o c).
Proof.
  unfold p. rewrite plan_round_eq. cbn [pl_expired].
  rewrite elem_of_app, !list_elem_of_filter, <- (not_true_iff_false (crosses _ _ _)), crosses_spec. fold liq. tauto.
Qed.

Lemma elem_of_deferred o :
  o ∈ pl_deferred p ↔ o ∈ waiting_orders pending rdy ∧ lapsed o now = false.
Proof. unfold p. rewrite plan_round_eq. cbn [pl_deferred]. rewrite list_elem_of_filter. tauto. Qed.

(** The parts are an arrangement of the queue. *)
Lemma plan_round_perm :
  pl_reveal p ++ pl_public p ++ pl_carry p ++ pl_expired p ++ pl_deferred p ≡ₚ pending.
Proof.
  unfold p. rewrite plan_round_eq. cbn [pl_reveal pl_public pl_carry pl_expired pl_deferred].
  fold liq. set (x := λ o, crosses o (best_opposing liq).1 (best_opposing liq).2).
  eapply perm_assemble;
    [apply (filter_bool_perm sealed)|apply (filter_bool_perm rdy)|apply (filter_bool_perm x)| |
     apply (filter_bool_perm (λ o, lapsed o now))].
  rewrite <- !list_filter_filter. apply (filter_bool_perm (λ o, lapsed o now)).
Qed.
End members.

(** A revealed order's counterparty is itself in what the round submits: in the book, public, or
    revealed with it (crossing is mutual). *)
Lemma reveal_counterparty pending resting now rdy o :
  (∀ x, x ∈ pending → valid_side x) →
  let p := plan_round pending resting now rdy in
  o ∈ pl_reveal p → ∃ c, c ∈ resting ++ pl_public p ++ pl_reveal p ∧ counterparty o c.
Proof.
  intros Hside p [Ho (c & Hc & Hcp)]%elem_of_reveal. exists c. split; [|done].
  unfold liquidity in Hc. rewrite !elem_of_app in Hc |- *.
  destruct Hc as [?|[?|Hc]]; [by left|right; left|right; right].
  - apply elem_of_public. rewrite list_elem_of_filter in *. tauto.
  - apply elem_of_reveal. split; [done|]. exists o. split.
    + unfold liquidity. rewrite !elem_of_app. tauto.
    + apply counterparty_sym; [|done]. apply elem_of_ready in Ho. naive_solver.
Qed.

(** ** Orders that cross nothing do not change the auction *)
Section inert.
Context (b h : list order).
Hypothesis Hqty : ∀ o, o ∈ b ++ h → nonneg_qty o.
Hypothesis Hinert : ∀ o c, o ∈ h → c ∈ b ++ h → ¬ counterparty o c.

(** Some buy and some sell of the batch accept the price [p]. *)
Definition active (p : Z) : Prop :=
  (∃ d, d ∈ b ++ h ∧ bids_at p d) ∧ (∃ s, s ∈ b ++ h ∧ asks_at p s).

Lemma zsum_filter_nonzero {A} f (P : A → Prop) `{!∀ x, Decision (P x)} l :
  zsum f (filter P l) ≠ 0 → ∃ x, x ∈ l ∧ P x.
Proof.
  intros Hne. destruct (filter P l) as [|x k] eqn:E; [done|]. exists x.
  assert (x ∈ filter P l) as [? ?]%list_elem_of_filter by (rewrite E; set_solver). done.
Qed.

Lemma vol_active l p : l ⊆ b ++ h → (∀ o, o ∈ l → nonneg_qty o) → vol l p ≠ 0 → active p.
Proof.
  intros Hl Hq Hne. pose proof (demand_nonneg l p Hq). pose proof (supply_nonneg l p Hq).
  unfold vol, demand, supply in *.
  destruct (zsum_filter_nonzero qty (bids_at p) l) as (d & ? & ?); [lia|].
  destruct (zsum_filter_nonzero qty (asks_at p) l) as (s & ? & ?); [lia|].
  split; [exists d|exists s]; (split; [by apply Hl|done]).
Qed.

Lemma active_filters p : active p → filter (bids_at p) h = [] ∧ filter (asks_at p) h = [].
Proof.
  intros [(d & Hd & Hds & Hdp) (s & Hs & Hss & Hsp)].
  split; apply elem_of_nil_inv; intros x [[Hxs Hxp] Hx]%list_elem_of_filter.
  - apply (Hinert x s Hx Hs). unfold counterparty. rewrite Hxs. cbn. lia.
  - apply (Hinert x d Hx Hd). unfold counterparty. rewrite Hxs. cbn. lia.
Qed.

Lemma active_same p : active p →
  demand (b ++ h) p = demand b p ∧ supply (b ++ h) p = supply b p ∧
  buy_queue (b ++ h) p = buy_queue b p ∧ sell_queue (b ++ h) p = sell_queue b p.
Proof.
  intros [Eb Es]%active_filters. unfold demand, supply, buy_queue, sell_queue.
  by rewrite !filter_app, Eb, Es, !app_nil_r.
Qed.

Lemma Hqty_b o : o ∈ b → nonneg_qty o.
Proof. intros. apply Hqty. set_solver. Qed.

Lemma inert_vol p : vol (b ++ h) p = vol b p.
Proof.
  destruct (decide (vol (b ++ h) p = 0)) as [E1|N1]; [destruct (decide (vol b p = 0)) as [E2|N2]; [lia|]|].
  - destruct (active_same p) as (E & E' & _); [|unfold vol in *; congruence].
    apply (vol_active b); [set_solver|exact Hqty_b|done].
  - destruct (active_same p) as (E & E' & _); [|unfold vol in *; congruence].
    by apply (vol_active (b ++ h)).
Qed.

Lemma inert_imbalance p : vol b p ≠ 0 → imbalance (b ++ h) p = imbalance b p.
Proof.
  intros Hne. destruct (active_same p) as (E & E' & _); [|unfold imbalance; congruence].
  apply (vol_active b); [set_solver|exact Hqty_b|done].
Qed.

Lemma inert_candidate p : vol b p ≠ 0 → p ∈ candidates (b ++ h) ↔ p ∈ candidates b.
Proof.
  intros Hne. rewrite !elem_of_candidates. split; [|set_solver].
  intros (o & [Ho|Ho]%elem_of_app & Hp); [by eauto|exfalso].
  destruct (vol_active b p) as [(d & Hd & Hds & Hdp) (s & Hs & Hss & Hsp)];
    [set_solver|exact Hqty_b|done|].
  destruct (decide (side o = BUY)) as [E|N].
  - apply (Hinert o s Ho Hs). unfold counterparty. rewrite E. cbn. split; [done|lia].
  - apply (Hinert o d Ho Hd). unfold counterparty.
    destruct (Z.eqb_spec (side o) BUY); [done|]. split; [done|lia].
Qed.

Lemma clear_inert : clear (b ++ h) = clear b.
Proof.
  destruct (clear_cases (b ++ h) Hqty) as [[Hc1 Hz1]|(p1 & v1 & f1 & Hc1 & Hf1 & Hp1 & Hv1 & Hpos1 & Hb1)];
  destruct (clear_cases b Hqty_b) as [[Hc2 Hz2]|(p2 & v2 & f2 & Hc2 & Hf2 & Hp2 & Hv2 & Hpos2 & Hb2)];
  rewrite Hc1, Hc2.
  - done.
  - exfalso. assert (vol (b ++ h) p2 = 0) as E; [|rewrite inert_vol in E; lia].
    apply Hz1, inert_candidate; [lia|done].
  - exfalso. rewrite inert_vol in Hv1. assert (vol b p1 = 0) as E; [|lia].
    apply Hz2, inert_candidate; [lia|done].
  - rewrite inert_vol in Hv1. rewrite inert_candidate in Hp1 by lia.
    destruct (Hb2 p1 Hp1) as [Hle2 Hi2]. rewrite <- inert_candidate in Hp2 by lia.
    destruct (Hb1 p2 Hp2) as [Hle1 Hi1]. rewrite inert_vol in Hle1, Hi1.
    rewrite !inert_imbalance in Hi1 by lia.
    assert (v1 = v2) by lia. assert (p1 = p2) by lia. subst.
    destruct (active_same p2) as (_ & _ & -> & ->); [|done].
    apply (vol_active b); [set_solver|exact Hqty_b|lia].
Qed.
End inert.

(** ** The capacity policy

    What [plan_batch] relies on of its [fit] argument: the batch is taken from the candidates,
    and taking sealed orders out of the candidates never drops one that was admitted. *)
Class FitPolicy (fit : list order → list order * list order) : Prop := {
  fit_sub c : (fit c).1 ⊆+ c;
  fit_prefix c (P : order → Prop) `{!∀ o, Decision (P o)} o :
    NoDup (map o_ref c) → o ∈ (fit c).1 → sealed o = false ∨ P o →
    o ∈ (fit (filter (λ o, sealed o = false ∨ P o) c)).1
}.

Definition stuck (p : plan) : list order := pl_carry p ++ pl_expired p.

Section plan_batch_facts.
Context (pending resting : list order) (fit : list order → list order * list order) (now : Z).
Context `{!FitPolicy fit}.
Hypothesis Hrefs : NoDup (map o_ref pending).
Hypothesis Hsides : ∀ o, o ∈ pending → valid_side o.

(** One pass of the loop. *)
Definition batch_of (cr : gset positive) : list order := (fit (competing cr pending)).1.
Definition pass (cr : gset positive) : plan := plan_round (batch_of cr) resting now all_ready.

Lemma NoDup_pending : NoDup pending.
Proof. by apply NoDup_fmap_1 in Hrefs. Qed.

Lemma ref_inj a b : a ∈ pending → b ∈ pending → o_ref a = o_ref b → a = b.
Proof. by apply NoDup_map_inj. Qed.

Lemma elem_of_refs l r : r ∈ refs l ↔ ∃ o, o ∈ l ∧ o_ref o = r.
Proof. unfold refs. rewrite elem_of_list_to_set, list_elem_of_fmap. naive_solver. Qed.

Lemma ref_in_refs l o : l ⊆ pending → o ∈ pending → o_ref o ∈ refs l ↔ o ∈ l.
Proof.
  intros Hl Ho. rewrite elem_of_refs. split; [|eauto].
  intros (x & Hx & E). by rewrite <- (ref_inj x o (Hl x Hx) Ho E).
Qed.

Lemma elem_of_competing cr o :
  o ∈ competing cr pending ↔ o ∈ pending ∧ (sealed o = false ∨ o_ref o ∈ cr).
Proof. unfold competing. rewrite list_elem_of_filter. tauto. Qed.

Lemma batch_elem cr o : o ∈ batch_of cr → o ∈ pending ∧ (sealed o = false ∨ o_ref o ∈ cr).
Proof.
  intros Ho. apply elem_of_competing. eapply elem_of_submseteq; [exact Ho|]. apply fit_sub.
Qed.

Lemma batch_nodup cr : NoDup (batch_of cr).
Proof.
  eapply submseteq_NoDup; [apply fit_sub|]. apply NoDup_filter, NoDup_pending.
Qed.

(** Removing sealed candidates keeps what the batch already held. *)
Lemma batch_mono cr cr' o :
  cr' ⊆ cr → o ∈ batch_of cr → sealed o = false ∨ o_ref o ∈ cr' → o ∈ batch_of cr'.
Proof.
  intros Hsub Ho Hel. unfold batch_of.
  assert (competing cr' pending
    = filter (λ o, sealed o = false ∨ o_ref o ∈ cr') (competing cr pending)) as ->.
  { unfold competing. rewrite list_filter_filter. apply list_filter_iff. set_solver. }
  apply fit_prefix; [|done|done]. by apply NoDup_map_filter.
Qed.

Lemma pass_sides cr o : o ∈ batch_of cr → valid_side o.
Proof. intros [? _]%batch_elem. by apply Hsides. Qed.

(** Public, revealed and stuck orders make up the batch, each once. *)
Lemma pass_perm cr : pl_reveal (pass cr) ++ pl_public (pass cr) ++ stuck (pass cr) ≡ₚ batch_of cr.
Proof.
  pose proof (plan_round_perm (batch_of cr) resting now all_ready) as E. fold (pass cr) in E.
  rewrite <- E. unfold stuck.
  assert (pl_deferred (pass cr) = []) as ->; [|by rewrite app_nil_r, !(assoc_L (++))].
  apply elem_of_nil_inv. intros x [(_ & _ & H)%elem_of_waiting _]%elem_of_deferred. done.
Qed.

Lemma pass_sealed cr o :
  o ∈ pl_reveal (pass cr) ++ stuck (pass cr) → o ∈ batch_of cr ∧ sealed o = true ∧ o_ref o ∈ cr.
Proof.
  unfold stuck. rewrite !elem_of_app. intros Ho.
  assert (o ∈ batch_of cr ∧ sealed o = true) as [Hb Hs].
  { destruct Ho as [Ho|[Ho|Ho]].
    - apply elem_of_reveal in Ho as [Ho%elem_of_ready _]. tauto.
    - apply elem_of_carry in Ho as [Ho%elem_of_ready _]. tauto.
    - apply elem_of_expired in Ho as [_ [Ho%elem_of_waiting|[Ho%elem_of_ready _]]]; tauto. }
  split_and!; [done..|]. apply batch_elem in Hb as [_ [?|?]]; [congruence|done].
Qed.

Lemma pass_nodup cr : NoDup (pl_reveal (pass cr) ++ pl_public (pass cr) ++ stuck (pass cr)).
Proof. rewrite pass_perm. apply batch_nodup. Qed.

(** The orders a pass revealed cross again when only they compete with the public ones. *)
Lemma proven_not_stuck cr : stuck (pass (refs (pl_reveal (pass cr)))) = [].
Proof.
  set (p := pass cr). set (cr' := refs (pl_reveal p)).
  assert (Hrev : pl_reveal p ⊆ pending).
  { intros x Hx. assert (x ∈ batch_of cr) by (apply pass_sealed; set_solver). by apply (batch_elem cr). }
  assert (Hsub : cr' ⊆ cr).
  { intros r (x & Hx & <-)%elem_of_refs. apply pass_sealed. set_solver. }
  apply elem_of_nil_inv. intros o Ho.
  assert (o ∈ pl_reveal (pass cr') ++ stuck (pass cr')) as (Hob & Hos & Hor)%pass_sealed by set_solver.
  assert (Hop : o ∈ pl_reveal p).
  { apply ref_in_refs in Hor; [done..|]. by apply (batch_elem cr'). }
  destruct (reveal_counterparty (batch_of cr) resting now all_ready o) as (c & Hc & Hcp);
    [apply pass_sides|done|]. fold (pass cr) p in Hc.
  assert (Hliq : c ∈ liquidity (batch_of cr') resting all_ready).
  { unfold liquidity. rewrite !elem_of_app in Hc |- *. destruct Hc as [?|[Hc|Hc]]; [by left|right; left|right; right].
    - apply elem_of_public in Hc as [? ?]. apply list_elem_of_filter. split; [done|].
      apply (batch_mono cr); [done..|by left].
    - assert (c ∈ batch_of cr ∧ sealed c = true ∧ _) as (? & ? & _) by (apply pass_sealed; set_solver).
      apply elem_of_ready. split_and!; [|done|done]. apply (batch_mono cr); [done..|].
      right. apply elem_of_refs. eauto. }
  unfold stuck in Ho. apply elem_of_app in Ho as [Ho|Ho].
  - apply elem_of_carry in Ho as (_ & _ & Hno). eauto.
  - apply elem_of_expired in Ho as [_ [Ho|[_ Hno]]]; [|eauto]. by apply elem_of_waiting in Ho as (_ & _ & ?).
Qed.

(** What the loop keeps: the orders set aside are distinct queued sealed ones that no longer
    compete, and neither they nor the competing ones are among [held] (the deferred orders). *)
Definition aside (held cr : gset positive) (l : list order) : Prop :=
  NoDup l ∧ held ## cr ∧ ∀ o, o ∈ l → o ∈ pending ∧ sealed o = true ∧ o_ref o ∉ cr ∧ o_ref o ∉ held.

Lemma aside_stuck held cr cr' l k :
  cr' ⊆ cr → aside held cr l → k ≡ₚ l ++ stuck (pass cr') →
  aside held (cr' ∖ refs (stuck (pass cr'))) k.
Proof.
  intros Hsub (Hnd & Hdisj & Hl) Hk. split_and!; [|set_solver|].
  - rewrite Hk. apply NoDup_app. split_and!; [done| |].
    + intros x Hx Hs. destruct (Hl x Hx) as (_ & _ & Hx' & _). apply Hx', Hsub.
      apply pass_sealed. set_solver.
    + pose proof (pass_nodup cr') as Hp. rewrite !NoDup_app in Hp. tauto.
  - intros o Ho. rewrite Hk, elem_of_app in Ho. destruct Ho as [Ho|Ho].
    + destruct (Hl o Ho) as (? & ? & ? & ?). set_solver.
    + assert (o ∈ batch_of cr' ∧ sealed o = true ∧ o_ref o ∈ cr') as (Hb & ? & ?)
        by (apply pass_sealed; set_solver).
      split_and!; [by apply (batch_elem cr')|done| |set_solver].
      assert (o_ref o ∈ refs (stuck (pass cr'))) by (apply elem_of_refs; eauto). set_solver.
Qed.

Lemma reveal_competes cr :
  refs (pl_reveal (pass cr)) ⊆ cr ∖ refs (stuck (pass cr)).
Proof.
  intros r (o & Ho & <-)%elem_of_refs. apply elem_of_difference.
  assert (o ∈ batch_of cr ∧ sealed o = true ∧ o_ref o ∈ cr) as (Hb & _ & ?)
    by (apply pass_sealed; set_solver).
  split; [done|]. intros (x & Hx & E)%elem_of_refs.
  assert (x ∈ batch_of cr) by (apply pass_sealed; set_solver).
  assert (x = o) as -> by (apply ref_inj; [by apply (batch_elem cr)..|done]).
  pose proof (pass_nodup cr) as Hp. rewrite !NoDup_app in Hp. set_solver.
Qed.

Lemma fit_loop_spec held todo n cr prev carry expired :
  (todo + n = S FIT_PASSES)%nat →
  refs (pl_reveal prev) ⊆ cr → (n = FIT_PASSES → ∃ cr', prev = pass cr') →
  aside held cr (carry ++ expired) → todo ≠ 0%nat →
  let '(p, carry', expired') := fit_loop fit pending resting now todo n cr prev carry expired in
  ∃ cr', cr' ⊆ cr ∧ p = pass cr' ∧ stuck p = [] ∧ aside held cr' (carry' ++ expired').
Proof.
  revert n cr prev carry expired.
  induction todo as [|todo IH]; intros n cr prev carry expired Hn Hprev Hlast Haside Hne; [done|].
  cbn [fit_loop]. set (cr' := if decide (n = FIT_PASSES) then _ else _).
  assert (Hcr' : cr' ⊆ cr) by (unfold cr'; case_decide; [done|reflexivity]).
  fold (batch_of cr'). fold (pass cr') (stuck (pass cr')).
  destruct (stuck (pass cr')) as [|x xs] eqn:Hstuck.
  { exists cr'. split_and!; [done..|]. destruct Haside as (? & ? & Ha). split_and!; [done|set_solver..]. }
  destruct todo as [|todo].
  { exfalso. assert (n = FIT_PASSES) as E by lia. destruct (Hlast E) as (crp & ->).
    unfold cr' in Hstuck. rewrite decide_True in Hstuck by done. by rewrite proven_not_stuck in Hstuck. }
  rewrite <- Hstuck.
  specialize (IH (S n) (cr' ∖ refs (stuck (pass cr'))) (pass cr')
    (carry ++ pl_carry (pass cr')) (expired ++ pl_expired (pass cr'))).
  destruct (fit_loop _ _ _ _ _ _ _ _ _ _) as [[p carry'] expired'].
  destruct IH as (cr2 & ? & -> & ? & ?).
  - lia.
  - apply reveal_competes.
  - eauto.
  - eapply aside_stuck; [exact Hcr'|exact Haside|]. unfold stuck. solve_Permutation.
  - done.
  - exists cr2. split_and!; [set_solver|done..].
Qed.

(** The final pass of [plan_batch], for a queue planned with the readiness test [rdy]. *)
Lemma plan_batch_spec rdy :
  let full := plan_round pending resting now rdy in
  let p := plan_batch pending resting fit now rdy in
  ∃ cr, cr ⊆ refs (pl_reveal full) ∧ stuck (pass cr) = [] ∧
        pl_reveal p = pl_reveal (pass cr) ∧ pl_public p = pl_public (pass cr) ∧
        pl_deferred p = pl_deferred full ∧
        aside (refs (pl_deferred full)) cr (pl_carry p ++ pl_expired p) ∧
        pl_overflow p = filter (λ o, o_ref o ∉ refs
          (pl_reveal p ++ pl_public p ++ pl_carry p ++ pl_expired p ++ pl_deferred p)) pending.
Proof.
  cbn zeta. unfold plan_batch. set (full := plan_round pending resting now rdy).
  pose proof (fit_loop_spec (refs (pl_deferred full)) (S FIT_PASSES) 0 (refs (pl_reveal full)) full
    (pl_carry full) (pl_expired full)) as H.
  destruct (fit_loop _ _ _ _ _ _ _ _ _ _) as [[p carry'] expired'].
  destruct H as (cr & ? & -> & ? & ?); [lia|done|done| |done|].
  { pose proof (plan_round_perm pending resting now rdy) as Hp. fold full in Hp.
    pose proof NoDup_pending as Hnd. rewrite <- Hp in Hnd. rewrite !NoDup_app in Hnd.
    assert (Hin : ∀ l, l ⊆ pl_reveal full ++ pl_public full ++ pl_carry full ++
      pl_expired full ++ pl_deferred full → l ⊆ pending) by (intros l; by rewrite Hp).
    assert (Hrefs' : ∀ l o, l ⊆ pl_reveal full ++ pl_public full ++ pl_carry full ++
      pl_expired full ++ pl_deferred full → o ∈ pending → o_ref o ∈ refs l → o ∈ l).
    { intros l o Hl Ho Hr. apply ref_in_refs in Hr; [done| |done]. by apply Hin. }
    split_and!; [rewrite NoDup_app; set_solver| |].
    { intros r (a & Ha & <-)%elem_of_refs (b & Hb & E)%elem_of_refs.
      assert (a = b) as ->; [|set_solver].
      apply ref_inj; [eapply Hin; [|exact Ha]|eapply Hin; [|exact Hb]|done]; set_solver. }
    intros o Ho. assert (o ∈ pending) by (eapply Hin; [|exact Ho]; set_solver).
    split_and!; [done| | |].
    - apply elem_of_app in Ho as [Ho|Ho].
      + apply elem_of_carry in Ho as [Ho%elem_of_ready _]. tauto.
      + apply elem_of_expired in Ho as [_ [Ho%elem_of_waiting|[Ho%elem_of_ready _]]]; tauto.
    - intros Hr. apply Hrefs' in Hr; set_solver.
    - intros Hr. apply Hrefs' in Hr; set_solver. }
  exists cr. done.
Qed.
End plan_batch_facts.

(** Two queues that agree on every set of competing candidates run the same passes. *)
Lemma fit_loop_same pending pending' resting fit now `{!FitPolicy fit} :
  NoDup (map o_ref pending) → (∀ o, o ∈ pending → valid_side o) →
  ∀ todo n cr prev prev' carry carry' expired expired',
    (∀ cr', cr' ⊆ cr → competing cr' pending' = competing cr' pending) →
    pl_reveal prev' = pl_reveal prev → refs (pl_reveal prev) ⊆ cr → todo ≠ 0%nat →
    (fit_loop fit pending' resting now todo n cr prev' carry' expired').1.1 =
    (fit_loop fit pending resting now todo n cr prev carry expired).1.1.
Proof.
  intros Hnd Hs todo. induction todo as [|todo IH];
    intros n cr prev prev' carry carry' expired expired' Hc Hr Hsub Hne; [done|].
  cbn [fit_loop]. rewrite Hr. set (cr' := if decide (n = FIT_PASSES) then _ else _).
  assert (Hcr' : cr' ⊆ cr) by (unfold cr'; case_decide; [done|reflexivity]).
  rewrite (Hc cr' Hcr'). fold (batch_of pending fit cr'). fold (pass pending resting fit now cr').
  set (q := pass pending resting fit now cr').
  change (pl_carry q ++ pl_expired q) with (stuck q).
  destruct (stuck q) as [|x xs] eqn:Hstuck; [done|]. rewrite <- Hstuck.
  destruct todo as [|todo]; [done|]. apply IH; [set_solver|done| |done].
  by apply reveal_competes.
Qed.

(** The queue reduced to the orders that can join a round reveals the same ones. *)
Lemma plan_round_competing pending resting now rdy :
  NoDup (map o_ref pending) → (∀ o, o ∈ pending → valid_side o) →
  let full := plan_round pending resting now rdy in
  pl_reveal (plan_round (competing (refs (pl_reveal full)) pending) resting now rdy)
  = pl_reveal full.
Proof.
  intros Hnd Hs full. set (q := competing _ pending).
  assert (Hsub : pl_reveal full ⊆ pending).
  { intros x [Hx _]%elem_of_reveal. apply elem_of_ready in Hx. tauto. }
  assert (Hq : ∀ o, o ∈ q ↔ o ∈ pending ∧ (sealed o = false ∨ o ∈ pl_reveal full)).
  { intros o. unfold q. rewrite elem_of_competing. split; intros [Ho ?]; (split; [done|]);
      rewrite (ref_in_refs pending Hnd) in *; tauto. }
  assert (Hall : ∀ o, o ∈ ready_orders q rdy →
    crosses o (best_opposing (liquidity q resting rdy)).1
              (best_opposing (liquidity q resting rdy)).2 = true).
  { intros o ([Ho Hor]%Hq & Hos & Hrd)%elem_of_ready. apply crosses_spec.
    assert (o ∈ pl_reveal full) as Hrev by (destruct Hor; [congruence|done]).
    destruct (reveal_counterparty pending resting now rdy o Hs Hrev) as (c & Hc & Hcp).
    exists c. split; [|done]. fold full in Hc. unfold liquidity. rewrite !elem_of_app in *.
    destruct Hc as [?|[Hc|Hc]]; [by left|right; left|right; right].
    - apply elem_of_public in Hc as [? ?]. apply list_elem_of_filter. rewrite Hq.
      split_and!; [done..|by left].
    - pose proof Hc as [(? & ? & ?)%elem_of_ready _]%elem_of_reveal. apply elem_of_ready.
      rewrite Hq. split_and!; [done|by right|done..]. }
  unfold full at 1. rewrite !plan_round_eq. cbn [pl_reveal].
  rewrite (filter_ext_elem _ (λ _, True)) by (intros; split; auto).
  unfold ready_orders, q, competing. rewrite !list_filter_filter.
  apply filter_ext_elem. intros o Ho. rewrite (ref_in_refs pending Hnd _ o Hsub Ho).
  unfold full. rewrite elem_of_reveal, elem_of_ready, <- crosses_spec.
  destruct (sealed o); intuition congruence.
Qed.

(** The first five parts of a bounded plan are distinct queued orders. *)
Lemma plan_batch_parts pending resting fit now rdy `{!FitPolicy fit} :
  NoDup (map o_ref pending) → (∀ o, o ∈ pending → valid_side o) →
  let p := plan_batch pending resting fit now rdy in
  let placed := pl_reveal p ++ pl_public p ++ pl_carry p ++ pl_expired p ++ pl_deferred p in
  NoDup placed ∧ placed ⊆ pending.
Proof.
  intros Hnd Hs p placed.
  destruct (plan_batch_spec pending resting fit now Hnd Hs rdy)
    as (cr & Hcr & _ & Hrev & Hpub & Hdef & (Hand & Hdisj & Haside) & _).
  fold p in Hrev, Hpub, Hdef, Hand, Haside. unfold placed. rewrite Hrev, Hpub, Hdef.
  set (q := pass pending resting fit now cr).
  assert (Hq : ∀ o, o ∈ pl_reveal q → o ∈ pending ∧ sealed o = true ∧ o_ref o ∈ cr).
  { intros o Ho. destruct (pass_sealed pending resting fit now cr o) as (Hb & ? & ?); [set_solver|].
    apply batch_elem in Hb as [? _]; done. }
  assert (Hd : ∀ o, o ∈ pl_deferred (plan_round pending resting now rdy) →
    o ∈ pending ∧ sealed o = true ∧ rdy o = false).
  { intros o [Ho%elem_of_waiting _]%elem_of_deferred. done. }
  assert (Hpb : ∀ o, o ∈ pl_public q → o ∈ pending ∧ sealed o = false).
  { intros o [Hb ?]%elem_of_public. apply batch_elem in Hb as [? _]; done. }
  split.
  - pose proof (pass_nodup pending resting fit now Hnd cr) as Hp.
    fold q in Hp. rewrite !NoDup_app in Hp. destruct Hp as (Hn1 & _ & Hn2 & _ & _).
    pose proof (plan_round_perm pending resting now rdy) as Hpp.
    pose proof (NoDup_pending pending Hnd) as Hndp. rewrite <- Hpp, !NoDup_app in Hndp.
    rewrite (assoc_L (++) (pl_carry p)). clear Hcr.
    set (ce := pl_carry p ++ pl_expired p) in *. clearbody ce. rewrite !NoDup_app. split_and!; try done.
    + intros o Ho Hin. destruct (Hq o Ho) as (_ & Hos & Hor). rewrite !elem_of_app in Hin.
      destruct Hin as [Hin|[Hin|Hin]].
      * apply Hpb in Hin as [_ ?]. congruence.
      * by destruct (Haside o Hin) as (_ & _ & ? & _).
      * apply (Hdisj (o_ref o)); [apply elem_of_refs; eauto|done].
    + intros o Ho Hin. destruct (Hpb o Ho) as [_ Hos]. rewrite elem_of_app in Hin.
      destruct Hin as [Hin|Hin].
      * destruct (Haside o Hin) as (_ & ? & _). congruence.
      * apply Hd in Hin as (_ & ? & _). congruence.
    + intros o Ho Hdd. destruct (Haside o Ho) as (_ & _ & _ & Hn). apply Hn, elem_of_refs. eauto.
    + tauto.
  - intros o. rewrite !elem_of_app. specialize (Hq o). specialize (Hd o). specialize (Hpb o).
    specialize (Haside o). rewrite elem_of_app in Haside. tauto.
Qed.

(** The six parts of a bounded plan are an arrangement of the queue. *)
Lemma plan_batch_perm pending resting fit now rdy `{!FitPolicy fit} :
  NoDup (map o_ref pending) → (∀ o, o ∈ pending → valid_side o) →
  let p := plan_batch pending resting fit now rdy in
  pl_reveal p ++ pl_public p ++ pl_carry p ++ pl_expired p ++ pl_deferred p ++ pl_overflow p
  ≡ₚ pending.
Proof.
  intros Hnd Hs p. destruct (plan_batch_parts pending resting fit now rdy Hnd Hs) as [HLnd HL].
  destruct (plan_batch_spec pending resting fit now Hnd Hs rdy) as (_ & _ & _ & _ & _ & _ & _ & Hover).
  fold p in HLnd, HL, Hover. set (L := pl_reveal p ++ _ ++ _ ++ _ ++ pl_deferred p) in *.
  assert (L ≡ₚ filter (λ o, o_ref o ∈ refs L) pending) as HLp.
  { apply NoDup_Permutation; [done|by apply NoDup_filter, NoDup_pending|].
    intros o. rewrite list_elem_of_filter. split.
    - intros Ho. split; [apply elem_of_refs; eauto|by apply HL].
    - intros [Hr Ho]. by apply (ref_in_refs pending Hnd) in Hr. }
  transitivity (L ++ pl_overflow p); [unfold L; by rewrite <- !(assoc_L (++))|].
  rewrite HLp, Hover. apply filter_dec_perm.
Qed.

Lemma plan_batch_kinds pending resting fit now rdy `{!FitPolicy fit} :
  NoDup (map o_ref pending) → (∀ o, o ∈ pending → valid_side o) →
  let p := plan_batch pending resting fit now rdy in
  (∀ o, o ∈ pl_reveal p → sealed o = true) ∧ (∀ o, o ∈ pl_public p → sealed o = false).
Proof.
  intros Hnd Hs p. destruct (plan_batch_spec pending resting fit now Hnd Hs rdy) as (cr & _ & _ & Hrev & Hpub & _).
  fold p in Hrev, Hpub. rewrite Hrev, Hpub. split; intros o Ho.
  - destruct (pass_sealed pending resting fit now cr o) as (_ & ? & _); [set_solver|done].
  - by apply elem_of_public in Ho as [_ ?].
Qed.

(** With every sealed order ready, the reveals are the sealed orders that cross, in queue order. *)
Lemma reveal_filter hidden public resting now :
  (∀ o, o ∈ hidden → sealed o = true) → (∀ o, o ∈ public → sealed o = false) →
  let p := plan_round (hidden ++ public) resting now all_ready in
  ∃ x : order → bool, pl_reveal p = filter (λ o, x o = true) hidden ∧ pl_public p = public.
Proof.
  intros Hh Hp p. unfold p. rewrite plan_round_eq. cbn [pl_reveal pl_public].
  set (liq := liquidity _ _ _). exists (λ o, crosses o (best_opposing liq).1 (best_opposing liq).2).
  unfold ready_orders. rewrite !filter_app. split.
  - rewrite (filter_all (λ o, sealed o = true) hidden), (filter_none (λ o, sealed o = true) public), app_nil_r
      by (done || intros o Ho E; specialize (Hp o Ho); congruence).
    f_equal. by apply filter_all.
  - rewrite (filter_none (λ o, sealed o = false) hidden), (filter_all (λ o, sealed o = false) public)
      by (done || intros o Ho E; specialize (Hh o Ho); congruence). done.
Qed.

(** ** Properties *)

(** (C5) Planning a bounded round loses and duplicates nothing: the six parts of the plan are a
    rearrangement of the queue (for any policy that batches candidates, distinct order objects). *)
Theorem plan_batch_partition pending resting fit now rdy `{!FitPolicy fit} :
  NoDup (map o_ref pending) → (∀ o, o ∈ pending → valid_side o) →
  let p := plan_batch pending resting fit now rdy in
  pl_reveal p ++ pl_public p ++ pl_carry p ++ pl_expired p ++ pl_deferred p ++ pl_overflow p
  ≡ₚ pending.
Proof. intros Hnd Hs. by apply plan_batch_perm. Qed.

(** (C6) A sealed order is revealed only into a round that holds a real counterparty for it: an
    opposing order at an acceptable price among the book, the public orders and the reveals the
    bounded round submits. *)
Theorem plan_batch_counterparty pending resting fit now rdy o `{!FitPolicy fit} :
  NoDup (map o_ref pending) → (∀ x, x ∈ pending → valid_side x) →
  let p := plan_batch pending resting fit now rdy in
  o ∈ pl_reveal p → ∃ c, c ∈ resting ++ pl_public p ++ pl_reveal p ∧ counterparty o c.
Proof.
  intros Hnd Hs p Ho.
  destruct (plan_batch_spec pending resting fit now Hnd Hs rdy) as (cr & _ & _ & Hrev & Hpub & _).
  fold p in Hrev, Hpub. rewrite Hrev, Hpub in *.
  apply (reveal_counterparty (batch_of pending fit cr) resting now all_ready); [|done].
  by apply pass_sides.
Qed.

(** (C7) The sealed orders a plan carries are clearing-neutral: the submitted set (book, reveals,
    public orders) clears to exactly the price, volume and fills it would have with the carried
    orders included. *)
Theorem carry_is_clearing_neutral pending resting now rdy :
  (∀ o, o ∈ pending ++ resting → nonneg_qty o) → (∀ o, o ∈ pending → valid_side o) →
  let p := plan_round pending resting now rdy in
  clear ((resting ++ pl_reveal p ++ pl_public p) ++ pl_carry p)
  = clear (resting ++ pl_reveal p ++ pl_public p).
Proof.
  intros Hq Hs p. assert (Hsub : pl_reveal p ++ pl_public p ++ pl_carry p ⊆ pending).
  { intros o Ho. rewrite <- (plan_round_perm pending resting now rdy). fold p. set_solver. }
  apply clear_inert.
  - intros o Ho. apply Hq. set_solver.
  - intros o c Hcar Hc Hcp. apply elem_of_carry in Hcar as (Hrd & _ & Hno). apply Hno.
    exists c. split; [|done]. unfold liquidity. rewrite !elem_of_app in *.
    destruct Hc as [[?|[Hc|Hc]]|Hc]; [by left|right; right|right; left|right; right].
    + by apply elem_of_reveal in Hc as [? _].
    + apply list_elem_of_filter. apply elem_of_public in Hc. tauto.
    + by apply elem_of_carry in Hc as [? _].
Qed.

(** Only public orders and sealed orders that cross the whole queue's liquidity compete for
    the cap, the round is exactly what the policy admits of them, and a public order the policy
    admits when all of those compete is in the round. *)
Theorem plan_batch_fair pending resting fit now rdy `{!FitPolicy fit} :
  NoDup (map o_ref pending) → (∀ o, o ∈ pending → valid_side o) →
  let full := plan_round pending resting now rdy in
  let p := plan_batch pending resting fit now rdy in
  ∃ cr, cr ⊆ refs (pl_reveal full) ∧
    pl_reveal p ++ pl_public p ≡ₚ (fit (competing cr pending)).1 ∧
    ∀ o, o ∈ (fit (competing (refs (pl_reveal full)) pending)).1 → sealed o = false →
         o ∈ pl_public p.
Proof.
  intros Hnd Hs full p.
  destruct (plan_batch_spec pending resting fit now Hnd Hs rdy) as (cr & Hcr & Hst & Hrev & Hpub & _).
  fold p full in Hrev, Hpub, Hcr. exists cr. split_and!; [done|..].
  - rewrite Hrev, Hpub. fold (batch_of pending fit cr).
    rewrite <- (pass_perm pending resting fit now cr). by rewrite Hst, app_nil_r.
  - intros o Ho Hos. rewrite Hpub. apply elem_of_public. split; [|done].
    eapply (batch_mono pending fit Hnd Hs (refs (pl_reveal full)) cr); [done..|by left].
Qed.

(** Sealed orders that must wait (hidden or deferred) never change a round: planning only
    the orders that can join gives the same reveals and the same public orders. *)
Theorem plan_batch_ignores_waiting pending resting fit now rdy `{!FitPolicy fit} :
  NoDup (map o_ref pending) → (∀ o, o ∈ pending → valid_side o) →
  let joinable := competing (refs (pl_reveal (plan_round pending resting now rdy))) pending in
  pl_reveal (plan_batch joinable resting fit now rdy)
    = pl_reveal (plan_batch pending resting fit now rdy) ∧
  pl_public (plan_batch joinable resting fit now rdy)
    = pl_public (plan_batch pending resting fit now rdy).
Proof.
  intros Hnd Hs joinable. unfold plan_batch.
  pose proof (plan_round_competing pending resting now rdy Hnd Hs) as Hfull.
  cbn zeta in Hfull. fold joinable in Hfull.
  set (full := plan_round pending resting now rdy) in *.
  set (full' := plan_round joinable resting now rdy) in *.
  pose proof (fit_loop_same pending joinable resting fit now Hnd Hs (S FIT_PASSES) 0
    (refs (pl_reveal full)) full full' (pl_carry full) (pl_carry full')
    (pl_expired full) (pl_expired full')) as H.
  rewrite Hfull. destruct (fit_loop _ pending _ _ _ _ _ _ _ _) as [[q c] e],
    (fit_loop _ joinable _ _ _ _ _ _ _ _) as [[q' c'] e']. cbn in H |- *.
  rewrite H; [done| |done..].
  intros cr Hcr. unfold joinable, competing. rewrite list_filter_filter.
  apply list_filter_iff. set_solver.
Qed.
