(* ===== verification/Batch.v ===== *)
(** * Filling a round: the batch policy and the seq discipline

    Models the part of src/offchain/server.py that decides which orders ride a round:
    [_cap_batch] (the policy [plan_batch] of RoundPlan.v calls), [_order_gas] and
    [_committee_size], [_seq_sanitize], [market_price] and [_price_market_orders].

    The service's own acceptance test for a round, [check_bindings]
    (src/crates/match-engine/src/floors.rs), is modelled too, so that the builder's
    sanitizing can be proved against the test it anticipates.

    Results: [_cap_batch] is a [FitPolicy]; it loses nothing, keeps to the order, gas and
    sealed limits and never lets an account's newer public order overtake an older one; a
    sanitized, re-priced round passes [check_bindings]. *)
From S2P Require Import Prelude Orders Clearing RoundPlan.

(** ** Refine gas of an order *)
Definition GAS_SIGNED_ORDER : Z := 5290000.
Definition GAS_REVEAL : Z := 10100.
Definition GAS_ENC_SHARE : Z := 18700000.
Definition DEFAULT_COMMITTEE_SIZE : Z := 2.

(** [raw] is the on-chain value under [b"committee"]: a size byte, then the keys. *)
Definition committee_size (raw : list Z) : Z :=
  match raw with
  | [] => DEFAULT_COMMITTEE_SIZE
  | n :: _ => Z.max 1 n
  end.

(** [ENC_MODE] is the deployment's sealing mode. *)
Definition order_gas (ENC_MODE : bool) (committee_n : Z) (o : order) : Z :=
  if negb (sealed o) then GAS_SIGNED_ORDER
  else if ENC_MODE then committee_n * GAS_ENC_SHARE else GAS_REVEAL.

Definition ROUND_GAS_BUDGET (REFINE_GAS : Z) : Z := REFINE_GAS * 4 / 5.

(** ** [_cap_batch] *)

(** [slots.setdefault(a, []).append(i)] on the insertion-ordered dict [slots]. *)
Fixpoint slot_append (a : Z) (i : nat) (slots : list (Z * list nat)) : list (Z * list nat) :=
  match slots with
  | [] => [(a, [i])]
  | (b, idx) :: rest => if a =? b then (b, idx ++ [i]) :: rest else (b, idx) :: slot_append a i rest
  end.

(** The queue positions each account's public orders hold. *)
Definition slots_of (orders : list order) : list (Z * list nat) :=
  foldl (λ slots '(i, o), if sealed o then slots else slot_append (account o) i slots) []
    (imap pair orders).

Definition seq_leb (x y : order) : bool := seq x <=? seq y.

(** [out[i] = o] for the pairs of a [zip]. *)
Definition put_all (l : list (nat * order)) (out : list order) : list order :=
  foldl (λ out '(i, o), <[i := o]> out) out l.

(** One account's positions receive its orders, lowest seq first. *)
Definition deal_account (orders : list order) (out : list order) (slot : Z * list nat) : list order :=
  put_all (zip slot.2 (sort_by seq_leb (omap (λ i, orders !! i) slot.2))) out.

Definition redeal (orders : list order) : list order :=
  foldl (deal_account orders) orders (slots_of orders).

(** The greedy prefix: [n], [used] and [hidden] are the length, gas and sealed count of the
    batch so far; [sealed_cap = None] is no limit. *)
Fixpoint take_batch (cap : Z) (gas : order → Z) (budget : Z) (sealed_cap : option Z)
    (n used hidden : Z) (l : list order) : list order :=
  match l with
  | [] => []
  | o :: rest =>
      let g := gas o in
      if budget <? g then take_batch cap gas budget sealed_cap n used hidden rest
      else if (cap <=? n) || (budget <? used + g) ||
              (sealed o && match sealed_cap with Some c => c <=? hidden | None => false end)
      then []
      else o :: take_batch cap gas budget sealed_cap (n + 1) (used + g)
                  (hidden + if sealed o then 1 else 0) rest
  end.

Definition cap_batch (cap : Z) (gas : order → Z) (budget : Z) (sealed_cap : option Z)
    (orders : list order) : list order * list order :=
  let out := redeal orders in
  let batch := take_batch cap gas budget sealed_cap 0 0 0 out in
  (batch, filter (λ o, o_ref o ∉ refs batch) out).

(** ** [_seq_sanitize] *)

(** Why an order is dead. *)
Inductive dead_reason : Type :=
| Superseded (floor seq : Z)
| DuplicateSeq (seq : Z)
| NoLastPrice.
#[global] Instance dead_reason_eq_dec : EqDecision dead_reason.
Proof. solve_decision. Defined.

Definition acct_seq_leb (x y : order) : bool :=
  (account x <? account y) || ((account x =? account y) && (seq x <=? seq y)).

(** The loop's state: the floors read, the running floors, the kept and the dead orders. *)
Record sanitize := Sanitize {
  sn_floors : gmap Z Z;
  sn_run : gmap Z Z;
  sn_kept : list order;
  sn_dead : list (order * dead_reason)
}.

(** [seq_floor] is the on-chain read [_seq_floor]. *)
Definition sanitize_step (seq_floor : Z → Z) (st : sanitize) (o : order) : sanitize :=
  let a := account o in let s := seq o in
  let st := match sn_floors st !! a with
            | Some _ => st
            | None => Sanitize (<[a := seq_floor a]> (sn_floors st))
                        (<[a := seq_floor a]> (sn_run st)) (sn_kept st) (sn_dead st)
            end in
  let fl := default 0 (sn_floors st !! a) in
  let rn := default 0 (sn_run st !! a) in
  if s <=? fl then
    Sanitize (sn_floors st) (sn_run st) (sn_kept st) (sn_dead st ++ [(o, Superseded fl s)])
  else if s <=? rn then
    Sanitize (sn_floors st) (sn_run st) (sn_kept st) (sn_dead st ++ [(o, DuplicateSeq s)])
  else Sanitize (sn_floors st) (<[a := s]> (sn_run st)) (sn_kept st ++ [o]) (sn_dead st).

Definition seq_sanitize (seq_floor : Z → Z) (orders : list order) :
    list order * list (order * dead_reason) * gmap Z Z :=
  let st := foldl (sanitize_step seq_floor) (Sanitize ∅ ∅ [] []) (sort_by acct_seq_leb orders) in
  (sn_kept st, sn_dead st, sn_floors st).

(** ** Market orders *)
Definition MARKET_BAND_PCT : Z := 10.

Definition market_price (s lp : Z) : Z :=
  if s =? BUY then lp * (100 + MARKET_BAND_PCT) / 100
  else Z.max 1 (- (- lp * (100 - MARKET_BAND_PCT) / 100)).

Definition is_market (o : order) : bool := bool_decide (otype o = market).

(** [o["price"] = p] *)
Definition with_price (p : Z) (o : order) : order :=
  {| o_ref := o_ref o; account := account o; oid := oid o; side := side o; price := p;
     qty := qty o; otype := otype o; sealed := sealed o; seq := seq o;
     signed_price := signed_price o; pubkey := pubkey o; sig := sig o; expiry := expiry o;
     reveal := reveal o; ciphertext := ciphertext o; commit := commit o |}.

(** The order dicts are updated in place; the returned list holds the updated ones.  [lp] is
    the market's last price ([mstate(b"lp", m)]). *)
Definition price_market_orders (lp : Z) (public : list order) :
    list order * list (order * dead_reason) :=
  let mk := filter (λ o, is_market o = true) public in
  match mk with
  | [] => (public, [])
  | _ =>
      if lp <=? 0 then
        (filter (λ o, is_market o = false) public, map (λ o, (o, NoLastPrice)) mk)
      else (map (λ o, if is_market o then with_price (market_price (side o) lp) o else o) public, [])
  end.

(** ** The service's acceptance test *)

(** [floors.iter().position] and the push of a first sight: the account's running floor. *)
Definition run_floor (floor : Z → Z) (floors : list (Z * Z)) (a : Z) : Z :=
  match list_find (λ p, p.1 = a) floors with
  | Some (_, p) => p.2
  | None => floor a
  end.

(** [floors[i].1 = b.seq], pushing the account when it is new. *)
Fixpoint set_run_floor (a s : Z) (floors : list (Z * Z)) : list (Z * Z) :=
  match floors with
  | [] => [(a, s)]
  | (b, t) :: rest => if b =? a then (b, s) :: rest else (b, t) :: set_run_floor a s rest
  end.

Fixpoint check_bindings (floor : Z → Z) (registered_key : Z → option (list Z))
    (last_price band_pct : Z) (floors : list (Z * Z)) (bindings : list order) :
    option (list (Z * Z)) :=
  match bindings with
  | [] => Some floors
  | b :: rest =>
      if bool_decide (registered_key (account b) = Some (pubkey b)) then
        if seq b <=? run_floor floor floors (account b) then None
        else
          let floors := set_run_floor (account b) (seq b) floors in
          if is_market b &&
             ((last_price =? 0) || (price b * 100 <? last_price * (100 - band_pct)) ||
              (last_price * (100 + band_pct) <? price b * 100))
          then None
          else check_bindings floor registered_key last_price band_pct floors rest
      else None
  end.

(** ** Re-dealing the queue *)

(** The public orders of account [a]. *)
Definition pub_of (a : Z) (o : order) : Prop := sealed o = false ∧ account o = a.
#[global] Instance pub_of_dec a o : Decision (pub_of a o).
Proof. unfold pub_of. apply _. Defined.

(** The queue positions of [a]'s public orders, counted from [k]. *)
Fixpoint positions (k : nat) (a : Z) (l : list order) : list nat :=
  match l with
  | [] => []
  | o :: r => if decide (pub_of a o) then k :: positions (S k) a r else positions (S k) a r
  end.

Definition slot_get (a : Z) (slots : list (Z * list nat)) : list nat :=
  match list_find (λ p, p.1 = a) slots with Some (_, p) => p.2 | None => [] end.

Lemma slot_get_cons a b idx slots :
  slot_get a ((b, idx) :: slots) = if b =? a then idx else slot_get a slots.
Proof.
  unfold slot_get. cbn. destruct (Z.eqb_spec b a) as [->|Hne].
  - by rewrite decide_True.
  - rewrite decide_False by done. by destruct (list_find _ slots) as [[? ?]|].
Qed.

Lemma slot_append_get a b i slots :
  slot_get b (slot_append a i slots)
  = if a =? b then slot_get b slots ++ [i] else slot_get b slots.
Proof.
  induction slots as [|[c idx] slots IH]; cbn [slot_append].
  { rewrite slot_get_cons. by destruct (a =? b). }
  destruct (Z.eqb_spec a c) as [->|Hne]; rewrite !slot_get_cons; [by destruct (c =? b)|].
  rewrite IH. destruct (Z.eqb_spec c b), (Z.eqb_spec a b); congruence.
Qed.

Lemma slot_append_keys a i slots :
  map fst (slot_append a i slots)
  = if decide (a ∈ map fst slots) then map fst slots else map fst slots ++ [a].
Proof.
  induction slots as [|[c idx] slots IH]; cbn [slot_append]; [done|].
  destruct (Z.eqb_spec a c) as [->|Hne]; cbn.
  - by rewrite decide_True by set_solver.
  - rewrite IH. repeat case_decide; try done; exfalso; set_solver.
Qed.

Lemma slots_fold_spec l k slots :
  NoDup (map fst slots) →
  let slots' := foldl (λ slots '(i, o), if sealed o then slots else slot_append (account o) i slots)
                  slots (imap (λ i o, ((k + i)%nat, o)) l) in
  NoDup (map fst slots') ∧ ∀ a, slot_get a slots' = slot_get a slots ++ positions k a l.
Proof.
  revert k slots. induction l as [|o l IH]; intros k slots Hnd; cbn [imap foldl].
  { split; [done|]. intros a. by rewrite app_nil_r. }
  rewrite Nat.add_0_r.
  assert (imap ((λ i o, ((k + i)%nat, o)) ∘ S) l = imap (λ i o, ((S k + i)%nat, o)) l) as Hmap.
  { apply imap_ext. intros i x _. cbn. f_equal. lia. }
  rewrite Hmap. set (slots1 := if sealed o then _ else _).
  assert (NoDup (map fst slots1)) as Hnd1.
  { unfold slots1. destruct (sealed o); [done|]. rewrite slot_append_keys. case_decide; [done|].
    apply NoDup_app. split_and!; [done|set_solver|apply NoDup_singleton]. }
  destruct (IH (S k) slots1 Hnd1) as [Hn Hg]. split; [done|].
  intros a. rewrite Hg. unfold slots1. cbn [positions]. destruct (sealed o) eqn:Hs.
  { by rewrite decide_False by (unfold pub_of; intuition congruence). }
  rewrite slot_append_get. destruct (Z.eqb_spec (account o) a) as [<-|Hne].
  - rewrite decide_True by done. by rewrite <- (assoc_L (++)).
  - by rewrite decide_False by (unfold pub_of; intuition congruence).
Qed.

Lemma slots_of_spec l :
  NoDup (map fst (slots_of l)) ∧ ∀ a, slot_get a (slots_of l) = positions 0 a l.
Proof.
  destruct (slots_fold_spec l 0 []) as [H1 H2]; [constructor|].
  unfold slots_of. split; [exact H1|]. intros a. rewrite H2. done.
Qed.

Lemma elem_of_positions k a l i :
  i ∈ positions k a l ↔ ∃ o, (k ≤ i)%nat ∧ l !! (i - k)%nat = Some o ∧ pub_of a o.
Proof.
  revert k. induction l as [|o l IH]; intros k; cbn [positions].
  { split; [set_solver|]. intros (o & _ & H & _). done. }
  assert (H : (i ∈ positions (S k) a l) ↔ ∃ x, (k < i)%nat ∧ (o :: l) !! (i - k)%nat = Some x ∧ pub_of a x).
  { rewrite IH. split; intros (x & Hi & Hx & Hp); exists x; (split_and!; [lia| |done]).
    - replace (i - k)%nat with (S (i - S k))%nat by lia. done.
    - replace (i - k)%nat with (S (i - S k))%nat in Hx by lia. done. }
  case_decide as Hd; rewrite ?elem_of_cons, H; split.
  - intros [->|(x & ? & ?)]; [exists o; rewrite Nat.sub_diag; done|exists x; split; [lia|done]].
  - intros (x & Hi & Hx & Hp). destruct (decide (i = k)); [by left|right; exists x; split; [lia|done]].
  - intros (x & ? & ?); exists x; split; [lia|done].
  - intros (x & Hi & Hx & Hp). destruct (decide (i = k)) as [->|].
    + rewrite Nat.sub_diag in Hx. cbn in Hx. naive_solver.
    + exists x; split; [lia|done].
Qed.

Lemma NoDup_positions k a l : NoDup (positions k a l).
Proof.
  revert k. induction l as [|o l IH]; intros k; cbn [positions]; [constructor|].
  case_decide; [|done]. constructor; [|done]. rewrite elem_of_positions. intros (? & ? & _). lia.
Qed.

(** The [j]-th position is the one with [j] of [a]'s orders in front. *)
Lemma positions_rank k a l i o :
  l !! i = Some o → pub_of a o →
  positions k a l !! length (filter (pub_of a) (take i l)) = Some (k + i)%nat.
Proof.
  revert k i. induction l as [|x l IH]; intros k i Hi Hp; [done|]. cbn [positions].
  destruct i as [|i]; cbn in Hi.
  - injection Hi as ->. cbn. rewrite decide_True by done. by rewrite Nat.add_0_r.
  - cbn [take]. rewrite filter_cons. replace (k + S i)%nat with (S k + i)%nat by lia.
    case_decide; cbn; by apply IH.
Qed.

Lemma positions_orders k a l pre :
  length pre = k → omap (λ i, (pre ++ l) !! i) (positions k a l) = filter (pub_of a) l.
Proof.
  revert k pre. induction l as [|o l IH]; intros k pre Hk; [done|]. cbn [positions].
  rewrite filter_cons.
  assert (Hr : omap (λ i, (pre ++ o :: l) !! i) (positions (S k) a l) = filter (pub_of a) l).
  { rewrite <- (IH (S k) (pre ++ [o])) by (rewrite length_app; cbn; lia).
    by rewrite <- (assoc_L (++)). }
  case_decide; [|done]. cbn [omap list_omap]. rewrite <- Hk, list_lookup_middle by done.
  rewrite Hk. by rewrite <- Hr.
Qed.

Lemma put_all_length l out : length (put_all l out) = length out.
Proof.
  unfold put_all. revert out. induction l as [|[i o] l IH]; intros out; cbn; [done|].
  by rewrite IH, length_insert.
Qed.

Lemma put_all_other idx vals out i :
  i ∉ idx → put_all (zip idx vals) out !! i = out !! i.
Proof.
  unfold put_all. revert vals out. induction idx as [|j idx IH]; intros [|v vals] out Hi;
    cbn; try done. rewrite IH by set_solver. apply list_lookup_insert_ne. set_solver.
Qed.

Lemma put_all_at idx vals out i k v :
  NoDup idx → idx !! k = Some i → vals !! k = Some v → (i < length out)%nat →
  put_all (zip idx vals) out !! i = Some v.
Proof.
  unfold put_all. revert k vals out. induction idx as [|j idx IH]; intros k [|w vals] out Hnd Hk Hv Hi;
    try done. apply NoDup_cons in Hnd as [Hj Hnd]. destruct k as [|k]; cbn in *.
  - injection Hk as ->. injection Hv as ->. fold (put_all (zip idx vals) (<[i:=v]> out)).
    rewrite (put_all_other idx vals) by done.
    rewrite list_lookup_insert, decide_True by (split; [done|lia]). done.
  - eapply (IH k); [done..|]. by rewrite length_insert.
Qed.

(** Dealing account by account: a position of [a] holds [a]'s share, any other is untouched. *)
Lemma deal_accounts_spec orders slots out i o :
  NoDup (map fst slots) → length out = length orders →
  (∀ a, a ∈ map fst slots → slot_get a slots = positions 0 a orders) →
  orders !! i = Some o →
  foldl (deal_account orders) out slots !! i =
    if decide (sealed o = false ∧ account o ∈ map fst slots)
    then sort_by seq_leb (filter (pub_of (account o)) orders)
           !! length (filter (pub_of (account o)) (take i orders))
    else out !! i.
Proof.
  intros Hnd Hlen Hget Hi. revert out Hlen. induction slots as [|[a idx] slots IH]; intros out Hlen.
  { rewrite decide_False by set_solver. done. }
  cbn [map fst] in Hnd. apply NoDup_cons in Hnd as [Ha Hnd]. cbn [foldl].
  assert (idx = positions 0 a orders) as ->.
  { rewrite <- (Hget a) by set_solver. by rewrite slot_get_cons, Z.eqb_refl. }
  rewrite IH; [|done| |].
  2:{ intros b Hb. rewrite <- (Hget b) by set_solver. rewrite slot_get_cons.
      destruct (Z.eqb_spec a b); [set_solver|done]. }
  2:{ unfold deal_account. by rewrite put_all_length. }
  cbn [map fst]. destruct (decide (sealed o = false ∧ account o ∈ map fst slots)) as [Hin|Hnin].
  { by rewrite decide_True by set_solver. }
  unfold deal_account. cbn [snd].
  pose proof (positions_orders 0 a orders [] eq_refl) as Hom. cbn [app] in Hom. rewrite Hom.
  destruct (decide (pub_of a o)) as [[Hs Hacc]|Hnp].
  - rewrite decide_True by set_solver. rewrite Hacc.
    pose proof (positions_rank 0 a orders i o Hi (conj Hs Hacc)) as Hpos.
    assert (Hl : (length (filter (pub_of a) (take i orders)) < length (sort_by seq_leb (filter (pub_of a) orders)))%nat).
    { rewrite sort_by_perm. rewrite <- (take_drop i orders) at 2. rewrite filter_app, length_app.
      rewrite (drop_S _ _ _ Hi), filter_cons, decide_True by done. cbn. lia. }
    apply lookup_lt_is_Some_2 in Hl as [v Hv]. rewrite Hv.
    eapply put_all_at; [apply NoDup_positions|exact Hpos|exact Hv|].
    rewrite Hlen. by apply lookup_lt_Some in Hi.
  - rewrite decide_False; [|unfold pub_of in *; set_solver].
    apply put_all_other. rewrite elem_of_positions. intros (x & _ & Hx & Hp).
    rewrite Nat.sub_0_r in Hx. congruence.
Qed.

Lemma deal_accounts_length orders slots out :
  length (foldl (deal_account orders) out slots) = length out.
Proof.
  revert out. induction slots as [|s slots IH]; intros out; [done|]. cbn. rewrite IH.
  apply put_all_length.
Qed.

Lemma redeal_lookup orders i o :
  orders !! i = Some o →
  redeal orders !! i =
    if sealed o then Some o
    else sort_by seq_leb (filter (pub_of (account o)) orders)
           !! length (filter (pub_of (account o)) (take i orders)).
Proof.
  intros Hi. destruct (slots_of_spec orders) as [Hnd Hget]. unfold redeal.
  erewrite deal_accounts_spec; [|done|done|by intros; apply Hget|done].
  destruct (sealed o) eqn:Hs; [by rewrite decide_False by (intros [? _]; done)|].
  rewrite decide_True; [done|]. split; [done|].
  pose proof (Hget (account o)) as Hg. unfold slot_get in Hg.
  destruct (list_find _ (slots_of orders)) as [[j p]|] eqn:Hf.
  - apply list_find_Some in Hf as (Hj & <- & _). apply list_elem_of_fmap_2.
    by eapply list_elem_of_lookup_2.
  - assert (i ∈ positions 0 (account o) orders) as Hin.
    { apply elem_of_positions. exists o. rewrite Nat.sub_0_r. split_and!; [lia|done|done]. }
    rewrite <- Hg in Hin. set_solver.
Qed.

(** The same queue dealt from one hand per account. *)
Fixpoint deal (hands : Z → list order) (l : list order) : list order :=
  match l with
  | [] => []
  | o :: r =>
      if sealed o then o :: deal hands r
      else match hands (account o) with
           | [] => o :: deal hands r
           | x :: xs => x :: deal (λ b, if b =? account o then xs else hands b) r
           end
  end.

Lemma deal_length hands l : length (deal hands l) = length l.
Proof. revert hands. induction l; intros; cbn; repeat case_match; cbn; auto. Qed.

Lemma deal_lookup hands l i o :
  (∀ a, length (hands a) = length (filter (pub_of a) l)) → l !! i = Some o →
  deal hands l !! i = if sealed o then Some o
    else hands (account o) !! length (filter (pub_of (account o)) (take i l)).
Proof.
  revert hands i. induction l as [|x l IH]; intros hands i Hlen Hi; [done|].
  cbn [deal]. pose proof (Hlen (account x)) as Hx. rewrite filter_cons in Hx.
  destruct (sealed x) eqn:Hs.
  { assert (Hl : ∀ a, length (hands a) = length (filter (pub_of a) l)).
    { intros a. rewrite Hlen, filter_cons, decide_False; [done|]. unfold pub_of. intuition congruence. }
    destruct i as [|i]; cbn in Hi; [injection Hi as ->; by rewrite Hs|].
    cbn [lookup list_lookup]. cbn [take]. rewrite filter_cons, decide_False.
    - by apply IH.
    - unfold pub_of. intuition congruence. }
  rewrite decide_True in Hx by done. destruct (hands (account x)) as [|y ys] eqn:Hh; [done|].
  destruct i as [|i]; cbn in Hi.
  { injection Hi as ->. rewrite Hs, Hh. done. }
  cbn [take]. rewrite filter_cons. unfold lookup at 1, list_lookup at 1. fold (@list_lookup order).
  change (deal (λ b, if b =? account x then ys else hands b) l !! i =
    if sealed o then Some o else hands (account o) !! length
      (if decide (pub_of (account o) x) then x :: filter (pub_of (account o)) (take i l)
       else filter (pub_of (account o)) (take i l))).
  rewrite (IH _ i); [|intros a|done].
  - destruct (sealed o); [done|]. destruct (Z.eqb_spec (account o) (account x)) as [E|E].
    + rewrite decide_True by done. by rewrite E, Hh.
    + by rewrite decide_False by (unfold pub_of; intuition congruence).
  - pose proof (Hlen a) as Ha. rewrite filter_cons in Ha.
    destruct (Z.eqb_spec a (account x)) as [->|E].
    + rewrite decide_True, Hh in Ha by done. cbn in Ha. lia.
    + by rewrite decide_False in Ha by (unfold pub_of; intuition congruence).
Qed.

(** Each account's hand: its public orders by ascending seq. *)
Definition hand (l : list order) (a : Z) : list order := sort_by seq_leb (filter (pub_of a) l).

Lemma redeal_deal l : redeal l = deal (hand l) l.
Proof.
  apply list_eq_same_length with (length l).
  - by rewrite deal_length.
  - unfold redeal. by rewrite deal_accounts_length.
  - intros i x y Hi Hx Hy. apply lookup_lt_is_Some_2 in Hi as [o Ho].
    rewrite (redeal_lookup _ _ _ Ho) in Hx. rewrite (deal_lookup _ _ _ o) in Hy; [|intros a|done].
    + unfold hand in Hy. congruence.
    + unfold hand. by rewrite sort_by_perm.
Qed.

(** What the hands hold for the queue they deal: each account's public orders, rearranged. *)
Definition fair_hands (hands : Z → list order) (l : list order) : Prop :=
  ∀ a, length (hands a) = length (filter (pub_of a) l) ∧ Forall (pub_of a) (hands a).

Lemma fair_hand l : fair_hands (hand l) l.
Proof.
  intros a. unfold hand. rewrite !sort_by_perm. split; [done|]. apply Forall_forall. intros x Hx.
  apply list_elem_of_filter in Hx. tauto.
Qed.

(** Taking one card: the hands left are fair for the rest of the queue. *)
Lemma fair_hands_cons hands o l :
  fair_hands hands (o :: l) →
  if sealed o then fair_hands hands l
  else ∃ x xs, hands (account o) = x :: xs ∧ pub_of (account o) x ∧
       fair_hands (λ b, if b =? account o then xs else hands b) l.
Proof.
  intros Hf. destruct (sealed o) eqn:Hs.
  - intros a. destruct (Hf a) as [Hl ?]. split; [|done]. rewrite Hl, filter_cons, decide_False; [done|].
    unfold pub_of. intuition congruence.
  - destruct (Hf (account o)) as [Hl HF]. rewrite filter_cons, decide_True in Hl by done.
    destruct (hands (account o)) as [|x xs]; [done|]. apply Forall_cons in HF as [Hx HF].
    exists x, xs. split_and!; [done..|]. intros a.
    destruct (Z.eqb_spec a (account o)) as [->|Hne]; [cbn in Hl; split; [lia|done]|].
    destruct (Hf a) as [Hla ?]. split; [|done]. rewrite Hla, filter_cons, decide_False; [done|].
    unfold pub_of. intuition congruence.
Qed.

Lemma deal_pub hands l a : fair_hands hands l → filter (pub_of a) (deal hands l) = hands a.
Proof.
  revert hands. induction l as [|o l IH]; intros hands Hf.
  { destruct (Hf a) as [Hl _]. cbn in Hl. by destruct (hands a). }
  pose proof (fair_hands_cons _ _ _ Hf) as Hc. cbn [deal]. destruct (sealed o) eqn:Hs.
  - rewrite filter_cons, decide_False; [by apply IH|]. unfold pub_of. intuition congruence.
  - destruct Hc as (x & xs & Hh & Hx & Hf'). rewrite Hh, filter_cons, (IH _ Hf').
    destruct Hx as [Hxs Hxa]. destruct (Z.eqb_spec a (account o)) as [->|Hne].
    + by rewrite decide_True by done.
    + rewrite decide_False; [done|]. unfold pub_of. intuition congruence.
Qed.

Lemma deal_sealed hands l :
  fair_hands hands l → filter (λ o, sealed o = true) (deal hands l) = filter (λ o, sealed o = true) l.
Proof.
  revert hands. induction l as [|o l IH]; intros hands Hf; [done|].
  pose proof (fair_hands_cons _ _ _ Hf) as Hc. cbn [deal]. destruct (sealed o) eqn:Hs.
  - rewrite !filter_cons, !decide_True by done. f_equal. by apply IH.
  - destruct Hc as (x & xs & Hh & [Hx _] & Hf'). rewrite Hh, !filter_cons, !decide_False by congruence.
    by apply IH.
Qed.

(** Taking sealed orders out commutes with dealing. *)
Lemma deal_filter hands l (P : order → Prop) `{!∀ o, Decision (P o)} :
  fair_hands hands l →
  deal hands (filter (λ o, sealed o = false ∨ P o) l)
  = filter (λ o, sealed o = false ∨ P o) (deal hands l).
Proof.
  revert hands. induction l as [|o l IH]; intros hands Hf; [done|].
  pose proof (fair_hands_cons _ _ _ Hf) as Hc. rewrite filter_cons.
  destruct (decide (sealed o = false ∨ P o)) as [HP|HP]; cbn [deal]; destruct (sealed o) eqn:Hs.
  - rewrite filter_cons, decide_True by (right; by destruct HP). f_equal. by apply IH.
  - destruct Hc as (x & xs & Hh & [Hx _] & Hf'). rewrite Hh, filter_cons, decide_True by (by left).
    f_equal. by apply IH.
  - rewrite filter_cons, decide_False; [by apply IH|]. intros [?|?]; [congruence|]. apply HP. by right.
  - exfalso. apply HP. by left.
Qed.

(** ** Facts about the re-dealt queue *)
Lemma redeal_pub l a : filter (pub_of a) (redeal l) = hand l a.
Proof. rewrite redeal_deal. apply deal_pub, fair_hand. Qed.

(** An order is sealed, or public and of one account. *)
Definition order_class (c : option Z) (o : order) : Prop :=
  match c with None => sealed o = true | Some a => pub_of a o end.
#[global] Instance order_class_dec c o : Decision (order_class c o).
Proof. destruct c; cbn; apply _. Defined.

Lemma redeal_perm l : redeal l ≡ₚ l.
Proof.
  apply (perm_by_class order_class).
  - intros x. destruct (sealed x) eqn:E; [by exists None|by exists (Some (account x))].
  - intros [a|].
    + rewrite !(list_filter_iff (order_class (Some a)) (pub_of a)) by done. rewrite redeal_pub. unfold hand. by rewrite sort_by_perm.
    + rewrite !(list_filter_iff (order_class None) (λ o, sealed o = true)) by done.
      rewrite redeal_deal. by rewrite deal_sealed by apply fair_hand.
Qed.

Lemma redeal_filter l (P : order → Prop) `{!∀ o, Decision (P o)} :
  redeal (filter (λ o, sealed o = false ∨ P o) l)
  = filter (λ o, sealed o = false ∨ P o) (redeal l).
Proof.
  rewrite !redeal_deal, <- (deal_filter (hand l) l P) by apply fair_hand.
  assert (Hh : ∀ a, hand (filter (λ o, sealed o = false ∨ P o) l) a = hand l a).
  { intros a. unfold hand. f_equal. rewrite list_filter_filter. apply list_filter_iff.
    unfold pub_of. tauto. }
  generalize (filter (λ o, sealed o = false ∨ P o) l) at 2 3. intros k. revert Hh.
  generalize (hand (filter (λ o, sealed o = false ∨ P o) l)) (hand l).
  induction k as [|o k IH]; intros h1 h2 Hh; [done|]. cbn [deal]. rewrite Hh.
  destruct (sealed o); [f_equal; by apply IH|]. destruct (h2 (account o)) as [|x xs].
  - f_equal. by apply IH.
  - f_equal. apply IH. intros a. by destruct (a =? account o).
Qed.

(** ** The greedy prefix *)
Section take_batch.
Context (cap : Z) (gas : order → Z) (budget : Z) (sealed_cap : option Z).
Local Notation take := (take_batch cap gas budget sealed_cap).

Definition hidden_count (l : list order) : Z := zsum (λ o, if sealed o then 1 else 0) l.
Definition within (n used hidden : Z) : Prop :=
  n ≤ cap ∧ used ≤ budget ∧ match sealed_cap with Some c => hidden ≤ c | None => True end.

Lemma take_batch_sublist n u h l : take n u h l `sublist_of` l.
Proof.
  revert n u h. induction l as [|o l IH]; intros; cbn; [constructor|].
  case_match; [by apply sublist_cons|]. case_match; [apply sublist_nil_l|by apply sublist_skip].
Qed.

Lemma take_batch_within n u h l :
  within n u h →
  within (n + Z.of_nat (length (take n u h l))) (u + zsum gas (take n u h l))
         (h + hidden_count (take n u h l)).
Proof.
  revert n u h. induction l as [|o l IH]; intros n u h Hw; cbn [take_batch].
  { cbn. by rewrite !Z.add_0_r. }
  case_match; [by apply IH|]. case_match eqn:Hg; [cbn; by rewrite !Z.add_0_r|].
  unfold hidden_count in *. rewrite !zsum_cons. cbn [length]. zbool.
  assert (within (n + 1) (u + gas o) (h + (if sealed o then 1 else 0))) as Hw'.
  { unfold within in *. destruct Hw as (? & ? & Hs). split_and!; [lia..|].
    destruct sealed_cap as [c|]; [|done]. destruct (sealed o); [|lia]. cbn in *. zbool. lia. }
  specialize (IH _ _ _ Hw'). unfold within in *. rewrite Nat2Z.inj_succ.
  destruct IH as (? & ? & Hs). split_and!; [lia..|]. destruct sealed_cap; [lia|done].
Qed.

Lemma take_batch_gas n u h l o : o ∈ take n u h l → gas o ≤ budget.
Proof.
  revert n u h. induction l as [|z l IH]; intros n u h; cbn [take_batch]; [by intros ?%elem_of_nil|].
  destruct (Z.ltb_spec budget (gas z)); [apply IH|]. case_match; [by intros ?%elem_of_nil|].
  rewrite elem_of_cons. intros [->|Hz]; [done|by eapply IH].
Qed.

(** An order left out although it could ride alone did not fit behind the batch taken. *)
Lemma take_batch_prefix n u h l1 o l2 :
  gas o ≤ budget → o ∉ take n u h (l1 ++ o :: l2) → take n u h (l1 ++ o :: l2) = take n u h l1.
Proof.
  revert n u h. induction l1 as [|x l1 IH]; intros n u h Hg; cbn [app take_batch].
  - destruct (Z.ltb_spec budget (gas o)); [lia|]. case_match; [done|]. set_solver.
  - case_match; [by apply IH|]. case_match; [done|]. intros Hn. f_equal. apply IH; [done|]. set_solver.
Qed.

Hypothesis gas_nonneg : ∀ o, 0 ≤ gas o.

(** Fewer candidates and more room never drop an order that was batched. *)
Lemma take_batch_mono (P : order → Prop) `{!∀ o, Decision (P o)} l n u h n' u' h' o :
  n' ≤ n → u' ≤ u → h' ≤ h →
  o ∈ take n u h l → P o → o ∈ take n' u' h' (filter P l).
Proof.
  revert n u h n' u' h'. induction l as [|x l IH]; intros n u h n' u' h' Hn Hu Hh; cbn [take_batch].
  { set_solver. }
  rewrite filter_cons. destruct (budget <? gas x) eqn:Hb.
  { intros Ho HP. case_decide; [|by apply (IH n u h)]. cbn [take_batch]. rewrite Hb.
    by apply (IH n u h). }
  case_match eqn:Hg; [set_solver|]. pose proof (gas_nonneg x). zbool.
  intros Ho HP. case_decide as HPx.
  - cbn [take_batch]. destruct (Z.ltb_spec budget (gas x)); [lia|].
    assert ((cap <=? n') || (budget <? u' + gas x) ||
      (sealed x && match sealed_cap with Some c => c <=? h' | None => false end) = false) as ->.
    { rewrite !orb_false_iff. split_and!; [lia..|]. destruct (sealed x); [|done].
      destruct sealed_cap; cbn in *; lia. }
    apply elem_of_cons in Ho as [->|Ho]; [set_solver|]. apply list_elem_of_further.
    eapply IH; [| | |exact Ho|done]; lia.
  - apply elem_of_cons in Ho as [->|Ho]; [done|].
    eapply IH; [| | |exact Ho|done]; [lia..|]. destruct (sealed x); lia.
Qed.
End take_batch.

(** ** [_cap_batch] as a policy *)
Section cap_batch_facts.
Context (cap : Z) (gas : order → Z) (budget : Z) (sealed_cap : option Z).
Local Notation fit := (cap_batch cap gas budget sealed_cap).

Lemma cap_batch_sub l : (fit l).1 ⊆+ l.
Proof.
  cbn. transitivity (redeal l); [apply sublist_submseteq, take_batch_sublist|].
  by rewrite redeal_perm.
Qed.

Lemma cap_batch_split l : NoDup (map o_ref l) → (fit l).1 ++ (fit l).2 ≡ₚ l.
Proof.
  intros Hnd. cbn. set (out := redeal l). set (batch := take_batch _ _ _ _ _ _ _ out).
  assert (Hout : NoDup (map o_ref out)) by (unfold out; by rewrite redeal_perm).
  assert (Hsub : batch ⊆ out).
  { intros x Hx. eapply elem_of_submseteq; [exact Hx|].
    apply sublist_submseteq, take_batch_sublist. }
  assert (batch ≡ₚ filter (λ o, o_ref o ∈ refs batch) out) as Hb.
  { apply NoDup_Permutation.
    - eapply submseteq_NoDup; [apply sublist_submseteq, take_batch_sublist|].
      by apply NoDup_fmap_1 in Hout.
    - apply NoDup_filter. by apply NoDup_fmap_1 in Hout.
    - intros o. rewrite list_elem_of_filter. split.
      + intros Ho. split; [apply elem_of_refs; eauto|by apply Hsub].
      + intros [Hr Ho]. by apply (ref_in_refs out Hout) in Hr. }
  rewrite Hb at 1. rewrite <- (redeal_perm l). fold out. apply filter_dec_perm.
Qed.

Lemma cap_batch_oldest l x y :
  NoDup (map o_ref l) → (∀ a b, sealed a = false → sealed b = false → gas a = gas b) →
  x ∈ (fit l).2 → y ∈ (fit l).1 → sealed x = false → sealed y = false →
  account x = account y → seq y ≤ seq x.
Proof.
  intros Hnd Hg Hx Hy Hsx Hsy Ha. cbn in Hx, Hy.
  apply list_elem_of_filter in Hx as [Hnin Hx].
  apply list_elem_of_split in Hx as (l1 & l2 & Hout).
  assert (Hgx : gas x ≤ budget).
  { rewrite (Hg x y) by done. by eapply take_batch_gas. }
  assert (Hnot : x ∉ take_batch cap gas budget sealed_cap 0 0 0 (redeal l)).
  { intros Hin. apply Hnin, elem_of_refs. eauto. }
  rewrite Hout in Hy, Hnot. rewrite take_batch_prefix in Hy by done.
  assert (Hy1 : y ∈ l1).
  { eapply elem_of_submseteq; [exact Hy|]. apply sublist_submseteq, take_batch_sublist. }
  pose proof (redeal_pub l (account x)) as Hp. rewrite Hout, filter_app, filter_cons in Hp.
  rewrite decide_True in Hp by done.
  assert (Hs : StronglySorted (λ a b, seq_leb a b = true) (hand l (account x))).
  { apply sort_by_sorted; unfold seq_leb; intros; lia. }
  rewrite <- Hp in Hs. apply StronglySorted_app_1_elem_of with (x1 := y) (x2 := x) in Hs.
  - unfold seq_leb in Hs. lia.
  - apply list_elem_of_filter. done.
  - set_solver.
Qed.

#[global] Instance cap_batch_fit (gas_nonneg : ∀ o, 0 ≤ gas o) : FitPolicy fit.
Proof.
  split; [apply cap_batch_sub|]. intros c P HP o _ Ho Hel. cbn in *. rewrite redeal_filter.
  by apply take_batch_mono with (n := 0) (u := 0) (h := 0).
Qed.
End cap_batch_facts.

(** ** The running floors of [check_bindings] *)
Lemma set_run_floor_get floor floors a b s :
  run_floor floor (set_run_floor a s floors) b = if a =? b then s else run_floor floor floors b.
Proof.
  unfold run_floor. induction floors as [|[c t] floors IH]; cbn [set_run_floor].
  { cbn. destruct (Z.eqb_spec a b) as [->|]; [by rewrite decide_True|by rewrite decide_False]. }
  destruct (Z.eqb_spec c a) as [->|Hca]; cbn [list_find fst].
  - destruct (Z.eqb_spec a b) as [->|]; [by rewrite !decide_True|]. rewrite !decide_False by done.
    by destruct (list_find _ floors) as [[? ?]|].
  - destruct (decide (c = b)) as [->|Hcb].
    { by destruct (Z.eqb_spec a b) as [->|]. }
    revert IH. destruct (list_find _ (set_run_floor a s floors)) as [[? ?]|],
      (list_find _ floors) as [[? ?]|]; cbn; done.
Qed.

Section check_bindings_facts.
Context (floor : Z → Z) (reg : Z → option (list Z)) (lp pct : Z).
Local Notation check := (check_bindings floor reg lp pct).

(** The part of the test that is about one order alone. *)
Definition binding_ok (b : order) : Prop :=
  reg (account b) = Some (pubkey b) ∧
  (is_market b = true → lp ≠ 0 ∧ lp * (100 - pct) ≤ price b * 100 ≤ lp * (100 + pct)).

Lemma check_bindings_one fl b rest :
  binding_ok b → run_floor floor fl (account b) < seq b →
  check fl (b :: rest) = check (set_run_floor (account b) (seq b) fl) rest.
Proof.
  intros [Hk Hm] Hs. cbn [check_bindings]. rewrite bool_decide_eq_true_2 by done.
  destruct (Z.leb_spec (seq b) (run_floor floor fl (account b))); [lia|].
  destruct (is_market b); [|done]. destruct Hm as [? ?]; [done|].
  destruct (Z.eqb_spec lp 0); [lia|]. cbn.
  destruct (Z.ltb_spec (price b * 100) (lp * (100 - pct))); [lia|].
  destruct (Z.ltb_spec (lp * (100 + pct)) (price b * 100)); [lia|]. done.
Qed.

Lemma check_bindings_app fl l k : check fl (l ++ k) = check fl l ≫= λ fl', check fl' k.
Proof.
  revert fl. induction l as [|b l IH]; intros fl; cbn [app check_bindings]; [done|].
  case_bool_decide; [|done]. case_match; [done|]. case_match; [done|]. apply IH.
Qed.

(** What acceptance implies: seqs beat the running floor, and no account repeats one. *)
Lemma check_bindings_seqs fl l r :
  check fl l = Some r →
  (∀ o, o ∈ l → run_floor floor fl (account o) < seq o) ∧ NoDup (map (λ o, (account o, seq o)) l).
Proof.
  revert fl. induction l as [|b l IH]; intros fl; cbn [check_bindings].
  { intros _. split; [set_solver|constructor]. }
  case_bool_decide; [|done]. destruct (Z.leb_spec (seq b) (run_floor floor fl (account b))); [done|].
  case_match; [done|]. intros [Hlt Hnd]%IH. split.
  - intros o [->|Ho]%elem_of_cons; [done|]. specialize (Hlt o Ho). rewrite set_run_floor_get in Hlt.
    destruct (Z.eqb_spec (account b) (account o)) as [<-|]; [lia|done].
  - cbn. constructor; [|done]. intros (o & E & Ho)%list_elem_of_fmap. injection E as Ha Hs.
    specialize (Hlt o Ho). rewrite set_run_floor_get, Ha, Z.eqb_refl in Hlt. lia.
Qed.
End check_bindings_facts.

(** ** The sanitizing loop *)
Section sanitize_facts.
Context (floor : Z → Z) (reg : Z → option (list Z)) (lp pct : Z).

(** The loop invariant; [rest] are the orders still to come. *)
Record sane (st : sanitize) (rest : list order) : Prop := {
  sane_floors a f : sn_floors st !! a = Some f → f = floor a;
  sane_dom a : is_Some (sn_floors st !! a) ↔ is_Some (sn_run st !! a);
  sane_run a r : sn_run st !! a = Some r →
    r = floor a ∨ ∃ k, k ∈ sn_kept st ∧ account k = a ∧ seq k = r;
  sane_ahead k o : k ∈ sn_kept st → o ∈ rest → acct_seq_leb k o = true;
  sane_dead o w : (o, w) ∈ sn_dead st →
    seq o ≤ floor (account o) ∨ ∃ k, k ∈ sn_kept st ∧ account k = account o ∧ seq k = seq o;
  sane_check : Forall (binding_ok reg lp pct) (sn_kept st) →
    ∃ fl, check_bindings floor reg lp pct [] (sn_kept st) = Some fl ∧
          ∀ a, run_floor floor fl a = default (floor a) (sn_run st !! a)
}.

(** The state in which an order is judged: its account's floor has been read. *)
Definition with_floor (st : sanitize) (a : Z) : sanitize :=
  match sn_floors st !! a with
  | Some _ => st
  | None => Sanitize (<[a := floor a]> (sn_floors st)) (<[a := floor a]> (sn_run st))
              (sn_kept st) (sn_dead st)
  end.

Lemma with_floor_sane st a rest :
  sane st rest → sane (with_floor st a) rest ∧
  sn_floors (with_floor st a) !! a = Some (floor a) ∧ is_Some (sn_run (with_floor st a) !! a) ∧
  sn_kept (with_floor st a) = sn_kept st ∧ sn_dead (with_floor st a) = sn_dead st.
Proof.
  intros Hs. unfold with_floor. destruct (sn_floors st !! a) as [f|] eqn:Hf.
  { split_and!; [done| |by apply (sane_dom _ _ Hs)|done|done].
    rewrite Hf. f_equal. by eapply sane_floors. }
  assert (Hr : sn_run st !! a = None).
  { apply eq_None_not_Some. rewrite <- (sane_dom _ _ Hs), Hf. by intros [? ?]. }
  split_and!; cbn [sn_floors sn_run sn_kept sn_dead]; [|by rewrite lookup_insert_eq..|done|done].
  destruct Hs as [H1 H2 H3 H4 H5 H6]. split; cbn [sn_floors sn_run sn_kept sn_dead]; try done.
  - intros b g. rewrite lookup_insert_Some. intros [[<- <-]|[_ ?]]; [done|by apply H1].
  - intros b. rewrite !lookup_insert_is_Some. rewrite H2. done.
  - intros b r. rewrite lookup_insert_Some. intros [[<- <-]|[_ ?]]; [by left|by apply H3].
  - intros Hok. destruct (H6 Hok) as (fl & ? & Hfl). exists fl. split; [done|]. intros b.
    rewrite Hfl. destruct (decide (a = b)) as [<-|]; [by rewrite Hr, lookup_insert_eq|].
    by rewrite lookup_insert_ne.
Qed.

Lemma sanitize_step_sane st o rest :
  sane st (o :: rest) → Forall (λ x, acct_seq_leb o x = true) rest →
  sane (sanitize_step floor st o) rest ∧
  sn_kept (sanitize_step floor st o) ++ map fst (sn_dead (sanitize_step floor st o))
    ≡ₚ o :: sn_kept st ++ map fst (sn_dead st).
Proof.
  intros Hs Hrest. unfold sanitize_step. fold (with_floor st (account o)).
  destruct (with_floor_sane st (account o) _ Hs) as (Hs' & Hf & [r Hr] & Hk & Hd).
  set (st' := with_floor st (account o)) in *. rewrite Hf, Hr, <- Hk, <- Hd. cbn [from_option id].
  clearbody st'. clear Hs st Hk Hd. destruct Hs' as [H1 H2 H3 H4 H5 H6].
  assert (H4' : ∀ k x, k ∈ sn_kept st' → x ∈ rest → acct_seq_leb k x = true).
  { intros k x Hk Hx. apply H4; [done|]. by apply list_elem_of_further. }
  destruct (Z.leb_spec (seq o) (floor (account o))) as [Hle|Hgt].
  { cbn [sn_kept sn_dead]. split; [|rewrite List.map_app; cbn; solve_Permutation].
    split; cbn [sn_floors sn_run sn_kept sn_dead]; try done.
    intros x w [Hx|Hx]%elem_of_app; [by eapply H5|]. apply list_elem_of_singleton in Hx.
    injection Hx as -> _. by left. }
  destruct (Z.leb_spec (seq o) r) as [Hle'|Hgt'].
  { cbn [sn_kept sn_dead]. split; [|rewrite List.map_app; cbn; solve_Permutation].
    split; cbn [sn_floors sn_run sn_kept sn_dead]; try done.
    intros x w [Hx|Hx]%elem_of_app; [by eapply H5|]. apply list_elem_of_singleton in Hx.
    injection Hx as -> _. right. destruct (H3 _ _ Hr) as [->|(k & Hk & Ha & Hse)]; [lia|].
    exists k. split_and!; [done..|]. assert (acct_seq_leb k o = true) as Hle; [|].
    { apply H4; [done|]. apply list_elem_of_here. }
    unfold acct_seq_leb in Hle. lia. }
  cbn [sn_kept sn_dead]. split; [|rewrite <- (assoc_L (++)); cbn; solve_Permutation].
  split; cbn [sn_floors sn_run sn_kept sn_dead].
  - done.
  - intros a. rewrite H2, lookup_insert_is_Some. destruct (decide (account o = a)) as [<-|]; naive_solver.
  - intros a q. rewrite lookup_insert_Some. intros [[<- <-]|[_ Hq]].
    + right. exists o. set_solver.
    + destruct (H3 _ _ Hq) as [->|(k & ? & ?)]; [by left|right; exists k; set_solver].
  - intros k x [Hk|Hk%list_elem_of_singleton]%elem_of_app Hx; [by apply H4'|subst k].
    by eapply Forall_forall in Hrest.
  - intros x w Hx. destruct (H5 x w Hx) as [?|(k & ? & ?)]; [by left|right; exists k; set_solver].
  - intros [Hok Hb]%Forall_app. rewrite Forall_singleton in Hb. destruct (H6 Hok) as (fl & Hc & Hfl).
    exists (set_run_floor (account o) (seq o) fl). split.
    + rewrite check_bindings_app, Hc. cbn [mbind option_bind].
      rewrite check_bindings_one; [done|exact Hb|]. rewrite Hfl, Hr. cbn. lia.
    + intros a. rewrite set_run_floor_get, Hfl. destruct (Z.eqb_spec (account o) a) as [<-|].
      * by rewrite lookup_insert_eq.
      * by rewrite lookup_insert_ne.
Qed.

Lemma sanitize_fold_sane l st :
  StronglySorted (λ a b, acct_seq_leb a b = true) l → sane st l →
  let st' := foldl (sanitize_step floor) st l in
  sane st' [] ∧ sn_kept st' ++ map fst (sn_dead st') ≡ₚ l ++ sn_kept st ++ map fst (sn_dead st).
Proof.
  intros Hsort. revert st. induction Hsort as [|o l Hsort IH Ho]; intros st Hs; cbn [foldl]; [done|].
  destruct (sanitize_step_sane st o l Hs Ho) as [Hs' Hp].
  destruct (IH _ Hs') as [Hs'' Hp']. split; [done|]. cbn zeta in *. rewrite Hp', Hp.
  cbn. solve_Permutation.
Qed.

Lemma seq_sanitize_spec orders :
  ∃ st, seq_sanitize floor orders = (sn_kept st, sn_dead st, sn_floors st) ∧ sane st [] ∧
        sn_kept st ++ map fst (sn_dead st) ≡ₚ orders.
Proof.
  exists (foldl (sanitize_step floor) (Sanitize ∅ ∅ [] []) (sort_by acct_seq_leb orders)).
  split; [done|].
  destruct (sanitize_fold_sane (sort_by acct_seq_leb orders) (Sanitize ∅ ∅ [] [])) as [Hs Hp].
  - apply sort_by_sorted; unfold acct_seq_leb; intros; lia.
  - split; cbn; set_solver.
  - split; [done|]. rewrite Hp. cbn. by rewrite app_nil_r, sort_by_perm.
Qed.
End sanitize_facts.

(** ** Market prices *)
Lemma market_price_band s lp :
  0 < lp → lp * (100 - MARKET_BAND_PCT) ≤ market_price s lp * 100 ≤ lp * (100 + MARKET_BAND_PCT).
Proof.
  unfold market_price, MARKET_BAND_PCT. intros Hlp. destruct (s =? BUY).
  - pose proof (Z.div_mod (lp * (100 + 10)) 100). pose proof (Z.mod_pos_bound (lp * (100 + 10)) 100). lia.
  - pose proof (Z.div_mod (- lp * (100 - 10)) 100). pose proof (Z.mod_pos_bound (- lp * (100 - 10)) 100).
    lia.
Qed.

Lemma price_market_orders_ok reg lp public :
  Forall (λ o, reg (account o) = Some (pubkey o)) public →
  Forall (binding_ok reg lp MARKET_BAND_PCT) (price_market_orders lp public).1.
Proof.
  intros Hreg. rewrite Forall_forall in Hreg. unfold price_market_orders.
  destruct (filter _ public) as [|x xs] eqn:Hmk.
  - apply Forall_forall. intros o Ho. split; [by apply Hreg|]. intros Hm.
    assert (o ∈ filter (λ o, is_market o = true) public) by (apply list_elem_of_filter; done).
    rewrite Hmk in *. set_solver.
  - destruct (Z.leb_spec lp 0) as [Hlp|Hlp]; cbn [fst]; apply Forall_forall; intros o Ho.
    + apply list_elem_of_filter in Ho as [Hm Ho]. split; [by apply Hreg|congruence].
    + apply list_elem_of_fmap in Ho as (y & -> & Hy). specialize (Hreg y Hy).
      destruct (is_market y) eqn:Hm; split; try done; [|congruence].
      intros _. split; [lia|]. cbn [price with_price]. by apply market_price_band.
Qed.

(** What [_price_market_orders] makes of an order that it does not give up. *)
Definition repriced (lp : Z) (o : order) : order :=
  if is_market o && (0 <? lp) then with_price (market_price (side o) lp) o else o.

Lemma repriced_not_market lp o : is_market o = false → repriced lp o = o.
Proof. unfold repriced. by intros ->. Qed.

Lemma repriced_no_price lp l : lp ≤ 0 → map (repriced lp) l = l.
Proof.
  intros Hlp. rewrite <- (map_id l) at 2. apply map_ext. intros o. unfold repriced.
  destruct (Z.ltb_spec 0 lp); [lia|]. by rewrite andb_false_r.
Qed.

Lemma filter_market_perm l :
  filter (λ o, is_market o = false) l ++ filter (λ o, is_market o = true) l ≡ₚ l.
Proof.
  induction l as [|o l IH]; [done|]. rewrite !filter_cons.
  destruct (is_market o); cbn; [rewrite decide_False, decide_True by done|
    rewrite decide_True, decide_False by done].
  - rewrite <- Permutation_middle. by f_equiv.
  - cbn. by f_equiv.
Qed.

Lemma price_market_orders_all lp public :
  (price_market_orders lp public).1 ++ map fst (price_market_orders lp public).2
    ≡ₚ map (repriced lp) public ∧
  ∀ o why, (o, why) ∈ (price_market_orders lp public).2 →
    why = NoLastPrice ∧ is_market o = true ∧ lp ≤ 0.
Proof.
  unfold price_market_orders. destruct (filter _ public) as [|x xs] eqn:Hmk.
  - split; [|intros o why Ho; cbn in Ho; set_solver]. cbn [fst snd map]. rewrite app_nil_r.
    replace (map (repriced lp) public) with public; [done|]. symmetry.
    rewrite <- (map_id public) at 2. apply map_ext_in. intros o Ho%list_elem_of_In.
    apply repriced_not_market. destruct (is_market o) eqn:Hm; [|done].
    assert (o ∈ filter (λ o, is_market o = true) public) by (by apply list_elem_of_filter).
    rewrite Hmk in *. set_solver.
  - rewrite <- Hmk. destruct (Z.leb_spec lp 0) as [Hlp|Hlp]; cbn [fst snd].
    + split.
      * rewrite map_map, map_id, repriced_no_price by done. apply filter_market_perm.
      * intros o why (y & [= -> ->] & [Hy _]%list_elem_of_filter)%list_elem_of_fmap. done.
    + split; [|intros o why Ho; set_solver]. cbn [map]. rewrite app_nil_r.
      apply reflexive_eq, map_ext. intros o. unfold repriced.
      destruct (Z.ltb_spec 0 lp); [|lia]. by rewrite andb_true_r.
Qed.

(** ** Properties *)

(** The batch policy loses nothing and keeps to its limits: batch and overflow rearrange the
    candidates, and the batch has at most [cap] orders, at most [budget] gas and at most
    [sealed_cap] sealed orders. *)
Theorem cap_batch_bounds cap gas budget sealed_cap orders :
  NoDup (map o_ref orders) → 0 ≤ cap → 0 ≤ budget → (∀ c, sealed_cap = Some c → 0 ≤ c) →
  let '(batch, overflow) := cap_batch cap gas budget sealed_cap orders in
  batch ++ overflow ≡ₚ orders ∧ Z.of_nat (length batch) ≤ cap ∧ zsum gas batch ≤ budget ∧
  ∀ c, sealed_cap = Some c → hidden_count batch ≤ c.
Proof.
  intros Hnd Hc Hb Hs. split; [by apply (cap_batch_split cap gas budget sealed_cap)|].
  destruct (take_batch_within cap gas budget sealed_cap 0 0 0 (redeal orders)) as (? & ? & Hh).
  { split_and!; [done..|]. destruct sealed_cap; [by apply Hs|done]. }
  split_and!; [done..|]. intros c ->. done.
Qed.

(** An account's newer public order never rides a round while an older one of the account
    waits in the overflow, however the queue was ordered. *)
Theorem cap_batch_no_overtake enc n cap budget sealed_cap orders x y :
  NoDup (map o_ref orders) →
  let '(batch, overflow) := cap_batch cap (order_gas enc n) budget sealed_cap orders in
  y ∈ batch → x ∈ overflow → sealed x = false → sealed y = false → account x = account y →
  seq y ≤ seq x.
Proof.
  intros Hnd. pose proof (cap_batch_oldest cap (order_gas enc n) budget sealed_cap orders x y Hnd) as H.
  destruct (cap_batch cap _ budget sealed_cap orders) as [batch overflow]. cbn [fst snd] in H.
  intros Hy Hx ? ? ?. apply H; [|done..]. intros a b Ha Hb. unfold order_gas. by rewrite Ha, Hb.
Qed.

(** (C8) Pricing and sanitizing the public orders of a round makes it acceptable and loses
    nothing.  When every queued order carries its account's registered key, the orders kept pass
    the service's [check_bindings] (keys, running seq floors, price band at the last price);
    the kept, the stale and the unpriced orders together are exactly the queued ones, the market
    orders at the price of the band edge when there is a last price; an order is left unpriced
    only when it is a market order and the market has no last price; and an order is stale only
    when its seq is at or below its account's floor or is that of a kept order of the account. *)
Theorem sanitized_round_accepted floor reg lp public :
  Forall (λ o, reg (account o) = Some (pubkey o)) public →
  let '(priced, unpriced) := price_market_orders lp public in
  let '(kept, stale, floors) := seq_sanitize floor priced in
  is_Some (check_bindings floor reg lp MARKET_BAND_PCT [] kept) ∧
  kept ++ map fst stale ++ map fst unpriced ≡ₚ map (repriced lp) public ∧
  (∀ o why, (o, why) ∈ unpriced → why = NoLastPrice ∧ is_market o = true ∧ lp ≤ 0) ∧
  (∀ o why, (o, why) ∈ stale →
     seq o ≤ floor (account o) ∨ ∃ k, k ∈ kept ∧ account k = account o ∧ seq k = seq o).
Proof.
  intros Hreg. pose proof (price_market_orders_ok reg lp public Hreg) as Hok.
  pose proof (price_market_orders_all lp public) as [Hall Hun].
  destruct (price_market_orders lp public) as [priced unpriced]. cbn [fst snd] in Hok, Hall, Hun.
  destruct (seq_sanitize_spec floor reg lp MARKET_BAND_PCT priced) as (st & -> & Hs & Hp).
  split_and!.
  - destruct (sane_check _ _ _ _ _ _ Hs) as (fl & -> & _); [|eauto].
    rewrite <- Hp in Hok. by apply Forall_app in Hok as [? _].
  - by rewrite app_assoc, Hp.
  - exact Hun.
  - intros o why Ho. exact (sane_dead _ _ _ _ _ _ Hs _ _ Ho).
Qed.

(** (C9) A dead order is really dead: no round accepted now or under higher floors carries it,
    except possibly in place of the kept order with its account and seq. *)
Theorem sanitize_dead_never_settles floor reg lp pct orders o why floor' round fl :
  let '(kept, dead, _) := seq_sanitize floor orders in
  (o, why) ∈ dead → (∀ a, floor a ≤ floor' a) →
  check_bindings floor' reg lp pct [] round = Some fl → o ∈ round →
  ∃ k, k ∈ kept ∧ account k = account o ∧ seq k = seq o ∧ (k ∈ round → k = o).
Proof.
  destruct (seq_sanitize_spec floor reg lp pct orders) as (st & -> & Hs & Hp).
  intros Hdead Hfl Hc Ho. destruct (check_bindings_seqs _ _ _ _ _ _ _ Hc) as [Hlt Hnd].
  specialize (Hlt o Ho). change (floor' (account o) < seq o) in Hlt. specialize (Hfl (account o)).
  destruct (sane_dead _ _ _ _ _ _ Hs _ _ Hdead) as [?|(k & Hk & Ha & Hse)]; [lia|].
  exists k. split_and!; [done..|]. intros Hkr. eapply NoDup_map_inj; [exact Hnd|done..|]. congruence.
Qed.

(** The price a market order is given is the edge of the band the service accepts: it is in
    the band, and no buy price above it nor sell price below it is. *)
Theorem market_price_edge s lp p :
  0 < lp → p * 100 ≤ lp * (100 + MARKET_BAND_PCT) → lp * (100 - MARKET_BAND_PCT) ≤ p * 100 →
  lp * (100 - MARKET_BAND_PCT) ≤ market_price s lp * 100 ≤ lp * (100 + MARKET_BAND_PCT) ∧
  if s =? BUY then p ≤ market_price s lp else market_price s lp ≤ p.
Proof.
  intros Hlp Hhi Hlo. split; [by apply market_price_band|].
  unfold market_price, MARKET_BAND_PCT in *. destruct (s =? BUY).
  - apply Z.div_le_lower_bound; lia.
  - apply Z.max_lub; [lia|]. assert (- p ≤ - lp * (100 - 10) / 100); [|lia].
    apply Z.div_le_lower_bound; lia.
Qed.

(** ** Witnesses: the properties at concrete queues *)
Definition signed_order (ref : positive) (a i s p q sq : Z) (t : order_type) : order :=
  {| o_ref := ref; account := a; oid := i; side := s; price := p; qty := q; otype := t;
     sealed := false; seq := sq; signed_price := p; pubkey := [a]; sig := []; expiry := None;
     reveal := None; ciphertext := None; commit := None |}.

(** Account 1 queued its orders newest first; account 2 has a market order and a sealed one. *)
Definition queue1 : list order :=
  [signed_order 1 1 1001 BUY 100 5 9 limit; signed_order 2 1 1002 BUY 101 5 4 limit;
   mk_order 3 2 1003 SELL 90 7 true; signed_order 4 2 1004 SELL 99 2 3 market;
   signed_order 5 1 1005 BUY 99 1 4 limit; mk_order 6 3 1006 BUY 10 4 true].

Definition policy1 := cap_batch 3 (order_gas false 2) (ROUND_GAS_BUDGET 1000000000) None.

#[global] Instance order_gas_fit enc n cap budget sc (Hn : 0 ≤ n) :
  FitPolicy (cap_batch cap (order_gas enc n) budget sc).
Proof.
  apply cap_batch_fit. intros o. unfold order_gas, GAS_SIGNED_ORDER, GAS_ENC_SHARE, GAS_REVEAL.
  destruct (sealed o), enc; cbn; lia.
Defined.

#[global] Instance policy1_fit : FitPolicy policy1.
Proof. apply order_gas_fit. done. Defined.

Lemma queue1_refs : NoDup (map o_ref queue1).
Proof. apply (bool_decide_unpack _). vm_compute. exact I. Qed.
Lemma queue1_sides o : o ∈ queue1 → valid_side o.
Proof. intros H. revert o H. apply Forall_forall. repeat constructor; cbn; (by left) || by right. Qed.

Lemma cap_batch_bounds_witness :
  map oid (policy1 queue1).1 = [1002; 1005; 1003] ∧ map oid (policy1 queue1).2 = [1004; 1001; 1006] ∧
  Z.of_nat (length (policy1 queue1).1) ≤ 3.
Proof.
  pose proof (cap_batch_bounds 3 (order_gas false 2) (ROUND_GAS_BUDGET 1000000000) None queue1
    queue1_refs ltac:(lia) ltac:(done) ltac:(done)) as (_ & H & _).
  split_and!; [vm_compute; reflexivity..|exact H].
Defined.

Lemma cap_batch_no_overtake_witness :
  seq (signed_order 2 1 1002 BUY 101 5 4 limit) ≤ seq (signed_order 1 1 1001 BUY 100 5 9 limit).
Proof.
  pose proof (cap_batch_no_overtake false 2 3 (ROUND_GAS_BUDGET 1000000000) None queue1
    (signed_order 1 1 1001 BUY 100 5 9 limit) (signed_order 2 1 1002 BUY 101 5 4 limit) queue1_refs) as H.
  apply H; [apply (bool_decide_unpack _); vm_compute; exact I..|done|done|done].
Defined.

Definition floor1 (a : Z) : Z := if a =? 1 then 3 else 2.
Definition reg1 (a : Z) : option (list Z) := Some [a].
Definition public1 : list order := filter (λ o, sealed o = false) queue1.

Lemma sanitized_round_accepted_witness :
  is_Some (check_bindings floor1 reg1 100 MARKET_BAND_PCT []
    (seq_sanitize floor1 (price_market_orders 100 public1).1).1.1) ∧
  map oid (seq_sanitize floor1 (price_market_orders 100 public1).1).1.1 = [1002; 1001; 1004] ∧
  map snd (seq_sanitize floor1 (price_market_orders 100 public1).1).1.2 = [DuplicateSeq 4].
Proof.
  pose proof (sanitized_round_accepted floor1 reg1 100 public1 ltac:(repeat constructor)) as H.
  split_and!; [exact (proj1 H)|vm_compute; reflexivity..].
Defined.

(** With no last price the market order is the unpriced one. *)
Example unpriced_without_last_price :
  map (λ d, (oid d.1, d.2)) (price_market_orders 0 public1).2 =
    map (λ o, (oid o, NoLastPrice)) (filter (λ o, is_market o = true) public1) ∧
  length (price_market_orders 0 public1).2 = 1%nat.
Proof. split; vm_compute; reflexivity. Qed.

Lemma sanitize_dead_never_settles_witness :
  ∃ k, k ∈ (seq_sanitize floor1 public1).1.1 ∧ account k = 1 ∧ seq k = 4 ∧
    (k ∈ [signed_order 5 1 1005 BUY 99 1 4 limit] → k = signed_order 5 1 1005 BUY 99 1 4 limit).
Proof.
  pose proof (sanitize_dead_never_settles floor1 reg1 100 10 public1
    (signed_order 5 1 1005 BUY 99 1 4 limit) (DuplicateSeq 4) floor1
    [signed_order 5 1 1005 BUY 99 1 4 limit] [(1, 4)]) as H.
  apply H; [apply (bool_decide_unpack _); vm_compute; exact I|lia|reflexivity|by apply list_elem_of_here].
Defined.

Lemma market_price_edge_witness :
  106 ≤ market_price BUY 97 ∧ market_price BUY 97 = 106 ∧ market_price SELL 97 = 88.
Proof.
  pose proof (market_price_edge BUY 97 106 ltac:(lia) ltac:(done) ltac:(done)) as [_ H].
  split_and!; [exact H|reflexivity..].
Defined.

(** The limit of the prefix property: with a PUBLIC order taken out, an order that was batched can
    drop out (account 1's order 1004 was dealt into the first slot; without 1001 it has the last).
    [plan_batch] only ever takes sealed orders out. *)
Definition queue2 : list order :=
  [signed_order 1 1 1001 BUY 100 5 9 limit; signed_order 2 2 1002 BUY 101 5 4 limit;
   signed_order 3 3 1003 SELL 90 7 1 limit; signed_order 4 1 1004 BUY 99 2 3 limit].

Example cap_batch_public_removal :
  let fit := cap_batch 2 (order_gas false 0) (ROUND_GAS_BUDGET 1000000000) None in
  map oid (fit queue2).1 = [1004; 1002] ∧ map oid (fit (drop 1 queue2)).1 = [1002; 1003].
Proof. split; vm_compute; reflexivity. Qed.

(** Witnesses of the planner's properties (RoundPlan.v), under this policy. *)
Lemma plan_batch_partition_witness :
  let p := plan_batch queue1 [] policy1 0 all_ready in
  map oid (pl_reveal p) = [1003] ∧ map oid (pl_public p) = [1002; 1005] ∧
  pl_reveal p ++ pl_public p ++ pl_carry p ++ pl_expired p ++ pl_deferred p ++ pl_overflow p ≡ₚ queue1.
Proof.
  split_and!; [vm_compute; reflexivity..|].
  exact (plan_batch_partition queue1 [] policy1 0 all_ready queue1_refs queue1_sides).
Defined.

Lemma plan_batch_counterparty_witness :
  ∃ c, c ∈ [] ++ pl_public (plan_batch queue1 [] policy1 0 all_ready) ++
         pl_reveal (plan_batch queue1 [] policy1 0 all_ready) ∧
       counterparty (mk_order 3 2 1003 SELL 90 7 true) c.
Proof.
  apply (plan_batch_counterparty queue1 [] policy1 0 all_ready _); [exact queue1_refs|exact queue1_sides|].
  apply (bool_decide_unpack _). vm_compute. exact I.
Defined.

Lemma carry_is_clearing_neutral_witness :
  map oid (pl_carry (plan_round queue1 [] 0 all_ready)) = [1006] ∧
  (let p := plan_round queue1 [] 0 all_ready in
   Clearing.clear (([] ++ pl_reveal p ++ pl_public p) ++ pl_carry p)
   = Clearing.clear ([] ++ pl_reveal p ++ pl_public p)).
Proof.
  split; [vm_compute; reflexivity|].
  apply (carry_is_clearing_neutral queue1 [] 0 all_ready); [|exact queue1_sides].
  rewrite app_nil_r. intros o H. revert o H. apply Forall_forall.
  repeat constructor; unfold nonneg_qty; cbn; lia.
Defined.

Lemma plan_batch_fair_witness :
  ∃ cr, cr ⊆ refs (pl_reveal (plan_round queue1 [] 0 all_ready)) ∧
    pl_reveal (plan_batch queue1 [] policy1 0 all_ready) ++
      pl_public (plan_batch queue1 [] policy1 0 all_ready) ≡ₚ (policy1 (competing cr queue1)).1.
Proof.
  destruct (plan_batch_fair queue1 [] policy1 0 all_ready queue1_refs queue1_sides) as (cr & ? & ? & _).
  by exists cr.
Defined.

Lemma plan_batch_ignores_waiting_witness :
  length (competing (refs (pl_reveal (plan_round queue1 [] 0 all_ready))) queue1) = 5%nat ∧
  pl_reveal (plan_batch (competing (refs (pl_reveal (plan_round queue1 [] 0 all_ready))) queue1)
    [] policy1 0 all_ready) = pl_reveal (plan_batch queue1 [] policy1 0 all_ready).
Proof.
  split; [vm_compute; reflexivity|].
  exact (proj1 (plan_batch_ignores_waiting queue1 [] policy1 0 all_ready queue1_refs queue1_sides)).
Defined.
