(* ===== verification/Bytes.v ===== *)
(** * Byte strings

    What the wire formats share: [bytes] as lists of octets, [int.to_bytes]/[int.from_bytes],
    [struct.pack] of unsigned fields, and readers over a buffer with a position, with the two
    composition principles the codecs' proofs use: [reads] (a reader takes back what was
    written) and [consumes] (whatever a reader accepts is what would have been written). *)
From S2P Require Import Prelude.

Notation bytes := (list Z).

Definition is_byte (b : Z) : Prop := 0 ≤ b < 256.
Definition wf_bytes (l : bytes) : Prop := Forall is_byte l.
#[global] Instance wf_bytes_dec l : Decision (wf_bytes l).
Proof. unfold wf_bytes, is_byte. apply _. Defined.

(** [x.to_bytes(n, "little")] and [int.from_bytes(l, "little")] *)
Fixpoint le_bytes (n : nat) (x : Z) : bytes :=
  match n with O => [] | S n' => x mod 256 :: le_bytes n' (x / 256) end.
Fixpoint le_int (l : bytes) : Z :=
  match l with [] => 0 | b :: l' => b + 256 * le_int l' end.

(** Big-endian *)
Definition be_bytes (n : nat) (x : Z) : bytes := reverse (le_bytes n x).
Definition be_int (l : bytes) : Z := le_int (reverse l).

Definition fits (n : nat) (x : Z) : bool := (0 <=? x) && (x <? 256 ^ Z.of_nat n).

(** [int.to_bytes] raises [OverflowError], [struct.pack] raises [struct.error], [bytes([x])]
    raises [ValueError] on a value that does not fit. *)
Definition to_bytes (n : nat) (x : Z) : result bytes :=
  if fits n x then Ok (le_bytes n x) else Raise OverflowError.
Definition pack_u (n : nat) (x : Z) : result bytes :=
  if fits n x then Ok (le_bytes n x) else Raise StructError.
Definition byte (x : Z) : result bytes :=
  if fits 1 x then Ok [x] else Raise (ValueError "bytes must be in range(0, 256)").

(** [struct.pack("<...", ...)] of unsigned fields, each a width and a value *)
Fixpoint pack (fields : list (nat * Z)) : result bytes :=
  match fields with
  | [] => Ok []
  | (n, x) :: rest => h ← pack_u n x; t ← pack rest; Ok (h ++ t)
  end.

(** [b"".join(f(x) for x in l)] *)
Fixpoint join {A} (f : A → result bytes) (l : list A) : result bytes :=
  match l with
  | [] => Ok []
  | x :: rest => h ← f x; t ← join f rest; Ok (h ++ t)
  end.

(** [buf[i:j]] for non-negative bounds *)
Definition slice (buf : bytes) (i j : nat) : bytes := take (j - i) (drop i buf).

Lemma fits_spec n x : fits n x = true ↔ 0 ≤ x < 256 ^ Z.of_nat n.
Proof. unfold fits. rewrite andb_true_iff. lia. Qed.

Lemma le_bytes_length n x : length (le_bytes n x) = n.
Proof. revert x. induction n; intros; cbn; auto. Qed.

Lemma le_bytes_wf n x : wf_bytes (le_bytes n x).
Proof.
  revert x. induction n as [|n IH]; intros x; cbn; constructor; [|apply IH].
  unfold is_byte. apply Z.mod_pos_bound. lia.
Qed.

Lemma le_int_bound l : wf_bytes l → 0 ≤ le_int l < 256 ^ Z.of_nat (length l).
Proof.
  induction 1 as [|b l Hb Hl IH]; cbn [le_int length]; [done|].
  rewrite Nat2Z.inj_succ, Z.pow_succ_r by lia. unfold is_byte in Hb. lia.
Qed.

Lemma le_int_le_bytes n x : 0 ≤ x < 256 ^ Z.of_nat n → le_int (le_bytes n x) = x.
Proof.
  revert x. induction n as [|n IH]; intros x; cbn [le_int le_bytes]; [cbn; lia|].
  rewrite Nat2Z.inj_succ, Z.pow_succ_r by lia. intros Hx.
  rewrite IH; [pose proof (Z.div_mod x 256); lia|].
  split; [apply Z.div_pos; lia|]. apply Z.div_lt_upper_bound; lia.
Qed.

Lemma le_bytes_le_int l : wf_bytes l → le_bytes (length l) (le_int l) = l.
Proof.
  induction 1 as [|b l Hb Hl IH]; cbn [le_int le_bytes length]; [done|].
  unfold is_byte in Hb. rewrite (Z.mul_comm 256), Z.mod_add, Z.mod_small by lia.
  rewrite Z.div_add, Z.div_small, Z.add_0_l by lia. by rewrite IH.
Qed.

Lemma be_int_be_bytes n x : 0 ≤ x < 256 ^ Z.of_nat n → be_int (be_bytes n x) = x.
Proof. intros. unfold be_int, be_bytes. rewrite reverse_involutive. by apply le_int_le_bytes. Qed.

Lemma be_bytes_length n x : length (be_bytes n x) = n.
Proof. unfold be_bytes. by rewrite length_reverse, le_bytes_length. Qed.

Lemma to_bytes_ok n x b :
  to_bytes n x = Ok b ↔ (0 ≤ x < 256 ^ Z.of_nat n) ∧ b = le_bytes n x.
Proof. unfold to_bytes. rewrite <- fits_spec. destruct (fits n x); naive_solver. Qed.

Lemma pack_u_ok n x b :
  pack_u n x = Ok b ↔ (0 ≤ x < 256 ^ Z.of_nat n) ∧ b = le_bytes n x.
Proof. unfold pack_u. rewrite <- fits_spec. destruct (fits n x); naive_solver. Qed.

Lemma byte_ok x b : byte x = Ok b ↔ is_byte x ∧ b = [x].
Proof.
  unfold byte. destruct (fits 1 x) eqn:E.
  - apply fits_spec in E. change (256 ^ Z.of_nat 1) with 256 in E. unfold is_byte. naive_solver.
  - split; [done|]. intros [H _]. assert (fits 1 x = true) by (apply fits_spec; exact H). congruence.
Qed.

(** What a successful [pack] wrote. *)
Lemma pack_ok fields b :
  pack fields = Ok b ↔
  Forall (λ f, 0 ≤ f.2 < 256 ^ Z.of_nat f.1) fields ∧ b = concat (map (λ f, le_bytes f.1 f.2) fields).
Proof.
  revert b. induction fields as [|[n x] fields IH]; intros b; cbn [pack].
  { cbn. split; [intros [= <-]; by split|by intros [_ ->]]. }
  rewrite bind_ok. setoid_rewrite bind_ok. setoid_rewrite pack_u_ok. setoid_rewrite IH.
  rewrite Forall_cons. cbn. naive_solver.
Qed.

Lemma join_ok {A} (f : A → result bytes) l b :
  join f l = Ok b ↔ ∃ parts, Forall2 (λ x p, f x = Ok p) l parts ∧ b = concat parts.
Proof.
  revert b. induction l as [|x l IH]; intros b; cbn [join].
  { split; [intros [= <-]; exists []; by split; [constructor|]|].
    intros (? & ?%Forall2_nil_inv_l & ->). by subst. }
  rewrite bind_ok. setoid_rewrite bind_ok. setoid_rewrite IH. split.
  - intros (h & Hh & t & (parts & HF & ->) & [= <-]). exists (h :: parts).
    split; [by constructor|done].
  - intros (parts & (h & ps & ? & ? & ->)%Forall2_cons_inv_l & ->).
    exists h. split; [done|]. exists (concat ps). split; [eauto|done].
Qed.

(** ** Readers *)

(** A reader takes a buffer and a position and returns a value and the next position. *)
Definition reader (A : Type) : Type := bytes → nat → result (A * nat).

#[global] Instance reader_ret : MRet reader := λ A x _ i, Ok (x, i).
#[global] Instance reader_bind : MBind reader :=
  λ A B f r buf i, '(x, j) ← r buf i; f x buf j.

(** [_Reader.take] *)
Definition take_r (n : Z) : reader bytes := λ buf i,
  let n := Z.to_nat n in
  if (length buf <? i + n)%nat then Raise (ValueError "truncated") else Ok (slice buf i (i + n), (i + n)%nat).

(** [_Reader.u] *)
Definition u_r (n : Z) : reader Z := b ← take_r n; mret (le_int b).

(** [tuple(item(self) for _ in range(n))] *)
Fixpoint repeat_r {A} (n : nat) (item : reader A) : reader (list A) :=
  match n with
  | O => mret []
  | S n' => x ← item; rest ← repeat_r n' item; mret (x :: rest)
  end.

(** A reader returns [x] wherever [enc] stands in the buffer, and stops behind it. *)
Definition reads {A} (r : reader A) (enc : bytes) (x : A) : Prop :=
  ∀ pre post, r (pre ++ enc ++ post) (length pre) = Ok (x, length (pre ++ enc)).

Lemma reads_ret {A} (x : A) : reads (mret x) [] x.
Proof. intros pre post. by rewrite app_nil_r. Qed.

Lemma reads_bind {A B} (r : reader A) (f : A → reader B) e1 e2 x y :
  reads r e1 x → reads (f x) e2 y → reads (r ≫= f) (e1 ++ e2) y.
Proof.
  intros H1 H2 pre post. unfold mbind, reader_bind. rewrite <- (assoc_L (++) e1), H1. cbn.
  rewrite !(assoc_L (++)), <- (assoc_L (++) (pre ++ e1)). by rewrite H2.
Qed.

Lemma reads_last {A B} (r : reader A) (g : A → B) e x :
  reads r e x → reads (y ← r; mret (g y)) e (g x).
Proof. intros H. rewrite <- (app_nil_r e). eapply reads_bind; [exact H|apply reads_ret]. Qed.

Lemma reads_take n enc : Z.to_nat n = length enc → reads (take_r n) enc enc.
Proof.
  intros Hn pre post. unfold take_r. rewrite Hn, !length_app.
  destruct (Nat.ltb_spec (length pre + (length enc + length post)) (length pre + length enc)); [lia|].
  unfold slice. rewrite drop_app_length, Nat.add_comm, Nat.add_sub.
  by rewrite take_app_length.
Qed.

Lemma reads_u n x : 0 ≤ x < 256 ^ Z.of_nat n → reads (u_r (Z.of_nat n)) (le_bytes n x) x.
Proof.
  intros Hx. unfold u_r. rewrite <- (le_int_le_bytes n x Hx) at 2. apply (reads_last _ le_int).
  apply reads_take. by rewrite Nat2Z.id, le_bytes_length.
Qed.

Lemma reads_repeat {A} (item : reader A) (l : list A) parts :
  Forall2 (λ x p, reads item p x) l parts → reads (repeat_r (length l) item) (concat parts) l.
Proof.
  induction 1 as [|x p l parts Hx Hl IH]; cbn; [apply reads_ret|].
  eapply reads_bind; [exact Hx|]. apply (reads_last _ (cons x)). exact IH.
Qed.

(** A reader that must stop at the end of the buffer. *)
Definition reads_end {A} (r : reader A) (enc : bytes) (x : A) : Prop :=
  ∀ pre, r (pre ++ enc) (length pre) = Ok (x, length (pre ++ enc)).

Lemma reads_end_bind {A B} (r : reader A) (f : A → reader B) e1 e2 x y :
  reads r e1 x → reads_end (f x) e2 y → reads_end (r ≫= f) (e1 ++ e2) y.
Proof.
  intros H1 H2 pre. unfold mbind, reader_bind. rewrite H1. cbn.
  rewrite !(assoc_L (++)). by rewrite H2.
Qed.

(** Whatever a reader accepts satisfies [P] together with the bytes it consumed. *)
Definition consumes {A} (r : reader A) (P : A → bytes → Prop) : Prop :=
  ∀ buf i x j, wf_bytes buf → r buf i = Ok (x, j) → (i ≤ length buf)%nat →
    (i ≤ j ≤ length buf)%nat ∧ P x (slice buf i j).

Lemma slice_nil buf i : slice buf i i = [].
Proof. unfold slice. by rewrite Nat.sub_diag. Qed.

Lemma slice_app buf i j k :
  (i ≤ j)%nat → (j ≤ k)%nat → slice buf i k = slice buf i j ++ slice buf j k.
Proof.
  intros ? ?. unfold slice. replace (k - i)%nat with ((j - i) + (k - j))%nat by lia.
  rewrite <- take_take_drop, drop_drop. do 3 f_equal. lia.
Qed.

Lemma slice_length buf i j : (i ≤ j ≤ length buf)%nat → length (slice buf i j) = (j - i)%nat.
Proof. intros ?. unfold slice. rewrite length_take, length_drop. lia. Qed.

Lemma slice_wf buf i j : wf_bytes buf → wf_bytes (slice buf i j).
Proof. intros ?. unfold slice. by apply Forall_take, Forall_drop. Qed.

Lemma consumes_weaken {A} (r : reader A) (P Q : A → bytes → Prop) :
  consumes r P → (∀ x b, P x b → Q x b) → consumes r Q.
Proof. intros H HPQ buf i x j Hw Hr Hi. destruct (H buf i x j Hw Hr Hi). auto. Qed.

Lemma consumes_ret {A} (x : A) : consumes (mret x) (λ y b, y = x ∧ b = []).
Proof. intros buf i y j _ [= <- <-] Hi. split; [lia|]. by rewrite slice_nil. Qed.

Lemma consumes_bind {A B} (r : reader A) (f : A → reader B) P Q :
  consumes r P → (∀ x, consumes (f x) (Q x)) →
  consumes (r ≫= f) (λ y b, ∃ x b1 b2, b = b1 ++ b2 ∧ P x b1 ∧ Q x y b2).
Proof.
  intros H1 H2 buf i y k Hw Hr Hi. unfold mbind, reader_bind in Hr.
  apply bind_ok in Hr as ([x j] & Hr & Hf). destruct (H1 _ _ _ _ Hw Hr Hi) as [? ?].
  destruct (H2 x _ _ _ _ Hw Hf) as [? ?]; [lia|]. split; [lia|].
  exists x, (slice buf i j), (slice buf j k). split_and!; [apply slice_app; lia|done..].
Qed.

Lemma consumes_take n : consumes (take_r n) (λ x b, x = b ∧ wf_bytes b ∧ length b = Z.to_nat n).
Proof.
  intros buf i x j Hw Hr Hi. unfold take_r in Hr.
  destruct (Nat.ltb_spec (length buf) (i + Z.to_nat n)); [done|]. injection Hr as <- <-.
  split; [lia|]. split_and!; [done|by apply slice_wf|]. rewrite slice_length; lia.
Qed.

Lemma consumes_u (n : nat) :
  consumes (u_r (Z.of_nat n)) (λ x b, (0 ≤ x < 256 ^ Z.of_nat n) ∧ b = le_bytes n x).
Proof.
  eapply consumes_weaken;
    [eapply consumes_bind; [apply consumes_take|intros; apply consumes_ret]|].
  intros x b (a & b1 & b2 & -> & (-> & Hw & Hl) & -> & ->). rewrite Nat2Z.id in Hl.
  rewrite app_nil_r, <- Hl. split; [by apply le_int_bound|]. by rewrite le_bytes_le_int.
Qed.

Lemma consumes_repeat {A} (item : reader A) P n :
  consumes item P →
  consumes (repeat_r n item)
    (λ l b, length l = n ∧ ∃ parts, Forall2 P l parts ∧ b = concat parts).
Proof.
  intros H. induction n as [|n IH]; cbn [repeat_r].
  - eapply consumes_weaken; [apply consumes_ret|]. intros l b [-> ->]. split; [done|].
    exists []. by split; [constructor|].
  - eapply consumes_weaken.
    { eapply consumes_bind; [exact H|]. intros x. eapply consumes_bind; [exact IH|].
      intros l. apply consumes_ret. }
    intros l b (x & b1 & b2 & -> & Hx & l' & b3 & b4 & -> & (Hl & parts & HF & ->) & -> & ->).
    cbn. rewrite Hl. split; [done|]. exists (b1 :: parts).
    split; [by constructor|]. cbn. by rewrite app_nil_r.
Qed.

(** ** Fields and pieces *)

(** [struct.unpack_from] of unsigned fields *)
Fixpoint unpack (widths : list nat) (l : bytes) : list Z :=
  match widths with
  | [] => []
  | w :: ws => le_int (take w l) :: unpack ws (drop w l)
  end.

(** [k] consecutive pieces of [n] octets *)
Fixpoint chunks (n k : nat) (l : bytes) : list bytes :=
  match k with O => [] | S k' => take n l :: chunks n k' (drop n l) end.

Lemma unpack_pack fields b rest :
  pack fields = Ok b → unpack (map fst fields) (b ++ rest) = map snd fields.
Proof.
  intros [HF ->]%pack_ok. induction HF as [|[n x] fields Hx HF IH]; [done|]. cbn in *.
  rewrite <- (assoc_L (++)), take_app_length', drop_app_length' by (by rewrite le_bytes_length).
  rewrite le_int_le_bytes by done. by rewrite IH.
Qed.

Lemma pack_length fields b : pack fields = Ok b → length b = sum_list (map fst fields).
Proof.
  intros [_ ->]%pack_ok. induction fields as [|[n x] fields IH]; [done|]. cbn.
  rewrite length_app, le_bytes_length. by rewrite IH.
Qed.

Lemma chunks_concat n parts rest :
  Forall (λ p, length p = n) parts → chunks n (length parts) (concat parts ++ rest) = parts.
Proof.
  induction 1 as [|p parts Hp HF IH]; [done|]. cbn.
  rewrite <- (assoc_L (++)), take_app_length', drop_app_length' by done. by rewrite IH.
Qed.

Lemma concat_length n parts :
  Forall (λ p : bytes, length p = n) parts → length (concat parts) = (n * length parts)%nat.
Proof. induction 1 as [|p l Hp _ IH]; cbn; [lia|]. rewrite length_app. lia. Qed.

Lemma chunks_all n parts :
  (0 < n)%nat → Forall (λ p : bytes, length p = n) parts →
  chunks n (length (concat parts) / n) (concat parts) = parts.
Proof.
  intros Hn HF. rewrite (concat_length n) by done. rewrite Nat.mul_comm, Nat.div_mul by lia.
  pose proof (chunks_concat n parts [] HF) as H. by rewrite app_nil_r in H.
Qed.

Lemma slice_at pre x post : slice (pre ++ x ++ post) (length pre) (length pre + length x) = x.
Proof.
  unfold slice. rewrite drop_app_length, Nat.add_comm, Nat.add_sub. apply take_app_length.
Qed.

Lemma slice_mid l pre x post i j :
  l = pre ++ x ++ post → i = length pre → j = (length pre + length x)%nat → slice l i j = x.
Proof. intros -> -> ->. apply slice_at. Qed.
