(* ===== verification/WorkPackage.v ===== *)
(** * Work-packages and their codec

    src/offchain/workpackage.py: the natural-number code [enc_nat]/[dec_nat] of GP 0.8.0
    appendix C, the [_Reader], and the work-package types with [encode] and [read].

    Results: every package decodes from its encoding (with its prerequisite set in order), and
    whatever [decode] accepts is the encoding of what it returns, so the encoding, and the hash
    taken over it, determines the package.  [blake2b256] is a parameter. *)
From S2P Require Import Prelude Bytes.

(** ** Naturals *)

(** [for l in range(8): if x < 1 << (7 * (l + 1))] *)
Definition nat_size (x : Z) : option Z :=
  snd <$> list_find (λ l, x < Z.shiftl 1 (7 * (l + 1))) [0; 1; 2; 3; 4; 5; 6; 7].

Definition enc_nat (x : Z) : result bytes :=
  if negb ((0 <=? x) && (x <? Z.shiftl 1 64)) then Raise (ValueError "natural out of range")
  else if x =? 0 then Ok [0]
  else match nat_size x with
       | Some l =>
           h ← byte (256 - Z.shiftl 1 (8 - l) + Z.shiftr x (8 * l));
           t ← to_bytes (Z.to_nat l) (Z.land x (Z.shiftl 1 (8 * l) - 1));
           Ok (h ++ t)
       | None => t ← to_bytes 8 x; Ok (255 :: t)
       end.

(** [next(n for n in range(8) if not b & (0x80 >> n))] *)
Definition lead (b : Z) : option Z :=
  snd <$> list_find (λ n, Z.land b (Z.shiftr 128 n) = 0) [0; 1; 2; 3; 4; 5; 6; 7].

Definition dec_nat : reader Z := λ buf i,
  match buf !! i with
  | None => Raise (ValueError "truncated natural")
  | Some b =>
      match (if b =? 255 then Some 8 else lead b) with
      | None => Raise (KeyError "StopIteration")
      | Some l =>
          let j := (i + 1 + Z.to_nat l)%nat in
          if (length buf <? j)%nat then Raise (ValueError "truncated natural")
          else
            let rest := le_int (slice buf (i + 1) j) in
            let x := if l =? 8 then rest
                     else rest + Z.shiftl (Z.land b (Z.shiftl 1 (7 - l) - 1)) (8 * l) in
            e ← enc_nat x;
            if bool_decide (e = slice buf i j) then Ok (x, j)
            else Raise (ValueError "non-canonical natural")
      end
  end.

Definition var (blob : bytes) : result bytes :=
  n ← enc_nat (Z.of_nat (length blob)); Ok (n ++ blob).

(** [_hash]: 32 bytes or [ValueError] *)
Definition hash32 (h : bytes) (what : string) : result bytes :=
  if (length h =? 32)%nat then Ok h else Raise (ValueError what).

(** [_Reader.blob], [_Reader.seq] *)
Definition blob_r : reader bytes := n ← dec_nat; take_r n.
Definition seq_r {A} (item : reader A) : reader (list A) := n ← dec_nat; repeat_r (Z.to_nat n) item.
(** [_Reader.end] *)
Definition end_r : reader unit := λ buf i,
  if (i =? length buf)%nat then Ok (tt, i) else Raise (ValueError "trailing bytes").

(** ** The types *)

(** Python orders byte strings lexicographically. *)
Fixpoint bytes_leb (a b : bytes) : bool :=
  match a, b with
  | [], _ => true
  | _ :: _, [] => false
  | x :: a', y :: b' => (x <? y) || ((x =? y) && bytes_leb a' b')
  end.

Record RefineContext := {
  anchor : bytes;
  anchor_slot : Z;
  state_root : bytes;
  beefy_root : bytes;
  lookup_anchor : bytes;
  lookup_anchor_slot : Z;
  lookup_anchor_state_root : bytes;
  prerequisites : list bytes
}.

Definition check_all (what : string) (l : list bytes) : result (list bytes) :=
  foldr (λ h acc, h' ← hash32 h what; t ← acc; Ok (h' :: t)) (Ok []) l.

Definition encode_context (c : RefineContext) : result bytes :=
  hs ← check_all "prerequisite" (prerequisites c);
  let prereq := sort_by bytes_leb hs in
  a ← hash32 (anchor c) "anchor"; t ← to_bytes 4 (anchor_slot c);
  s ← hash32 (state_root c) "state_root"; b ← hash32 (beefy_root c) "beefy_root";
  l ← hash32 (lookup_anchor c) "lookup_anchor"; lt ← to_bytes 4 (lookup_anchor_slot c);
  ls ← hash32 (lookup_anchor_state_root c) "lookup_anchor_state_root";
  n ← enc_nat (Z.of_nat (length prereq));
  Ok (a ++ t ++ s ++ b ++ l ++ lt ++ ls ++ n ++ concat prereq).

Definition read_context : reader RefineContext :=
  a ← take_r 32; t ← u_r 4; s ← take_r 32; b ← take_r 32; l ← take_r 32; lt ← u_r 4;
  ls ← take_r 32; ps ← seq_r (take_r 32);
  mret {| anchor := a; anchor_slot := t; state_root := s; beefy_root := b; lookup_anchor := l;
          lookup_anchor_slot := lt; lookup_anchor_state_root := ls; prerequisites := ps |}.

Record ImportRef := { root : bytes; index : Z; by_package : bool }.

Definition encode_import (i : ImportRef) : result bytes :=
  _ ← guard_or ((0 <=? index i) && (index i <? Z.shiftl 1 15)) (ValueError "import index out of range");
  r ← hash32 (root i) "import root";
  x ← to_bytes 2 (Z.lor (index i) (Z.shiftl (if by_package i then 1 else 0) 15));
  Ok (r ++ x).

Definition read_import : reader ImportRef :=
  r ← take_r 32; i ← u_r 2;
  mret {| root := r; index := Z.land i 0x7FFF; by_package := negb (Z.shiftr i 15 =? 0) |}.

Record WorkItem := {
  service : Z;
  code_hash : bytes;
  payload : bytes;
  refine_gas : Z;
  accumulate_gas : Z;
  export_count : Z;
  imports : list ImportRef;
  extrinsics : list (bytes * Z)
}.

Definition encode_extrinsic (x : bytes * Z) : result bytes :=
  h ← hash32 x.1 "extrinsic hash"; n ← to_bytes 4 x.2; Ok (h ++ n).

Definition encode_item (w : WorkItem) : result bytes :=
  s ← to_bytes 4 (service w); c ← hash32 (code_hash w) "code_hash";
  g ← to_bytes 8 (refine_gas w); a ← to_bytes 8 (accumulate_gas w); e ← to_bytes 2 (export_count w);
  y ← var (payload w);
  ni ← enc_nat (Z.of_nat (length (imports w))); im ← join encode_import (imports w);
  nx ← enc_nat (Z.of_nat (length (extrinsics w))); xs ← join encode_extrinsic (extrinsics w);
  Ok (s ++ c ++ g ++ a ++ e ++ y ++ (ni ++ im) ++ (nx ++ xs)).

Definition read_extrinsic : reader (bytes * Z) := h ← take_r 32; n ← u_r 4; mret (h, n).

Definition read_item : reader WorkItem :=
  s ← u_r 4; c ← take_r 32; g ← u_r 8; a ← u_r 8; e ← u_r 2; y ← blob_r;
  im ← seq_r read_import; xs ← seq_r read_extrinsic;
  mret {| service := s; code_hash := c; payload := y; refine_gas := g; accumulate_gas := a;
          export_count := e; imports := im; extrinsics := xs |}.

Record WorkPackage := {
  auth_code_host : Z;
  auth_code_hash : bytes;
  context : RefineContext;
  items : list WorkItem;
  authorization : bytes;
  authorizer_config : bytes
}.

Definition encode_package (p : WorkPackage) : result bytes :=
  _ ← guard_or (negb (length (items p) =? 0)%nat) (ValueError "a work-package carries at least one work-item");
  h ← to_bytes 4 (auth_code_host p); u ← hash32 (auth_code_hash p) "auth_code_hash";
  c ← encode_context (context p); j ← var (authorization p); f ← var (authorizer_config p);
  n ← enc_nat (Z.of_nat (length (items p))); ws ← join encode_item (items p);
  Ok (h ++ u ++ c ++ j ++ f ++ (n ++ ws)).

Definition read_package : reader WorkPackage :=
  h ← u_r 4; u ← take_r 32; c ← read_context; j ← blob_r; f ← blob_r; ws ← seq_r read_item;
  _ ← end_r;
  mret {| auth_code_host := h; auth_code_hash := u; context := c; items := ws;
          authorization := j; authorizer_config := f |}.

Definition decode_package (data : bytes) : result WorkPackage := fst <$> read_package data 0%nat.

Definition build_package (host : Z) (chash config token : bytes) (c : RefineContext)
    (ws : list WorkItem) : WorkPackage :=
  {| auth_code_host := host; auth_code_hash := chash; context := c; items := ws;
     authorization := token; authorizer_config := config |}.

(** ** The natural code *)
Lemma shiftl_1 k : 0 ≤ k → Z.shiftl 1 k = 2 ^ k.
Proof. intros. by rewrite Z.shiftl_1_l. Qed.

Lemma land_low x k : 0 ≤ k → Z.land x (Z.shiftl 1 k - 1) = x mod 2 ^ k.
Proof.
  intros. rewrite shiftl_1 by done. change (2 ^ k - 1) with (Z.pred (2 ^ k)).
  rewrite <- Z.ones_equiv. by apply Z.land_ones.
Qed.

(** The first-byte ranges of the nine sizes. *)
Lemma lead_range b l :
  0 ≤ l < 8 → 256 - 2 ^ (8 - l) ≤ b < 256 - 2 ^ (7 - l) → lead b = Some l.
Proof.
  intros Hl Hb.
  assert (Hall : forallb (λ l, forallb (λ b,
    if (256 - 2 ^ (8 - l) <=? b) && (b <? 256 - 2 ^ (7 - l)) then bool_decide (lead b = Some l) else true)
    (Z.of_nat <$> seq 0 256)) (Z.of_nat <$> seq 0 8) = true) by (vm_compute; reflexivity).
  rewrite forallb_forall in Hall. specialize (Hall l).
  rewrite <- list_elem_of_In, list_elem_of_fmap in Hall.
  assert (Hin : ∀ x n, 0 ≤ x < Z.of_nat n → ∃ y, x = Z.of_nat y ∧ y ∈ seq 0 n).
  { intros x n Hx. exists (Z.to_nat x). rewrite elem_of_seq. lia. }
  specialize (Hall (Hin l 8%nat Hl)). rewrite forallb_forall in Hall. specialize (Hall b).
  rewrite <- list_elem_of_In, list_elem_of_fmap in Hall.
  assert (0 < 2 ^ (7 - l)) by (apply Z.pow_pos_nonneg; lia).
  assert (2 ^ (8 - l) ≤ 2 ^ 8) by (apply Z.pow_le_mono_r; lia).
  specialize (Hall (Hin b 256%nat ltac:(lia))). cbn beta in Hall.
  destruct (Z.leb_spec (256 - 2 ^ (8 - l)) b), (Z.ltb_spec b (256 - 2 ^ (7 - l))); try lia.
  by apply bool_decide_eq_true in Hall.
Qed.

(** The size of a positive natural: [l] octets behind the first one. *)
Lemma nat_size_spec x :
  0 < x < 2 ^ 64 →
  match nat_size x with
  | Some l => 0 ≤ l < 8 ∧ x < 2 ^ (7 * (l + 1)) ∧ (0 < l → 2 ^ (7 * l) ≤ x)
  | None => 2 ^ 56 ≤ x
  end.
Proof.
  intros Hx. unfold nat_size. cbn [list_find].
  rewrite !shiftl_1 by lia. cbn [Z.add Z.mul Pos.mul Pos.add Pos.add_carry Pos.succ].
  repeat (case_decide; [cbn; split_and!; [lia..|]; intros _; cbn -[Z.pow] in *; lia|]).
  cbn. lia.
Qed.

Lemma pow_256 l : 0 ≤ l → 256 ^ Z.of_nat (Z.to_nat l) = 2 ^ (8 * l).
Proof. intros. rewrite Z2Nat.id by done. change 256 with (2 ^ 8). by rewrite <- Z.pow_mul_r by lia. Qed.

(** A natural of [l] extra octets: [l] leading ones and the high bits, then the low octets. *)
Definition nat_code (l x : Z) : bytes :=
  (256 - 2 ^ (8 - l) + x / 2 ^ (8 * l)) :: le_bytes (Z.to_nat l) (x mod 2 ^ (8 * l)).

Lemma nat_code_head l x :
  0 ≤ l < 8 → 0 ≤ x < 2 ^ (7 * (l + 1)) → 0 ≤ x / 2 ^ (8 * l) < 2 ^ (7 - l).
Proof.
  intros Hl Hx. split; [apply Z.div_pos; lia|]. apply Z.div_lt_upper_bound; [lia|].
  rewrite <- Z.pow_add_r by lia. replace (8 * l + (7 - l)) with (7 * (l + 1)) by lia. lia.
Qed.

Lemma enc_nat_cases x :
  0 ≤ x < 2 ^ 64 →
  (∃ l, 0 ≤ l < 8 ∧ x < 2 ^ (7 * (l + 1)) ∧ enc_nat x = Ok (nat_code l x)) ∨
  enc_nat x = Ok (255 :: le_bytes 8 x).
Proof.
  intros Hx. unfold enc_nat. rewrite shiftl_1 by done.
  destruct (Z.leb_spec 0 x), (Z.ltb_spec x (2 ^ 64)); try lia. cbn [andb negb].
  destruct (Z.eqb_spec x 0) as [->|Hne]; [left; exists 0; split_and!; [done..|reflexivity]|].
  pose proof (nat_size_spec x ltac:(lia)) as Hs. destruct (nat_size x) as [l|].
  - destruct Hs as (Hl & Hlt & _). left. exists l. split_and!; [lia..|].
    pose proof (nat_code_head l x Hl ltac:(lia)) as Hh.
    rewrite land_low, shiftl_1, Z.shiftr_div_pow2 by lia.
    assert (2 ^ (8 - l) = 2 * 2 ^ (7 - l)) as Hp by (rewrite <- Z.pow_succ_r by lia; f_equal; lia).
    assert (2 ^ (8 - l) ≤ 2 ^ 8) by (apply Z.pow_le_mono_r; lia).
    assert (Hb : byte (256 - 2 ^ (8 - l) + x / 2 ^ (8 * l)) = Ok [256 - 2 ^ (8 - l) + x / 2 ^ (8 * l)]).
    { apply byte_ok. split; [|done]. unfold is_byte. lia. }
    assert (Ht : to_bytes (Z.to_nat l) (x mod 2 ^ (8 * l)) = Ok (le_bytes (Z.to_nat l) (x mod 2 ^ (8 * l)))).
    { apply to_bytes_ok. split; [|done]. rewrite pow_256 by lia. apply Z.mod_pos_bound. lia. }
    rewrite Hb, Ht. done.
  - right. assert (Ht : to_bytes 8 x = Ok (le_bytes 8 x)); [|by rewrite Ht].
    apply to_bytes_ok. split; [|done]. change (256 ^ Z.of_nat 8) with (2 ^ 64). lia.
Qed.

Lemma dec_nat_at pre post b tl l x :
  (if b =? 255 then Some 8 else lead b) = Some l → length tl = Z.to_nat l →
  (if l =? 8 then le_int tl else le_int tl + Z.shiftl (Z.land b (Z.shiftl 1 (7 - l) - 1)) (8 * l)) = x →
  enc_nat x = Ok (b :: tl) →
  dec_nat (pre ++ (b :: tl) ++ post) (length pre) = Ok (x, length (pre ++ b :: tl)).
Proof.
  intros Hl Hlen Hx He. unfold dec_nat.
  assert ((pre ++ (b :: tl) ++ post) !! length pre = Some b) as -> by (by apply list_lookup_middle).
  rewrite Hl.
  set (j := (length pre + 1 + Z.to_nat l)%nat).
  assert (Hj : j = length (pre ++ b :: tl)) by (unfold j; rewrite length_app; cbn; lia).
  assert (Hs : slice (pre ++ (b :: tl) ++ post) (length pre) j = b :: tl).
  { unfold slice. rewrite drop_app_length. replace (j - length pre)%nat with (length (b :: tl)).
    - apply take_app_length.
    - unfold j. cbn. lia. }
  assert (Hs' : slice (pre ++ (b :: tl) ++ post) (length pre + 1) j = tl).
  { unfold slice. rewrite <- drop_drop, drop_app_length. cbn [app drop].
    replace (j - (length pre + 1))%nat with (length tl) by (unfold j; lia). apply take_app_length. }
  destruct (Nat.ltb_spec (length (pre ++ (b :: tl) ++ post)) j) as [Hlt|_].
  { rewrite (assoc_L (++)), length_app in Hlt. lia. }
  rewrite Hs', Hx, He, Hs. cbn. rewrite bool_decide_eq_true_2 by done. by rewrite Hj.
Qed.

Lemma enc_nat_reads x e : enc_nat x = Ok e → reads dec_nat e x.
Proof.
  intros He pre post. assert (Hx : 0 ≤ x < 2 ^ 64).
  { unfold enc_nat in He. rewrite shiftl_1 in He by done.
    destruct (Z.leb_spec 0 x), (Z.ltb_spec x (2 ^ 64)); try done; lia. }
  destruct (enc_nat_cases x Hx) as [(l & Hl & Hlt & Hc)|Hc]; rewrite Hc in He; injection He as <-.
  - pose proof (nat_code_head l x Hl ltac:(lia)) as Hh. unfold nat_code in *.
    assert (2 ^ (8 - l) = 2 * 2 ^ (7 - l)) as Hp by (rewrite <- Z.pow_succ_r by lia; f_equal; lia).
    apply dec_nat_at with l; [|by rewrite le_bytes_length| |done].
    + destruct (Z.eqb_spec (256 - 2 ^ (8 - l) + x / 2 ^ (8 * l)) 255); [lia|]. apply lead_range; lia.
    + destruct (Z.eqb_spec l 8); [lia|]. rewrite land_low, Z.shiftl_mul_pow2 by lia.
      rewrite le_int_le_bytes by (rewrite pow_256 by lia; apply Z.mod_pos_bound; lia).
      assert (Hm : (256 - 2 ^ (8 - l) + x / 2 ^ (8 * l)) mod 2 ^ (7 - l) = x / 2 ^ (8 * l)).
      { assert (256 = 2 ^ (l + 1) * 2 ^ (7 - l)) as H256.
        { rewrite <- Z.pow_add_r by lia. replace (l + 1 + (7 - l)) with 8 by lia. done. }
        replace (256 - 2 ^ (8 - l) + x / 2 ^ (8 * l))
          with (x / 2 ^ (8 * l) + (2 ^ (l + 1) - 2) * 2 ^ (7 - l)) by lia.
        rewrite Z.mod_add by lia. by apply Z.mod_small. }
      rewrite Hm. pose proof (Z.div_mod x (2 ^ (8 * l))). lia.
  - apply (dec_nat_at pre post 255 (le_bytes 8 x) 8); [done|by rewrite le_bytes_length| |done].
    change (le_int (le_bytes 8 x) = x). by apply le_int_le_bytes.
Qed.

Lemma dec_nat_consumes : consumes dec_nat (λ x b, enc_nat x = Ok b).
Proof.
  intros buf i x j Hw Hr Hi. unfold dec_nat in Hr. destruct (buf !! i) as [b|]; [|done].
  destruct (if b =? 255 then Some 8 else lead b) as [l|]; [|done].
  destruct (Nat.ltb_spec (length buf) (i + 1 + Z.to_nat l)) as [|Hle]; [done|].
  apply bind_ok in Hr as (e & He & Hr). case_bool_decide as Hs; [|done].
  injection Hr as <- <-. split; [lia|]. by rewrite He, Hs.
Qed.

Lemma enc_nat_ok n : Z.of_nat n < 2 ^ 64 → ∃ e, enc_nat (Z.of_nat n) = Ok e.
Proof.
  intros Hn. destruct (enc_nat_cases (Z.of_nat n)) as [(l & _ & _ & E)|E]; [lia|eauto..].
Qed.

(** ** Blobs and sequences *)
Lemma hash32_ok h what b : hash32 h what = Ok b ↔ length h = 32%nat ∧ b = h.
Proof. unfold hash32. destruct (Nat.eqb_spec (length h) 32); naive_solver. Qed.

Lemma var_reads y e : var y = Ok e → reads blob_r e y.
Proof.
  unfold var. intros H. inv_bind. subst. eapply reads_bind; [by apply enc_nat_reads|].
  apply reads_take. by rewrite Nat2Z.id.
Qed.

Lemma seq_reads {A} (item : reader A) l n parts :
  enc_nat (Z.of_nat (length l)) = Ok n → Forall2 (λ x p, reads item p x) l parts →
  reads (seq_r item) (n ++ concat parts) l.
Proof.
  intros Hn HF. eapply reads_bind; [by apply enc_nat_reads|]. rewrite Nat2Z.id. by apply reads_repeat.
Qed.

Lemma join_seq_reads {A} (enc : A → result bytes) (item : reader A) l n b :
  (∀ x p, enc x = Ok p → reads item p x) →
  enc_nat (Z.of_nat (length l)) = Ok n → join enc l = Ok b → reads (seq_r item) (n ++ b) l.
Proof.
  intros Hitem Hn (parts & HF & ->)%join_ok. apply seq_reads; [done|].
  eapply Forall2_impl; [exact HF|]. auto.
Qed.

Lemma blob_consumes : consumes blob_r (λ y b, var y = Ok b).
Proof.
  eapply consumes_weaken; [eapply consumes_bind; [apply dec_nat_consumes|intros; apply consumes_take]|].
  cbn beta. intros y b (n & b1 & b2 & -> & Hn & -> & _ & Hl). unfold var. rewrite Hl.
  assert (Hpos : 0 ≤ n).
  { unfold enc_nat in Hn. destruct (Z.leb_spec 0 n); [done|]. cbn in Hn. done. }
  rewrite Z2Nat.id, Hn by done. done.
Qed.

Lemma seq_consumes {A} (item : reader A) P :
  consumes item P →
  consumes (seq_r item) (λ l b, ∃ n parts, enc_nat (Z.of_nat (length l)) = Ok n ∧
                                  Forall2 P l parts ∧ b = n ++ concat parts).
Proof.
  intros H. eapply consumes_weaken;
    [eapply consumes_bind; [apply dec_nat_consumes|intros; by apply consumes_repeat]|].
  cbn beta. intros l b (n & b1 & b2 & -> & Hn & Hl & parts & HF & ->). exists b1, parts.
  assert (Hpos : 0 ≤ n).
  { unfold enc_nat in Hn. destruct (Z.leb_spec 0 n); [done|]. cbn in Hn. done. }
  rewrite Hl, Z2Nat.id by done. done.
Qed.

(** The leaves of the readers. *)
Ltac reads_leaf :=
  first
  [ apply reads_take; lia
  | apply (reads_u 2); lia | apply (reads_u 4); lia | apply (reads_u 8); lia
  | by apply var_reads ].
Ltac reads_steps := repeat (eapply reads_bind; [reads_leaf|]).

Ltac consumes_leaf :=
  first
  [ apply consumes_take | apply (consumes_u 2) | apply (consumes_u 4) | apply (consumes_u 8)
  | apply blob_consumes ].

(** Facts of a successful encoding, field by field. *)
Ltac enc_facts :=
  inv_bind;
  repeat match goal with
  | H : to_bytes _ _ = Ok _ |- _ => apply to_bytes_ok in H as [? ->]
  | H : hash32 _ _ = Ok _ |- _ => apply hash32_ok in H as [? ->]
  end.

Lemma to_bytes_fits n x : 0 ≤ x < 256 ^ Z.of_nat n → to_bytes n x = Ok (le_bytes n x).
Proof. intros. by apply to_bytes_ok. Qed.
Lemma hash32_fits h what : length h = 32%nat → hash32 h what = Ok h.
Proof. intros. by apply hash32_ok. Qed.

(** ** The types, field by field *)
Lemma lor_bit15 a b : 0 ≤ a < 2 ^ 15 → 0 ≤ b → Z.lor a (Z.shiftl b 15) = a + b * 2 ^ 15.
Proof.
  intros Ha Hb. rewrite <- Z.shiftl_mul_pow2 by lia. symmetry.
  rewrite <- Z.add_lor_land.
  assert (Z.land a (Z.shiftl b 15) = 0) as ->; [|lia].
  apply Z.bits_inj'. intros n Hn. rewrite Z.land_spec, Z.bits_0.
  destruct (Z.lt_ge_cases n 15).
  - by rewrite Z.shiftl_spec_low, andb_false_r by lia.
  - assert (Z.testbit a n = false) as ->; [|done].
    destruct (Z.eq_dec a 0) as [->|]; [apply Z.bits_0|]. apply Z.bits_above_log2; [lia|].
    assert (Z.log2 a < 15) by (apply Z.log2_lt_pow2; lia). lia.
Qed.

Lemma import_reads i e : encode_import i = Ok e → reads read_import e i.
Proof.
  unfold encode_import. intros H. enc_facts. subst. zbool. rewrite shiftl_1 in * by done.
  destruct i as [r ix bp]. cbn [root index by_package] in *. unfold read_import. eapply reads_bind; [reads_leaf|].
  rewrite lor_bit15 in * by (destruct bp; lia).
  set (g := λ v, {| root := r; index := Z.land v 0x7FFF; by_package := negb (Z.shiftr v 15 =? 0) |}).
  assert (Hlast : {| root := r; index := ix; by_package := bp |} = g (ix + (if bp then 1 else 0) * 2 ^ 15)).
  { unfold g. change 0x7FFF with (Z.ones 15). rewrite Z.land_ones, Z.shiftr_div_pow2 by lia.
    rewrite Z.mod_add, Z.div_add, Z.mod_small, Z.div_small by lia. by destruct bp. }
  rewrite Hlast. apply (reads_last (u_r 2) g). by apply (reads_u 2).
Qed.

Lemma import_consumes : consumes read_import (λ i b, encode_import i = Ok b).
Proof.
  eapply consumes_weaken; [repeat (eapply consumes_bind; [consumes_leaf|intros]); apply consumes_ret|].
  cbn beta. intros i b (r & b1 & b2 & -> & (-> & Hw & Hl) & v & b3 & b4 & -> & (Hv & ->) & -> & ->).
  change (256 ^ Z.of_nat 2) with (2 ^ 16) in Hv. unfold encode_import. cbn [root index by_package].
  change 0x7FFF with (Z.ones 15). rewrite Z.land_ones, Z.shiftr_div_pow2, shiftl_1 by lia.
  pose proof (Z.mod_pos_bound v (2 ^ 15) ltac:(lia)) as Hm.
  destruct (Z.leb_spec 0 (v mod 2 ^ 15)), (Z.ltb_spec (v mod 2 ^ 15) (2 ^ 15)); try lia.
  cbn [andb guard_or mbind result_bind]. rewrite (hash32_fits b1) by (by rewrite Hl).
  cbn [mbind result_bind].
  assert (Hq : 0 ≤ v / 2 ^ 15 < 2) by (split; [apply Z.div_pos|apply Z.div_lt_upper_bound]; lia).
  assert (Hsum : Z.lor (v mod 2 ^ 15) (Z.shiftl (if negb (v / 2 ^ 15 =? 0) then 1 else 0) 15) = v).
  { rewrite lor_bit15 by (destruct (v / 2 ^ 15 =? 0); cbn; lia).
    pose proof (Z.div_mod v (2 ^ 15) ltac:(lia)) as Hd.
    destruct (Z.eqb_spec (v / 2 ^ 15) 0); cbn [negb]; lia. }
  rewrite Hsum, to_bytes_fits by exact Hv. cbn [mbind result_bind]. by rewrite app_nil_r.
Qed.

Lemma extrinsic_reads x e : encode_extrinsic x = Ok e → reads read_extrinsic e x.
Proof.
  unfold encode_extrinsic. intros H. enc_facts. subst. destruct x as [h n]. cbn [fst snd] in *.
  eapply reads_bind; [reads_leaf|]. apply (reads_last _ (pair h)). reads_leaf.
Qed.

Lemma extrinsic_consumes : consumes read_extrinsic (λ x b, encode_extrinsic x = Ok b).
Proof.
  eapply consumes_weaken; [repeat (eapply consumes_bind; [consumes_leaf|intros]); apply consumes_ret|].
  cbn beta. intros x b (h & b1 & b2 & -> & (-> & Hw & Hl) & v & b3 & b4 & -> & (Hv & ->) & -> & ->).
  unfold encode_extrinsic. cbn [fst snd].
  rewrite (hash32_fits b1) by (by rewrite Hl). cbn [mbind result_bind]. rewrite to_bytes_fits by exact Hv. cbn [mbind result_bind].
  by rewrite app_nil_r.
Qed.

Lemma item_reads w e : encode_item w = Ok e → reads read_item e w.
Proof.
  unfold encode_item. intros H. enc_facts. subst. destruct w.
  cbn [service code_hash payload refine_gas accumulate_gas export_count imports extrinsics] in *.
  unfold read_item.
  reads_steps. eapply reads_bind; [by eapply join_seq_reads; [apply import_reads|..]|].
  eapply (reads_last (seq_r read_extrinsic)). by eapply join_seq_reads; [apply extrinsic_reads|..].
Qed.

Lemma join_of_parts {A} (f : A → result bytes) l parts :
  Forall2 (λ x p, f x = Ok p) l parts → join f l = Ok (concat parts).
Proof. intros. apply join_ok. eauto. Qed.

Lemma item_consumes : consumes read_item (λ w b, encode_item w = Ok b).
Proof.
  eapply consumes_weaken.
  { repeat (eapply consumes_bind; [consumes_leaf|intros]).
    eapply consumes_bind; [apply seq_consumes, import_consumes|intros].
    eapply consumes_bind; [apply seq_consumes, extrinsic_consumes|intros]. apply consumes_ret. }
  cbn beta.
  intros w b (s & b1 & ? & -> & (Hs & ->) & c & b2 & ? & -> & (-> & _ & Hc) & g & b3 & ? & -> & (Hg & ->)
    & a & b4 & ? & -> & (Ha & ->) & e & b5 & ? & -> & (He & ->) & y & b6 & ? & -> & Hy
    & im & b7 & ? & -> & (ni & pi & Hni & Hpi & ->) & xs & b8 & ? & -> & (nx & px & Hnx & Hpx & ->) & -> & ->).
  unfold encode_item. cbn [service code_hash payload refine_gas accumulate_gas export_count imports extrinsics].
  rewrite !to_bytes_fits, (hash32_fits b2) by (done || by rewrite Hc). cbn [mbind result_bind].
  rewrite Hy, Hni, Hnx, (join_of_parts _ _ _ Hpi), (join_of_parts _ _ _ Hpx). cbn [mbind result_bind].
  by rewrite app_nil_r.
Qed.

Lemma bytes_leb_total a b : bytes_leb a b = true ∨ bytes_leb b a = true.
Proof.
  revert b. induction a as [|x a IH]; intros [|y b]; cbn; auto.
  rewrite !orb_true_iff, !andb_true_iff, !Z.ltb_lt, !Z.eqb_eq.
  destruct (IH b), (Z.lt_trichotomy x y) as [?|[?|?]]; auto 7.
Qed.
Lemma bytes_leb_trans a b c : bytes_leb a b = true → bytes_leb b c = true → bytes_leb a c = true.
Proof.
  revert b c. induction a as [|x a IH]; intros [|y b] [|z c]; cbn; try done.
  rewrite !orb_true_iff, !andb_true_iff, !Z.ltb_lt, !Z.eqb_eq.
  intros [?|[-> H1]] [?|[-> H2]]; [left; lia..|]. right. split; [done|by eapply IH].
Qed.
Lemma bytes_leb_anti a b : bytes_leb a b = true → bytes_leb b a = true → a = b.
Proof.
  revert b. induction a as [|x a IH]; intros [|y b]; cbn; try done.
  rewrite !orb_true_iff, !andb_true_iff, !Z.ltb_lt, !Z.eqb_eq.
  intros [?|[-> H1]] [?|[? H2]]; [lia..|]. f_equal. by apply IH.
Qed.

Definition sorted_prereqs (l : list bytes) : Prop := StronglySorted (λ a b, bytes_leb a b = true) l.

Lemma sort_sorted_bytes l : sorted_prereqs l → sort_by bytes_leb l = l.
Proof.
  intros H. apply (sorted_perm_unique bytes_leb bytes_leb_total bytes_leb_trans);
    [|exact H| |apply sort_by_perm].
  - apply sort_by_sorted; [apply bytes_leb_total|apply bytes_leb_trans].
  - intros. by apply bytes_leb_anti.
Qed.

Lemma check_all_ok what l k :
  check_all what l = Ok k ↔ Forall (λ h, length h = 32%nat) l ∧ k = l.
Proof.
  revert k. induction l as [|h l IH]; intros k; cbn; [split; [intros [= <-]|intros [_ ->]]; done|].
  rewrite bind_ok. setoid_rewrite bind_ok. setoid_rewrite hash32_ok. fold (check_all what l).
  setoid_rewrite IH. rewrite Forall_cons. naive_solver.
Qed.

(** The context with its prerequisite set in wire order. *)
Definition ordered (c : RefineContext) : RefineContext :=
  {| anchor := anchor c; anchor_slot := anchor_slot c; state_root := state_root c;
     beefy_root := beefy_root c; lookup_anchor := lookup_anchor c;
     lookup_anchor_slot := lookup_anchor_slot c;
     lookup_anchor_state_root := lookup_anchor_state_root c;
     prerequisites := sort_by bytes_leb (prerequisites c) |}.

Lemma context_reads c e : encode_context c = Ok e → reads read_context e (ordered c).
Proof.
  unfold encode_context. intros H. enc_facts.
  match goal with H : check_all _ _ = Ok _ |- _ => apply check_all_ok in H as [Hp ->] end.
  subst. destruct c as [a t s b l lt ls ps].
  cbn [prerequisites anchor anchor_slot state_root beefy_root lookup_anchor lookup_anchor_slot
       lookup_anchor_state_root ordered] in *. unfold read_context, ordered.
  reads_steps. eapply (reads_last (seq_r (take_r 32))). apply seq_reads; [done|].
  apply Forall2_same_length_lookup_2; [done|]. intros i x y Hx Hy.
  cbn [prerequisites] in Hx. simplify_eq. apply reads_take. apply list_elem_of_lookup_2 in Hx. rewrite elem_of_sort_by in Hx.
  rewrite Forall_forall in Hp. by rewrite Hp.
Qed.

Lemma context_consumes :
  consumes read_context (λ c b, sorted_prereqs (prerequisites c) → encode_context c = Ok b).
Proof.
  eapply consumes_weaken.
  { repeat (eapply consumes_bind; [consumes_leaf|intros]).
    eapply consumes_bind; [apply seq_consumes, consumes_take|intros]. apply consumes_ret. }
  cbn beta.
  intros c b (a & b1 & ? & -> & (-> & _ & H1) & t & b2 & ? & -> & (Ht & ->) & s & b3 & ? & -> & (-> & _ & H3)
    & r & b4 & ? & -> & (-> & _ & H4) & l & b5 & ? & -> & (-> & _ & H5) & lt & b6 & ? & -> & (Hlt & ->)
    & ls & b7 & ? & -> & (-> & _ & H7) & ps & b8 & ? & -> & (n & parts & Hn & HF & ->) & -> & ->) Hsort.
  unfold encode_context.
  cbn [prerequisites anchor anchor_slot state_root beefy_root lookup_anchor lookup_anchor_slot
       lookup_anchor_state_root] in *.
  assert (ps = parts ∧ Forall (λ h, length h = 32%nat) ps) as [<- Hps].
  { clear -HF. induction HF as [|x y l k (-> & _ & Hl) _ [-> IH]]; [by split|].
    split; [done|]. constructor; [by rewrite Hl|done]. }
  assert (check_all "prerequisite" ps = Ok ps) as -> by (by apply check_all_ok).
  cbn [mbind result_bind]. rewrite sort_sorted_bytes, !to_bytes_fits by done.
  rewrite (hash32_fits b1), (hash32_fits b3), (hash32_fits b4), (hash32_fits b5), (hash32_fits b7)
    by (by rewrite ?H1, ?H3, ?H4, ?H5, ?H7).
  cbn [mbind result_bind]. rewrite Hn. cbn [mbind result_bind]. by rewrite app_nil_r.
Qed.

Definition ordered_package (p : WorkPackage) : WorkPackage :=
  {| auth_code_host := auth_code_host p; auth_code_hash := auth_code_hash p;
     context := ordered (context p); items := items p; authorization := authorization p;
     authorizer_config := authorizer_config p |}.

Lemma reads_end_end {A} (x : A) : reads_end (_ ← end_r; mret x) [] x.
Proof.
  intros pre. rewrite app_nil_r. unfold mbind, reader_bind, end_r. by rewrite Nat.eqb_refl.
Qed.

Lemma package_reads p e : encode_package p = Ok e → reads_end read_package e (ordered_package p).
Proof.
  unfold encode_package. intros H. enc_facts. subst. destruct p as [h u c ws j f].
  unfold read_package, ordered_package.
  cbn [auth_code_host auth_code_hash context items authorization authorizer_config] in *.
  repeat (eapply reads_end_bind; [first [reads_leaf|by apply context_reads]|]).
  rewrite <- (app_nil_r (_ ++ _)). eapply reads_end_bind; [|apply reads_end_end].
  by eapply join_seq_reads; [apply item_reads|..].
Qed.

Lemma end_consumes : consumes end_r (λ _ b, b = []).
Proof.
  intros buf i x j _ H Hi. unfold end_r in H. destruct (Nat.eqb_spec i (length buf)); [|done].
  injection H as _ <-. split; [lia|]. apply slice_nil.
Qed.

Lemma package_consumes :
  consumes read_package (λ p b,
    items p ≠ [] → sorted_prereqs (prerequisites (context p)) → encode_package p = Ok b).
Proof.
  eapply consumes_weaken.
  { do 2 (eapply consumes_bind; [consumes_leaf|intros]).
    eapply consumes_bind; [apply context_consumes|intros].
    do 2 (eapply consumes_bind; [consumes_leaf|intros]).
    eapply consumes_bind; [apply seq_consumes, item_consumes|intros].
    eapply consumes_bind; [apply end_consumes|intros]. apply consumes_ret. }
  cbn beta.
  intros p b (h & b1 & ? & -> & (Hh & ->) & u & b2 & ? & -> & (-> & _ & Hu) & c & b3 & ? & -> & Hc
    & j & b4 & ? & -> & Hj & f & b5 & ? & -> & Hf & ws & b6 & ? & -> & (n & parts & Hn & HF & ->)
    & [] & b7 & ? & -> & -> & -> & ->) Hne Hsort.
  unfold encode_package. cbn [auth_code_host auth_code_hash context items authorization authorizer_config] in *.
  rewrite (Hc Hsort), Hj, Hf, Hn, (join_of_parts _ _ _ HF), to_bytes_fits, (hash32_fits b2)
    by (done || by rewrite Hu).
  destruct ws; [done|]. cbn [length Nat.eqb negb guard_or mbind result_bind]. by rewrite !app_nil_r.
Qed.

(** ** Properties *)

(** (C10) Whatever package can be encoded is decoded back from its bytes, with its prerequisite
    hashes in the (sorted) order of the wire. *)
Theorem work_package_roundtrip p e :
  encode_package p = Ok e → decode_package e = Ok (ordered_package p).
Proof. intros H. unfold decode_package. pose proof (package_reads p e H []) as Hr. cbn in Hr. by rewrite Hr. Qed.

(** The encoding is canonical: a byte string that [decode] accepts (with at least one item
    and its prerequisites in order) is the encoding of the package it returns. *)
Theorem work_package_canonical data p :
  wf_bytes data → decode_package data = Ok p → items p ≠ [] →
  sorted_prereqs (prerequisites (context p)) → encode_package p = Ok data.
Proof.
  intros Hw Hd Hne Hs. unfold decode_package in Hd.
  destruct (read_package data 0%nat) as [[q j]|] eqn:Hr; [|done]. injection Hd as ->.
  destruct (package_consumes data 0%nat p j Hw Hr) as [Hj Hp]; [lia|]. rewrite (Hp Hne Hs). f_equal.
  assert (j = length data) as ->; [|].
  { unfold read_package in Hr. do 6 (apply bind_ok in Hr as ([? ?] & _ & Hr)).
    apply bind_ok in Hr as ([? ?] & He & Hr). unfold end_r in He. case_match eqn:E; [|done].
    apply Nat.eqb_eq in E. injection He as _ <-. injection Hr as _ <-. exact E. }
  unfold slice. rewrite Nat.sub_0_r, drop_0. by apply take_ge.
Qed.

(** The natural code round-trips on all of [0, 2^64) and only there, and no two byte
    strings decode to one natural. *)
Theorem nat_code_bijective x :
  (0 ≤ x < 2 ^ 64 → ∃ e, enc_nat x = Ok e ∧ (length e ≤ 9)%nat ∧ dec_nat e 0%nat = Ok (x, length e)) ∧
  (∀ e, wf_bytes e → dec_nat e 0%nat = Ok (x, length e) → enc_nat x = Ok e ∧ 0 ≤ x < 2 ^ 64).
Proof.
  split.
  - intros Hx. destruct (enc_nat_cases x Hx) as [(l & Hl & _ & He)|He]; rewrite He; eexists;
      (split_and!; [done| |]).
    + unfold nat_code. cbn [length]. rewrite le_bytes_length. lia.
    + pose proof (enc_nat_reads x _ He [] []) as H. by rewrite app_nil_r in H.
    + cbn [length]. rewrite le_bytes_length. lia.
    + pose proof (enc_nat_reads x _ He [] []) as H. by rewrite app_nil_r in H.
  - intros e Hw Hd. destruct (dec_nat_consumes e 0%nat x _ Hw Hd) as [_ He]; [lia|].
    unfold slice in He. rewrite Nat.sub_0_r, drop_0, take_ge in He by done. split; [done|].
    unfold enc_nat in He. rewrite shiftl_1 in He by done.
    destruct (Z.leb_spec 0 x), (Z.ltb_spec x (2 ^ 64)); try done; lia.
Qed.

(** ** Witnesses *)
Definition package1 : WorkPackage :=
  {| auth_code_host := 0; auth_code_hash := repeat 7 32;
     context := {| anchor := repeat 1 32; anchor_slot := 100; state_root := repeat 2 32;
                   beefy_root := repeat 3 32; lookup_anchor := repeat 4 32; lookup_anchor_slot := 99;
                   lookup_anchor_state_root := repeat 5 32;
                   prerequisites := [repeat 8 32; repeat 9 32] |};
     items := [{| service := 1729; code_hash := repeat 6 32; payload := repeat 170 200;
                  refine_gas := 1000000000; accumulate_gas := 10000000; export_count := 0;
                  imports := [{| root := repeat 10 32; index := 300; by_package := true |}];
                  extrinsics := [(repeat 11 32, 70000)] |}];
     authorization := [1; 2; 3]; authorizer_config := [] |}.

Definition package1_bytes : bytes :=
  match encode_package package1 with Ok e => e | Raise _ => [] end.

Lemma work_package_roundtrip_witness :
  encode_package package1 = Ok package1_bytes ∧ decode_package package1_bytes = Ok (ordered_package package1).
Proof.
  assert (encode_package package1 = Ok package1_bytes) as H by (vm_compute; reflexivity).
  split; [exact H|]. exact (work_package_roundtrip package1 package1_bytes H).
Defined.

Lemma work_package_canonical_witness : encode_package package1 = Ok package1_bytes.
Proof.
  apply (work_package_canonical package1_bytes package1).
  - apply (bool_decide_unpack _). vm_compute. exact I.
  - vm_compute. reflexivity.
  - discriminate.
  - repeat constructor.
Defined.
