(* ===== verification/ChainSpec.v ===== *)
(** * The authorizer in a chain spec

    src/offchain/chainspec.py: reading, out of a JIP-4 genesis state, which authorizer the cores'
    pools accept.  The state is the dict [{31-byte key: value}] as an association list in the
    dict's order; [blake2b256] is a parameter (a hash with 32-byte digests). *)
From S2P Require Import Prelude Bytes WorkPackage.

Section chainspec.
Context (blake2b256 : bytes → bytes).

(** [((1 << 32) - 2).to_bytes(4, "little")] *)
Definition PREIMAGE_TAG : bytes := le_bytes 4 (Z.shiftl 1 32 - 2).

(** [C(s, h)]: the id's octets interleaved with the digest's first four, then 23 more. *)
Definition state_key (s : Z) (h : bytes) : result bytes :=
  n ← to_bytes 4 s;
  let a := blake2b256 h in
  match n, a with
  | [n0; n1; n2; n3], a0 :: a1 :: a2 :: a3 :: _ =>
      Ok ([n0; a0; n1; a1; n2; a2; n3; a3] ++ slice a 4 27)
  | _, _ => Raise IndexError
  end.

Definition lookup_key (k : bytes) (state : list (bytes * bytes)) : option bytes :=
  snd <$> (snd <$> list_find (λ kv, kv.1 = k) state).

(** [genesis_state] after unhexing: the keys must be 31 bytes. *)
Definition genesis_state (raw : list (bytes * bytes)) : result (list (bytes * bytes)) :=
  if forallb (λ kv, (length kv.1 =? 31)%nat) raw then Ok raw
  else Raise (ValueError "state keys must be 31 bytes").

(** [[raw[i + 32*k : i + 32*k + 32] for k in range(n)]] *)
Fixpoint pool_entries (n : nat) (raw : bytes) (i : nat) : list bytes :=
  match n with
  | O => []
  | S n' => slice raw i (i + 32) :: pool_entries n' raw (i + 32)
  end.

(** The [while] loop of [auth_pools]; every iteration moves [i] forward, so [length raw]
    iterations are enough. *)
Fixpoint pools_loop (fuel : nat) (raw : bytes) (i : nat) : result (list (list bytes)) :=
  if (length raw <=? i)%nat then Ok []
  else match fuel with
       | O => Raise (ValueError "out of fuel")
       | S fuel' =>
           '(n, j) ← dec_nat raw i;
           if (Z.of_nat (length raw) <? Z.of_nat j + 32 * n) then
             Raise (ValueError "truncated authorizer pool")
           else
             rest ← pools_loop fuel' raw (j + 32 * Z.to_nat n);
             Ok (pool_entries (Z.to_nat n) raw j :: rest)
       end.

Definition auth_pools (state : list (bytes * bytes)) : result (list (list bytes)) :=
  match lookup_key (1 :: repeat 0 30) state with
  | None => Raise (ValueError "no authorizer pools (state key C(1)) in genesis")
  | Some raw => pools_loop (length raw) raw 0
  end.

(** [k[1:8:2]], [k[2:8:2]] *)
Definition id_octets (k : bytes) : bytes := omap (λ i, k !! i) [1; 3; 5; 7]%nat.
Definition gap_octets (k : bytes) : bytes := omap (λ i, k !! i) [2; 4; 6]%nat.

Definition service_ids (state : list (bytes * bytes)) : list Z :=
  sort_by Z.leb
    (map (λ kv, le_int (id_octets kv.1))
       (filter (λ kv, kv.1 !! 0%nat = Some 255 ∧ Forall (λ b, b = 0) (gap_octets kv.1) ∧
                      Forall (λ b, b = 0) (drop 8 kv.1)) state)).

Record Authorizer := { host : Z; auth_code : bytes; config : bytes; token : bytes }.

(** [Authorizer.hash] *)
Definition authorizer_hash (a : Authorizer) : result bytes :=
  h ← hash32 (auth_code a) "authorizer code hash"; Ok (blake2b256 (h ++ config a)).

(** The cores whose pool holds the digest, ascending. *)
Definition cores_of (h : bytes) (pools : list (list bytes)) : list nat :=
  filter (λ c, h ∈ default [] (pools !! c)) (seq 0 (length pools)).

(** The inner loop of [authorizers], for one service and one state entry. *)
Definition preimage_authorizer (pools : list (list bytes)) (s : Z) (kv : bytes * bytes) :
    result (option (Authorizer * list nat)) :=
  let code := blake2b256 kv.2 in
  k ← state_key s (PREIMAGE_TAG ++ code);
  if negb (bool_decide (kv.1 = k)) then Ok None
  else
    let auth := {| host := s; auth_code := code; config := []; token := [] |} in
    h ← authorizer_hash auth;
    match cores_of h pools with
    | [] => Ok None
    | cores => Ok (Some (auth, cores))
    end.

Fixpoint collect {A B} (f : A → result (option B)) (l : list A) : result (list B) :=
  match l with
  | [] => Ok []
  | x :: rest => o ← f x; t ← collect f rest; Ok (match o with Some y => y :: t | None => t end)
  end.

Definition auth_leb (x y : Authorizer * list nat) : bool :=
  (host x.1 <? host y.1) ||
  ((host x.1 =? host y.1) && bytes_leb (auth_code x.1) (auth_code y.1)).

Definition authorizers (spec : list (bytes * bytes)) : result (list (Authorizer * list nat)) :=
  state ← genesis_state spec;
  pools ← auth_pools state;
  found ← collect (λ skv, preimage_authorizer pools skv.1 skv.2)
            (s ← service_ids state; kv ← state; [(s, kv)]);
  Ok (sort_by auth_leb found).

(** [max(found, key=lambda ac: (len(ac[1]), -ac[0].host))]: the first maximum. *)
Definition better (x y : Authorizer * list nat) : bool :=
  (length y.2 <? length x.2)%nat || ((length y.2 =? length x.2)%nat && (host x.1 <? host y.1)).

Definition authorizer (spec : list (bytes * bytes)) : result (Authorizer * list nat) :=
  found ← authorizers spec;
  match found with
  | [] => Raise (ValueError "no genesis preimage is an empty-configuration authorizer in any core's pool")
  | x :: rest => Ok (foldl (λ best y, if better y best then y else best) x rest)
  end.
End chainspec.

(** ** The pools *)

(** The serialization of the pools: per core, the count and the entries. *)
Definition encode_pools (pools : list (list bytes)) : result bytes :=
  join (λ pool, n ← enc_nat (Z.of_nat (length pool)); Ok (n ++ concat pool)) pools.

Lemma pool_entries_concat pre pool post :
  Forall (λ h, length h = 32%nat) pool →
  pool_entries (length pool) (pre ++ concat pool ++ post) (length pre) = pool.
Proof.
  intros HF. revert pre. induction HF as [|h pool Hh HF IH]; intros pre; [done|].
  cbn [length pool_entries concat]. f_equal.
  - unfold slice. rewrite drop_app_length. replace (length pre + 32 - length pre)%nat with (length h) by lia.
    rewrite <- (assoc_L (++)). by rewrite take_app_length.
  - specialize (IH (pre ++ h)). rewrite length_app, Hh, <- !(assoc_L (++)) in IH.
    by rewrite <- (assoc_L (++)).
Qed.

Lemma concat_length_32 (pool : list bytes) :
  Forall (λ h, length h = 32%nat) pool → length (concat pool) = (32 * length pool)%nat.
Proof. induction 1 as [|h l Hh _ IH]; cbn; [done|]. rewrite length_app. lia. Qed.

Lemma pools_loop_decodes pools : ∀ pre e fuel,
  Forall (Forall (λ h, length h = 32%nat)) pools → encode_pools pools = Ok e →
  (length e ≤ fuel)%nat → pools_loop fuel (pre ++ e) (length pre) = Ok pools.
Proof.
  induction pools as [|pool pools IH]; intros pre e fuel HF He Hfuel;
    unfold encode_pools in He; cbn [join] in He.
  { injection He as <-. destruct fuel; cbn [pools_loop]; rewrite app_nil_r, Nat.leb_refl; done. }
  inv_bind. subst. apply Forall_cons in HF as [Hp HF].
  match goal with H : enc_nat _ = Ok ?x |- _ => rename x into n, H into Hen end.
  pose proof (enc_nat_reads _ _ Hen) as Hr.
  assert (0 < length n)%nat as Hn by (destruct n; [discriminate (Hr [] [])|cbn; lia]).
  match goal with H : join _ _ = Ok ?x |- _ => rename x into t, H into Ht end.
  rewrite !length_app in Hfuel. destruct fuel as [|fuel]; [lia|].
  cbn [pools_loop]. rewrite !length_app.
  destruct (Nat.leb_spec (length pre + (length n + length (concat pool) + length t)) (length pre)); [lia|].
  rewrite <- !(assoc_L (++)), Hr. cbn [mbind result_bind]. rewrite Nat2Z.id.
  pose proof (concat_length_32 pool Hp) as Hc. rewrite !length_app.
  pose proof (IH (pre ++ n ++ concat pool) t fuel HF Ht ltac:(lia)) as Hrest.
  rewrite !length_app, <- !(assoc_L (++)) in Hrest.
  replace (length pre + length n + 32 * length pool)%nat
    with (length pre + (length n + length (concat pool)))%nat by lia.
  rewrite Hrest. cbn [mbind result_bind].
  pose proof (pool_entries_concat (pre ++ n) pool t Hp) as Hpe.
  rewrite length_app, <- !(assoc_L (++)) in Hpe.
  case_match eqn:E; [apply Z.ltb_lt in E; lia|]. by rewrite Hpe.
Qed.

Section chainspec_facts.
Context (blake2b256 : bytes → bytes).

Lemma collect_elem {A B} (f : A → result (option B)) l found y :
  collect f l = Ok found → y ∈ found → ∃ x, x ∈ l ∧ f x = Ok (Some y).
Proof.
  revert found. induction l as [|x l IH]; intros found H; cbn in H; inv_bind; subst; [set_solver|].
  case_match; subst; rewrite ?elem_of_cons.
  - intros [->|Hy]; [exists x; set_solver|]. edestruct IH as (z & ? & ?); [done|done|]. exists z. set_solver.
  - intros Hy. edestruct IH as (z & ? & ?); [done|done|]. exists z. set_solver.
Qed.

Lemma collect_complete {A B} (f : A → result (option B)) l found x y :
  collect f l = Ok found → x ∈ l → f x = Ok (Some y) → y ∈ found.
Proof.
  revert found. induction l as [|z l IH]; intros found H Hx Hf; [set_solver|]. cbn in H. inv_bind. subst.
  apply elem_of_cons in Hx as [->|Hx].
  - rewrite Hf in *. simplify_eq. set_solver.
  - specialize (IH _ ltac:(done) Hx Hf). case_match; set_solver.
Qed.

Lemma foldl_better l x :
  let r := foldl (λ best y, if better y best then y else best) x l in
  r ∈ x :: l ∧ ∀ y, y ∈ x :: l → (length y.2 ≤ length r.2)%nat.
Proof.
  revert x. induction l as [|y l IH]; intros x; cbn [foldl]; [set_solver by lia|].
  set (b := if better y x then y else x). destruct (IH b) as [Hin Hle].
  assert (Hb : (length x.2 ≤ length b.2)%nat ∧ (length y.2 ≤ length b.2)%nat ∧ (b = x ∨ b = y)).
  { unfold b. destruct (better y x) eqn:E; unfold better in E; [|].
    - apply orb_true_iff in E as [E|[E _]%andb_true_iff]; [apply Nat.ltb_lt in E|apply Nat.eqb_eq in E];
        split_and!; (lia || by right).
    - apply orb_false_iff in E as [E _]. apply Nat.ltb_ge in E. split_and!; (lia || by left). }
  destruct Hb as (Hx & Hy & Hor). cbn zeta in *. set (r := foldl _ b l) in *. split.
  - apply elem_of_cons in Hin as [->|?]; [destruct Hor as [->| ->]; set_solver|set_solver].
  - intros z Hz. pose proof (Hle b ltac:(set_solver)).
    apply elem_of_cons in Hz as [->|[->|Hz]%elem_of_cons]; [lia|lia|]. apply Hle. set_solver.
Qed.

(** A preimage held by service [s] whose empty-configuration authorizer is in a pool. *)
Definition accepted (state : list (bytes * bytes)) (pools : list (list bytes)) (a : Authorizer)
    (cores : list nat) : Prop :=
  (∃ blob, auth_code a = blake2b256 blob ∧ host a ∈ service_ids state ∧
     ∃ k, state_key blake2b256 (host a) (PREIMAGE_TAG ++ auth_code a) = Ok k ∧ (k, blob) ∈ state) ∧
  config a = [] ∧ cores ≠ [] ∧
  ∀ c, c ∈ cores ↔ ∃ pool, pools !! c = Some pool ∧ blake2b256 (auth_code a) ∈ pool.

Lemma elem_of_cores_of h pools c : c ∈ cores_of h pools ↔ ∃ pool, pools !! c = Some pool ∧ h ∈ pool.
Proof.
  unfold cores_of. rewrite list_elem_of_filter, elem_of_seq. split.
  - intros [Hh Hc]. destruct (pools !! c) as [pool|] eqn:E; [eauto|]. cbn in Hh. set_solver.
  - intros (pool & Hp & Hh). rewrite Hp. split; [done|]. apply lookup_lt_Some in Hp. lia.
Qed.

Lemma preimage_authorizer_spec pools s kv a cores :
  preimage_authorizer blake2b256 pools s kv = Ok (Some (a, cores)) →
  auth_code a = blake2b256 kv.2 ∧ host a = s ∧ config a = [] ∧ cores ≠ [] ∧
  state_key blake2b256 s (PREIMAGE_TAG ++ auth_code a) = Ok kv.1 ∧
  cores = cores_of (blake2b256 (auth_code a)) pools.
Proof.
  unfold preimage_authorizer. intros H. inv_bind. case_bool_decide; [|done]. cbn in H. inv_bind.
  unfold authorizer_hash in *. inv_bind. cbn [auth_code config] in *.
  match goal with H : hash32 _ _ = Ok _ |- _ => apply hash32_ok in H as [_ ->] end.
  rewrite app_nil_r in *. subst. destruct (cores_of _ pools) eqn:E; [done|]. injection H as <- <-.
  cbn [auth_code host config]. split_and!; try done; congruence.
Qed.
Lemma authorizers_spec spec found :
  authorizers blake2b256 spec = Ok found →
  ∃ pools, auth_pools spec = Ok pools ∧
    ∀ a cores, (a, cores) ∈ found → accepted spec pools a cores.
Proof.
  unfold authorizers, genesis_state. intros H. apply bind_ok in H as (state & Hg & H).
  case_match; [|done]. injection Hg as <-. apply bind_ok in H as (pools & Hp & H).
  apply bind_ok in H as (raw & Hc & H). injection H as <-. exists pools. split; [done|].
  intros a cores Ha. rewrite elem_of_sort_by in Ha.
  apply (collect_elem _ _ _ _ Hc) in Ha as ([s kv] & Hin & Hpre). cbn [fst snd] in Hpre.
  apply list_elem_of_bind in Hin as (s' & Hin & Hs). apply list_elem_of_bind in Hin as (kv' & Hin & Hkv).
  apply list_elem_of_singleton in Hin. injection Hin as <- <-.
  apply preimage_authorizer_spec in Hpre as (Hcode & <- & Hcfg & Hne & Hk & Hcores). split_and!; try done.
  - exists kv.2. split_and!; [done|done|]. exists kv.1. split; [done|]. by destruct kv.
  - intros c. rewrite Hcores. apply elem_of_cores_of.
Qed.
End chainspec_facts.

(** ** Properties *)

(** Reading the pools inverts their serialization, for any number of cores and entries: the
    loop terminates within the given iterations and returns every pool. *)
Theorem auth_pools_roundtrip pools e state :
  Forall (Forall (λ h, length h = 32%nat)) pools → encode_pools pools = Ok e →
  lookup_key (1 :: repeat 0 30) state = Some e → auth_pools state = Ok pools.
Proof. intros HF He Hs. unfold auth_pools. rewrite Hs. by apply (pools_loop_decodes pools []). Qed.

(** The authorizer chosen from a chain spec is usable: its code is a preimage its host holds
    in genesis, its digest is in the pool of exactly the cores returned (at least one), and no
    other authorizer of the spec is accepted on more cores. *)
Theorem authorizer_accepted blake2b256 spec a cores :
  authorizer blake2b256 spec = Ok (a, cores) →
  ∃ pools found, auth_pools spec = Ok pools ∧ authorizers blake2b256 spec = Ok found ∧
    accepted blake2b256 spec pools a cores ∧
    ∀ b cs, (b, cs) ∈ found → accepted blake2b256 spec pools b cs ∧ (length cs ≤ length cores)%nat.
Proof.
  unfold authorizer. intros H. apply bind_ok in H as (found & Hf & H).
  destruct (authorizers_spec _ _ _ Hf) as (pools & Hp & Hall). exists pools, found.
  destruct found as [|y ys]; [done|]. injection H as H. pose proof (foldl_better ys y) as [Hin Hle].
  rewrite H in Hin, Hle. split_and!; [done|done|by apply Hall|].
  intros b cs Hb. split; [by apply Hall|]. by apply (Hle (b, cs)).
Qed.

(** ** Witnesses *)

(** A stand-in digest and a genesis with two services, one of which holds the preimage [7;7]
    accepted on the second of two cores. *)
Definition toy_hash (l : bytes) : bytes := repeat (foldl (λ acc b, (acc * 31 + b) mod 251) 7 l) 32.
Definition pools1 : list (list bytes) := [[repeat 1 32]; [repeat 2 32; toy_hash (toy_hash [7; 7])]].
Definition pools1_bytes : bytes := match encode_pools pools1 with Ok e => e | Raise _ => [] end.
Definition spec1 : list (bytes * bytes) :=
  [(1 :: repeat 0 30, pools1_bytes); (255 :: repeat 0 30, []); ([255; 9] ++ repeat 0 29, []);
   (match state_key toy_hash 9 (PREIMAGE_TAG ++ toy_hash [7; 7]) with Ok k => k | Raise _ => [] end, [7; 7])].

Lemma auth_pools_roundtrip_witness : auth_pools spec1 = Ok pools1.
Proof.
  apply (auth_pools_roundtrip pools1 pools1_bytes spec1); [|vm_compute; reflexivity..].
  repeat constructor.
Defined.

Lemma authorizer_accepted_witness :
  ∃ pools found, auth_pools spec1 = Ok pools ∧ authorizers toy_hash spec1 = Ok found ∧
    accepted toy_hash spec1 pools {| host := 9; auth_code := toy_hash [7; 7]; config := []; token := [] |} [1%nat].
Proof.
  edestruct (authorizer_accepted toy_hash spec1
    {| host := 9; auth_code := toy_hash [7; 7]; config := []; token := [] |} [1%nat]) as (p & f & H1 & H2 & H3 & _);
    [vm_compute; reflexivity|]. exact (ex_intro _ p (ex_intro _ f (conj H1 (conj H2 H3)))).
Defined.
