(* ===== verification/Submit.v ===== *)
(** * The jip2 backend: reads, package building and submission

    src/offchain/chain.py, [Jip2Chain] with [ServiceInfo.decode]: what turns payloads into a work-package and gets it
    to a guarantor.  The node is a sequence of views, one per RPC call; an answer that is not of the form JIP-2 gives is a
    [None].  Errors carry the call or guard that raised, without the interpolated values; the receipt is without its
    timings. *)
From S2P Require Import Prelude Bytes WorkPackage ChainSpec.

(** ** The service record *)
Record ServiceInfo := {
  si_code_hash : bytes; si_balance : Z; min_item_gas : Z; min_memo_gas : Z; octets : Z; gratis : Z;
  si_items : Z; created : Z; last_accumulated : Z; parent : Z
}.
Definition SIZE : nat := 89.

(** [ServiceInfo.decode] *)
Definition decode_service (data : bytes) : result ServiceInfo :=
  if negb (length data =? SIZE)%nat || negb (default 0 (head data) =? 0) then Raise (ChainError "service record")
  else
    let e8 i := le_int (slice data (33 + 8 * i) (41 + 8 * i)) in
    let e4 i := le_int (slice data (73 + 4 * i) (77 + 4 * i)) in
    Ok {| si_code_hash := slice data 1 33; si_balance := e8 0%nat; min_item_gas := e8 1%nat; min_memo_gas := e8 2%nat;
          octets := e8 3%nat; gratis := e8 4%nat; si_items := e4 0%nat; created := e4 1%nat; last_accumulated := e4 2%nat;
          parent := e4 3%nat |}.

(** ** The node *)
Record Block := { slot : Z; hash : bytes }.

(** One instant of the node. *)
Record node := Node {
  n_best : result (option Block);
  n_final : result (option Block);
  n_parent : bytes → result (option Block);
  n_state_root : bytes → result bytes;
  n_beefy_root : bytes → result bytes;
  n_value : bytes → Z → bytes → result (option bytes);
  n_data : bytes → Z → result (option bytes);
  n_preimage : bytes → Z → bytes → result (option bytes);
  n_services : bytes → result (list Z);
  n_parameters : result (option (gmap string (option Z)));   (* None: no V1 member; a value None: not a number *)
  n_submit : Z → bytes → result unit;
  n_request : bytes → Z → bytes → Z → result (option (list Z));
  n_provide : Z → bytes → result unit;
  n_status : bytes → bytes → bytes → result (option (string * option Z))   (* the kind, and the slot a Ready names; None: no kind *)
}.

(** A submitWorkPackage call and its answer. *)
Record sent := Sent { s_core : Z; s_package : bytes; s_answer : result unit }.

Record jip2 := Jip2 {
  c_service : option Z;
  c_authorizer : option Authorizer;
  c_spec : option (result (list (bytes * bytes)));           (* the chain spec as it loads *)
  c_cores : option (list Z);
  c_refine_gas : option Z;
  c_accumulate_gas : option Z;
  c_params : option (gmap string (option Z));
  c_auth_checked : bool;
  c_next_core : nat;
  c_sent : list sent;
  c_tick : nat
}.

Definition set_auth a cs (c : jip2) : jip2 :=
  Jip2 (c_service c) a (c_spec c) cs (c_refine_gas c) (c_accumulate_gas c) (c_params c) (c_auth_checked c) (c_next_core c) (c_sent c) (c_tick c).
Definition set_params p (c : jip2) : jip2 :=
  Jip2 (c_service c) (c_authorizer c) (c_spec c) (c_cores c) (c_refine_gas c) (c_accumulate_gas c) p (c_auth_checked c) (c_next_core c) (c_sent c) (c_tick c).
Definition set_checked (c : jip2) : jip2 :=
  Jip2 (c_service c) (c_authorizer c) (c_spec c) (c_cores c) (c_refine_gas c) (c_accumulate_gas c) (c_params c) true (c_next_core c) (c_sent c) (c_tick c).
Definition set_next_core n (c : jip2) : jip2 :=
  Jip2 (c_service c) (c_authorizer c) (c_spec c) (c_cores c) (c_refine_gas c) (c_accumulate_gas c) (c_params c) (c_auth_checked c) n (c_sent c) (c_tick c).
Definition add_sent x (c : jip2) : jip2 :=
  Jip2 (c_service c) (c_authorizer c) (c_spec c) (c_cores c) (c_refine_gas c) (c_accumulate_gas c) (c_params c) (c_auth_checked c) (c_next_core c) (c_sent c ++ [x]) (c_tick c).
Definition tick (c : jip2) : jip2 :=
  Jip2 (c_service c) (c_authorizer c) (c_spec c) (c_cores c) (c_refine_gas c) (c_accumulate_gas c) (c_params c) (c_auth_checked c) (c_next_core c) (c_sent c) (S (c_tick c)).

(** The constructor's state: [Jip2Chain.__init__], [_init_submission] *)
Definition jip2_init (sid : option Z) (a : option Authorizer) (spec : option (result (list (bytes * bytes)))) (cores : list Z) (rg ag : option Z) : jip2 :=
  Jip2 sid a spec (match cores with [] => None | _ => Some cores end) rg ag None false 0 [] 0.
(** [submits] *)
Definition submits (c : jip2) : bool := match c_authorizer c, c_spec c with None, None => false | _, _ => true end.
(** [for_service]: the same node and settings for another service *)
Definition for_service (sid : Z) (c : jip2) : jip2 :=
  Jip2 (Some sid) (c_authorizer c) (c_spec c) (match c_cores c with Some [] | None => None | cs => cs end) (c_refine_gas c) (c_accumulate_gas c) None false 0 (c_sent c) (c_tick c).

Notation J := (SE jip2).

(** Where a read looks. *)
Inductive at_block := AtBest | AtFinal | AtBlock (b : Block) | AtHash (h : bytes).

(** What a submission returns. *)
Record submit_receipt := Receipt {
  rc_package_hash : bytes; rc_core : Z; rc_anchor : bytes; rc_anchor_slot : Z; rc_lookup_anchor : bytes; rc_lookup_anchor_slot : Z;
  rc_refused : list Z
}.

Definition METHOD_NOT_FOUND : Z := -32601.
(** Exceptions that [except (jip2.Jip2Error, OSError, ValueError)] catches; a WebSocketError is an OSError. *)
Definition rpc_failure (e : exn) : bool := match e with Jip2Error _ | OSError _ | WebSocketError _ | ValueError _ => true | _ => false end.
(** ... and [except (OSError, ValueError)] *)
Definition transport_failure (e : exn) : bool := match e with OSError _ | WebSocketError _ | ValueError _ => true | _ => false end.
Definition or_none (x : option Z) (d : Z) : Z := match x with None | Some 0 => d | Some v => v end.

Section backend.
Context (nodes : nat → node) (blake2b256 : bytes → bytes).

Definition rpc {A} (f : node → result A) : J A := λ c, (f (nodes (c_tick c)), tick c).
(** [_call] *)
Definition call {A} (what : string) (f : node → result A) : J A :=
  r ← se_try (rpc f);
  se_lift (match r with Raise e => if rpc_failure e then Raise (ChainError what) else Raise e | Ok a => Ok a end).
(** [_block], [head], [finalized] *)
Definition block_of (what : string) (f : node → result (option Block)) : J Block :=
  d ← call what f;
  se_lift (match d with Some b => Ok b | None => Raise (ChainError "malformed block descriptor") end).
Definition best_head : J Block := block_of "best_block" n_best.
Definition finalized_head : J Block := block_of "finalized_block" n_final.
(** [_at] *)
Definition at_hash (a : at_block) : J bytes :=
  match a with
  | AtBest => b ← best_head; mret (hash b)
  | AtFinal => b ← finalized_head; mret (hash b)
  | AtBlock b => mret (hash b)
  | AtHash h => se_lift (if (length h =? 32)%nat then Ok h else Raise (ValueError "at"))
  end.
(** [_sid] *)
Definition sid : J Z := s ← se_get c_service; se_lift (match s with Some i => Ok i | None => Raise (ChainError "no service id: set SERVICE_ID") end).
(** [read(key, at)] *)
Definition read (key : bytes) (a : at_block) : J bytes :=
  h ← at_hash a; s ← sid; v ← call "service_value" (λ n, n_value n h s key); mret (default [] v).
(** [service_record], [service_info] *)
Definition service_record (s : Z) (a : at_block) : J (option ServiceInfo) :=
  h ← at_hash a;
  data ← call "service_data" (λ n, n_data n h s);
  match data with None => mret None | Some d => i ← se_lift (decode_service d); mret (Some i) end.
Definition service_info (a : at_block) : J ServiceInfo :=
  s ← sid; i ← service_record s a; se_lift (match i with Some i => Ok i | None => Raise (ChainError "no service at that block") end).
(** [services], [preimage] *)
Definition services (a : at_block) : J (list Z) := h ← at_hash a; call "list_services" (λ n, n_services n h).
Definition preimage (s : Z) (p : bytes) (a : at_block) : J (option bytes) := h ← at_hash a; call "service_preimage" (λ n, n_preimage n h s p).
(** [preimage_request], [provide], [package_status] *)
Definition preimage_request (s : Z) (p : bytes) (n : Z) (a : at_block) : J (option (list Z)) :=
  h ← at_hash a; call "service_request" (λ v, n_request v h s p n).
Definition provide (s : Z) (blob : bytes) : J unit := call "submit_preimage" (λ v, n_provide v s blob).
Definition package_status (rc : submit_receipt) (a : at_block) : J (option (string * option Z)) :=
  h ← at_hash a; call "work_package_status" (λ v, n_status v h (rc_package_hash rc) (rc_anchor rc)).

(** [_load_params] *)
Definition load_params : J (gmap string (option Z)) :=
  p ← se_get c_params;
  match p with
  | Some p => mret p
  | None =>
      v ← call "parameters" n_parameters;
      match v with
      | None => se_lift (Raise (ChainError "parameters: no V1 member"))
      | Some p => _ ← se_put (set_params (Some p)); mret p
      end
  end.
(** [_param], [parameter(name, default)], [max_items] *)
Definition param (name : string) : J Z :=
  p ← load_params; se_lift (match p !! name with Some (Some v) => Ok v | _ => Raise (ChainError "parameters: no number") end).
Definition parameter (name : string) (d : Z) : J Z :=
  p ← load_params; match p !! name with None => mret d | Some _ => param name end.
Definition max_items : J Z := parameter "max_work_items" 1.

(** [_resolve_authorizer] *)
Definition spec_failure (e : exn) : bool := match e with OSError _ | WebSocketError _ | ValueError _ | KeyError _ => true | _ => false end.
Definition resolve_authorizer : J Authorizer :=
  a ← se_get c_authorizer;
  _ ← match a with
      | Some _ => mret tt
      | None =>
          s ← se_get c_spec;
          match s with
          | None => se_lift (Raise (ChainUnsupported "no authorizer to submit with"))
          | Some spec =>
              match (spec ≫= authorizer blake2b256) with
              | Raise e => se_lift (Raise (if spec_failure e then ChainUnsupported "no authorizer from the chain spec" else e))
              | Ok (x, cores) =>
                  se_put (λ c, set_auth (Some x) (match c_cores c with Some [] | None => Some (map Z.of_nat cores) | cs => cs end) c)
              end
          end
      end;
  cs ← se_get c_cores;
  _ ← match cs with
      | Some _ => mret tt
      | None => n ← param "core_count"; se_put (λ c, set_auth (c_authorizer c) (Some (map Z.of_nat (seq 0 (Z.to_nat n)))) c)
      end;
  a ← se_get c_authorizer;
  se_lift (match a with Some a => Ok a | None => Raise (ChainUnsupported "no authorizer to submit with") end).

(** [_check_authorizer] *)
Definition check_authorizer (at_ : bytes) (a : Authorizer) : J unit :=
  done ← se_get c_auth_checked;
  if (done : bool) then mret tt
  else
    r ← se_try (rpc (λ n, n_preimage n at_ (host a) (auth_code a)));
    code ← se_lift (match r with
                    | Ok code => Ok code
                    | Raise (Jip2Error (Some (-32601))) => Ok (Some [])
                    | Raise e => if rpc_failure e then Raise (ChainError "servicePreimage") else Raise e
                    end);
    match code with
    | None => se_lift (Raise (ChainUnsupported "the host service holds no preimage of the authorizer's code hash"))
    | Some _ => se_put set_checked
    end.

(** [_parent_of] *)
Definition parent_of (b : Block) : J Block :=
  r ← se_try (rpc (λ n, n_parent n (hash b)));
  se_lift (match r with
           | Ok (Some p) => Ok p
           | Ok None => Raise (ChainError "malformed parent descriptor")
           | Raise (Jip2Error _) => Ok b
           | Raise e => if transport_failure e then Raise (ChainError "parent") else Raise e
           end).
(** [default_anchor], [default_lookup_anchor] *)
Definition default_anchor : J Block := h ← best_head; parent_of h.
Definition default_lookup_anchor (anchor : Block) : J Block :=
  f ← finalized_head;
  lookup ← parent_of f;
  age ← param "max_lookup_anchor_age";
  recent ← param "recent_block_count";
  mret (if slot lookup + (age - recent) <? slot anchor then anchor else lookup).

(** [refine_context] *)
Definition refine_context (a l : Block) : J RefineContext :=
  root ← call "state_root" (λ n, n_state_root n (hash a));
  beefy ← call "beefy_root" (λ n, n_beefy_root n (hash a));
  lroot ← (if bool_decide (hash l = hash a) then mret root else call "state_root" (λ n, n_state_root n (hash l)));
  mret {| anchor := hash a; anchor_slot := slot a; state_root := root; beefy_root := beefy; lookup_anchor := hash l;
          lookup_anchor_slot := slot l; lookup_anchor_state_root := lroot; prerequisites := [] |}.

(** [work_package_items], with the default anchors *)
Definition work_package_items (payloads : list bytes) : J (bytes * RefineContext) :=
  s ← sid;
  let n := Z.of_nat (length payloads) in
  bad ← (if n <? 1 then mret true else if n <=? 1 then mret false else mi ← max_items; mret (mi <? n));
  _ ← (if (bad : bool) then _ ← max_items; se_lift (Raise (ChainUnsupported "a package carries 1 to max_items work-items")) else mret tt);
  auth ← resolve_authorizer;
  a ← default_anchor;
  l ← default_lookup_anchor a;
  _ ← check_authorizer (hash a) auth;
  ctx ← refine_context a l;
  info ← service_info (AtHash (hash a));
  g_r ← param "max_refine_gas";
  g_a ← param "max_accumulate_gas";
  rg ← se_get c_refine_gas;
  ag ← se_get c_accumulate_gas;
  let refine := or_none rg ((g_r - 1) / n) in
  let accumulate := or_none ag ((g_a - 1) / n) in
  _ ← se_lift (guard_or (negb ((g_r <=? n * refine) || (g_a <=? n * accumulate))) (ChainUnsupported "the items exceed the package limits"));
  _ ← se_lift (guard_or (min_item_gas info <=? accumulate) (ChainUnsupported "the service wants more accumulate gas per item"));
  let its := map (λ p, {| service := s; code_hash := si_code_hash info; payload := p; refine_gas := refine; accumulate_gas := accumulate;
                          export_count := 0; imports := []; extrinsics := [] |}) payloads in
  e ← se_lift (encode_package (build_package (host auth) (auth_code auth) (ChainSpec.config auth) (token auth) ctx its));
  mret (e, ctx).

(** One submitWorkPackage call *)
Definition send (core : Z) (package : bytes) : J (result unit) :=
  r ← se_try (rpc (λ n, n_submit n core package));
  _ ← se_put (add_sent (Sent core package r));
  mret r.

(** The loop of [submit_items]: from the [k]-th core on, [fuel] cores to go *)
Fixpoint try_cores (fuel k : nat) (cores : list Z) (package : bytes) (ctx : RefineContext) (refused : list Z) : J submit_receipt :=
  match fuel with
  | O => se_lift (Raise (ChainBusy "every core refused the package"))
  | S fuel' =>
      nc ← se_get c_next_core;
      let core := default 0 (cores !! ((nc + k) mod length cores)%nat) in
      r ← send core package;
      match r with
      | Ok _ =>
          _ ← se_put (set_next_core ((nc + k + 1) mod length cores)%nat);
          mret (Receipt (blake2b256 package) core (anchor ctx) (anchor_slot ctx) (lookup_anchor ctx) (lookup_anchor_slot ctx) refused)
      | Raise (Jip2Error (Some (-32601))) => se_lift (Raise (ChainUnsupported "the node has no submitWorkPackage"))
      | Raise (Jip2Error _) => try_cores fuel' (S k) cores package ctx (refused ++ [core])
      | Raise e => se_lift (Raise (if transport_failure e then ChainError "submitWorkPackage: outcome unknown" else e))
      end
  end.

(** [submit_items], [submit] *)
Definition submit_items (payloads : list bytes) : J submit_receipt :=
  _ ← sid;
  r ← se_try (work_package_items payloads);
  x ← se_lift (match r with
               | Raise (ChainError why) => Raise (ChainBusy why)
               | r => r
               end);
  cores ← se_get (λ c, default [] (c_cores c));
  try_cores (length cores) 0 cores x.1 x.2 [].
Definition submit (payload : bytes) : J submit_receipt := submit_items [payload].
End backend.

(** ** What building a package leaves alone *)

(** The parameters of [c'] are those cached in [c], or what the node answered in between. *)
Definition sourced (nodes : nat → node) (c c' : jip2) : Prop :=
  (c_tick c ≤ c_tick c')%nat ∧ ∀ p, c_params c' = Some p →
    c_params c = Some p ∨ ∃ n, (c_tick c ≤ n < c_tick c')%nat ∧ n_parameters (nodes n) = Ok (Some p).
(** Nothing is sent, the configured service and gas limits stay, and the parameters are fetched at most once. *)
Definition unsent (nodes : nat → node) (c c' : jip2) : Prop :=
  c_sent c' = c_sent c ∧ c_next_core c' = c_next_core c ∧ c_service c' = c_service c ∧ c_refine_gas c' = c_refine_gas c ∧
  c_accumulate_gas c' = c_accumulate_gas c ∧ (∀ p, c_params c = Some p → c_params c' = Some p) ∧ sourced nodes c c'.
#[export] Instance sourced_tr nodes : Transition (sourced nodes).
Proof.
  split; unfold sourced; [auto|]. intros a b c [T1 H1] [T2 H2]. split; [lia|]. intros p [Hp|(n & ? & ?)]%H2.
  - destruct (H1 p Hp) as [?|(n & ? & ?)]; [by left|right]. exists n. split; [lia|done].
  - right. exists n. split; [lia|done].
Qed.
#[export] Instance unsent_tr nodes : Transition (unsent nodes).
Proof.
  split; unfold unsent; [intros; split_and!; [done..|apply tr_refl]|].
  intros a b c (-> & -> & -> & -> & -> & H & U) (-> & -> & -> & -> & -> & H' & U'). split_and!; [done..| |by eapply tr_trans]. intros p Hp. by apply H', H.
Qed.
Lemma sourced_same nodes c c' : (c_tick c ≤ c_tick c')%nat → c_params c' = c_params c → sourced nodes c c'.
Proof. intros ? E. split; [done|]. rewrite E. by left. Qed.

Section building.
Context (nodes : nat → node) (blake2b256 : bytes → bytes).
Local Notation unsent := (unsent nodes).

Lemma unsent_tick c : unsent c (tick c).
Proof. unfold Submit.unsent. split_and!; [done..|]. apply sourced_same; [cbn; lia|done]. Qed.
Lemma unsent_put f : (∀ c, c_sent (f c) = c_sent c ∧ c_next_core (f c) = c_next_core c ∧ c_service (f c) = c_service c ∧
  c_refine_gas (f c) = c_refine_gas c ∧ c_accumulate_gas (f c) = c_accumulate_gas c ∧ c_params (f c) = c_params c ∧ c_tick (f c) = c_tick c) →
  rel unsent (se_put f).
Proof.
  intros H. apply rel_put. intros c. destruct (H c) as (? & ? & ? & ? & ? & E & Et). split_and!; [done..|by rewrite E|]. by apply sourced_same; [rewrite Et|].
Qed.
Lemma unsent_rpc {A} (f : node → result A) : rel unsent (rpc nodes f).
Proof. intros c. apply unsent_tick. Qed.
Lemma call_state {A} w (f : node → result A) c : (call nodes w f c).2 = tick c.
Proof. reflexivity. Qed.
Lemma call_answer {A} w (f : node → result A) c a : (call nodes w f c).1 = Ok a → f (nodes (c_tick c)) = Ok a.
Proof.
  unfold call, mbind, SE_bind, se_try, rpc, se_lift. cbn. destruct (f (nodes (c_tick c))) as [x|e]; cbn; [done|]. by destruct (rpc_failure e).
Qed.
Lemma unsent_call {A} w (f : node → result A) : rel unsent (call nodes w f).
Proof. intros c. apply unsent_tick. Qed.
Lemma unsent_head w f : rel unsent (block_of nodes w f).
Proof. unfold block_of. apply rel_bind; [apply _|apply unsent_call|intros; apply rel_lift, _]. Qed.
Lemma unsent_at a : rel unsent (at_hash nodes a).
Proof. destruct a; cbn [at_hash]; [apply rel_bind; [apply _|apply unsent_head|intros; apply rel_ret, _]..|apply rel_ret, _|apply rel_lift, _]. Qed.
Lemma unsent_sid : rel unsent sid.
Proof. unfold sid. rel_step. Qed.
Lemma unsent_load : rel unsent (load_params nodes).
Proof.
  intros c. unfold load_params, mbind, SE_bind. cbn [se_get]. destruct (c_params c) eqn:E; [apply tr_refl|].
  pose proof (call_state "parameters" n_parameters c) as H. pose proof (call_answer "parameters" n_parameters c) as Ha.
  destruct (call nodes "parameters" n_parameters c) as [[[p|]|e] c1]; cbn in H; subst c1; [|apply unsent_tick..].
  unfold Submit.unsent. split_and!; try done; [cbn; congruence|]. split; [cbn; lia|]. cbn. intros q [= <-]. right. exists (c_tick c). split; [lia|].
  by apply Ha.
Qed.
Lemma unsent_param name : rel unsent (param nodes name).
Proof. unfold param. apply rel_bind; [apply _|apply unsent_load|intros; apply rel_lift, _]. Qed.
Lemma unsent_max_items : rel unsent (max_items nodes).
Proof. unfold max_items, parameter. apply rel_bind; [apply _|apply unsent_load|intros]. case_match; [apply unsent_param|apply rel_ret, _]. Qed.
Lemma unsent_set_auth f : rel unsent (se_put (λ c, set_auth (f c).1 (f c).2 c)).
Proof. by apply unsent_put. Qed.
Lemma unsent_resolve : rel unsent (resolve_authorizer nodes blake2b256).
Proof.
  unfold resolve_authorizer. apply rel_bind; [apply _|apply rel_get, _|intros a]. apply rel_bind; [apply _| |intros _].
  { destruct a; [apply rel_ret, _|]. apply rel_bind; [apply _|apply rel_get, _|intros [spec|]]; [|apply rel_lift, _].
    destruct (spec ≫= _) as [[x cs]|e]; [by apply unsent_put|apply rel_lift, _]. }
  apply rel_bind; [apply _|apply rel_get, _|intros cs]. apply rel_bind; [apply _| |intros _; rel_step].
  destruct cs; [apply rel_ret, _|]. apply rel_bind; [apply _|apply unsent_param|intros; by apply unsent_put].
Qed.
Lemma unsent_check h a : rel unsent (check_authorizer nodes h a).
Proof.
  unfold check_authorizer. apply rel_bind; [apply _|apply rel_get, _|intros []]; [apply rel_ret, _|].
  apply rel_bind; [apply _|apply rel_try, unsent_rpc|intros r]. apply rel_bind; [apply _|apply rel_lift, _|intros [code|]]; [by apply unsent_put|apply rel_lift, _].
Qed.
Lemma unsent_parent b : rel unsent (parent_of nodes b).
Proof. unfold parent_of. apply rel_bind; [apply _|apply rel_try, unsent_rpc|intros; apply rel_lift, _]. Qed.
Lemma unsent_anchor : rel unsent (default_anchor nodes).
Proof. unfold default_anchor. apply rel_bind; [apply _|apply unsent_head|intros; apply unsent_parent]. Qed.
Lemma unsent_lookup a : rel unsent (default_lookup_anchor nodes a).
Proof.
  unfold default_lookup_anchor. repeat (apply rel_bind; [apply _|first [apply unsent_head|apply unsent_parent|apply unsent_param]|intros]). apply rel_ret, _.
Qed.
Lemma unsent_context a l : rel unsent (refine_context nodes a l).
Proof.
  unfold refine_context. do 2 (apply rel_bind; [apply _|apply unsent_call|intros]).
  apply rel_bind; [apply _|case_match; [apply rel_ret, _|apply unsent_call]|intros; apply rel_ret, _].
Qed.
Lemma unsent_info a : rel unsent (service_info nodes a).
Proof.
  unfold service_info, service_record. apply rel_bind; [apply _|apply unsent_sid|intros s]. apply rel_bind; [apply _| |intros; apply rel_lift, _].
  apply rel_bind; [apply _|apply unsent_at|intros h]. apply rel_bind; [apply _|apply unsent_call|intros [d|]]; [|apply rel_ret, _].
  apply rel_bind; [apply _|apply rel_lift, _|intros; apply rel_ret, _].
Qed.
#[local] Hint Resolve unsent_sid unsent_max_items unsent_resolve unsent_anchor unsent_lookup unsent_check unsent_context unsent_info unsent_param : rel.

(** Building a package sends nothing. *)
Lemma unsent_build ps : rel unsent (work_package_items nodes blake2b256 ps).
Proof.
  unfold work_package_items. repeat first [solve [eauto 2 with rel] | apply rel_bind; [apply _| |intros ?] | case_match | apply rel_ret, _ | apply rel_lift, _ | apply rel_get, _].
Qed.

(** ** Sending *)

(** The node refused the call: the package reached no guarantor. *)
Definition refusal (x : sent) : Prop := ∃ code, s_answer x = Raise (Jip2Error code).

(** What the calls of one submission amount to. *)
Definition submit_outcome (package : bytes) (r : result submit_receipt) (calls : list sent) : Prop :=
  Forall (λ x, s_package x = package) calls ∧
  match r with
  | Ok rc => ∃ pre, calls = pre ++ [Sent (rc_core rc) package (Ok tt)] ∧ Forall refusal pre ∧ rc_refused rc = map s_core pre
  | Raise (ChainBusy _) | Raise (ChainUnsupported _) => Forall refusal calls
  | Raise _ => ∃ pre x, calls = pre ++ x ∧ Forall refusal pre ∧ (length x ≤ 1)%nat
  end.

(** The client raises what its documentation says. *)
Definition client_errors : Prop := ∀ n core p e, n_submit (nodes n) core p = Raise e → rpc_failure e = true.

Lemma forall_snoc {A} (P : A → Prop) l x : Forall P l → P x → Forall P (l ++ [x]).
Proof. intros. apply Forall_app. split; [done|by apply Forall_singleton]. Qed.
Lemma try_cores_outcome cores package ctx : client_errors → ∀ fuel k refused c r c' pre,
  try_cores nodes blake2b256 fuel k cores package ctx refused c = (r, c') →
  Forall (λ x, s_package x = package) pre → Forall refusal pre → refused = map s_core pre →
  ∃ calls, c_sent c' = c_sent c ++ calls ∧ submit_outcome package r (pre ++ calls).
Proof.
  intros Hcl. induction fuel as [|fuel IH]; intros k refused c r c' pre H Hp Hr ->; cbn [try_cores] in H.
  { injection H as <- <-. exists []. rewrite !app_nil_r. done. }
  unfold mbind, SE_bind at 1 in H. cbn [se_get] in H. set (core := default 0 _) in H.
  destruct (n_submit (nodes (c_tick c)) core package) as [u|e] eqn:En.
  all: assert (Hs : send nodes core package c = (Ok (n_submit (nodes (c_tick c)) core package), add_sent (Sent core package (n_submit (nodes (c_tick c)) core package)) (tick c))) by reflexivity.
  all: unfold SE_bind at 1 in H; rewrite Hs, En in H; cbv beta iota zeta in H; clear Hs.
  - injection H as <- <-. exists [Sent core package (Ok u)]. destruct u. split; [done|]. split; [by apply forall_snoc|]. exists pre. done.
  - pose proof (Hcl _ _ _ _ En) as He.
    assert (Hlast : ∀ w, (Raise (ChainError w), add_sent (Sent core package (Raise e)) (tick c)) = (r, c') →
              ∃ calls, c_sent c' = c_sent c ++ calls ∧ submit_outcome package r (pre ++ calls)).
    { intros w [= <- <-]. exists [Sent core package (Raise e)]. split; [done|]. split; [by apply forall_snoc|]. exists pre, [Sent core package (Raise e)].
      split_and!; [done..|cbn; lia]. }
    destruct e as [w| | | | |w|w|w|w|w|code|w|w]; try discriminate He; try exact (Hlast _ H).
    destruct (decide (code = Some (-32601))) as [->|Hc].
    { injection H as <- <-. exists [Sent core package (Raise (Jip2Error (Some (-32601))))]. split; [done|].
      split; [by apply forall_snoc|]. apply forall_snoc; [done|by eexists]. }
    assert (Hgo : try_cores nodes blake2b256 fuel (S k) cores package ctx (map s_core pre ++ [core])
                    (add_sent (Sent core package (Raise (Jip2Error code))) (tick c)) = (r, c')).
    { rewrite <- H. repeat case_match; simplify_eq; done. }
    apply (IH _ _ _ _ _ (pre ++ [Sent core package (Raise (Jip2Error code))])) in Hgo as (calls & Ec & Ho).
    + exists ([Sent core package (Raise (Jip2Error code))] ++ calls). rewrite Ec. cbn. rewrite <- !(assoc_L (++)). cbn. split; [done|].
      by rewrite <- (assoc_L (++)) in Ho.
    + by apply forall_snoc.
    + apply forall_snoc; [done|by eexists].
    + by rewrite map_app.
Qed.

Lemma try_cores_receipt cores package ctx fuel : ∀ k refused c rc c',
  try_cores nodes blake2b256 fuel k cores package ctx refused c = (Ok rc, c') →
  rc_package_hash rc = blake2b256 package ∧ rc_anchor rc = anchor ctx ∧ rc_anchor_slot rc = anchor_slot ctx.
Proof.
  induction fuel as [|fuel IH]; intros k refused c rc c' H; cbn [try_cores] in H; [done|].
  apply se_bind_ok in H as (nc & c1 & _ & H). cbv zeta in H. apply se_bind_ok in H as (r & c2 & _ & H). destruct r as [u|e].
  - apply se_bind_ok in H as (? & ? & _ & [= <- _]). done.
  - repeat case_match; simplify_eq; try done; try (by apply lift_ok in H as [? _]); by apply IH in H.
Qed.

(** Trying the cores leaves the parameters alone. *)
Definition same_params (c c' : jip2) : Prop := c_params c' = c_params c ∧ (c_tick c ≤ c_tick c')%nat.
#[local] Instance same_params_tr : Transition same_params.
Proof. split; unfold same_params; [done|]. intros a b c [-> ?] [-> ?]. split; [done|lia]. Qed.
Lemma try_cores_params cores package ctx fuel : ∀ k refused, rel same_params (try_cores nodes blake2b256 fuel k cores package ctx refused).
Proof.
  induction fuel as [|fuel IH]; intros k refused; cbn [try_cores]; [apply rel_lift, _|].
  apply rel_bind; [apply _|apply rel_get, _|intros nc]. cbv zeta. apply rel_bind; [apply _| |intros r].
  { intros c. split; [done|]. change (c_tick c ≤ S (c_tick c))%nat. lia. }
  destruct r as [u|e]; [apply rel_bind; [apply _|by apply rel_put|intros; apply rel_ret, _]|].
  repeat case_match; first [apply IH|apply rel_lift, _].
Qed.

(** ** The package that is built *)
Definition number (c : jip2) (name : string) (v : Z) : Prop := ∃ p, c_params c = Some p ∧ p !! name = Some (Some v).
Lemma number_unsent c c' name v : number c name v → unsent c c' → number c' name v.
Proof. intros (p & Hp & Hv) (_ & _ & _ & _ & _ & H & _). exists p. auto. Qed.
Lemma param_number name c v c' : param nodes name c = (Ok v, c') → number c' name v.
Proof.
  unfold param. intros (p & c1 & H1 & [H2 ->]%lift_ok)%se_bind_ok. exists p. destruct (p !! name) as [[v'|]|]; try done. injection H2 as ->. split; [|done].
  unfold load_params in H1. apply se_bind_ok in H1 as (o & c2 & [= <- <-] & H1). destruct (c_params c) as [p'|] eqn:E.
  - injection H1 as -> ->. done.
  - apply se_bind_ok in H1 as ([p'|] & c3 & _ & H1); [|done]. apply se_bind_ok in H1 as (? & c4 & [= _ <-] & [= <- <-]). done.
Qed.

(** The lookup anchor is no older than the chain allows, with the margin of the recent history. *)
Lemma lookup_young a c l c' : default_lookup_anchor nodes a c = (Ok l, c') →
  ∃ age recent, number c' "max_lookup_anchor_age" age ∧ number c' "recent_block_count" recent ∧ (recent ≤ age → slot a ≤ slot l + (age - recent)).
Proof.
  unfold default_lookup_anchor. intros (f & c1 & _ & H)%se_bind_ok. apply se_bind_ok in H as (l0 & c2 & _ & H).
  apply se_bind_ok in H as (age & c3 & H3 & H). apply se_bind_ok in H as (recent & c4 & H4 & [= <- <-]).
  exists age, recent. split_and!; [|by eapply param_number|].
  - eapply number_unsent; [by eapply param_number|]. rewrite <- (se_run _ _ _ _ H4). apply unsent_param.
  - intros. destruct (Z.ltb_spec (slot l0 + (age - recent)) (slot a)); cbn; lia.
Qed.

Lemma rel_run {S A} (R : S → S → Prop) (f : SE S A) x r y : rel R f → f x = (r, y) → R x y.
Proof. intros H E. specialize (H x). by rewrite E in H. Qed.

(** The package built from [payloads], under the chain parameters [limits]. *)
Record built (payloads : list bytes) (c : jip2) (package : bytes) (ctx : RefineContext) (limits : gmap string (option Z)) (p : WorkPackage) : Prop := {
  bu_decodes : decode_package package = Ok p;
  bu_context : context p = ctx;
  bu_payloads : map payload (items p) = payloads;
  bu_service : ∃ s, c_service c = Some s ∧ Forall (λ w, service w = s) (items p);
  bu_gas : ∃ g_r g_a, limits !! "max_refine_gas" = Some (Some g_r) ∧ limits !! "max_accumulate_gas" = Some (Some g_a) ∧
    zsum refine_gas (items p) < g_r ∧ zsum accumulate_gas (items p) < g_a;
  bu_young : ∃ age recent, limits !! "max_lookup_anchor_age" = Some (Some age) ∧ limits !! "recent_block_count" = Some (Some recent) ∧
    (recent ≤ age → anchor_slot ctx ≤ lookup_anchor_slot ctx + (age - recent))
}.

Lemma zsum_map_const {A B} (f : B → Z) (g : A → B) v (l : list A) : (∀ x, f (g x) = v) → zsum f (map g l) = Z.of_nat (length l) * v.
Proof. intros H. induction l as [|x l IH]; [done|]. rewrite map_cons. unfold zsum in *. cbn [map foldr length] in *. rewrite H, IH. lia. Qed.

Lemma build_spec payloads c package ctx c' :
  work_package_items nodes blake2b256 payloads c = (Ok (package, ctx), c') →
  ∃ p limits, c_params c' = Some limits ∧ built payloads c package ctx limits p.
Proof.
  intros H. pose proof H as Hu. unfold work_package_items in H. apply se_bind_ok in H as (s & c1 & Hs & H). cbv zeta in H.
  apply se_bind_ok in H as (bad & c2 & _ & H). apply se_bind_ok in H as (? & c3 & _ & H). apply se_bind_ok in H as (auth & c4 & _ & H).
  apply se_bind_ok in H as (a & c5 & _ & H). apply se_bind_ok in H as (l & c6 & Hl & H). apply se_bind_ok in H as (? & c7 & H7 & H).
  apply se_bind_ok in H as (ctx' & c8 & H8 & H). apply se_bind_ok in H as (info & c9 & H9 & H). apply se_bind_ok in H as (g_r & c10 & Hr & H).
  apply se_bind_ok in H as (g_a & c11 & Ha & H). apply se_bind_ok in H as (rg & c12 & [= _ <-] & H). apply se_bind_ok in H as (ag & c13 & [= _ <-] & H).
  apply se_bind_ok in H as (? & c14 & [Hlim ->]%lift_ok & H). apply se_bind_ok in H as (? & c15 & [_ ->]%lift_ok & H).
  set (its := map _ payloads) in H. apply se_bind_ok in H as (e & c16 & [He ->]%lift_ok & [= <- <- <-]).
  apply guard_or_ok, negb_true_iff in Hlim. zbool.
  assert (U7 : unsent c6 c10).
  { eapply tr_trans; [eapply rel_run; [apply unsent_check|exact H7]|]. eapply tr_trans; [eapply rel_run; [apply unsent_context|exact H8]|].
    eapply tr_trans; [eapply rel_run; [apply unsent_info|exact H9]|]. eapply rel_run; [apply unsent_param|exact Hr]. }
  assert (U10 : unsent c10 c11) by (eapply rel_run; [apply unsent_param|exact Ha]).
  assert (Hctx : ctx' = ordered ctx' ∧ anchor_slot ctx' = slot a ∧ lookup_anchor_slot ctx' = slot l).
  { unfold refine_context in H8. apply se_bind_ok in H8 as (? & ? & _ & H8). apply se_bind_ok in H8 as (? & ? & _ & H8).
    apply se_bind_ok in H8 as (? & ? & _ & [= <- _]). done. }
  destruct Hctx as (Ho & Ea & El). pose proof (param_number _ _ _ _ Ha) as Hna. pose proof Hna as (limits & Hlim' & _).
  assert (Hsame : ∀ name v, number c11 name v → limits !! name = Some (Some v)) by (intros name v (q & Hq & Hv); congruence).
  eexists _, limits. split; [exact Hlim'|]. split.
  - unfold decode_package. pose proof (package_reads _ _ He []) as Hd. cbn [app length] in Hd. rewrite Hd. reflexivity.
  - cbn. done.
  - cbn. unfold its. rewrite map_map. apply map_id.
  - unfold sid in Hs. apply se_bind_ok in Hs as (o & ? & [= <- <-] & [Hs _]%lift_ok). exists s. split; [by destruct (c_service c); simplify_eq|].
    cbn. unfold its. apply Forall_map, Forall_true. done.
  - exists g_r, g_a. split_and!; [apply Hsame; eapply number_unsent; [by eapply param_number|done]|by apply Hsame|..]; cbn [fst items ordered_package build_package]; unfold its.
    + by rewrite (zsum_map_const refine_gas _ (or_none rg ((g_r - 1) / Z.of_nat (length payloads)))).
    + by rewrite (zsum_map_const accumulate_gas _ (or_none ag ((g_a - 1) / Z.of_nat (length payloads)))).
  - destruct (lookup_young _ _ _ _ Hl) as (age & recent & Hg & Hrc & Hy). exists age, recent.
    rewrite Ea, El. split_and!; [..|done]; apply Hsame; (eapply number_unsent; [eapply number_unsent; [done|exact U7]|exact U10]).
Qed.

Lemma submit_cases payloads c r c' : submit_items nodes blake2b256 payloads c = (r, c') →
  (∃ e, r = Raise e ∧ c_sent c' = c_sent c) ∨
  ∃ package ctx c1 cores, work_package_items nodes blake2b256 payloads c = (Ok (package, ctx), c1) ∧
    try_cores nodes blake2b256 (length cores) 0 cores package ctx [] c1 = (r, c').
Proof.
  intros H. unfold submit_items in H. unfold mbind at 1, SE_bind at 1 in H. pose proof (unsent_sid c) as (Es & _).
  destruct (sid c) as [[s|e] c0] eqn:E0; [|injection H as <- <-; left; eauto].
  assert (c0 = c) as -> by (unfold sid in E0; by apply se_bind_ok in E0 as (o & ? & [= _ <-] & [_ ->]%lift_ok)).
  pose proof (unsent_build payloads c) as (Eb & _). unfold mbind, SE_bind at 1, se_try in H.
  destruct (work_package_items nodes blake2b256 payloads c) as [[[package ctx]|e] c1].
  - right. exists package, ctx, c1, (default [] (c_cores c1)). done.
  - left. assert (Hc : c1 = c') by (destruct e; by injection H). subst c1. destruct e; injection H as <-; eauto.
Qed.

(** What a submission amounts to, whatever it raises *)
Lemma submission_told payloads c r c' : client_errors → submit_items nodes blake2b256 payloads c = (r, c') →
  ∃ package calls, c_sent c' = c_sent c ++ calls ∧ submit_outcome package r calls ∧
    (calls = [] ∨ ∃ p, decode_package package = Ok p ∧ map payload (items p) = payloads).
Proof.
  intros Hcl [(e & -> & Hs)|(package & ctx & c1 & cores & Hb & Ht)]%submit_cases.
  - exists [], []. rewrite app_nil_r. split; [done|]. split; [|by left]. split; [constructor|].
    destruct e; first [by apply Forall_nil|exists [], []; split_and!; [done|constructor|cbn; lia]].
  - eapply try_cores_outcome in Ht as (calls & Ec & Ho); [|done|constructor|constructor|done]. exists package, calls.
    pose proof (unsent_build payloads c) as (Es & _). rewrite Hb in Es. cbn in Es. rewrite Ec, Es. split_and!; [done..|right].
    destruct (build_spec _ _ _ _ _ Hb) as (p & limits & _ & Hp). exists p. split; [apply Hp|apply (bu_payloads _ _ _ _ _ _ Hp)].
Qed.
End building.

(** A submission reaches the chain at most once, and a refusal means it did not: in one [submit_items] every call
    carries one and the same package; ChainBusy and ChainUnsupported are raised only when the node refused every call made;
    a receipt names the core of the one call that was accepted, all before it refused; any other exception leaves at most
    one call whose outcome is unknown. *)
Theorem refusal_means_unsent nodes blake2b256 payloads c r c' :
  client_errors nodes → submit_items nodes blake2b256 payloads c = (r, c') →
  ∃ package calls, c_sent c' = c_sent c ++ calls ∧ submit_outcome package r calls.
Proof. intros Hcl (package & calls & Ec & Ho & _)%submission_told; eauto. Qed.

(** (C20) The package that is sent is one the chain can accept: it decodes to one item per payload, in order, for the
    configured service; its total gas is strictly within the refine and accumulate limits, and its lookup anchor not older
    than the age limit less the recent history, of the chain parameters the client holds at the end - and those are the ones
    it had cached before, or what the node answered to its parameters call during this submission.  The package is the last
    one sent, accepted on the core the receipt names, and the receipt has its hash and its anchor.  The client is assumed to
    raise only the errors its documentation names. *)
Theorem submitted_package_within_limits nodes blake2b256 payloads c rc c' :
  client_errors nodes → submit_items nodes blake2b256 payloads c = (Ok rc, c') →
  ∃ pre package p limits, c_sent c' = pre ++ [Sent (rc_core rc) package (Ok tt)] ∧ rc_package_hash rc = blake2b256 package ∧
    built payloads c package (context p) limits p ∧ rc_anchor rc = anchor (context p) ∧ rc_anchor_slot rc = anchor_slot (context p) ∧
    c_params c' = Some limits ∧
    (c_params c = Some limits ∨ ∃ n, (c_tick c ≤ n < c_tick c')%nat ∧ n_parameters (nodes n) = Ok (Some limits)).
Proof.
  intros Hcl [(e & ? & _)|(package & ctx & c1 & cores & Hb & Ht)]%submit_cases; [done|].
  assert (Hrc : rc_package_hash rc = blake2b256 package ∧ rc_anchor rc = anchor ctx ∧ rc_anchor_slot rc = anchor_slot ctx) by (by eapply try_cores_receipt).
  pose proof (rel_run _ _ _ _ _ (try_cores_params nodes blake2b256 cores package ctx (length cores) 0 []) Ht) as [Ep Tp].
  pose proof (rel_run _ _ _ _ _ (unsent_build nodes blake2b256 payloads) Hb) as (_ & _ & _ & _ & _ & _ & Ts & Hsrc).
  eapply try_cores_outcome in Ht as (calls & Ec & _ & pre & E & _); [|done|constructor|constructor|done].
  destruct (build_spec _ _ _ _ _ _ _ Hb) as (p & limits & Hlim & Hp). pose proof (bu_context _ _ _ _ _ _ Hp) as <-. cbn [app] in E. subst calls.
  exists (c_sent c1 ++ pre), package, p, limits. rewrite Ec, (assoc_L (++)), Ep, Hlim. destruct Hrc as (? & ? & ?). split_and!; try done.
  destruct (Hsrc limits Hlim) as [?|(n & ? & ?)]; [by left|right]. exists n. split; [lia|done].
Qed.

(** ** Some core accepts *)

(** Every call to a core other than [good] is refused, and one to [good] accepted. *)
Definition only_accepts (nodes : nat → node) (good : Z) : Prop := ∀ n package core,
  if decide (core = good) then n_submit (nodes n) core package = Ok tt
  else ∃ code, n_submit (nodes n) core package = Raise (Jip2Error code) ∧ code ≠ Some METHOD_NOT_FOUND.

Lemma try_cores_finds nodes blake2b256 good cores package ctx : only_accepts nodes good →
  ∀ fuel k refused c j, (j < fuel)%nat → cores !! ((c_next_core c + k + j) mod length cores)%nat = Some good →
  ∃ rc c', try_cores nodes blake2b256 fuel k cores package ctx refused c = (Ok rc, c') ∧ rc_core rc = good.
Proof.
  intros Hn. induction fuel as [|fuel IH]; intros k refused c j Hj Hc; [lia|]. cbn [try_cores]. unfold mbind, SE_bind at 1. cbn [se_get].
  set (core := default 0 _). specialize (Hn (c_tick c) package core) as Hcore.
  assert (Hs : send nodes core package c = (Ok (n_submit (nodes (c_tick c)) core package), add_sent (Sent core package (n_submit (nodes (c_tick c)) core package)) (tick c))) by reflexivity.
  unfold SE_bind at 1. rewrite Hs. clear Hs. destruct (decide (core = good)) as [E|E].
  - rewrite Hcore. cbv beta iota zeta. eexists _, _. split; [reflexivity|done].
  - destruct Hcore as (code & -> & Hcode). destruct j as [|j].
    { destruct E. unfold core. rewrite Nat.add_0_r in Hc. by rewrite Hc. }
    destruct (IH (S k) (refused ++ [core]) (add_sent (Sent core package (Raise (Jip2Error code))) (tick c)) j) as (rc & c' & H & Hrc); [lia| |].
    { cbn. rewrite <- Hc. do 2 f_equal. lia. }
    exists rc, c'. split; [|done]. rewrite <- H. unfold METHOD_NOT_FOUND in Hcode. repeat case_match; simplify_eq; done.
Qed.

Lemma round_robin nc i n : (i < n)%nat → ∃ j, (j < n)%nat ∧ ((nc + j) mod n = i)%nat.
Proof.
  intros Hi. exists ((i + (n - nc mod n)) mod n)%nat. split; [apply Nat.mod_upper_bound; lia|].
  rewrite Nat.Div0.add_mod_idemp_r. pose proof (Nat.div_mod_eq nc n). pose proof (Nat.mod_upper_bound nc n).
  replace (nc + (i + (n - nc mod n)))%nat with (i + (nc / n + 1) * n)%nat by nia. rewrite Nat.Div0.mod_add. by apply Nat.mod_small.
Qed.

(** (C21) A submission does not give up while a core would take it: if the package can be built and one of the backend's
    cores accepts packages, submission succeeds on that core, wherever the round robin stands and whatever the others
    refuse. *)
Theorem submission_finds_core nodes blake2b256 payloads c package ctx c1 cores good :
  work_package_items nodes blake2b256 payloads c = (Ok (package, ctx), c1) → c_cores c1 = Some cores → good ∈ cores →
  only_accepts nodes good →
  ∃ rc c', submit_items nodes blake2b256 payloads c = (Ok rc, c') ∧ rc_core rc = good.
Proof.
  intros Hb Hc (i & Hi)%list_elem_of_lookup Hn. destruct (round_robin (c_next_core c1) i (length cores)) as (j & Hj & Ej); [by eapply lookup_lt_Some|].
  destruct (try_cores_finds nodes blake2b256 good cores package ctx Hn (length cores) 0 [] c1 j Hj) as (rc & c' & H & Hrc); [by rewrite Nat.add_0_r, Ej|].
  exists rc, c'. split; [|done]. unfold submit_items, mbind, SE_bind at 1.
  assert (sid c = (Ok (default 0 (c_service c)), c)) as ->.
  { unfold work_package_items in Hb. apply se_bind_ok in Hb as (s & c0 & Hs & _). unfold sid in *. apply se_bind_ok in Hs as (o & ? & [= <- <-] & [Hs _]%lift_ok).
    unfold mbind, SE_bind, se_lift. cbn. by destruct (c_service c). }
  unfold SE_bind at 1, se_try. rewrite Hb. cbn [se_lift se_get]. unfold SE_bind. cbn. by rewrite Hc.
Qed.

(** ** A concrete node *)
Module SubmitSample.
Definition at_ (s : Z) : Block := {| slot := s; hash := repeat s 32 |}.
Definition parameters : gmap string (option Z) :=
  {[ "max_work_items" := Some 4; "core_count" := Some 2; "max_lookup_anchor_age" := Some 50; "recent_block_count" := Some 8;
     "max_refine_gas" := Some 1000; "max_accumulate_gas" := Some 100 ]}.
Definition record : bytes := 0 :: repeat 5 32 ++ le_bytes 8 1000 ++ le_bytes 8 10 ++ repeat 0 40.
(** Core 0 refuses, core 1 accepts. *)
Definition answers (n : nat) : node :=
  Node (Ok (Some (at_ 30))) (Ok (Some (at_ 20))) (λ h, Ok (Some (at_ (default 0 (head h) - 1)))) (λ _, Ok (repeat 6 32)) (λ _, Ok (repeat 7 32))
       (λ _ _ _, Ok None) (λ _ _, Ok (Some record)) (λ _ _ _, Ok (Some [])) (λ _, Ok []) (Ok (Some parameters))
       (λ core _, if decide (core = 1) then Ok tt else Raise (Jip2Error (Some 2)))
       (λ _ _ _ _, Ok None) (λ _ _, Ok tt) (λ _ _ _, Ok None).
Definition start : jip2 := jip2_init (Some 9) (Some {| host := 0; auth_code := repeat 1 32; ChainSpec.config := []; token := [] |}) None [] None None.
Definition outcome_ : result submit_receipt * jip2 := submit_items answers id [[1; 2]; [3]] start.
Definition receipt_ : submit_receipt := Receipt (default [] (s_package <$> last (c_sent outcome_.2))) 1 (repeat 29 32) 29 (repeat 19 32) 19 [0].
End SubmitSample.

Lemma refusal_means_unsent_witness : ∃ package calls, c_sent SubmitSample.outcome_.2 = calls ∧ submit_outcome package SubmitSample.outcome_.1 calls ∧ length calls = 2%nat.
Proof.
  destruct (refusal_means_unsent SubmitSample.answers id [[1; 2]; [3]] SubmitSample.start SubmitSample.outcome_.1 SubmitSample.outcome_.2) as (package & calls & Ec & Ho).
  - intros n core p e. cbn. case_match; [discriminate|]. intros [= <-]. reflexivity.
  - vm_compute. reflexivity.
  - exists package, calls. split; [exact Ec|]. split; [exact Ho|]. apply (f_equal length) in Ec. vm_compute in Ec. symmetry. exact Ec.
Defined.

Lemma submitted_package_within_limits_witness : ∃ package p,
  built [[1; 2]; [3]] SubmitSample.start package (context p) SubmitSample.parameters p ∧
  c_params SubmitSample.outcome_.2 = Some SubmitSample.parameters.
Proof.
  destruct (submitted_package_within_limits SubmitSample.answers id [[1; 2]; [3]] SubmitSample.start SubmitSample.receipt_ SubmitSample.outcome_.2)
    as (pre & package & p & limits & _ & _ & Hb & _ & _ & Hl & [?|(n & _ & Hn)]).
  - intros n core q e. cbn. case_match; [discriminate|]. intros [= <-]. reflexivity.
  - vm_compute. reflexivity.
  - discriminate.
  - injection Hn as <-. exists package, p. split; [exact Hb|exact Hl].
Defined.

Lemma submission_finds_core_witness : ∃ rc c', submit_items SubmitSample.answers id [[1; 2]; [3]] SubmitSample.start = (Ok rc, c') ∧ rc_core rc = 1.
Proof.
  destruct (work_package_items SubmitSample.answers id [[1; 2]; [3]] SubmitSample.start) as [[[package ctx]|e] c1] eqn:E.
  - apply (submission_finds_core SubmitSample.answers id [[1; 2]; [3]] SubmitSample.start package ctx c1 [0; 1] 1 E).
    + apply (f_equal (λ x, c_cores x.2)) in E. vm_compute in E. symmetry. exact E.
    + apply list_elem_of_further, list_elem_of_here.
    + intros n q core. cbn. case_match; [reflexivity|]. eexists. split; [reflexivity|discriminate].
  - apply (f_equal (λ x, is_ok x.1)) in E. vm_compute in E. discriminate.
Defined.
