(* ===== verification/Deploy.v ===== *)
(** * Runtime deployment

    src/offchain/deploy.py: the Bootstrap service's CreateService instruction, and the [Deployer], which finds or creates the
    service that runs a code blob, provides the code and waits until packages can use it.  It works through two [Jip2Chain]
    objects (Submit.v) that share one client: the exchange's and one for the Bootstrap service.

    The clock is the time the RPC calls so far have taken and the time slept; durations are integers.  The variables of
    [create] and the cell of [provide] live in the state, because they keep their values when a call raises.  Of the state
    file only what is read back is kept.  Log lines are left out, with [describe_code], which only they use. *)
From S2P Require Import Prelude Bytes WorkPackage ChainSpec Submit.

Definition BOOTSTRAP_ID : Z := 0.
Definition MIN_PUBLIC_ID : Z := 65536.
Definition SALT_LEN : nat := 32.
Definition MEMO_SIZE : Z := 128.
Definition DEFAULT_MIN_GAS : Z := 10000.
Definition DEFAULT_ENDOWMENT : Z := 1000000000.
Definition READY_GRACE_SLOTS : Z := 6.
Definition RESEND_PREIMAGE_SLOTS : Z := 3.

(** ** The Bootstrap instruction *)
Record CreateService := {
  cs_code_hash : bytes; code_len : Z; cs_min_item_gas : Z; cs_min_memo_gas : Z; endowment : Z; memo : bytes;
  registration : option bytes; deposit_offset : Z; cs_service_id : option Z
}.
Definition VARIANT : Z := 0.

(** [_option] *)
Definition enc_option {A} (v : option A) (encode : A → result bytes) : result bytes :=
  match v with None => Ok [0] | Some x => e ← encode x; Ok (1 :: e) end.

(** [CreateService.encode] *)
Definition encode_create (memo_size : Z) (c : CreateService) : result bytes :=
  _ ← guard_or (length (cs_code_hash c) =? 32)%nat (ValueError "code hash");
  _ ← guard_or (Z.of_nat (length (memo c)) <=? memo_size) (ValueError "memo");
  len ← to_bytes 8 (code_len c);
  ig ← to_bytes 8 (cs_min_item_gas c);
  mg ← to_bytes 8 (cs_min_memo_gas c);
  en ← to_bytes 8 (endowment c);
  reg ← enc_option (registration c) var;
  off ← to_bytes 8 (deposit_offset c);
  id ← enc_option (cs_service_id c) (to_bytes 4);
  Ok (VARIANT :: cs_code_hash c ++ len ++ ig ++ mg ++ en ++ (memo c ++ repeat 0 (Z.to_nat memo_size - length (memo c))) ++ reg ++ off ++ id).

(** [bootstrap_payload] *)
Definition bootstrap_payload (instructions : list bytes) (salt : bytes) : result bytes :=
  _ ← guard_or (length salt =? SALT_LEN)%nat (ValueError "salt");
  n ← enc_nat (Z.of_nat (length instructions));
  Ok (n ++ concat instructions ++ salt).

(** [split_code]: the metadata and the code of a blob *)
Definition split_code (blob : bytes) : result (bytes * bytes) :=
  '(n, i) ← dec_nat blob 0%nat;
  _ ← guard_or (Z.of_nat i + n <=? Z.of_nat (length blob)) (ValueError "code blob: metadata runs past the end");
  Ok (slice blob i (i + Z.to_nat n), drop (i + Z.to_nat n) blob).

(** ** The deployer *)

(** What the state file holds, when it can be read. *)
Record saved := Saved { sf_service_id : Z; sf_code_hash : option bytes }.
Record Deployment := { dp_service_id : Z; dp_code_hash : bytes; dp_created : Z; dp_reused : bool }.

Record deployer := Deployer {
  d_chain : jip2;
  d_boot : jip2;                          (* [boot] of [create] *)
  d_receipt : option submit_receipt;      (* ... its [receipt] *)
  d_ready : option Z;                     (* ... its [ready_slot] *)
  d_sent_at : option Z;                   (* [sent_at] of [provide] *)
  d_handed : list (Z * bytes);            (* the submitPreimage calls made *)
  d_slept : Z;
  d_file : option saved
}.
Definition set_chain c (s : deployer) := Deployer c (d_boot s) (d_receipt s) (d_ready s) (d_sent_at s) (d_handed s) (d_slept s) (d_file s).
Definition set_boot b (s : deployer) := Deployer (d_chain s) b (d_receipt s) (d_ready s) (d_sent_at s) (d_handed s) (d_slept s) (d_file s).
Definition set_receipt r (s : deployer) := Deployer (d_chain s) (d_boot s) r (d_ready s) (d_sent_at s) (d_handed s) (d_slept s) (d_file s).
Definition set_ready r (s : deployer) := Deployer (d_chain s) (d_boot s) (d_receipt s) r (d_sent_at s) (d_handed s) (d_slept s) (d_file s).
Definition set_sent_at t (s : deployer) := Deployer (d_chain s) (d_boot s) (d_receipt s) (d_ready s) t (d_handed s) (d_slept s) (d_file s).
Definition add_handed x (s : deployer) := Deployer (d_chain s) (d_boot s) (d_receipt s) (d_ready s) (d_sent_at s) (d_handed s ++ [x]) (d_slept s) (d_file s).
Definition add_slept t (s : deployer) := Deployer (d_chain s) (d_boot s) (d_receipt s) (d_ready s) (d_sent_at s) (d_handed s) (d_slept s + t) (d_file s).
Definition set_file f (s : deployer) := Deployer (d_chain s) (d_boot s) (d_receipt s) (d_ready s) (d_sent_at s) (d_handed s) (d_slept s) f.

Definition set_service i (c : jip2) : jip2 :=
  Jip2 i (c_authorizer c) (c_spec c) (c_cores c) (c_refine_gas c) (c_accumulate_gas c) (c_params c) (c_auth_checked c) (c_next_core c) (c_sent c) (c_tick c).
(** The client is one object: what was sent and the node's next view are those of whoever called last. *)
Definition share (c b : jip2) : jip2 :=
  Jip2 (c_service b) (c_authorizer b) (c_spec b) (c_cores b) (c_refine_gas b) (c_accumulate_gas b) (c_params b) (c_auth_checked b) (c_next_core b) (c_sent c) (c_tick c).

Notation D := (SE deployer).
Definition on_chain {A} (m : J A) : D A := λ s, let '(r, c) := m (d_chain s) in (r, set_chain c s).
Definition on_boot {A} (m : J A) : D A := λ s,
  let '(r, b) := m (share (d_chain s) (d_boot s)) in (r, set_boot b (set_chain (share b (d_chain s)) s)).

(** What a pass of [create]'s loop came to: [return], [continue], or on to the deadline check. *)
Inductive pass_end := Landed (sid : Z) | Again | Waits.

(** A step that follows a loop. *)
Definition andthen {A B} (x : option (result A * deployer)) (k : A → deployer → option (result B * deployer)) : option (result B * deployer) :=
  match x with
  | Some (Ok a, s) => k a s
  | Some (Raise e, s) => Some (Raise e, s)
  | None => None
  end.

Section deployer.
Context (nodes : nat → node) (blake2b256 : bytes → bytes) (elapsed : nat → Z) (salts : nat → bytes).
Context (code : bytes) (bootstrap_id : Z) (state_file : bool) (poll : Z).

Definition our_hash : bytes := blake2b256 code.

Definition now (s : deployer) : Z := elapsed (c_tick (d_chain s)) + d_slept s.
Definition dclock : D Z := λ s, (Ok (now s), set_chain (tick (d_chain s)) s).
Definition dsleep : D unit := se_put (add_slept poll).
(** [_left() <= 0], and the sleep otherwise *)
Definition sleep_or_stop (deadline : Z) (what : string) : D unit :=
  t ← dclock;
  if deadline - t <=? 0 then se_lift (Raise (DeployError what)) else dsleep.

(** [_record], [_runs_our_code] *)
Definition drecord (sid : Z) : D (option ServiceInfo) := on_chain (service_record nodes sid AtBest).
Definition runs_our_code (i : option ServiceInfo) : bool := match i with Some i => bool_decide (si_code_hash i = our_hash) | None => false end.

(** [_wait] *)
Definition wait_turn (deadline : Z) (what : string) (check : D bool) (_ : unit) : D (unit + unit) :=
  r ← se_try check;
  match r with
  | Ok true => mret (inl tt)
  | Ok false => _ ← sleep_or_stop deadline what; mret (inr tt)
  | Raise e => if is_chain_error e then _ ← sleep_or_stop deadline what; mret (inr tt) else se_lift (Raise e)
  end.

(** [existing] *)
Fixpoint running (ss : list Z) : D (list Z) :=
  match ss with
  | [] => mret []
  | x :: rest => i ← drecord x; l ← running rest; mret (if runs_our_code i then x :: l else l)
  end.
Definition existing : D (option Z) :=
  st ← (if state_file then se_get d_file else mret None);
  hit ← match st with
        | Some (Saved sid h) =>
            if bool_decide (h = Some our_hash) then i ← drecord sid; mret (if runs_our_code i then Some sid else None) else mret None
        | None => mret None
        end;
  match hit with
  | Some sid => mret (Some sid)
  | None => ss ← on_chain (services nodes AtBest); found ← running ss; mret (head found)
  end.

(** [free_id]: the ids from [sid] on, [fuel] of them *)
Fixpoint first_free (fuel : nat) (sid : Z) (listed : list Z) : D Z :=
  match fuel with
  | O => se_lift (Raise (DeployError "no free service id"))
  | S fuel' =>
      if bool_decide (sid ∈ listed) then first_free fuel' (sid + 1) listed
      else i ← drecord sid; match i with None => mret sid | Some _ => first_free fuel' (sid + 1) listed end
  end.
Definition free_id (start : Z) : D Z :=
  listed ← on_chain (services nodes AtBest);
  first_free (Z.to_nat (MIN_PUBLIC_ID - Z.max start 1)) (Z.max start 1) listed.

(** [_created] *)
Fixpoint scan_created (since : Z) (ss : list Z) : D (option Z) :=
  match ss with
  | [] => mret None
  | x :: rest =>
      i ← drecord x;
      if runs_our_code i && match i with Some i => (parent i =? bootstrap_id) && (since <=? created i) | None => false end
      then mret (Some x) else scan_created since rest
  end.
Definition created_service (wanted since : Z) (scan : bool) : D (option Z) :=
  i ← drecord wanted;
  if runs_our_code i then mret (Some wanted)
  else if match i with Some i => since <=? created i | None => false end then se_lift (Raise (DeployError "taken meanwhile by other code"))
  else if scan then ss ← on_chain (services nodes AtBest); scan_created since (merge_sort Z.le ss)
  else mret None.

(** [_check_bootstrap] *)
Definition check_bootstrap : D unit :=
  r ← se_try (i ← drecord bootstrap_id;
              _ ← match i with Some i => on_chain (preimage nodes bootstrap_id (si_code_hash i) AtBest) | None => mret None end;
              mret i);
  se_lift (match r with
           | Raise e => if is_chain_error e then Ok tt else Raise e
           | Ok None => Raise (DeployError "no Bootstrap service on this chain")
           | Ok (Some _) => Ok tt
           end).

(** [create]'s [send], with the assignment of its result *)
Definition send_create (instr : CreateService) (memo_size : Z) : D unit :=
  r ← se_try (i ← se_lift (encode_create memo_size instr);
              t ← se_get (λ s, c_tick (d_chain s));
              p ← se_lift (bootstrap_payload [i] (salts t));
              on_boot (submit nodes blake2b256 p));
  match r with
  | Ok rc => se_put (set_receipt (Some rc))
  | Raise (ChainBusy _) => se_put (set_receipt None)
  | Raise e => se_lift (Raise e)
  end.

(** The [try] of [create]'s loop, when the service is not there: [true] for [continue] *)
Definition watch_package (instr : CreateService) (memo_size expiry wanted since : Z) : D bool :=
  rc ← se_get d_receipt;
  match rc with
  | None => _ ← send_create instr memo_size; mret false
  | Some rc =>
      st ← se_try (on_boot (package_status nodes rc AtBest));
      st ← se_lift (match st with Ok st => Ok st | Raise e => if is_chain_error e then Ok (Some ("Unknown"%string, None)) else Raise e end);
      let kind := fst <$> st in
      expired ← (if bool_decide (kind = None) || bool_decide (kind = Some "Unknown"%string)
                 then h ← on_chain (best_head nodes); mret (rc_anchor_slot rc + expiry <? slot h) else mret false);
      landed ← (if (expired : bool) then created_service wanted since true else mret None);
      match landed with
      | Some _ => mret true
      | None =>
          if bool_decide (kind = Some "Failed"%string) || expired then _ ← send_create instr memo_size; _ ← se_put (set_ready None); mret false
          else if bool_decide (kind = Some "Ready"%string) then
            rd ← se_get d_ready;
            z ← (if or_none rd 0 =? 0 then se_lift (from_option Ok (Raise (KeyError "ready_in")) (st ≫= snd)) else mret (or_none rd 0));
            _ ← se_put (set_ready (Some z));
            h ← on_chain (best_head nodes);
            _ ← se_lift (guard_or (slot h <? z + READY_GRACE_SLOTS) (DeployError "the Bootstrap service refused the create"));
            mret false
          else mret false
      end
  end.
(** ... and whole *)
Definition create_pass (instr : CreateService) (memo_size expiry wanted since : Z) : D pass_end :=
  scan ← se_get (λ s, match d_ready s with Some _ => true | None => false end);
  found ← created_service wanted since scan;
  match found with
  | Some sid => mret (Landed sid)
  | None => again ← watch_package instr memo_size expiry wanted since; mret (if (again : bool) then Again else Waits)
  end.
Definition create_turn (instr : CreateService) (memo_size expiry wanted since deadline : Z) (_ : unit) : D (Z + unit) :=
  r ← se_try (create_pass instr memo_size expiry wanted since);
  match r with
  | Ok (Landed sid) => mret (inl sid)
  | Ok Again => mret (inr tt)
  | Ok Waits => _ ← sleep_or_stop deadline "timed out waiting for the create"; mret (inr tt)
  | Raise e => if is_chain_error e then _ ← sleep_or_stop deadline "timed out waiting for the create"; mret (inr tt) else se_lift (Raise e)
  end.

(** [create], up to its loop: the instruction, the memo size, the expiry and the slot it starts at *)
Definition create_start (wanted endow item_gas memo_gas : Z) : D (CreateService * Z * Z * Z) :=
  _ ← se_put (λ s, set_boot (for_service bootstrap_id (d_chain s)) s);
  _ ← check_bootstrap;
  let instr := {| cs_code_hash := our_hash; code_len := Z.of_nat (length code); cs_min_item_gas := item_gas; cs_min_memo_gas := memo_gas;
                  endowment := endow; memo := []; registration := None; deposit_offset := 0; cs_service_id := Some wanted |} in
  memo_size ← on_chain (parameter nodes "transfer_memo_size" MEMO_SIZE);
  recent ← on_chain (parameter nodes "recent_block_count" 8);
  h ← on_chain (best_head nodes);
  _ ← send_create instr memo_size;
  _ ← se_put (set_ready None);
  mret (instr, memo_size, recent + READY_GRACE_SLOTS, slot h).
Definition create (fuel : nat) (deadline wanted endow item_gas memo_gas : Z) (s : deployer) : option (result Z * deployer) :=
  andthen (Some (create_start wanted endow item_gas memo_gas s)) (λ '(instr, memo_size, expiry, since),
    iterate fuel (create_turn instr memo_size expiry wanted since deadline) tt).

(** [provide] *)
Definition provided (sid : Z) : D bool :=
  at_ ← on_chain (best_head nodes);
  p ← on_chain (preimage nodes sid our_hash (AtBlock at_));
  match p with
  | Some _ => mret true
  | None =>
      req ← on_chain (preimage_request nodes sid our_hash (Z.of_nat (length code)) (AtBlock at_));
      match req with
      | None => se_lift (Raise (DeployError "the service has not requested its code"))
      | Some (_ :: _) => se_lift (Raise (DeployError "the code request is not outstanding"))
      | Some [] =>
          sent ← se_get d_sent_at;
          if match sent with None => true | Some t => t + RESEND_PREIMAGE_SLOTS <=? slot at_ end then
            _ ← se_put (add_handed (sid, code));
            _ ← on_chain (provide nodes sid code);
            _ ← se_put (set_sent_at (Some (slot at_)));
            mret false
          else mret false
      end
  end.
Definition provide_code (fuel : nat) (deadline sid : Z) (s : deployer) : option (result unit * deployer) :=
  iterate fuel (wait_turn deadline "the code to be provided" (provided sid)) tt (set_sent_at None s).

(** [wait_usable] *)
Definition at_lookup_anchor (sid : Z) : D bool :=
  a ← on_chain (default_anchor nodes);
  l ← on_chain (default_lookup_anchor nodes a);
  p ← on_chain (preimage nodes sid our_hash (AtHash (hash l)));
  mret (match p with Some _ => true | None => false end).
Definition wait_usable (fuel : nat) (deadline sid : Z) (s : deployer) : option (result unit * deployer) :=
  iterate fuel (wait_turn deadline "the code at the lookup anchor" (at_lookup_anchor sid)) tt s.

(** [run]: which service to reuse, if any *)
Definition choose (asked : option Z) (fresh : bool) : D (option Z) :=
  match asked with
  | Some i =>
      _ ← se_lift (guard_or ((0 <? i) && (i <? MIN_PUBLIC_ID)) (DeployError "service id out of range"));
      info ← drecord i;
      _ ← se_lift (guard_or (negb (match info with Some _ => fresh || negb (runs_our_code info) | None => false end)) (DeployError "service id is taken"));
      mret (match info with Some _ => Some i | None => None end)
  | None => if fresh then mret None else existing
  end.
(** ... and its end *)
Definition finish_deploy (sid : Z) (reused : bool) : D Deployment :=
  info ← drecord sid;
  match info with
  | Some i =>
      if runs_our_code info then
        _ ← (if state_file then se_put (set_file (Some (Saved sid (Some our_hash)))) else mret tt);
        _ ← se_put (λ s, set_chain (set_service (Some sid) (d_chain s)) s);
        mret {| dp_service_id := sid; dp_code_hash := our_hash; dp_created := created i; dp_reused := reused |}
      else se_lift (Raise (DeployError "the service changed code while deploying"))
  | None => se_lift (Raise (DeployError "the service vanished while deploying"))
  end.
(** [Deployer.run]: [None] when a loop runs out of fuel *)
Definition run (fuel : nat) (asked : option Z) (fresh : bool) (endow item_gas memo_gas timeout : Z) (s : deployer) : option (result Deployment * deployer) :=
  andthen (Some ((t ← dclock; x ← choose asked fresh; mret (t + timeout, x)) s)) (λ '(deadline, x) s1,
  andthen (match x with
           | Some sid => Some (Ok sid, s1)
           | None =>
               andthen (Some ((match asked with Some i => mret i | None => free_id 1 end) s1)) (λ i,
                 create fuel deadline i endow item_gas memo_gas)
           end) (λ sid s2,
  andthen (provide_code fuel deadline sid s2) (λ _ s3,
  andthen (wait_usable fuel deadline sid s3) (λ _ s4,
  Some (finish_deploy sid (match x with Some _ => true | None => false end) s4))))).

(** [deploy] *)
Definition deploy (fuel : nat) (asked : option Z) (fresh : bool) (endow item_gas memo_gas timeout : Z) (s : deployer) : option (result Deployment * deployer) :=
  if submits (d_chain s) then run fuel asked fresh endow item_gas memo_gas timeout s
  else Some (Raise (DeployError "runtime deploy needs the jip2 backend with an authorizer"), s).
End deployer.

(** ** What each step leaves alone *)

(** Time does not run backwards, for either object. *)
Definition ticking (c c' : jip2) : Prop := (c_tick c ≤ c_tick c')%nat.
#[export] Instance ticking_tr : Transition ticking.
Proof. split; unfold ticking; lia. Qed.

Section ticks.
Context (nodes : nat → node) (blake2b256 : bytes → bytes).
Lemma ticking_rpc {A} (f : node → result A) : rel ticking (rpc nodes f).
Proof. intros c. unfold ticking. cbn. lia. Qed.
Lemma ticking_call {A} w (f : node → result A) : rel ticking (Submit.call nodes w f).
Proof. unfold Submit.call. apply rel_bind; [apply _|apply rel_try, ticking_rpc|intros; apply rel_lift, _]. Qed.
Lemma ticking_put f : (∀ c, c_tick (f c) = c_tick c) → rel ticking (se_put f).
Proof. intros H. apply rel_put. intros c. unfold ticking. rewrite H. lia. Qed.
#[local] Hint Resolve ticking_rpc ticking_call : rel.
Ltac ticks := repeat first [solve [eauto 2 with rel] | apply rel_bind; [apply _| |intros ?] | apply rel_try | case_match
  | apply rel_ret, _ | apply rel_lift, _ | apply rel_get, _ | apply ticking_put; reflexivity].
Lemma ticking_head w f : rel ticking (block_of nodes w f).
Proof. unfold block_of. ticks. Qed.
#[local] Hint Resolve ticking_head : rel.
Lemma ticking_at a : rel ticking (at_hash nodes a).
Proof. unfold at_hash, best_head, finalized_head. ticks. Qed.
#[local] Hint Resolve ticking_at : rel.
Lemma ticking_record s a : rel ticking (service_record nodes s a).
Proof. unfold service_record. ticks. Qed.
Lemma ticking_services a : rel ticking (services nodes a).
Proof. unfold services. ticks. Qed.
Lemma ticking_preimage s p a : rel ticking (preimage nodes s p a).
Proof. unfold preimage. ticks. Qed.
Lemma ticking_request s p n a : rel ticking (preimage_request nodes s p n a).
Proof. unfold preimage_request. ticks. Qed.
Lemma ticking_status r a : rel ticking (package_status nodes r a).
Proof. unfold package_status. ticks. Qed.
Lemma ticking_load : rel ticking (load_params nodes).
Proof. unfold load_params. ticks. Qed.
#[local] Hint Resolve ticking_record ticking_load : rel.
Lemma ticking_param n : rel ticking (param nodes n).
Proof. unfold param. ticks. Qed.
#[local] Hint Resolve ticking_param : rel.
Lemma ticking_parameter n d : rel ticking (parameter nodes n d).
Proof. unfold parameter. ticks. Qed.
Lemma ticking_parent b : rel ticking (parent_of nodes b).
Proof. unfold parent_of. ticks. Qed.
#[local] Hint Resolve ticking_parent ticking_parameter : rel.
Lemma ticking_anchor : rel ticking (default_anchor nodes).
Proof. unfold default_anchor, best_head. ticks. Qed.
Lemma ticking_lookup a : rel ticking (default_lookup_anchor nodes a).
Proof. unfold default_lookup_anchor, finalized_head. ticks. Qed.
#[local] Hint Resolve ticking_anchor ticking_lookup : rel.
Lemma ticking_cores fuel k cores p ctx refused : rel ticking (try_cores nodes blake2b256 fuel k cores p ctx refused).
Proof.
  revert k refused. induction fuel as [|fuel IH]; intros k refused; cbn [try_cores]; [apply rel_lift, _|]. unfold send.
  repeat first [solve [eauto 2 with rel] | apply IH | apply rel_bind; [apply _| |intros ?] | apply rel_try | case_match
  | apply rel_ret, _ | apply rel_lift, _ | apply rel_get, _ | apply ticking_put; reflexivity].
Qed.
#[local] Hint Resolve ticking_cores : rel.
Lemma ticking_submit p : rel ticking (submit nodes blake2b256 p).
Proof.
  unfold submit, submit_items, work_package_items, sid, max_items, resolve_authorizer, check_authorizer, refine_context, service_info. ticks.
Qed.
End ticks.

(** [sends]: may packages be sent; [who]: the service that may be handed the code. *)
Definition frame (code : bytes) (sends : bool) (who : option Z) (s s' : deployer) : Prop :=
  ticking (d_chain s) (d_chain s') ∧ d_slept s ≤ d_slept s' ∧ c_service (d_chain s') = c_service (d_chain s) ∧ d_file s' = d_file s ∧
  (sends = false → c_sent (d_chain s') = c_sent (d_chain s)) ∧
  ∃ l, d_handed s' = d_handed s ++ l ∧ Forall (λ x, Some x.1 = who ∧ x.2 = code) l.
#[export] Instance frame_tr code sends who : Transition (frame code sends who).
Proof.
  split.
  - intros s. split_and!; [apply tr_refl|lia|done..|]. exists []. by rewrite app_nil_r.
  - intros a b c (Ht & Hs & E1 & E2 & E3 & l & E4 & Hl) (Ht' & Hs' & E1' & E2' & E3' & l' & E4' & Hl').
    split_and!; [by eapply tr_trans|lia|by rewrite E1'|by rewrite E2'|intros E; by rewrite E3', E3 by done|].
    exists (l ++ l'). rewrite E4', E4, (assoc_L (++)). split; [done|by apply Forall_app].
Qed.
(** A step that keeps both logs and the file. *)
Lemma frame_still code sends who s s' : ticking (d_chain s) (d_chain s') → d_slept s ≤ d_slept s' → c_service (d_chain s') = c_service (d_chain s) →
  d_file s' = d_file s → (sends = false → c_sent (d_chain s') = c_sent (d_chain s)) → d_handed s' = d_handed s → frame code sends who s s'.
Proof. intros. split_and!; [done..|]. exists []. by rewrite app_nil_r. Qed.
Lemma frame_weaken code who s s' : frame code false who s s' → frame code true who s s'.
Proof. intros (?&?&?&?&?&?). by split_and!. Qed.

Section frames.
Context (nodes : nat → node) (blake2b256 : bytes → bytes) (elapsed : nat → Z) (salts : nat → bytes).
Context (code : bytes) (bootstrap_id : Z) (state_file : bool) (poll : Z) (Hpoll : 0 ≤ poll).
Context (sends : bool) (who : option Z).
Notation R := (frame code sends who).
Local Notation unsent := (unsent nodes).

Lemma frame_chain {A} (m : J A) : rel ticking m → rel unsent m → rel R (on_chain m).
Proof using.
  intros Ht Hu s. unfold on_chain. specialize (Ht (d_chain s)). specialize (Hu (d_chain s)). destruct (m (d_chain s)) as [r c].
  destruct Hu as (E1 & _ & E2 & _). by apply frame_still.
Qed.
Lemma frame_boot {A} (m : J A) : rel ticking m → (sends = false → rel unsent m) → rel R (on_boot m).
Proof using.
  intros Ht Hu s. unfold on_boot. specialize (Ht (share (d_chain s) (d_boot s))).
  assert (sends = false → unsent (share (d_chain s) (d_boot s)) (m (share (d_chain s) (d_boot s))).2) as Hu' by (intros E; by apply Hu).
  destruct (m _) as [r b]. apply frame_still; try done. intros E. by destruct (Hu' E).
Qed.
Lemma frame_put f : (∀ s, d_chain (f s) = d_chain s ∧ d_slept (f s) = d_slept s ∧ d_file (f s) = d_file s ∧ d_handed (f s) = d_handed s) → rel R (se_put f).
Proof using. intros H. apply rel_put. intros s. destruct (H s) as (E1 & E2 & E3 & E4). apply frame_still; rewrite ?E1, ?E2, ?E3, ?E4; try done. apply tr_refl. Qed.
Lemma frame_clock : rel R (dclock elapsed).
Proof using. intros s. apply frame_still; try done. unfold ticking. cbn. lia. Qed.
Lemma frame_sleep : rel R (dsleep poll).
Proof using Hpoll. intros s. apply frame_still; try done; [apply tr_refl|cbn; lia]. Qed.
#[local] Hint Resolve frame_clock frame_sleep : rel.
Lemma frame_stop deadline what : rel R (sleep_or_stop elapsed poll deadline what).
Proof using Hpoll. unfold sleep_or_stop. rel_step. Qed.

Lemma unsent_record x a : rel unsent (service_record nodes x a).
Proof using.
  unfold service_record. apply rel_bind; [apply _|apply unsent_at|intros h]. apply rel_bind; [apply _|apply unsent_call|intros [d|]]; rel_step.
Qed.
Lemma unsent_hash_call {A} w (f : bytes → node → result A) a : rel unsent (h ← at_hash nodes a; Submit.call nodes w (f h)).
Proof using. apply rel_bind; [apply _|apply unsent_at|intros; apply unsent_call]. Qed.
Lemma unsent_parameter n d : rel unsent (parameter nodes n d).
Proof using. unfold parameter. apply rel_bind; [apply _|apply unsent_load|intros]. case_match; [apply unsent_param|apply rel_ret, _]. Qed.

Lemma frame_record x : rel R (drecord nodes x).
Proof using. apply frame_chain; [apply ticking_record|apply unsent_record]. Qed.
Lemma frame_services : rel R (on_chain (services nodes AtBest)).
Proof using. apply frame_chain; [apply ticking_services|apply unsent_hash_call]. Qed.
Lemma frame_preimage x p a : rel R (on_chain (preimage nodes x p a)).
Proof using. apply frame_chain; [apply ticking_preimage|apply unsent_hash_call]. Qed.
Lemma frame_request x p n a : rel R (on_chain (preimage_request nodes x p n a)).
Proof using. apply frame_chain; [apply ticking_request|apply unsent_hash_call]. Qed.
Lemma frame_head : rel R (on_chain (best_head nodes)).
Proof using. apply frame_chain; [apply ticking_head|apply unsent_head]. Qed.
Lemma frame_parameter n d : rel R (on_chain (parameter nodes n d)).
Proof using. apply frame_chain; [apply ticking_parameter|apply unsent_parameter]. Qed.
Lemma frame_anchor : rel R (on_chain (default_anchor nodes)).
Proof using. apply frame_chain; [apply ticking_anchor|apply unsent_anchor]. Qed.
Lemma frame_lookup a : rel R (on_chain (default_lookup_anchor nodes a)).
Proof using. apply frame_chain; [apply ticking_lookup|apply unsent_lookup]. Qed.
Lemma frame_provide x b : rel R (on_chain (provide nodes x b)).
Proof using. apply frame_chain; [apply ticking_call|apply unsent_call]. Qed.
Lemma frame_status rc a : rel R (on_boot (package_status nodes rc a)).
Proof using. apply frame_boot; [apply ticking_status|intros _; apply unsent_hash_call]. Qed.
#[local] Hint Resolve frame_record frame_services frame_preimage frame_request frame_head frame_parameter frame_anchor frame_lookup frame_provide
  frame_status frame_stop : rel.

Lemma frame_sent_at t : rel R (se_put (set_sent_at t)).
Proof using. apply frame_put. done. Qed.
Lemma frame_receipt r : rel R (se_put (set_receipt r)).
Proof using. apply frame_put. done. Qed.
Lemma frame_ready r : rel R (se_put (set_ready r)).
Proof using. apply frame_put. done. Qed.
Lemma frame_for_service i : rel R (se_put (λ s, set_boot (for_service i (d_chain s)) s)).
Proof using. apply frame_put. done. Qed.
#[local] Hint Resolve frame_sent_at frame_receipt frame_ready frame_for_service : rel.

Lemma frame_running ss : rel R (running nodes blake2b256 code ss).
Proof using. induction ss as [|x ss IH]; cbn [running]; rel_step. Qed.
#[local] Hint Resolve frame_running : rel.
Lemma frame_existing : rel R (existing nodes blake2b256 code state_file).
Proof using. unfold existing. rel_step. Qed.
Lemma frame_first fuel x l : rel R (first_free nodes fuel x l).
Proof using. revert x. induction fuel as [|fuel IH]; intros x; cbn [first_free]; rel_step. Qed.
#[local] Hint Resolve frame_existing frame_first : rel.
Lemma frame_free start : rel R (free_id nodes start).
Proof using. unfold free_id. rel_step. Qed.
Lemma frame_scan since ss : rel R (scan_created nodes blake2b256 code bootstrap_id since ss).
Proof using. induction ss as [|x ss IH]; cbn [scan_created]; rel_step. Qed.
#[local] Hint Resolve frame_scan : rel.
Lemma frame_created wanted since scan : rel R (created_service nodes blake2b256 code bootstrap_id wanted since scan).
Proof using. unfold created_service. rel_step. Qed.
Lemma frame_choose asked fresh : rel R (choose nodes blake2b256 code state_file asked fresh).
Proof using. unfold choose. rel_step. Qed.
Lemma frame_usable x : rel R (at_lookup_anchor nodes blake2b256 code x).
Proof using. unfold at_lookup_anchor. rel_step. Qed.
Lemma frame_wait deadline what check u : rel R check → rel R (wait_turn elapsed poll deadline what check u).
Proof using Hpoll. intros H. unfold wait_turn. rel_step. Qed.
Lemma frame_provided x : who = Some x → rel R (provided nodes blake2b256 code x).
Proof using.
  intros Hw. assert (rel R (se_put (add_handed (x, code)))) as Hh.
  { apply rel_put. intros s. split_and!; try done; [apply tr_refl|]. exists [(x, code)]. split; [done|]. by constructor. }
  unfold provided. rel_step.
Qed.
Lemma frame_check : rel R (check_bootstrap nodes bootstrap_id).
Proof using. unfold check_bootstrap. rel_step. Qed.
End frames.

(** The loop and the parts of [create] may send packages. *)
Section create_frames.
Context (nodes : nat → node) (blake2b256 : bytes → bytes) (elapsed : nat → Z) (salts : nat → bytes).
Context (code : bytes) (bootstrap_id : Z) (state_file : bool) (poll : Z) (Hpoll : 0 ≤ poll).
Notation R := (frame code true None).
#[local] Hint Resolve frame_record frame_services frame_preimage frame_head frame_parameter frame_status frame_stop frame_created frame_check
  frame_receipt frame_ready frame_for_service : rel.

Lemma frame_send instr ms : rel R (send_create nodes blake2b256 salts instr ms).
Proof using.
  assert (∀ p, rel R (on_boot (submit nodes blake2b256 p))) by (intros p; apply (frame_boot nodes); [apply ticking_submit|done]).
  unfold send_create. rel_step.
Qed.
#[local] Hint Resolve frame_send : rel.
Lemma frame_watch instr ms expiry wanted since : rel R (watch_package nodes blake2b256 salts code bootstrap_id instr ms expiry wanted since).
Proof using. unfold watch_package. rel_step. Qed.
#[local] Hint Resolve frame_watch : rel.
Lemma frame_pass instr ms expiry wanted since : rel R (create_pass nodes blake2b256 salts code bootstrap_id instr ms expiry wanted since).
Proof using. unfold create_pass. rel_step. Qed.
#[local] Hint Resolve frame_pass : rel.
Lemma frame_turn instr ms expiry wanted since deadline u :
  rel R (create_turn nodes blake2b256 elapsed salts code bootstrap_id poll instr ms expiry wanted since deadline u).
Proof using Hpoll. unfold create_turn. rel_step. Qed.
Lemma frame_start wanted e ig mg : rel R (create_start nodes blake2b256 salts code bootstrap_id wanted e ig mg).
Proof using. unfold create_start. rel_step. Qed.
End create_frames.

(** ** What was seen *)

(** The record a read that starts at view [n] sees; between two views; and the code where the next package looks for it. *)
Definition shows (nodes : nat → node) (n : nat) (x : Z) (i : ServiceInfo) : Prop := ∃ b d,
  n_best (nodes n) = Ok (Some b) ∧ n_data (nodes (S n)) (hash b) x = Ok (Some d) ∧ decode_service d = Ok i.
Definition seen_record (nodes : nat → node) (lo hi : nat) (x : Z) (i : ServiceInfo) : Prop := ∃ n, (lo ≤ n ∧ S n < hi)%nat ∧ shows nodes n x i.
Definition seen_usable (nodes : nat → node) (h : bytes) (lo hi : nat) (x : Z) : Prop := ∃ c a c1 l c2 blob,
  default_anchor nodes c = (Ok a, c1) ∧ default_lookup_anchor nodes a c1 = (Ok l, c2) ∧
  n_preimage (nodes (c_tick c2)) (hash l) x h = Ok (Some blob) ∧ (lo ≤ c_tick c ∧ c_tick c2 < hi)%nat.

Lemma seen_record_mono nodes lo hi lo' hi' x i : (lo' ≤ lo)%nat → (hi ≤ hi')%nat → seen_record nodes lo hi x i → seen_record nodes lo' hi' x i.
Proof. intros ?? (n & ? & ?). exists n. split; [lia|done]. Qed.
Lemma usable_mono nodes h lo hi lo' hi' x : (lo' ≤ lo)%nat → (hi ≤ hi')%nat → seen_usable nodes h lo hi x → seen_usable nodes h lo' hi' x.
Proof. intros ?? (c & a & c1 & l & c2 & blob & ? & ? & ? & ?). exists c, a, c1, l, c2, blob. split_and!; [done..|lia|lia]. Qed.

(** A failed call raises, so a value returned is the node's. *)
Lemma call_ok {A} nodes w (f : node → result A) c a c' : Submit.call nodes w f c = (Ok a, c') → f (nodes (c_tick c)) = Ok a ∧ c' = tick c.
Proof.
  unfold Submit.call, rpc, se_try, se_lift, mbind, SE_bind. destruct (f (nodes (c_tick c))) as [v|e]; [by intros [= <- <-]|].
  destruct (rpc_failure e); done.
Qed.
Lemma best_ok nodes c b c' : best_head nodes c = (Ok b, c') → n_best (nodes (c_tick c)) = Ok (Some b) ∧ c' = tick c.
Proof.
  intros (d & c1 & H1 & H2)%se_bind_ok. apply call_ok in H1 as [E ->]. apply lift_ok in H2 as [H2 ->]. destruct d; [|done]. by injection H2 as ->.
Qed.
Lemma at_best_ok nodes c h c' : at_hash nodes AtBest c = (Ok h, c') → ∃ b, n_best (nodes (c_tick c)) = Ok (Some b) ∧ h = hash b ∧ c' = tick c.
Proof. intros (b & c1 & H1 & H2)%se_bind_ok. apply best_ok in H1 as [E ->]. injection H2 as <- <-. eauto. Qed.

Lemma on_chain_ok {A} (m : J A) s r s' : on_chain m s = (r, s') → ∃ c, m (d_chain s) = (r, c) ∧ s' = set_chain c s.
Proof. unfold on_chain. destruct (m (d_chain s)) as [r0 c]. intros [= -> <-]. eauto. Qed.

Section seeing.
Context (nodes : nat → node) (blake2b256 : bytes → bytes) (code : bytes) (bootstrap_id : Z).
Notation ours := (λ i, si_code_hash i = our_hash blake2b256 code).
Notation now_tick s := (c_tick (d_chain s)).

(** A record read takes two views. *)
Lemma record_read x s r s' : drecord nodes x s = (Ok r, s') →
  ∃ b v, n_best (nodes (now_tick s)) = Ok (Some b) ∧ n_data (nodes (S (now_tick s))) (hash b) x = Ok v ∧ now_tick s' = S (S (now_tick s)) ∧
    match v with None => r = None | Some d => ∃ i, decode_service d = Ok i ∧ r = Some i end.
Proof using.
  intros (c0 & E & ->)%on_chain_ok.
  apply se_bind_ok in E as (h & c1 & H1 & E). apply at_best_ok in H1 as (b & Eb & -> & ->).
  apply se_bind_ok in E as (v & c2 & H2 & E). apply call_ok in H2 as [Ev ->]. exists b, v. split; [done|]. split; [done|].
  destruct v as [d|]; [|by injection E as <- <-]. apply se_bind_ok in E as (i & c3 & H3 & E). apply lift_ok in H3 as [Ei ->].
  injection E as <- <-. split; [done|eauto].
Qed.
Lemma record_seen x s i s' : drecord nodes x s = (Ok (Some i), s') → seen_record nodes (now_tick s) (now_tick s') x i.
Proof using.
  intros (b & v & Eb & Ev & Et & Hv)%record_read. destruct v as [d|]; [|done]. destruct Hv as (i' & Ei & [= <-]). exists (now_tick s). split; [lia|]. by exists b, d.
Qed.
Lemma runs_spec i : runs_our_code blake2b256 code i = true → ∃ j, i = Some j ∧ ours j.
Proof using. destruct i as [j|]; [|done]. cbn. intros H%bool_decide_eq_true. eauto. Qed.

(** The service [_created] names runs the code and is the one asked for or one the Bootstrap service made since. *)
Definition made (since wanted x : Z) (i : ServiceInfo) : Prop := ours i ∧ (x = wanted ∨ parent i = bootstrap_id ∧ since ≤ created i).

Lemma scan_some since wanted ss : ∀ s x s', scan_created nodes blake2b256 code bootstrap_id since ss s = (Ok (Some x), s') →
  ∃ i, seen_record nodes (now_tick s) (now_tick s') x i ∧ made since wanted x i.
Proof using.
  induction ss as [|y ss IH]; intros s x s' H; [done|]. cbn [scan_created] in H. apply se_bind_ok in H as (i & s1 & H1 & H).
  pose proof (frame_record nodes [] false None y s) as Ht. rewrite H1 in Ht. destruct Ht as [Ht _]. unfold ticking in Ht. cbn in Ht.
  destruct (runs_our_code _ _ i) eqn:Er; cbn [andb] in H.
  - apply runs_spec in Er as (j & -> & Ej). destruct ((parent j =? bootstrap_id) && (since <=? created j)) eqn:Ec.
    + injection H as <- <-. exists j. split; [by eapply record_seen|]. split; [done|]. right. lia.
    + destruct (IH _ _ _ H) as (i & Hi & Hm). exists i. split; [|done]. by eapply seen_record_mono; [| |exact Hi].
  - destruct (IH _ _ _ H) as (j & Hi & Hm). exists j. split; [|done]. by eapply seen_record_mono; [| |exact Hi].
Qed.
Lemma created_some wanted since scan s x s' : created_service nodes blake2b256 code bootstrap_id wanted since scan s = (Ok (Some x), s') →
  ∃ i, seen_record nodes (now_tick s) (now_tick s') x i ∧ made since wanted x i.
Proof using.
  intros (i & s1 & H1 & H)%se_bind_ok.
  pose proof (frame_record nodes [] false None wanted s) as Ht. rewrite H1 in Ht. destruct Ht as [Ht _]. unfold ticking in Ht. cbn in Ht.
  destruct (runs_our_code _ _ i) eqn:Er.
  { injection H as <- <-. apply runs_spec in Er as (j & -> & Ej). exists j. split; [by eapply record_seen|]. split; [done|by left]. }
  destruct (match i with Some i => _ | None => _ end); [done|]. destruct scan; [|done]. apply se_bind_ok in H as (ss & s2 & H2 & H).
  pose proof (frame_services nodes [] false None s1) as Ht2. rewrite H2 in Ht2. destruct Ht2 as [Ht2 _]. unfold ticking in Ht2. cbn in Ht2.
  destruct (scan_some since wanted _ _ _ _ H) as (j & Hj & Hm). exists j. split; [|done]. eapply seen_record_mono; [| |exact Hj]; lia.
Qed.
Lemma usable_true x s s' : at_lookup_anchor nodes blake2b256 code x s = (Ok true, s') →
  seen_usable nodes (our_hash blake2b256 code) (now_tick s) (now_tick s') x.
Proof using.
  intros (a & s1 & H1 & (l & s2 & H2 & (p & s3 & H3 & H)%se_bind_ok)%se_bind_ok)%se_bind_ok.
  injection H as Hp <-. destruct p as [blob|]; [|done].
  apply on_chain_ok in H1 as (c1 & E1 & ->), H2 as (c2 & E2 & ->), H3 as (c3 & E3 & ->).
  apply se_bind_ok in E3 as (h & c4 & H4 & E3). cbn [at_hash] in H4. apply lift_ok in H4 as [Hh ->]. case_match; [|done]. injection Hh as <-.
  apply call_ok in E3 as [Ep ->]. exists (d_chain s), a, c1, l, c2, blob. split_and!; [done..|cbn; lia].
Qed.
End seeing.

(** ** A deployment that returns *)
Lemma andthen_ok {A B} (x : option (result A * deployer)) (k : A → deployer → option (result B * deployer)) b s' :
  andthen x k = Some (Ok b, s') → ∃ a s, x = Some (Ok a, s) ∧ k a s = Some (Ok b, s').
Proof. destruct x as [[[a|e] s]|]; cbn; naive_solver. Qed.
Lemma frame_tick code sends who s s' : frame code sends who s s' → (c_tick (d_chain s) ≤ c_tick (d_chain s'))%nat.
Proof. by intros [? _]. Qed.

Section outcome.
Context (nodes : nat → node) (blake2b256 : bytes → bytes) (elapsed : nat → Z) (salts : nat → bytes).
Context (code : bytes) (bootstrap_id : Z) (state_file : bool) (poll : Z) (Hpoll : 0 ≤ poll).
Notation now_tick s := (c_tick (d_chain s)).

(** [_wait] returns right after a check that succeeded. *)
Lemma wait_outcome sends who fuel deadline what check s u s' : rel (frame code sends who) check →
  iterate fuel (wait_turn elapsed poll deadline what check) tt s = Some (Ok u, s') → ∃ s1, frame code sends who s s1 ∧ check s1 = (Ok true, s').
Proof using Hpoll.
  intros Hc H. refine (iterate_inv (λ _, frame code sends who s) (λ _ s', ∃ s1, frame code sends who s s1 ∧ check s1 = (Ok true, s')) (λ _, True) _ _ fuel tt s _ s' _ H);
    [|apply tr_refl].
  intros [] s1 r s2 Hs Hr. pose proof (frame_wait elapsed code poll Hpoll sends who deadline what check tt Hc s1) as Hf. rewrite Hr in Hf.
  destruct r as [[b|[]]|e]; [|by eapply tr_trans|done]. exists s1. split; [done|].
  apply se_bind_ok in Hr as (rc & s3 & H1 & H2). unfold se_try in H1. destruct (check s1) as [rc0 s4]. injection H1 as <- <-.
  destruct rc0 as [[]|e]; [by injection H2 as _ <-| |].
  - by apply se_bind_ok in H2 as (? & ? & _ & ?).
  - destruct (is_chain_error e); [by apply se_bind_ok in H2 as (? & ? & _ & ?)|done].
Qed.

(** A service that [create] names. *)
Definition create_named (lo hi : nat) (wanted x : Z) : Prop := ∃ i, seen_record nodes lo hi x i ∧ (x = wanted ∨ parent i = bootstrap_id).
(** A turn, taken apart: the service was found, or [_created] was asked once more, or the clock was read and the time slept. *)
Lemma turn_cases instr ms expiry wanted since deadline u s r s' :
  create_turn nodes blake2b256 elapsed salts code bootstrap_id poll instr ms expiry wanted since deadline u s = (Ok r, s') →
  match r with
  | inl x => ∃ scan, created_service nodes blake2b256 code bootstrap_id wanted since scan s = (Ok (Some x), s')
  | inr _ => (∃ scan s1, created_service nodes blake2b256 code bootstrap_id wanted since scan s = (Ok None, s1) ∧
                watch_package nodes blake2b256 salts code bootstrap_id instr ms expiry wanted since s1 = (Ok true, s')) ∨
             (∃ s1 v, frame code true None s s1 ∧ sleep_or_stop elapsed poll deadline v s1 = (Ok tt, s'))
  end.
Proof using.
  intros (x & s1 & H1 & H2)%se_bind_ok. unfold se_try in H1. destruct (create_pass _ _ _ _ _ _ _ _ _ _ s) as [y s2] eqn:E. injection H1 as <- <-.
  pose proof (frame_pass nodes blake2b256 salts code bootstrap_id instr ms expiry wanted since s) as Hf. rewrite E in Hf. cbn in Hf.
  assert (∀ v (m : D (Z + unit)), m = (_ ← sleep_or_stop elapsed poll deadline v; mret (inr tt)) → m s2 = (Ok r, s') →
    r = inr tt ∧ sleep_or_stop elapsed poll deadline v s2 = (Ok tt, s')) as Hsleep.
  { intros v m -> ([] & s3 & H3 & [= <- <-])%se_bind_ok. done. }
  destruct y as [[x| |]|e]; [| | |destruct (is_chain_error e); [|done]].
  2: injection H2 as <- <-; left. 1: injection H2 as <- <-.
  1,2: apply se_bind_ok in E as (scan & s3 & Hscan & E); injection Hscan as <- <-; apply se_bind_ok in E as ([z|] & s4 & Hc & E).
  - injection E as <- <-. eauto.
  - by apply se_bind_ok in E as ([] & s5 & _ & E).
  - done.
  - apply se_bind_ok in E as ([] & s5 & Hw & E); [|done]. injection E as <-. eauto.
  - destruct (Hsleep _ _ eq_refl H2) as [-> Hs]. right. eauto.
  - destruct (Hsleep _ _ eq_refl H2) as [-> Hs]. right. eauto.
Qed.

Lemma create_outcome fuel deadline wanted e ig mg s x s' :
  create nodes blake2b256 elapsed salts code bootstrap_id poll fuel deadline wanted e ig mg s = Some (Ok x, s') →
  frame code true None s s' ∧ create_named (now_tick s) (now_tick s') wanted x.
Proof using Hpoll.
  unfold create. intros ([[[instr ms] expiry] since] & s1 & [= H1] & H2)%andthen_ok.
  apply (rel_run (frame code true None)) in H1; [|apply frame_start].
  refine (iterate_inv (λ _, frame code true None s) (λ x s', frame code true None s s' ∧ create_named (now_tick s) (now_tick s') wanted x) (λ _, True) _ _ fuel tt s1 _ s' H1 H2).
  intros [] s2 r s3 Hs Hr.
  pose proof (rel_run (frame code true None) _ _ _ _ (frame_turn nodes blake2b256 elapsed salts code bootstrap_id poll Hpoll instr ms expiry wanted since deadline tt) Hr) as Hf.
  assert (frame code true None s s3) as Hs3 by by eapply tr_trans.
  destruct r as [[y|[]]|er]; [|done..]. split; [done|].
  destruct (turn_cases _ _ _ _ _ _ _ _ _ _ Hr) as (scan & Hc). destruct (created_some _ _ _ _ _ _ _ _ _ _ Hc) as (i & Hi & _ & Hm).
  exists i. split; [|naive_solver]. eapply seen_record_mono; [| |exact Hi]; [by eapply frame_tick|done].
Qed.

Lemma choose_asked asked fresh s x s' : choose nodes blake2b256 code state_file asked fresh s = (Ok (Some x), s') →
  fresh = false ∧ ∀ w, asked = Some w → x = w.
Proof using.
  destruct asked as [i|]; cbn [choose].
  - intros (u & s1 & H1 & (info & s2 & H2 & (v & s3 & H3 & H)%se_bind_ok)%se_bind_ok)%se_bind_ok. apply lift_ok in H3 as [H3%guard_or_ok ->].
    destruct info; [|done]. injection H as <- <-. split; [by destruct fresh|]. by intros w [= ->].
  - destruct fresh; [done|]. by intros _.
Qed.

(** [run] after the service is chosen or created. *)
Lemma finish_outcome fuel deadline x reused s2 d s' :
  andthen (provide_code nodes blake2b256 elapsed code poll fuel deadline x s2) (λ _ s3,
    andthen (wait_usable nodes blake2b256 elapsed code poll fuel deadline x s3) (λ _ s4, Some (finish_deploy nodes blake2b256 code state_file x reused s4))) = Some (Ok d, s') →
  ∃ s5, frame code false (Some x) s2 s5 ∧ seen_usable nodes (our_hash blake2b256 code) (now_tick s2) (now_tick s5) x ∧
    (∃ i, seen_record nodes (now_tick s2) (now_tick s5) x i ∧ si_code_hash i = our_hash blake2b256 code ∧
       d = {| dp_service_id := x; dp_code_hash := our_hash blake2b256 code; dp_created := created i; dp_reused := reused |}) ∧
    s' = set_chain (set_service (Some x) (d_chain s5)) (set_file (if state_file then Some (Saved x (Some (our_hash blake2b256 code))) else d_file s5) s5).
Proof using Hpoll.
  intros (u & s3 & H3 & (v & s4 & H4 & [= H])%andthen_ok)%andthen_ok.
  apply (wait_outcome false (Some x)) in H3 as (t3 & F3 & G3); [|by apply frame_provided].
  apply (rel_run (frame code false (Some x))) in G3; [|by apply frame_provided].
  apply (wait_outcome false (Some x)) in H4 as (t4 & F4 & G4); [|by apply frame_usable].
  pose proof (rel_run (frame code false (Some x)) _ _ _ _ (frame_usable nodes blake2b256 code false (Some x) x) G4) as F4'. apply usable_true in G4.
  assert (frame code false (Some x) s2 t4) as F by (eapply tr_trans; [|exact F4]; eapply tr_trans; [|exact G3]; exact F3).
  apply se_bind_ok in H as (info & s5 & H5 & H). pose proof (rel_run (frame code false (Some x)) _ _ _ _ (frame_record nodes code false (Some x) x) H5) as F5.
  destruct info as [i|]; [|done]. apply record_seen in H5. destruct (runs_our_code _ _ (Some i)) eqn:Er; [|done].
  apply runs_spec in Er as (j & [= <-] & Ej). pose proof (frame_tick _ _ _ _ _ F). pose proof (frame_tick _ _ _ _ _ F4'). pose proof (frame_tick _ _ _ _ _ F5).
  exists s5. split; [eapply tr_trans; [exact F|]; by eapply tr_trans|]. split; [eapply usable_mono; [| |exact G4]; lia|].
  apply se_bind_ok in H as ([] & s6 & H6 & H). apply se_bind_ok in H as ([] & s7 & H7 & [= <- <-]). injection H7 as <-.
  split; [exists i; split_and!; [eapply seen_record_mono; [| |exact H5]; lia|done..]|]. destruct state_file; injection H6 as <-; [done|]. by destruct s5.
Qed.
End outcome.

(** (C24) A deployment that returns is one that packages can use: [deploy] names a service that the chain showed
    running the given code and whose code was there at the lookup anchor the next package names; the backend and the
    state file name it; the code was handed to that service and to no other; a reused service means that no package
    was sent, a fresh one is never reused, and an id that was asked for is the one named unless the Bootstrap service
    chose another. *)
Theorem deployed_service_usable nodes blake2b256 elapsed salts code bootstrap_id state_file poll fuel asked fresh e ig mg timeout s d s' :
  0 ≤ poll →
  deploy nodes blake2b256 elapsed salts code bootstrap_id state_file poll fuel asked fresh e ig mg timeout s = Some (Ok d, s') →
  let x := dp_service_id d in let lo := c_tick (d_chain s) in let hi := c_tick (d_chain s') in
  (∃ i, seen_record nodes lo hi x i ∧ si_code_hash i = blake2b256 code ∧ dp_code_hash d = blake2b256 code ∧ dp_created d = created i) ∧
  seen_usable nodes (blake2b256 code) lo hi x ∧
  c_service (d_chain s') = Some x ∧
  d_file s' = (if state_file then Some (Saved x (Some (blake2b256 code))) else d_file s) ∧
  (∃ l, d_handed s' = d_handed s ++ l ∧ Forall (λ p, p = (x, code)) l) ∧
  (dp_reused d = true → fresh = false ∧ c_sent (d_chain s') = c_sent (d_chain s)) ∧
  (∀ w, asked = Some w → x = w ∨ dp_reused d = false ∧ ∃ i, seen_record nodes lo hi x i ∧ parent i = bootstrap_id).
Proof.
  intros Hpoll H. unfold deploy, run in H. destruct (submits (d_chain s)); [|done].
  apply andthen_ok in H as ([deadline x] & s1 & [= H1] & H). apply andthen_ok in H as (y & s2 & H2 & H).
  destruct (finish_outcome _ _ _ _ _ _ Hpoll _ _ _ _ _ _ _ H) as (s5 & F5 & Hu & (i & Hi & Ei & ->) & ->). clear H.
  apply se_bind_ok in H1 as (t & s0 & H0 & H1). apply se_bind_ok in H1 as (x' & s1' & H1 & [= <- <- <-]).
  apply (rel_run (frame code false None)) in H0 as F0; [|apply frame_clock].
  apply (rel_run (frame code false None)) in H1 as F1; [|apply frame_choose].
  assert (frame code false None s s1') as F by by eapply tr_trans. clear F0 F1.
  assert (frame code (if x' then false else true) None s1' s2 ∧ ∀ w, asked = Some w → y = w ∨ x' = None ∧ ∃ i, seen_record nodes (c_tick (d_chain s)) (c_tick (d_chain s2)) y i ∧ parent i = bootstrap_id) as [F2 Hn].
  { destruct x' as [x0|]; [injection H2 as -> ->; split; [apply tr_refl|]; intros w Hw; left; by eapply choose_asked|].
    apply andthen_ok in H2 as (w0 & s6 & [= H6] & H2). apply create_outcome in H2 as [Fc (j & Hj & Hm)]; [|done].
    assert (frame code true None s1' s6 ∧ ∀ w, asked = Some w → w0 = w) as [F6 Hw].
    { destruct asked as [a|]; [injection H6 as -> ->; split; [apply tr_refl|]; by intros w [= ->]|].
      split; [|done]. eapply rel_run; [|exact H6]. apply frame_free. }
    split; [by eapply tr_trans|]. intros w Ew. rewrite <- (Hw w Ew). destruct Hm as [->|Hm]; [by left|]. right. split; [done|]. exists j. split; [|done].
    apply frame_tick in F. apply frame_tick in F6. eapply seen_record_mono; [| |exact Hj]; [lia|done]. }
  pose proof (frame_tick _ _ _ _ _ F) as T. pose proof (frame_tick _ _ _ _ _ F2) as T2. pose proof (frame_tick _ _ _ _ _ F5) as T5.
  destruct F as (_ & _ & _ & Ef & Es & l0 & El0 & Hl0), F2 as (_ & _ & _ & Ef2 & Es2 & l2 & El2 & Hl2), F5 as (_ & _ & _ & Ef5 & Es5 & l5 & El5 & Hl5).
  cbn. split_and!.
  - exists i. split_and!; [eapply seen_record_mono; [| |exact Hi]; lia|done..].
  - eapply usable_mono; [| |exact Hu]; lia.
  - done.
  - by rewrite Ef5, Ef2, Ef.
  - exists l5. assert (l0 = []) as -> by (destruct l0; [done|by inversion Hl0 as [|?? [? ?]]]). assert (l2 = []) as -> by (destruct l2; [done|by inversion Hl2 as [|?? [? ?]]]).
    rewrite El5, El2, El0, !app_nil_r. split; [done|]. eapply Forall_impl; [exact Hl5|]. intros [a b]. cbn. by intros [[= ->] ->].
  - destruct x' as [x0|]; [|done]. intros _. split; [by eapply choose_asked|]. by rewrite Es5, Es2, Es.
  - intros w Ew. destruct (Hn w Ew) as [->|[-> (j & Hj & Hp)]]; [by left|]. right. split; [done|]. exists j. split; [|done]. eapply seen_record_mono; [| |exact Hj]; lia.
Qed.

(** ** The loops end *)
Section ends.
Context (nodes : nat → node) (blake2b256 : bytes → bytes) (elapsed : nat → Z) (salts : nat → bytes).
Context (code : bytes) (bootstrap_id : Z) (poll : Z) (Hpoll : 1 ≤ poll) (Helapsed : ∀ n m, (n ≤ m)%nat → elapsed n ≤ elapsed m).
Notation now_tick s := (c_tick (d_chain s)).
Notation time := (now elapsed).

Lemma frame_later sends who s s' : frame code sends who s s' → time s ≤ time s'.
Proof using Helapsed. intros (Ht & Hs & _). unfold now. specialize (Helapsed _ _ Ht). lia. Qed.
Lemma stop_slept deadline what s u s' : sleep_or_stop elapsed poll deadline what s = (Ok u, s') → time s < deadline ∧ time s + poll ≤ time s'.
Proof using Helapsed.
  intros (t & s1 & [= <- <-] & H)%se_bind_ok. case_match; [done|]. injection H as _ <-. unfold now. cbn.
  specialize (Helapsed (now_tick s) (S (now_tick s)) ltac:(lia)). unfold now in *. lia.
Qed.
(** Turns left, by the clock. *)
Definition time_to (deadline : Z) (s : deployer) : nat := Z.to_nat (deadline - time s).
Lemma slept_less deadline what s s1 u s' : time s ≤ time s1 → sleep_or_stop elapsed poll deadline what s1 = (Ok u, s') → (time_to deadline s' < time_to deadline s)%nat.
Proof using Helapsed Hpoll. intros Hl H%stop_slept. unfold time_to. lia. Qed.

(** [_wait] returns or raises. *)
Lemma wait_ends sends who fuel deadline what check s : rel (frame code sends who) check → (time_to deadline s < fuel)%nat →
  is_Some (iterate fuel (wait_turn elapsed poll deadline what check) tt s).
Proof using Helapsed Hpoll.
  intros Hc. apply (iterate_total (λ _ _, True) (λ _, time_to deadline)); [|done].
  intros [] s1 [] s2 _ (r & s3 & H1 & H2)%se_bind_ok. split; [done|]. unfold se_try in H1. pose proof (Hc s1) as Hf. destruct (check s1) as [r0 s4]. injection H1 as <- <-.
  apply frame_later in Hf. destruct r0 as [[]|e]; [done| |destruct (is_chain_error e); [|done]];
    apply se_bind_ok in H2 as (u & s5 & H2 & [= <-]); by eapply slept_less.
Qed.

Context (wanted : Z).
(** Once a service that the create made is shown, reads of the id that was asked for show the code there: the create took
    that id, and the node does not go back on it. *)
Definition settles : Prop := ∀ n x i, shows nodes n x i → si_code_hash i = blake2b256 code → x = wanted ∨ parent i = bootstrap_id →
  ∀ m b r, (n < m)%nat → n_best (nodes m) = Ok (Some b) → n_data (nodes (S m)) (hash b) wanted = Ok r →
  ∃ d, r = Some d ∧ ∀ j, decode_service d = Ok j → si_code_hash j = blake2b256 code.
Context (Hsettles : settles).

Definition shown (s : deployer) : Prop := ∃ n x i, (n < now_tick s)%nat ∧ shows nodes n x i ∧ si_code_hash i = blake2b256 code ∧ (x = wanted ∨ parent i = bootstrap_id).

Lemma shown_found since scan s s' : shown s → created_service nodes blake2b256 code bootstrap_id wanted since scan s ≠ (Ok None, s').
Proof using Hsettles.
  intros (n & x & i & Hn & Hs & Hi & Hx) (r & s1 & H1 & H2)%se_bind_ok. apply record_read in H1 as (b & v & Eb & Ev & _ & Hv).
  destruct (Hsettles n x i Hs Hi Hx _ b v Hn Eb Ev) as (d & -> & Hd). destruct Hv as (j & Ej & ->). cbn [runs_our_code] in H2.
  rewrite bool_decide_eq_true_2 in H2 by by apply Hd. done.
Qed.
Lemma watch_again instr ms expiry since s s' : watch_package nodes blake2b256 salts code bootstrap_id instr ms expiry wanted since s = (Ok true, s') → shown s'.
Proof using.
  unfold watch_package. intros (rc & s1 & _ & H)%se_bind_ok. destruct rc as [rc|]; [|by apply se_bind_ok in H as (? & ? & _ & ?)].
  apply se_bind_ok in H as (st0 & s2 & _ & (st & s3 & _ & H)%se_bind_ok). apply se_bind_ok in H as (expired & s4 & _ & (landed & s5 & Hl & H)%se_bind_ok).
  destruct landed as [x|].
  - injection H as <-. destruct expired; [|done]. destruct (created_some _ _ _ _ _ _ _ _ _ _ Hl) as (i & (n & Hn & Hs) & Hi & Hx).
    exists n, x, i. split_and!; [lia|done..|naive_solver].
  - exfalso. case_match; [by apply se_bind_ok in H as (? & ? & _ & (? & ? & _ & ?)%se_bind_ok)|]. case_match; [|done].
    by apply se_bind_ok in H as (? & ? & _ & (? & ? & _ & (? & ? & _ & (? & ? & _ & (? & ? & _ & ?)%se_bind_ok)%se_bind_ok)%se_bind_ok)%se_bind_ok).
Qed.

(** A turn that continues passes time, or is the one that saw the service. *)
Lemma turns_end instr ms expiry since deadline fuel s : (2 * time_to deadline s + 2 < fuel)%nat →
  is_Some (iterate fuel (create_turn nodes blake2b256 elapsed salts code bootstrap_id poll instr ms expiry wanted since deadline) tt s).
Proof using Helapsed Hpoll Hsettles.
  intros Hfuel. apply (iterate_bounded (λ k _ s, k = 2 * time_to deadline s + 2 ∨ k = 2 * time_to deadline s + 1 ∧ shown s)%nat) with (k := (2 * time_to deadline s + 2)%nat); [|by left|done].
  clear s Hfuel. intros k [] s [] s' Hk H.
  assert (frame code true None s s') as Hf by (eapply rel_run; [|exact H]; apply frame_turn; lia).
  destruct (turn_cases _ _ _ _ _ _ _ _ _ _ _ _ _ _ _ _ _ H) as [(scan & s1 & Hc & Hw)|(s1 & v & Hf1 & Hs)].
  - assert (k = 2 * time_to deadline s + 2)%nat as -> by (destruct Hk as [?|[_ Hk]]; [done|by destruct (shown_found since scan s s1 Hk)]).
    exists (2 * time_to deadline s' + 1)%nat. split; [apply frame_later in Hf; unfold time_to; lia|]. right. split; [done|]. by eapply watch_again.
  - exists (2 * time_to deadline s' + 2)%nat. split; [|by left]. apply frame_later in Hf1. apply (slept_less _ _ _ _ _ _ Hf1) in Hs. lia.
Qed.
End ends.

(** Creating a service ends by its deadline, whatever the node answers to the status and head reads, and whether
    or not the create is ever accepted: when the service shows up under the id that was asked for, and stays, [create]
    returns or raises after at most two turns of its loop per second that was left. *)
Theorem create_ends nodes blake2b256 elapsed salts code bootstrap_id poll fuel deadline wanted e ig mg s :
  1 ≤ poll → (∀ n m, (n ≤ m)%nat → elapsed n ≤ elapsed m) → settles nodes blake2b256 code bootstrap_id wanted →
  (2 * Z.to_nat (deadline - now elapsed s) + 2 < fuel)%nat →
  is_Some (create nodes blake2b256 elapsed salts code bootstrap_id poll fuel deadline wanted e ig mg s).
Proof.
  intros Hp He Hs Hf. unfold create. destruct (create_start _ _ _ _ _ _ _ _ _ s) as [[[[[instr ms] expiry] since]|er] s1] eqn:E; cbn [andthen]; [|eauto].
  apply turns_end; [done..|]. apply (rel_run (frame code true None)) in E; [|apply frame_start]. apply (frame_later elapsed code He) in E.
  unfold time_to. lia.
Qed.

(** ** Concrete nodes *)
Module DeploySample.
Definition code : bytes := [1; 2; 3].
Definition hash_ (b : bytes) : bytes := repeat 9 32.
Definition block_ (s : Z) : Block := {| slot := s; hash := repeat s 32 |}.
Definition record (h created_at parent_id : Z) : bytes :=
  0 :: repeat h 32 ++ le_bytes 8 1000 ++ le_bytes 8 10 ++ repeat 0 28 ++ le_bytes 4 created_at ++ le_bytes 4 0 ++ le_bytes 4 parent_id.
(** A node at slot [s], with the Bootstrap service at 0 and the services [ss]; [code_there] once the code is provided. *)
Definition view (s : Z) (ss : list (Z * bytes)) (code_there : bool) (status : result (option (string * option Z))) : node :=
  Node (Ok (Some (block_ s))) (Ok (Some (block_ (s - 5)))) (λ h, Ok (Some (block_ (default 0 (head h) - 1)))) (λ _, Ok (repeat 6 32)) (λ _, Ok (repeat 7 32))
       (λ _ _ _, Ok None) (λ _ x, Ok (list_to_map (M := gmap Z bytes) ((0, record 5 0 0) :: ss) !! x))
       (λ _ x _, Ok (if decide (x = 0) then Some [] else if code_there then Some code else None)) (λ _, Ok (0 :: map fst ss))
       (Ok (Some SubmitSample.parameters)) (λ _ _, Ok tt) (λ _ _ _ _, Ok (Some [])) (λ _ _, Ok tt) (λ _ _ _, status).
Definition start : deployer := Deployer SubmitSample.start SubmitSample.start None None None [] 0 None.
Definition salt (n : nat) : bytes := repeat (Z.of_nat n) 32.
(** A create that works: the service shows after a while, then its code. *)
Definition nodes (n : nat) : node :=
  if (n <? 40)%nat then view 30 [] false (Ok (Some ("Reportable"%string, None)))
  else if (n <? 60)%nat then view 33 [(1, record 9 32 0)] false (Ok (Some ("Ready"%string, Some 32)))
  else view 40 [(1, record 9 32 0)] true (Ok (Some ("Ready"%string, Some 32))).
Definition sample_run : option (result Deployment * deployer) := deploy nodes hash_ Z.of_nat salt code 0 true 2 100 None false 1000 10 10 600 start.
(** A create that the chain gave another id, on a node that cannot tell the package's status. *)
Definition spinning (n : nat) : node :=
  if (n <? 17)%nat then view 30 [] false (Raise (Jip2Error (Some 1))) else view 60 [(70000, record 9 31 0)] false (Raise (Jip2Error (Some 1))).
Definition spin_start : result (CreateService * Z * Z * Z) * deployer := create_start spinning hash_ salt code 0 5 1000 10 10 start.
(** The states its loop goes through. *)
Definition at_tick (n : nat) (c : jip2) : jip2 :=
  Jip2 (c_service c) (c_authorizer c) (c_spec c) (c_cores c) (c_refine_gas c) (c_accumulate_gas c) (c_params c) (c_auth_checked c) (c_next_core c) (c_sent c) n.
Definition spin (n m : nat) : deployer := set_boot (at_tick m (d_boot spin_start.2)) (set_chain (at_tick n (d_chain spin_start.2)) spin_start.2).
End DeploySample.

Lemma deployed_service_usable_witness :
  ∃ d s', DeploySample.sample_run = Some (Ok d, s') ∧ dp_reused d = false ∧ c_service (d_chain s') = Some (dp_service_id d) ∧
    seen_usable DeploySample.nodes (repeat 9 32) 0 (c_tick (d_chain s')) (dp_service_id d).
Proof.
  destruct DeploySample.sample_run as [[[d|e] s']|] eqn:E; [|vm_compute in E; discriminate..].
  exists d, s'. split; [reflexivity|].
  destruct (deployed_service_usable DeploySample.nodes DeploySample.hash_ Z.of_nat DeploySample.salt DeploySample.code 0 true 2 100 None false 1000 10 10 600
    DeploySample.start d s' ltac:(lia) E) as (_ & Hu & Hc & _).
  split; [|split; [exact Hc|exact Hu]]. apply (f_equal (λ x, match x with Some (Ok d, _) => dp_reused d | _ => true end)) in E. vm_compute in E. symmetry. exact E.
Defined.

(** Wherever the service is shown, it is the one asked for, and from then on it stays. *)
Lemma sample_settles : settles DeploySample.nodes DeploySample.hash_ DeploySample.code 0 1.
Proof.
  intros n x i (b & d & Eb & Ed & Ei) Hi Hx m b' r Hnm Eb' Er. unfold DeploySample.nodes in Ed, Er.
  destruct (Nat.ltb_spec (S n) 40) as [Hn|Hn].
  { exfalso. cbn [n_data DeploySample.view list_to_map foldr fst snd] in Ed. injection Ed as Ed. apply lookup_insert_Some in Ed as [[<- <-]|[_ Ed]]; [|by rewrite lookup_empty in Ed].
    vm_compute in Ei. injection Ei as <-. vm_compute in Hi. discriminate. }
  destruct (Nat.ltb_spec (S m) 40) as [Hm|Hm]; [lia|]. exists (DeploySample.record 9 32 0).
  assert (r = Some (DeploySample.record 9 32 0)) as -> by (destruct (S m <? 60)%nat; cbn [n_data DeploySample.view] in Er; injection Er as <-; vm_compute; reflexivity).
  split; [reflexivity|]. intros j Ej. vm_compute in Ej. injection Ej as <-. vm_compute. reflexivity.
Qed.
Lemma create_ends_witness : is_Some (create DeploySample.nodes DeploySample.hash_ Z.of_nat DeploySample.salt DeploySample.code 0 2 2000 600 1 1000 10 10 DeploySample.start).
Proof.
  apply create_ends; [lia|intros; lia|exact sample_settles|]. apply Nat.ltb_lt. vm_compute. reflexivity.
Defined.

(** A loop whose body always continues. *)
Lemma spin_turn deadline n m instr ms expiry since : fst DeploySample.spin_start = Ok (instr, ms, expiry, since) →
  create_turn DeploySample.spinning DeploySample.hash_ Z.of_nat DeploySample.salt DeploySample.code 0 2 instr ms expiry 5 since deadline tt (DeploySample.spin (17 + n) m) =
  (Ok (inr tt), DeploySample.spin (17 + (13 + n)) (17 + (4 + n))).
Proof.
  intros H. vm_compute in H. injection H as <- <- <- <-. vm_compute. reflexivity.
Qed.

(** [create] can miss its deadline for ever: when the Bootstrap service gave the new service another id than the
    one asked for and the node cannot tell the package's status, the loop finds the service, continues without reading
    the clock, and does not look for it the way it was found; no deadline and no number of turns ends it. *)
Theorem create_spins fuel deadline :
  create DeploySample.spinning DeploySample.hash_ Z.of_nat DeploySample.salt DeploySample.code 0 2 fuel deadline 5 1000 10 10 DeploySample.start = None.
Proof.
  unfold create. change (create_start _ _ _ _ _ _ _ _ _ _) with DeploySample.spin_start. destruct DeploySample.spin_start as [r s] eqn:E.
  assert (fst DeploySample.spin_start = r) as Er by by rewrite E. assert (s = DeploySample.spin 17 (c_tick (d_boot s))) as Es.
  { apply (f_equal snd) in E. cbn [snd] in E. rewrite <- E. vm_compute. reflexivity. }
  destruct r as [[[[instr ms] expiry] since]|e]; [|vm_compute in Er; discriminate]. cbn [andthen].
  apply (iterate_forever (λ _ s, ∃ n m, s = DeploySample.spin (17 + n) m)).
  - intros [] s0 (n & m & ->). exists tt, (DeploySample.spin (17 + (13 + n)) (17 + (4 + n))). split; [exact (spin_turn deadline n m instr ms expiry since Er)|].
    exists (13 + n)%nat, (17 + (4 + n))%nat. reflexivity.
  - exists 0%nat, (c_tick (d_boot s)). exact Es.
Qed.
