(* ===== verification/WebSocket.v ===== *)
(** * The WebSocket under the JIP-2 client

    src/offchain/jip2.py: masking ([_xor]), frames ([encode_frame], [WebSocket._frame]), the receive buffer ([_fill],
    [_take]), messages ([recv]) and the request loop of [Jip2Client.call].  The socket is the chunks it will deliver; a
    peer that closes, or a read that fails, is an exception. *)
From S2P Require Import Prelude Bytes.

Definition OP_CONT : Z := 0x0.
Definition OP_TEXT : Z := 0x1.
Definition OP_BIN : Z := 0x2.
Definition OP_CLOSE : Z := 0x8.
Definition OP_PING : Z := 0x9.
Definition OP_PONG : Z := 0xA.
Definition MAX_MESSAGE : Z := Z.shiftl 64 20.

(** [_xor]: one exclusive or of two long integers *)
Definition xor_mask (data mask : bytes) : bytes :=
  let n := length data in
  if (n =? 0)%nat then []
  else be_bytes n (Z.lxor (be_int data) (be_int (take n (concat (repeat mask (n / 4 + 1)))))).

(** The length field, with the mask bit *)
Definition length_field (bit n : Z) : result bytes :=
  if n <? 126 then byte (Z.lor bit n)
  else if n <? Z.shiftl 1 16 then h ← byte (Z.lor bit 126); l ← pack_u 2 n; Ok (h ++ reverse l)
  else h ← byte (Z.lor bit 127); l ← pack_u 8 n; Ok (h ++ reverse l).
(** [encode_frame(opcode, payload, mask)] *)
Definition encode_frame (opcode : Z) (payload : bytes) (mask : option bytes) : result bytes :=
  h ← byte (Z.lor 0x80 opcode);
  l ← length_field (match mask with Some _ => 0x80 | None => 0 end) (Z.of_nat (length payload));
  Ok (match mask with
      | None => h ++ l ++ payload
      | Some m => h ++ l ++ m ++ xor_mask payload m
      end).

(** ** The connection *)
Record ws := Ws {
  w_buf : bytes;
  w_chunks : list (result bytes);          (* what recv on the socket will answer *)
  w_sent : list (Z * bytes)                (* the frames sent, unmasked *)
}.
Definition set_in b l (w : ws) : ws := Ws b l (w_sent w).
Notation W := (SE ws).

(** [_take(n)] with its [_fill]s: each one takes an answer of the socket *)
Fixpoint fill_to (n : nat) (buf : bytes) (chunks : list (result bytes)) : result unit * (bytes * list (result bytes)) :=
  if (n <=? length buf)%nat then (Ok tt, (buf, chunks))
  else match chunks with
       | [] | Ok [] :: _ => (Raise (WebSocketError "connection closed by peer"), (buf, []))
       | Raise e :: rest => (Raise e, (buf, rest))
       | Ok c :: rest => fill_to n (buf ++ c) rest
       end.
Definition take_n (n : nat) : W bytes := λ w,
  let '(r, (buf, chunks)) := fill_to n (w_buf w) (w_chunks w) in
  match r with
  | Raise e => (Raise e, set_in buf chunks w)
  | Ok _ => (Ok (take n buf), set_in (drop n buf) chunks w)
  end.

(** [_frame] *)
Definition read_frame : W (bool * Z * bytes) :=
  h ← take_n 2;
  let b0 := default 0 (h !! 0%nat) in
  let b1 := default 0 (h !! 1%nat) in
  if negb (Z.land b0 0x70 =? 0) then se_lift (Raise (WebSocketError "reserved bits set (no extension was negotiated)"))
  else
    let n7 := Z.land b1 0x7F in
    n ← (if n7 =? 126 then l ← take_n 2; mret (be_int l)
         else if n7 =? 127 then l ← take_n 8; mret (be_int l)
         else mret n7);
    if MAX_MESSAGE <? n then se_lift (Raise (WebSocketError "frame exceeds the limit"))
    else
      let masked := negb (Z.land b1 0x80 =? 0) in
      mask ← (if masked then m ← take_n 4; mret (Some m) else mret None);
      payload ← take_n (Z.to_nat n);
      mret (negb (Z.land b0 0x80 =? 0), Z.land b0 0x0F, match mask with Some m => xor_mask payload m | None => payload end).

(** [bytes.decode()]: strict UTF-8 *)
Definition cont (b : Z) : bool := (0x80 <=? b) && (b <=? 0xBF).
Definition between (l h b : Z) : bool := (l <=? b) && (b <=? h).
Fixpoint utf8 (l : bytes) : bool :=
  match l with
  | [] => true
  | a :: l1 =>
      if between 0 0x7F a then utf8 l1
      else match l1 with
           | [] => false
           | b :: l2 =>
               if between 0xC2 0xDF a then cont b && utf8 l2
               else match l2 with
                    | [] => false
                    | c :: l3 =>
                        if between 0xE0 0xEF a then
                          cont c && (if a =? 0xE0 then between 0xA0 0xBF b else if a =? 0xED then between 0x80 0x9F b else cont b) && utf8 l3
                        else match l3 with
                             | [] => false
                             | d :: l4 =>
                                 between 0xF0 0xF4 a && cont c && cont d &&
                                 (if a =? 0xF0 then between 0x90 0xBF b else if a =? 0xF4 then between 0x80 0x8F b else cont b) && utf8 l4
                             end
                    end
           end
  end.

Inductive message := Text (data : bytes) | Binary (data : bytes).
Definition finish (kind : Z) (data : bytes) : result message :=
  if kind =? OP_TEXT then (if utf8 data then Ok (Text data) else Raise (ValueError "utf-8")) else Ok (Binary data).

(** [_send], with what [sendall] answers *)
Definition send_frame (send : Z → bytes → result unit) (opcode : Z) (payload : bytes) : W unit :=
  _ ← se_lift (send opcode payload); se_put (λ w, Ws (w_buf w) (w_chunks w) (w_sent w ++ [(opcode, payload)])).

Section receive.
Context (send : Z → bytes → result unit).

(** One frame of [recv]: the message when it is complete, or the parts and kind so far *)
Definition on_frame (f : bool * Z * bytes) (parts : list bytes) (kind : option Z) : W (message + list bytes * option Z) :=
  let '(fin, opcode, payload) := f in
  if opcode =? OP_PING then _ ← send_frame send OP_PONG payload; mret (inr (parts, kind))
  else if opcode =? OP_PONG then mret (inr (parts, kind))
  else if opcode =? OP_CLOSE then
    r ← se_try (send_frame send OP_CLOSE (take 2 payload));
    match r with
    | Raise (OSError _ | WebSocketError _) | Ok _ => se_lift (Raise (WebSocketError "closed by peer"))
    | Raise e => se_lift (Raise e)
    end
  else
    k ← se_lift (if (opcode =? OP_TEXT) || (opcode =? OP_BIN) then
                   match kind with None => Ok opcode | Some _ => Raise (WebSocketError "new data frame inside a fragmented message") end
                 else if opcode =? OP_CONT then
                   match kind with Some k => Ok k | None => Raise (WebSocketError "continuation frame without a message") end
                 else Raise (WebSocketError "unknown opcode"));
    let parts := parts ++ [payload] in
    if MAX_MESSAGE <? Z.of_nat (length (concat parts)) then se_lift (Raise (WebSocketError "message exceeds the limit"))
    else if (fin : bool) then m ← se_lift (finish k (concat parts)); mret (inl m)
    else mret (inr (parts, Some k)).

(** [recv]: [None] when the fuel is used up, which [recv_total] excludes *)
Fixpoint recv_loop (fuel : nat) (parts : list bytes) (kind : option Z) (w : ws) : option (result message * ws) :=
  match fuel with
  | O => None
  | S fuel' =>
      match (f ← read_frame; on_frame f parts kind) w with
      | (Raise e, w') => Some (Raise e, w')
      | (Ok (inl m), w') => Some (Ok m, w')
      | (Ok (inr (parts', kind')), w') => recv_loop fuel' parts' kind' w'
      end
  end.
(** The bytes the connection can still deliver. *)
Definition deliverable (w : ws) : nat := length (w_buf w) + sum_list (map (λ c, match c with Ok b => length b | Raise _ => O end) (w_chunks w)).
Definition recv (w : ws) : option (result message * ws) := recv_loop (S (deliverable w)) [] None w.
End receive.

(** ** Masking *)
Lemma lxor_byte x y : is_byte x → is_byte y → is_byte (Z.lxor x y).
Proof.
  unfold is_byte. intros Hx Hy. split; [apply Z.lxor_nonneg; lia|]. change 256 with (2 ^ 8) in *.
  destruct (Z.eq_dec (Z.lxor x y) 0) as [->|]; [lia|]. apply Z.log2_lt_pow2; [pose proof (proj2 (Z.lxor_nonneg x y)); lia|].
  eapply Z.le_lt_trans; [apply Z.log2_lxor; lia|].
  apply Z.max_lub_lt; (destruct (Z.eq_dec x 0), (Z.eq_dec y 0); subst; cbn; try lia; apply Z.log2_lt_pow2; lia).
Qed.
Lemma testbit_digit u U n : 0 ≤ n → is_byte u → Z.testbit (u + 256 * U) n = if n <? 8 then Z.testbit u n else Z.testbit U (n - 8).
Proof.
  unfold is_byte. intros Hn Hu. change 256 with (2 ^ 8) in *. destruct (Z.ltb_spec n 8).
  - rewrite <- (Z.mod_pow2_bits_low (u + 2 ^ 8 * U) 8 n) by lia. rewrite (Z.mul_comm (2 ^ 8)), Z.mod_add by lia.
    by rewrite Z.mod_small by lia.
  - replace n with ((n - 8) + 8) at 1 by lia. rewrite <- Z.div_pow2_bits by lia. rewrite (Z.mul_comm (2 ^ 8)), Z.div_add by lia.
    by rewrite Z.div_small by lia.
Qed.
Lemma lxor_step x y A B : is_byte x → is_byte y → Z.lxor (x + 256 * A) (y + 256 * B) = Z.lxor x y + 256 * Z.lxor A B.
Proof.
  intros Hx Hy. apply Z.bits_inj'. intros n Hn. pose proof (lxor_byte x y Hx Hy). rewrite Z.lxor_spec, !testbit_digit by done.
  destruct (n <? 8); by rewrite Z.lxor_spec.
Qed.
Lemma le_int_xor a b : wf_bytes a → wf_bytes b → length a = length b →
  le_int (zip_with Z.lxor a b) = Z.lxor (le_int a) (le_int b) ∧ wf_bytes (zip_with Z.lxor a b).
Proof.
  intros Ha. revert b. induction Ha as [|x a Hx Ha IH]; intros [|y b] Hb Hl; try done.
  apply Forall_cons in Hb as [Hy Hb]. destruct (IH b Hb) as [E W]; [by injection Hl|]. cbn [zip_with le_int]. rewrite E, lxor_step by done.
  split; [done|]. constructor; [by apply lxor_byte|done].
Qed.
Lemma reverse_zip (a b : bytes) : length a = length b → reverse (zip_with Z.lxor a b) = zip_with Z.lxor (reverse a) (reverse b).
Proof.
  revert b. induction a as [|x a IH]; intros [|y b] Hl; try done. injection Hl as Hl. cbn [zip_with]. rewrite !reverse_cons, IH by done.
  rewrite zip_with_app by (by rewrite !length_reverse). done.
Qed.
Lemma key_stream_lookup (mask : bytes) k i : length mask = 4%nat → (i < 4 * k)%nat → concat (repeat mask k) !! i = mask !! (i mod 4)%nat.
Proof.
  intros Hm. revert i. induction k as [|k IH]; intros i Hi; [lia|]. cbn [repeat concat]. destruct (decide (i < 4)%nat).
  - rewrite lookup_app_l by lia. by rewrite Nat.mod_small.
  - rewrite lookup_app_r by lia. rewrite IH, Hm by lia. replace i with ((i - 4) + 1 * 4)%nat at 2 by lia. by rewrite Nat.Div0.mod_add.
Qed.
Lemma key_stream_wf (mask : bytes) k n : wf_bytes mask → wf_bytes (take n (concat (repeat mask k))).
Proof. intros Hm. apply Forall_take, Forall_concat. apply Forall_forall. by intros x ->%list_elem_of_In%repeat_spec. Qed.

(** Masking as RFC 6455 states it: octet [i] with octet [i mod 4] of the key. *)
Definition mask_octets (data mask : bytes) : bytes := imap (λ i b, Z.lxor b (default 0 (mask !! (i mod 4)%nat))) data.

Lemma xor_mask_spec data mask : wf_bytes data → wf_bytes mask → length mask = 4%nat → xor_mask data mask = mask_octets data mask.
Proof.
  intros Hd Hm Hl. unfold xor_mask. destruct (Nat.eqb_spec (length data) 0) as [E|E]; [by apply nil_length_inv in E; subst|].
  set (key := take _ _). assert (Hk : length key = length data).
  { unfold key. rewrite length_take, (concat_length 4), repeat_length by (apply Forall_forall; by intros x ->%list_elem_of_In%repeat_spec).
    pose proof (Nat.div_mod_eq (length data) 4). pose proof (Nat.mod_upper_bound (length data) 4). lia. }
  assert (Hkw : wf_bytes key) by (by apply key_stream_wf). unfold be_int, be_bytes.
  assert (Hr : wf_bytes (reverse data) ∧ wf_bytes (reverse key)) by (split; by apply Forall_reverse). destruct Hr as [Hrd Hrk].
  destruct (le_int_xor (reverse data) (reverse key) Hrd Hrk) as [<- W]; [by rewrite !length_reverse|].
  rewrite <- reverse_zip in * by done. replace (length data) with (length (reverse (zip_with Z.lxor data key))).
  2: { rewrite length_reverse, length_zip_with. lia. }
  rewrite le_bytes_le_int by done. rewrite reverse_involutive. apply list_eq. intros i. unfold mask_octets. rewrite list_lookup_imap, lookup_zip_with.
  destruct (data !! i) as [b|] eqn:Eb; [|done]. cbn [mbind option_bind fmap option_fmap option_map]. apply lookup_lt_Some in Eb.
  unfold key. rewrite lookup_take_lt, key_stream_lookup by (lia || (pose proof (Nat.div_mod_eq (length data) 4); pose proof (Nat.mod_upper_bound (length data) 4); lia)).
  destruct (mask !! (i mod 4)%nat) eqn:Em; [done|]. apply lookup_ge_None in Em. pose proof (Nat.mod_upper_bound i 4). lia.
Qed.
Lemma mask_twice data mask : mask_octets (mask_octets data mask) mask = data.
Proof.
  apply list_eq. intros i. unfold mask_octets. rewrite !list_lookup_imap. destruct (data !! i); [|done]. cbn [fmap option_fmap option_map].
  by rewrite Z.lxor_assoc, Z.lxor_nilpotent, Z.lxor_0_r.
Qed.
Lemma mask_wf data mask : wf_bytes data → wf_bytes mask → length mask = 4%nat → wf_bytes (mask_octets data mask).
Proof.
  intros Hd Hm Hl. apply Forall_lookup. intros i x. unfold mask_octets. rewrite list_lookup_imap. destruct (data !! i) as [b|] eqn:Eb; [|done].
  intros Ex. apply (inj Some) in Ex as <-. apply lxor_byte; [exact (Forall_lookup_1 _ _ _ _ Hd Eb)|]. destruct (mask !! (i mod 4)%nat) as [m|] eqn:Em; [exact (Forall_lookup_1 _ _ _ _ Hm Em)|].
  done.
Qed.
Lemma mask_length data mask : length (mask_octets data mask) = length data.
Proof. apply length_imap. Qed.

(** ** Frames *)

(** A frame as a peer may send it: any fragment of a message, masked or not. *)
Definition wire_frame (fin : bool) (opcode : Z) (payload : bytes) (mask : option bytes) : result bytes :=
  h ← byte (Z.lor (if fin then 0x80 else 0) opcode);
  l ← length_field (match mask with Some _ => 0x80 | None => 0 end) (Z.of_nat (length payload));
  Ok (match mask with
      | None => h ++ l ++ payload
      | Some m => h ++ l ++ m ++ xor_mask payload m
      end).

(** Everything the connection will still deliver is [s]. *)
Definition delivers (w : ws) (s : bytes) : Prop :=
  ∃ cs, w_chunks w = map Ok cs ∧ Forall (λ c, c ≠ []) cs ∧ w_buf w ++ concat cs = s.

Lemma fill_to_delivers n cs : ∀ buf, Forall (λ c : bytes, c ≠ []) cs → (n ≤ length (buf ++ concat cs))%nat →
  ∃ buf' cs', fill_to n buf (map Ok cs) = (Ok tt, (buf', map Ok cs')) ∧ Forall (λ c, c ≠ []) cs' ∧
    buf' ++ concat cs' = buf ++ concat cs ∧ (n ≤ length buf')%nat.
Proof.
  induction cs as [|c cs IH]; intros buf Hne Hn; cbn [fill_to map].
  - cbn in Hn. rewrite app_nil_r in Hn. apply Nat.leb_le in Hn as Hn'. rewrite Hn'. exists buf, []. done.
  - destruct (Nat.leb_spec n (length buf)); [by exists buf, (c :: cs)|]. apply Forall_cons in Hne as [Hc Hne].
    destruct c as [|b c]; [done|]. destruct (IH (buf ++ b :: c) Hne) as (buf' & cs' & E & ? & Es & ?).
    + by rewrite <- (assoc_L (++)).
    + exists buf', cs'. rewrite E, Es, <- (assoc_L (++)). done.
Qed.
Lemma take_delivers n x rest w : delivers w (x ++ rest) → length x = n →
  ∃ w', take_n n w = (Ok x, w') ∧ delivers w' rest ∧ w_sent w' = w_sent w.
Proof.
  intros (cs & Ec & Hne & Es) Hn. destruct (fill_to_delivers n cs (w_buf w) Hne) as (buf & cs' & E & Hne' & Es' & Hl).
  { rewrite Es, length_app. lia. }
  unfold take_n. rewrite Ec, E. cbv beta iota. rewrite Es in Es'.
  assert (take n buf = x ∧ drop n buf ++ concat cs' = rest) as [Ex Er].
  { apply (f_equal (take n)) in Es' as Et. apply (f_equal (drop n)) in Es' as Ed.
    rewrite take_app_le, take_app_length' in Et by lia. rewrite drop_app_le, drop_app_length' in Ed by lia. done. }
  eexists. rewrite Ex. split; [reflexivity|]. split; [|done]. by exists cs'.
Qed.

(** The fields of the first two octets. *)
Lemma first_octet (fin : bool) opcode : 0 ≤ opcode < 16 → let b := Z.lor (if fin then 0x80 else 0) opcode in
  Z.land b 0x70 = 0 ∧ negb (Z.land b 0x80 =? 0) = fin ∧ Z.land b 0x0F = opcode.
Proof.
  intros H. assert (Hall : forallb (λ o, let b := Z.lor (if fin then 0x80 else 0) (Z.of_nat o) in
     (Z.land b 0x70 =? 0) && eqb (negb (Z.land b 0x80 =? 0)) fin && (Z.land b 0x0F =? Z.of_nat o)) (seq 0 16) = true) by (destruct fin; vm_compute; reflexivity).
  rewrite forallb_forall in Hall. specialize (Hall (Z.to_nat opcode)). rewrite Z2Nat.id in Hall by lia.
  assert (Hin : In (Z.to_nat opcode) (seq 0 16)) by (apply in_seq; lia). specialize (Hall Hin). cbv zeta in *.
  apply andb_true_iff in Hall as [[? ?]%andb_true_iff ?]. split_and!; [by apply Z.eqb_eq|by apply eqb_prop|by apply Z.eqb_eq].
Qed.
Lemma second_octet (masked : bool) n : 0 ≤ n < 128 → let b := Z.lor (if masked then 0x80 else 0) n in
  Z.land b 0x7F = n ∧ negb (Z.land b 0x80 =? 0) = masked.
Proof.
  intros H. assert (Hall : forallb (λ o, let b := Z.lor (if masked then 0x80 else 0) (Z.of_nat o) in
     (Z.land b 0x7F =? Z.of_nat o) && eqb (negb (Z.land b 0x80 =? 0)) masked) (seq 0 128) = true) by (destruct masked; vm_compute; reflexivity).
  rewrite forallb_forall in Hall. specialize (Hall (Z.to_nat n)). rewrite Z2Nat.id in Hall by lia.
  assert (Hin : In (Z.to_nat n) (seq 0 128)) by (apply in_seq; lia). specialize (Hall Hin). cbv zeta in *.
  apply andb_true_iff in Hall as [? ?]. split; [by apply Z.eqb_eq|by apply eqb_prop].
Qed.

(** The length field gives its value back. *)
Lemma length_field_ok (masked : bool) n l : 0 ≤ n → length_field (if masked then 0x80 else 0) n = Ok l →
  ∃ b ext, l = b :: ext ∧ negb (Z.land b 0x80 =? 0) = masked ∧
    ∀ rest w, delivers w (ext ++ rest) → ∃ w',
      (if Z.land b 0x7F =? 126 then l ← take_n 2; mret (be_int l) else if Z.land b 0x7F =? 127 then l ← take_n 8; mret (be_int l)
       else mret (Z.land b 0x7F)) w = (Ok n, w') ∧ delivers w' rest ∧ w_sent w' = w_sent w.
Proof.
  unfold length_field. intros Hn H. destruct (Z.ltb_spec n 126).
  - apply byte_ok in H as [_ ->]. destruct (second_octet masked n) as [E1 E2]; [lia|]. eexists _, []. split; [done|]. split; [done|].
    intros rest w Hw. rewrite E1. destruct (Z.eqb_spec n 126), (Z.eqb_spec n 127); [lia..|]. by exists w.
  - destruct (Z.ltb_spec n (Z.shiftl 1 16)) as [Hs|Hs]; inv_bind; simplify_eq;
      match goal with Hb : byte _ = Ok _, Hp : pack_u _ _ = Ok _ |- _ => apply byte_ok in Hb as [_ ->]; apply pack_u_ok in Hp as [Hp ->] end;
      (eexists _, _; split; [reflexivity|]).
    + destruct (second_octet masked 126) as [E1 E2]; [lia|]. split; [done|]. intros rest w Hw. rewrite E1. cbn [Z.eqb Pos.eqb].
      destruct (take_delivers 2 _ _ _ Hw) as (w' & E & ? & ?); [by rewrite length_reverse, le_bytes_length|].
      exists w'. split; [|done]. unfold mbind, SE_bind. rewrite E. unfold mret, SE_ret. do 2 f_equal. by apply (be_int_be_bytes 2).
    + destruct (second_octet masked 127) as [E1 E2]; [lia|]. split; [done|]. intros rest w Hw. rewrite E1. cbn [Z.eqb Pos.eqb].
      destruct (take_delivers 8 _ _ _ Hw) as (w' & E & ? & ?); [by rewrite length_reverse, le_bytes_length|].
      exists w'. split; [|done]. unfold mbind, SE_bind. rewrite E. unfold mret, SE_ret. do 2 f_equal. by apply (be_int_be_bytes 8).
Qed.

(** What a frame can carry. *)
Definition carriable (opcode : Z) (payload : bytes) (mask : option bytes) : Prop :=
  0 ≤ opcode < 16 ∧ wf_bytes payload ∧ Z.of_nat (length payload) ≤ MAX_MESSAGE ∧ (∀ m, mask = Some m → wf_bytes m ∧ length m = 4%nat).

Lemma read_wire_frame fin opcode payload mask e rest w :
  wire_frame fin opcode payload mask = Ok e → carriable opcode payload mask → delivers w (e ++ rest) →
  ∃ w', read_frame w = (Ok (fin, opcode, payload), w') ∧ delivers w' rest ∧ w_sent w' = w_sent w.
Proof.
  unfold wire_frame. intros H (Hop & Hp & Hmax & Hm) Hw. apply bind_ok in H as (h & Hh & H). apply bind_ok in H as (l & Hl & [= <-]).
  apply byte_ok in Hh as [_ ->]. destruct (first_octet fin opcode Hop) as (F1 & F2 & F3). set (b0 := Z.lor _ opcode) in *.
  set (masked := match mask with Some _ => true | None => false end).
  replace (match mask with Some _ => 0x80 | None => 0 end) with (if masked then 0x80 else 0) in Hl by (by destruct mask).
  apply length_field_ok in Hl as (b1 & ext & -> & Hmask & Hlen); [|lia].
  set (tail := match mask with None => payload | Some m => m ++ xor_mask payload m end).
  assert (Hw' : delivers w ([b0; b1] ++ ext ++ tail ++ rest)).
  { unfold tail. destruct mask; cbn in *; by rewrite <- ?(assoc_L (++)) in *. }
  destruct (take_delivers 2 _ _ _ Hw') as (w1 & E1 & D1 & S1); [done|]. destruct (Hlen _ _ D1) as (w2 & E2 & D2 & S2).
  unfold read_frame. unfold mbind at 1, SE_bind at 1. rewrite E1. change (default 0 ([b0; b1] !! 0%nat)) with b0. change (default 0 ([b0; b1] !! 1%nat)) with b1. cbv zeta. rewrite F1. cbn [Z.eqb negb].
  unfold mbind at 1, SE_bind at 1. rewrite E2. destruct (Z.ltb_spec MAX_MESSAGE (Z.of_nat (length payload))); [lia|].
  rewrite Hmask, F2, F3. destruct mask as [m|]; subst tail masked; cbn [app] in *.
  - destruct (Hm m eq_refl) as [Hmw Hm4]. rewrite <- (assoc_L (++)) in D2. destruct (take_delivers 4 _ _ _ D2) as (w3 & E3 & D3 & S3); [done|].
    assert (Hx : length (xor_mask payload m) = length payload) by (rewrite xor_mask_spec by done; apply mask_length).
    destruct (take_delivers (length payload) _ _ _ D3) as (w4 & E4 & D4 & S4); [done|]. exists w4.
    unfold mbind, SE_bind. rewrite E3. cbn [mret SE_ret]. rewrite Nat2Z.id. unfold mret, SE_ret. rewrite E4. split_and!; [|done|congruence].
    do 3 f_equal. rewrite !xor_mask_spec; [apply mask_twice|done..| |done|done]. rewrite xor_mask_spec by done. by apply mask_wf.
  - destruct (take_delivers (length payload) _ _ _ D2) as (w3 & E3 & D3 & S3); [done|]. exists w3.
    unfold mbind, SE_bind, mret, SE_ret. rewrite Nat2Z.id, E3. split_and!; [done|done|congruence].
Qed.

(** ** Messages *)

(** What a peer sends on the way to a complete message: fragments, with control frames anywhere between them. *)
Inductive item := Ping (payload : bytes) | Pong (payload : bytes) | Fragment (payload : bytes).
Fixpoint frames (kind : Z) (started : bool) (body : list item) (final : bytes) : list (bool * Z * bytes) :=
  match body with
  | [] => [(true, if started then OP_CONT else kind, final)]
  | Ping p :: rest => (true, OP_PING, p) :: frames kind started rest final
  | Pong p :: rest => (true, OP_PONG, p) :: frames kind started rest final
  | Fragment p :: rest => (false, if started then OP_CONT else kind, p) :: frames kind true rest final
  end.
Definition pongs (body : list item) : list (Z * bytes) := omap (λ i, match i with Ping p => Some (OP_PONG, p) | _ => None end) body.
Definition fragments (body : list item) : list bytes := omap (λ i, match i with Fragment p => Some p | _ => None end) body.

Lemma deliverable_delivers w s : delivers w s → deliverable w = length s.
Proof.
  intros (cs & Ec & _ & <-). unfold deliverable. rewrite Ec, length_app. f_equal. induction cs as [|c cs IH] in |- *; [done|].
  cbn. by rewrite length_app, IH.
Qed.
Lemma wire_frame_long fin op p m e : wire_frame fin op p m = Ok e → (2 ≤ length e)%nat.
Proof.
  unfold wire_frame. intros H. apply bind_ok in H as (h & Hh & H). apply bind_ok in H as (l & Hl & [= <-]). apply byte_ok in Hh as [_ ->].
  assert (1 ≤ length l)%nat; [|destruct m; cbn; rewrite ?length_app; lia].
  unfold length_field in Hl. repeat case_match; inv_bind; simplify_eq; rewrite ?length_app;
    repeat match goal with Hb : byte _ = Ok _ |- _ => apply byte_ok in Hb as [_ ->] end; cbn; lia.
Qed.

Section messages.
Context (send : Z → bytes → result unit).

Lemma fill_to_total n : ∀ chunks buf r buf' chunks', fill_to n buf chunks = (r, (buf', chunks')) →
  (length buf' + sum_list (map (λ c, match c with Ok b => length b | Raise _ => O end) chunks') ≤
   length buf + sum_list (map (λ c, match c with Ok b => length b | Raise _ => O end) chunks))%nat ∧ (r = Ok tt → (n ≤ length buf')%nat).
Proof.
  induction chunks as [|c chunks IH]; intros buf r buf' chunks' H; cbn [fill_to] in H; destruct (Nat.leb_spec n (length buf)).
  - injection H as <- <- <-. done.
  - injection H as <- <- <-. split; [done|discriminate].
  - injection H as <- <- <-. done.
  - destruct c as [[|b c]|e].
    + injection H as <- <- <-. split; [cbn; lia|discriminate].
    + apply IH in H as [H ?]. split; [|done]. rewrite length_app in H. cbn in *. lia.
    + injection H as <- <- <-. split; [cbn; lia|discriminate].
Qed.
Lemma take_total n w r w' : take_n n w = (r, w') → (deliverable w' + match r with Ok _ => n | Raise _ => O end ≤ deliverable w)%nat.
Proof.
  unfold take_n. destruct (fill_to n (w_buf w) (w_chunks w)) as [r0 [buf cs]] eqn:E. apply fill_to_total in E as [E1 E2].
  destruct r0 as [[]|e]; intros [= <- <-]; unfold deliverable in *; cbn; [|lia]. rewrite length_drop. specialize (E2 eq_refl). lia.
Qed.

(** Nothing is put back. *)
Definition consumed (w w' : ws) : Prop := (deliverable w' ≤ deliverable w)%nat.
#[export] Instance consumed_tr : Transition consumed.
Proof. split; unfold consumed; lia. Qed.
Lemma consumed_take n : rel consumed (take_n n).
Proof. intros w. destruct (take_n n w) as [r w'] eqn:E. apply take_total in E. unfold consumed. cbn. lia. Qed.
Lemma consumed_send op p : rel consumed (send_frame send op p).
Proof. unfold send_frame. apply rel_bind; [apply _|apply rel_lift, _|intros; apply rel_put; intros ?; unfold consumed, deliverable; cbn; lia]. Qed.
Lemma consumed_on f parts kind : rel consumed (on_frame send f parts kind).
Proof.
  destruct f as [[fin op] p]. unfold on_frame. repeat case_match; repeat first [apply consumed_send | apply rel_try | apply rel_bind; [apply _| |intros ?] | apply rel_ret, _ | apply rel_lift, _ | case_match].
Qed.
Lemma read_consumes w r w' : read_frame w = (r, w') → (deliverable w' + match r with Ok _ => 2 | Raise _ => 0 end ≤ deliverable w)%nat.
Proof.
  unfold read_frame. unfold mbind at 1, SE_bind at 1. destruct (take_n 2 w) as [[h|e] w1] eqn:E; apply take_total in E; [|intros [= <- <-]; lia].
  cbv zeta. intros H. assert (consumed w1 w').
  { rewrite <- (se_run _ _ _ _ H). clear H. case_match; [apply tr_refl|]. clear E. revert w1.
    match goal with |- ∀ w1, consumed w1 (?c w1).2 => change (rel consumed c) end.
    repeat first [apply consumed_take | apply rel_bind; [apply _| |intros ?] | apply rel_ret, _ | apply rel_lift, _ | case_match]. }
  unfold consumed in *. destruct r; lia.
Qed.

(** [recv] always returns or raises. *)
Lemma recv_loop_total fuel : ∀ parts kind w, (deliverable w < fuel)%nat → is_Some (recv_loop send fuel parts kind w).
Proof.
  induction fuel as [|fuel IH]; intros parts kind w Hf; [lia|]. cbn [recv_loop]. unfold mbind, SE_bind.
  destruct (read_frame w) as [[f|e] w1] eqn:E; apply read_consumes in E; [|eauto].
  pose proof (consumed_on f parts kind w1) as Hc. destruct (on_frame send f parts kind w1) as [[[m|[ps k]]|e] w2]; [eauto| |eauto].
  apply IH. unfold consumed in Hc. cbn in Hc. lia.
Qed.
Lemma recv_total w : is_Some (recv send w).
Proof. apply recv_loop_total. lia. Qed.

Lemma on_data kind (started fin : bool) p parts w : kind = OP_TEXT ∨ kind = OP_BIN → Z.of_nat (length (concat (parts ++ [p]))) ≤ MAX_MESSAGE →
  on_frame send (fin, if started then OP_CONT else kind, p) parts (if started then Some kind else None) w =
  (if fin then inl <$> finish kind (concat (parts ++ [p])) else Ok (inr (parts ++ [p], Some kind)), w).
Proof.
  intros Hk Hmax. apply Z.ltb_ge in Hmax. unfold on_frame. destruct Hk as [-> | ->], started, fin; unfold mbind, SE_bind, se_lift;
    cbn -[MAX_MESSAGE finish concat app length]; rewrite Hmax; try done; by destruct (finish _ _).
Qed.

Lemma length_part (parts more : list bytes) p : (length (concat (parts ++ [p])) ≤ length (concat (parts ++ p :: more)))%nat.
Proof. rewrite !concat_app, !length_app. cbn. rewrite !length_app. cbn. lia. Qed.

(** The frames of a script, read one after the other, complete the message. *)
Lemma recv_loop_assembles kind mask body : (∀ op p, send op p = Ok tt) → kind = OP_TEXT ∨ kind = OP_BIN →
  ∀ fuel parts started final e rest w m,
  join (λ f, wire_frame f.1.1 f.1.2 f.2 mask) (frames kind started body final) = Ok e →
  Forall (λ f, carriable f.1.2 f.2 mask) (frames kind started body final) →
  Z.of_nat (length (concat (parts ++ fragments body ++ [final]))) ≤ MAX_MESSAGE →
  finish kind (concat (parts ++ fragments body ++ [final])) = Ok m →
  delivers w (e ++ rest) → (length (frames kind started body final) ≤ fuel)%nat →
  ∃ w', recv_loop send fuel parts (if started then Some kind else None) w = Some (Ok m, w') ∧ delivers w' rest ∧ w_sent w' = w_sent w ++ pongs body.
Proof.
  intros Hsend Hkind. induction body as [|x body IH]; intros fuel parts started final e rest w m He Hc Hmax Hfin Hw Hf.
  - destruct fuel as [|fuel]; [cbn in Hf; lia|]. cbn [frames join] in He. apply bind_ok in He as (h & Hh & [= <-]). rewrite app_nil_r in Hw.
    cbn [frames] in Hc. rewrite Forall_singleton in Hc. destruct (read_wire_frame _ _ _ _ _ _ _ Hh Hc Hw) as (w1 & E1 & D1 & S1). cbn [fst snd] in E1.
    exists w1. cbn [recv_loop]. unfold mbind, SE_bind. rewrite E1, on_data by done. cbn [app fragments omap list_omap] in *. rewrite Hfin.
    split; [done|]. split; [done|]. cbn. by rewrite app_nil_r.
  - destruct fuel as [|fuel]; [destruct x; cbn in Hf; lia|].
    assert (Hstep : ∃ f fs started', frames kind started (x :: body) final = f :: fs ∧ fs = frames kind started' body final ∧
       f = match x with Ping p => (true, OP_PING, p) | Pong p => (true, OP_PONG, p) | Fragment p => (false, if started then OP_CONT else kind, p) end ∧
       started' = match x with Fragment _ => true | _ => started end) by (destruct x; eexists _, _, _; done).
    destruct Hstep as (f & fs & st' & E & -> & Ef & Est). rewrite E in *. cbn [join] in He. apply bind_ok in He as (h & Hh & He).
    apply bind_ok in He as (t & Ht & [= <-]). apply Forall_cons in Hc as [Hcf Hc]. rewrite <- (assoc_L (++)) in Hw.
    destruct (read_wire_frame _ _ _ _ _ _ _ Hh Hcf Hw) as (w1 & E1 & D1 & S1). rewrite <- !surjective_pairing in E1. cbn [length] in Hf.
    cbn [recv_loop]. unfold mbind, SE_bind. rewrite E1. clear E1 E Hh Hcf. destruct x as [p|p|p]; subst f st'.
    + cbn [on_frame]. unfold send_frame, mbind, SE_bind, se_lift. cbn -[recv_loop]. rewrite Hsend. cbn -[recv_loop].
      edestruct (IH fuel parts started final t rest (Ws (w_buf w1) (w_chunks w1) (w_sent w1 ++ [(OP_PONG, p)])) m) as (w' & -> & D & S); try done; [lia|].
      exists w'. split; [done|]. split; [done|]. rewrite S. cbn. by rewrite S1, <- (assoc_L (++)).
    + edestruct (IH fuel parts started final t rest w1 m) as (w' & Er & D & S); try done; [lia|]. exists w'. cbn -[recv_loop]. rewrite Er.
      split; [done|]. split; [done|]. by rewrite S, S1.
    + cbn [fragments omap list_omap] in *. fold (fragments body) in *. rewrite on_data; [|done|].
      2: { pose proof (length_part parts (fragments body ++ [final]) p). cbn [app] in *. lia. }
      edestruct (IH fuel (parts ++ [p]) true final t rest w1 m) as (w' & Er & D & S); try done; [by rewrite <- (assoc_L (++))..|lia|].
      exists w'. cbn -[recv_loop]. rewrite Er. split; [done|]. split; [done|]. by rewrite S, S1.
Qed.
End messages.

Lemma frames_count kind mask started body final e :
  join (λ f, wire_frame f.1.1 f.1.2 f.2 mask) (frames kind started body final) = Ok e → (length (frames kind started body final) ≤ length e)%nat.
Proof.
  generalize (frames kind started body final). intros l. revert e. induction l as [|f l IH]; intros e; cbn [join].
  - intros _. cbn. lia.
  - intros H. apply bind_ok in H as (h & Hh & H). apply bind_ok in H as (t & Ht & [= <-]). apply wire_frame_long in Hh. apply IH in Ht.
    rewrite length_app. cbn. lia.
Qed.

(** (C22) A message is received as it was sent: however the peer fragments it, masks the frames, splits them into TCP chunks and
    mixes in pings and pongs, [recv] returns exactly its bytes, answers every ping with a pong of the same payload, in
    order, and leaves what follows the message on the connection. *)
Theorem recv_assembles send kind mask body final e rest w m :
  (∀ op p, send op p = Ok tt) → kind = OP_TEXT ∨ kind = OP_BIN →
  join (λ f, wire_frame f.1.1 f.1.2 f.2 mask) (frames kind false body final) = Ok e →
  Forall (λ f, carriable f.1.2 f.2 mask) (frames kind false body final) →
  Z.of_nat (length (concat (fragments body ++ [final]))) ≤ MAX_MESSAGE → finish kind (concat (fragments body ++ [final])) = Ok m →
  delivers w (e ++ rest) →
  ∃ w', recv send w = Some (Ok m, w') ∧ delivers w' rest ∧ w_sent w' = w_sent w ++ pongs body.
Proof.
  intros Hsend Hk He Hc Hmax Hfin Hw. unfold recv.
  apply (recv_loop_assembles send kind mask body Hsend Hk (S (deliverable w)) [] false final e rest w m He Hc Hmax Hfin Hw).
  apply frames_count in He. rewrite (deliverable_delivers _ _ Hw), length_app. lia.
Qed.

(** ** The client *)

(** A JSON-RPC message: its "id" member (absent, null or a number), its error's code, its result. *)
Record rpc_reply (A : Type) := Reply { rp_object : bool; rp_id : option (option Z); rp_error : option (option Z); rp_result : A }.
Arguments Reply {A} _ _ _ _.
Arguments rp_object {A} _.
Arguments rp_id {A} _.
Arguments rp_error {A} _.
Arguments rp_result {A} _.

Section client.
Context {A : Type}.
(** [connect n] opens the n-th connection, with the messages it will deliver; [send n] is the outcome of the n-th request's send. *)
Context (connect : nat → result (list (result (rpc_reply A)))) (send : nat → result unit).

Record client := Client {
  cl_ws : option (list (result (rpc_reply A)));     (* the open connection *)
  cl_next_id : Z;
  cl_connects : nat;
  cl_requests : list Z                           (* the ids of the requests handed to the socket *)
}.
Definition set_ws x (c : client) : client := Client x (cl_next_id c) (cl_connects c) (cl_requests c).
Notation C := (SE client).

(** ours: our id, or null *)
Definition ours (rid : Z) (m : rpc_reply A) : bool :=
  rp_object m && match rp_id m with Some None => true | Some (Some i) => i =? rid | None => false end.
(** The inner loop of [call]: messages are skipped until ours *)
Fixpoint await (rid : Z) (l : list (result (rpc_reply A))) : result (rpc_reply A) * list (result (rpc_reply A)) :=
  match l with
  | [] => (Raise (WebSocketError "connection closed by peer"), [])
  | Raise e :: rest => (Raise e, rest)
  | Ok m :: rest => if ours rid m then (Ok m, rest) else await rid rest
  end.

(** The body of the try of [call] *)
Definition request : C (rpc_reply A) :=
  o ← se_get cl_ws;
  _ ← match o with
      | Some _ => mret tt
      | None =>
          n ← se_get cl_connects;
          _ ← se_put (λ c, Client (cl_ws c) (cl_next_id c) (S (cl_connects c)) (cl_requests c));
          l ← se_lift (connect n);
          se_put (set_ws (Some l))
      end;
  _ ← se_put (λ c, Client (cl_ws c) (cl_next_id c + 1) (cl_connects c) (cl_requests c));
  rid ← se_get cl_next_id;
  n ← se_get (λ c, length (cl_requests c));
  _ ← se_put (λ c, Client (cl_ws c) (cl_next_id c) (cl_connects c) (cl_requests c ++ [rid]));
  _ ← se_lift (send n);
  l ← se_get (λ c, default [] (cl_ws c));
  let '(r, rest) := await rid l in
  _ ← se_put (set_ws (Some rest));
  se_lift r.

(** [except (OSError, ValueError)] *)
Definition transport (e : exn) : bool := match e with OSError _ | WebSocketError _ | ValueError _ => true | _ => false end.
Definition as_os_error (e : exn) : exn := match e with ValueError _ => WebSocketError "bad JSON-RPC frame" | e => e end.
(** What a reply means *)
Definition unwrap (m : rpc_reply A) : result A :=
  match rp_error m with Some code => Raise (Jip2Error code) | None => Ok (rp_result m) end.

(** [call(method, *params, retry)] from an attempt on: [left] more attempts after this one *)
Fixpoint call_from (left : nat) (retry : bool) : C A :=
  r ← se_try request;
  match r with
  | Ok m => se_lift (unwrap m)
  | Raise e =>
      if transport e then
        _ ← se_put (set_ws None);
        match left with
        | S left' => if retry then call_from left' retry else se_lift (Raise (as_os_error e))
        | O => se_lift (Raise (as_os_error e))
        end
      else se_lift (Raise e)
  end.
Definition call_rpc (retry : bool) : C A := call_from 1 retry.

(** *** Theorems *)
Definition asked (n : nat) (c c' : client) : Prop := ∃ l, cl_requests c' = cl_requests c ++ l ∧ (length l ≤ n)%nat.

Lemma request_asks c r c' : request c = (r, c') →
  asked 1 c c' ∧ ∀ m, r = Ok m → ∃ rid, ours rid m = true ∧ last (cl_requests c') = Some rid.
Proof.
  intros H. unfold request in H. unfold mbind at 1, SE_bind at 1 in H. cbn [se_get] in H. unfold mbind at 1, SE_bind at 1 in H.
  match type of H with match ?o c with _ => _ end = _ => destruct (o c) as [[u|e] c1] eqn:E1 end.
  all: assert (Er : cl_requests c1 = cl_requests c).
  1, 3: revert E1; destruct (cl_ws c); [by intros [= _ <-]|]; unfold mbind, SE_bind; cbn; destruct (connect _); by intros [= _ <-].
  - unfold mbind, SE_bind in H. cbn [se_put se_get se_lift] in H. cbn [cl_requests cl_next_id cl_ws] in H.
    destruct (send (length (cl_requests c1))) as [u'|e'].
    2: { injection H as <- <-. cbn. rewrite Er. split; [|done]. eexists. split; [done|cbn; lia]. }
    cbn [cl_requests cl_next_id cl_ws] in H. destruct (await _ _) as [r0 rest] eqn:Ea. injection H as <- <-. cbn. rewrite Er.
    split; [eexists; split; [done|cbn; lia]|]. intros m ->. exists (cl_next_id c1 + 1). rewrite last_snoc. split; [|done].
    revert Ea. generalize (default [] (cl_ws c1)). intros l. induction l as [|[m'|e'] l IH]; cbn; [done| |done].
    destruct (ours (cl_next_id c1 + 1) m') eqn:Eo; [|done]. by intros [= -> _].
  - injection H as <- <-. split; [|done]. exists []. rewrite Er, app_nil_r. split; [done|cbn; lia].
Qed.

Lemma call_from_asks left retry : ∀ c r c', call_from left retry c = (r, c') → asked (if retry then S left else 1) c c'.
Proof.
  induction left as [|left IH]; intros c r c' H; cbn [call_from] in H; unfold mbind, SE_bind, se_try in H;
    destruct (request c) as [r0 c1] eqn:E; apply request_asks in E as [(l & El & Hl) _]; destruct r0 as [m|e].
  all: try (injection H as <- <-; exists l; split; [done|destruct retry; lia]).
  all: destruct (transport e); [|injection H as <- <-; exists l; split; [done|destruct retry; lia]].
  - injection H as <- <-. exists l. split; [done|destruct retry; lia].
  - destruct retry; [|injection H as <- <-; exists l; split; [done|lia]].
    apply IH in H as (l' & El' & Hl'). exists (l ++ l'). cbn in El'. rewrite El', El, <- (assoc_L (++)), length_app. split; [done|]. lia.
Qed.

(** What the transport raises, as its documentation says. *)
Definition transport_raises : Prop :=
  (∀ n e, connect n = Raise e → transport e = true) ∧ (∀ n e, send n = Raise e → transport e = true) ∧
  ∀ n l, connect n = Ok l → Forall (λ x, ∀ e, x = Raise e → transport e = true) l.
Definition sound_ws (c : client) : Prop := ∀ l, cl_ws c = Some l → Forall (λ x, ∀ e, x = Raise e → transport e = true) l.

Lemma await_raises rid l e rest : Forall (λ x, ∀ e, x = Raise e → transport e = true) l → await rid l = (Raise e, rest) → transport e = true.
Proof.
  induction 1 as [|[m|x] l Hx Hl IH]; cbn; [by intros [= <- _]| |].
  - destruct (ours rid m); [done|apply IH].
  - intros [= <- _]. by apply Hx.
Qed.
Lemma request_raises c e c' : transport_raises → sound_ws c → request c = (Raise e, c') → transport e = true.
Proof.
  intros (Hcon & Hsend & Hmsg) Hc H. unfold request in H. unfold mbind at 1, SE_bind at 1 in H. cbn [se_get] in H. unfold mbind at 1, SE_bind at 1 in H.
  match type of H with match ?o c with _ => _ end = _ => destruct (o c) as [[u|x] c1] eqn:E1 end.
  - assert (Hc1 : sound_ws c1).
    { revert E1. destruct (cl_ws c) eqn:Ew; [by intros [= _ <-]|]. unfold mbind, SE_bind. cbn. destruct (connect (cl_connects c)) as [l|] eqn:El; [|done].
      intros [= _ <-] l' [= <-]. by eapply Hmsg. }
    unfold mbind, SE_bind in H. cbn [se_put se_get se_lift] in H. cbn [cl_requests cl_next_id cl_ws] in H.
    destruct (send (length (cl_requests c1))) as [u'|e'] eqn:Es; [|injection H as <- _; by eapply Hsend].
    cbn [cl_requests cl_next_id cl_ws] in H. destruct (await _ _) as [r0 rest] eqn:Ea. injection H as -> _. eapply await_raises; [|exact Ea].
    destruct (cl_ws c1) eqn:Ew; [by apply Hc1|constructor].
  - injection H as <- _. revert E1. destruct (cl_ws c); [done|]. unfold mbind, SE_bind. cbn. destruct (connect (cl_connects c)) eqn:El; [done|].
    intros [= <- _]. by eapply Hcon.
Qed.
End client.

(** A submission goes out at most once and a read at most twice; what is returned is the result of a reply to the last
    request made. *)
Theorem call_asks_once {A} connect send retry (c : @client A) r c' : call_rpc connect send retry c = (r, c') →
  asked (if retry then 2 else 1) c c' ∧
  ∀ a, r = Ok a → ∃ m rid, ours rid m = true ∧ last (cl_requests c') = Some rid ∧ unwrap m = Ok a.
Proof.
  intros H. split; [pose proof (call_from_asks connect send 1 retry c r c' H) as Ha; by destruct retry|]. intros a ->. unfold call_rpc in H. revert c H.
  generalize 1%nat. intros left. induction left as [|left IH]; intros c H; cbn [call_from] in H; unfold mbind, SE_bind, se_try in H;
    destruct (request connect send c) as [[m|e] c1] eqn:E.
  1, 3: apply request_asks in E as [_ E]; destruct (E m eq_refl) as (rid & ? & ?); injection H as H <-; eauto.
  - by destruct (transport e).
  - destruct (transport e); [|done]. destruct retry; [|done]. by apply IH in H.
Qed.

(** The client raises nothing but what [Jip2Chain] handles, when the transport raises what its documentation says. *)
Theorem call_raises {A} connect send retry (c : @client A) e c' :
  transport_raises connect send → sound_ws c → call_rpc connect send retry c = (Raise e, c') →
  match e with Jip2Error _ | OSError _ | WebSocketError _ => True | _ => False end.
Proof.
  intros Ht Hc H. unfold call_rpc in H. revert c Hc H. generalize 1%nat. intros left.
  induction left as [|left IH]; intros c Hc H; cbn [call_from] in H; unfold mbind, SE_bind, se_try in H;
    destruct (request connect send c) as [[m|x] c1] eqn:E.
  1, 3: injection H as H _; unfold unwrap in H; destruct (rp_error m); [by injection H as <-|discriminate].
  all: pose proof (request_raises connect send c x c1 Ht Hc E) as Hx; rewrite Hx in H.
  - injection H as <- _. by destruct x.
  - destruct retry; [by apply IH in H|]. injection H as <- _. by destruct x.
Qed.

(** A text of two fragments with a ping between them, delivered in two chunks. *)
Definition sample_body : list item := [Fragment [123; 34]; Ping [5; 6]].
Definition sample_wire : bytes := match join (λ f, wire_frame f.1.1 f.1.2 f.2 (Some [1; 2; 3; 4])) (frames OP_TEXT false sample_body [34; 125]) with Ok e => e | Raise _ => [] end.
Lemma recv_assembles_witness :
  ∃ w', recv (λ _ _, Ok tt) (Ws [] (map Ok [take 7 sample_wire; drop 7 sample_wire ++ [9]]) []) = Some (Ok (Text [123; 34; 34; 125]), w') ∧ w_sent w' = [(OP_PONG, [5; 6])].
Proof.
  destruct (recv_assembles (λ _ _, Ok tt) OP_TEXT (Some [1; 2; 3; 4]) sample_body [34; 125] sample_wire [9]
              (Ws [] (map Ok [take 7 sample_wire; drop 7 sample_wire ++ [9]]) []) (Text [123; 34; 34; 125])) as (w' & H & _ & Hs).
  - reflexivity.
  - left. reflexivity.
  - vm_compute. reflexivity.
  - assert (Hm : ∀ m, Some [1; 2; 3; 4] = Some m → wf_bytes m ∧ length m = 4%nat).
    { intros m Em. injection Em as <-. split; [|reflexivity]. apply (bool_decide_unpack _). vm_compute. exact I. }
    repeat (apply Forall_cons; split); [..|apply Forall_nil; exact I]; (split_and!; [vm_compute; congruence|vm_compute; congruence|apply (bool_decide_unpack _); vm_compute; exact I|vm_compute; congruence|exact Hm]).
  - vm_compute. congruence.
  - vm_compute. reflexivity.
  - exists [take 7 sample_wire; drop 7 sample_wire ++ [9]]. split_and!; [reflexivity| |vm_compute; reflexivity].
    repeat (apply Forall_cons; split); [vm_compute; congruence..|apply Forall_nil; exact I].
  - exists w'. split; [exact H|exact Hs].
Defined.
