(* ===== verification/Wire.v ===== *)
(** * The wire formats of rounds and operations

    The work-item payloads src/offchain/server.py and dex_setup.py build (orders, the signed
    public section, public and sealed rounds, deposits, listings, cancels, withdrawals), the
    parsers the server runs on chain storage ([_parse_book], [_set_entries]) and, from the
    service, the parsers the payloads must suit: [decode_orders], [decode_signed_orders]
    (src/crates/match-engine/src/wire.rs), [parse_public_section] and the round arms of [refine]
    (src/service/src/lib.rs), and [deposit::decode]/[deposit::admit].

    Results: a payload the builder assembles is understood by refine as exactly the orders, the
    pruned book and the header it was built from; deposits are credited once however often
    they are sent.  Hashing and signature verification are parameters. *)
From S2P Require Import Prelude Orders Bytes.

(** ** Constants *)
Definition TAG_DEPOSIT : Z := 1.
Definition TAG_REVEAL : Z := 3.
Definition TAG_CANCEL : Z := 4.
Definition TAG_WITHDRAW : Z := 5.
Definition TAG_LIST : Z := 6.
Definition TAG_SMATCH : Z := 12.
Definition FLAG_MARKET : Z := 1.
Definition SET_ENTRY_LEN : nat := 36.
Definition FEE_ACCOUNT : Z := 0xFFFFFFFF.

(** ** What the builder writes *)
Definition order_bytes (a i s p q : Z) : result bytes := pack [(4%nat, a); (4%nat, i); (1%nat, s); (4%nat, p); (4%nat, q)].

Definition signed_order_bytes (o : order) : result bytes :=
  let flags := match otype o with market => FLAG_MARKET | limit => 0 end in
  ob ← order_bytes (account o) (oid o) (side o) (price o) (qty o);
  f ← byte flags;
  t ← pack [(4%nat, signed_price o); (8%nat, seq o)];
  Ok (ob ++ f ++ t ++ pubkey o ++ sig o).

Definition pair_bytes (p : Z * Z) : result bytes := pack [(4%nat, p.1); (4%nat, p.2)].

Definition public_section_bytes (public : list order) (pruned : list (Z * Z)) (raw_book : bytes) :
    result bytes :=
  ns ← pack [(2%nat, Z.of_nat (length public))];
  ss ← join signed_order_bytes public;
  np ← pack [(2%nat, Z.of_nat (length pruned))];
  ps ← join pair_bytes pruned;
  Ok (ns ++ ss ++ np ++ ps ++ raw_book).

(** [o["reveal"]], a [KeyError] when the key is missing *)
Definition get_reveal (o : order) : result bytes :=
  match reveal o with Some r => Ok r | None => Raise (KeyError "reveal") end.

(** The payload of [_assemble_round] in commit-reveal mode: a signed public round, or a sealed
    round with the commitments and reveals in front of the section. *)
Definition round_payload (commitment : bytes → bytes) (m base quote : Z) (sealed public : list order)
    (pruned : list (Z * Z)) (raw : bytes) : result bytes :=
  hdr ← pack [(4%nat, m); (4%nat, base); (4%nat, quote)];
  section ← public_section_bytes public pruned raw;
  match sealed with
  | [] => t ← byte TAG_SMATCH; Ok (t ++ hdr ++ section)
  | _ =>
      commits ← join (λ o, r ← get_reveal o; Ok (commitment r)) sealed;
      reveals ← join get_reveal sealed;
      t ← byte TAG_REVEAL;
      cl ← pack [(4%nat, Z.of_nat (length commits))];
      rl ← pack [(4%nat, Z.of_nat (length reveals))];
      Ok (t ++ hdr ++ cl ++ commits ++ rl ++ reveals ++ section)
  end.

Definition deposit_payload (acct asset amount nonce : Z) : result bytes :=
  if negb ((0 <? nonce) && (nonce <? Z.shiftl 1 64)) then
    Raise (ValueError "a deposit nonce is in 1..2^64-1")
  else
    t ← byte TAG_DEPOSIT;
    b ← pack [(4%nat, acct); (4%nat, asset); (8%nat, amount); (8%nat, nonce)];
    Ok (t ++ b).

Definition list_payload (m base quote : Z) : result bytes :=
  t ← byte TAG_LIST; b ← pack [(4%nat, m); (4%nat, base); (4%nat, quote)]; Ok (t ++ b).

Definition cancel_payload (handle m i nonce : Z) (sg key : bytes) : result bytes :=
  t ← byte TAG_CANCEL; b ← pack [(4%nat, handle); (4%nat, m); (4%nat, i); (8%nat, nonce)];
  Ok (t ++ b ++ sg ++ key).

Definition withdraw_payload (handle asset amount nonce : Z) (sg key : bytes) : result bytes :=
  t ← byte TAG_WITHDRAW; b ← pack [(4%nat, handle); (4%nat, asset); (8%nat, amount); (8%nat, nonce)];
  Ok (t ++ b ++ sg ++ key).

(** The message an order's owner signs: [canon(b"order", ...)] in [api_order]; the prefix is
    ["jamswap:v1:order"]. *)
Definition ORDER_CANON : bytes :=
  [106;97;109;115;119;97;112;58;118;49;58;111;114;100;101;114].
Definition order_msg (a m s q : Z) (is_market is_sealed : bool) (sp sq : Z) : result bytes :=
  b ← pack [(4%nat, a); (4%nat, m); (1%nat, s); (4%nat, q); (1%nat, if is_market then 1 else 0);
            (1%nat, if is_sealed then 1 else 0); (4%nat, sp); (8%nat, sq)];
  Ok (ORDER_CANON ++ b).

(** ** What is read back from storage *)

Definition ORDER_LEN : nat := 17.

(** A dict of [_parse_book]: only the five fields and [sealed=False] are present; the object is
    fresh ([ref]). *)
Definition book_order (ref : positive) (f : list Z) : option order :=
  match f with
  | [a; i; s; p; q] => Some (mk_order ref a i s p q false)
  | _ => None
  end.

Definition parse_book (raw : bytes) : list order :=
  omap id (imap (λ k c, book_order (Pos.of_succ_nat k) (unpack [4; 4; 1; 4; 4]%nat c))
    (chunks ORDER_LEN (length raw / ORDER_LEN) raw)).

(** [_set_entries]: the (hash, account) entries of a commit set *)
Definition set_entries (raw : bytes) : list bytes :=
  chunks SET_ENTRY_LEN (length raw / SET_ENTRY_LEN) raw.

(** ** What the service reads *)

(** A [match_engine::Order]. *)
Record wire_order := WireOrder { w_account : Z; w_id : Z; w_side : Z; w_price : Z; w_qty : Z }.
#[global] Instance wire_order_eq_dec : EqDecision wire_order.
Proof. solve_decision. Defined.

Definition wire_of (o : order) : wire_order := WireOrder (account o) (oid o) (side o) (price o) (qty o).

Definition decode_order (c : bytes) : option wire_order :=
  match unpack [4; 4; 1; 4; 4]%nat c with
  | [a; i; s; p; q] => Some (WireOrder a i (if s =? 0 then 0 else 1) p q)
  | _ => None
  end.

Definition decode_orders (data : bytes) : list wire_order :=
  omap decode_order (chunks ORDER_LEN (length data / ORDER_LEN) data).

Definition SIGNED_ORDER_LEN : nat := 126.

Record signed_wire := SignedWire {
  sw_order : wire_order;
  sw_flags : Z;
  sw_signed_price : Z;
  sw_seq : Z;
  sw_pubkey : bytes;
  sw_sig : bytes
}.

Definition decode_signed_order (c : bytes) : option signed_wire :=
  o ← decode_order (take 17 c);
  Some (SignedWire o (le_int (slice c 17 18)) (le_int (slice c 18 22)) (le_int (slice c 22 30))
          (slice c 30 62) (slice c 62 126)).

Definition decode_signed_orders (data : bytes) : list signed_wire :=
  omap decode_signed_order (chunks SIGNED_ORDER_LEN (length data / SIGNED_ORDER_LEN) data).

(** A [wire::Binding], what accumulate checks of a new order. *)
Record binding := Binding { b_account : Z; b_seq : Z; b_pubkey : bytes; b_flags : Z; b_price : Z }.

Record public_section := PublicSection {
  ps_book : list wire_order;
  ps_new : list wire_order;
  ps_bindings : list binding;
  ps_raw : bytes
}.

(** [data.get(off..)?] *)
Definition rest_r : reader bytes := λ buf i, Ok (drop i buf, length buf).

(** The checks refine makes of one signed order; [verify] is the ed25519 verification. *)
Definition admit_signed (verify : bytes → bytes → bytes → bool) (m : Z) (s : signed_wire) :
    option binding :=
  let is_market := negb (Z.land (sw_flags s) FLAG_MARKET =? 0) in
  if negb (Z.land (sw_flags s) 2 =? 0) then None
  else if negb is_market && negb (w_price (sw_order s) =? sw_signed_price s) then None
  else
    match order_msg (w_account (sw_order s)) m (w_side (sw_order s)) (w_qty (sw_order s)) is_market
            false (sw_signed_price s) (sw_seq s) with
    | Ok msg =>
        if verify (sw_pubkey s) msg (sw_sig s) then
          Some (Binding (w_account (sw_order s)) (sw_seq s) (sw_pubkey s) (sw_flags s) (w_price (sw_order s)))
        else None
    | Raise _ => None
    end.

Fixpoint admit_all (verify : bytes → bytes → bytes → bool) (m : Z) (l : list signed_wire) :
    option (list binding) :=
  match l with
  | [] => Some []
  | s :: rest => b ← admit_signed verify m s; bs ← admit_all verify m rest; Some (b :: bs)
  end.

Definition of_option {A} (o : option A) : result A :=
  match o with Some x => Ok x | None => Raise (ValueError "round dropped") end.

(** The pruned pairs drop their orders from the book. *)
Definition prune_wire (pruned : list (list Z)) (book : list wire_order) : list wire_order :=
  filter (λ o, [w_account o; w_id o] ∉ pruned) book.

(** The section out of its parts, once they are all there. *)
Definition section_of (verify : bytes → bytes → bytes → bool) (m ns np : Z) (sblob pblob raw : bytes) :
    result public_section :=
  let signed := decode_signed_orders sblob in
  if negb (Z.of_nat (length signed) =? ns) then Raise (ValueError "round dropped")
  else
    bs ← of_option (admit_all verify m signed);
    Ok (PublicSection
          (prune_wire (map (unpack [4; 4]%nat) (chunks 8 (Z.to_nat np) pblob)) (decode_orders raw))
          (map sw_order signed) bs raw).

Definition lift_r {A} (r : result A) : reader A := λ _ i, x ← r; Ok (x, i).

Definition parse_public_section (verify : bytes → bytes → bytes → bool) (m : Z) : reader public_section :=
  ns ← u_r 2; sblob ← take_r (ns * Z.of_nat SIGNED_ORDER_LEN);
  np ← u_r 2; pblob ← take_r (np * 8);
  raw ← rest_r; lift_r (section_of verify m ns np sblob pblob raw).

(** What refine makes of a round payload: header, section, and the revealed orders. *)
Record refined := Refined {
  rf_market : Z;
  rf_base : Z;
  rf_quote : Z;
  rf_section : public_section;
  rf_revealed : list wire_order
}.

Definition REVEAL_LEN : nat := 49.

(** A reveal is admitted when its hash is among the commitments. *)
Definition admit_reveals (commitment : bytes → bytes) (commits reveals : bytes) : list wire_order :=
  omap (λ r, if bool_decide (commitment r ∈ chunks 32 (length commits / 32) commits)
             then decode_order (take 17 r) else None)
    (chunks REVEAL_LEN (length reveals / REVEAL_LEN) reveals).

Definition refine_round (commitment : bytes → bytes) (verify : bytes → bytes → bytes → bool) :
    reader refined :=
  tag ← u_r 1; m ← u_r 4; base ← u_r 4; quote ← u_r 4;
  if tag =? TAG_SMATCH then
    ps ← parse_public_section verify m; mret (Refined m base quote ps [])
  else if tag =? TAG_REVEAL then
    cl ← u_r 4; commits ← take_r cl; rl ← u_r 4; reveals ← take_r rl;
    ps ← parse_public_section verify m;
    mret (Refined m base quote ps (admit_reveals commitment commits reveals))
  else lift_r (Raise (ValueError "round dropped")).

(** ** Deposits *)
Record deposit := Deposit { d_account : Z; d_asset : Z; d_amount : Z; d_nonce : Z }.

(** [deposit::decode]: exactly 25 bytes, the tag already matched *)
Definition decode_deposit (b : bytes) : option deposit :=
  if (length b =? 25)%nat then
    match unpack [1; 4; 4; 8; 8]%nat b with
    | [_; a; s; n; k] => Some (Deposit a s n k)
    | _ => None
    end
  else None.

Definition WINDOW : nat := 16.

(** The account's record [b"dn"]: a floor, then a window of nonces. *)
Definition dn_floor (v : bytes) : Z := if (8 <=? length v)%nat then le_int (take 8 v) else 0.
Definition dn_window (v : bytes) : list Z :=
  map le_int (chunks 8 ((length v - 8) / 8) (drop 8 v)).
Definition dn_encode (floor : Z) (window : list Z) : bytes :=
  le_bytes 8 floor ++ concat (map (le_bytes 8) window).

(** [window.insert(position of the first greater, nonce)] *)
Fixpoint window_insert (n : Z) (w : list Z) : list Z :=
  match w with
  | [] => [n]
  | x :: w' => if n <? x then n :: w else x :: window_insert n w'
  end.

(** [deposit::admit] on the stored record; [None]: refused, nothing written *)
Definition admit_deposit (v : bytes) (nonce : Z) : option bytes :=
  if nonce <=? dn_floor v then None
  else if bool_decide (nonce ∈ dn_window v) then None
  else
    let w := window_insert nonce (dn_window v) in
    match w with
    | x :: w' => if (WINDOW <? length w)%nat then Some (dn_encode x w') else Some (dn_encode (dn_floor v) w)
    | [] => None
    end.

(** [deposit_landed] of src/offchain/dex_setup.py, on the bytes read *)
Definition deposit_landed (v : bytes) (nonce : Z) : bool :=
  if (length v <? 8)%nat then false
  else (nonce <=? le_int (take 8 v)) || bool_decide (nonce ∈ dn_window v).

(** The nonces credited by a sequence of arrivals for one account, and the final record. *)
Fixpoint credit_all (v : bytes) (arrivals : list Z) : list Z * bytes :=
  match arrivals with
  | [] => ([], v)
  | n :: rest =>
      match admit_deposit v n with
      | Some v' => let '(c, v'') := credit_all v' rest in (n :: c, v'')
      | None => credit_all v rest
      end
  end.

(** ** Facts about the parts *)
Lemma order_bytes_ok a i s p q b :
  order_bytes a i s p q = Ok b →
  length b = 17%nat ∧ ∀ rest, unpack [4; 4; 1; 4; 4]%nat (b ++ rest) = [a; i; s; p; q].
Proof.
  intros H. split; [exact (pack_length _ _ H)|]. intros rest. exact (unpack_pack _ _ rest H).
Qed.

(** The builder's orders carry an API side. *)
Lemma decode_order_bytes a i s p q b rest :
  order_bytes a i s p q = Ok b → s = BUY ∨ s = SELL →
  decode_order (b ++ rest) = Some (WireOrder a i s p q).
Proof.
  intros H Hs. unfold decode_order. rewrite (proj2 (order_bytes_ok _ _ _ _ _ _ H)).
  by destruct Hs as [->| ->].
Qed.

(** A signed order with material of the right lengths. *)
Definition sane_order (o : order) : Prop :=
  valid_side o ∧ sealed o = false ∧ length (pubkey o) = 32%nat ∧ length (sig o) = 64%nat.

Definition market_flag (o : order) : Z := match otype o with market => FLAG_MARKET | limit => 0 end.

Lemma decode_signed_order_bytes o b :
  signed_order_bytes o = Ok b → sane_order o →
  length b = SIGNED_ORDER_LEN ∧
  decode_signed_order b =
    Some (SignedWire (wire_of o) (market_flag o) (signed_price o) (seq o) (pubkey o) (sig o)).
Proof.
  unfold signed_order_bytes. intros H (Hs & _ & Hpk & Hsg). fold (market_flag o) in H. inv_bind.
  match goal with H : order_bytes _ _ _ _ _ = Ok ?x |- _ => rename x into ob, H into Hob end.
  match goal with H : byte _ = Ok _ |- _ => apply byte_ok in H as [Hf ->] end.
  match goal with H : pack _ = Ok ?x |- _ => rename x into t, H into Ht end. subst.
  pose proof (proj1 (order_bytes_ok _ _ _ _ _ _ Hob)) as Hlo. pose proof (pack_length _ _ Ht) as Hlt.
  change (length t = 12%nat) in Hlt. split.
  { unfold SIGNED_ORDER_LEN. rewrite !length_app. cbn [length]. lia. }
  unfold decode_signed_order. rewrite take_app_length' by done.
  pose proof (decode_order_bytes _ _ _ _ _ _ [] Hob Hs) as Hd. rewrite app_nil_r in Hd. rewrite Hd.
  cbn [mbind option_bind].
  apply pack_ok in Ht as [HF ->]. rewrite !Forall_cons in HF. destruct HF as (H4 & H8 & _).
  cbn [map concat fst snd] in *. rewrite app_nil_r in *.
  set (sp := le_bytes 4 (signed_price o)) in *. set (sq := le_bytes 8 (seq o)) in *.
  assert (Lsp : length sp = 4%nat) by apply le_bytes_length.
  assert (Lsq : length sq = 8%nat) by apply le_bytes_length.
  set (f := [market_flag o]). set (l := ob ++ f ++ (sp ++ sq) ++ pubkey o ++ sig o).
  rewrite (slice_mid l ob f ((sp ++ sq) ++ pubkey o ++ sig o) 17 18),
    (slice_mid l (ob ++ f) sp (sq ++ pubkey o ++ sig o) 18 22),
    (slice_mid l (ob ++ f ++ sp) sq (pubkey o ++ sig o) 22 30),
    (slice_mid l (ob ++ f ++ sp ++ sq) (pubkey o) (sig o) 30 62),
    (slice_mid l (ob ++ f ++ sp ++ sq ++ pubkey o) (sig o) [] 62 126);
    unfold l; rewrite ?length_app; cbn [length f]; try lia; try (by rewrite <- ?(assoc_L (++)), ?app_nil_r).
  unfold sp, sq, f. rewrite !le_int_le_bytes by done. cbn [le_int]. by rewrite Z.mul_0_r, Z.add_0_r.
Qed.

Lemma join_parts {A} (f : A → result bytes) l b n :
  join f l = Ok b → (∀ x p, x ∈ l → f x = Ok p → length p = n) →
  ∃ parts, b = concat parts ∧ Forall (λ p, length p = n) parts ∧ Forall2 (λ x p, f x = Ok p) l parts.
Proof.
  intros (parts & HF & ->)%join_ok Hn. exists parts. split_and!; [done| |done].
  induction HF as [|x p l parts Hp HF IH]; constructor; [apply (Hn x); set_solver|].
  apply IH. intros; eapply Hn; [|done]. set_solver.
Qed.

Lemma decode_signed_orders_bytes public b :
  Forall sane_order public → join signed_order_bytes public = Ok b →
  length b = (SIGNED_ORDER_LEN * length public)%nat ∧
  decode_signed_orders b = map (λ o, SignedWire (wire_of o) (market_flag o) (signed_price o) (seq o)
                                       (pubkey o) (sig o)) public.
Proof.
  intros Hs Hj. rewrite Forall_forall in Hs.
  destruct (join_parts _ _ _ SIGNED_ORDER_LEN Hj) as (parts & -> & HF & H2).
  { intros o p Ho Hp. apply (decode_signed_order_bytes o); auto. }
  split; [by rewrite (concat_length SIGNED_ORDER_LEN), (Forall2_length _ _ _ H2)|].
  unfold decode_signed_orders. rewrite chunks_all by (done || unfold SIGNED_ORDER_LEN; lia).
  clear Hj HF. induction H2 as [|o p public parts Hp H2 IH]; [done|]. cbn [omap list_omap map].
  rewrite (proj2 (decode_signed_order_bytes o p Hp ltac:(apply Hs; set_solver))).
  f_equal. apply IH. set_solver.
Qed.

(** The book both sides read. *)
Definition book_sides (raw : bytes) : Prop := Forall valid_side (parse_book raw).

Lemma decode_orders_parse raw : book_sides raw → decode_orders raw = map wire_of (parse_book raw).
Proof.
  unfold book_sides, parse_book, decode_orders. generalize (chunks ORDER_LEN (length raw / ORDER_LEN) raw).
  intros l.
  cut (∀ d, Forall valid_side (omap id (imap (λ k c, book_order (Pos.of_succ_nat (d + k)) (unpack [4; 4; 1; 4; 4]%nat c)) l)) →
    omap decode_order l = map wire_of (omap id (imap (λ k c, book_order (Pos.of_succ_nat (d + k)) (unpack [4; 4; 1; 4; 4]%nat c)) l))).
  { intros H. exact (H 0%nat). }
  induction l as [|c l IH]; intros d; [done|]. cbn [imap omap list_omap].
  assert (imap ((λ k c, book_order (Pos.of_succ_nat (d + k)) (unpack [4; 4; 1; 4; 4]%nat c)) ∘ S) l
    = imap (λ k c, book_order (Pos.of_succ_nat (S d + k)) (unpack [4; 4; 1; 4; 4]%nat c)) l) as Hm.
  { apply imap_ext. intros k x _. cbn. by rewrite Nat.add_succ_r. }
  rewrite Hm. unfold decode_order at 1. cbn [unpack book_order id map].
  rewrite Forall_cons. intros [Hv HF]. rewrite (IH _ HF). f_equal.
  unfold wire_of, mk_order; cbn. unfold valid_side, mk_order, BUY, SELL in Hv; cbn in Hv.
  f_equal. destruct (Z.eqb_spec (le_int (take 1 (drop 4 (drop 4 c)))) 0); lia.
Qed.

Definition is_market_order (o : order) : bool := bool_decide (otype o = market).

(** What refine requires of a signed order of market [m]. *)
Definition well_signed (verify : bytes → bytes → bytes → bool) (m : Z) (o : order) : Prop :=
  sane_order o ∧ (otype o = limit → price o = signed_price o) ∧
  ∀ msg, order_msg (account o) m (side o) (qty o) (is_market_order o) false (signed_price o) (seq o) = Ok msg →
    verify (pubkey o) msg (sig o) = true.

Definition binding_of (o : order) : binding :=
  Binding (account o) (seq o) (pubkey o) (market_flag o) (price o).

Lemma order_msg_ok a m s q mk sl sp sq :
  (0 ≤ a < 2 ^ 32) → (0 ≤ m < 2 ^ 32) → s = BUY ∨ s = SELL → (0 ≤ q < 2 ^ 32) → (0 ≤ sp < 2 ^ 32) →
  (0 ≤ sq < 2 ^ 64) → ∃ msg, order_msg a m s q mk sl sp sq = Ok msg.
Proof.
  intros. unfold order_msg.
  match goal with |- context [pack ?fs] => destruct (pack fs) as [b|e] eqn:E; [cbn; eauto|] end.
  exfalso. match type of E with pack ?fs = _ =>
    assert (pack fs = Ok (concat (map (λ f, le_bytes f.1 f.2) fs))) as E'; [|congruence] end.
  apply pack_ok. split; [|done]. change (256 ^ Z.of_nat 4) with (2 ^ 32).
  repeat (apply Forall_cons; split; [cbn [fst snd]|]); try apply Forall_nil;
    try (change (256 ^ Z.of_nat 4) with (2 ^ 32); lia);
    try (change (256 ^ Z.of_nat 8) with (2 ^ 64); lia);
    change (256 ^ Z.of_nat 1) with 256; unfold BUY, SELL in *; destruct mk, sl; lia.
Qed.

Lemma signed_order_fits o b :
  signed_order_bytes o = Ok b →
  (0 ≤ account o < 2 ^ 32) ∧ (0 ≤ qty o < 2 ^ 32) ∧ (0 ≤ signed_price o < 2 ^ 32) ∧ (0 ≤ seq o < 2 ^ 64).
Proof.
  unfold signed_order_bytes, order_bytes. intros H. inv_bind.
  repeat match goal with H : pack _ = Ok _ |- _ => apply pack_ok in H as [? _] end.
  rewrite !Forall_cons in *. cbn [fst snd] in *.
  change (256 ^ Z.of_nat 4) with (2 ^ 32) in *. change (256 ^ Z.of_nat 8) with (2 ^ 64) in *. tauto.
Qed.

Lemma admit_signed_ok verify m o b :
  well_signed verify m o → 0 ≤ m < 2 ^ 32 → signed_order_bytes o = Ok b →
  admit_signed verify m (SignedWire (wire_of o) (market_flag o) (signed_price o) (seq o) (pubkey o) (sig o))
  = Some (binding_of o).
Proof.
  intros ((Hside & _) & Hlim & Hv) Hm Hb. destruct (signed_order_fits o b Hb) as (? & ? & ? & ?).
  unfold admit_signed. cbn [sw_flags sw_order sw_signed_price sw_seq sw_pubkey sw_sig wire_of w_account w_side w_qty w_price].
  assert (Hfl : negb (Z.land (market_flag o) FLAG_MARKET =? 0) = is_market_order o ∧ Z.land (market_flag o) 2 = 0).
  { unfold market_flag, is_market_order. by destruct (otype o). }
  destruct Hfl as [-> ->]. cbn [Z.eqb negb].
  assert (negb (is_market_order o) && negb (price o =? signed_price o) = false) as ->.
  { unfold is_market_order. case_bool_decide; [done|]. rewrite Hlim, Z.eqb_refl; [done|].
    by destruct (otype o). }
  destruct (order_msg_ok (account o) m (side o) (qty o) (is_market_order o) false (signed_price o) (seq o))
    as [msg Hmsg]; try done. by rewrite Hmsg, (Hv msg Hmsg).
Qed.

Lemma admit_all_ok verify m public b :
  Forall (well_signed verify m) public → 0 ≤ m < 2 ^ 32 → join signed_order_bytes public = Ok b →
  admit_all verify m (map (λ o, SignedWire (wire_of o) (market_flag o) (signed_price o) (seq o)
                                 (pubkey o) (sig o)) public) = Some (map binding_of public).
Proof.
  intros HF Hm (parts & H2 & _)%join_ok. induction H2 as [|o p public parts Hp H2 IH]; [done|].
  apply Forall_cons in HF as [Ho HF]. cbn [map admit_all].
  by rewrite (admit_signed_ok verify m o p Ho Hm Hp), (IH HF).
Qed.

(** What the builder means a section to say. *)
Definition section_view (public : list order) (pruned : list (Z * Z)) (raw : bytes) : public_section :=
  PublicSection (map wire_of (filter (λ o, (account o, oid o) ∉ pruned) (parse_book raw)))
    (map wire_of public) (map binding_of public) raw.

Lemma prune_ok pruned pblob book :
  join pair_bytes pruned = Ok pblob →
  length pblob = (8 * length pruned)%nat ∧
  prune_wire (map (unpack [4; 4]%nat) (chunks 8 (length pruned) pblob)) (map wire_of book)
  = map wire_of (filter (λ o, (account o, oid o) ∉ pruned) book).
Proof.
  intros Hj. destruct (join_parts _ _ _ 8 Hj) as (parts & -> & HF & H2).
  { intros p b _ Hb. exact (pack_length _ _ Hb). }
  split; [by rewrite (concat_length 8), (Forall2_length _ _ _ H2)|].
  rewrite (Forall2_length _ _ _ H2). pose proof (chunks_concat 8 parts [] HF) as Hc.
  rewrite app_nil_r in Hc. rewrite Hc.
  assert (map (unpack [4; 4]%nat) parts = map (λ p, [p.1; p.2]) pruned) as ->.
  { clear Hj HF Hc. induction H2 as [|p b pruned parts Hp H2 IH]; [done|]. cbn [map]. f_equal; [|done].
    pose proof (unpack_pack _ _ [] Hp) as Hu. rewrite app_nil_r in Hu. exact Hu. }
  unfold prune_wire. induction book as [|o book IH]; [done|]. cbn [map]. rewrite !filter_cons.
  assert (Hiff : [w_account (wire_of o); w_id (wire_of o)] ∉ map (λ p, [p.1; p.2]) pruned ↔
    (account o, oid o) ∉ pruned).
  { rewrite list_elem_of_fmap. split; intros Hn Hin; apply Hn.
    - exists (account o, oid o). by split.
    - destruct Hin as ([a i] & [= -> ->] & Hin). done. }
  repeat case_decide; try tauto; cbn [map]; by rewrite IH.
Qed.

Lemma reads_end_lift {A} (r : result A) x e : r = Ok x → e = [] → reads_end (lift_r r) e x.
Proof. intros -> -> pre. unfold lift_r. cbn. by rewrite app_nil_r. Qed.

Lemma reads_end_last {A B} (r : reader A) (g : A → B) e x :
  reads_end r e x → reads_end (y ← r; mret (g y)) e (g x).
Proof. intros H pre. unfold mbind, reader_bind. by rewrite H. Qed.

Lemma reads_end_rest {A} (f : bytes → result A) raw x :
  f raw = Ok x → reads_end (b ← rest_r; lift_r (f b)) raw x.
Proof.
  intros H pre. unfold mbind, reader_bind, rest_r. cbn [mbind result_bind]. rewrite drop_app_length.
  unfold lift_r. by rewrite H.
Qed.

Lemma pack1_reads n x b : pack [(n, x)] = Ok b → reads (u_r (Z.of_nat n)) b x.
Proof.
  intros [HF ->]%pack_ok. rewrite Forall_cons in HF. destruct HF as [Hx _]. cbn [map concat fst snd] in *.
  rewrite app_nil_r. by apply reads_u.
Qed.

Lemma section_reads verify m public pruned raw b :
  Forall (well_signed verify m) public → 0 ≤ m < 2 ^ 32 → book_sides raw →
  public_section_bytes public pruned raw = Ok b →
  reads_end (parse_public_section verify m) b (section_view public pruned raw).
Proof.
  unfold public_section_bytes, parse_public_section. intros Hw Hm Hb H. inv_bind.
  match goal with H : join signed_order_bytes _ = Ok ?x |- _ => rename x into ss, H into Hss end.
  match goal with H : join pair_bytes _ = Ok ?x |- _ => rename x into ps, H into Hps end. subst.
  destruct (decode_signed_orders_bytes public ss) as [Hls Hds]; [|done|].
  { eapply Forall_impl; [exact Hw|]. by intros o [? _]. }
  destruct (prune_ok pruned ps (parse_book raw) Hps) as [Hlp Hpr].
  eapply reads_end_bind; [by apply (pack1_reads 2)|].
  eapply reads_end_bind; [apply reads_take; rewrite Hls; lia|].
  eapply reads_end_bind; [by apply (pack1_reads 2)|].
  eapply reads_end_bind; [apply reads_take; rewrite Hlp; lia|].
  apply (reads_end_rest (section_of verify m _ _ _ _)).
  unfold section_of. rewrite Hds. rewrite length_fmap, Z.eqb_refl. cbn [negb].
  rewrite (admit_all_ok verify m public ss Hw Hm Hss). cbn [of_option mbind result_bind].
  rewrite Nat2Z.id, (decode_orders_parse raw Hb), Hpr. unfold section_view. do 2 f_equal.
  rewrite map_map. done.
Qed.

Lemma hdr_reads {A} m base quote hdr (k : Z → Z → Z → reader A) e x :
  pack [(4%nat, m); (4%nat, base); (4%nat, quote)] = Ok hdr →
  reads_end (k m base quote) e x →
  reads_end (m ← u_r 4; base ← u_r 4; quote ← u_r 4; k m base quote) (hdr ++ e) x.
Proof.
  intros [HF ->]%pack_ok Hk. rewrite !Forall_cons in HF. destruct HF as (? & ? & ? & _).
  cbn [map concat fst snd]. rewrite app_nil_r, <- !(assoc_L (++)).
  repeat (eapply reads_end_bind; [by apply (reads_u 4)|]). exact Hk.
Qed.

Lemma byte_reads x b : byte x = Ok b → reads (u_r 1) b x.
Proof.
  intros [Hx ->]%byte_ok. assert ([x] = le_bytes 1 x) as ->.
  { cbn. by rewrite Z.mod_small. }
  by apply (reads_u 1).
Qed.

(** A sealed order's hiding material in commit-reveal mode ([_seal_material]): its bytes and a
    32-byte nonce. *)
Definition has_reveal (o : order) : Prop :=
  ∃ ob nonce, order_bytes (account o) (oid o) (side o) (price o) (qty o) = Ok ob ∧
    length nonce = 32%nat ∧ reveal o = Some (ob ++ nonce) ∧ valid_side o.

Lemma admit_reveals_ok commitment sealed commits reveals :
  (∀ l, length (commitment l) = 32%nat) → Forall has_reveal sealed →
  join (λ o, r ← get_reveal o; Ok (commitment r)) sealed = Ok commits →
  join get_reveal sealed = Ok reveals →
  admit_reveals commitment commits reveals = map wire_of sealed.
Proof.
  intros Hlen HF Hc Hr. rewrite Forall_forall in HF.
  destruct (join_parts _ _ _ REVEAL_LEN Hr) as (rs & -> & HFr & H2r).
  { intros o p Ho Hp. destruct (HF o Ho) as (ob & nonce & Hob & Hn & Hrv & _). unfold get_reveal in Hp.
    rewrite Hrv in Hp. injection Hp as <-. rewrite length_app, Hn.
    by rewrite (proj1 (order_bytes_ok _ _ _ _ _ _ Hob)). }
  destruct (join_parts _ _ _ 32 Hc) as (cs & -> & HFc & H2c).
  { intros o p Ho Hp. apply bind_ok in Hp as (r & _ & Hp). injection Hp as <-. apply Hlen. }
  unfold admit_reveals. rewrite !chunks_all by (done || unfold REVEAL_LEN; lia).
  assert (Hcs : ∀ r, r ∈ rs → commitment r ∈ cs).
  { clear -H2r H2c. revert cs H2c. induction H2r as [|o r sealed rs Hr H2r IH]; intros cs H2c; [set_solver|].
    apply Forall2_cons_inv_l in H2c as (c & cs' & Hc & H2c & ->). rewrite Hr in Hc. injection Hc as <-.
    intros x [->|Hx]%elem_of_cons; [set_solver|]. apply list_elem_of_further. by apply IH. }
  clear Hr Hc HFr HFc H2c. induction H2r as [|o r sealed rs Hr H2r IH]; [done|]. cbn [omap list_omap map].
  rewrite bool_decide_eq_true_2 by (apply Hcs; set_solver).
  destruct (HF o ltac:(set_solver)) as (ob & nonce & Hob & Hn & Hrv & Hs). unfold get_reveal in Hr.
  rewrite Hrv in Hr. injection Hr as <-.
  rewrite take_app_length' by (by rewrite (proj1 (order_bytes_ok _ _ _ _ _ _ Hob))).
  pose proof (decode_order_bytes _ _ _ _ _ _ [] Hob Hs) as Hd. rewrite app_nil_r in Hd. rewrite Hd.
  f_equal. apply IH; set_solver.
Qed.

(** ** The deposit rule *)

(** A record the service wrote. *)
Definition dn_ok (v : bytes) : Prop :=
  v = [] ∨ ∃ floor window, v = dn_encode floor window ∧ (0 ≤ floor < 2 ^ 64) ∧
    Forall (λ n, floor < n < 2 ^ 64) window ∧ StronglySorted Z.lt window.

Lemma dn_encode_read floor window :
  0 ≤ floor < 2 ^ 64 → Forall (λ n, 0 ≤ n < 2 ^ 64) window →
  dn_floor (dn_encode floor window) = floor ∧ dn_window (dn_encode floor window) = window ∧
  (8 ≤ length (dn_encode floor window))%nat.
Proof.
  intros Hf Hw. unfold dn_floor, dn_window, dn_encode.
  assert (HF : Forall (λ p : bytes, length p = 8%nat) (map (le_bytes 8) window)).
  { apply Forall_fmap, Forall_forall. intros; apply le_bytes_length. }
  assert (Hl : length (le_bytes 8 floor ++ concat (map (le_bytes 8) window)) = (8 + 8 * length window)%nat).
  { rewrite length_app, le_bytes_length, (concat_length 8), length_fmap; done. }
  split_and!; [| |lia].
  - destruct (Nat.leb_spec 8 (length (le_bytes 8 floor ++ concat (map (le_bytes 8) window)))); [|lia].
    rewrite take_app_length' by (by rewrite le_bytes_length). by apply le_int_le_bytes.
  - rewrite Hl, drop_app_length' by (by rewrite le_bytes_length).
    replace ((8 + 8 * length window - 8) / 8)%nat with (length (map (le_bytes 8) window)).
    2:{ rewrite length_fmap. replace (8 + 8 * length window - 8)%nat with (length window * 8)%nat by lia.
        by rewrite Nat.div_mul. }
    pose proof (chunks_concat 8 _ [] HF) as Hc. rewrite app_nil_r in Hc. rewrite Hc, map_map.
    clear -Hw. induction Hw as [|n w Hn Hw IH]; [done|]. cbn [map]. by rewrite le_int_le_bytes, IH.
Qed.

Lemma elem_of_window_insert n w x : x ∈ window_insert n w ↔ x = n ∨ x ∈ w.
Proof.
  induction w as [|y w IH]; cbn; [set_solver|]. case_match; rewrite ?elem_of_cons, ?IH; tauto.
Qed.

Lemma window_insert_sorted n w : StronglySorted Z.lt w → n ∉ w → StronglySorted Z.lt (window_insert n w).
Proof.
  induction 1 as [|x w Hs IH Hx]; intros Hn; cbn; [by repeat constructor|].
  destruct (Z.ltb_spec n x).
  - constructor; [by constructor|]. constructor; [done|]. eapply Forall_impl; [exact Hx|]. cbn. lia.
  - assert (n ≠ x) by set_solver. constructor; [apply IH; set_solver|]. apply Forall_forall.
    intros y [->|Hy]%elem_of_window_insert; [lia|]. rewrite Forall_forall in Hx. auto.
Qed.

Lemma dn_ok_view v :
  dn_ok v →
  (0 ≤ dn_floor v < 2 ^ 64) ∧ Forall (λ n, dn_floor v < n < 2 ^ 64) (dn_window v) ∧
  StronglySorted Z.lt (dn_window v) ∧
  ∀ n, 0 < n → deposit_landed v n = (n <=? dn_floor v) || bool_decide (n ∈ dn_window v).
Proof.
  intros [->|(f & w & -> & Hf & Hw & Hs)].
  { split_and!; [done..|constructor|constructor|]. intros n Hn.
    change (false = (n <=? 0) || bool_decide (n ∈ ([] : list Z))).
    rewrite bool_decide_eq_false_2 by set_solver. lia. }
  destruct (dn_encode_read f w Hf) as (E1 & E2 & E3).
  { eapply Forall_impl; [exact Hw|]. cbn. lia. }
  unfold deposit_landed. rewrite E1, E2. split_and!; [lia|lia|done|done|].
  intros n Hn. destruct (Nat.ltb_spec (length (dn_encode f w)) 8); [lia|].
  unfold dn_floor in E1. destruct (Nat.leb_spec 8 (length (dn_encode f w))); [|lia]. by rewrite E1.
Qed.

(** One admission: the record stays well formed, remembers the nonce and forgets nothing. *)
Lemma admit_deposit_spec v n v' :
  dn_ok v → 0 < n < 2 ^ 64 → admit_deposit v n = Some v' →
  deposit_landed v n = false ∧ dn_ok v' ∧ deposit_landed v' n = true ∧
  ∀ k, 0 < k → deposit_landed v k = true → deposit_landed v' k = true.
Proof.
  intros Hv Hn. destruct (dn_ok_view v Hv) as (Hf & Hw & Hs & Hl). unfold admit_deposit.
  destruct (Z.leb_spec n (dn_floor v)) as [|Hnf]; [done|]. case_bool_decide as Hin; [done|].
  set (f := dn_floor v) in *. set (w := dn_window v) in *.
  pose proof (window_insert_sorted n w Hs Hin) as Hs'.
  assert (Hw' : Forall (λ k, f < k < 2 ^ 64) (window_insert n w)).
  { apply Forall_forall. intros k [->|Hk]%elem_of_window_insert; [lia|]. rewrite Forall_forall in Hw. auto. }
  destruct (window_insert n w) as [|x w'] eqn:E; [done|].
  assert (Hx : ∀ k, k = n ∨ k ∈ w → k = x ∨ k ∈ w').
  { intros k Hk. apply elem_of_cons. rewrite <- E. by apply elem_of_window_insert. }
  intros H. assert (Hok : dn_ok v' ∧ ∀ k, (k <=? f) = true ∨ k ∈ x :: w' →
    (k <=? dn_floor v') = true ∨ k ∈ dn_window v').
  { destruct (Nat.ltb_spec WINDOW (length (x :: w'))); injection H as <-.
    - apply StronglySorted_inv in Hs' as [Hs' Hxs]. apply Forall_cons in Hw' as [Hxf Hw'].
      assert (Hall : Forall (λ k, x < k < 2 ^ 64) w').
      { apply Forall_forall. intros k Hk. rewrite Forall_forall in Hxs, Hw'. split; [by apply Hxs|apply Hw'; done]. }
      destruct (dn_encode_read x w') as (E1 & E2 & _); [lia|eapply Forall_impl; [exact Hall|cbn; lia]|].
      split; [right; exists x, w'; split_and!; [done|lia|lia|done..]|].
      rewrite E1, E2. intros k [Hk|[->|Hk]%elem_of_cons]; [left; lia|left; lia|by right].
    - destruct (dn_encode_read f (x :: w')) as (E1 & E2 & _); [lia|eapply Forall_impl; [exact Hw'|cbn; lia]|].
      split; [right; exists f, (x :: w'); done|]. rewrite E1, E2. tauto. }
  destruct Hok as [Hok Hkeep]. destruct (dn_ok_view v' Hok) as (_ & _ & _ & Hl').
  assert (Hkeep' : ∀ k, 0 < k → (k <=? f) = true ∨ k ∈ x :: w' → deposit_landed v' k = true).
  { intros k Hk Hor. rewrite Hl' by done. apply orb_true_iff. rewrite bool_decide_eq_true. by apply Hkeep. }
  split_and!; [|done|apply Hkeep'; [lia|right; apply elem_of_cons, Hx; by left]|].
  - rewrite Hl by lia. rewrite bool_decide_eq_false_2 by done. lia.
  - intros k Hk Hkl. apply Hkeep'; [done|]. rewrite Hl in Hkl by done.
    apply orb_true_iff in Hkl as [?|Hkl]; [by left|]. apply bool_decide_eq_true in Hkl.
    right. apply elem_of_cons, Hx. by right.
Qed.

Lemma admit_deposit_landed v n : dn_ok v → 0 < n → deposit_landed v n = true → admit_deposit v n = None.
Proof.
  intros Hv Hn H. destruct (dn_ok_view v Hv) as (_ & _ & _ & Hl). rewrite Hl in H by done.
  unfold admit_deposit. apply orb_true_iff in H as [->|H]; [done|].
  case_match; [done|]. apply bool_decide_eq_true in H. by rewrite bool_decide_eq_true_2.
Qed.

Lemma credit_all_spec arrivals v :
  dn_ok v → Forall (λ n, 0 < n < 2 ^ 64) arrivals →
  let '(c, v') := credit_all v arrivals in
  dn_ok v' ∧ NoDup c ∧ (∀ n, n ∈ c → deposit_landed v n = false ∧ deposit_landed v' n = true) ∧
  ∀ k, 0 < k → deposit_landed v k = true → deposit_landed v' k = true.
Proof.
  intros Hv HF. revert v Hv. induction HF as [|n arrivals Hn HF IH]; intros v Hv; cbn [credit_all].
  { split_and!; [done|constructor|set_solver|done]. }
  destruct (admit_deposit v n) as [v1|] eqn:E; [|by apply IH].
  destruct (admit_deposit_spec v n v1 Hv Hn E) as (Hnl & Hv1 & Hl1 & Hmono).
  specialize (IH v1 Hv1). destruct (credit_all v1 arrivals) as [c v']. destruct IH as (Hv' & Hnd & Hc & Hm).
  split_and!; [done| | |].
  - constructor; [|done]. intros Hin. destruct (Hc n Hin) as [? _]. congruence.
  - intros k [->|Hk]%elem_of_cons; [split; [done|apply Hm; [lia|done]]|].
    destruct (Hc k Hk) as [Hk1 Hk2]. split; [|done].
    destruct (deposit_landed v k) eqn:Hkv; [|done]. exfalso.
    destruct (Z.lt_ge_cases 0 k) as [Hpos|Hneg]; [rewrite Hmono in Hk1; done|].
    unfold deposit_landed in Hk1, Hkv. pose proof (dn_ok_view v1 Hv1) as (Hf1 & _).
    unfold dn_floor in Hf1. destruct (Nat.ltb_spec (length v1) 8); [|].
    + destruct Hv1 as [->|(f & w & -> & _)]; [|unfold dn_encode in *; rewrite length_app, le_bytes_length in *; lia].
      unfold deposit_landed in Hl1. cbn in Hl1. done.
    + destruct (Nat.leb_spec 8 (length v1)); [|lia]. apply orb_false_iff in Hk1 as [Hk1 _]. lia.
  - intros k Hk Hkl. apply Hm; auto.
Qed.

Lemma deposit_payload_fields a s n k data :
  deposit_payload a s n k = Ok data → decode_deposit data = Some (Deposit a s n k) ∧ 0 < k < 2 ^ 64.
Proof.
  unfold deposit_payload. destruct ((0 <? k) && (k <? Z.shiftl 1 64)) eqn:E; [|done]. cbn [negb].
  intros H. inv_bind. subst. match goal with H : byte _ = Ok _ |- _ => apply byte_ok in H as [_ ->] end.
  match goal with H : pack _ = Ok ?x |- _ => rename x into b, H into Hb end.
  apply andb_true_iff in E as [E1 E2]. apply Z.ltb_lt in E1, E2. split; [|exact (conj E1 E2)].
  unfold decode_deposit. rewrite length_app, (pack_length _ _ Hb). cbn [length map fst sum_list].
  change ((1 + sum_list [4; 4; 8; 8])%nat =? 25)%nat with true. cbn [unpack app take drop].
  pose proof (unpack_pack _ _ [] Hb) as Hu. rewrite app_nil_r in Hu. cbn [map fst snd] in Hu.
  change (match le_int [TAG_DEPOSIT] :: unpack [4; 4; 8; 8]%nat b with
          | [_; a; s; n; k] => Some (Deposit a s n k) | _ => None end = Some (Deposit a s n k)).
  by rewrite Hu.
Qed.

Lemma deposit_payload_decodes a s n k data :
  deposit_payload a s n k = Ok data → decode_deposit data = Some (Deposit a s n k).
Proof. intros H. by apply (deposit_payload_fields a s n k data). Qed.

(** ** Properties *)

(** (C11) Refine understands a round exactly as it was built: from the payload the service reads
    back the header, the builder's resting book (the on-chain book less the pruned orders), the
    public orders with their bindings, and the revealed sealed orders. *)
Theorem round_payload_understood commitment verify m base quote sealed public pruned raw data :
  (∀ l, length (commitment l) = 32%nat) → Forall (well_signed verify m) public →
  Forall has_reveal sealed → book_sides raw →
  round_payload commitment m base quote sealed public pruned raw = Ok data →
  refine_round commitment verify data 0%nat =
    Ok (Refined m base quote (section_view public pruned raw) (map wire_of sealed), length data).
Proof.
  intros Hlen Hw Hr Hb H.
  cut (reads_end (refine_round commitment verify) data
    (Refined m base quote (section_view public pruned raw) (map wire_of sealed))).
  { intros Hre. exact (Hre []). }
  unfold round_payload in H. inv_bind. rename x into hdr, x0 into section.
  match goal with H : pack _ = Ok hdr |- _ => rename H into Hhdr end.
  match goal with H : public_section_bytes _ _ _ = Ok _ |- _ => rename H into Hsec end.
  assert (Hm : 0 ≤ m < 2 ^ 32).
  { apply pack_ok in Hhdr as [HF _]. rewrite Forall_cons in HF. exact (proj1 HF). }
  pose proof (section_reads verify m public pruned raw section Hw Hm Hb Hsec) as Hps.
  unfold refine_round. destruct sealed as [|o0 sealed0].
  - inv_bind. subst. eapply reads_end_bind; [by apply byte_reads|]. cbn [Z.eqb TAG_SMATCH Pos.eqb].
    apply (hdr_reads m base quote hdr); [done|].
    by apply (reads_end_last _ (λ ps, Refined m base quote ps [])).
  - set (sealed := o0 :: sealed0) in *. inv_bind. subst.
    eapply reads_end_bind; [by apply byte_reads|]. cbn [Z.eqb TAG_SMATCH TAG_REVEAL Pos.eqb].
    apply (hdr_reads m base quote hdr); [done|].
    eapply reads_end_bind; [by apply (pack1_reads 4)|]. eapply reads_end_bind; [apply reads_take; lia|].
    eapply reads_end_bind; [by apply (pack1_reads 4)|]. eapply reads_end_bind; [apply reads_take; lia|].
    match goal with Hc : join (λ o, _) sealed = Ok ?c, Hv : join get_reveal sealed = Ok ?v |- _ =>
      rewrite <- (admit_reveals_ok commitment sealed c v Hlen Hr Hc Hv);
      apply (reads_end_last _ (λ ps, Refined m base quote ps (admit_reveals commitment c v))) end.
    exact Hps.
Qed.

(** (C12) Deposits are credited once: in any sequence of arrivals (re-sent, duplicated, reordered)
    no nonce is credited twice, the builder's landed test is true of every credited nonce from
    then on, and a nonce it reports landed is never credited again. *)
Theorem deposit_credited_once arrivals v :
  dn_ok v → Forall (λ n, 0 < n < 2 ^ 64) arrivals →
  let '(credited, v') := credit_all v arrivals in
  NoDup credited ∧ (∀ n, n ∈ credited → deposit_landed v' n = true) ∧
  ∀ n, 0 < n → deposit_landed v n = true → n ∉ credited ∧ admit_deposit v' n = None.
Proof.
  intros Hv HF. pose proof (credit_all_spec arrivals v Hv HF) as H.
  destruct (credit_all v arrivals) as [c v']. destruct H as (Hv' & Hnd & Hc & Hm).
  split_and!; [done|intros n Hn; by apply Hc|]. intros n Hn Hl. split.
  - intros Hin. destruct (Hc n Hin) as [? _]. congruence.
  - apply admit_deposit_landed; auto.
Qed.

(** The service reads a deposit payload back as the deposit it was built from. *)
Theorem deposit_payload_roundtrip a s n k data :
  deposit_payload a s n k = Ok data → decode_deposit data = Some (Deposit a s n k) ∧ 0 < k < 2 ^ 64.
Proof. apply deposit_payload_fields. Qed.

(** ** Witnesses *)
Definition commitment1 (l : bytes) : bytes := repeat (foldl (λ acc b, (acc * 31 + b) mod 251) 7 l) 32.
Definition verify1 (pk msg sg : bytes) : bool := bool_decide (length msg = 43%nat).

Definition public1 : list order :=
  [{| o_ref := 1; account := 1; oid := 1000; side := BUY; price := 105; qty := 20; otype := limit;
      sealed := false; seq := 7; signed_price := 105; pubkey := repeat 1 32; sig := repeat 2 64;
      expiry := None; reveal := None; ciphertext := None; commit := None |};
   {| o_ref := 2; account := 2; oid := 1001; side := SELL; price := 90; qty := 5; otype := market;
      sealed := false; seq := 3; signed_price := 0; pubkey := repeat 3 32; sig := repeat 4 64;
      expiry := None; reveal := None; ciphertext := None; commit := None |}].

Definition get_ok (r : result bytes) : bytes := match r with Ok b => b | Raise _ => [] end.

Definition sealed1 : list order :=
  [{| o_ref := 3; account := 4; oid := 1002; side := SELL; price := 100; qty := 9; otype := limit;
      sealed := true; seq := 0; signed_price := 100; pubkey := []; sig := []; expiry := None;
      reveal := Some (get_ok (order_bytes 4 1002 SELL 100 9) ++ repeat 5 32); ciphertext := None;
      commit := None |}].

Definition raw1 : bytes :=
  get_ok (order_bytes 5 900 BUY 99 3) ++ get_ok (order_bytes 6 901 SELL 120 4) ++ [1; 2; 3].

Definition data1 : bytes := get_ok (round_payload commitment1 1 1 0 sealed1 public1 [(5, 900)] raw1).

Lemma round_payload_understood_witness :
  map w_id (ps_book (section_view public1 [(5, 900)] raw1)) = [901] ∧
  refine_round commitment1 verify1 data1 0%nat =
    Ok (Refined 1 1 0 (section_view public1 [(5, 900)] raw1) (map wire_of sealed1), length data1).
Proof.
  split; [vm_compute; reflexivity|].
  apply (round_payload_understood commitment1 verify1 1 1 0 sealed1 public1 [(5, 900)] raw1 data1).
  - intros l. apply repeat_length.
  - repeat constructor; try (by left); try (by right); try done;
      intros msg H; vm_compute in H; injection H as <-; vm_compute; reflexivity.
  - repeat constructor. exists (get_ok (order_bytes 4 1002 SELL 100 9)), (repeat 5 32).
    split_and!; [vm_compute; reflexivity|reflexivity|reflexivity|by right].
  - unfold book_sides. vm_compute. repeat constructor; (by left) || by right.
  - vm_compute. reflexivity.
Defined.

Lemma deposit_credited_once_witness :
  credit_all [] [5; 9; 5; 7; 9] = ([5; 9; 7], dn_encode 0 [5; 7; 9]) ∧ NoDup (credit_all [] [5; 9; 5; 7; 9]).1.
Proof.
  split; [vm_compute; reflexivity|].
  pose proof (deposit_credited_once [5; 9; 5; 7; 9] [] ltac:(by left)
    ltac:(repeat constructor; vm_compute; reflexivity)) as H.
  exact (proj1 H).
Defined.

Lemma deposit_payload_roundtrip_witness :
  decode_deposit (get_ok (deposit_payload 3 2 5000 17)) = Some (Deposit 3 2 5000 17).
Proof. apply (deposit_payload_roundtrip 3 2 5000 17). vm_compute. reflexivity. Defined.
