(* ===== verification/Settlement.v ===== *)
(** * Settlement

    What the chain does with a cleared batch: src/crates/match-engine/src/wire.rs ([encode_settlement], [decode_settlement],
    [settle_deltas]) and src/service/src/lib.rs ([apply_settlement]).  Balances are 64-bit, deltas exact (128-bit in the code,
    wide enough for any product of two 32-bit numbers); of a binding only the account matters here. *)
From S2P Require Import Prelude Orders Clearing Bytes Engine Wire.

Definition SETTLE_SCALE : Z := 10000.
Definition FEE_FLAT : Z := 300.
Definition SETTLE_LEN : nat := 9.

(** A side on the wire is 0 or 1; [true] for [Buy]. *)
Record settle_entry := SettleEntry { se_account : Z; se_buy : bool; se_qty : Z }.

(** [encode_settlement]'s resolution of a fill to its order, by id *)
Definition entry_of (orders : list order) (f : Z * Z) : option settle_entry :=
  match filter (λ o, oid o = f.1) orders with
  | o :: _ => Some (SettleEntry (account o) (bool_decide (side o = BUY)) f.2)
  | [] => None
  end.
Definition entry_bytes (e : settle_entry) : bytes := le_bytes 4 (se_account e) ++ [if se_buy e then 0 else 1] ++ le_bytes 4 (se_qty e).
(** [encode_settlement] *)
Definition encode_settlement (price : Z) (orders : list order) (c : engine_clearing) : bytes :=
  le_bytes 4 price ++ le_bytes 4 (u32 (Z.of_nat (length (e_fills c)))) ++ concat (map entry_bytes (omap (entry_of orders) (e_fills c))).

Definition entry_read (b : bytes) : settle_entry :=
  SettleEntry (le_int (take 4 b)) (bool_decide (default 0 (b !! 4%nat) = 0)) (le_int (slice b 5 9)).
(** [decode_settlement] *)
Definition decode_settlement (data : bytes) : option (Z * list settle_entry) :=
  if (length data <? 8)%nat then None
  else
    let n := Z.to_nat (le_int (slice data 4 8)) in
    if (length data <? 8 + n * SETTLE_LEN)%nat then None
    else Some (le_int (take 4 data), map entry_read (chunks SETTLE_LEN n (drop 8 data))).

(** *** [settle_deltas] *)
Definition delta : Type := Z * Z * Z.                     (* account, base, quote *)
(** Its [add]: into the account's slot, or a new one at the end *)
Fixpoint add_delta (out : list delta) (acct db dq : Z) : list delta :=
  match out with
  | [] => [(acct, db, dq)]
  | (a, b, q) :: rest => if a =? acct then (a, b + db, q + dq) :: rest else (a, b, q) :: add_delta rest acct db dq
  end.
Definition entry_fee (f : Z) (e : settle_entry) : Z := Z.min f (se_qty e).
Definition entry_base (f : Z) (e : settle_entry) : Z := if se_buy e then se_qty e - entry_fee f e else - (se_qty e + entry_fee f e).
Definition entry_quote (p s : Z) (e : settle_entry) : Z :=
  if se_buy e then - ((se_qty e * p + s - 1) / s) else se_qty e * p / s.
Definition delta_step (p s f treasury : Z) (out : list delta) (e : settle_entry) : list delta :=
  let out := add_delta out (se_account e) (entry_base f e) (entry_quote p s e) in
  if 0 <? entry_fee f e then add_delta out treasury (entry_fee f e) 0 else out.
Definition settle_deltas (price : Z) (entries : list settle_entry) (fee_flat treasury scale : Z) : list delta :=
  let out := foldl (delta_step price (Z.max scale 1) fee_flat treasury) [] entries in
  let resid := zsum snd out in
  if resid =? 0 then out else add_delta out treasury 0 (- resid).

(** *** [apply_settlement] *)

(** The values of the service's storage a settlement writes *)
Inductive skey := KBal (asset account : Z) | KLp (market : Z) | KCv (market : Z).
#[global] Instance skey_eq_dec : EqDecision skey.
Proof. solve_decision. Defined.
(** The storage; [s_refused] lists the writes the host refused. *)
Record service_state := Service { s_bal : gmap (Z * Z) Z; s_lp : gmap Z Z; s_cv : gmap Z Z; s_refused : list skey }.
Definition get_bal (s : service_state) (asset acct : Z) : Z := default 0 (s_bal s !! (asset, acct)).

(** [set_storage] is refused by the host when the service's balance does not cover its footprint, and the code drops that
    error ([.ok()]), leaving the old value: [room] says which writes the host takes. *)
Section host.
Context (room : service_state → skey → Z → bool).

Definition refuse (k : skey) (s : service_state) : service_state := Service (s_bal s) (s_lp s) (s_cv s) (s_refused s ++ [k]).
Definition set_bal (asset acct v : Z) (s : service_state) : service_state :=
  if room s (KBal asset acct) v then Service (<[(asset, acct) := v]> (s_bal s)) (s_lp s) (s_cv s) (s_refused s)
  else refuse (KBal asset acct) s.
Definition set_lp (market v : Z) (s : service_state) : service_state :=
  if room s (KLp market) v then Service (s_bal s) (<[market := v]> (s_lp s)) (s_cv s) (s_refused s) else refuse (KLp market) s.
Definition set_cv (market v : Z) (s : service_state) : service_state :=
  if room s (KCv market) v then Service (s_bal s) (s_lp s) (<[market := v]> (s_cv s)) (s_refused s) else refuse (KCv market) s.

(** Its [apply]: a balance with a delta applied, kept within 64 bits *)
Definition clamped (bal d : Z) : Z := Z.min U64_MAX (Z.max 0 (bal + d)).
Definition apply_delta (base quote : Z) (s : service_state) (d : delta) : service_state :=
  let '(acct, db, dq) := d in
  let s := set_bal base acct (clamped (get_bal s base acct) db) s in
  set_bal quote acct (clamped (get_bal s quote acct) dq) s.
Definition charge_fee (base : Z) (s : service_state) (acct : Z) : service_state :=
  let bal := get_bal s base acct in
  let fee := Z.min FEE_FLAT bal in
  if 0 <? fee then
    let s := set_bal base acct (bal - fee) s in
    set_bal base FEE_ACCOUNT (Z.min U64_MAX (get_bal s base FEE_ACCOUNT + fee)) s
  else s.
(** [apply_settlement]: the fills, the last price and the volume; then the fees *)
Definition settle_fills (base quote market : Z) (settle : bytes) (s : service_state) : service_state :=
  match decode_settlement settle with
  | Some (price, (_ :: _) as entries) =>
      let s := foldl (apply_delta base quote) s (settle_deltas price entries 0 FEE_ACCOUNT SETTLE_SCALE) in
      let volume := foldl (λ acc e, u64 (acc + se_qty e)) 0 (filter (λ e, se_buy e = true) entries) in
      let s := set_lp market price s in
      set_cv market (u64 (default 0 (s_cv s !! market) + volume)) s
  | _ => s
  end.
Definition apply_settlement (base quote market : Z) (settle : bytes) (payers : list Z) (s : service_state) : service_state :=
  foldl (charge_fee base) (settle_fills base quote market settle s) payers.
End host.
(** A host that takes every write *)
Definition roomy (s : service_state) (k : skey) (v : Z) : bool := true.

(** *** A run without a refusal is the run of a host that takes every write *)
Section granted.
Context (room : service_state → skey → Z → bool).

Lemma refuse_listed k s : s_refused (refuse k s) ≠ [].
Proof. cbn. by intros [_ ?]%app_nil. Qed.
Lemma set_bal_granted x a v s : s_refused (set_bal room x a v s) = [] → set_bal room x a v s = set_bal roomy x a v s ∧ s_refused s = [].
Proof. unfold set_bal. destruct (room _ _ _); [done|]. by intros ?%refuse_listed. Qed.
Lemma set_lp_granted m v s : s_refused (set_lp room m v s) = [] → set_lp room m v s = set_lp roomy m v s ∧ s_refused s = [].
Proof. unfold set_lp. destruct (room _ _ _); [done|]. by intros ?%refuse_listed. Qed.
Lemma set_cv_granted m v s : s_refused (set_cv room m v s) = [] → set_cv room m v s = set_cv roomy m v s ∧ s_refused s = [].
Proof. unfold set_cv. destruct (room _ _ _); [done|]. by intros ?%refuse_listed. Qed.
Lemma foldl_granted {A} (f g : service_state → A → service_state) (l : list A) :
  (∀ s x, s_refused (f s x) = [] → f s x = g s x ∧ s_refused s = []) →
  ∀ s, s_refused (foldl f s l) = [] → foldl f s l = foldl g s l ∧ s_refused s = [].
Proof.
  intros H. induction l as [|x l IH]; intros s Hs; cbn [foldl] in *; [done|].
  destruct (IH _ Hs) as [-> Hx]. destruct (H s x Hx) as [-> ?]. done.
Qed.
Lemma apply_granted base quote s d : s_refused (apply_delta room base quote s d) = [] →
  apply_delta room base quote s d = apply_delta roomy base quote s d ∧ s_refused s = [].
Proof.
  destruct d as [[a db] dq]. unfold apply_delta. intros Href. destruct (set_bal_granted _ _ _ _ Href) as [-> H1]. destruct (set_bal_granted _ _ _ _ H1) as [-> H2]. done.
Qed.
Lemma charge_granted base s a : s_refused (charge_fee room base s a) = [] → charge_fee room base s a = charge_fee roomy base s a ∧ s_refused s = [].
Proof.
  unfold charge_fee. case_match; [|done]. intros Href. destruct (set_bal_granted _ _ _ _ Href) as [-> H1]. destruct (set_bal_granted _ _ _ _ H1) as [-> H2]. done.
Qed.
Lemma fills_granted base quote market settle s : s_refused (settle_fills room base quote market settle s) = [] →
  settle_fills room base quote market settle s = settle_fills roomy base quote market settle s ∧ s_refused s = [].
Proof.
  unfold settle_fills. destruct (decode_settlement settle) as [[price [|e l]]|]; [done| |done]. intros H.
  destruct (set_cv_granted _ _ _ H) as [-> H1]. destruct (set_lp_granted _ _ _ H1) as [-> H2].
  destruct (foldl_granted _ (apply_delta roomy base quote) _ (apply_granted base quote) _ H2) as [-> H3]. done.
Qed.
Lemma settlement_granted base quote market settle payers s : s_refused (apply_settlement room base quote market settle payers s) = [] →
  apply_settlement room base quote market settle payers s = apply_settlement roomy base quote market settle payers s ∧
  settle_fills room base quote market settle s = settle_fills roomy base quote market settle s.
Proof.
  unfold apply_settlement. intros H. destruct (foldl_granted _ (charge_fee roomy base) _ (charge_granted base) _ H) as [-> H1].
  destruct (fills_granted _ _ _ _ _ H1) as [-> _]. done.
Qed.
End granted.

(** ** The wire *)
Lemma entry_roundtrip e : 0 ≤ se_account e < 2 ^ 32 → 0 ≤ se_qty e < 2 ^ 32 → entry_read (entry_bytes e) = e ∧ length (entry_bytes e) = SETTLE_LEN.
Proof.
  intros Ha Hq. destruct e as [a b q]. unfold entry_read, entry_bytes. cbn [se_account se_buy se_qty] in *.
  pose proof (le_bytes_length 4 a) as La. pose proof (le_bytes_length 4 q) as Lq. split; [|rewrite !length_app, La, Lq; reflexivity].
  rewrite take_app_length' by done. rewrite (slice_mid _ (le_bytes 4 a ++ [if b then 0 else 1]) (le_bytes 4 q) [] 5 9); [|by rewrite app_nil_r, <- (assoc_L (++))|by rewrite length_app, La|by rewrite length_app, La, Lq].
  rewrite lookup_app_r by (rewrite La; lia). rewrite La. cbn [Nat.sub lookup list_lookup app default]. rewrite !le_int_le_bytes by (change (256 ^ Z.of_nat 4) with (2 ^ 32); lia).
  by destruct b.
Qed.
Lemma settlement_roundtrip price orders c entries : 0 ≤ price < 2 ^ 32 → Z.of_nat (length (e_fills c)) < 2 ^ 32 →
  Forall2 (λ f e, entry_of orders f = Some e ∧ 0 ≤ se_account e < 2 ^ 32 ∧ 0 ≤ se_qty e < 2 ^ 32) (e_fills c) entries →
  decode_settlement (encode_settlement price orders c) = Some (price, entries).
Proof.
  intros Hp Hn HF. assert (omap (entry_of orders) (e_fills c) = entries) as E.
  { revert entries HF. induction (e_fills c) as [|f l IH]; intros es HF; inversion HF as [|?? e es' [Ee _] HF']; subst; [done|]. cbn. rewrite Ee. f_equal. apply IH; [cbn in Hn; lia|done]. }
  unfold encode_settlement. rewrite E. pose proof (Forall2_length _ _ _ HF) as HL.
  assert (Forall (λ e, entry_read (entry_bytes e) = e ∧ length (entry_bytes e) = SETTLE_LEN) entries) as HR.
  { apply Forall_forall. intros e He. apply list_elem_of_lookup in He as [i He]. destruct (Forall2_lookup_r _ _ _ _ _ HF He) as (f & _ & _ & ? & ?). by apply entry_roundtrip. }
  assert (Forall (λ p : bytes, length p = SETTLE_LEN) (map entry_bytes entries)) as HLp by (apply Forall_map; eapply Forall_impl; [exact HR|cbn; tauto]).
  unfold decode_settlement. set (n := u32 _). assert (n = Z.of_nat (length entries)) as En by (unfold n, u32; rewrite Z.mod_small; lia).
  pose proof (le_bytes_length 4 price) as L1. pose proof (le_bytes_length 4 n) as L2. rewrite !length_app, L1, L2, (concat_length SETTLE_LEN), length_map by done.
  rewrite (slice_mid _ (le_bytes 4 price) (le_bytes 4 n) (concat (map entry_bytes entries)) 4 8) by (done || by rewrite L1, ?L2).
  rewrite le_int_le_bytes by (change (256 ^ Z.of_nat 4) with (2 ^ 32); lia). rewrite En, Nat2Z.id.
  destruct (Nat.ltb_spec (4 + (4 + SETTLE_LEN * length entries)) 8); [lia|]. destruct (Nat.ltb_spec (4 + (4 + SETTLE_LEN * length entries)) (8 + length entries * SETTLE_LEN)); [lia|].
  rewrite take_app_length' by done. rewrite le_int_le_bytes by (change (256 ^ Z.of_nat 4) with (2 ^ 32); lia). do 2 f_equal.
  rewrite (assoc_L (++)), drop_app_length' by (by rewrite length_app, !le_bytes_length).
  pose proof (chunks_concat SETTLE_LEN (map entry_bytes entries) [] HLp) as Hc. rewrite app_nil_r, length_map in Hc. rewrite Hc, map_map.
  clear -HR. induction HR as [|e l [He _] _ IH]; cbn [map]; [done|]. by rewrite He, IH.
Qed.

(** ** The deltas *)
Definition d_acct (d : delta) : Z := d.1.1.
Definition d_base (d : delta) : Z := d.1.2.
(** What an account's slots add up to. *)
Definition base_of (out : list delta) (a : Z) : Z := zsum d_base (filter (λ d, d_acct d = a) out).
Definition quote_of (out : list delta) (a : Z) : Z := zsum snd (filter (λ d, d_acct d = a) out).

Lemma add_sums out a db dq : zsum d_base (add_delta out a db dq) = zsum d_base out + db ∧ zsum snd (add_delta out a db dq) = zsum snd out + dq.
Proof. induction out as [|[[x b] q] out [IH1 IH2]]; cbn [add_delta]; [cbn; lia|]. destruct (x =? a); rewrite !zsum_cons; cbn in *; lia. Qed.
Lemma add_at out a db dq x :
  base_of (add_delta out a db dq) x = base_of out x + (if decide (x = a) then db else 0) ∧
  quote_of (add_delta out a db dq) x = quote_of out x + (if decide (x = a) then dq else 0).
Proof.
  unfold base_of, quote_of. induction out as [|[[y b] q] out [IH1 IH2]]; cbn [add_delta].
  - rewrite !filter_cons. cbn. repeat case_decide; subst; try done; cbn; lia.
  - destruct (Z.eqb_spec y a) as [->|Hne]; rewrite !filter_cons; unfold d_acct in *; cbn [fst] in *.
    + repeat case_decide; subst; rewrite ?zsum_cons; cbn; try done; lia.
    + repeat case_decide; subst; rewrite ?zsum_cons; cbn in *; try done; lia.
Qed.
Lemma add_accts out a db dq : map d_acct (add_delta out a db dq) = if decide (a ∈ map d_acct out) then map d_acct out else map d_acct out ++ [a].
Proof.
  induction out as [|[[y b] q] out IH]; cbn [add_delta map]; [by rewrite decide_False by set_solver|]. unfold d_acct at 2 4 6. cbn [fst].
  destruct (Z.eqb_spec y a) as [->|Hne]; cbn [map]; [by rewrite decide_True by set_solver|]. rewrite IH.
  repeat case_decide; try done; exfalso; set_solver.
Qed.
Lemma add_nodup out a db dq : NoDup (map d_acct out) → NoDup (map d_acct (add_delta out a db dq)).
Proof. intros H. rewrite add_accts. case_decide; [done|]. apply NoDup_app. split_and!; [done|set_solver|apply NoDup_singleton]. Qed.
Lemma add_in out a db dq x : x ∈ map d_acct (add_delta out a db dq) ↔ x ∈ map d_acct out ∨ x = a.
Proof. rewrite add_accts. case_decide; set_solver. Qed.

(** What the slots hold after the entries: each account's own, and the fees in the treasury's. *)
Definition mine (a : Z) (e : settle_entry) : bool := bool_decide (se_account e = a).
Section deltas.
Context (p s f treasury : Z).
Notation step := (delta_step p s f treasury).
Definition fee_paid (e : settle_entry) : Z := Z.max 0 (entry_fee f e).

Lemma step_sums out e : zsum d_base (step out e) = zsum d_base out + entry_base f e + fee_paid e ∧ zsum snd (step out e) = zsum snd out + entry_quote p s e.
Proof using.
  unfold delta_step, fee_paid. destruct (Z.ltb_spec 0 (entry_fee f e)).
  - destruct (add_sums (add_delta out (se_account e) (entry_base f e) (entry_quote p s e)) treasury (entry_fee f e) 0) as [-> ->].
    destruct (add_sums out (se_account e) (entry_base f e) (entry_quote p s e)) as [-> ->]. lia.
  - destruct (add_sums out (se_account e) (entry_base f e) (entry_quote p s e)) as [-> ->]. lia.
Qed.
Lemma steps_sums entries out : zsum d_base (foldl step out entries) = zsum d_base out + zsum (λ e, entry_base f e + fee_paid e) entries ∧
  zsum snd (foldl step out entries) = zsum snd out + zsum (entry_quote p s) entries.
Proof using.
  revert out. induction entries as [|e l IH]; intros out; cbn [foldl]; [rewrite !zsum_nil; lia|]. destruct (IH (step out e)) as [-> ->].
  destruct (step_sums out e) as [-> ->]. rewrite !zsum_cons. lia.
Qed.
Lemma steps_nodup entries out : NoDup (map d_acct out) → NoDup (map d_acct (foldl step out entries)).
Proof using.
  revert out. induction entries as [|e l IH]; intros out H; cbn [foldl]; [done|]. apply IH. unfold delta_step. case_match; by repeat apply add_nodup.
Qed.
Lemma steps_in entries out x : x ∈ map d_acct (foldl step out entries) → x ∈ map d_acct out ∨ x = treasury ∨ x ∈ map se_account entries.
Proof using.
  revert out. induction entries as [|e l IH]; intros out H; cbn [foldl] in H; [by left|]. apply IH in H as [H|[H|H]]; [|set_solver..].
  unfold delta_step in H. case_match; rewrite ?add_in in H; set_solver.
Qed.
End deltas.

(** The settlement moves value and makes none: whatever the entries, the fee and the rounding, the quote deltas add up to zero,
    and the base deltas do when as much was bought as sold. *)
Lemma deltas_conserve price entries fee treasury scale : 0 ≤ fee → (∀ e, e ∈ entries → 0 ≤ se_qty e) →
  zsum se_qty (filter (λ e, se_buy e = true) entries) = zsum se_qty (filter (λ e, se_buy e = false) entries) →
  let out := settle_deltas price entries fee treasury scale in zsum d_base out = 0 ∧ zsum snd out = 0 ∧ NoDup (map d_acct out).
Proof.
  intros Hf Hq Hbal. cbn zeta. unfold settle_deltas. set (out := foldl _ _ _).
  destruct (steps_sums price (Z.max scale 1) fee treasury entries []) as [Eb Eq]. fold out in Eb, Eq.
  assert (NoDup (map d_acct out)) as Hnd by (apply steps_nodup; constructor).
  assert (zsum (λ e, entry_base fee e + fee_paid fee e) entries = zsum se_qty (filter (λ e, se_buy e = true) entries) - zsum se_qty (filter (λ e, se_buy e = false) entries)) as Hs.
  { clear -Hf Hq. induction entries as [|e l IH]; [done|]. rewrite zsum_cons, IH by (intros; apply Hq; set_solver). assert (0 ≤ se_qty e) by (apply Hq; set_solver).
    rewrite !filter_cons. unfold entry_base, fee_paid, entry_fee. destruct (se_buy e); cbn; repeat case_decide; rewrite ?zsum_cons; try done; lia. }
  rewrite zsum_nil in Eb, Eq. destruct (Z.eqb_spec (zsum snd out) 0) as [Hz|Hz].
  - split_and!; [lia|done|done].
  - destruct (add_sums out treasury 0 (- zsum snd out)) as [-> ->]. split_and!; [lia|lia|by apply add_nodup].
Qed.

(** ** Which entries a clearing gives *)

(** The entry of an order: its fill. *)
Definition order_entry (orders : list order) (o : order) : settle_entry := SettleEntry (account o) (bool_decide (side o = BUY)) (fill_of (clear orders) o).

Section entries.
Context (orders : list order) (Hw : wire_batch orders).
Notation fills := (e_fills (engine_clear orders)).

Lemma fill_listed i x : (i, x) ∈ fills → ∃ o, o ∈ orders ∧ oid o = i ∧ fill_of (clear orders) o = x.
Proof using Hw.
  intros Hin. destruct (engine_matches orders Hw) as (_ & _ & Ef & Hn).
  assert (c_fills (clear orders) !! i = Some x) as Hl by (rewrite Ef; by apply elem_of_list_to_map).
  destruct (decide (i ∈ map oid orders)) as [(o & -> & Ho)%list_elem_of_fmap|Hni]; [exists o; unfold fill_of; by rewrite Hl|].
  exfalso. unfold clear in Hl. destruct (best_price orders) as [[p v] b]. case_match; cbn in Hl; [by rewrite lookup_empty in Hl|].
  rewrite !ration_other in Hl; [by rewrite lookup_empty in Hl|..]; intros (o & -> & Ho)%list_elem_of_fmap; apply Hni, list_elem_of_fmap_2.
  - by apply elem_of_buy_queue in Ho as [? _].
  - by apply elem_of_sell_queue in Ho as [? _].
Qed.
Lemma entry_found o : o ∈ orders → entry_of orders (oid o, fill_of (clear orders) o) = Some (order_entry orders o).
Proof using Hw.
  intros Ho. unfold entry_of. cbn [fst snd]. destruct (filter (λ x, oid x = oid o) orders) as [|x l] eqn:E.
  - assert (o ∈ filter (λ x, oid x = oid o) orders) by by apply list_elem_of_filter. rewrite E in *. set_solver.
  - assert (x ∈ filter (λ x, oid x = oid o) orders) as [Hx Hin]%list_elem_of_filter by (rewrite E; set_solver).
    by rewrite (NoDup_map_inj oid orders x o (wb_oids _ Hw) Hin Ho Hx).
Qed.

(** The orders the fills belong to. *)
Lemma fills_served : ∃ served, fills = map (λ o, (oid o, fill_of (clear orders) o)) served ∧ served ≡ₚ filter (λ o, oid o ∈ fills.*1) orders.
Proof using Hw.
  assert (∀ l, (∀ f, f ∈ l → f ∈ fills) → ∃ served, l = map (λ o, (oid o, fill_of (clear orders) o)) served ∧ ∀ o, o ∈ served → o ∈ orders) as H.
  { induction l as [|[i x] l IH]; intros Hl; [by exists []; split; [|set_solver]|]. destruct IH as (sv & -> & Hs); [set_solver|].
    destruct (fill_listed i x) as (o & Ho & <- & <-); [set_solver|]. exists (o :: sv). split; [done|set_solver]. }
  destruct (H fills ltac:(done)) as (served & E & Hs). exists served. split; [done|].
  destruct (engine_matches orders Hw) as (_ & _ & _ & Hn). assert (fills.*1 = map oid served) as E1 by (rewrite E, <- list_fmap_compose; done).
  apply NoDup_Permutation.
  - rewrite E1 in Hn. by eapply NoDup_fmap_1.
  - apply NoDup_filter. eapply NoDup_fmap_1. apply (wb_oids _ Hw).
  - intros o. rewrite list_elem_of_filter, E1. split; [intros Ho; split; [by apply list_elem_of_fmap_2|by apply Hs]|].
    intros [(x & Ex & Hx)%list_elem_of_fmap Ho]. by rewrite (NoDup_map_inj oid orders o x (wb_oids _ Hw) Ho (Hs x Hx) Ex).
Qed.
Lemma unserved o : oid o ∉ fills.*1 → fill_of (clear orders) o = 0.
Proof using Hw. intros H. destruct (engine_matches orders Hw) as (_ & _ & Ef & _). unfold fill_of. rewrite Ef. by rewrite not_elem_of_list_to_map_1. Qed.

(** The decoded settlement: its price, and sums over its entries are sums over the orders. *)
Lemma settlement_entries : (∀ o, o ∈ orders → 0 ≤ account o < 2 ^ 32 ∧ 0 ≤ price o < 2 ^ 32) →
  ∃ entries, decode_settlement (encode_settlement (e_price (engine_clear orders)) orders (engine_clear orders)) = Some (c_price (clear orders), entries) ∧
    (∀ e, e ∈ entries → ∃ o, o ∈ orders ∧ e = order_entry orders o) ∧
    ∀ φ, (∀ a b, φ (SettleEntry a b 0) = 0) → zsum φ entries = zsum (λ o, φ (order_entry orders o)) orders.
Proof using Hw.
  intros Hr. destruct (engine_matches orders Hw) as (Ep & _ & _ & Hn). destruct fills_served as (served & E & HP).
  assert (∀ o, o ∈ served → o ∈ orders) as Hs by (intros o Ho; rewrite HP in Ho; by apply list_elem_of_filter in Ho as [_ ?]).
  assert (∀ o, o ∈ orders → nonneg_qty o) as Hq by (intros o Ho; by apply Hw).
  exists (map (order_entry orders) served). split_and!.
  - rewrite Ep. apply settlement_roundtrip.
    + clear_split orders Hq; [lia|]. apply elem_of_candidates in Hp as (o & Ho & <-). by apply Hr.
    + rewrite E, length_map. apply (f_equal length) in E. pose proof (length_filter (λ o, oid o ∈ fills.*1) orders). rewrite <- HP in *. pose proof (wb_length _ Hw). lia.
    + rewrite E. apply Forall2_fmap, Forall_Forall2_diag, Forall_forall. intros o Ho. specialize (Hs o Ho). split; [by apply entry_found|].
      split; [by apply Hr|]. cbn. pose proof (fill_nonneg orders o Hq (wb_oids _ Hw) Hs). pose proof (fill_le_qty orders o Hq (wb_oids _ Hw) Hs). pose proof (wb_qty _ Hw o Hs). lia.
  - intros e (o & -> & Ho)%list_elem_of_fmap. eauto.
  - intros φ Hφ. transitivity (zsum (λ o, φ (order_entry orders o)) served); [clear; induction served as [|o l IH]; [done|]; cbn [map]; by rewrite !zsum_cons, IH|].
    rewrite HP. transitivity (zsum (λ o, φ (order_entry orders o)) (filter (λ _, True) orders)).
    + symmetry. apply zsum_filter_zero; [done|]. intros o _ _ Hni. unfold order_entry. by rewrite unserved.
    + f_equal. clear. induction orders as [|o l IH]; [done|]. by rewrite filter_cons_True, IH.
Qed.
End entries.

(** ** Balances *)
Definition in_range (s : service_state) : Prop := ∀ x a, 0 ≤ get_bal s x a ≤ U64_MAX.
Lemma get_set s x a v y b : get_bal (set_bal roomy x a v s) y b = if decide (x = y ∧ a = b) then v else get_bal s y b.
Proof.
  unfold get_bal, set_bal, roomy. cbn [s_bal]. destruct (decide (x = y ∧ a = b)) as [[-> ->]|Hne]; [by rewrite lookup_insert_eq|].
  rewrite lookup_insert_ne; [done|]. intros [= -> ->]. by apply Hne.
Qed.
Lemma clamped_range b d : 0 ≤ clamped b d ≤ U64_MAX.
Proof. unfold clamped, U64_MAX. lia. Qed.
Lemma clamped_same b : 0 ≤ b ≤ U64_MAX → clamped b 0 = b.
Proof. unfold clamped. lia. Qed.

Section applying.
Context (base quote : Z) (Hne : base ≠ quote).
Definition change_of (out : list delta) (x a : Z) : Z := if decide (x = base) then base_of out a else if decide (x = quote) then quote_of out a else 0.

Lemma apply_one s d x a : in_range s → get_bal (apply_delta roomy base quote s d) x a = clamped (get_bal s x a) (change_of [d] x a).
Proof using Hne.
  intros Hr. specialize (Hr x a). destruct d as [[b db] dq]. unfold apply_delta, change_of, base_of, quote_of. rewrite !get_set, !filter_cons, !filter_nil.
  unfold d_acct, d_base. cbn [fst snd]. destruct (decide (b = a)) as [<-|Hb].
  - rewrite !zsum_cons, !zsum_nil, !Z.add_0_r. cbn [fst snd]. destruct (decide (x = base)) as [->|Hx]; [|destruct (decide (x = quote)) as [->|Hx']].
    + by rewrite decide_False, decide_True by (by intros [? _] || done).
    + by rewrite decide_True, decide_False by (by intros [? _] || done).
    + rewrite !decide_False by (by intros [? _]). by rewrite clamped_same.
  - rewrite !decide_False by (by intros [_ ?]). rewrite !zsum_nil. assert (∀ P Q : Prop, ∀ (p : Decision P) (q : Decision Q), (if p then 0 else if q then 0 else 0) = 0) as -> by (intros ?? [] []; done).
    by rewrite clamped_same.
Qed.
Lemma apply_range s d : in_range s → in_range (apply_delta roomy base quote s d).
Proof using Hne. intros Hr x a. rewrite apply_one by done. apply clamped_range. Qed.
Lemma change_cons d out x a : change_of (d :: out) x a = change_of [d] x a + change_of out x a.
Proof using.
  unfold change_of, base_of, quote_of. rewrite !filter_cons, !filter_nil. repeat case_decide; rewrite ?zsum_cons, ?zsum_nil; lia.
Qed.
Lemma change_absent out x a : a ∉ map d_acct out → change_of out x a = 0.
Proof using.
  intros Hni. assert (filter (λ d, d_acct d = a) out = []) as E.
  { apply filter_none. intros d Hd E. apply Hni. rewrite <- E. by apply list_elem_of_fmap_2. }
  unfold change_of, base_of, quote_of. rewrite E, !zsum_nil. by repeat case_decide.
Qed.
Lemma apply_all out : NoDup (map d_acct out) → ∀ s x a, in_range s →
  in_range (foldl (apply_delta roomy base quote) s out) ∧ get_bal (foldl (apply_delta roomy base quote) s out) x a = clamped (get_bal s x a) (change_of out x a).
Proof using Hne.
  induction out as [|d out IH]; cbn [map foldl]; intros Hnd s x a Hr.
  - split; [done|]. rewrite change_absent by (cbn; set_solver). by rewrite clamped_same.
  - apply NoDup_cons in Hnd as [Hni Hnd]. destruct (IH Hnd _ x a (apply_range s d Hr)) as [Hr' ->]. split; [done|].
    rewrite apply_one, (change_cons d out) by done. destruct (decide (a = d_acct d)) as [->|Hda].
    + rewrite (change_absent out) by done. rewrite Z.add_0_r. apply clamped_same, clamped_range.
    + rewrite (change_absent [d]) by set_solver. by rewrite clamped_same.
Qed.
End applying.

(** A sum in which one account's balance changed. *)
Lemma zsum_update (g h : Z → Z) accts a d : NoDup accts → a ∈ accts → h a = g a + d → (∀ b, b ≠ a → h b = g b) → zsum h accts = zsum g accts + d.
Proof.
  intros Hnd Ha Hh Ho. induction accts as [|b l IH]; [set_solver|]. apply NoDup_cons in Hnd as [Hni Hnd]. rewrite !zsum_cons.
  destruct (decide (b = a)) as [->|Hb].
  - rewrite (zsum_ext h g l), Hh; [lia|]. intros x Hx. apply Ho. by intros ->.
  - rewrite (Ho b Hb), IH by set_solver. lia.
Qed.
(** Slots of known accounts add up to the whole. *)
Lemma slots_sum (f : delta → Z) out accts : NoDup accts → (∀ a, a ∈ map d_acct out → a ∈ accts) →
  zsum (λ a, zsum f (filter (λ d, d_acct d = a) out)) accts = zsum f out.
Proof.
  intros Hnd. induction out as [|d out IH]; intros Hin; [apply zsum_zero; done|]. rewrite zsum_cons, <- IH by set_solver.
  rewrite Z.add_comm. apply (zsum_update _ _ _ (d_acct d)); [done|set_solver|rewrite filter_cons_True by done; rewrite zsum_cons; lia|].
  intros b Hb. by rewrite filter_cons_False by done.
Qed.

Lemma charge_conserves base s a accts : NoDup accts → a ∈ accts → FEE_ACCOUNT ∈ accts → in_range s → zsum (get_bal s base) accts ≤ U64_MAX →
  in_range (charge_fee roomy base s a) ∧ ∀ x, zsum (get_bal (charge_fee roomy base s a) x) accts = zsum (get_bal s x) accts.
Proof.
  intros Hnd Ha Hf Hr Htot. unfold charge_fee. set (fee := Z.min FEE_FLAT _). destruct (Z.ltb_spec 0 fee) as [Hpos|]; [|done].
  set (s1 := set_bal roomy base a _ s). assert (∀ x y, get_bal s1 x y = if decide (base = x ∧ a = y) then get_bal s base a - fee else get_bal s x y) as E1 by (intros; apply get_set).
  assert (zsum (get_bal s1 base) accts = zsum (get_bal s base) accts - fee) as T1.
  { rewrite (zsum_update (get_bal s base) _ accts a (- fee)) by (done || (try intros b Hb; rewrite E1; case_decide; naive_solver lia)). lia. }
  assert (in_range s1) as R1 by (intros x y; rewrite E1; pose proof (Hr base a); pose proof (Hr x y); case_decide; [unfold fee; lia|done]).
  assert (get_bal s1 base FEE_ACCOUNT + fee ≤ U64_MAX) as Hm.
  { pose proof (zsum_elem_le (get_bal s1 base) accts FEE_ACCOUNT ltac:(intros; apply R1) Hf). lia. }
  rewrite Z.min_r by done. split.
  - intros x y. rewrite get_set. pose proof (R1 x y). pose proof (R1 base FEE_ACCOUNT). case_decide; [lia|done].
  - intros x. destruct (decide (x = base)) as [->|Hx].
    + rewrite (zsum_update (get_bal s1 base) _ accts FEE_ACCOUNT fee); [lia|done|done|by rewrite get_set, decide_True|].
      intros b Hb. rewrite get_set, decide_False; [done|]. by intros [_ ?].
    + apply zsum_ext. intros y _. rewrite get_set, decide_False by (by intros [? _]). rewrite E1, decide_False; [done|]. by intros [? _].
Qed.
Lemma fees_conserve base payers accts : NoDup accts → FEE_ACCOUNT ∈ accts → ∀ s, (∀ a, a ∈ payers → a ∈ accts) → in_range s → zsum (get_bal s base) accts ≤ U64_MAX →
  in_range (foldl (charge_fee roomy base) s payers) ∧ ∀ x, zsum (get_bal (foldl (charge_fee roomy base) s payers) x) accts = zsum (get_bal s x) accts.
Proof.
  intros Hnd Hf. induction payers as [|a l IH]; intros s Hp Hr Ht; cbn [foldl]; [done|].
  destruct (charge_conserves base s a accts) as [Hr1 E1]; try done; [apply Hp; set_solver|].
  destruct (IH (charge_fee roomy base s a)) as [Hr2 E2]; [set_solver|done|by rewrite E1|]. split; [done|]. intros x. by rewrite E2, E1.
Qed.

Lemma fees_cv base payers : ∀ s, s_cv (foldl (charge_fee roomy base) s payers) = s_cv s.
Proof. induction payers as [|a l IH]; intros s; cbn [foldl]; [done|]. rewrite IH. unfold charge_fee. by case_match. Qed.
Lemma fees_other base payers x a : x ≠ base → ∀ s, get_bal (foldl (charge_fee roomy base) s payers) x a = get_bal s x a.
Proof.
  intros Hx. induction payers as [|b l IH]; intros s; cbn [foldl]; [done|]. rewrite IH. unfold charge_fee. case_match; [|done].
  by rewrite !get_set, !decide_False by (by intros [? _]).
Qed.

(** ** What a settlement moves *)
Lemma zsum_plus {A} (f g : A → Z) (l : list A) : zsum (λ x, f x + g x) l = zsum f l + zsum g l.
Proof. induction l as [|x l IH]; [done|]. rewrite !zsum_cons, IH. lia. Qed.
Lemma foldl_volume l : foldl (λ acc e, u64 (acc + se_qty e)) 0 l = u64 (zsum se_qty l).
Proof.
  assert (∀ acc, 0 ≤ acc < 2 ^ 64 → foldl (λ acc e, u64 (acc + se_qty e)) acc l = u64 (acc + zsum se_qty l)) as H; [|by rewrite H by lia].
  induction l as [|e l IH]; intros acc Ha; cbn [foldl]; [rewrite zsum_nil, Z.add_0_r; unfold u64; by rewrite Z.mod_small|].
  rewrite IH by (unfold u64; apply Z.mod_pos_bound; lia). rewrite zsum_cons. unfold u64. rewrite Zplus_mod_idemp_l. f_equal. lia.
Qed.
Lemma zsum_opp {A} (f : A → Z) (l : list A) : zsum (λ x, - f x) l = - zsum f l.
Proof. induction l as [|x l IH]; [done|]. rewrite !zsum_cons, IH. lia. Qed.
Lemma zsum_if {A} (P : A → Prop) `{!∀ x, Decision (P x)} (f : A → Z) (l : list A) : zsum (λ x, if decide (P x) then f x else 0) l = zsum f (filter P l).
Proof. induction l as [|x l IH]; [done|]. rewrite filter_cons, zsum_cons, IH. case_decide; [by rewrite zsum_cons|lia]. Qed.
Lemma steps_at p s treasury entries a : (∀ e, e ∈ entries → 0 ≤ se_qty e) → ∀ out,
  base_of (foldl (delta_step p s 0 treasury) out entries) a = base_of out a + zsum (λ e, if decide (a = se_account e) then entry_base 0 e else 0) entries ∧
  quote_of (foldl (delta_step p s 0 treasury) out entries) a = quote_of out a + zsum (λ e, if decide (a = se_account e) then entry_quote p s e else 0) entries.
Proof.
  induction entries as [|e l IH]; intros Hq out; cbn [foldl]; [rewrite !zsum_nil; lia|]. destruct (IH ltac:(set_solver) (delta_step p s 0 treasury out e)) as [-> ->].
  rewrite !zsum_cons. unfold delta_step. assert (0 ≤ se_qty e) by (apply Hq; set_solver). assert (entry_fee 0 e = 0) as -> by (unfold entry_fee; lia). cbn [Z.ltb Z.compare].
  destruct (add_at out (se_account e) (entry_base 0 e) (entry_quote p s e) a) as [-> ->]. repeat case_decide; lia.
Qed.
(** Buyers round up and sellers down, so what is left over is the treasury's to take. *)
Lemma residual p s entries : 0 ≤ p → 0 < s → (∀ e, e ∈ entries → 0 ≤ se_qty e) →
  s * zsum (entry_quote p s) entries ≤ p * (zsum se_qty (filter (λ e, se_buy e = false) entries) - zsum se_qty (filter (λ e, se_buy e = true) entries)).
Proof.
  intros Hp Hs. induction entries as [|e l IH]; intros Hq; [cbn; lia|]. specialize (IH ltac:(set_solver)). rewrite zsum_cons, !filter_cons. unfold entry_quote at 1.
  pose proof (Z.div_mod (se_qty e * p + s - 1) s ltac:(lia)). pose proof (Z.mod_pos_bound (se_qty e * p + s - 1) s Hs).
  pose proof (Z.div_mod (se_qty e * p) s ltac:(lia)). pose proof (Z.mod_pos_bound (se_qty e * p) s Hs).
  destruct (se_buy e); repeat case_decide; try done; rewrite zsum_cons; nia.
Qed.

Section settling.
Context (orders : list order) (Hw : wire_batch orders) (Hwire : ∀ o, o ∈ orders → 0 ≤ account o < 2 ^ 32 ∧ 0 ≤ price o < 2 ^ 32).
Notation fill := (fill_of (clear orders)).
Notation p := (c_price (clear orders)).

(** What the account has to deliver, and to pay. *)
Definition owes_base (a : Z) : Z := zsum fill (filter (λ o, account o = a ∧ side o = SELL) orders).
Definition owes_quote (a : Z) : Z := zsum (λ o, (fill o * p + SETTLE_SCALE - 1) / SETTLE_SCALE) (filter (λ o, account o = a ∧ side o = BUY) orders).
(** ... and gets *)
Definition gets_base (a : Z) : Z := zsum fill (filter (λ o, account o = a ∧ side o = BUY) orders).
Definition gets_quote (a : Z) : Z := zsum (λ o, fill o * p / SETTLE_SCALE) (filter (λ o, account o = a ∧ side o = SELL) orders).

Lemma Hqty o : o ∈ orders → nonneg_qty o.
Proof using Hw. intros Ho. by apply Hw. Qed.
Lemma price_nonneg : 0 ≤ p.
Proof using Hw Hwire. pose proof Hqty as Hq. clear_split orders Hq; [lia|]. apply elem_of_candidates in Hp as (o & Ho & <-). by apply Hwire. Qed.

Lemma sum_split (g h : order → Z) a : zsum (λ o, if decide (a = account o) then if bool_decide (side o = BUY) then g o else h o else 0) orders =
  zsum g (filter (λ o, account o = a ∧ side o = BUY) orders) + zsum h (filter (λ o, account o = a ∧ side o = SELL) orders).
Proof using Hw.
  pose proof (wb_side _ Hw) as Hs. clear -Hs. induction orders as [|o l IH]; [done|]. rewrite zsum_cons, IH by set_solver. specialize (Hs o ltac:(set_solver)).
  rewrite !filter_cons. unfold valid_side, BUY, SELL in *.
  repeat case_decide; repeat case_bool_decide; rewrite ?zsum_cons; try lia; try naive_solver lia; exfalso; naive_solver lia.
Qed.

Lemma settlement_deltas entries out : 
  (∀ e, e ∈ entries → ∃ o, o ∈ orders ∧ e = order_entry orders o) →
  (∀ φ, (∀ a b, φ (SettleEntry a b 0) = 0) → zsum φ entries = zsum (λ o, φ (order_entry orders o)) orders) →
  out = settle_deltas p entries 0 FEE_ACCOUNT SETTLE_SCALE →
  NoDup (map d_acct out) ∧ (∀ a, a ∈ map d_acct out → a = FEE_ACCOUNT ∨ ∃ o, o ∈ orders ∧ account o = a) ∧
  zsum d_base out = 0 ∧ zsum snd out = 0 ∧ zsum se_qty (filter (λ e, se_buy e = true) entries) = c_volume (clear orders) ∧ ∃ dust, 0 ≤ dust ∧
  ∀ a, base_of out a = gets_base a - owes_base a ∧ quote_of out a = gets_quote a - owes_quote a + (if decide (a = FEE_ACCOUNT) then dust else 0).
Proof using Hw Hwire.
  intros He Hsum ->. assert (∀ e, e ∈ entries → 0 ≤ se_qty e) as Hq.
  { intros e (o & Ho & ->)%He. apply fill_nonneg; [apply Hqty|apply (wb_oids _ Hw)|done]. }
  assert (∀ b, zsum se_qty (filter (λ e, se_buy e = b) entries) = c_volume (clear orders)) as Hv.
  { intros b. rewrite <- (zsum_if (λ e, se_buy e = b)), Hsum by (intros; by case_decide). rewrite (zsum_if (λ o, se_buy (order_entry orders o) = b)).
    assert (∀ o, o ∈ orders → se_buy (order_entry orders o) = b ↔ side o = if b then BUY else SELL) as Hs.
    { intros o Ho. cbn [order_entry se_buy]. destruct (wb_side _ Hw o Ho) as [-> | ->]; by destruct b. }
    rewrite (filter_ext_elem _ _ _ Hs). destruct b; [apply buy_fills_sum|apply sell_fills_sum]; try apply Hqty; apply (wb_oids _ Hw). }
  destruct (deltas_conserve p entries 0 FEE_ACCOUNT SETTLE_SCALE ltac:(lia) Hq) as (Sb & Sq & Hn); [by rewrite !Hv|]. split_and!; [done| |done|done|done|].
  - intros a Ha. assert (a ∈ map d_acct (foldl (delta_step p (Z.max SETTLE_SCALE 1) 0 FEE_ACCOUNT) [] entries) ∨ a = FEE_ACCOUNT) as [Hin|Hin].
    { unfold settle_deltas in Ha. case_match; [by left|]. by apply add_in in Ha. }
    + apply steps_in in Hin as [Hin|[Hin|Hin]]; [set_solver|by left|]. apply list_elem_of_fmap in Hin as (e & -> & (o & Ho & ->)%He). right. by exists o.
    + by left.
  - unfold settle_deltas. set (out := foldl _ _ _). exists (- zsum snd out).
    destruct (steps_sums p (Z.max SETTLE_SCALE 1) 0 FEE_ACCOUNT entries []) as [_ Eq]. fold out in Eq. rewrite zsum_nil, Z.add_0_l in Eq. split.
    { pose proof (residual p (Z.max SETTLE_SCALE 1) entries price_nonneg ltac:(done) Hq) as Hres. rewrite !Hv in Hres. rewrite Eq. change (Z.max SETTLE_SCALE 1) with 10000 in *. nia. }
    intros a. destruct (steps_at p (Z.max SETTLE_SCALE 1) FEE_ACCOUNT entries a Hq []) as [Ab Aq]. fold out in Ab, Aq. change (base_of [] a) with 0 in Ab. change (quote_of [] a) with 0 in Aq.
    rewrite Hsum in Ab, Aq by (intros; case_decide; [|done]; cbn; by destruct b). rewrite Z.add_0_l in Ab, Aq.
    rewrite (zsum_ext _ (λ o, if decide (a = account o) then if bool_decide (side o = BUY) then fill o else - fill o else 0)) in Ab.
    2: { intros o Ho. cbn [order_entry se_account]. case_decide; [|done]. unfold entry_base, entry_fee. cbn [order_entry se_buy se_qty].
         pose proof (fill_nonneg orders o Hqty (wb_oids _ Hw) Ho). case_bool_decide; lia. }
    rewrite (zsum_ext _ (λ o, if decide (a = account o) then if bool_decide (side o = BUY) then - ((fill o * p + SETTLE_SCALE - 1) / SETTLE_SCALE) else fill o * p / SETTLE_SCALE else 0)) in Aq by done.
    rewrite sum_split, zsum_opp in Ab, Aq. change (zsum fill _ + - zsum fill _) with (gets_base a + - owes_base a) in Ab. change (- zsum _ _ + zsum _ _) with (- owes_quote a + gets_quote a) in Aq.
    destruct (Z.eqb_spec (zsum snd out) 0) as [Hz|Hz]; [rewrite Ab, Aq, Hz; case_decide; lia|].
    destruct (add_at out FEE_ACCOUNT 0 (- zsum snd out) a) as [-> ->]. rewrite Ab, Aq. repeat case_decide; lia.
Qed.

(** The accounts a settlement may touch are among [accts], and those who trade can deliver and pay. *)
Record funded (base quote : Z) (accts : list Z) (s : service_state) : Prop := {
  fu_accts : NoDup accts;
  fu_treasury : FEE_ACCOUNT ∈ accts;
  fu_traders o : o ∈ orders → account o ∈ accts;
  fu_base a : a ∈ accts → owes_base a ≤ get_bal s base a;
  fu_quote a : a ∈ accts → owes_quote a ≤ get_bal s quote a;
  fu_supply x : zsum (get_bal s x) accts ≤ U64_MAX
}.

Lemma gets_nonneg a : 0 ≤ gets_base a ∧ 0 ≤ gets_quote a.
Proof using Hw Hwire.
  pose proof price_nonneg. split; apply zsum_nonneg; intros o [_ Ho]%list_elem_of_filter; pose proof (fill_nonneg orders o Hqty (wb_oids _ Hw) Ho); [done|].
  apply Z.div_pos; [nia|done].
Qed.
Lemma apply_keeps base quote out : ∀ s, s_cv (foldl (apply_delta roomy base quote) s out) = s_cv s.
Proof using. induction out as [|[[a b] q] out IH]; intros s; cbn [foldl]; [done|]. by rewrite IH. Qed.

(** The fills move exactly what the accounts get and owe; rounding dust goes to the treasury. *)
Lemma fills_settle base quote market accts s : base ≠ quote → in_range s → funded base quote accts s →
  let s' := settle_fills roomy base quote market (encode_settlement (e_price (engine_clear orders)) orders (engine_clear orders)) s in
  in_range s' ∧ (∀ x, zsum (get_bal s' x) accts = zsum (get_bal s x) accts) ∧
  (∃ dust, 0 ≤ dust ∧ ∀ a, a ∈ accts →
     get_bal s' base a = get_bal s base a + gets_base a - owes_base a ∧
     get_bal s' quote a = get_bal s quote a + gets_quote a - owes_quote a + (if decide (a = FEE_ACCOUNT) then dust else 0)) ∧
  (∀ x a, x ≠ base → x ≠ quote → get_bal s' x a = get_bal s x a) ∧
  (0 ≤ default 0 (s_cv s !! market) ≤ U64_MAX → default 0 (s_cv s' !! market) = u64 (default 0 (s_cv s !! market) + c_volume (clear orders))).
Proof using Hw Hwire.
  intros Hne Hr Hfu. destruct (settlement_entries orders Hw Hwire) as (entries & Ed & He & Hsum). cbn zeta. unfold settle_fills. rewrite Ed.
  destruct (settlement_deltas entries _ He Hsum eq_refl) as (Hn & Hin & Sb & Sq & Hv & dust & Hd & Hat). set (out := settle_deltas _ _ _ _ _) in *.
  destruct (apply_all base quote Hne out Hn s base 0 Hr) as [Hr1 _]. pose proof (λ x a, proj2 (apply_all base quote Hne out Hn s x a Hr)) as Hget.
  set (s1 := foldl _ s out) in *. set (s' := match entries with [] => _ | _ => _ end).
  assert (∀ x a, get_bal s' x a = get_bal s1 x a) as Hs' by (unfold s', s1, out; by destruct entries).
  assert (∀ a, a ∈ map d_acct out → a ∈ accts) as Hacc by (intros a [->|(o & Ho & <-)]%Hin; [apply Hfu|by apply Hfu]).
  assert (∀ x, zsum (change_of base quote out x) accts = 0) as Hz.
  { intros x. unfold change_of, base_of, quote_of. destruct (decide (x = base)); [by rewrite slots_sum by (done || apply Hfu)|].
    destruct (decide (x = quote)); [by rewrite slots_sum by (done || apply Hfu)|by apply zsum_zero]. }
  assert (∀ x a, a ∈ accts → 0 ≤ get_bal s x a + change_of base quote out x a) as Hlow.
  { intros x a Ha. pose proof (gets_nonneg a). pose proof (fu_base _ _ _ _ Hfu a Ha). pose proof (fu_quote _ _ _ _ Hfu a Ha). destruct (Hat a) as [Eb Eq]. specialize (Hr x a).
    unfold change_of. destruct (decide (x = base)) as [->|]; [lia|]. destruct (decide (x = quote)) as [->|]; [case_decide; lia|lia]. }
  assert (∀ x a, a ∈ accts → get_bal s1 x a = get_bal s x a + change_of base quote out x a) as Hex.
  { intros x a Ha. rewrite Hget. unfold clamped. pose proof (Hlow x a Ha). rewrite Z.max_r by done. apply Z.min_r.
    pose proof (zsum_elem_le (λ a, get_bal s x a + change_of base quote out x a) accts a (Hlow x) Ha) as Hle.
    rewrite zsum_plus, Hz in Hle. pose proof (fu_supply _ _ _ _ Hfu x). lia. }
  split_and!.
  - intros x a. rewrite Hs'. apply Hr1.
  - intros x. rewrite (zsum_ext _ (λ a, get_bal s x a + change_of base quote out x a)) by (intros a Ha; rewrite Hs'; by apply Hex). rewrite zsum_plus, Hz. lia.
  - exists dust. split; [done|]. intros a Ha. rewrite !Hs', !Hex by done. destruct (Hat a) as [Eb Eq]. unfold change_of. rewrite decide_True by done.
    rewrite decide_False, decide_True by done. rewrite Eb, Eq. case_decide; lia.
  - intros x a H1 H2. rewrite Hs', Hget. unfold change_of. rewrite !decide_False by done. by apply clamped_same.
  - intros Hcv. unfold s'. rewrite <- Hv. destruct entries as [|e l]; [rewrite filter_nil, zsum_nil, Z.add_0_r; unfold u64, U64_MAX in *; rewrite Z.mod_small by lia; done|].
    unfold set_cv, set_lp, roomy. cbn [s_cv]. rewrite lookup_insert_eq. cbn [default]. unfold s1. rewrite apply_keeps. rewrite foldl_volume. unfold u64. by rewrite Zplus_mod_idemp_r.
Qed.
End settling.

(** (C26) Settling a cleared batch moves value and makes none.  When the accounts that trade can deliver and pay, their ids and prices
    are 32-bit, base and quote differ and the host refuses none of this settlement's writes, then after any batch the engine clears,
    fees included: every asset's total over the accounts and the treasury is what it was, no balance leaves its 64 bits, assets the
    market does not trade are untouched, and before the fees each account has exactly what its fills give and cost it at the one
    price (the treasury also the dust of rounding); the volume counts what was matched, modulo 2^64. *)
Theorem settlement_conserves room orders base quote market payers accts s :
  wire_batch orders → (∀ o, o ∈ orders → 0 ≤ account o < 2 ^ 32 ∧ 0 ≤ price o < 2 ^ 32) → base ≠ quote → in_range s →
  funded orders base quote accts s → (∀ a, a ∈ payers → a ∈ accts) → 0 ≤ default 0 (s_cv s !! market) ≤ U64_MAX →
  let settle := encode_settlement (e_price (engine_clear orders)) orders (engine_clear orders) in
  let s1 := settle_fills room base quote market settle s in
  let s' := apply_settlement room base quote market settle payers s in
  s_refused s' = [] →
  (∀ x, zsum (get_bal s' x) accts = zsum (get_bal s x) accts) ∧ in_range s' ∧
  (∀ x a, x ≠ base → x ≠ quote → get_bal s' x a = get_bal s x a) ∧
  (∃ dust, 0 ≤ dust ∧ ∀ a, a ∈ accts →
     get_bal s1 base a = get_bal s base a + gets_base orders a - owes_base orders a ∧
     get_bal s1 quote a = get_bal s quote a + gets_quote orders a - owes_quote orders a + (if decide (a = FEE_ACCOUNT) then dust else 0)) ∧
  default 0 (s_cv s' !! market) = u64 (default 0 (s_cv s !! market) + c_volume (clear orders)).
Proof.
  intros Hw Hwire Hne Hr Hfu Hp Hcv. cbn zeta. intros [-> ->]%settlement_granted.
  destruct (fills_settle orders Hw Hwire base quote market accts s Hne Hr Hfu) as (Hr1 & Ht & Hd & Ho & Hv).
  destruct (fees_conserve base payers accts (fu_accts _ _ _ _ _ Hfu) (fu_treasury _ _ _ _ _ Hfu) _ Hp Hr1) as [Hr2 Ht2]; [rewrite Ht; apply Hfu|].
  unfold apply_settlement. split_and!; [intros x; by rewrite Ht2, Ht|done| |done|by rewrite fees_cv, Hv].
  intros x a H1 H2. rewrite fees_other by done. by apply Ho.
Qed.

(** ** Concrete settlements *)
Module SettleSample.
Definition orders : list order := [mk_order 1 1 10 BUY 10150 20003 false; mk_order 2 2 11 SELL 9850 15001 false; mk_order 3 3 12 SELL 9900 5000 false].
Definition accts : list Z := [1; 2; 3; FEE_ACCOUNT].
(** Everyone holds 10^6 of both assets; and a buyer who holds nothing. *)
Definition rich : service_state := Service (list_to_map (flat_map (λ x, map (λ a, ((x, a), 10 ^ 6)) accts) [0; 1])) ∅ ∅ [].
Definition poor : service_state := Service {[(1, 2) := 10 ^ 6; (1, 3) := 10 ^ 6]} ∅ ∅ [].
Definition settle : bytes := encode_settlement (e_price (engine_clear orders)) orders (engine_clear orders).

Lemma rich_has x a : get_bal rich x a = 0 ∨ get_bal rich x a = 10 ^ 6.
Proof.
  unfold get_bal. destruct (s_bal rich !! (x, a)) as [v|] eqn:E; [|by left]. right. cbn [default]. apply elem_of_list_to_map_2 in E.
  apply list_elem_of_In, in_flat_map in E as (y & _ & (b & [= _ _ <-] & _)%in_map_iff). done.
Qed.
Lemma orders_wire : wire_batch orders ∧ ∀ o, o ∈ orders → 0 ≤ account o < 2 ^ 32 ∧ 0 ≤ price o < 2 ^ 32.
Proof.
  split; [split|]; [| |vm_compute; reflexivity|apply (bool_decide_eq_true_1 _); vm_compute; reflexivity|];
    intros o Ho; unfold orders in Ho; repeat (apply elem_of_cons in Ho as [->|Ho]; [first [left; reflexivity|right; reflexivity|cbn; lia]|]); by apply not_elem_of_nil in Ho.
Qed.
Lemma rich_funded : funded orders 1 0 accts rich.
Proof.
  split.
  - apply (bool_decide_eq_true_1 _). vm_compute. reflexivity.
  - apply (bool_decide_eq_true_1 _). vm_compute. reflexivity.
  - intros o Ho. unfold orders in Ho. repeat (apply elem_of_cons in Ho as [->|Ho]; [apply (bool_decide_eq_true_1 _); vm_compute; reflexivity|]). by apply not_elem_of_nil in Ho.
  - intros a Ha. unfold accts in Ha. repeat (apply elem_of_cons in Ha as [->|Ha]; [apply Z.leb_le; vm_compute; reflexivity|]). by apply not_elem_of_nil in Ha.
  - intros a Ha. unfold accts in Ha. repeat (apply elem_of_cons in Ha as [->|Ha]; [apply Z.leb_le; vm_compute; reflexivity|]). by apply not_elem_of_nil in Ha.
  - intros x. cbn [accts]. unfold accts. rewrite !zsum_cons, zsum_nil. unfold U64_MAX. pose proof (rich_has x 1). pose proof (rich_has x 2). pose proof (rich_has x 3). pose proof (rich_has x FEE_ACCOUNT). lia.
Qed.
End SettleSample.

Lemma settlement_conserves_witness : zsum (get_bal (apply_settlement roomy 1 0 7 SettleSample.settle [1; 2; 3] SettleSample.rich) 0) SettleSample.accts = 4 * 10 ^ 6.
Proof.
  destruct SettleSample.orders_wire as [Hw Hr].
  destruct (settlement_conserves roomy SettleSample.orders 1 0 7 [1; 2; 3] SettleSample.accts SettleSample.rich Hw Hr ltac:(discriminate)) as (Ht & _).
  - intros x a. destruct (SettleSample.rich_has x a) as [->| ->]; unfold U64_MAX; lia.
  - exact SettleSample.rich_funded.
  - intros a Ha. repeat (apply elem_of_cons in Ha as [->|Ha]; [apply (bool_decide_eq_true_1 _); vm_compute; reflexivity|]). by apply not_elem_of_nil in Ha.
  - vm_compute. split; discriminate.
  - vm_compute. reflexivity.
  - unfold SettleSample.settle. rewrite Ht. vm_compute. reflexivity.
Defined.

(** Without funds the clamp makes value: the sellers are paid in full by a buyer who has nothing. *)
Lemma unfunded_mints : zsum (get_bal SettleSample.poor 0) SettleSample.accts = 0 ∧
  0 < zsum (get_bal (apply_settlement roomy 1 0 7 SettleSample.settle [] SettleSample.poor) 0) SettleSample.accts.
Proof. split; vm_compute; reflexivity. Qed.
(** A host without room for a new value: the buyer's first balance of the asset bought is refused, the price is taken all the same,
    and what was bought is gone. *)
Definition no_new_value (s : service_state) (k : skey) (v : Z) : bool :=
  match k with KBal x a => bool_decide (is_Some (s_bal s !! (x, a))) | _ => true end.
Example refused_credit :
  let before := Service (delete (1, 1) (s_bal SettleSample.rich)) ∅ ∅ [] in
  let after := apply_settlement no_new_value 1 0 7 SettleSample.settle [] before in
  s_refused after = [KBal 1 1] ∧ get_bal after 0 1 < get_bal before 0 1 ∧ get_bal after 1 1 = 0 ∧
  zsum (get_bal after 1) SettleSample.accts < zsum (get_bal before 1) SettleSample.accts.
Proof. split_and!; vm_compute; reflexivity. Qed.
