(* ===== verification/Fuzz.v ===== *)
(** * The correctness fuzzer's oracle

    src/offchain/dex_fuzz.py: the balanced, all-crossing batch it places ([gen_batch]), its wait for quiet, and the invariants
    it checks afterwards ([verify]).  The fuzzer promises that a correct exchange clears such a batch in full and passes every
    check; the theorem of this file is that the engine (Engine.v) with the service's settlement (Settlement.v) does.

    Random draws are arguments.  Display prices have four decimals and quantities are whole, so both are exact in atomic
    units (scale 10000), and so are the checks; the float slack of 1e-6 display units is 0.01 atomic. *)
From S2P Require Import Prelude Orders Clearing Bytes Engine Wire Settlement.

Definition FZ_USDC : Z := 0.
Definition FZ_DOT : Z := 1.
Definition FZ_JAMKB : Z := 2.
Definition ACCTS : list Z := [1; 2; 3; 4; 5; 6].
Definition FZ_TREASURY : Z := 4294967295.
Definition FZ_FEE_FLAT : Z := 300.
Definition SC : Z := 10000.
Definition BUY_LO : Z := 10100.
Definition BUY_HI : Z := 10200.
Definition SELL_LO : Z := 9800.
Definition SELL_HI : Z := 9900.
Definition LEVELS : list Z := [1; 3; 8; 20; 50; 120; 300; 750; 1500; 3000; 6000].

(** ** The batch *)

(** One pair's draws: [rng.sample], [rng.randint], two [rng.uniform]. *)
Record draw := Draw { dw_buyer : Z; dw_seller : Z; dw_q : Z; dw_pb : Z; dw_ps : Z }.
Definition fuzz_order : Type := Z * Z * Z * Z.             (* account, side, quantity, price *)
Record fuzz_batch := Batch_ {
  fb_orders : list fuzz_order;
  dot_delta : gmap Z Z;
  fb_volume : Z;
  gross_buy : gmap Z Z;
  gross_sell : gmap Z Z;
  norders : gmap Z Z
}.
Definition got (m : gmap Z Z) (h : Z) : Z := default 0 (m !! h).
Definition bump (h d : Z) (m : gmap Z Z) : gmap Z Z := <[h := got m h + d]> m.

Definition gen_pair (b : fuzz_batch) (d : draw) : fuzz_batch :=
  {| fb_orders := fb_orders b ++ [(dw_buyer d, BUY, dw_q d, dw_pb d); (dw_seller d, SELL, dw_q d, dw_ps d)];
     dot_delta := bump (dw_seller d) (- dw_q d) (bump (dw_buyer d) (dw_q d) (dot_delta b));
     fb_volume := fb_volume b + dw_q d;
     gross_buy := bump (dw_buyer d) (dw_q d) (gross_buy b);
     gross_sell := bump (dw_seller d) (dw_q d) (gross_sell b);
     norders := bump (dw_seller d) 1 (bump (dw_buyer d) 1 (norders b)) |}.
Definition zeros : gmap Z Z := list_to_map (map (λ h, (h, 0)) ACCTS).
(** [gen_batch], before the shuffle of its orders *)
Definition gen_batch (draws : list draw) : fuzz_batch := foldl gen_pair (Batch_ [] zeros 0 zeros zeros zeros) draws.

(** [_place]: the next seq of the account, and the atomic terms signed *)
Definition fuzz_place (seqs : gmap Z Z) (o : fuzz_order) : (Z * Z * Z * Z * Z) * gmap Z Z :=
  let '(h, side, q, price) := o in ((h, side, q * SC, price, got seqs h), bump h 1 seqs).

(** ** Reading the chain *)
Record fuzz_state := FuzzState { fz_bal : Z → Z → Z; fz_cv : Z; fz_book : list order }.
Definition fz_supply (s : fuzz_state) (asset : Z) : Z := zsum (fz_bal s asset) (ACCTS ++ [FZ_TREASURY]).
Definition trader_supply (s : fuzz_state) (asset : Z) : Z := zsum (fz_bal s asset) ACCTS.

(** One look of [wait_quiescent]: the time, the volume, the mempool's size when it could be read *)
Record fuzz_look := FuzzLook { lk_time : Z; lk_cv : Z; lk_mempool : option Z }.
Definition STABLE_SECS : Z := 12.
(** [wait_quiescent]: over the looks it gets, each after a sleep of 3 s: did the volume arrive and stay while the mempool was empty *)
Fixpoint wait_quiescent (cv_target timeout t0 now : Z) (stable_since : option Z) (looks : list fuzz_look) : bool :=
  if now - t0 <? timeout then
    match looks with
    | [] => false
    | l :: rest =>
        let quiet := (cv_target <=? lk_cv l) && match lk_mempool l with Some n => n =? 0 | None => true end in
        if quiet then
          match stable_since with
          | None => wait_quiescent cv_target timeout t0 (lk_time l) (Some (lk_time l)) rest
          | Some t => if STABLE_SECS <=? lk_time l - t then true else wait_quiescent cv_target timeout t0 (lk_time l) (Some t) rest
          end
        else wait_quiescent cv_target timeout t0 (lk_time l) None rest
    end
  else false.

(** ** The oracle *)
Fixpoint first_failure (checks : list (bool * string)) : option string :=
  match checks with [] => None | (ok, name) :: rest => if ok : bool then first_failure rest else Some name end.
(** [verify]: the invariant that fails first, if one does *)
Definition verify (before after : fuzz_state) (b : fuzz_batch) (quiescent : bool) (tol : Z) : option string :=
  let moved_ asset h := fz_bal after asset h - fz_bal before asset h in
  let got_vol := (fz_cv after - fz_cv before) / SC in
  let total := zsum (got (norders b)) ACCTS in
  first_failure
    [ (quiescent, "LIVENESS"%string);
      (forallb (λ a, fz_supply before a =? fz_supply after a) [FZ_USDC; FZ_DOT], "CONSERVATION"%string);
      (forallb (λ a, forallb (λ h, 0 <=? fz_bal after a h) ACCTS) [FZ_USDC; FZ_DOT; FZ_JAMKB], "NON_NEGATIVE"%string);
      (trader_supply after FZ_JAMKB =? trader_supply before FZ_JAMKB, "JAMKB_TRADER"%string);
      (Z.abs (got_vol - fb_volume b) <=? tol, "VOLUME"%string);
      (forallb (λ h, Z.abs (moved_ FZ_DOT h - (got (dot_delta b) h * SC - FZ_FEE_FLAT * got (norders b) h)) <=? tol * SC) ACCTS, "POSITION"%string);
      (moved_ FZ_DOT FZ_TREASURY =? FZ_FEE_FLAT * total, "FEE_ACCRUAL"%string);
      (match fz_book after with [] => true | _ => false end, "BOOK_RESIDUE"%string);
      (forallb (λ h,
         let du := moved_ FZ_USDC h in
         let lo := - got (gross_buy b) h * BUY_HI + got (gross_sell b) h * SELL_LO - tol * SC in
         let hi := - got (gross_buy b) h * SELL_LO + got (gross_sell b) h * BUY_HI + tol * SC in
         (100 * lo - 1 <=? 100 * du) && (100 * du <=? 100 * hi + 1)) ACCTS, "VALUE"%string) ].

(** ** A balanced batch whose sides all cross clears in full *)
Lemma zsum_tight {A} (f g : A → Z) (l : list A) : (∀ x, x ∈ l → f x ≤ g x) → zsum f l = zsum g l → ∀ x, x ∈ l → f x = g x.
Proof.
  induction l as [|y l IH]; intros Hle E x Hx; [set_solver|]. rewrite !zsum_cons in E.
  assert (zsum f l ≤ zsum g l). { clear -Hle. induction l as [|z l IH]; [done|]. rewrite !zsum_cons. specialize (IH ltac:(set_solver)). pose proof (Hle z ltac:(set_solver)). lia. }
  pose proof (Hle y ltac:(set_solver)). apply elem_of_cons in Hx as [->|Hx]; [lia|]. apply IH; [set_solver|lia|done].
Qed.
Lemma least_price (l : list order) : l ≠ [] → ∃ o, o ∈ l ∧ ∀ x, x ∈ l → price o ≤ price x.
Proof.
  induction l as [|o l IH]; [done|]. intros _. destruct (decide (l = [])) as [->|Hl]; [exists o; set_solver|]. destruct (IH Hl) as (m & Hm & Hmin).
  destruct (Z.le_ge_cases (price o) (price m)); [exists o|exists m]; (split; [set_solver|]); intros x [->|Hx]%elem_of_cons; try lia; specialize (Hmin x Hx); lia.
Qed.

Section crossing.
Context (orders : list order) (V : Z).
Context (Hpos : ∀ o, o ∈ orders → 0 < qty o) (Hoids : NoDup (map oid orders)) (Hside : ∀ o, o ∈ orders → valid_side o).
Context (Hcross : ∀ b s, b ∈ orders → s ∈ orders → side b = BUY → side s = SELL → price s ≤ price b).
Context (Hbuys : zsum qty (filter (λ o, side o = BUY) orders) = V) (Hsells : zsum qty (filter (λ o, side o = SELL) orders) = V).

Lemma cross_nonneg o : o ∈ orders → nonneg_qty o.
Proof using Hpos. intros Ho. specialize (Hpos o Ho). unfold nonneg_qty. lia. Qed.
Lemma crossing_volume : c_volume (clear orders) = V.
Proof using Hpos Hoids Hcross Hbuys Hsells.
  pose proof cross_nonneg as Hq. assert (c_volume (clear orders) ≤ V) as Hle.
  { rewrite <- Hbuys, <- (buy_fills_sum orders Hq Hoids). clear -Hq Hoids. assert (∀ o, o ∈ filter (λ o, side o = BUY) orders → o ∈ orders) as Hin by (intros o [_ ?]%list_elem_of_filter; done).
    induction (filter (λ o, side o = BUY) orders) as [|o l IH]; [done|]. rewrite !zsum_cons. specialize (IH ltac:(set_solver)). pose proof (fill_le_qty orders o Hq Hoids ltac:(set_solver)). lia. }
  destruct (decide (filter (λ o, side o = BUY) orders = [])) as [E|E].
  - rewrite E, zsum_nil in Hbuys. pose proof (vol_le_volume orders 0 Hq). pose proof (vol_nonneg orders 0 Hq). lia.
  - destruct (least_price _ E) as (m & [Hmb Hm]%list_elem_of_filter & Hmin). pose proof (vol_le_volume orders (price m) Hq) as Hv.
    assert (demand orders (price m) = V) as Ed.
    { rewrite <- Hbuys. unfold demand. f_equal. apply filter_ext_elem. intros o Ho. unfold bids_at. split; [tauto|]. intros Hb. split; [done|]. apply Hmin. by apply list_elem_of_filter. }
    assert (supply orders (price m) = V) as Es.
    { rewrite <- Hsells. unfold supply. f_equal. apply filter_ext_elem. intros o Ho. unfold asks_at. split; [tauto|]. intros Hs. split; [done|]. by apply Hcross. }
    unfold vol in Hv. lia.
Qed.
Lemma crossing_fills o : o ∈ orders → fill_of (clear orders) o = qty o.
Proof using All.
  intros Ho. pose proof cross_nonneg as Hq.
  assert (∀ s, zsum (fill_of (clear orders)) (filter (λ o, side o = s) orders) = zsum qty (filter (λ o, side o = s) orders) → side o = s → fill_of (clear orders) o = qty o) as H.
  { intros s E Hs. eapply (zsum_tight _ qty (filter (λ o, side o = s) orders)); [|exact E|by apply list_elem_of_filter].
    intros x [_ Hx]%list_elem_of_filter. by apply fill_le_qty. }
  destruct (Hside o Ho) as [Hs|Hs]; [apply (H BUY)|apply (H SELL)]; try done; [rewrite buy_fills_sum, crossing_volume by done|rewrite sell_fills_sum, crossing_volume by done]; done.
Qed.
Lemma crossing_price o : o ∈ orders → (side o = BUY → c_price (clear orders) ≤ price o) ∧ (side o = SELL → price o ≤ c_price (clear orders)).
Proof using All.
  intros Ho. pose proof (crossing_fills o Ho) as Hf. pose proof (Hpos o Ho).
  destruct (fill_of_cases orders o cross_nonneg Hoids Ho) as [E|[(l1 & l2 & _ & E & _)|(l1 & l2 & _ & E & _)]]; [lia|..].
  - assert (o ∈ buy_queue orders (c_price (clear orders))) as (_ & Hs & Hp)%elem_of_buy_queue by (rewrite E; set_solver). rewrite Hs. by split.
  - assert (o ∈ sell_queue orders (c_price (clear orders))) as (_ & Hs & Hp)%elem_of_sell_queue by (rewrite E; set_solver). rewrite Hs. by split.
Qed.
End crossing.

(** ** What the generator counts *)
Record good_draw (d : draw) : Prop := {
  gd_buyer : dw_buyer d ∈ ACCTS;
  gd_seller : dw_seller d ∈ ACCTS;
  gd_q : 1 ≤ dw_q d ≤ 20;
  gd_pb : BUY_LO ≤ dw_pb d ≤ BUY_HI;
  gd_ps : SELL_LO ≤ dw_ps d ≤ SELL_HI
}.
Definition one (b : bool) (x : Z) : Z := if b then x else 0.
Definition bought (a : Z) (d : draw) : Z := one (bool_decide (dw_buyer d = a)) (dw_q d).
Definition sold (a : Z) (d : draw) : Z := one (bool_decide (dw_seller d = a)) (dw_q d).
Definition counted (a : Z) (d : draw) : Z := one (bool_decide (dw_buyer d = a)) 1 + one (bool_decide (dw_seller d = a)) 1.

Lemma got_bump h d m a : got (bump h d m) a = got m a + one (bool_decide (h = a)) d.
Proof. unfold got, bump, one. case_bool_decide as E; [subst; by rewrite lookup_insert_eq|]. rewrite lookup_insert_ne by done. lia. Qed.
Lemma got_zeros a : got zeros a = 0.
Proof.
  unfold got. destruct (zeros !! a) as [x|] eqn:E; [|done]. apply elem_of_list_to_map_2, list_elem_of_fmap in E as (h & [= _ ->] & _). done.
Qed.
Lemma gen_counts draws b : let r := foldl gen_pair b draws in
  fb_volume r = fb_volume b + zsum dw_q draws ∧ ∀ a,
  got (gross_buy r) a = got (gross_buy b) a + zsum (bought a) draws ∧ got (gross_sell r) a = got (gross_sell b) a + zsum (sold a) draws ∧
  got (dot_delta r) a = got (dot_delta b) a + zsum (bought a) draws - zsum (sold a) draws ∧ got (norders r) a = got (norders b) a + zsum (counted a) draws.
Proof.
  revert b. induction draws as [|d l IH]; intros b; cbn [foldl]; [rewrite zsum_nil; split; [lia|]; intros a; rewrite !zsum_nil; lia|].
  destruct (IH (gen_pair b d)) as [Ev Ea]. split; [rewrite Ev, zsum_cons; cbn; lia|]. intros a. destruct (Ea a) as (-> & -> & -> & ->). rewrite !zsum_cons. cbn [gen_pair gross_buy gross_sell dot_delta norders].
  rewrite !got_bump. unfold bought, sold, counted, one. repeat case_bool_decide; lia.
Qed.
Lemma gen_orders (F : fuzz_order → Z) draws b : zsum F (fb_orders (foldl gen_pair b draws)) =
  zsum F (fb_orders b) + zsum (λ d, F (dw_buyer d, BUY, dw_q d, dw_pb d) + F (dw_seller d, SELL, dw_q d, dw_ps d)) draws.
Proof.
  revert b. induction draws as [|d l IH]; intros b; cbn [foldl]; [rewrite zsum_nil; lia|]. rewrite IH. cbn [gen_pair fb_orders]. rewrite zsum_app, !zsum_cons, zsum_nil. lia.
Qed.
Lemma gen_elem t draws b : t ∈ fb_orders (foldl gen_pair b draws) → t ∈ fb_orders b ∨ ∃ d, d ∈ draws ∧ (t = (dw_buyer d, BUY, dw_q d, dw_pb d) ∨ t = (dw_seller d, SELL, dw_q d, dw_ps d)).
Proof.
  revert b. induction draws as [|d l IH]; intros b; cbn [foldl]; [by left|]. intros [H|(d' & Hd & H)]%IH; [|right; exists d'; set_solver].
  cbn [gen_pair fb_orders] in H. apply elem_of_app in H as [H|H]; [by left|]. right. exists d. set_solver.
Qed.

(** The orders the exchange queued for the batch, in any order and under any ids: the atomic terms [_place] signs. *)
Definition terms (o : order) : fuzz_order := (account o, side o, qty o, price o).
Definition atomic (t : fuzz_order) : fuzz_order := let '(h, s, q, p) := t in (h, s, q * SC, p).
Definition queued (b : fuzz_batch) (orders : list order) : Prop := map terms orders ≡ₚ map atomic (fb_orders b) ∧ NoDup (map oid orders).

Lemma qsum_pos draws : (∀ d, d ∈ draws → good_draw d) → draws ≠ [] → 0 < zsum dw_q draws.
Proof.
  intros Hg Hne. destruct draws as [|d l]; [done|]. rewrite zsum_cons. pose proof (gd_q d (Hg d ltac:(set_solver))).
  assert (0 ≤ zsum dw_q l) by (apply zsum_nonneg; intros x Hx; destruct (gd_q x (Hg x ltac:(set_solver))); lia). lia.
Qed.

Section batch.
Context (draws : list draw) (Hgood : ∀ d, d ∈ draws → good_draw d) (orders : list order) (Hqueued : queued (gen_batch draws) orders).
Notation V := (SC * zsum dw_q draws).

Lemma queued_sum (F : fuzz_order → Z) : zsum (λ o, F (terms o)) orders = zsum (λ d, F (dw_buyer d, BUY, dw_q d * SC, dw_pb d) + F (dw_seller d, SELL, dw_q d * SC, dw_ps d)) draws.
Proof using Hqueued.
  destruct Hqueued as [HP _]. rewrite <- (zsum_map F terms), HP, zsum_map. unfold gen_batch. rewrite (gen_orders (λ t, F (atomic t))). cbn. done.
Qed.
Lemma queued_elem o : o ∈ orders → ∃ d, d ∈ draws ∧ (terms o = (dw_buyer d, BUY, dw_q d * SC, dw_pb d) ∨ terms o = (dw_seller d, SELL, dw_q d * SC, dw_ps d)).
Proof using Hqueued.
  destruct Hqueued as [HP _]. intros Ho. assert (terms o ∈ map atomic (fb_orders (gen_batch draws))) as (t & E & Ht)%list_elem_of_fmap by (rewrite <- HP; by apply list_elem_of_fmap_2).
  apply gen_elem in Ht as [Ht|(d & Hd & [->| ->])]; [by apply not_elem_of_nil in Ht|..]; exists d; rewrite E; auto.
Qed.
(** Each order is one of a good draw's two. *)
Lemma queued_good o : o ∈ orders → account o ∈ ACCTS ∧ SC ≤ qty o ≤ 20 * SC ∧
  (side o = BUY ∧ BUY_LO ≤ price o ≤ BUY_HI ∨ side o = SELL ∧ SELL_LO ≤ price o ≤ SELL_HI).
Proof using Hqueued Hgood.
  intros Ho. destruct (queued_elem o Ho) as (d & Hd & [E|E]); pose proof (Hgood d Hd) as [? ? ? ? ?]; unfold terms in E; injection E as E1 E2 E3 E4;
    rewrite E1, E2, E3, E4; (split; [done|]); (split; [unfold SC; lia|]); [by left|by right].
Qed.
Lemma queued_pos o : o ∈ orders → 0 < qty o.
Proof using Hqueued Hgood. intros Ho. destruct (queued_good o Ho) as (_ & ? & _). unfold SC in *. lia. Qed.
Lemma queued_side o : o ∈ orders → valid_side o.
Proof using Hqueued Hgood. intros Ho. destruct (queued_good o Ho) as (_ & _ & [[? _]|[? _]]); [by left|by right]. Qed.
Lemma queued_cross b s : b ∈ orders → s ∈ orders → side b = BUY → side s = SELL → price s ≤ price b.
Proof using Hqueued Hgood.
  intros Hb Hs Eb Es. destruct (queued_good b Hb) as (_ & _ & [[_ ?]|[E _]]); [|by rewrite Eb in E]. destruct (queued_good s Hs) as (_ & _ & [[E _]|[_ ?]]); [by rewrite Es in E|].
  unfold BUY_LO, SELL_HI in *. lia.
Qed.
Lemma queued_qty s : s = BUY ∨ s = SELL → zsum qty (filter (λ o, side o = s) orders) = V.
Proof using Hqueued.
  intros Hs. rewrite <- (zsum_if (λ o, side o = s)). etransitivity; [exact (queued_sum (λ t, if decide (t.1.1.2 = s) then t.1.2 else 0))|]. cbn.
  clear -Hs. induction draws as [|d l IH]; [cbn; lia|]. rewrite !zsum_cons, IH. destruct Hs as [->| ->]; rewrite ?(decide_True), ?(decide_False) by done; cbn; repeat case_decide; try done; lia.
Qed.

Lemma queued_length : Z.of_nat (length orders) = 2 * Z.of_nat (length draws).
Proof using Hqueued.
  assert (∀ {A} (l : list A), zsum (λ _, 1) l = Z.of_nat (length l)) as H by (intros A l; induction l as [|x l IH]; [done|]; rewrite zsum_cons, IH; cbn [length]; lia).
  rewrite <- H. etransitivity; [exact (queued_sum (λ _, 1))|]. cbn. clear -H. induction draws as [|d l IH]; [done|]. rewrite zsum_cons, IH. cbn [length]. lia.
Qed.
Lemma queued_wire : Z.of_nat (length draws) < 2 ^ 31 → wire_batch orders ∧ ∀ o, o ∈ orders → 0 ≤ account o < 2 ^ 32 ∧ 0 ≤ price o < 2 ^ 32.
Proof using Hqueued Hgood.
  intros Hn. split.
  - split; [apply queued_side| |rewrite queued_length; lia|apply Hqueued]. intros o Ho. destruct (queued_good o Ho) as (_ & ? & _). unfold SC in *. lia.
  - intros o Ho. destruct (queued_good o Ho) as (Ha & _ & Hp). split; [|unfold BUY_LO, BUY_HI, SELL_LO, SELL_HI in *; lia].
    assert (1 ≤ account o ≤ 6) by (unfold ACCTS in Ha; set_solver by lia). lia.
Qed.

Notation price_ := (c_price (clear orders)).
Lemma batch_volume : c_volume (clear orders) = V.
Proof using Hqueued Hgood.
  apply crossing_volume; [apply queued_pos|apply Hqueued|apply queued_cross|apply queued_qty; by left|apply queued_qty; by right].
Qed.
Lemma batch_fills o : o ∈ orders → fill_of (clear orders) o = qty o.
Proof using Hqueued Hgood.
  apply (crossing_fills orders V); [apply queued_pos|apply Hqueued|apply queued_side|apply queued_cross|apply queued_qty; by left|apply queued_qty; by right].
Qed.
Lemma batch_price : draws ≠ [] → SELL_LO ≤ price_ ≤ BUY_HI.
Proof using Hqueued Hgood.
  intros Hne. assert (∀ o, o ∈ orders → (side o = BUY → price_ ≤ price o) ∧ (side o = SELL → price o ≤ price_)) as Hp.
  { apply (crossing_price orders V); [apply queued_pos|apply Hqueued|apply queued_side|apply queued_cross|apply queued_qty; by left|apply queued_qty; by right]. }
  pose proof (qsum_pos draws Hgood Hne) as Hpos. assert (∀ s, s = BUY ∨ s = SELL → ∃ o, o ∈ orders ∧ side o = s) as Hex.
  { intros s Hs. pose proof (queued_qty s Hs) as Hq. destruct (filter (λ o, side o = s) orders) as [|o k] eqn:E; [rewrite zsum_nil in Hq; unfold SC in Hq; lia|].
    assert (o ∈ filter (λ o, side o = s) orders) as [? ?]%list_elem_of_filter by (rewrite E; set_solver). by exists o. }
  destruct (Hex BUY ltac:(by left)) as (b & Hb & Eb). destruct (Hex SELL ltac:(by right)) as (x & Hx & Ex). destruct (Hp b Hb) as [Hb' _]. destruct (Hp x Hx) as [_ Hx'].
  specialize (Hb' Eb). specialize (Hx' Ex). destruct (queued_good b Hb) as (_ & _ & [[_ ?]|[E _]]); [|by rewrite Eb in E]. destruct (queued_good x Hx) as (_ & _ & [[E _]|[_ ?]]); [by rewrite Ex in E|].
  lia.
Qed.

(** An account's side of the settlement. *)
Lemma side_sum (g : Z → Z) a s : s = BUY ∨ s = SELL →
  zsum (λ o, g (fill_of (clear orders) o)) (filter (λ o, account o = a ∧ side o = s) orders) =
  zsum (λ d, one (bool_decide ((if bool_decide (s = BUY) then dw_buyer d else dw_seller d) = a)) (g (dw_q d * SC))) draws.
Proof using Hqueued Hgood.
  intros Hs. rewrite (zsum_ext _ (λ o, g (qty o))) by (intros o [_ Ho]%list_elem_of_filter; by rewrite batch_fills).
  rewrite <- (zsum_if (λ o, account o = a ∧ side o = s)). etransitivity; [exact (queued_sum (λ t, if decide (t.1.1.1 = a ∧ t.1.1.2 = s) then g t.1.2 else 0))|]. cbn [fst snd].
  apply zsum_ext. intros d _. unfold one. destruct Hs as [->| ->]; cbn; repeat case_decide; repeat case_bool_decide; naive_solver lia.
Qed.
Lemma batch_moves a : gets_base orders a = SC * zsum (bought a) draws ∧ owes_base orders a = SC * zsum (sold a) draws ∧
  owes_quote orders a = price_ * zsum (bought a) draws ∧ gets_quote orders a = price_ * zsum (sold a) draws.
Proof using Hqueued Hgood.
  assert (∀ q, (q * SC * price_ + SETTLE_SCALE - 1) / SETTLE_SCALE = q * price_ ∧ q * SC * price_ / SETTLE_SCALE = q * price_) as Hdiv.
  { intros q. unfold SC, SETTLE_SCALE. split; [symmetry; apply (Z.div_unique _ _ _ 9999); lia|]. replace (q * 10000 * price_) with (q * price_ * 10000) by lia. by apply Z.div_mul. }
  unfold gets_base, owes_base, owes_quote, gets_quote.
  split_and!; (etransitivity; [first [exact (side_sum (λ x, x) a BUY (or_introl eq_refl))|exact (side_sum (λ x, x) a SELL (or_intror eq_refl))
    |exact (side_sum (λ x, (x * price_ + SETTLE_SCALE - 1) / SETTLE_SCALE) a BUY (or_introl eq_refl))|exact (side_sum (λ x, x * price_ / SETTLE_SCALE) a SELL (or_intror eq_refl))]|]);
    change (bool_decide (BUY = BUY)) with true; change (bool_decide (SELL = BUY)) with false; cbv iota; clear -Hdiv; induction draws as [|d l IH]; rewrite ?zsum_cons, ?zsum_nil; try lia; rewrite IH; unfold bought, sold, one;
    rewrite ?(proj1 (Hdiv _)), ?(proj2 (Hdiv _)); case_bool_decide; lia.
Qed.
End batch.

(** ** The fees *)
Definition times (a : Z) (payers : list Z) : Z := zsum (λ b, one (bool_decide (b = a)) 1) payers.
Lemma times_nonneg a payers : 0 ≤ times a payers.
Proof. apply zsum_nonneg. intros b _. unfold one. case_bool_decide; lia. Qed.
Lemma fees_at base payers : ∀ s, in_range s → FEE_ACCOUNT ∉ payers → (∀ a, a ∈ payers → FEE_FLAT * times a payers ≤ get_bal s base a) →
  get_bal s base FEE_ACCOUNT + FEE_FLAT * Z.of_nat (length payers) ≤ U64_MAX →
  (∀ a, a ≠ FEE_ACCOUNT → get_bal (foldl (charge_fee roomy base) s payers) base a = get_bal s base a - FEE_FLAT * times a payers) ∧
  get_bal (foldl (charge_fee roomy base) s payers) base FEE_ACCOUNT = get_bal s base FEE_ACCOUNT + FEE_FLAT * Z.of_nat (length payers).
Proof.
  induction payers as [|b l IH]; intros s Hr Hf Hpay Hcap; cbn [foldl].
  { split; [intros a _; unfold times; rewrite zsum_nil; lia|cbn; lia]. }
  assert (∀ a, times a (b :: l) = one (bool_decide (b = a)) 1 + times a l) as Ht by (intros a; unfold times; by rewrite zsum_cons).
  assert (FEE_FLAT ≤ get_bal s base b) as Hb.
  { pose proof (Hpay b ltac:(set_solver)) as H. rewrite Ht, bool_decide_eq_true_2 in H by done. pose proof (times_nonneg b l). unfold one, FEE_FLAT in *. lia. }
  assert (b ≠ FEE_ACCOUNT) as Hbf by set_solver. cbn [length] in Hcap |- *. rewrite Nat2Z.inj_succ in *.
  assert (∀ a, get_bal (charge_fee roomy base s b) base a = get_bal s base a - one (bool_decide (b = a)) FEE_FLAT + one (bool_decide (a = FEE_ACCOUNT)) FEE_FLAT) as E.
  { intros a. unfold charge_fee. rewrite Z.min_l by done. cbn [Z.ltb]. change (0 <? FEE_FLAT) with true. cbv iota zeta. rewrite !get_set, (decide_False (P := base = base ∧ b = FEE_ACCOUNT)) by (by intros [_ ?]).
    unfold one. pose proof (Zle_0_nat (length l)). rewrite Z.min_r by (unfold FEE_FLAT in *; lia). repeat case_decide; repeat case_bool_decide; naive_solver lia. }
  destruct (IH (charge_fee roomy base s b)) as [H1 H2].
  - intros x a. destruct (decide (x = base)) as [->|Hx].
    + rewrite E. pose proof (Hr base a). unfold one. pose proof (Zle_0_nat (length l)). repeat case_bool_decide; subst; unfold FEE_FLAT in *; lia.
    + pose proof (fees_other base [b] x a Hx s) as Ho. cbn in Ho. rewrite Ho. apply Hr.
  - set_solver.
  - intros a Ha. rewrite E. pose proof (Hpay a ltac:(set_solver)) as H. rewrite Ht in H. unfold one in *. assert (a ≠ FEE_ACCOUNT) by set_solver. repeat case_bool_decide; try done; unfold FEE_FLAT in *; lia.
  - rewrite E, bool_decide_eq_false_2, bool_decide_eq_true_2 by done. unfold one. lia.
  - split; [|rewrite H2, E, bool_decide_eq_false_2, bool_decide_eq_true_2 by done; unfold one; lia].
    intros a Ha. rewrite H1, E, Ht by done. unfold one. repeat case_bool_decide; try done; lia.
Qed.

(** ** The oracle accepts a correct exchange *)
Lemma first_failure_none checks : Forall (λ c, c.1 = true) checks → first_failure checks = None.
Proof. induction 1 as [|[ok name] l H _ IH]; cbn in *; [done|]. by rewrite H. Qed.
Lemma counted_total draws : (∀ d, d ∈ draws → good_draw d) → zsum (λ a, zsum (counted a) draws) ACCTS = 2 * Z.of_nat (length draws).
Proof.
  induction draws as [|d l IH]; intros Hg; [done|]. rewrite (zsum_ext _ (λ a, counted a d + zsum (counted a) l)) by (intros; by rewrite zsum_cons).
  rewrite zsum_plus, IH by (intros; apply Hg; set_solver). cbn [length]. rewrite Nat2Z.inj_succ. destruct (Hg d ltac:(set_solver)) as [Hb Hs _ _ _].
  assert (zsum (λ a, counted a d) ACCTS = 2); [|lia]. unfold counted. rewrite zsum_plus.
  assert (∀ x, x ∈ ACCTS → zsum (λ a, one (bool_decide (x = a)) 1) ACCTS = 1) as H; [|by rewrite !H by done].
  intros x Hx. unfold ACCTS in Hx. repeat (apply elem_of_cons in Hx as [->|Hx]; [reflexivity|]). by apply not_elem_of_nil in Hx.
Qed.

(** The traders can fund the batch whatever its price within the band, and pay their fees. *)
Record solvent (draws : list draw) (s : service_state) : Prop := {
  sv_range : in_range s;
  sv_dot a : a ∈ ACCTS → SC * zsum (sold a) draws + FZ_FEE_FLAT * zsum (counted a) draws ≤ get_bal s FZ_DOT a;
  sv_usdc a : a ∈ ACCTS → BUY_HI * zsum (bought a) draws ≤ get_bal s FZ_USDC a;
  sv_supply x : zsum (get_bal s x) (ACCTS ++ [FZ_TREASURY]) ≤ U64_MAX;
  sv_fees : get_bal s FZ_DOT FZ_TREASURY + FZ_FEE_FLAT * (2 * Z.of_nat (length draws)) ≤ U64_MAX;
  sv_volume m : 0 ≤ default 0 (s_cv s !! m) ∧ default 0 (s_cv s !! m) + SC * zsum dw_q draws ≤ U64_MAX
}.
(** What [chain_state] reads. *)
Definition chain_state (s : service_state) (market : Z) (book : list order) : fuzz_state := FuzzState (get_bal s) (default 0 (s_cv s !! market)) book.

Lemma treasury_apart a : a ∈ ACCTS → a ≠ FEE_ACCOUNT.
Proof. intros Ha ->. unfold ACCTS, FEE_ACCOUNT in Ha. set_solver by lia. Qed.

Section oracle.
Context (draws : list draw) (Hgood : ∀ d, d ∈ draws → good_draw d) (Hlen : Z.of_nat (length draws) < 2 ^ 31).
Context (orders : list order) (Hqueued : queued (gen_batch draws) orders) (market : Z) (s : service_state) (Hsol : solvent draws s).
Notation settle := (encode_settlement (e_price (engine_clear orders)) orders (engine_clear orders)).
Notation s1 := (settle_fills roomy FZ_DOT FZ_USDC market settle s).
Notation s2 := (apply_settlement roomy FZ_DOT FZ_USDC market settle (map account orders) s).
Notation accts := (ACCTS ++ [FZ_TREASURY]).

Lemma times_counted a : times a (map account orders) = zsum (counted a) draws.
Proof using Hqueued.
  unfold times. rewrite zsum_map. etransitivity; [exact (queued_sum draws orders Hqueued (λ t, one (bool_decide (t.1.1.1 = a)) 1))|]. done.
Qed.
Lemma sums_nonneg a : 0 ≤ zsum (bought a) draws ∧ 0 ≤ zsum (sold a) draws ∧ 0 ≤ zsum (counted a) draws.
Proof using Hgood. split_and!; apply zsum_nonneg; intros d Hd; pose proof (gd_q d (Hgood d Hd)); unfold bought, sold, counted, one; repeat case_bool_decide; lia. Qed.
Lemma batch_price_le : c_price (clear orders) ≤ BUY_HI ∧ (draws ≠ [] → SELL_LO ≤ c_price (clear orders)).
Proof using Hgood Hqueued.
  split; [|apply batch_price; done]. destruct (decide (draws = [])) as [E|E]; [|by apply (batch_price draws Hgood orders Hqueued)].
  pose proof (queued_length draws orders Hqueued) as Hl. rewrite E in Hl. cbn in Hl. destruct orders; [done|cbn in Hl; lia].
Qed.
Lemma treasury_idle a : a ∈ [FZ_TREASURY] → zsum (bought a) draws = 0 ∧ zsum (sold a) draws = 0.
Proof using Hgood.
  intros ->%list_elem_of_singleton. split; apply zsum_zero; intros d Hd; destruct (Hgood d Hd) as [Hb Hs _ _ _]; unfold bought, sold, one; case_bool_decide as E; try done; exfalso;
    [apply (treasury_apart _ Hb)|apply (treasury_apart _ Hs)]; rewrite E; done.
Qed.
Lemma batch_funded : funded orders FZ_DOT FZ_USDC accts s.
Proof using Hgood Hqueued Hsol.
  split.
  - apply (bool_decide_eq_true_1 _). vm_compute. reflexivity.
  - apply (bool_decide_eq_true_1 _). vm_compute. reflexivity.
  - intros o Ho. apply elem_of_app. left. by apply (queued_good draws Hgood orders Hqueued).
  - intros a Ha. destruct (batch_moves draws Hgood orders Hqueued a) as (_ & -> & _). pose proof (sums_nonneg a).
    apply elem_of_app in Ha as [Ha|Ha]; [pose proof (sv_dot _ _ Hsol a Ha); unfold FZ_FEE_FLAT in *; lia|]. rewrite (proj2 (treasury_idle a Ha)). pose proof (sv_range _ _ Hsol FZ_DOT a). lia.
  - intros a Ha. destruct (batch_moves draws Hgood orders Hqueued a) as (_ & _ & -> & _). pose proof (sums_nonneg a). destruct batch_price_le as [Hp _].
    apply elem_of_app in Ha as [Ha|Ha]; [pose proof (sv_usdc _ _ Hsol a Ha); nia|]. rewrite (proj1 (treasury_idle a Ha)). pose proof (sv_range _ _ Hsol FZ_USDC a). lia.
  - apply Hsol.
Qed.

(** The whole settlement, account by account. *)
Lemma batch_settled : in_range s2 ∧ (∀ x, zsum (get_bal s2 x) accts = zsum (get_bal s x) accts) ∧
  (∀ a, a ∈ ACCTS → get_bal s2 FZ_DOT a = get_bal s FZ_DOT a + SC * (zsum (bought a) draws - zsum (sold a) draws) - FZ_FEE_FLAT * zsum (counted a) draws) ∧
  (∀ a, a ∈ ACCTS → get_bal s2 FZ_USDC a = get_bal s FZ_USDC a + c_price (clear orders) * (zsum (sold a) draws - zsum (bought a) draws)) ∧
  get_bal s2 FZ_DOT FZ_TREASURY = get_bal s FZ_DOT FZ_TREASURY + FZ_FEE_FLAT * (2 * Z.of_nat (length draws)) ∧
  (∀ a, get_bal s2 FZ_JAMKB a = get_bal s FZ_JAMKB a) ∧
  default 0 (s_cv s2 !! market) = default 0 (s_cv s !! market) + SC * zsum dw_q draws.
Proof using Hgood Hlen Hqueued Hsol.
  destruct (queued_wire draws Hgood orders Hqueued Hlen) as [Hw Hwire].
  destruct (fills_settle orders Hw Hwire FZ_DOT FZ_USDC market accts s ltac:(done) (sv_range _ _ Hsol) batch_funded) as (Hr1 & Ht1 & (dust & Hd & Hat) & Ho & Hcv).
  assert (FEE_ACCOUNT ∉ map account orders) as Hnf.
  { intros (o & E & Hin)%list_elem_of_fmap. destruct (queued_good draws Hgood orders Hqueued o Hin) as [Ha _]. by apply (treasury_apart _ Ha). }
  assert (∀ a, a ∈ map account orders → a ∈ ACCTS) as Hpa by (intros a (o & -> & Hin)%list_elem_of_fmap; by apply (queued_good draws Hgood orders Hqueued)).
  destruct (fees_conserve FZ_DOT (map account orders) accts (fu_accts _ _ _ _ _ batch_funded) (fu_treasury _ _ _ _ _ batch_funded) s1) as [Hr2 Ht2];
    [intros a Ha%Hpa; apply elem_of_app; by left|done|rewrite Ht1; apply Hsol|].
  assert (∀ a, a ∈ accts → get_bal s1 FZ_DOT a = get_bal s FZ_DOT a + SC * (zsum (bought a) draws - zsum (sold a) draws)) as Hdot.
  { intros a Ha. destruct (Hat a Ha) as [-> _]. destruct (batch_moves draws Hgood orders Hqueued a) as (-> & -> & _). lia. }
  destruct (fees_at FZ_DOT (map account orders) s1 Hr1 Hnf) as [Hfee Htre].
  { intros a Ha%Hpa. rewrite Hdot by (apply elem_of_app; by left). rewrite times_counted. pose proof (sv_dot _ _ Hsol a Ha). pose proof (sums_nonneg a). unfold FZ_FEE_FLAT, FEE_FLAT, SC in *. lia. }
  { rewrite Hdot by (apply elem_of_app; right; by apply list_elem_of_singleton). destruct (treasury_idle FEE_ACCOUNT) as [-> ->]; [by apply list_elem_of_singleton|].
    rewrite length_map, (queued_length draws orders Hqueued). pose proof (sv_fees _ _ Hsol). change FEE_ACCOUNT with FZ_TREASURY. unfold FEE_FLAT, FZ_FEE_FLAT in *. lia. }
  unfold apply_settlement. split_and!.
  - done.
  - intros x. by rewrite Ht2, Ht1.
  - intros a Ha. rewrite Hfee by (by apply treasury_apart). rewrite Hdot, times_counted by (apply elem_of_app; by left). unfold FEE_FLAT, FZ_FEE_FLAT. lia.
  - intros a Ha. rewrite fees_other by done. destruct (Hat a ltac:(apply elem_of_app; by left)) as [_ ->]. rewrite decide_False by (by apply treasury_apart).
    destruct (batch_moves draws Hgood orders Hqueued a) as (_ & _ & -> & ->). lia.
  - change FZ_TREASURY with FEE_ACCOUNT. rewrite Htre, Hdot by (apply elem_of_app; right; by apply list_elem_of_singleton). destruct (treasury_idle FEE_ACCOUNT) as [-> ->]; [by apply list_elem_of_singleton|].
    rewrite length_map, (queued_length draws orders Hqueued). unfold FEE_FLAT, FZ_FEE_FLAT. lia.
  - intros a. rewrite fees_other by done. by apply Ho.
  - destruct (sv_volume _ _ Hsol market). assert (0 ≤ SC * zsum dw_q draws).
    { assert (0 ≤ zsum dw_q draws) by (apply zsum_nonneg; intros d Hin; pose proof (gd_q d (Hgood d Hin)); lia). unfold SC. lia. }
    rewrite fees_cv, Hcv, (batch_volume draws Hgood orders Hqueued) by lia. unfold u64. apply Z.mod_small. unfold U64_MAX in *. lia.
Qed.
Lemma batch_rests : resting orders (engine_clear orders) = [].
Proof using Hgood Hlen Hqueued Hsol.
  destruct (queued_wire draws Hgood orders Hqueued Hlen) as [Hw _]. rewrite (resting_port orders Hw).
  assert (∀ l, (∀ o, o ∈ l → o ∈ orders) → flat_map (λ o, if 0 <? qty o - fill_of (clear orders) o then [with_qty (qty o - fill_of (clear orders) o) o] else []) l = []) as H; [|by apply H].
  induction l as [|o l IH]; intros Hin; [done|]. cbn [flat_map]. rewrite (batch_fills draws Hgood orders Hqueued o), Z.sub_diag by set_solver. cbn [Z.ltb Z.compare app]. apply IH. set_solver.
Qed.
End oracle.

(** The fuzzer's oracle accepts a correct exchange: for every seed's draws, in whatever order and under whatever ids the exchange queued
    them, when the engine clears the batch in one auction and the service settles it with its fees, none of its writes refused, [verify] finds nothing, at
    any tolerance: no value made or lost, every position and fee exact, the volume exact, the book empty, every account's
    payments inside the price band. *)
Theorem fuzz_oracle_accepts room draws orders market s tol :
  (∀ d, d ∈ draws → good_draw d) → Z.of_nat (length draws) < 2 ^ 31 → queued (gen_batch draws) orders → solvent draws s → 0 ≤ tol →
  let settle := encode_settlement (e_price (engine_clear orders)) orders (engine_clear orders) in
  let after := apply_settlement room FZ_DOT FZ_USDC market settle (map account orders) s in
  s_refused after = [] →
  verify (chain_state s market []) (chain_state after market (resting orders (engine_clear orders))) (gen_batch draws) true tol = None.
Proof.
  intros Hg Hl Hq Hs Ht. cbn zeta. intros [-> _]%settlement_granted. destruct (batch_settled draws Hg Hl orders Hq market s Hs) as (Hr & Htot & Hdot & Husd & Htre & Hj & Hcv).
  destruct (gen_counts draws (Batch_ [] zeros 0 zeros zeros zeros)) as [Ev Ec]. fold (gen_batch draws) in Ev, Ec. cbn [fb_volume gross_buy gross_sell dot_delta norders] in Ev, Ec.
  assert (∀ a, got (gross_buy (gen_batch draws)) a = zsum (bought a) draws ∧ got (gross_sell (gen_batch draws)) a = zsum (sold a) draws ∧
    got (dot_delta (gen_batch draws)) a = zsum (bought a) draws - zsum (sold a) draws ∧ got (norders (gen_batch draws)) a = zsum (counted a) draws) as Hc.
  { intros a. destruct (Ec a) as (-> & -> & -> & ->). rewrite !got_zeros. lia. }
  unfold verify. cbn [chain_state fz_bal fz_cv fz_book]. apply first_failure_none. repeat (apply Forall_cons; split); [..|by apply Forall_nil]; cbn [fst].
  - done.
  - apply forallb_forall. intros a _. unfold fz_supply. cbn [fz_bal chain_state]. rewrite Htot. apply Z.eqb_refl.
  - apply forallb_forall. intros a _. apply forallb_forall. intros h _. apply Z.leb_le. apply Hr.
  - unfold trader_supply. cbn [fz_bal chain_state]. rewrite (zsum_ext _ (get_bal s FZ_JAMKB)) by (intros; apply Hj). apply Z.eqb_refl.
  - rewrite Hcv, Ev. replace (default 0 (s_cv s !! market) + SC * zsum dw_q draws - default 0 (s_cv s !! market)) with (zsum dw_q draws * SC) by lia. rewrite Z.div_mul by done. lia.
  - apply forallb_forall. intros h Hh%list_elem_of_In. destruct (Hc h) as (_ & _ & -> & ->). rewrite Hdot by done. unfold SC, FZ_FEE_FLAT in *. lia.
  - rewrite (zsum_ext _ (λ a, zsum (counted a) draws)) by (intros a _; apply Hc). rewrite counted_total, Htre by done. lia.
  - by rewrite (batch_rests draws Hg Hl orders Hq s Hs).
  - apply forallb_forall. intros h Hh%list_elem_of_In. destruct (Hc h) as (-> & -> & _). rewrite Husd by done. pose proof (sums_nonneg draws Hg h). destruct (batch_price_le draws Hg orders Hq) as [Hp1 Hp2].
    destruct (decide (draws = [])) as [->|Hne]; [rewrite !zsum_nil; unfold SC; lia|]. specialize (Hp2 Hne). unfold BUY_HI, SELL_LO, SC in *. apply andb_true_iff. rewrite !Z.leb_le. nia.
Qed.

(** ** The wait for quiet *)
Definition quiet (cv_target : Z) (l : fuzz_look) : Prop := cv_target ≤ lk_cv l ∧ (lk_mempool l = None ∨ lk_mempool l = Some 0).
(** The wait succeeds only on a run of quiet looks that spans [STABLE_SECS]. *)
Theorem quiescence_is_stable cv_target timeout t0 now looks : wait_quiescent cv_target timeout t0 now None looks = true →
  ∃ before first run last_ rest, looks = before ++ (first :: run ++ [last_]) ++ rest ∧ STABLE_SECS ≤ lk_time last_ - lk_time first ∧
    Forall (quiet cv_target) (first :: run ++ [last_]).
Proof.
  assert (∀ st now, wait_quiescent cv_target timeout t0 now st looks = true →
    (∃ before first run last_ rest, looks = before ++ (first :: run ++ [last_]) ++ rest ∧ STABLE_SECS ≤ lk_time last_ - lk_time first ∧ Forall (quiet cv_target) (first :: run ++ [last_])) ∨
    (∃ t run last_ rest, st = Some t ∧ looks = (run ++ [last_]) ++ rest ∧ STABLE_SECS ≤ lk_time last_ - t ∧ Forall (quiet cv_target) (run ++ [last_]))) as H.
  2: { intros Hw. destruct (H None now Hw) as [?|(? & ? & ? & ? & ? & _)]; done. }
  clear now. induction looks as [|l rest IH]; intros st now Hw; cbn [wait_quiescent] in Hw; [by case_match|]. case_match; [|done].
  match type of Hw with (if ?q then _ else _) = true => destruct q eqn:Eq end.
  2: { destruct (IH _ _ Hw) as [(b & f & r & la & k & -> & ? & ?)|(? & ? & ? & ? & ? & _)]; [|done]. left. by exists (l :: b), f, r, la, k. }
  assert (quiet cv_target l) as Hq.
  { apply andb_true_iff in Eq as [E1 E2]. split; [lia|]. destruct (lk_mempool l); [right; f_equal; lia|by left]. }
  assert (∀ t, st = Some t ∨ st = None ∧ t = lk_time l → wait_quiescent cv_target timeout t0 (lk_time l) (Some t) rest = true →
    (∃ before first run last_ k, l :: rest = before ++ (first :: run ++ [last_]) ++ k ∧ STABLE_SECS ≤ lk_time last_ - lk_time first ∧ Forall (quiet cv_target) (first :: run ++ [last_])) ∨
    (∃ t run last_ k, st = Some t ∧ l :: rest = (run ++ [last_]) ++ k ∧ STABLE_SECS ≤ lk_time last_ - t ∧ Forall (quiet cv_target) (run ++ [last_]))) as Hstep.
  { intros t Ht Hw'. destruct (IH _ _ Hw') as [(b & f & r & la & k & -> & ? & ?)|(t' & r & la & k & [= <-] & -> & Hs & HF)]; [left; by exists (l :: b), f, r, la, k|].
    destruct Ht as [->|[-> ->]]; [right; exists t, (l :: r), la, k; split_and!; [done..|by constructor]|]. left. exists [], l, r, la, k. split_and!; [done..|by constructor]. }
  destruct st as [t|]; [|exact (Hstep (lk_time l) (or_intror (conj eq_refl eq_refl)) Hw)].
  destruct (STABLE_SECS <=? lk_time l - t) eqn:Es; [|exact (Hstep t (or_introl eq_refl) Hw)].
  right. exists t, [], l, rest. split_and!; [done|done|lia|by apply Forall_singleton].
Qed.

(** ** A concrete batch *)
Module FuzzSample.
Definition draws : list draw := [Draw 1 2 5 10150 9850; Draw 3 4 2 10100 9900; Draw 2 6 7 10200 9800].
Definition orders : list order := imap (λ i t, let '(h, s, q, p) := t in mk_order (Pos.of_succ_nat i) h (1000 + Z.of_nat i) s p q false) (reverse (map atomic (fb_orders (gen_batch draws)))).
Definition funds : service_state := Service (list_to_map (flat_map (λ x, map (λ a, ((x, a), 10 ^ 9)) (ACCTS ++ [FZ_TREASURY])) [0; 1; 2])) ∅ ∅ [].
Lemma funds_are x a : get_bal funds x a = 0 ∨ get_bal funds x a = 10 ^ 9.
Proof.
  unfold get_bal. destruct (s_bal funds !! (x, a)) as [v|] eqn:E; [|by left]. right. cbn [default]. apply elem_of_list_to_map_2 in E.
  apply list_elem_of_In, in_flat_map in E as (y & _ & (b & [= _ _ <-] & _)%in_map_iff). done.
Qed.
Lemma draws_good d : d ∈ draws → good_draw d.
Proof.
  intros Hd. unfold draws in Hd. repeat (apply elem_of_cons in Hd as [->|Hd]; [split; cbn; unfold BUY_LO, BUY_HI, SELL_LO, SELL_HI; try lia; apply (bool_decide_eq_true_1 _); reflexivity|]).
  by apply not_elem_of_nil in Hd.
Qed.
Lemma orders_queued : queued (gen_batch draws) orders.
Proof.
  split; [|apply (bool_decide_eq_true_1 _); vm_compute; reflexivity]. assert (map terms orders = reverse (map atomic (fb_orders (gen_batch draws)))) as -> by (vm_compute; reflexivity).
  apply reverse_Permutation.
Qed.
Lemma funds_solvent : solvent draws funds.
Proof.
  split.
  - intros x a. destruct (funds_are x a) as [->| ->]; unfold U64_MAX; lia.
  - intros a Ha. unfold ACCTS in Ha. repeat (apply elem_of_cons in Ha as [->|Ha]; [apply Z.leb_le; vm_compute; reflexivity|]). by apply not_elem_of_nil in Ha.
  - intros a Ha. unfold ACCTS in Ha. repeat (apply elem_of_cons in Ha as [->|Ha]; [apply Z.leb_le; vm_compute; reflexivity|]). by apply not_elem_of_nil in Ha.
  - intros x. cbn [ACCTS app]. rewrite !zsum_cons, zsum_nil. unfold U64_MAX. pose proof (λ a, funds_are x a) as H.
    pose proof (H 1). pose proof (H 2). pose proof (H 3). pose proof (H 4). pose proof (H 5). pose proof (H 6). pose proof (H FZ_TREASURY). lia.
  - apply Z.leb_le. vm_compute. reflexivity.
  - intros m. cbn. rewrite lookup_empty. split; [done|]. apply Z.leb_le. vm_compute. reflexivity.
Qed.
Definition settle : bytes := encode_settlement (e_price (engine_clear orders)) orders (engine_clear orders).
End FuzzSample.

Lemma fuzz_oracle_accepts_witness :
  verify (chain_state FuzzSample.funds 1 []) (chain_state (apply_settlement roomy FZ_DOT FZ_USDC 1 FuzzSample.settle (map account FuzzSample.orders) FuzzSample.funds) 1
    (resting FuzzSample.orders (engine_clear FuzzSample.orders))) (gen_batch FuzzSample.draws) true 0 = None.
Proof.
  apply (fuzz_oracle_accepts roomy FuzzSample.draws FuzzSample.orders 1 FuzzSample.funds 0 FuzzSample.draws_good); [cbn; lia|exact FuzzSample.orders_queued|exact FuzzSample.funds_solvent|lia|vm_compute; reflexivity].
Defined.
