(* ===== verification/Setup.v ===== *)
(** * The exchange's starting state

    src/offchain/dex_setup.py: [Runner.run], which gets a group of operations onto the chain and resends what has not landed,
    and [setup], which lists the markets and registers and funds the dev accounts.

    The chain and the clock are a sequence of views, one per call, each call taking some time; durations are integers.  An
    account is its name, public key and registration signature.  The two nested loops of [run] are one loop over a mode. *)
From S2P Require Import Prelude Bytes Wire.

Definition ASSETS : list Z := [0; 1; 2].
Definition DEFAULT_MARKETS : list (Z * Z * Z) := [(1, 1, 0); (2, 2, 0); (3, 2, 1)].
Definition GENESIS_BALANCE : Z := 1000000.
Definition SETUP_SCALE : Z := 10000.
Definition SETUP_TAG_REGISTER : Z := 7.

(** How to tell that an operation has landed. *)
Inductive check := Listed (market : Z) | Registered (pubkey : bytes) | Deposited (account nonce : Z).
Record setup_op := SetupOp { op_payload : bytes; op_check : check }.

(** One instant of the chain, and the time the call takes. *)
Record setup_view := SetupView {
  sv_read : bytes → result bytes;
  sv_max_items : result Z;
  sv_submit : list bytes → result (option bytes);      (* the receipt's package hash, when it has one *)
  sv_status : bytes → result bool;                     (* does the status say Failed *)
  sv_passed : Z
}.
Record setup_state := SetupState { st_now : Z; st_tick : nat; st_groups : list (list bytes) }.

Section setup.
Context (views : nat → setup_view) (poll resend : Z) (has_status : bool).
Notation P := (SE setup_state).

(** A call to the outside: its answer, and the time it takes *)
Definition consult {A} (f : setup_view → A) : P A := λ s,
  let v := views (st_tick s) in (Ok (f v), SetupState (st_now s + sv_passed v) (S (st_tick s)) (st_groups s)).
Definition clock : P Z := λ s, (Ok (st_now s), (consult (λ _, tt) s).2).
Definition sleep (d : Z) : P unit :=
  _ ← se_put (λ s, SetupState (st_now s + d) (st_tick s) (st_groups s)); consult (λ _, tt).
Definition read_key (k : bytes) : P bytes := r ← consult (λ v, sv_read v k); se_lift r.

Definition prefixed (p : bytes) (x : Z) : result bytes := b ← pack [(4%nat, x)]; Ok (p ++ b).
(** [market_listed], [handle_of], [deposit_landed] *)
Definition market_listed (m : Z) : P bool := k ← se_lift (prefixed [109; 107; 116] m); v ← read_key k; mret (negb (length v =? 0)%nat).
Definition setup_handle_of (pk : bytes) : P (option Z) := v ← read_key (104 :: pk); mret (if (4 <=? length v)%nat then Some (le_int (take 4 v)) else None).
Definition nonce_landed (acct nonce : Z) : P bool := k ← se_lift (prefixed [100; 110] acct); v ← read_key k; mret (deposit_landed v nonce).
Definition run_check (c : check) : P bool :=
  match c with
  | Listed m => market_listed m
  | Registered pk => h ← setup_handle_of pk; mret (match h with Some _ => true | None => false end)
  | Deposited a n => nonce_landed a n
  end.

(** [Runner._landed] *)
Definition op_landed (o : setup_op) : P bool :=
  r ← se_try (run_check (op_check o));
  se_lift (match r with Ok b => Ok b | Raise e => if is_chain_error e then Ok false else Raise e end).
(** [[op for op in ops if not self._landed(op)]] *)
Fixpoint unlanded (ops : list setup_op) : P (list setup_op) :=
  match ops with
  | [] => mret []
  | o :: rest => b ← op_landed o; ks ← unlanded rest; mret (if (b : bool) then ks else o :: ks)
  end.
(** [Runner._failed] *)
Fixpoint any_failed (receipts : list (option bytes)) : P bool :=
  match receipts with
  | [] => mret false
  | Some h :: rest =>
      if has_status then
        r ← consult (λ v, sv_status v h);
        match r with
        | Ok true => mret true
        | Ok false => any_failed rest
        | Raise e => if is_chain_error e then any_failed rest else se_lift (Raise e)
        end
      else any_failed rest
  | None :: rest => any_failed rest
  end.

(** [pending[i:i + n] for i in range(0, len(pending), n)] *)
Fixpoint groups_of (fuel n : nat) (l : list setup_op) : list (list setup_op) :=
  match fuel, l with
  | S fuel', _ :: _ => take n l :: groups_of fuel' n (drop n l)
  | _, _ => []
  end.
(** The submissions of one attempt *)
Fixpoint send_groups (gs : list (list setup_op)) : P (list (option bytes)) :=
  match gs with
  | [] => mret []
  | g :: rest =>
      _ ← se_put (λ s, SetupState (st_now s) (st_tick s) (st_groups s ++ [map op_payload g]));
      r ← consult (λ v, sv_submit v (map op_payload g));
      h ← se_lift (match r with Ok h => Ok [h] | Raise e => if is_chain_error e then Ok [] else Raise e end);
      rs ← send_groups rest;
      mret (h ++ rs)
  end.
(** [max(1, int(self.chain.max_items))] *)
Definition group_size : P Z :=
  r ← consult sv_max_items;
  se_lift (match r with Ok n => Ok (Z.max 1 n) | Raise e => if is_chain_error e then Ok 1 else Raise e end).

(** Where [run] is: about to send, or watching what it sent at [since] for [wait]. *)
Inductive run_mode := Send (pending : list setup_op) | Watch (pending : list setup_op) (receipts : list (option bytes)) (since wait : Z).

(** One turn of the loops *)
Definition run_turn (deadline : Z) (m : run_mode) : P (unit + run_mode) :=
  match m with
  | Send [] => mret (inl tt)
  | Send pending =>
      t ← clock;
      _ ← se_lift (guard_or (t <? deadline) (SetupError "not landed"));
      n ← group_size;
      receipts ← send_groups (groups_of (length pending) (Z.to_nat n) pending);
      since ← clock;
      mret (inr (Watch pending receipts since (match receipts with [] => poll | _ => resend end)))
  | Watch [] _ _ _ => mret (inr (Send []))
  | Watch pending receipts since wait =>
      t ← clock;
      if t - since <? wait then
        t' ← clock;
        if t' <? deadline then
          _ ← sleep poll;
          left ← unlanded pending;
          match left with
          | [] => mret (inr (Watch [] receipts since wait))
          | _ => f ← any_failed receipts; mret (inr (if (f : bool) then Send left else Watch left receipts since wait))
          end
        else mret (inr (Send pending))
      else mret (inr (Send pending))
  end.
(** [Runner.run]: [None] only out of fuel, which [run_ends] excludes *)
Definition run_ops (ops : list setup_op) (timeout : Z) (s : setup_state) : option (result unit * setup_state) :=
  match (t ← clock; p ← unlanded ops; mret (t, p)) s with
  | (Raise e, s') => Some (Raise e, s')
  | (Ok (t, p), s') => iterate (4 * Z.to_nat timeout + 8) (run_turn (t + timeout)) (Send p) s'
  end.

(** *** [setup] *)
Record dev_account := DevAccount { da_name : string; da_pubkey : bytes; da_signature : bytes }.
(** [register_payload] *)
Definition register_payload (a : dev_account) : bytes := SETUP_TAG_REGISTER :: da_pubkey a ++ da_signature a.

Definition market_op (x : Z * Z * Z) : result setup_op :=
  let '(m, base, quote) := x in p ← list_payload m base quote; Ok (SetupOp p (Listed m)).
Definition register_op (a : dev_account) : setup_op := SetupOp (register_payload a) (Registered (da_pubkey a)).
(** A deposit to a handle; without one, packing it raises *)
Definition deposit_op (h : option Z) (asset amount : Z) : result setup_op :=
  match h with
  | None => Raise StructError
  | Some h => p ← deposit_payload h asset amount (asset + 1); Ok (SetupOp p (Deposited h (asset + 1)))
  end.
Fixpoint all_ok {A} (l : list (result A)) : result (list A) :=
  match l with [] => Ok [] | r :: rest => x ← r; xs ← all_ok rest; Ok (x :: xs) end.
(** [{name: handle_of(...) for name, sk in keys}] *)
Fixpoint read_handles (accounts : list dev_account) (acc : gmap string (option Z)) : P (gmap string (option Z)) :=
  match accounts with
  | [] => mret acc
  | a :: rest => h ← setup_handle_of (da_pubkey a); read_handles rest (<[da_name a := h]> acc)
  end.

(** [left()] *)
Definition time_left (timeout t0 : Z) : P Z := t ← clock; mret (Z.max 0 (timeout - (t - t0))).
(** Runs, then goes on from where the run ended *)
Definition then_run {A} (ops : list setup_op) (timeout t0 : Z) (k : P A) (s : setup_state) : option (result A * setup_state) :=
  match time_left timeout t0 s with
  | (Raise e, s1) => Some (Raise e, s1)
  | (Ok d, s1) =>
      match run_ops ops d s1 with
      | None => None
      | Some (Raise e, s2) => Some (Raise e, s2)
      | Some (Ok _, s2) => Some (k s2)
      end
  end.
(** [setup] *)
Definition setup (markets : list (Z * Z * Z)) (accounts : list dev_account) (balance timeout : Z) (s : setup_state) :
    option (result (gmap string (option Z)) * setup_state) :=
  let '(t0, s) := ((st_now s), (clock s).2) in
  match all_ok (map market_op markets) with
  | Raise e => Some (Raise e, s)
  | Ok ls =>
      match then_run (ls ++ map register_op accounts) timeout t0 (read_handles accounts ∅) s with
      | None => None
      | Some (Raise e, s') => Some (Raise e, s')
      | Some (Ok handles, s') =>
          if 0 <? balance then
            match all_ok (a ← accounts; map (λ x, deposit_op (default None (handles !! da_name a)) x (balance * SETUP_SCALE)) ASSETS) with
            | Raise e => Some (Raise e, s')
            | Ok ds => then_run ds timeout t0 (mret handles) s'
            end
          else Some (Ok handles, s')
      end
  end.
End setup.
(** [wanted(env, deployed)]; [v] is DEX_SETUP, stripped and in lower case *)
Definition wanted (v : option string) (deployed : bool) : bool :=
  let v := match v with None | Some EmptyString => "auto"%string | Some v => v end in
  bool_decide (v = "1"%string) || (bool_decide (v = "auto"%string) && deployed).

(** ** What consulting the chain may do, the rest may do *)
Section consulting.
Context (views : nat → setup_view) (has_status : bool) (R : setup_state → setup_state → Prop) `{!Transition R}.
Context (Hconsult : ∀ A (f : setup_view → A), rel R (consult views f)).

Lemma rel_clock : rel R (clock views).
Proof using Hconsult. intros s. apply (Hconsult _ (λ _, tt) s). Qed.
Lemma rel_read k : rel R (read_key views k).
Proof using Hconsult Transition0. unfold read_key. apply rel_bind; [apply _|apply Hconsult|intros; apply rel_lift, _]. Qed.
Lemma rel_check c : rel R (run_check views c).
Proof using Hconsult Transition0.
  destruct c; cbn [run_check]; unfold market_listed, setup_handle_of, nonce_landed;
    repeat first [apply rel_read | apply rel_bind; [apply _| |intros ?] | apply rel_lift, _ | apply rel_ret, _].
Qed.
Lemma rel_landed o : rel R (op_landed views o).
Proof using Hconsult Transition0. unfold op_landed. apply rel_bind; [apply _|apply rel_try, rel_check|intros; apply rel_lift, _]. Qed.
Lemma rel_unlanded ops : rel R (unlanded views ops).
Proof using Hconsult Transition0.
  induction ops as [|o ops IH]; cbn; [apply rel_ret, _|]. apply rel_bind; [apply _|apply rel_landed|intros b].
  apply rel_bind; [apply _|exact IH|intros; apply rel_ret, _].
Qed.
Lemma rel_failed rs : rel R (any_failed views has_status rs).
Proof using Hconsult Transition0.
  induction rs as [|[h|] rs IH]; cbn; [apply rel_ret, _| |exact IH]. destruct has_status; [|exact IH].
  apply rel_bind; [apply _|apply Hconsult|intros [[]|e]]; [apply rel_ret, _|exact IH|]. destruct (is_chain_error e); [exact IH|apply rel_lift, _].
Qed.
Lemma rel_groups gs : (∀ s g, R s (SetupState (st_now s) (st_tick s) (st_groups s ++ [g]))) → rel R (send_groups views gs).
Proof using Hconsult Transition0.
  intros Hput. induction gs as [|g gs IH]; cbn; [apply rel_ret, _|]. apply rel_bind; [apply _|apply rel_put; intros s; apply Hput|intros _].
  apply rel_bind; [apply _|apply Hconsult|intros r]. apply rel_bind; [apply _|apply rel_lift, _|intros h].
  apply rel_bind; [apply _|exact IH|intros; apply rel_ret, _].
Qed.
Lemma rel_size : rel R (group_size views).
Proof using Hconsult Transition0. unfold group_size. apply rel_bind; [apply _|apply Hconsult|intros; apply rel_lift, _]. Qed.
End consulting.

(** ** Termination: time only moves forward *)
Section forward.
Context (views : nat → setup_view) (poll resend : Z) (has_status : bool).
Context (Hpassed : ∀ n, 0 ≤ sv_passed (views n)).

Definition later (s s' : setup_state) : Prop := st_now s ≤ st_now s'.
#[export] Instance later_tr : Transition later.
Proof. split; unfold later; [lia|]. intros a b c. lia. Qed.
Lemma later_consult A (f : setup_view → A) : rel later (consult views f).
Proof using Hpassed. intros s. unfold later. cbn. specialize (Hpassed (st_tick s)). lia. Qed.
Lemma later_clock : rel later (clock views).
Proof using Hpassed. apply rel_clock, later_consult. Qed.
Lemma later_unlanded ops : rel later (unlanded views ops).
Proof using Hpassed. apply rel_unlanded; [apply _|apply later_consult]. Qed.
Lemma later_failed rs : rel later (any_failed views has_status rs).
Proof using Hpassed. apply rel_failed; [apply _|apply later_consult]. Qed.
Lemma later_groups gs : rel later (send_groups views gs).
Proof using Hpassed. apply rel_groups; [apply _|apply later_consult|]. intros. unfold later. cbn. lia. Qed.
Lemma later_size : rel later (group_size views).
Proof using Hpassed. apply rel_size; [apply _|apply later_consult]. Qed.

Context (Hpoll : 1 ≤ poll) (Hresend : 1 ≤ resend).

(** What is left until the deadline, with a place for the mode. *)
Definition turns_left (deadline : Z) (m : run_mode) (s : setup_state) : nat :=
  let c := Z.to_nat (deadline - st_now s) in
  match m with
  | Send [] => 0
  | Send _ => if deadline <=? st_now s then 0 else 4 * c + 2
  | Watch [] _ _ _ => 1
  | Watch _ _ since wait => if st_now s <? since + wait then 4 * c + 1 else 4 * c + 3
  end.
Definition waits (m : run_mode) : Prop := match m with Watch _ _ _ wait => 1 ≤ wait | Send _ => True end.

Lemma clock_ok s t s' : clock views s = (Ok t, s') → t = st_now s ∧ later s s'.
Proof using Hpassed. intros H. pose proof (later_clock s) as Hl. rewrite H in Hl. by injection H as <- _. Qed.
Lemma run_later {A} (c : SE setup_state A) s r s' : rel later c → c s = (r, s') → later s s'.
Proof. intros H E. specialize (H s). by rewrite E in H. Qed.

Lemma turn_send deadline o p s m s' : run_turn views poll resend has_status deadline (Send (o :: p)) s = (Ok (inr m), s') →
  waits m ∧ (turns_left deadline m s' < turns_left deadline (Send (o :: p)) s)%nat.
Proof using Hpassed Hpoll Hresend.
  intros H. cbn [run_turn] in H. apply se_bind_ok in H as (t & s1 & [-> L1]%clock_ok & H). apply se_bind_ok in H as (? & s2 & [Hg ->]%lift_ok & H).
  apply guard_or_ok, Z.ltb_lt in Hg. apply se_bind_ok in H as (n & s3 & H3 & H). apply (run_later _ _ _ _ later_size) in H3.
  apply se_bind_ok in H as (rs & s4 & H4 & H). apply (run_later _ _ _ _ (later_groups _)) in H4.
  apply se_bind_ok in H as (since & s5 & [-> L5]%clock_ok & [= <- <-]). set (wait := match rs with [] => poll | _ => resend end).
  assert (1 ≤ wait) by (unfold wait; destruct rs; lia). split; [done|]. unfold later in *. cbn [turns_left].
  destruct (Z.leb_spec deadline (st_now s)); [lia|]. destruct (Z.ltb_spec (st_now s5) (st_now s4 + wait)); lia.
Qed.
Lemma turn_watch deadline o p rs since wait s m s' : 1 ≤ wait →
  run_turn views poll resend has_status deadline (Watch (o :: p) rs since wait) s = (Ok (inr m), s') →
  waits m ∧ (turns_left deadline m s' < turns_left deadline (Watch (o :: p) rs since wait) s)%nat.
Proof using Hpassed Hpoll.
  intros Hw H. cbn [run_turn] in H. apply se_bind_ok in H as (t & s1 & [-> L1]%clock_ok & H). unfold later in L1.
  destruct (Z.ltb_spec (st_now s - since) wait) as [Hlt|Hge].
  2: { injection H as <- <-. split; [done|]. cbn [turns_left]. destruct (Z.ltb_spec (st_now s) (since + wait)); [lia|]. destruct (Z.leb_spec deadline (st_now s1)); lia. }
  apply se_bind_ok in H as (t & s2 & [-> L2]%clock_ok & H). unfold later in L2. destruct (Z.ltb_spec (st_now s1) deadline) as [Hd|Hd].
  2: { injection H as <- <-. split; [done|]. cbn [turns_left]. destruct (Z.leb_spec deadline (st_now s2)), (Z.ltb_spec (st_now s) (since + wait)); lia. }
  apply se_bind_ok in H as (? & s3 & H3 & H). assert (L3 : st_now s2 + poll ≤ st_now s3).
  { apply (f_equal snd) in H3. cbn in H3. subst s3. change (st_now s2 + poll ≤ st_now s2 + poll + sv_passed (views (st_tick s2))). pose proof (Hpassed (st_tick s2)). lia. }
  apply se_bind_ok in H as (left & s4 & H4 & H). apply (run_later _ _ _ _ (later_unlanded _)) in H4. unfold later in H4.
  destruct left as [|o' p'].
  { injection H as <- <-. split; [done|]. cbn [turns_left]. destruct (Z.ltb_spec (st_now s) (since + wait)); lia. }
  apply se_bind_ok in H as (f & s5 & H5 & [= <- <-]). apply (run_later _ _ _ _ (later_failed _)) in H5. unfold later in H5.
  split; [by destruct f|]. destruct (Z.ltb_spec (st_now s) (since + wait)) as [Hn|Hn] in |- *; [|lia]. cbn [turns_left].
  apply Z.ltb_lt in Hn as Hb. rewrite Hb. destruct f; cbn [turns_left].
  - destruct (Z.leb_spec deadline (st_now s5)); lia.
  - destruct (Z.ltb_spec (st_now s5) (since + wait)); lia.
Qed.

Lemma run_ends ops timeout s : is_Some (run_ops views poll resend has_status ops timeout s).
Proof using Hpassed Hpoll Hresend.
  unfold run_ops. destruct ((t ← clock views; p ← unlanded views ops; mret (t, p)) s) as [[[t p]|e] s1] eqn:E; [|eauto].
  apply se_bind_ok in E as (t' & s2 & [-> L2]%clock_ok & E). apply se_bind_ok in E as (p' & s3 & E3 & [= <- <- <-]).
  apply (run_later _ _ _ _ (later_unlanded _)) in E3. unfold later in *.
  apply (iterate_total (λ m _, waits m) (turns_left (st_now s + timeout))); [|done|].
  - intros [[|o q]|[|o q] rs since wait] a m a' Hw H; cbn [waits] in Hw; [done|by eapply turn_send| |by eapply turn_watch].
    cbn in H. injection H as <- <-. split; [done|]. cbn. lia.
  - cbn [turns_left]. destruct p'; [lia|]. destruct (Z.leb_spec (st_now s + timeout) (st_now s3)); lia.
Qed.
End forward.

(** ** What a run achieves *)
Section achieves.
Context (views : nat → setup_view) (poll resend : Z) (has_status : bool).

(** Nothing is sent. *)
Definition calm (s s' : setup_state) : Prop := (st_tick s ≤ st_tick s')%nat ∧ st_groups s' = st_groups s.
#[export] Instance calm_tr : Transition calm.
Proof. split; unfold calm; [done|]. intros a b c [? ->] [? ->]. split; [lia|done]. Qed.
Lemma calm_consult A (f : setup_view → A) : rel calm (consult views f).
Proof. intros s. unfold calm. cbn. split; [lia|done]. Qed.
Lemma calm_run {A} (c : SE setup_state A) s r s' : rel calm c → c s = (r, s') → calm s s'.
Proof. intros H E. specialize (H s). by rewrite E in H. Qed.

(** Between [s] and [s'] the operation was seen to have landed. *)
Definition seen (s s' : setup_state) (o : setup_op) : Prop :=
  ∃ x, (st_tick s ≤ st_tick x < st_tick s')%nat ∧ (run_check views (op_check o) x).1 = Ok true.
Lemma seen_mono s0 s1 s2 s3 o : (st_tick s0 ≤ st_tick s1)%nat → (st_tick s2 ≤ st_tick s3)%nat → seen s1 s2 o → seen s0 s3 o.
Proof. intros ? ? (x & ? & ?). exists x. split; [lia|done]. Qed.

Lemma read_tick k s v s' : read_key views k s = (Ok v, s') → (st_tick s < st_tick s')%nat.
Proof.
  intros H. assert (E : st_tick (read_key views k s).2 = S (st_tick s)) by reflexivity. rewrite H in E. cbn in E. lia.
Qed.
Lemma check_tick c s b s' : run_check views c s = (Ok b, s') → (st_tick s < st_tick s')%nat.
Proof.
  destruct c; cbn [run_check]; unfold market_listed, setup_handle_of, nonce_landed; intros H.
  - apply se_bind_ok in H as (k & s1 & [_ ->]%lift_ok & H). apply se_bind_ok in H as (v & s2 & H & [= _ <-]). by eapply read_tick.
  - apply se_bind_ok in H as (h & s1 & H & [= _ <-]). apply se_bind_ok in H as (v & s2 & H & [= _ <-]). by eapply read_tick.
  - apply se_bind_ok in H as (k & s1 & [_ ->]%lift_ok & H). apply se_bind_ok in H as (v & s2 & H & [= _ <-]). by eapply read_tick.
Qed.
Lemma landed_true o s s' : op_landed views o s = (Ok true, s') → seen s s' o.
Proof.
  unfold op_landed, mbind, SE_bind, se_try, se_lift. destruct (run_check views (op_check o) s) as [r s1] eqn:E. intros [= Hr <-].
  destruct r as [b|e]; [|by destruct (is_chain_error e)]. injection Hr as ->. exists s. rewrite E. split; [|done]. apply check_tick in E. lia.
Qed.
Lemma unlanded_spec ops s l s' : unlanded views ops s = (Ok l, s') → (∀ o, o ∈ l → o ∈ ops) ∧ ∀ o, o ∈ ops → o ∈ l ∨ seen s s' o.
Proof.
  revert s l s'. induction ops as [|o ops IH]; intros s l s' H; cbn [unlanded] in H.
  { injection H as <- <-. split; [done|]. by intros o ?%not_elem_of_nil. }
  apply se_bind_ok in H as (b & s1 & H1 & H). apply se_bind_ok in H as (ks & s2 & H2 & [= <- <-]).
  pose proof (calm_run _ _ _ _ (rel_landed views calm calm_consult o) H1) as [T1 _].
  pose proof (calm_run _ _ _ _ (rel_unlanded views calm calm_consult ops) H2) as [T2 _]. apply IH in H2 as [Hsub Hseen]. split.
  - intros x Hx. destruct b; [right; auto|]. apply elem_of_cons in Hx as [->|Hx]; [by left|right; auto].
  - intros x [->|Hx]%elem_of_cons.
    + destruct b; [|left; by left]. right. apply landed_true in H1. eapply seen_mono; [|exact T2|exact H1]. done.
    + destruct (Hseen x Hx) as [?|?]; [left; destruct b; [done|by right]|right; eapply seen_mono; [exact T1| |done]; done].
Qed.

(** Where a run that started in [s0] stands in [s], with [pending] still to land. *)
Record progress (ops : list setup_op) (s0 : setup_state) (pending : list setup_op) (s : setup_state) : Prop := {
  pr_tick : (st_tick s0 ≤ st_tick s)%nat;
  pr_sub o : o ∈ pending → o ∈ ops;
  pr_seen o : o ∈ ops → o ∈ pending ∨ seen s0 s o;
  pr_groups : ∃ l, st_groups s = st_groups s0 ++ l ∧ ∀ g p, g ∈ l → p ∈ g → ∃ o, o ∈ ops ∧ p = op_payload o
}.
Definition mode_pending (m : run_mode) : list setup_op := match m with Send p => p | Watch p _ _ _ => p end.

Lemma progress_calm ops s0 p s s' : progress ops s0 p s → calm s s' → progress ops s0 p s'.
Proof.
  intros [T Hsub Hseen (l & El & Hl)] [Tc Eg]. split; [lia|done| |exists l; split; [congruence|done]].
  intros o Ho. destruct (Hseen o Ho); [by left|right]. eapply seen_mono; [| |done]; [lia|done].
Qed.
Lemma progress_unlanded ops s0 p s l s' : progress ops s0 p s → unlanded views p s = (Ok l, s') → progress ops s0 l s'.
Proof.
  intros Hp H. pose proof (calm_run _ _ _ _ (rel_unlanded views calm calm_consult p) H) as Hc.
  destruct (progress_calm _ _ _ _ _ Hp Hc) as [T' Hsub' Hseen' Hg']. destruct Hp as [T Hsub Hseen _]. apply unlanded_spec in H as [H1 H2].
  split; [done|auto| |done]. intros o Ho. destruct (Hseen o Ho) as [Hin|Hs].
  - destruct (H2 o Hin); [by left|right]. eapply seen_mono; [| |done]; [lia|done].
  - right. eapply seen_mono; [| |done]; [done|]. destruct Hc. lia.
Qed.
Lemma progress_groups ops s0 p s gs r s' : progress ops s0 p s → (∀ g o, g ∈ gs → o ∈ g → o ∈ ops) →
  send_groups views gs s = (r, s') → progress ops s0 p s'.
Proof.
  revert s r s'. induction gs as [|g gs IH]; intros s r s' Hp Hin H; cbn [send_groups] in H; [by injection H as _ <-|].
  unfold mbind, SE_bind at 1 in H. cbn [se_put] in H. set (s1 := SetupState _ _ _) in H.
  assert (Hp1 : progress ops s0 p s1).
  { destruct Hp as [T Hsub Hseen (l & El & Hl)]. split; [done|done|done|]. exists (l ++ [map op_payload g]). cbn. rewrite El, <- (assoc_L (++)). split; [done|].
    intros g' q [?|Hg]%elem_of_app Hq; [by eapply Hl|]. apply list_elem_of_singleton in Hg as ->. apply list_elem_of_fmap in Hq as (o & -> & Ho).
    exists o. split; [|done]. apply (Hin g); [by left|done]. }
  assert (Hp2 : progress ops s0 p (consult views (λ v, sv_submit v (map op_payload g)) s1).2) by (eapply progress_calm; [exact Hp1|apply calm_consult]).
  unfold SE_bind at 1 in H. cbn [consult snd] in H, Hp2. unfold SE_bind in H. destruct (match sv_submit _ _ with Ok _ => _ | Raise _ => _ end) as [h|e];
    cbn [se_lift] in H; [|by injection H as _ <-].
  destruct (send_groups views gs _) as [r' s2] eqn:Eg. apply IH in Eg; [|exact Hp2|intros; eapply Hin; [by right|done]]. by destruct r'; injection H as _ <-.
Qed.
Lemma groups_sub fuel n : ∀ l g o, g ∈ groups_of fuel n l → o ∈ g → o ∈ l.
Proof.
  induction fuel as [|fuel IH]; intros l g o Hg Ho; cbn in Hg; [by apply not_elem_of_nil in Hg|]. destruct l as [|x l]; [by apply not_elem_of_nil in Hg|].
  apply elem_of_cons in Hg as [->|Hg]; [rewrite <- (take_drop n (x :: l)), elem_of_app; by left|].
  eapply IH in Hg; [|done]. rewrite <- (take_drop n (x :: l)), elem_of_app. by right.
Qed.

Lemma turn_progress ops s0 deadline m s r s' : progress ops s0 (mode_pending m) s →
  run_turn views poll resend has_status deadline m s = (r, s') →
  match r with Ok (inl _) => progress ops s0 [] s' | Ok (inr m') => progress ops s0 (mode_pending m') s' | Raise _ => True end.
Proof.
  intros Hp H. destruct r as [y|e]; [|done].
  destruct m as [[|o p]|[|o p] rs since wait]; cbn [run_turn mode_pending] in H, Hp; [by injection H as <- <-| |by injection H as <- <-|].
  - apply se_bind_ok in H as (t & s1 & H1 & H). apply se_bind_ok in H as (? & s2 & [_ ->]%lift_ok & H). apply se_bind_ok in H as (n & s3 & H3 & H).
    apply se_bind_ok in H as (rcs & s4 & H4 & H). apply se_bind_ok in H as (since & s5 & H5 & [= <- <-]). cbn [mode_pending].
    eapply progress_calm; [|eapply calm_run; [apply rel_clock, calm_consult|exact H5]]. eapply progress_groups; [| |exact H4].
    + eapply progress_calm; [|eapply calm_run; [apply rel_size; [apply _|apply calm_consult]|exact H3]].
      eapply progress_calm; [exact Hp|eapply calm_run; [apply rel_clock, calm_consult|exact H1]].
    + intros g y Hg Hy. apply (pr_sub _ _ _ _ Hp). by eapply groups_sub.
  - apply se_bind_ok in H as (t & s1 & H1 & H).
    assert (P1 : progress ops s0 (o :: p) s1) by (eapply progress_calm; [exact Hp|eapply calm_run; [apply rel_clock, calm_consult|exact H1]]).
    destruct (t - since <? wait); [|by injection H as <- <-]. apply se_bind_ok in H as (t' & s2 & H2 & H).
    assert (P2 : progress ops s0 (o :: p) s2) by (eapply progress_calm; [exact P1|eapply calm_run; [apply rel_clock, calm_consult|exact H2]]).
    destruct (t' <? deadline); [|by injection H as <- <-]. apply se_bind_ok in H as (? & s3 & H3 & H).
    assert (P3 : progress ops s0 (o :: p) s3).
    { eapply progress_calm; [exact P2|]. eapply calm_run; [|exact H3]. unfold sleep. apply rel_bind; [apply _|by apply rel_put|intros; apply calm_consult]. }
    apply se_bind_ok in H as (left & s4 & H4 & H). pose proof (progress_unlanded _ _ _ _ _ _ P3 H4) as P4. destruct left as [|o' p'].
    + by injection H as <- <-.
    + apply se_bind_ok in H as (f & s5 & H5 & [= <- <-]).
      assert (P5 : progress ops s0 (o' :: p') s5) by (eapply progress_calm; [exact P4|eapply calm_run; [apply rel_failed; [apply _|apply calm_consult]|exact H5]]).
      by destruct f.
Qed.

Lemma run_lands ops timeout s s' : run_ops views poll resend has_status ops timeout s = Some (Ok tt, s') → progress ops s [] s'.
Proof.
  unfold run_ops. destruct ((t ← clock views; p ← unlanded views ops; mret (t, p)) s) as [[[t p]|e] s1] eqn:E; [|done]. intros H.
  apply se_bind_ok in E as (t' & s2 & E2 & E). apply se_bind_ok in E as (p' & s3 & E3 & [= <- <- <-]).
  assert (P : progress ops s p' s3).
  { eapply progress_unlanded; [|exact E3]. eapply progress_calm; [|eapply calm_run; [apply rel_clock, calm_consult|exact E2]].
    split; [done|done|by left|]. exists []. rewrite app_nil_r. split; [done|]. by intros g q ?%not_elem_of_nil. }
  apply (iterate_inv (λ m x, progress ops s (mode_pending m) x) (λ _ x, progress ops s [] x) (λ _, True) _
           (λ m x r x' Hp Hb, turn_progress ops s _ m x r x' Hp Hb) _ (Send p') s3 _ _ P H).
Qed.

(** When everything has already landed, nothing is sent. *)
Lemma run_nothing ops timeout s : (∀ o x, o ∈ ops → (run_check views (op_check o) x).1 = Ok true) →
  ∃ s', run_ops views poll resend has_status ops timeout s = Some (Ok tt, s') ∧ st_groups s' = st_groups s.
Proof.
  intros Hall. assert (Hun : ∀ x, ∃ x', unlanded views ops x = (Ok [], x') ∧ st_groups x' = st_groups x).
  { clear s. induction ops as [|o ops IH]; intros x; [by exists x|]. cbn [unlanded].
    destruct (op_landed views o x) as [b x1] eqn:E. pose proof (calm_run _ _ _ _ (rel_landed views calm calm_consult o) E) as [_ Eg].
    assert (b = Ok true) as ->.
    { specialize (Hall o x ltac:(by left)). unfold op_landed, mbind, SE_bind, se_try, se_lift in E. destruct (run_check views (op_check o) x) as [r x2].
      cbn in Hall. subst r. by injection E as <-. }
    destruct (IH (λ o' x' H', Hall o' x' (list_elem_of_further _ _ _ H')) x1) as (x' & E' & Eg'). exists x'.
    unfold mbind, SE_bind. rewrite E, E'. split; [done|congruence]. }
  destruct (Hun (clock views s).2) as (x' & E & Eg). exists x'. split; [|by rewrite Eg]. unfold run_ops, mbind, SE_bind.
  assert (clock views s = (Ok (st_now s), (clock views s).2)) as -> by reflexivity. rewrite E. cbn [mret SE_ret]. unfold mret, SE_ret. rewrite Nat.add_comm. reflexivity.
Qed.
End achieves.

(** (C23) A run of operations ends, and ends well or says so: on any chain and with any answers, [Runner.run] returns or raises
    (time moves and the waits are positive); when it returns, every operation was seen to have landed and nothing but
    the given operations was ever sent; and when all of them have landed before, nothing is sent at all. *)
Theorem run_lands_or_gives_up views poll resend has_status ops timeout s :
  (∀ n, 0 ≤ sv_passed (views n)) → 1 ≤ poll → 1 ≤ resend →
  ∃ r s', run_ops views poll resend has_status ops timeout s = Some (r, s') ∧
    (r = Ok tt → progress views ops s [] s') ∧
    ((∀ o x, o ∈ ops → (run_check views (op_check o) x).1 = Ok true) → r = Ok tt ∧ st_groups s' = st_groups s).
Proof.
  intros Hp Hpoll Hresend. destruct (run_ends views poll resend has_status Hp Hpoll Hresend ops timeout s) as [[r s'] E]. exists r, s'.
  split; [exact E|]. split; [intros ->; by eapply run_lands|]. intros Hall.
  destruct (run_nothing views poll resend has_status ops timeout s Hall) as (s1 & E1 & Eg). rewrite E in E1. by injection E1 as -> ->.
Qed.

(** A chain where what is sent shows after a while. *)
Definition setup_sample (n : nat) : setup_view :=
  SetupView (λ _, if (n <=? 12)%nat then Ok [] else Ok [1; 0; 0; 0; 0; 0; 0; 0]) (Ok 2) (λ _, Ok (Some [])) (λ _, Ok false) 1.
Definition setup_ops : list setup_op := [SetupOp [6; 1] (Listed 1); SetupOp [7] (Registered [5]); SetupOp [1] (Deposited 1 1)].
Lemma run_lands_or_gives_up_witness :
  ∃ s', run_ops setup_sample 3 60 true setup_ops 300 (SetupState 0 0 []) = Some (Ok tt, s') ∧ progress setup_sample setup_ops (SetupState 0 0 []) [] s' ∧
    st_groups s' = [[[6; 1]; [7]]; [[1]]].
Proof.
  destruct (run_lands_or_gives_up setup_sample 3 60 true setup_ops 300 (SetupState 0 0 [])) as (r & s' & E & Hok & _); [cbn; lia|lia|lia|].
  pose proof E as E'. apply (f_equal (λ x, fst <$> x)) in E'. vm_compute in E'. injection E' as E'. subst r.
  exists s'. split; [exact E|]. split; [apply Hok; reflexivity|]. apply (f_equal (λ x, (λ y, st_groups y.2) <$> x)) in E. vm_compute in E. injection E as E. exact (eq_sym E).
Defined.
