(* ===== verification/Ledger.v ===== *)
(** * The metrics registry and the pending ledger

    src/offchain/metrics.py and server.py's [submit]: every payload the server relays is tracked from submission until its
    effect is visible on chain.  Request threads and the watcher share the ledger: [track] appends a dict, [refused] marks
    one, [_watch] takes the open ones under the lock and visits them outside it.  The dicts live in a heap ([l_heap]) and the
    ledger holds references, so that a dict the watcher still holds can be refused or dropped meanwhile.  A history is a list
    of actions of the threads in any interleaving; each action is what a thread does between two points where another can run
    (the sections under the lock, a call of a settle predicate or of the chain, the stamps after it). *)
From stdpp Require Import pretty.
From S2P Require Import Prelude.

(** ** The registry *)
Definition labels : Type := list (string * string).
Definition labels_key (ls : labels) : labels := sort_by (λ a b, String.leb a.1 b.1) ls.
Definition metric : Type := string * labels.
Definition BUCKETS : list Z := [3; 6; 12; 18; 24; 30; 45; 60; 90; 120; 180; 300; 600].
Record hist := Hist { h_buckets : list Z; h_sum : Z; h_count : Z }.
Definition hist0 : hist := Hist (map (λ _, 0) BUCKETS) 0 0.
Definition inc (name : string) (ls : labels) (by_ : Z) (m : gmap metric Z) : gmap metric Z :=
  <[(name, labels_key ls) := default 0 (m !! (name, labels_key ls)) + by_]> m.
Definition observe_hist (v : Z) (h : hist) : hist :=
  Hist (zip_with (λ b n, if v <=? b then n + 1 else n) BUCKETS (h_buckets h)) (h_sum h + v) (h_count h + 1).
Definition observe (name : string) (ls : labels) (v : Z) (m : gmap metric hist) : gmap metric hist :=
  <[(name, labels_key ls) := observe_hist v (default hist0 (m !! (name, labels_key ls)))]> m.

(** ** The ledger *)
Definition SETTLE_TIMEOUT : Z := 600.
Definition LEDGER_KEEP : nat := 100.
Definition SUBMITS : string := "jamswap_submits_total".
Definition REFUSED : string := "jamswap_refused_total".
Definition SETTLED : string := "jamswap_settled_total".
Definition TIMEOUTS : string := "jamswap_settle_timeouts_total".
Definition LATENCY : string := "jamswap_settle_latency_seconds".

(** An entry; a settle predicate is named by the object it is. *)
Record entry := Entry {
  e_id : Z; e_op : string; e_detail : string; e_submitted : Z;
  e_settled : option Z; e_timed_out : bool; e_refused : bool; e_check : option positive
}.
#[global] Instance entry_eq_dec : EqDecision entry.
Proof. solve_decision. Defined.

(** [if x["settled"]]: a time, and not zero *)
Definition stamped (o : option Z) : bool := match o with Some t => negb (t =? 0) | None => false end.
Definition is_resolved (e : entry) : bool := stamped (e_settled e) || e_timed_out e || negb (bool_decide (is_Some (e_check e))).
Definition entry_open (e : entry) : bool := bool_decide (is_Some (e_check e)) && negb (stamped (e_settled e)) && negb (e_timed_out e).

Definition refuse_entry (e : entry) : entry := Entry (e_id e) (e_op e) (e_detail e) (e_submitted e) (e_settled e) (e_timed_out e) true None.
Definition settle_entry_at (t : Z) (e : entry) : entry := Entry (e_id e) (e_op e) (e_detail e) (e_submitted e) (Some t) (e_timed_out e) (e_refused e) (e_check e).
Definition time_out (e : entry) : entry := Entry (e_id e) (e_op e) (e_detail e) (e_submitted e) (e_settled e) true (e_refused e) (e_check e).

(** Where a [submit] call is, with the dict it made *)
Inductive submit_phase := Built (r : nat) | Bumped (r : nat) | Relaying (r : nat).
Definition phase_ref (p : submit_phase) : nat := match p with Built r | Bumped r | Relaying r => r end.
(** Where the watcher is: between ticks; with entries to visit, at the tick's [now]; or with a predicate's answer in hand *)
Inductive watch := Idle | Visiting (now : Z) (open : list nat) | Answered (now : Z) (r : nat) (done_ : bool) (open : list nat).

Record ledger := Ledger {
  l_counters : gmap metric Z; l_hists : gmap metric hist;
  l_heap : list entry; l_refs : list nat; l_seq : Z;
  l_clock : Z; l_threads : gmap nat submit_phase; l_watch : watch
}.
Definition ledger0 (clock : Z) : ledger := Ledger ∅ ∅ [] [] 0 clock ∅ Idle.

(** [_ledger.remove(x)]: the first entry equal to [x] *)
Fixpoint remove_equal (heap : list entry) (x : nat) (l : list nat) : list nat :=
  match l with [] => [] | r :: l' => if decide (heap !! r = heap !! x) then l' else r :: remove_equal heap x l' end.
Definition resolved_refs (heap : list entry) (l : list nat) : list nat := filter (λ r, from_option is_resolved false (heap !! r) = true) l.
(** The entries of the keep window and those still open *)
Definition prune_ledger (heap : list entry) (l : list nat) : list nat :=
  let resolved := resolved_refs heap l in
  foldl (λ l x, remove_equal heap x l) l (take (length resolved - LEDGER_KEEP) resolved).

(** ** What the threads do *)
Definition TAG_NAMES : list string :=
  ["match"; "deposit"; "commit"; "reveal"; "cancel"; "withdraw"; "list"; "register"; "treasury"; "enc_setup"; "enc_commit"; "enc_round"; "round";
   "carry_commit"; "carry_enc_commit"]%string.
Definition op_name (tag : Z) : string := default ("tag" ++ pretty tag)%string (TAG_NAMES !! Z.to_nat tag).

Definition op_label (op : string) : labels := [("op"%string, op)].

(** [track] up to the dict: its id is the counter's value now *)
Definition track_build (t : nat) (tag : Z) (detail : string) (check : option positive) (s : ledger) : ledger :=
  let op := op_name tag in
  Ledger (inc SUBMITS (op_label op) 1 (l_counters s)) (l_hists s)
    (l_heap s ++ [Entry (l_seq s) op detail (l_clock s) None false false check]) (l_refs s) (l_seq s) (l_clock s)
    (<[t := Built (length (l_heap s))]> (l_threads s)) (l_watch s).
(** [_seq[0] += 1] *)
Definition track_bump (t r : nat) (s : ledger) : ledger :=
  Ledger (l_counters s) (l_hists s) (l_heap s) (l_refs s) (l_seq s + 1) (l_clock s) (<[t := Bumped r]> (l_threads s)) (l_watch s).
(** The section under the ledger's lock *)
Definition track_append (t r : nat) (s : ledger) : ledger :=
  Ledger (l_counters s) (l_hists s) (l_heap s) (prune_ledger (l_heap s) (l_refs s ++ [r])) (l_seq s) (l_clock s)
    (<[t := Relaying r]> (l_threads s)) (l_watch s).

(** The first entry of the ledger with this id *)
Fixpoint find_id (heap : list entry) (i : Z) (l : list nat) : option (nat * entry) :=
  match l with
  | [] => None
  | r :: l' => match heap !! r with Some e => if e_id e =? i then Some (r, e) else find_id heap i l' | None => find_id heap i l' end
  end.
Definition refused (i : Z) (s : ledger) : ledger :=
  match find_id (l_heap s) i (l_refs s) with
  | Some (r, e) =>
      Ledger (inc REFUSED (op_label (e_op e)) 1 (l_counters s)) (l_hists s) (<[r := refuse_entry e]> (l_heap s)) (l_refs s) (l_seq s) (l_clock s)
        (l_threads s) (l_watch s)
  | None => s
  end.

(** How [CHAIN.submit] ends: a receipt with the times it names, a refusal (ChainBusy, ChainUnsupported), another error *)
Inductive relayed := Receipt (build send : option Z) | Refusal | Unknown.
Definition observe_time (name op : string) (v : option Z) (m : gmap metric hist) : gmap metric hist :=
  match v with Some x => observe name (op_label op) x m | None => m end.
(** [submit] after the call *)
Definition submit_relay (t : nat) (e : entry) (out : relayed) (s : ledger) : ledger :=
  let s := Ledger (l_counters s) (l_hists s) (l_heap s) (l_refs s) (l_seq s) (l_clock s) (delete t (l_threads s)) (l_watch s) in
  match out with
  | Receipt build send =>
      Ledger (l_counters s) (observe_time "jamswap_submit_send_seconds" (e_op e) send (observe_time "jamswap_submit_build_seconds" (e_op e) build (l_hists s)))
        (l_heap s) (l_refs s) (l_seq s) (l_clock s) (l_threads s) (l_watch s)
  | Refusal => refused (e_id e) s
  | Unknown => s
  end.

(** [_watch]: the open entries, taken under the lock *)
Definition scan (s : ledger) : ledger :=
  Ledger (l_counters s) (l_hists s) (l_heap s) (l_refs s) (l_seq s) (l_clock s) (l_threads s)
    (Visiting (l_clock s) (filter (λ r, from_option entry_open false (l_heap s !! r) = true) (l_refs s))).
Definition set_watch (w : watch) (s : ledger) : ledger :=
  Ledger (l_counters s) (l_hists s) (l_heap s) (l_refs s) (l_seq s) (l_clock s) (l_threads s) w.
(** [e["check"]()]: its answer, or an exception ([None]), as when the entry was refused since and has no predicate *)
Definition watch_ask (now : Z) (r : nat) (open : list nat) (answer : option bool) (s : ledger) : ledger :=
  match l_heap s !! r ≫= e_check, answer with
  | Some _, Some b => set_watch (Answered now r b open) s
  | _, _ => set_watch (Visiting now open) s
  end.
(** What the watcher does with an answer *)
Definition watch_mark (now : Z) (r : nat) (e : entry) (done_ : bool) (open : list nat) (s : ledger) : ledger :=
  if done_ then
    Ledger (inc SETTLED (op_label (e_op e)) 1 (l_counters s)) (observe LATENCY (op_label (e_op e)) (now - e_submitted e) (l_hists s))
      (<[r := settle_entry_at now e]> (l_heap s)) (l_refs s) (l_seq s) (l_clock s) (l_threads s) (Visiting now open)
  else if SETTLE_TIMEOUT <? now - e_submitted e then
    Ledger (inc TIMEOUTS (op_label (e_op e)) 1 (l_counters s)) (l_hists s)
      (<[r := time_out e]> (l_heap s)) (l_refs s) (l_seq s) (l_clock s) (l_threads s) (Visiting now open)
  else set_watch (Visiting now open) s.

Inductive act :=
| Tick (d : positive)
| Begin (t : nat) (tag : Z) (detail : string) (check : option positive)
| Bump (t : nat)
| Append (t : nat)
| Relay (t : nat) (out : relayed)
| Scan
| Ask (answer : option bool)
| Mark
| Sleep.

(** One action, where it is possible *)
Definition do_act (a : act) (s : ledger) : option ledger :=
  match a with
  | Tick d => Some (Ledger (l_counters s) (l_hists s) (l_heap s) (l_refs s) (l_seq s) (l_clock s + Z.pos d) (l_threads s) (l_watch s))
  | Begin t tag detail check => match l_threads s !! t with None => Some (track_build t tag detail check s) | Some _ => None end
  | Bump t => match l_threads s !! t with Some (Built r) => Some (track_bump t r s) | _ => None end
  | Append t => match l_threads s !! t with Some (Bumped r) => Some (track_append t r s) | _ => None end
  | Relay t out => match l_threads s !! t with Some (Relaying r) => (λ e, submit_relay t e out s) <$> (l_heap s !! r) | _ => None end
  | Scan => match l_watch s with Idle => Some (scan s) | _ => None end
  | Ask answer => match l_watch s with Visiting now (r :: open) => Some (watch_ask now r open answer s) | _ => None end
  | Mark => match l_watch s with Answered now r b open => (λ e, watch_mark now r e b open s) <$> (l_heap s !! r) | _ => None end
  | Sleep => match l_watch s with Visiting _ [] => Some (set_watch Idle s) | _ => None end
  end.
Definition run_acts (acts : list act) (s : ledger) : option ledger := foldl (λ s a, s ≫= do_act a) (Some s) acts.

(** [pending_snapshot]: newest first *)
Inductive entry_state := SRefused | SSettled | STimedOut | SPending | SSubmitted.
#[global] Instance entry_state_eq_dec : EqDecision entry_state.
Proof. solve_decision. Defined.
Definition state_of (e : entry) : entry_state :=
  if e_refused e then SRefused else if stamped (e_settled e) then SSettled else if e_timed_out e then STimedOut
  else match e_check e with Some _ => SPending | None => SSubmitted end.
Record shown := Shown { sh_id : Z; sh_op : string; sh_detail : string; sh_state : entry_state; sh_age : Z; sh_latency : option Z }.
Definition show (now : Z) (e : entry) : shown :=
  Shown (e_id e) (e_op e) (e_detail e) (state_of e) (now - e_submitted e)
    (if stamped (e_settled e) then (λ t, t - e_submitted e) <$> e_settled e else None).
Definition pending_snapshot (s : ledger) : list shown :=
  map (show (l_clock s)) (reverse (omap (λ r, l_heap s !! r) (drop (length (l_refs s) - LEDGER_KEEP) (l_refs s)))).

(** ** The invariant *)
Definition tally (P : entry → bool) (heap : list entry) : Z := zsum (λ e, if P e then 1 else 0) heap.
Definition of_op (op : string) (e : entry) : bool := bool_decide (e_op e = op).
Definition settled_op (op : string) (e : entry) : bool := of_op op e && bool_decide (is_Some (e_settled e)).
Definition latency_of (e : entry) : Z := default 0 (e_settled e) - e_submitted e.

Definition count_of (s : ledger) (name op : string) : Z := default 0 (l_counters s !! (name, op_label op)).
(** The histogram of a list of entries: the settled ones of the operation, at each bucket those at most as late *)
Definition latency_hist (op : string) (heap : list entry) : hist :=
  Hist (map (λ b, tally (λ e, settled_op op e && (latency_of e <=? b)) heap) BUCKETS)
    (zsum (λ e, if settled_op op e then latency_of e else 0) heap) (tally (settled_op op) heap).

(** A thread that has not appended its entry yet *)
Definition unlisted (p : submit_phase) : option nat := match p with Built r | Bumped r => Some r | Relaying _ => None end.
Definition watched (w : watch) : list nat := match w with Idle => [] | Visiting _ open => open | Answered _ r _ open => r :: open end.
Definition watch_now (w : watch) : option Z := match w with Idle => None | Visiting now _ | Answered now _ _ _ => Some now end.

(** Every entry that is not resolved is in the ledger, or its thread is about to append it. *)
Record listed (s : ledger) : Prop := {
  li_nodup : NoDup (l_refs s);
  li_threads t t' r : (l_threads s !! t ≫= unlisted) = Some r → (l_threads s !! t' ≫= unlisted) = Some r → t = t';
  li_unlisted t r : (l_threads s !! t ≫= unlisted) = Some r → (r < length (l_heap s))%nat ∧ r ∉ l_refs s;
  li_bound r : r ∈ l_refs s → (r < length (l_heap s))%nat;
  li_kept r e : l_heap s !! r = Some e → is_resolved e = false → r ∈ l_refs s ∨ ∃ t, (l_threads s !! t ≫= unlisted) = Some r
}.
(** What the watcher holds was not settled and not timed out: nobody else stamps entries. *)
Record watching (s : ledger) : Prop := {
  wa_clock : 0 < l_clock s;
  wa_now now : watch_now (l_watch s) = Some now → 0 < now ≤ l_clock s;
  wa_nodup : NoDup (watched (l_watch s));
  wa_fresh r : r ∈ watched (l_watch s) → ∃ e, l_heap s !! r = Some e ∧ e_settled e = None ∧ e_timed_out e = false ∧
    ∀ now, watch_now (l_watch s) = Some now → e_submitted e ≤ now;
  wa_entry r e : l_heap s !! r = Some e → e_submitted e ≤ l_clock s ∧ ∀ t, e_settled e = Some t → 0 < t ∧ e_submitted e ≤ t ∧ e_timed_out e = false
}.
(** The registry counts the entries made so far. *)
Record counted_ (s : ledger) : Prop := {
  co_submits op : count_of s SUBMITS op = tally (of_op op) (l_heap s);
  co_settled op : count_of s SETTLED op = tally (settled_op op) (l_heap s);
  co_timeouts op : count_of s TIMEOUTS op = tally (λ e, of_op op e && e_timed_out e) (l_heap s);
  co_hist op : default hist0 (l_hists s !! (LATENCY, op_label op)) = latency_hist op (l_heap s)
}.

(** *** Counting *)
Lemma zsum_insert {A} (f : A → Z) (l : list A) i x y : l !! i = Some x → zsum f (<[i := y]> l) = zsum f l - f x + f y.
Proof.
  revert i. induction l as [|z l IH]; intros [|i] E; cbn in E; try done.
  - injection E as ->. change (<[0%nat := y]> (x :: l)) with (y :: l). rewrite !zsum_cons. lia.
  - change (<[S i := y]> (z :: l)) with (z :: <[i := y]> l). rewrite !zsum_cons, (IH i E). lia.
Qed.
Lemma zip_with_map {A B C} (f : A → B → C) (g : A → B) (l : list A) : zip_with f l (map g l) = map (λ x, f x (g x)) l.
Proof. induction l as [|x l IH]; cbn; [done|]. by rewrite IH. Qed.
Lemma counter_inc m name op name' op' n : default 0 (inc name (op_label op) n m !! (name', op_label op')) =
  default 0 (m !! (name', op_label op')) + if bool_decide (name = name' ∧ op = op') then n else 0.
Proof.
  unfold inc. change (labels_key (op_label op)) with (op_label op). case_bool_decide as E.
  - destruct E as [-> ->]. rewrite lookup_insert_eq. cbn. lia.
  - rewrite lookup_insert_ne; [lia|]. unfold op_label. intros [= -> ->]. by apply E.
Qed.

(** An update that leaves operation, submission and settlement alone leaves the histogram alone. *)
Lemma hist_same op heap r e e' : heap !! r = Some e → e_op e' = e_op e → e_submitted e' = e_submitted e → e_settled e' = e_settled e →
  latency_hist op (<[r := e']> heap) = latency_hist op heap.
Proof.
  intros E E1 E2 E3. unfold latency_hist, tally. assert (settled_op op e' = settled_op op e ∧ latency_of e' = latency_of e) as [Es El] by (unfold settled_op, of_op, latency_of; rewrite E1, E2, E3; done).
  f_equal; [apply map_ext; intros b|..]; rewrite (zsum_insert _ _ _ _ _ E), Es, ?El; lia.
Qed.
Lemma hist_settle op heap r e now : heap !! r = Some e → e_settled e = None →
  latency_hist op (<[r := settle_entry_at now e]> heap) =
  if of_op op e then observe_hist (now - e_submitted e) (latency_hist op heap) else latency_hist op heap.
Proof.
  intros E En. assert (settled_op op e = false) as Es by (unfold settled_op; rewrite En; by destruct (of_op op e)).
  assert (settled_op op (settle_entry_at now e) = of_op op e) as Es' by (unfold settled_op; unfold of_op; cbn; by rewrite andb_true_r).
  assert (latency_of (settle_entry_at now e) = now - e_submitted e) as El by done.
  assert (∀ b, tally (λ e, settled_op op e && (latency_of e <=? b)) (<[r := settle_entry_at now e]> heap) =
    if of_op op e && (now - e_submitted e <=? b) then tally (λ e, settled_op op e && (latency_of e <=? b)) heap + 1 else tally (λ e, settled_op op e && (latency_of e <=? b)) heap) as Hb.
  { intros b. unfold tally. rewrite (zsum_insert _ _ _ _ _ E), Es, Es', El. destruct (of_op op e && _); cbn; lia. }
  unfold latency_hist at 1. rewrite (map_ext _ _ Hb). unfold tally. rewrite !(zsum_insert _ _ _ _ _ E), Es, Es', El.
  destruct (of_op op e); unfold observe_hist, latency_hist, tally; cbn [h_buckets h_sum h_count andb]; [rewrite zip_with_map; f_equal; lia|f_equal; lia].
Qed.
Lemma hist_push op heap e : e_settled e = None → latency_hist op (heap ++ [e]) = latency_hist op heap.
Proof.
  intros En. assert (settled_op op e = false) as Es by (unfold settled_op; rewrite En; by destruct (of_op op e)).
  unfold latency_hist, tally. f_equal; [apply map_ext; intros b|..]; rewrite zsum_app, zsum_cons, zsum_nil, Es; cbn; lia.
Qed.
Lemma hist_observe (name op op' : string) (v : Z) (m : gmap metric hist) : name = LATENCY →
  default hist0 (observe name (op_label op) v m !! (LATENCY, op_label op')) =
  if bool_decide (op = op') then observe_hist v (default hist0 (m !! (LATENCY, op_label op'))) else default hist0 (m !! (LATENCY, op_label op')).
Proof.
  intros ->. unfold observe. change (labels_key (op_label op)) with (op_label op). case_bool_decide as E; [subst; by rewrite lookup_insert_eq|].
  rewrite lookup_insert_ne; [done|]. unfold op_label. by intros [= ->].
Qed.
Lemma observe_time_other (name op : string) (v : option Z) (m : gmap metric hist) (op' : string) : name ≠ LATENCY → observe_time name op v m !! (LATENCY, op_label op') = m !! (LATENCY, op_label op').
Proof. intros Hn. destruct v as [x|]; [|done]. cbn. unfold observe. rewrite lookup_insert_ne; [done|]. by intros [= ? _]. Qed.

(** *** Each action keeps the count *)
Lemma counted_refuse i s : counted_ s → counted_ (refused i s).
Proof.
  intros [H1 H2 H3 H4]. unfold refused. destruct (find_id _ _ _) as [[r e]|] eqn:Ef; [|by split].
  assert (l_heap s !! r = Some e) as E. { revert Ef. induction (l_refs s) as [|x l IH]; cbn; [done|]. repeat case_match; try done. by intros [= -> ->]. }
  split; intros op; unfold count_of; cbn [l_counters l_hists l_heap]; unfold tally; rewrite ?counter_inc, ?(hist_same _ _ _ _ _ E), ?(zsum_insert _ _ _ _ _ E) by done;
    rewrite ?bool_decide_false by (by intros [? _]).
  - unfold count_of, tally in H1. rewrite H1. unfold of_op. cbn. lia.
  - unfold count_of, tally in H2. rewrite H2. unfold settled_op, of_op. cbn. lia.
  - unfold count_of, tally in H3. rewrite H3. unfold of_op. cbn. lia.
  - apply H4.
Qed.
Lemma counted_mark now r e b open s : l_heap s !! r = Some e → e_settled e = None → e_timed_out e = false → counted_ s → counted_ (watch_mark now r e b open s).
Proof.
  intros E Es Et [H1 H2 H3 H4]. unfold watch_mark. unfold count_of, tally in *. destruct b; [|case_match; [|by split]].
  - split; intros op; unfold count_of, tally; cbn [l_counters l_hists l_heap]; rewrite ?counter_inc, ?hist_observe, ?(hist_settle _ _ _ _ _ E Es), ?(zsum_insert _ _ _ _ _ E) by done; rewrite ?H1, ?H2, ?H3, ?H4.
    + rewrite bool_decide_false by (by intros [? _]). unfold of_op. cbn. lia.
    + unfold settled_op, of_op. cbn. rewrite Es. cbn. rewrite andb_false_r, andb_true_r. repeat case_bool_decide; naive_solver lia.
    + rewrite bool_decide_false by (by intros [? _]). unfold of_op. cbn. lia.
    + unfold of_op. repeat case_bool_decide; done.
  - split; intros op; unfold count_of, tally; cbn [l_counters l_hists l_heap]; rewrite ?counter_inc, ?(hist_same _ _ _ _ _ E), ?(zsum_insert _ _ _ _ _ E) by done; rewrite ?H1, ?H2, ?H3.
    + rewrite bool_decide_false by (by intros [? _]). unfold of_op. cbn. lia.
    + rewrite bool_decide_false by (by intros [? _]). unfold settled_op, of_op. cbn. lia.
    + unfold of_op. cbn. rewrite Et, andb_false_r, andb_true_r. repeat case_bool_decide; naive_solver lia.
    + apply H4.
Qed.
Lemma counted_build t tag detail check s : counted_ s → counted_ (track_build t tag detail check s).
Proof.
  intros [H1 H2 H3 H4]. unfold count_of, tally in *. split; intros op; unfold count_of, tally; cbn [track_build l_counters l_hists l_heap];
    rewrite ?counter_inc, ?hist_push, ?zsum_app, ?zsum_cons, ?zsum_nil by done; rewrite ?H1, ?H2, ?H3.
  - unfold of_op. cbn [e_op]. rewrite (bool_decide_ext (SUBMITS = SUBMITS ∧ op_name tag = op) (op_name tag = op)) by naive_solver. case_bool_decide; lia.
  - rewrite bool_decide_false by (by intros [? _]). assert (settled_op op (Entry (l_seq s) (op_name tag) detail (l_clock s) None false false check) = false) as -> by (unfold settled_op; cbn; apply andb_false_r). lia.
  - rewrite bool_decide_false by (by intros [? _]). cbn [e_timed_out]. rewrite andb_false_r. lia.
  - apply H4.
Qed.
Lemma counted_relay t e out s : counted_ s → counted_ (submit_relay t e out s).
Proof.
  intros H. unfold submit_relay. destruct out; [|apply counted_refuse|]; destruct H as [H1 H2 H3 H4]; split; auto.
  intros op. cbn [l_hists l_heap]. rewrite !observe_time_other by done. apply H4.
Qed.

(** *** Pruning drops resolved entries only *)
Lemma remove_sublist heap x l : remove_equal heap x l `sublist_of` l.
Proof. induction l as [|r l IH]; cbn; [done|]. case_decide; [by apply sublist_cons|by apply sublist_skip]. Qed.
Lemma remove_keeps heap x l r : r ∈ l → heap !! r ≠ heap !! x → r ∈ remove_equal heap x l.
Proof. induction l as [|y l IH]; cbn; [done|]. intros [->|H]%elem_of_cons Hne; case_decide; set_solver. Qed.
Definition dicts (heap : list entry) (l : list nat) : list (option entry) := map (λ r, heap !! r) l.
Lemma remove_perm heap x l : heap !! x ∈ dicts heap l → dicts heap l ≡ₚ heap !! x :: dicts heap (remove_equal heap x l).
Proof.
  induction l as [|y l IH]; cbn; [set_solver|]. intros Hx. case_decide as E; [by rewrite E|]. cbn.
  apply elem_of_cons in Hx as [Hx|Hx]; [by rewrite Hx in E|]. unfold dicts in IH. rewrite (IH Hx) at 1. apply Permutation_swap.
Qed.
Lemma removes_perm heap xs l : dicts heap xs ⊆+ dicts heap l →
  dicts heap l ≡ₚ dicts heap xs ++ dicts heap (foldl (λ l x, remove_equal heap x l) l xs).
Proof.
  revert l. induction xs as [|x xs IH]; intros l Hs; [done|]. cbn [foldl]. change (dicts heap (x :: xs)) with (heap !! x :: dicts heap xs) in *.
  assert (heap !! x ∈ dicts heap l) as Hx by (eapply elem_of_submseteq; [|exact Hs]; set_solver).
  pose proof (remove_perm heap x l Hx) as HP. rewrite HP in Hs. apply (submseteq_app_inv_l _ _ [heap !! x]) in Hs.
  rewrite HP at 1. cbn [app]. constructor. by apply IH.
Qed.
Lemma resolved_dicts heap l : length (resolved_refs heap l) = length (filter (λ v, from_option is_resolved false v = true) (dicts heap l)).
Proof. unfold resolved_refs, dicts. induction l as [|r l IH]; [done|]. cbn [map]. rewrite !filter_cons. case_decide; cbn; by rewrite ?IH. Qed.

Lemma pruned_resolved heap l x : x ∈ take (length (resolved_refs heap l) - LEDGER_KEEP) (resolved_refs heap l) → ∃ e, heap !! x = Some e ∧ is_resolved e = true.
Proof.
  intros Hx. apply (subseteq_take (length (resolved_refs heap l) - LEDGER_KEEP)) in Hx. apply list_elem_of_filter in Hx as [Hx _].
  destruct (heap !! x) as [e|]; [by exists e|done].
Qed.
Lemma removes_sublist heap xs l : foldl (λ l x, remove_equal heap x l) l xs `sublist_of` l.
Proof. revert l. induction xs as [|x xs IH]; intros l; cbn; [done|]. etransitivity; [apply IH|apply remove_sublist]. Qed.
Lemma prune_sublist heap l : prune_ledger heap l `sublist_of` l.
Proof. apply removes_sublist. Qed.
Lemma prune_keeps heap l r e : r ∈ l → heap !! r = Some e → is_resolved e = false → r ∈ prune_ledger heap l.
Proof.
  intros Hr E He. unfold prune_ledger. assert (∀ x, x ∈ take (length (resolved_refs heap l) - LEDGER_KEEP) (resolved_refs heap l) → heap !! r ≠ heap !! x) as Hne.
  { intros x (e' & Ex & Hx)%pruned_resolved. rewrite E, Ex. intros [= ->]. congruence. }
  revert Hr Hne. generalize (take (length (resolved_refs heap l) - LEDGER_KEEP) (resolved_refs heap l)) as xs. intros xs. revert l.
  induction xs as [|x xs IH]; intros l Hr Hne; cbn; [done|]. apply IH; [apply remove_keeps; [done|]; apply Hne|intros y Hy; apply Hne]; set_solver.
Qed.
(** After a submission the ledger holds at most the keep window of resolved entries. *)
Lemma prune_bound heap l : (length (resolved_refs heap (prune_ledger heap l)) ≤ LEDGER_KEEP)%nat.
Proof.
  set (xs := take (length (resolved_refs heap l) - LEDGER_KEEP) (resolved_refs heap l)).
  assert (dicts heap l ≡ₚ dicts heap xs ++ dicts heap (prune_ledger heap l)) as HP.
  { apply removes_perm. unfold dicts. apply fmap_submseteq, sublist_submseteq. etransitivity; [apply sublist_take|apply sublist_filter]. }
  pose proof (resolved_dicts heap l) as El. rewrite HP, filter_app, length_app, <- (resolved_dicts heap (prune_ledger heap l)) in El.
  assert (length (filter (λ v, from_option is_resolved false v = true) (dicts heap xs)) = length xs) as Ex.
  { rewrite filter_all; [unfold dicts; apply length_map|]. intros v (x & -> & Hx)%list_elem_of_fmap. apply pruned_resolved in Hx as (e & -> & He). exact He. }
  rewrite Ex in El. unfold xs in El. rewrite length_take in El. lia.
Qed.

(** *** Each action keeps open entries listed *)
Lemma listed_same s s' : l_heap s' = l_heap s → l_refs s' = l_refs s → (∀ t, (l_threads s' !! t ≫= unlisted) = (l_threads s !! t ≫= unlisted)) → listed s → listed s'.
Proof.
  intros E1 E2 E3 [H1 H2 H3 H4 H5]. split; rewrite ?E1, ?E2; [done|..|done|].
  - intros t t' r. rewrite !E3. apply H2.
  - intros t r. rewrite E3. apply H3.
  - intros r e Hr He. destruct (H5 r e Hr He) as [?|[t Ht]]; [by left|]. right. exists t. by rewrite E3.
Qed.
Lemma listed_update s s' r e : l_heap s' = <[r := e]> (l_heap s) → is_resolved e = true → l_refs s' = l_refs s → l_threads s' = l_threads s → listed s → listed s'.
Proof.
  intros E1 He E2 E3 [H1 H2 H3 H4 H5]. split; rewrite ?E1, ?E2, ?E3, ?length_insert; try done. intros r' e' Hr' He'.
  apply list_lookup_insert_Some in Hr' as [(<- & <- & _)|[_ Hr']]; [congruence|eauto].
Qed.
Lemma find_id_heap heap i l r e : find_id heap i l = Some (r, e) → r ∈ l ∧ heap !! r = Some e ∧ e_id e = i.
Proof.
  induction l as [|x l IH]; cbn; [done|]. intros H. repeat case_match; try (destruct (IH H); set_solver). injection H as -> ->. split; [set_solver|]. split; [done|lia].
Qed.
Lemma listed_refuse i s : listed s → listed (refused i s).
Proof. intros H. unfold refused. destruct (find_id _ _ _) as [[r e]|]; [|done]. eapply listed_update; try done. unfold is_resolved. cbn. apply orb_true_r. Qed.
Lemma listed_build t tag detail check s : l_threads s !! t = None → listed s → listed (track_build t tag detail check s).
Proof.
  intros Ht [H1 H2 H3 H4 H5].
  assert (∀ t' r, (l_threads (track_build t tag detail check s) !! t' ≫= unlisted) = Some r → t' = t ∧ r = length (l_heap s) ∨ t' ≠ t ∧ (l_threads s !! t' ≫= unlisted) = Some r) as Hth.
  { intros t' r. cbn. destruct (decide (t' = t)) as [->|]; [rewrite lookup_insert_eq; cbn; intros [= <-]; auto|rewrite lookup_insert_ne by done; auto]. }
  split; cbn [track_build l_heap l_refs]; rewrite ?length_app; cbn [length].
  - done.
  - intros t1 t2 r [[-> E1]|[? E1]]%Hth [[-> E2]|[? E2]]%Hth; [done|apply H3 in E2; lia|apply H3 in E1; lia|eauto].
  - intros t1 r [[-> ->]|[? E1]]%Hth; [split; [lia|]; intros Hin%H4; lia|apply H3 in E1 as [? ?]; split; [lia|done]].
  - intros r Hr%H4. lia.
  - intros r e Hr He. apply lookup_app_Some in Hr as [Hr|[Hr Hr']].
    + destruct (H5 r e Hr He) as [?|[t1 E1]]; [by left|]. right. exists t1. cbn. rewrite lookup_insert_ne; [done|]. intros <-. by rewrite Ht in E1.
    + right. exists t. cbn. rewrite lookup_insert_eq. cbn. apply list_lookup_singleton_Some in Hr' as [? _]. f_equal. lia.
Qed.
Lemma listed_append t r s : l_threads s !! t = Some (Bumped r) → listed s → listed (track_append t r s).
Proof.
  intros Ht [H1 H2 H3 H4 H5]. destruct (H3 t r) as [Hr Hnot]; [by rewrite Ht|].
  assert (∀ t' r', (l_threads (track_append t r s) !! t' ≫= unlisted) = Some r' → t' ≠ t ∧ (l_threads s !! t' ≫= unlisted) = Some r') as Hth.
  { intros t' r'. cbn. destruct (decide (t' = t)) as [->|]; [by rewrite lookup_insert_eq|by rewrite lookup_insert_ne]. }
  pose proof (prune_sublist (l_heap s) (l_refs s ++ [r])) as Hsub. assert (∀ x, x ∈ prune_ledger (l_heap s) (l_refs s ++ [r]) → x ∈ l_refs s ∨ x = r) as Hin.
  { intros x Hx. pose proof (elem_of_sublist _ _ _ Hx Hsub). set_solver. }
  split; cbn [track_append l_heap l_refs].
  - eapply sublist_NoDup; [|exact Hsub]. apply NoDup_app. split_and!; [done|set_solver|apply NoDup_singleton].
  - intros t1 t2 x [_ E1]%Hth [_ E2]%Hth. eauto.
  - intros t1 x [Hne E1]%Hth. split; [by eapply H3|]. intros [Hx| ->]%Hin; [by eapply H3 in E1 as [_ ?]|]. apply Hne. eapply (H2 t1 t r); [done|by rewrite Ht].
  - intros x [Hx| ->]%Hin; auto.
  - intros x e Hx He. destruct (H5 x e Hx He) as [Hl|[t1 E1]]; [left; eapply prune_keeps; try done; set_solver|].
    destruct (decide (t1 = t)) as [->|Hne]; [rewrite Ht in E1; injection E1 as <-; left; eapply prune_keeps; try done; set_solver|].
    right. exists t1. cbn. by rewrite lookup_insert_ne.
Qed.

(** *** Each action keeps what the watcher holds *)
Lemma watching_update s s' r e e' : l_heap s !! r = Some e → l_heap s' = <[r := e']> (l_heap s) → l_clock s' = l_clock s → l_watch s' = l_watch s →
  e_submitted e' = e_submitted e → e_settled e' = e_settled e → e_timed_out e' = e_timed_out e → watching s → watching s'.
Proof.
  intros E E1 E2 E3 F1 F2 F3 [H1 H2 H3 H4 H5]. split; rewrite ?E1, ?E2, ?E3; try done.
  - intros x Hx. destruct (H4 x Hx) as (ex & Ex & G). destruct (decide (x = r)) as [->|].
    + exists e'. rewrite list_lookup_insert_eq by (by eapply lookup_lt_Some). split; [done|]. rewrite F1, F2, F3. assert (ex = e) as -> by congruence. done.
    + exists ex. by rewrite list_lookup_insert_ne.
  - intros x ex Hx. apply list_lookup_insert_Some in Hx as [(<- & <- & _)|[_ Hx]]; [|eauto]. rewrite F1, F2, F3. eauto.
Qed.
Lemma watching_refuse i s : watching s → watching (refused i s).
Proof. intros H. unfold refused. destruct (find_id _ _ _) as [[r e]|] eqn:Ef; [|done]. apply find_id_heap in Ef as (_ & E & _). by eapply watching_update. Qed.
Lemma watching_mark now r e b open s : l_watch s = Answered now r b open → l_heap s !! r = Some e → watching s → watching (watch_mark now r e b open s).
Proof.
  intros Ew E [H1 H2 H3 H4 H5]. rewrite Ew in *. cbn in *. apply NoDup_cons in H3 as [Hr H3]. destruct (H2 now eq_refl) as [Hn Hn'].
  destruct (H4 r ltac:(set_solver)) as (e1 & E1 & Es & Et & Hsub). assert (e1 = e) as -> by congruence. specialize (Hsub now eq_refl).
  assert (∀ e', e_submitted e' = e_submitted e → (∀ t, e_settled e' = Some t → 0 < t ∧ e_submitted e' ≤ t ∧ e_timed_out e' = false) → ∀ c h,
    watching (Ledger c h (<[r := e']> (l_heap s)) (l_refs s) (l_seq s) (l_clock s) (l_threads s) (Visiting now open))) as Hup.
  { intros e' F1 F2 c h. split; cbn; try done.
    - intros x Hx. destruct (H4 x ltac:(set_solver)) as (ex & Ex & G). exists ex. rewrite list_lookup_insert_ne; [done|]. by intros <-.
    - intros x ex Hx. apply list_lookup_insert_Some in Hx as [(<- & <- & _)|[_ Hx]]; [|eauto]. rewrite F1. split; [exact (proj1 (H5 r e E))|rewrite <- F1; done]. }
  unfold watch_mark. destruct b; [|case_match].
  - apply Hup; [done|]. cbn. intros t [= <-]. done.
  - apply Hup; [done|]. cbn. by rewrite Es.
  - split; cbn; try done. intros x Hx. apply H4. set_solver.
Qed.

(** *** Every history *)
Lemma counted_act a s s' : watching s → do_act a s = Some s' → counted_ s → counted_ s'.
Proof.
  intros [_ _ _ Hf _] Hd H. destruct a; cbn in Hd; repeat case_match; simplify_eq; try (by destruct H; split).
  - by apply counted_build.
  - apply fmap_Some in Hd as (e & _ & ->). by apply counted_relay.
  - unfold watch_ask. destruct H. repeat case_match; by split.
  - apply fmap_Some in Hd as (e & E & ->). destruct (Hf r) as (e' & E' & Es & Et & _); [set_solver|]. simplify_eq. by apply counted_mark.
Qed.
Lemma listed_act a s s' : watching s → do_act a s = Some s' → listed s → listed s'.
Proof.
  intros Hw Hd H. destruct a; cbn in Hd; repeat case_match; simplify_eq; try (by destruct H; split).
  - by apply listed_build.
  - eapply listed_same; [..|exact H]; try done. intros t'. cbn. destruct (decide (t' = t)) as [->|]; [by rewrite lookup_insert_eq, H0|by rewrite lookup_insert_ne].
  - by apply listed_append.
  - apply fmap_Some in Hd as (e & E & ->). set (s0 := Ledger (l_counters s) (l_hists s) (l_heap s) (l_refs s) (l_seq s) (l_clock s) (delete t (l_threads s)) (l_watch s)).
    assert (listed s0) as Hs0. { eapply listed_same; [..|exact H]; try done. intros t'. cbn. destruct (decide (t' = t)) as [->|]; [by rewrite lookup_delete_eq, H0|by rewrite lookup_delete_ne]. }
    unfold submit_relay. fold s0. destruct out; [|by apply listed_refuse|done]. destruct Hs0; by split.
  - unfold watch_ask. destruct H. repeat case_match; by split.
  - apply fmap_Some in Hd as (e & E & ->). unfold watch_mark. destruct (wa_now s Hw now) as [Hn _]; [by rewrite H0|]. repeat case_match.
    + eapply listed_update; [done| |done..|done]. unfold is_resolved. cbn. destruct (Z.eqb_spec now 0); [lia|done].
    + eapply listed_update; [done| |done..|done]. unfold is_resolved. cbn. by destruct (stamped _).
    + destruct H; by split.
Qed.
Lemma watching_act a s s' : listed s → do_act a s = Some s' → watching s → watching s'.
Proof.
  intros Hl Hd H. destruct a; cbn in Hd; repeat case_match; simplify_eq; try (by destruct H; split).
  - destruct H as [H1 H2 H3 H4 H5]. split; cbn; try done; [lia|intros now E; specialize (H2 now E); lia|]. intros r e E. destruct (H5 r e E). split; [lia|done].
  - destruct H as [H1 H2 H3 H4 H5]. split; cbn; try done.
    + intros r Hr. destruct (H4 r Hr) as (e & E & He). exists e. split; [|done]. by apply lookup_app_l_Some.
    + intros r e E. apply lookup_app_Some in E as [E|[_ E]]; [eauto|]. apply list_lookup_singleton_Some in E as [_ <-]. cbn. split; [lia|done].
  - apply fmap_Some in Hd as (e & _ & ->). unfold submit_relay. destruct out; [|apply watching_refuse|]; destruct H; by split.
  - destruct H as [H1 H2 H3 H4 H5]. unfold scan. split; cbn; try done; [intros now [= <-]; lia|apply NoDup_filter, (li_nodup s Hl)|].
    intros r [Hr _]%list_elem_of_filter. destruct (l_heap s !! r) as [e|] eqn:E; [|done]. cbn in Hr. unfold entry_open in Hr. exists e. apply andb_true_iff in Hr as [Hr Ht].
    apply andb_true_iff in Hr as [_ Hs]. destruct (H5 r e E) as [Hc Hst]. split; [done|]. split; [|split; [by destruct (e_timed_out e)|by intros now [= <-]]].
    destruct (e_settled e) as [t|] eqn:Es; [|done]. destruct (Hst t eq_refl) as [? _]. cbn in Hs. destruct (Z.eqb_spec t 0); [lia|done].
  - destruct H as [H1 H2 H3 H4 H5]. unfold watch_ask, set_watch.
    match goal with W : l_watch s = Visiting ?now (?r :: ?open) |- _ => assert (watched (l_watch s) = r :: open ∧ watch_now (l_watch s) = Some now) as [E1 E2] by (by rewrite W) end. rewrite E1, E2 in *.
    apply NoDup_cons in H3 as [? ?]. repeat case_match; split; cbn; try done; try (intros x Hx; apply H4; set_solver); by constructor.
  - apply fmap_Some in Hd as (e & E & ->). by eapply watching_mark.
  - destruct H as [H1 H2 H3 H4 H5]. split; cbn; try done; [constructor|set_solver].
Qed.

Lemma run_acts_cons a acts s s' : run_acts (a :: acts) s = Some s' ↔ ∃ s1, do_act a s = Some s1 ∧ run_acts acts s1 = Some s'.
Proof.
  unfold run_acts. cbn. assert (foldl (λ s a, s ≫= do_act a) None acts = None) as Hn by (induction acts; done).
  destruct (do_act a s) as [s1|]; cbn; [naive_solver|]. rewrite Hn. naive_solver.
Qed.
Lemma run_acts_ind (P : ledger → Prop) acts s s' : (∀ a s s', do_act a s = Some s' → P s → P s') → run_acts acts s = Some s' → P s → P s'.
Proof. intros HP. revert s. induction acts as [|a acts IH]; intros s; [by intros [= <-]|]. intros (s1 & H1 & H2)%run_acts_cons Hs. eauto. Qed.

Record sound (s : ledger) : Prop := { so_counted : counted_ s; so_listed : listed s; so_watching : watching s }.
Lemma sound_act a s s' : do_act a s = Some s' → sound s → sound s'.
Proof. intros Hd [H1 H2 H3]. split; eauto using counted_act, listed_act, watching_act. Qed.
Lemma sound_init clock : 0 < clock → sound (ledger0 clock).
Proof.
  intros Hc. split; [by split|..]; (split; cbn; try done; try apply NoDup_nil_2; try set_solver).
Qed.
Lemma sound_run clock acts s : 0 < clock → run_acts acts (ledger0 clock) = Some s → sound s.
Proof. intros Hc Hr. eapply run_acts_ind; [exact sound_act|exact Hr|by apply sound_init]. Qed.

(** ** Results *)

(** The metrics and the ledger tell the truth in every interleaving of requests and the watcher: each operation's submit, settle
    and timeout counters are the numbers of its entries made, settled and timed out; its latency histogram is the distribution
    of its settled entries' latencies (every bucket, the sum, the count); no entry is settled before it was submitted, none is
    both settled and timed out; and an entry not resolved yet is in the ledger, or its thread is about to append it. *)
Theorem ledger_exact clock acts s : 0 < clock → run_acts acts (ledger0 clock) = Some s →
  (∀ op, count_of s SUBMITS op = tally (of_op op) (l_heap s) ∧ count_of s SETTLED op = tally (settled_op op) (l_heap s) ∧
    count_of s TIMEOUTS op = tally (λ e, of_op op e && e_timed_out e) (l_heap s) ∧
    default hist0 (l_hists s !! (LATENCY, op_label op)) = latency_hist op (l_heap s)) ∧
  (∀ r e, l_heap s !! r = Some e → (∀ t, e_settled e = Some t → e_submitted e ≤ t ∧ e_timed_out e = false) ∧
    (is_resolved e = false → r ∈ l_refs s ∨ ∃ t, (l_threads s !! t ≫= unlisted) = Some r)).
Proof.
  intros Hc Hr. destruct (sound_run _ _ _ Hc Hr) as [[H1 H2 H3 H4] Hl Hw]. split; [done|]. intros r e E. split; [|by apply (li_kept s Hl)].
  intros t Ht. destruct (wa_entry s Hw r e E) as [_ Hs]. destruct (Hs t Ht) as (_ & ? & ?). done.
Qed.

(** A refused entry has no predicate left, and an answer the watcher got before cannot time it out unless it was already old. *)
Definition safe_refused (r : nat) (t0 : Z) (s : ledger) : Prop :=
  (∃ e, l_heap s !! r = Some e ∧ e_refused e = true ∧ e_check e = None ∧ e_timed_out e = false ∧ e_submitted e = t0) ∧
  match l_watch s with Answered now r' _ _ => r' = r → now - t0 ≤ SETTLE_TIMEOUT | _ => True end.
Lemma safe_heap r t0 s s' : l_heap s' = l_heap s → l_watch s' = l_watch s → safe_refused r t0 s → safe_refused r t0 s'.
Proof. intros E1 E2. unfold safe_refused. by rewrite E1, E2. Qed.
Lemma safe_refuse r t0 i s : safe_refused r t0 s → safe_refused r t0 (refused i s).
Proof.
  intros [(e & E & H1 & H2 & H3 & H4) Hw]. unfold refused. destruct (find_id _ _ _) as [[r' e']|] eqn:Ef; [|split; eauto 10]. apply find_id_heap in Ef as (_ & E' & _).
  split; [|done]. cbn. destruct (decide (r' = r)) as [->|]; [|exists e; by rewrite list_lookup_insert_ne].
  simplify_eq. exists (refuse_entry e). rewrite list_lookup_insert_eq by (by eapply lookup_lt_Some). done.
Qed.
Lemma watch_ask_heap now r open answer s : l_heap (watch_ask now r open answer s) = l_heap s.
Proof. unfold watch_ask. by repeat case_match. Qed.
Lemma safe_act r t0 a s s' : do_act a s = Some s' → safe_refused r t0 s → safe_refused r t0 s'.
Proof.
  intros Hd H. destruct a; cbn in Hd; repeat case_match; simplify_eq; try (by eapply safe_heap; [..|exact H]).
  - destruct H as [(e & E & H) Hw]. split; [|done]. exists e. split; [|done]. by apply lookup_app_l_Some.
  - apply fmap_Some in Hd as (e & _ & ->). unfold submit_relay. destruct out; [|apply safe_refuse|]; by eapply safe_heap; [..|exact H].
  - by destruct H.
  - destruct H as [(e & E & H1 & H2 & H3 & H4) Hw]. split; [rewrite watch_ask_heap; by exists e|]. unfold watch_ask.
    destruct (l_heap s !! n) as [e'|] eqn:E'; cbn; [|done]. destruct (e_check e') eqn:Ec; [|done]. destruct answer; [|done]. cbn. intros ->. congruence.
  - apply fmap_Some in Hd as (e' & E' & ->). destruct H as [(e & E & H1 & H2 & H3 & H4) Hw]. rewrite H0 in Hw. unfold watch_mark, safe_refused. destruct (decide (r0 = r)) as [->|].
    + assert (e' = e) as -> by congruence. subst t0. specialize (Hw eq_refl). destruct done_; cbn; [|destruct (Z.ltb_spec SETTLE_TIMEOUT (now - e_submitted e)); [lia|cbn; eauto 10]].
      split; [|done]. exists (settle_entry_at now e). rewrite list_lookup_insert_eq by (by eapply lookup_lt_Some). done.
    + repeat case_match; cbn; (split; [exists e; rewrite ?list_lookup_insert_ne by done; done|done]).
  - by destruct H.
Qed.
Lemma refused_unchecked a s s' : do_act a s = Some s' → (∀ r e, l_heap s !! r = Some e → e_refused e = true → e_check e = None) →
  ∀ r e, l_heap s' !! r = Some e → e_refused e = true → e_check e = None.
Proof.
  assert (∀ i s, (∀ r e, l_heap s !! r = Some e → e_refused e = true → e_check e = None) → ∀ r e, l_heap (refused i s) !! r = Some e → e_refused e = true → e_check e = None) as Href.
  { intros i s0 H r e. unfold refused. destruct (find_id _ _ _) as [[x ex]|]; [|apply H]. cbn. intros [(_ & <- & _)|[_ E]]%list_lookup_insert_Some; [done|eauto]. }
  intros Hd H. destruct a; cbn in Hd; repeat case_match; simplify_eq; try done; intros r' e'.
  - cbn. intros [E|[_ E]]%lookup_app_Some; [eauto|]. apply list_lookup_singleton_Some in E as [_ <-]. done.
  - apply fmap_Some in Hd as (x & _ & ->). unfold submit_relay. destruct out; [apply H|apply Href, H|apply H].
  - rewrite watch_ask_heap. apply H.
  - apply fmap_Some in Hd as (x & E & ->). unfold watch_mark. repeat case_match; cbn; [..|apply H]; intros [(_ & <- & _)|[_ E']]%list_lookup_insert_Some; cbn; eauto.
Qed.

(** (C27) A refused submission never becomes a false settle-timeout: if a payload every guarantor refused is marked so within the
    timeout of its submission, then whatever the threads do next, also when the watcher holds the entry already, it stays
    refused and is never counted as timed out. *)
Theorem refused_never_times_out clock acts s r e acts' s' :
  run_acts acts (ledger0 clock) = Some s → l_heap s !! r = Some e → e_refused e = true → e_timed_out e = false →
  (∀ now, watch_now (l_watch s) = Some now → now ≤ e_submitted e + SETTLE_TIMEOUT) → run_acts acts' s = Some s' →
  ∃ e', l_heap s' !! r = Some e' ∧ e_refused e' = true ∧ e_timed_out e' = false ∧ state_of e' = SRefused.
Proof.
  intros Hr E He Ht Hnow Hr'. assert (e_check e = None) as Hc.
  { revert E He. generalize r e. eapply (run_acts_ind (λ s, ∀ r e, l_heap s !! r = Some e → e_refused e = true → e_check e = None)); [apply refused_unchecked|exact Hr|done]. }
  assert (safe_refused r (e_submitted e) s') as [(e' & ? & H1 & ? & ? & ?) _].
  { eapply run_acts_ind; [apply safe_act|exact Hr'|]. split; [by exists e|]. destruct (l_watch s); try done. intros _. specialize (Hnow now eq_refl). lia. }
  exists e'. unfold state_of. by rewrite H1.
Qed.

(** *** One tick of the watcher *)
Definition stamp (now : Z) (answer : option bool) (e : entry) : entry :=
  match answer with
  | None => e
  | Some true => settle_entry_at now e
  | Some false => if SETTLE_TIMEOUT <? now - e_submitted e then time_out e else e
  end.
Definition visits (ans : nat → option bool) (open : list nat) : list act :=
  flat_map (λ r, match ans r with Some b => [Ask (Some b); Mark] | None => [Ask None] end) open.

Lemma visits_run ans now open s : NoDup open → l_watch s = Visiting now open → (∀ r, r ∈ open → ∃ e, l_heap s !! r = Some e ∧ is_Some (e_check e)) →
  ∃ s', run_acts (visits ans open) s = Some s' ∧ l_watch s' = Visiting now [] ∧ l_refs s' = l_refs s ∧
    ∀ r, l_heap s' !! r = (if bool_decide (r ∈ open) then stamp now (ans r) else id) <$> (l_heap s !! r).
Proof.
  revert s. induction open as [|r open IH]; intros s Hnd Hw Hop.
  { exists s. split_and!; try done. intros r. rewrite bool_decide_false by set_solver. by rewrite option_fmap_id. }
  apply NoDup_cons in Hnd as [Hr Hnd]. destruct (Hop r ltac:(set_solver)) as (e & E & [k Ek]).
  assert (∃ s1, run_acts (match ans r with Some b => [Ask (Some b); Mark] | None => [Ask None] end) s = Some s1 ∧ l_watch s1 = Visiting now open ∧ l_refs s1 = l_refs s ∧
    l_heap s1 = <[r := stamp now (ans r) e]> (l_heap s)) as (s1 & Hs1 & Hw1 & Hf1 & Hh1).
  { destruct (ans r) as [b|]; unfold run_acts; cbn; rewrite Hw; cbn; unfold watch_ask; rewrite E; cbn; rewrite Ek; cbn.
    - rewrite E. cbn. unfold watch_mark. destruct b; [by eexists|]. cbn [stamp]. case_match; [by eexists|]. exists (set_watch (Visiting now open) (set_watch (Answered now r false open) s)).
      split_and!; try done. cbn. by rewrite list_insert_id.
    - exists (set_watch (Visiting now open) s). split_and!; try done. cbn. by rewrite list_insert_id. }
  destruct (IH s1 Hnd Hw1) as (s' & Hs' & Hw' & Hf' & Hh').
  { intros x Hx. rewrite Hh1, list_lookup_insert_ne by (intros ->; done). apply Hop. set_solver. }
  exists s'. split_and!; [|done|congruence|].
  - cbn [visits flat_map]. unfold run_acts in *. rewrite foldl_app, Hs1. exact Hs'.
  - intros x. rewrite Hh', Hh1. destruct (decide (x = r)) as [->|Hne].
    + rewrite list_lookup_insert_eq by (by eapply lookup_lt_Some). rewrite E, (bool_decide_true (r ∈ r :: open)), (bool_decide_false (r ∈ open)) by set_solver. done.
    + rewrite list_lookup_insert_ne by done. by rewrite (bool_decide_ext (x ∈ r :: open) (x ∈ open)) by set_solver.
Qed.

(** A tick of the watcher visits every open entry: it settles those whose predicate holds, and an entry older than the
    timeout whose predicate answers is not open afterwards. *)
Theorem tick_resolves clock acts s ans : 0 < clock → run_acts acts (ledger0 clock) = Some s → l_watch s = Idle →
  ∃ s', run_acts (Scan :: visits ans (filter (λ r, from_option entry_open false (l_heap s !! r) = true) (l_refs s)) ++ [Sleep]) s = Some s' ∧ l_watch s' = Idle ∧
    ∀ r e, r ∈ l_refs s → l_heap s !! r = Some e → entry_open e = true →
      ∃ e', l_heap s' !! r = Some e' ∧ e' = stamp (l_clock s) (ans r) e ∧ (ans r ≠ None → e_submitted e + SETTLE_TIMEOUT < l_clock s → entry_open e' = false).
Proof.
  intros Hc Hr Hw. destruct (sound_run _ _ _ Hc Hr) as [_ Hl Hwa]. set (open := filter _ _).
  destruct (visits_run ans (l_clock s) open (scan s)) as (s1 & H1 & Hw1 & _ & Hh1); [apply NoDup_filter, (li_nodup s Hl)|done|..].
  { intros r [Ho Hi]%list_elem_of_filter. cbn. destruct (l_heap s !! r) as [e|]; [|done]. exists e. split; [done|]. cbn in Ho. unfold entry_open in Ho.
    apply andb_true_iff in Ho as [[Ho _]%andb_true_iff _]. by apply bool_decide_eq_true in Ho. }
  exists (set_watch Idle s1). split_and!; [|done|].
  - apply run_acts_cons. exists (scan s). split; [cbn; by rewrite Hw|]. unfold run_acts in *. rewrite foldl_app, H1. cbn. by rewrite Hw1.
  - intros r e Hi E Ho. cbn. rewrite Hh1. cbn. rewrite E, bool_decide_true by (apply list_elem_of_filter; rewrite E; done). eexists. split; [done|]. split; [done|].
    intros Ha Hold. pose proof (wa_clock s Hwa). unfold entry_open. destruct (ans r) as [[|]|]; cbn; [..|done].
    + destruct (Z.eqb_spec (l_clock s) 0); [lia|]. cbn. by rewrite andb_false_r.
    + destruct (Z.ltb_spec SETTLE_TIMEOUT (l_clock s - e_submitted e)); [|lia]. cbn. apply andb_false_r.
Qed.

(** ** Runs *)
Module LedgerRuns.
Definition submit_ok (t : nat) (tag : Z) (check : option positive) : list act := [Begin t tag "" check; Bump t; Append t; Relay t (Receipt None None)].
(** Two requests at once: the second takes its id before the first has moved the count_of. *)
Definition race : list act := [Begin 1 1 "deposit" (Some 1%positive); Begin 2 5 "withdraw" (Some 2%positive); Bump 1; Bump 2; Append 1; Append 2; Relay 1 (Receipt None None); Relay 2 Refusal].
(** A deposit, and a hundred rounds after it *)
Definition busy : list act := submit_ok 1 1 (Some 1%positive) ++ concat (replicate 100 (Tick 2 :: submit_ok 2 12 None)).
Definition mixed : list act := submit_ok 1 1 (Some 1%positive) ++ [Tick 5; Scan; Begin 2 5 "" (Some 2%positive); Ask (Some true); Bump 2; Mark; Append 2; Sleep; Scan; Ask (Some false); Relay 2 Refusal; Tick 700].
Definition after (acts : list act) : ledger := default (ledger0 1) (run_acts acts (ledger0 1)).
Definition later : ledger := default (ledger0 1) (run_acts [Mark; Sleep; Scan; Sleep] (after mixed)).
Definition refused_one : entry := Entry 1 "withdraw" "" 6 None false true None.
Lemma runs (x : option ledger) : match x with Some _ => true | None => false end = true → x = Some (default (ledger0 1) x).
Proof. by destruct x. Qed.
Lemma sample_runs : run_acts mixed (ledger0 1) = Some (after mixed).
Proof. apply runs. vm_compute. reflexivity. Qed.
Lemma later_runs : run_acts [Mark; Sleep; Scan; Sleep] (after mixed) = Some later.
Proof. apply runs. vm_compute. reflexivity. Qed.
Lemma sample_refused : l_heap (after mixed) !! 1%nat = Some refused_one.
Proof. vm_compute. reflexivity. Qed.
Lemma sample_now now : watch_now (l_watch (after mixed)) = Some now → now ≤ 6 + SETTLE_TIMEOUT.
Proof. assert (watch_now (l_watch (after mixed)) = Some 6) as -> by (vm_compute; reflexivity). intros [= <-]. done. Qed.
End LedgerRuns.

(** Taking the id is not under the lock: two requests can get one id, and then the refusal of one marks the other, which the
    chain accepted, while the refused one stays open until it times out. *)
Lemma track_race : ∃ e1 e2, l_heap (LedgerRuns.after LedgerRuns.race) !! 0%nat = Some e1 ∧ l_heap (LedgerRuns.after LedgerRuns.race) !! 1%nat = Some e2 ∧
  e_id e1 = e_id e2 ∧ e_op e1 = "deposit"%string ∧ state_of e1 = SRefused ∧ e_op e2 = "withdraw"%string ∧ state_of e2 = SPending.
Proof. vm_compute. by do 2 eexists. Qed.
(** The view shows the newest hundred entries, resolved or not: a deposit still pending is not among them after a hundred rounds. *)
Lemma pending_hidden : (∃ e, l_heap (LedgerRuns.after LedgerRuns.busy) !! 0%nat = Some e ∧ entry_open e = true) ∧ 0%nat ∈ l_refs (LedgerRuns.after LedgerRuns.busy) ∧
  forallb (λ v, negb (bool_decide (sh_state v = SPending))) (pending_snapshot (LedgerRuns.after LedgerRuns.busy)) = true.
Proof.
  split; [eexists; split; vm_compute; reflexivity|]. split; [|vm_compute; reflexivity]. apply (bool_decide_eq_true_1 _). vm_compute. reflexivity.
Qed.

Lemma ledger_exact_witness : count_of (LedgerRuns.after LedgerRuns.mixed) SETTLED "deposit" = tally (settled_op "deposit") (l_heap (LedgerRuns.after LedgerRuns.mixed)).
Proof. exact (proj1 (proj2 (proj1 (ledger_exact 1 LedgerRuns.mixed _ Z.lt_0_1 LedgerRuns.sample_runs) "deposit"%string))). Defined.
Lemma refused_never_times_out_witness : ∃ e', l_heap LedgerRuns.later !! 1%nat = Some e' ∧ e_refused e' = true ∧ e_timed_out e' = false ∧ state_of e' = SRefused.
Proof.
  exact (refused_never_times_out 1 LedgerRuns.mixed _ 1 LedgerRuns.refused_one [Mark; Sleep; Scan; Sleep] _ LedgerRuns.sample_runs LedgerRuns.sample_refused
    eq_refl eq_refl LedgerRuns.sample_now LedgerRuns.later_runs).
Defined.
