(* ===== verification/Tape.v ===== *)
(** * The trade tape

    src/offchain/server.py: the per-market history of clearing prints ([record_trade], [_prune_trades], [load_trades],
    [api_trades]).  A print is added whenever a look at the chain finds the market's cumulative volume larger than every
    volume seen before; prints older than a day, and all but the newest 500, roll off.  Reads of the chain are arguments and
    may fail.  Prices and volumes are atomic; the file's JSON is the tape itself. *)
From S2P Require Import Prelude.

Definition TRADE_HISTORY : nat := 500.
Definition TRADE_TTL : Z := 24 * 3600.
Inductive direction := Flat | Up | Down.
Record print := MkPrint { t_ts : Z; t_price : Z; t_volume : Z; t_dir : direction }.
(** One market's deque and the last cumulative volume seen *)
Record tape := Tape { tp_prints : list print; tp_last : option Z }.
Definition tape0 : tape := Tape [] None.

(** The newest [n] entries: what a deque with that [maxlen] keeps *)
Definition newest {A} (n : nat) (l : list A) : list A := drop (length l - n) l.
Definition push_print (p : print) (l : list print) : list print := newest TRADE_HISTORY (l ++ [p]).
(** [_prune_trades]: from the left, while older than a day *)
Fixpoint prune_trades (now : Z) (l : list print) : list print :=
  match l with [] => [] | p :: rest => if t_ts p <? now - TRADE_TTL then prune_trades now rest else l end.

(** What a look reads: the cumulative volume, the clock, the last price *)
Record tape_look := Look { k_cv : result Z; k_now : Z; k_lp : result Z }.
Definition direction_of (prev : option Z) (price : Z) : direction :=
  match prev with None => Flat | Some q => if price =? q then Flat else if q <? price then Up else Down end.
Definition record_trade (k : tape_look) : SE tape unit :=
  cv ← se_lift (k_cv k);
  t ← se_get id;
  match tp_last t with
  | None => se_put (λ t, Tape (tp_prints t) (Some cv))
  | Some prev =>
      if prev <? cv then
        price ← se_lift (k_lp k);
        se_put (λ t, Tape (prune_trades (k_now k) (push_print (MkPrint (k_now k) price (cv - prev) (direction_of (t_price <$> last (tp_prints t)) price)) (tp_prints t))) (Some cv))
      else mret tt
  end.
(** [auction_loop] looks at every market each round and goes on after a failure *)
Definition look_at (t : tape) (k : tape_look) : tape := (record_trade k t).2.

(** [api_trades]: prunes, then shows the newest first *)
Record trade_metrics := TradeMetrics { tm_volume : Z; tm_trades : nat; tm_high : option Z; tm_low : option Z }.
Definition bound_of (f : Z → Z → Z) (l : list Z) : option Z := match l with [] => None | x :: l => Some (foldl f x l) end.
Definition trades_reply (l : list print) : list print * trade_metrics :=
  (take 100 (reverse l), TradeMetrics (zsum t_volume l) (length l) (bound_of Z.max (map t_price l)) (bound_of Z.min (map t_price l))).
Definition api_trades (now : Z) (t : tape) : (list print * trade_metrics) * tape :=
  let l := prune_trades now (tp_prints t) in (trades_reply l, Tape l (tp_last t)).

(** [load_trades], at a restart: the prints of the file that are not older than a day; the volume seen is not kept *)
Definition load_trades (now : Z) (saved : list print) : tape := Tape (newest TRADE_HISTORY (filter (λ p, now - TRADE_TTL ≤ t_ts p) saved)) None.

(** ** Everything the looks print *)
Definition emits (k : tape_look) (t : tape) : option print :=
  match k_cv k, tp_last t, k_lp k with
  | Ok cv, Some prev, Ok price => if prev <? cv then Some (MkPrint (k_now k) price (cv - prev) (direction_of (t_price <$> last (tp_prints t)) price)) else None
  | _, _, _ => None
  end.
Fixpoint emitted (ks : list tape_look) (t : tape) : list print :=
  match ks with [] => [] | k :: ks => match emits k t with Some p => [p] | None => [] end ++ emitted ks (look_at t k) end.

Lemma look_at_emits k t : look_at t k =
  match emits k t with
  | Some p => Tape (prune_trades (k_now k) (push_print p (tp_prints t))) (match k_cv k with Ok cv => Some cv | Raise _ => tp_last t end)
  | None => match k_cv k, tp_last t with Ok cv, None => Tape (tp_prints t) (Some cv) | _, _ => t end
  end.
Proof.
  unfold look_at, record_trade, emits, mbind, SE_bind, se_lift, se_get. destruct (k_cv k) as [cv|]; cbn; [|by destruct t]. destruct (tp_last t) as [prev|] eqn:E; [|done].
  destruct (prev <? cv), (k_lp k), t; cbn in *; by rewrite ?E.
Qed.

(** The volumes printed add up to the growth of the volume since the first look that read it, up to the largest volume seen. *)
Lemma emitted_volume ks t prev : tp_last t = Some prev →
  ∃ top, tp_last (foldl look_at t ks) = Some top ∧ zsum t_volume (emitted ks t) = top - prev ∧ Forall (λ p, 0 < t_volume p) (emitted ks t) ∧ prev ≤ top ∧
    ∀ k cv price, k ∈ ks → k_cv k = Ok cv → k_lp k = Ok price → cv ≤ top.
Proof.
  revert t prev. induction ks as [|k ks IH]; intros t prev Hl; cbn [foldl emitted]; [exists prev; rewrite zsum_nil; split_and!; [done|lia|constructor|lia|intros ? ? ? []%not_elem_of_nil]|].
  assert (∀ t' prev', tp_last t' = Some prev' → (∀ cv price, k_cv k = Ok cv → k_lp k = Ok price → cv ≤ prev') → ∃ top, tp_last (foldl look_at t' ks) = Some top ∧
    zsum t_volume (emitted ks t') = top - prev' ∧ Forall (λ p, 0 < t_volume p) (emitted ks t') ∧ prev' ≤ top ∧ ∀ x cv price, x ∈ k :: ks → k_cv x = Ok cv → k_lp x = Ok price → cv ≤ top) as Hgo.
  { intros t' prev' Hl' Hk. destruct (IH t' prev' Hl') as (top & H1 & H2 & H3 & H4 & H5). exists top. split_and!; try done. intros x cv price [->|Hx]%elem_of_cons E1 E2; [|eauto]. specialize (Hk cv price E1 E2). lia. }
  rewrite look_at_emits. unfold emits. destruct (k_cv k) as [cv|], (k_lp k) as [price|]; rewrite ?Hl; cbn [app]; try (by apply Hgo).
  destruct (Z.ltb_spec prev cv) as [Hlt|Hle]; [|apply Hgo; [done|]; intros ? ? [= <-] _; done].
  match goal with |- context [foldl look_at ?t' ks] => destruct (Hgo t' cv eq_refl) as (top & H1 & H2 & H3 & H4 & H5) end; [intros ? ? [= <-] _; lia|].
  exists top. split; [exact H1|]. cbn [app]. rewrite zsum_cons, H2. split_and!; [cbn; lia| |lia|done]. constructor; [cbn; lia|done].
Qed.

(** Pruning drops old entries only, and of a list in time order all of them. *)
Lemma prune_split now l : ∃ d, l = d ++ prune_trades now l ∧ ∀ p, p ∈ d → t_ts p < now - TRADE_TTL.
Proof.
  induction l as [|p l (d & E & Hd)]; [by exists []; split; [|intros ? []%not_elem_of_nil]|]. cbn [prune_trades]. destruct (Z.ltb_spec (t_ts p) (now - TRADE_TTL)).
  - exists (p :: d). cbn. rewrite <- E. split; [done|]. intros q [->|Hq]%elem_of_cons; auto.
  - exists []. split; [done|]. intros ? []%not_elem_of_nil.
Qed.
Definition in_day (now : Z) (p : print) : Prop := now - TRADE_TTL ≤ t_ts p.
#[global] Instance in_day_dec now p : Decision (in_day now p).
Proof. unfold in_day. apply _. Defined.
Lemma prune_sorted now l : StronglySorted (λ p q, t_ts p ≤ t_ts q) l → prune_trades now l = filter (in_day now) l.
Proof.
  induction 1 as [|p l Hs IH Hp]; [done|]. cbn [prune_trades]. destruct (Z.ltb_spec (t_ts p) (now - TRADE_TTL)).
  - rewrite filter_cons_False by (unfold in_day; lia). done.
  - symmetry. apply filter_all. rewrite Forall_forall in Hp. unfold in_day. intros q [->|Hq]%elem_of_cons; [lia|]. specialize (Hp q Hq). lia.
Qed.

Lemma newest_app {A} n (l : list A) x : newest n (l ++ [x]) = newest n (newest n l ++ [x]).
Proof.
  unfold newest. rewrite !length_app, length_drop. cbn [length]. destruct (decide (length l < n)%nat).
  - replace (length l - n)%nat with 0%nat by lia. rewrite drop_0. f_equal. lia.
  - replace (length l - (length l - n) + 1 - n)%nat with 1%nat by lia. replace (length l + 1 - n)%nat with (1 + (length l - n))%nat by lia.
    rewrite <- (drop_app_le l [x] (length l - n)) by lia. rewrite drop_drop. f_equal. lia.
Qed.
(** The tape is what the newest prints leave after old ones. *)
Definition windowed (since : Z) (all tape_ : list print) : Prop := ∃ old, newest TRADE_HISTORY all = old ++ tape_ ∧ ∀ p, p ∈ old → t_ts p < since - TRADE_TTL.
Lemma windowed_push since now all l p : since ≤ now → windowed since all l → windowed now (all ++ [p]) (prune_trades now (push_print p l)).
Proof.
  intros Hle (old & E & Hold). assert (length (old ++ l) ≤ TRADE_HISTORY)%nat as Hlen by (rewrite <- E; unfold newest; rewrite length_drop; lia). rewrite length_app in Hlen.
  destruct (prune_split now (push_print p l)) as (d & Ed & Hd). assert (∃ old', newest TRADE_HISTORY (all ++ [p]) = old' ++ push_print p l ∧ ∀ q, q ∈ old' → q ∈ old) as (old' & E' & Hin).
  { rewrite newest_app, E. unfold push_print, newest. rewrite !length_app. cbn [length]. destruct old as [|x old].
    - exists []. split; [done|set_solver].
    - cbn [length] in *. replace (length l + 1 - TRADE_HISTORY)%nat with 0%nat by lia. rewrite drop_0. destruct (decide (S (length old) + length l + 1 ≤ TRADE_HISTORY)%nat).
      + exists (x :: old). replace (S (length old) + length l + 1 - TRADE_HISTORY)%nat with 0%nat by lia. by rewrite drop_0, <- app_assoc.
      + exists old. replace (S (length old) + length l + 1 - TRADE_HISTORY)%nat with 1%nat by lia. cbn. rewrite drop_0, <- app_assoc. split; [done|set_solver]. }
  exists (old' ++ d). rewrite E', <- app_assoc, <- Ed. split; [done|]. intros q [Hq|Hq]%elem_of_app; [|auto]. specialize (Hold q (Hin q Hq)). lia.
Qed.

(** Looks in time order *)
Fixpoint in_order (since : Z) (ks : list tape_look) : Prop := match ks with [] => True | k :: ks => since ≤ k_now k ∧ in_order (k_now k) ks end.
Fixpoint ends_at (since : Z) (ks : list tape_look) : Z := match ks with [] => since | k :: ks => ends_at (k_now k) ks end.

Lemma looks_windowed ks since t all : in_order since ks → windowed since all (tp_prints t) → windowed (ends_at since ks) (all ++ emitted ks t) (tp_prints (foldl look_at t ks)).
Proof.
  revert since t all. induction ks as [|k ks IH]; intros since t all Ho Hw; cbn [foldl emitted ends_at]; [by rewrite app_nil_r|]. destruct Ho as [Hk Ho]. rewrite app_assoc. apply IH; [done|].
  rewrite look_at_emits. destruct (emits k t) as [p|]; [by eapply windowed_push|]. rewrite app_nil_r. assert (windowed (k_now k) all (tp_prints t)) as Hw'.
  { destruct Hw as (old & E & Hold). exists old. split; [done|]. intros p Hp. specialize (Hold p Hp). lia. }
  by destruct (k_cv k), (tp_last t).
Qed.
Lemma ends_at_ge since ks : in_order since ks → since ≤ ends_at since ks.
Proof. revert since. induction ks as [|k ks IH]; intros since; cbn; [lia|]. intros [? ?%IH]. lia. Qed.
Lemma emits_now k t p : emits k t = Some p → t_ts p = k_now k.
Proof. unfold emits. repeat case_match; try done. by intros [= <-]. Qed.
Lemma emitted_sorted ks since t : in_order since ks → Forall (λ p, since ≤ t_ts p) (emitted ks t) ∧ StronglySorted (λ p q, t_ts p ≤ t_ts q) (emitted ks t).
Proof.
  revert since t. induction ks as [|k ks IH]; intros since t; cbn [emitted]; [split; constructor|]. intros [Hk Ho]. destruct (IH (k_now k) (look_at t k) Ho) as [Hf Hs].
  destruct (emits k t) as [p|] eqn:E; cbn [app].
  - apply emits_now in E. split; constructor; [lia| |done|]; (eapply Forall_impl; [exact Hf|]); cbn; lia.
  - split; [|done]. eapply Forall_impl; [exact Hf|]. cbn. lia.
Qed.
Lemma sorted_suffix {A} (R : A → A → Prop) l k : StronglySorted R (l ++ k) → StronglySorted R k.
Proof. induction l; cbn; [done|]. inversion 1; auto. Qed.

(** (C28) The tape is the last day of trading, counted once: after any looks at the chain in time order, with reads that may fail and volumes
    that may fall back in a re-org, the prints shown are exactly those of the last 24 hours among the newest 500 made; every
    print has a positive volume; and the volumes of all prints add up to the growth of the market's cumulative volume from the
    first look to the largest volume seen. *)
Theorem tape_window ks k0 cv0 now since :
  in_order since (k0 :: ks) → ends_at since (k0 :: ks) ≤ now → k_cv k0 = Ok cv0 →
  let t := foldl look_at tape0 (k0 :: ks) in let all := emitted (k0 :: ks) tape0 in
  (api_trades now t).1 = trades_reply (filter (in_day now) (newest TRADE_HISTORY all)) ∧
  ∃ top, tp_last t = Some top ∧ zsum t_volume all = top - cv0 ∧ Forall (λ p, 0 < t_volume p) all ∧ cv0 ≤ top ∧
    (∀ k cv price, k ∈ ks → k_cv k = Ok cv → k_lp k = Ok price → cv ≤ top).
Proof.
  intros Ho Hnow Hcv t all. split.
  - assert (windowed (ends_at since (k0 :: ks)) all (tp_prints t)) as (old & E & Hold). { apply (looks_windowed (k0 :: ks) since tape0 []); [done|]. by exists []; split; [|intros ? []%not_elem_of_nil]. }
    destruct (emitted_sorted (k0 :: ks) since tape0 Ho) as [_ Hs]. fold all in Hs. cbn [api_trades fst]. f_equal. rewrite E, filter_app.
    assert (StronglySorted (λ p q, t_ts p ≤ t_ts q) (newest TRADE_HISTORY all)) as Hs' by (eapply sorted_suffix; unfold newest; rewrite take_drop; exact Hs).
    rewrite E in Hs'. apply sorted_suffix in Hs'. rewrite (prune_sorted now _ Hs'), (filter_none (in_day now) old); [done|]. intros p Hp. unfold in_day. specialize (Hold p Hp). lia.
  - unfold t, all. cbn [foldl emitted]. rewrite look_at_emits. unfold emits. rewrite Hcv. cbn [tp_last tape0 app]. by apply emitted_volume.
Qed.

(** A restart loses the volume traded while the server was down: the first look after it only notes the volume. *)
Lemma restart_seeds now saved k cv : k_cv k = Ok cv → look_at (load_trades now saved) k = Tape (tp_prints (load_trades now saved)) (Some cv).
Proof. intros E. rewrite look_at_emits. unfold emits. by rewrite E. Qed.

Module TapeSample.
(** The volume grows, a read fails, a re-org takes volume back, and it grows again. *)
Definition looks : list tape_look := [Look (Ok 150) 10 (Ok 7); Look (Ok 180) 20 (Raise (ChainError "busy")); Look (Ok 180) 30 (Ok 9); Look (Ok 120) 40 (Ok 7); Look (Ok 170) 50 (Ok 8); Look (Ok 200) 90000 (Ok 8)].
Definition first : tape_look := Look (Ok 100) 5 (Ok 7).
End TapeSample.
Example tape_shows : (api_trades 90001 (foldl look_at tape0 (TapeSample.first :: TapeSample.looks))).1 = ([MkPrint 90000 8 20 Down], TradeMetrics 20 1 (Some 8) (Some 8)).
Proof. reflexivity. Qed.
Lemma tape_window_witness : zsum t_volume (emitted (TapeSample.first :: TapeSample.looks) tape0) = 200 - 100.
Proof.
  destruct (tape_window TapeSample.looks TapeSample.first 100 90001 0) as (_ & top & Ht & Hv & _); [cbn; lia|cbn; lia|reflexivity|].
  rewrite Hv. vm_compute in Ht. injection Ht as <-. reflexivity.
Defined.
