(* ===== verification/Telemetry.v ===== *)
(** * Per-order lifecycle telemetry and the soak verdict

    [Telemetry] models src/offchain/order_telemetry.py: the live records, the rolling SLO
    tallies, and the JSONL event log, one operation per call of the module.  [Verdict] models
    src/offchain/soak_verdict.py: [load], [judge] and [score] over that log.

    Results: an order never moves again after its terminal; the verdict finds in the log exactly the
    orders the server holds open, and as many stuck as the live gauge calls stale; and how the live
    SLO tallies sit inside the verdict's classes (an order filled after it rested, and an owner's
    cancel, are counted by the verdict only).

    Times are integers in one unit (the log's milliseconds).  Left out: printing, the Prometheus
    counters that only count calls, and a write to the log that fails (the code swallows the
    OSError and the line is lost). *)
From S2P Require Import Prelude.

Inductive phase : Type := placed | rounded | deferred | rested.
#[global] Instance phase_eq_dec : EqDecision phase.
Proof. solve_decision. Defined.

Inductive outcome : Type := filled | partial_cancelled | cancelled | expired | rejected | lost.
#[global] Instance outcome_eq_dec : EqDecision outcome.
Proof. solve_decision. Defined.

(** [(market, account, oid)] *)
Notation okey := (Z * Z * Z)%type.

Module Telemetry.

(** The record of a live order. *)
Record rec := Rec {
  marketable : bool;
  rsealed : bool;
  placed_at : Z;
  rphase : phase;
  retries : Z;
  crossed : bool;
  last : Z;
  expires_at : option Z
}.

(** What a log line says besides its key, time and marketable flag. *)
Inductive event : Type :=
| EPlaced (hidden : bool)
| ERounded
| EReverted (n : Z)
| ERequeued (n : Z)
| EDeferred (reason : string)
| ERested (clearing : Z) (crossed : bool) (filled : Z) (expires : option Z)
| ETerminal (out : outcome) (filled : Z) (n : Z) (latency : Z) (reason : option string).

Record line := Line { l_ts : Z; l_key : okey; l_marketable : bool; l_event : event }.

Record state := State {
  orders : gmap okey rec;
  slo_cleared : Z;
  slo_missed : Z;
  log : list line
}.

Definition init : state := State ∅ 0 0 [].

(** A time is truthy when it is present and not zero. *)
Definition truthy (t : option Z) : bool :=
  match t with Some x => negb (x =? 0) | None => false end.

Definition expires_of (e : event) : option Z :=
  match e with ERested _ _ _ x => x | _ => None end.

(** [_log]: the line, and the record's last event (and a resting order's expiry). *)
Definition log_rec (now : Z) (k : okey) (r : rec) (e : event) : rec * line :=
  (Rec (marketable r) (rsealed r) (placed_at r) (rphase r) (retries r) (crossed r) now
     (if truthy (expires_of e) then expires_of e else expires_at r),
   Line now k (marketable r) e).

(** The calls of the module. *)
Inductive call : Type :=
| Placed (k : okey) (hidden mkt : bool)
| Rounded (k : okey)
| Reverted (k : okey)
| Requeued (k : okey)
| Deferred (k : okey) (reason : string)
| Rested (k : okey) (clearing : Z) (cr : bool) (f : Z) (expires : option Z)
| Terminal (k : okey) (out : outcome) (f : Z) (reason : option string).

Definition call_key (c : call) : okey :=
  match c with
  | Placed k _ _ | Rounded k | Reverted k | Requeued k | Deferred k _ | Rested k _ _ _ _
  | Terminal k _ _ _ => k
  end.

(** A call that updates a live record with [f] and logs [e] of the updated record. *)
Definition update (now : Z) (s : state) (k : okey) (f : rec → rec) (e : rec → event) : state :=
  match orders s !! k with
  | None => s
  | Some r =>
      let '(r', l) := log_rec now k (f r) (e (f r)) in
      State (<[k := r']> (orders s)) (slo_cleared s) (slo_missed s) (log s ++ [l])
  end.

Definition set_phase (p : phase) (r : rec) : rec :=
  Rec (marketable r) (rsealed r) (placed_at r) p (retries r) (crossed r) (last r) (expires_at r).
Definition retry (p : phase) (r : rec) : rec :=
  Rec (marketable r) (rsealed r) (placed_at r) p (retries r + 1) (crossed r) (last r) (expires_at r).
Definition rest (cr : bool) (r : rec) : rec :=
  Rec false (rsealed r) (placed_at r) rested (retries r) (crossed r || cr) (last r) (expires_at r).

(** [outcome in CLEARED], and the outcomes the live SLO counts as misses *)
Definition is_cleared (o : outcome) : bool := bool_decide (o = filled).
Definition live_missed (o : outcome) : bool :=
  match o with expired | lost | partial_cancelled | rejected => true | _ => false end.

(** [round(expires_at, 3) if expires_at else None] *)
Definition norm_expiry (x : option Z) : option Z := if truthy x then x else None.

Definition terminal (now : Z) (s : state) (k : okey) (out : outcome) (f : Z)
    (reason : option string) : state :=
  let r := match orders s !! k with
           | Some r => r
           | None => Rec false false now placed 0 false now None
           end in
  let c := if marketable r && is_cleared out then 1 else 0 in
  let mi := if marketable r && negb (is_cleared out) && live_missed out then 1 else 0 in
  State (delete k (orders s)) (slo_cleared s + c) (slo_missed s + mi)
    (log s ++ [Line now k (marketable r) (ETerminal out f (retries r) (now - placed_at r) reason)]).

Definition step (now : Z) (s : state) (c : call) : state :=
  match c with
  | Placed k hidden mkt =>
      let r := Rec mkt hidden now placed 0 false now None in
      let '(r', l) := log_rec now k r (EPlaced hidden) in
      State (<[k := r']> (orders s)) (slo_cleared s) (slo_missed s) (log s ++ [l])
  | Rounded k => update now s k (set_phase rounded) (λ _, ERounded)
  | Reverted k => update now s k (retry rounded) (λ r, EReverted (retries r))
  | Requeued k => update now s k (retry placed) (λ r, ERequeued (retries r))
  | Deferred k reason => update now s k (set_phase deferred) (λ _, EDeferred reason)
  | Rested k clearing cr f expires =>
      update now s k (rest cr) (λ _, ERested clearing cr f (norm_expiry expires))
  | Terminal k out f reason => terminal now s k out f reason
  end.

Definition is_open (s : state) (k : okey) : bool :=
  match orders s !! k with Some _ => true | None => false end.

(** A run: calls with the times they are made at. *)
Definition run (calls : list (Z * call)) (s : state) : state :=
  foldl (λ s '(now, c), step now s c) s calls.

(** [snapshot]: how late a live order is, and how many are stale. *)
Definition OPEN_GRACE : Z := 600000.
Definition late (now : Z) (r : rec) : Z :=
  match rphase r with
  | rested => if truthy (expires_at r) then now - default 0 (expires_at r) else 0
  | _ => now - last r
  end.
Definition stale (now : Z) (s : state) : Z :=
  Z.of_nat (length (filter (λ kr, OPEN_GRACE < late now kr.2) (map_to_list (orders s)))).
Definition open_count (s : state) : Z := Z.of_nat (size (orders s)).
End Telemetry.

Module Verdict.
Import Telemetry.

(** [load]: the events of each order, in file order *)
Fixpoint dict_append (k : okey) (e : line) (d : list (okey * list line)) : list (okey * list line) :=
  match d with
  | [] => [(k, [e])]
  | (k', es) :: rest => if decide (k = k') then (k', es ++ [e]) :: rest else (k', es) :: dict_append k e rest
  end.
Definition load (lines : list line) : list (okey * list line) :=
  foldl (λ d e, dict_append (l_key e) e d) [] lines.

Inductive class : Type := Resting | Open | Cleared | Missed | ExpiredNonmarketable | Other.
#[global] Instance class_eq_dec : EqDecision class.
Proof. solve_decision. Defined.

Definition is_placed (e : line) : bool := match l_event e with EPlaced _ => true | _ => false end.
Definition is_rested (e : line) : bool := match l_event e with ERested _ _ _ _ => true | _ => false end.
Definition is_terminal (e : line) : bool := match l_event e with ETerminal _ _ _ _ _ => true | _ => false end.

(** [e.get("retries", 0)] *)
Definition line_retries (e : line) : Z :=
  match l_event e with EReverted n | ERequeued n => n | ETerminal _ _ n _ _ => n | _ => 0 end.

Record verdict := V {
  v_marketable : bool;
  v_crossed : bool;
  v_sealed : bool;
  v_retries : Z;
  v_terminal : option outcome;
  v_latency : option Z;
  v_expires_at : option Z;
  v_class : class
}.

(** [outcome in MISSED] *)
Definition is_missed (o : outcome) : bool :=
  match o with filled => false | _ => true end.

Definition first_terminal (events : list line) : option line := head (filter (λ e, is_terminal e = true) events).

Definition judge (events : list line) : verdict :=
  let rests := filter (λ e, is_rested e = true) events in
  let mkt := match rests with [] => existsb l_marketable events | _ => false end in
  let cr := existsb (λ e, match l_event e with ERested _ c _ _ => c | _ => false end) rests in
  let hidden := match head (filter (λ e, is_placed e = true) events) with
                | Some e => match l_event e with EPlaced h => h | _ => false end
                | None => false
                end in
  let rt := foldr Z.max 0 (map line_retries events) in
  let exp := match list.last rests with Some e => expires_of (l_event e) | None => None end in
  match first_terminal events with
  | None =>
      let c := match list.last events with
               | Some e => if is_rested e then Resting else Open
               | None => Open
               end in
      V mkt cr hidden rt None None exp c
  | Some e =>
      match l_event e with
      | ETerminal out _ _ lat _ =>
          V mkt cr hidden rt (Some out) (Some lat) exp
            (if is_cleared out then Cleared
             else if is_missed out then (if mkt then Missed else ExpiredNonmarketable) else Other)
      | _ => V mkt cr hidden rt None None exp Other
      end
  end.

Definition max_ts (events : list line) : Z := foldr Z.max 0 (map l_ts events).

(** Is an order of this verdict stuck open at [now]? *)
Definition stuck (open_grace now : Z) (events : list line) : bool :=
  let v := judge events in
  match v_class v with
  | Open => open_grace <? now - max_ts events
  | Resting => truthy (v_expires_at v) && (open_grace <? now - default 0 (v_expires_at v))
  | _ => false
  end.

Definition count (f : list line → bool) (d : list (okey * list line)) : Z :=
  zsum (λ ke, if f ke.2 then 1 else 0) d.

(** The report's counts and its verdict; the SLO target is the fraction [num]/[den]. *)
Record report := Report {
  rp_seen : Z;
  rp_cleared : Z;
  rp_missed_terminal : Z;
  rp_stuck : Z;
  rp_sealed_stuck : Z;
  rp_pass : bool
}.

Definition in_class (c : class) (events : list line) : bool := bool_decide (v_class (judge events) = c).

Definition score (num den open_grace now : Z) (d : list (okey * list line)) : report :=
  let cleared := count (in_class Cleared) d in
  let missed_t := count (in_class Missed) d in
  let st := count (stuck open_grace now) d in
  let missed := missed_t + st in
  let total := cleared + missed in
  let slo_ok := if total =? 0 then num <=? den else num * total <=? cleared * den in
  let sealed_stuck := count (λ es, in_class Open es && v_sealed (judge es) && stuck open_grace now es) d in
  Report (Z.of_nat (length d)) cleared missed_t st sealed_stuck
    (slo_ok && (st =? 0) && (sealed_stuck =? 0)).
End Verdict.

(** ** The log read back *)
Module Replay.
Import Telemetry Verdict.

Definition get (k : okey) (d : list (okey * list line)) : list line :=
  match list_find (λ p, p.1 = k) d with Some (_, p) => p.2 | None => [] end.

Lemma get_cons k k' es d : get k ((k', es) :: d) = if decide (k' = k) then es else get k d.
Proof.
  unfold get. cbn. case_decide; [done|]. by destruct (list_find _ d) as [[? ?]|].
Qed.

Lemma get_append k k' e d : get k' (dict_append k e d) = if decide (k = k') then get k d ++ [e] else get k' d.
Proof.
  induction d as [|[k1 es] d IH]; cbn [dict_append].
  { rewrite get_cons. by destruct (decide (k = k')). }
  destruct (decide (k = k1)) as [->|Hne]; rewrite !get_cons.
  - destruct (decide (k1 = k')); [by rewrite decide_True|done].
  - rewrite IH. repeat case_decide; congruence.
Qed.

Lemma load_snoc l e : load (l ++ [e]) = dict_append (l_key e) e (load l).
Proof. unfold load. by rewrite foldl_app. Qed.

Lemma append_keys k e d :
  map fst (dict_append k e d) = if decide (k ∈ map fst d) then map fst d else map fst d ++ [k].
Proof.
  induction d as [|[k1 es] d IH]; cbn [dict_append]; [done|].
  destruct (decide (k = k1)) as [->|Hne]; cbn.
  - by rewrite decide_True by set_solver.
  - rewrite IH. repeat case_decide; try done; exfalso; set_solver.
Qed.

Lemma load_nodup l : NoDup (map fst (load l)).
Proof.
  induction l as [|e l IH] using rev_ind; [constructor|]. rewrite load_snoc, append_keys.
  case_decide; [done|]. apply NoDup_app. split_and!; [done|set_solver|apply NoDup_singleton].
Qed.

Definition ind (b : bool) : Z := if b then 1 else 0.

(** Appending to one order's events changes only its own contribution to a count. *)
Lemma count_append f k e d :
  f [] = false → count f (dict_append k e d) = count f d - ind (f (get k d)) + ind (f (get k d ++ [e])).
Proof.
  intros Hf. unfold count, ind. induction d as [|[k1 es] d IH]; cbn [dict_append].
  { cbn. rewrite Hf. lia. }
  rewrite get_cons. destruct (decide (k = k1)) as [->|Hne].
  - rewrite decide_True by done. rewrite !zsum_cons. cbn [snd]. lia.
  - rewrite decide_False by congruence. rewrite !zsum_cons, IH. cbn [snd]. lia.
Qed.

(** ** How one line changes a verdict *)
Definition mkt (events : list line) : bool :=
  match filter (λ e, is_rested e = true) events with [] => existsb l_marketable events | _ => false end.

Lemma judge_mkt events : v_marketable (judge events) = mkt events.
Proof.
  unfold judge, mkt. destruct (first_terminal events) as [e|]; [|done]. by destruct (l_event e).
Qed.

Lemma mkt_snoc es e :
  is_rested e = false → l_marketable e = mkt es ∨ l_marketable e = false → mkt (es ++ [e]) = mkt es.
Proof.
  intros Hr Hm. unfold mkt in *. rewrite filter_app, filter_cons, decide_False by congruence.
  rewrite filter_nil, app_nil_r. destruct (filter _ es); [|done].
  rewrite existsb_app. cbn. destruct Hm as [->| ->]; destruct (existsb l_marketable es); done.
Qed.

Lemma mkt_rested es e : is_rested e = true → mkt (es ++ [e]) = false.
Proof.
  intros Hr. unfold mkt. rewrite filter_app, filter_cons, decide_True by done.
  by destruct (filter _ es).
Qed.

Lemma first_terminal_snoc es e :
  first_terminal (es ++ [e]) = match first_terminal es with
                               | Some t => Some t
                               | None => if is_terminal e then Some e else None
                               end.
Proof.
  unfold first_terminal. rewrite filter_app, filter_cons. destruct (filter _ es); cbn; [|done].
  destruct (is_terminal e); [by rewrite decide_True|by rewrite decide_False].
Qed.

(** The two contributions the live tallies count. *)
Definition counted_cleared (es : list line) : bool :=
  in_class Cleared es && v_marketable (judge es).
Definition counted_missed (es : list line) : bool :=
  in_class Missed es && bool_decide (v_terminal (judge es) ≠ Some cancelled).

(** They depend on the first terminal and the marketable flag only. *)
Lemma counted_eq es :
  match first_terminal es with
  | Some t => match l_event t with
              | ETerminal out _ _ _ _ =>
                  counted_cleared es = mkt es && is_cleared out ∧
                  counted_missed es = mkt es && negb (is_cleared out) && live_missed out
              | _ => True
              end
  | None => counted_cleared es = false ∧ counted_missed es = false
  end.
Proof.
  unfold counted_cleared, counted_missed, in_class. rewrite judge_mkt. unfold judge.
  destruct (first_terminal es) as [t|].
  - destruct (l_event t); try done. cbn [v_class v_terminal]. fold (mkt es).
    destruct out, (mkt es); split; vm_compute; reflexivity.
  - cbn [v_class]. destruct (list.last es) as [e|]; [destruct (is_rested e)|]; split; done.
Qed.

(** ** The live state and its log *)
Definition ev (s : state) (k : okey) : list line := get k (load (log s)).

(** A live record and the events logged for it. *)
Record tracks (r : rec) (es : list line) : Prop := {
  tr_open : first_terminal es = None;
  tr_mkt : mkt es = marketable r;
  tr_last : ∃ e, list.last es = Some e ∧ l_ts e = last r ∧ is_rested e = bool_decide (rphase r = rested);
  tr_max : max_ts es = last r;
  tr_expiry : rphase r = rested →
    match list.last (filter (λ e, is_rested e = true) es) with
    | Some e => expires_of (l_event e) = expires_at r
    | None => False
    end
}.

Record agrees (used : list okey) (clock : Z) (s : state) : Prop := {
  ag_live k r : orders s !! k = Some r → tracks r (ev s k);
  ag_dead k : orders s !! k = None → ev s k = [] ∨ is_Some (first_terminal (ev s k));
  ag_used k : ev s k ≠ [] → k ∈ used;
  ag_clock k e : e ∈ ev s k → 0 ≤ l_ts e ≤ clock;
  ag_cleared : slo_cleared s = count counted_cleared (load (log s));
  ag_missed : slo_missed s = count counted_missed (load (log s))
}.

Lemma ev_snoc orders' c m l e s k :
  log s = l → ev (State orders' c m (l ++ [e])) k = if decide (l_key e = k) then ev s (l_key e) ++ [e] else ev s k.
Proof. intros <-. unfold ev. cbn [log]. by rewrite load_snoc, get_append. Qed.

Lemma max_ts_snoc es e : (∀ x, x ∈ es → 0 ≤ l_ts x ≤ l_ts e) → 0 ≤ l_ts e → max_ts (es ++ [e]) = l_ts e.
Proof.
  intros H He. unfold max_ts. rewrite map_app, foldr_app. cbn.
  induction es as [|x es IH]; cbn; [lia|]. rewrite IH by set_solver.
  pose proof (H x ltac:(set_solver)). lia.
Qed.

(** A line of a non-terminal call, logged for the live record it updates. *)
Lemma agrees_line used clock s k (ro : option rec) r' e :
  agrees used clock s → orders s !! k = ro → l_key e = k → is_terminal e = false →
  clock ≤ l_ts e → 0 ≤ l_ts e → k ∈ used →
  (ro = None → ev s k = []) →
  mkt (ev s k ++ [e]) = marketable r' → l_ts e = last r' → is_rested e = bool_decide (rphase r' = rested) →
  (is_rested e = true → expires_of (l_event e) = expires_at r') →
  agrees used (l_ts e) (State (<[k := r']> (orders s)) (slo_cleared s) (slo_missed s) (log s ++ [e])).
Proof.
  intros [H1 H2 H3 H4 H5 H6] Hro Hk Ht Hc Hc0 Hu Hnone Hm Hl Hr Hx.
  assert (Hft : first_terminal (ev s k) = None).
  { destruct ro as [r|]; [by apply (H1 k r)|by rewrite Hnone]. }
  assert (Hnew : tracks r' (ev s k ++ [e])).
  { split.
    - by rewrite first_terminal_snoc, Hft, Ht.
    - done.
    - exists e. by rewrite last_snoc.
    - rewrite <- Hl. apply max_ts_snoc; [|done]. intros x Hxin. specialize (H4 k x Hxin). lia.
    - intros Hp. assert (Hre : is_rested e = true) by (rewrite Hr; by apply bool_decide_eq_true).
      rewrite filter_app, filter_cons, decide_True, filter_nil by done. rewrite last_snoc. auto. }
  assert (Hsame : ∀ g, (∀ es, match first_terminal es with None => g es = false | _ => True end) →
    count g (load (log s ++ [e])) = count g (load (log s))).
  { intros g Hg. rewrite load_snoc, count_append by (exact (Hg [])). rewrite Hk.
    fold (ev s k). pose proof (Hg (ev s k)) as G1. pose proof (Hg (ev s k ++ [e])) as G2.
    rewrite first_terminal_snoc, Hft, Ht in G2. rewrite Hft in G1. rewrite G1, G2. cbn. lia. }
  split; cbn [orders slo_cleared slo_missed log].
  - intros k' x. rewrite (ev_snoc _ _ _ _ _ s) by done. rewrite Hk. destruct (decide (k = k')) as [<-|Hne].
    + rewrite lookup_insert_eq. intros [= <-]. done.
    + rewrite lookup_insert_ne by done. apply H1.
  - intros k'. rewrite (ev_snoc _ _ _ _ _ s) by done. rewrite Hk. destruct (decide (k = k')) as [<-|Hne].
    + by rewrite lookup_insert_eq.
    + rewrite lookup_insert_ne by done. apply H2.
  - intros k'. rewrite (ev_snoc _ _ _ _ _ s) by done. rewrite Hk. destruct (decide (k = k')) as [<-|Hne]; auto.
  - intros k' x. rewrite (ev_snoc _ _ _ _ _ s) by done. rewrite Hk. destruct (decide (k = k')) as [<-|Hne].
    + intros [Hx'|Hx']%elem_of_app; [specialize (H4 _ _ Hx'); lia|]. apply list_elem_of_singleton in Hx' as ->. lia.
    + intros Hx'. specialize (H4 _ _ Hx'). lia.
  - rewrite Hsame; [done|]. intros es. pose proof (counted_eq es) as H. destruct (first_terminal es); tauto.
  - rewrite Hsame; [done|]. intros es. pose proof (counted_eq es) as H. destruct (first_terminal es); tauto.
Qed.

Lemma agrees_mono used used' clock clock' s :
  agrees used clock s → used ⊆ used' → clock ≤ clock' → agrees used' clock' s.
Proof.
  intros [H1 H2 H3 H4 H5 H6] Hu Hc. split; try done; [set_solver|].
  intros k e He. specialize (H4 k e He). lia.
Qed.

(** What the code's callers respect: an order id is placed once and first, and a resting order
    is reported with its expiry. *)
Definition well_called (used : list okey) (c : call) : Prop :=
  match c with
  | Placed k _ _ => k ∉ used
  | Rested _ _ _ _ x => truthy x = true
  | _ => True
  end.

Lemma terminal_agrees used clock s now k out f reason :
  agrees used clock s → clock ≤ now → 0 ≤ now → agrees (k :: used) now (terminal now s k out f reason).
Proof.
  intros Hag Hc Hn. pose proof Hag as [H1 H2 H3 H4 H5 H6]. unfold terminal.
  set (r := match orders s !! k with Some r => r | None => _ end).
  set (e := Line now k (marketable r) (ETerminal out f (retries r) (now - placed_at r) reason)).
  assert (Hm : mkt (ev s k ++ [e]) = mkt (ev s k) ∧ (first_terminal (ev s k) = None → mkt (ev s k) = marketable r)).
  { unfold r in *. destruct (orders s !! k) as [r0|] eqn:Ho.
    - pose proof (tr_mkt _ _ (H1 k r0 Ho)) as Ht. split; [|done]. apply mkt_snoc; [done|]. left. cbn. done.
    - split; [apply mkt_snoc; [done|by right]|]. intros Hft. destruct (H2 k Ho) as [->|[t Ht]]; [done|congruence]. }
  destruct Hm as [Hm Hm'].
  assert (Hcount : ∀ g (d : Z), g [] = false →
    ind (g (ev s k ++ [e])) = ind (g (ev s k)) + d → count g (load (log s ++ [e])) = count g (load (log s)) + d).
  { intros g d Hg Hd. rewrite load_snoc, count_append by done. fold (ev s k). cbn [l_key e]. fold (ev s k).
    rewrite Hd. lia. }
  pose proof (counted_eq (ev s k)) as Hold. pose proof (counted_eq (ev s k ++ [e])) as Hnew.
  rewrite first_terminal_snoc, Hm in Hnew.
  assert (Hdelta : ind (counted_cleared (ev s k ++ [e])) = ind (counted_cleared (ev s k)) +
      (if marketable r && is_cleared out then 1 else 0) ∧
    ind (counted_missed (ev s k ++ [e])) = ind (counted_missed (ev s k)) +
      (if marketable r && negb (is_cleared out) && live_missed out then 1 else 0)).
  { destruct (first_terminal (ev s k)) as [t|] eqn:Hft.
    - assert (marketable r = false) as ->.
      { unfold r. destruct (orders s !! k) as [r0|] eqn:Ho; [|done].
        rewrite (tr_open _ _ (H1 k r0 Ho)) in Hft. done. }
      cbn [andb]. unfold first_terminal in Hft.
      assert (is_terminal t = true) as Hit.
      { assert (t ∈ filter (λ e, is_terminal e = true) (ev s k)) as Hin.
        { destruct (filter _ (ev s k)) as [|x l]; [done|]. injection Hft as ->. set_solver. }
        by apply list_elem_of_filter in Hin as [? _]. }
      unfold is_terminal in Hit. destruct (l_event t); try done.
      destruct Hold as [-> ->], Hnew as [-> ->]. lia.
    - cbn in Hnew. destruct Hold as [-> ->], Hnew as [-> ->]. rewrite Hm' by done. unfold ind. split.
      + by destruct (marketable r && is_cleared out).
      + by destruct (marketable r && negb (is_cleared out) && live_missed out). }
  destruct Hdelta as [Hd1 Hd2].
  split; cbn [orders slo_cleared slo_missed log].
  - intros k' x. rewrite (ev_snoc _ _ _ _ _ s) by done. cbn [l_key e]. destruct (decide (k = k')) as [<-|Hne].
    + by rewrite lookup_delete_eq.
    + rewrite lookup_delete_ne by done. apply H1.
  - intros k'. rewrite (ev_snoc _ _ _ _ _ s) by done. cbn [l_key e]. destruct (decide (k = k')) as [<-|Hne].
    + intros _. right. rewrite first_terminal_snoc. destruct (first_terminal (ev s k)); [by eexists|]. cbn. by eexists.
    + rewrite lookup_delete_ne by done. apply H2.
  - intros k'. rewrite (ev_snoc _ _ _ _ _ s) by done. cbn [l_key e]. destruct (decide (k = k')) as [<-|Hne]; set_solver.
  - intros k' x. rewrite (ev_snoc _ _ _ _ _ s) by done. cbn [l_key e]. destruct (decide (k = k')) as [<-|Hne].
    + intros [Hx'|Hx']%elem_of_app; [specialize (H4 _ _ Hx'); lia|].
      apply list_elem_of_singleton in Hx' as ->. cbn. lia.
    + intros Hx'. specialize (H4 _ _ Hx'). lia.
  - rewrite (Hcount counted_cleared _ eq_refl Hd1). by rewrite H5.
  - rewrite (Hcount counted_missed _ eq_refl Hd2). by rewrite H6.
Qed.

Lemma update_agrees used clock s now k f e :
  agrees used clock s → clock ≤ now → 0 ≤ now →
  (∀ r, is_terminal (Line now k (marketable (f r)) (e (f r))) = false ∧
     is_rested (Line now k (marketable (f r)) (e (f r))) = bool_decide (rphase (f r) = rested) ∧
     (if is_rested (Line now k (marketable (f r)) (e (f r)))
      then marketable (f r) = false ∧ truthy (expires_of (e (f r))) = true
      else marketable (f r) = marketable r)) →
  agrees (k :: used) now (update now s k f e).
Proof.
  intros Hag Hc Hn Hf. unfold update. destruct (orders s !! k) as [r|] eqn:Ho.
  2:{ eapply agrees_mono; [exact Hag|set_solver|done]. }
  cbn [log_rec]. destruct (Hf r) as (Ht & Hr & Hm).
  apply (agrees_line (k :: used) clock s k (Some r)
    (Rec (marketable (f r)) (rsealed (f r)) (placed_at (f r)) (rphase (f r)) (retries (f r)) (crossed (f r))
       now (if truthy (expires_of (e (f r))) then expires_of (e (f r)) else expires_at (f r)))
    (Line now k (marketable (f r)) (e (f r)))); cbn [l_key l_ts marketable rphase last expires_at l_event]; try done.
  - eapply agrees_mono; [exact Hag|set_solver|done].
  - set_solver.
  - destruct (is_rested (Line now k (marketable (f r)) (e (f r)))) eqn:Hre.
    + rewrite mkt_rested by done. by destruct Hm as [-> _].
    + rewrite mkt_snoc; [|done|].
      * rewrite (tr_mkt _ _ (ag_live _ _ _ Hag k r Ho)). by rewrite Hm.
      * left. cbn. rewrite (tr_mkt _ _ (ag_live _ _ _ Hag k r Ho)). done.
  - intros Hre. rewrite Hre in Hm. destruct Hm as [_ ->]. done.
Qed.

Lemma step_agrees used clock s now c :
  agrees used clock s → clock ≤ now → 0 ≤ now → well_called used c →
  agrees (call_key c :: used) now (step now s c).
Proof.
  intros Hag Hc Hn Hw. destruct c; cbn [step call_key well_called] in *.
  - cbn [log_rec].
    assert (Hev : ev s k = []).
    { destruct (ev s k) eqn:E; [done|]. exfalso. apply Hw, (ag_used _ _ _ Hag). by rewrite E. }
    apply (agrees_line (k :: used) clock s k (orders s !! k)
      (Rec mkt0 hidden now placed 0 false now None) (Line now k mkt0 (EPlaced hidden)));
      cbn [l_key l_ts marketable rphase last expires_at l_event]; try done.
    + eapply agrees_mono; [exact Hag|set_solver|done].
    + set_solver.
    + rewrite Hev. unfold mkt. cbn. by rewrite orb_false_r.
  - by apply (update_agrees used clock).
  - by apply (update_agrees used clock).
  - by apply (update_agrees used clock).
  - by apply (update_agrees used clock).
  - apply (update_agrees used clock); [done..|]. intros r. split_and!; try done. cbn.
    unfold norm_expiry. by rewrite Hw.
  - by apply (terminal_agrees used clock).
Qed.

(** Runs whose clock does not go back and whose calls are made as the code makes them. *)
Fixpoint good_run (used : list okey) (clock : Z) (calls : list (Z * call)) : Prop :=
  match calls with
  | [] => True
  | (now, c) :: rest => clock ≤ now ∧ well_called used c ∧ good_run (call_key c :: used) now rest
  end.

Fixpoint end_clock (clock : Z) (calls : list (Z * call)) : Z :=
  match calls with [] => clock | (now, _) :: rest => end_clock now rest end.

Lemma run_agrees calls used clock s :
  agrees used clock s → 0 ≤ clock → good_run used clock calls →
  ∃ used', agrees used' (end_clock clock calls) (run calls s).
Proof.
  revert used clock s. induction calls as [|[now c] calls IH]; intros used clock s Hag Hc Hg; [by exists used|].
  destruct Hg as (Hn & Hw & Hg). cbn [run foldl end_clock].
  apply (IH (call_key c :: used) now); [|lia|done]. apply (step_agrees used clock); [done|done|lia|done].
Qed.

Lemma agrees_init : agrees [] 0 init.
Proof. split; try done; [by left|]. intros k e He. cbn in He. set_solver. Qed.

Lemma get_elem k d : get k d ≠ [] → k ∈ map fst d.
Proof.
  induction d as [|[k' es] d IH]; [done|]. rewrite get_cons. cbn. case_decide; [set_solver|].
  intros Hk%IH. set_solver.
Qed.

Lemma load_get k l : k ∈ map fst (load l) → get k (load l) ≠ [].
Proof.
  induction l as [|e l IH] using rev_ind; [cbn; set_solver|]. rewrite load_snoc, append_keys, get_append.
  destruct (decide (l_key e = k)) as [<-|Hne]; [intros _; by destruct (get _ _)|].
  case_decide; [done|]. rewrite elem_of_app, list_elem_of_singleton. intros [?|?]; [by apply IH|congruence].
Qed.

Lemma count_keys f d :
  NoDup (map fst d) → count f d = Z.of_nat (length (filter (λ k, f (get k d) = true) (map fst d))).
Proof.
  unfold count. induction d as [|[k es] d IH]; intros Hnd; [done|]. cbn [map fst] in *.
  apply NoDup_cons in Hnd as [Hk Hnd]. rewrite zsum_cons, filter_cons. cbn [snd].
  assert (Hg : get k ((k, es) :: d) = es) by (rewrite get_cons; by rewrite decide_True).
  assert (Hext : filter (λ x, f (get x ((k, es) :: d)) = true) (map fst d)
               = filter (λ x, f (get x d) = true) (map fst d)).
  { apply filter_ext_elem. intros x Hx. rewrite get_cons, decide_False; [done|]. set_solver. }
  rewrite Hext, IH by done. destruct (f es) eqn:E.
  - rewrite decide_True by (by rewrite Hg). cbn [length]. lia.
  - rewrite decide_False by (rewrite Hg; congruence). lia.
Qed.

Lemma tracks_stuck r es now : tracks r es → stuck OPEN_GRACE now es = (OPEN_GRACE <? late now r).
Proof.
  intros [Ho _ (e & He & _ & Hr) Hm Hx]. unfold stuck, judge, late. rewrite Ho, He, Hr.
  destruct (rphase r); cbn [v_class]; rewrite ?Hm; try done.
  specialize (Hx eq_refl). cbn [bool_decide v_expires_at].
  destruct (list.last (filter _ es)) as [x|]; [|done]. rewrite Hx.
  change (bool_decide (rested = rested)) with true. cbn [v_class v_expires_at].
  destruct (truthy (expires_at r)); done.
Qed.

Lemma first_terminal_is es t : first_terminal es = Some t → is_terminal t = true.
Proof.
  unfold first_terminal. intros E. assert (t ∈ filter (λ e, is_terminal e = true) es) as Hin.
  { destruct (filter _ es) as [|x l]; [done|]. injection E as ->. set_solver. }
  by apply list_elem_of_filter in Hin as [? _].
Qed.
Lemma stuck_open es now : stuck OPEN_GRACE now es = true → es ≠ [] → first_terminal es = None.
Proof.
  unfold stuck, judge. destruct (first_terminal es) as [t|] eqn:E; [|done].
  pose proof (first_terminal_is es t E) as Ht. unfold is_terminal in Ht. destruct (l_event t); try done. cbn [v_class].
  destruct (is_cleared out); [done|]. destruct (is_missed out); [|done]. fold (mkt es). by destruct (mkt es).
Qed.

Lemma judge_open es : v_terminal (judge es) = None ↔ first_terminal es = None.
Proof.
  unfold judge. destruct (first_terminal es) as [t|] eqn:E; [|done].
  pose proof (first_terminal_is es t E) as Ht. unfold is_terminal in Ht. by destruct (l_event t).
Qed.
Lemma stale_eq used clock s now :
  agrees used clock s → stale now s = count (stuck OPEN_GRACE now) (load (log s)).
Proof.
  intros [H1 H2 _ _ _ _]. rewrite count_keys by apply load_nodup. unfold stale. f_equal.
  rewrite <- (length_fmap fst). apply Permutation_length, NoDup_Permutation.
  - apply NoDup_map_filter, NoDup_fst_map_to_list.
  - apply NoDup_filter, load_nodup.
  - intros k. rewrite list_elem_of_fmap, list_elem_of_filter. fold (ev s k). split.
    + intros ([k' r] & -> & [Hl Hin]%list_elem_of_filter). apply elem_of_map_to_list in Hin. cbn [fst snd] in *.
      pose proof (H1 k' r Hin) as Ht. fold (ev s k'). rewrite (tracks_stuck r _ now Ht).
      split; [by apply Z.ltb_lt|]. apply get_elem. fold (ev s k').
      destruct (tr_last _ _ Ht) as (e & He & _). by destruct (ev s k').
    + intros [Hst Hk]. destruct (orders s !! k) as [r|] eqn:Ho.
      * exists (k, r). split; [done|]. apply list_elem_of_filter. cbn [snd].
        rewrite (tracks_stuck r _ now (H1 k r Ho)) in Hst. split; [lia|by apply elem_of_map_to_list].
      * destruct (H2 k Ho) as [E|[t Ht]].
        { by apply load_get in Hk. }
        rewrite (stuck_open _ now Hst) in Ht; [done|]. intros E. by rewrite E in Ht.
Qed.

(** ** Properties *)

(** How the live SLO tallies sit inside the verdict's classes: the live cleared are the orders classed cleared that no auction had
    left resting, and the live missed those classed missed other than by an owner's cancel. *)
Lemma live_tallies calls :
  good_run [] 0 calls →
  let s := run calls init in
  let d := load (log s) in
  slo_cleared s = count (λ es, in_class Cleared es && v_marketable (judge es)) d ∧
  slo_missed s = count (λ es, in_class Missed es && bool_decide (v_terminal (judge es) ≠ Some cancelled)) d.
Proof.
  intros Hg s d. destruct (run_agrees calls [] 0 init agrees_init ltac:(done) Hg) as [used Hag].
  split; [apply (ag_cleared _ _ _ Hag)|apply (ag_missed _ _ _ Hag)].
Qed.

(** (C13) What the verdict reads from the event log is what the server holds: an order is open in the server exactly when the log has
    events of it and the verdict finds no terminal among them, and at any time the open orders the server's gauge calls stale
    are as many as the orders the verdict's score counts as stuck open when it reads the log then.  For any sequence of calls
    with a clock that does not go back, in which an order id is placed once and before anything else of it, a resting order is
    reported with its expiry, and every line of the log is written. *)
Theorem stale_matches_stuck calls now :
  good_run [] 0 calls →
  let s := run calls init in
  let d := load (log s) in
  stale now s = rp_stuck (score 9999 10000 OPEN_GRACE now d) ∧
  ∀ k, is_open s k = true ↔ k ∈ map fst d ∧ v_terminal (judge (get k d)) = None.
Proof.
  intros Hg s d. destruct (run_agrees calls [] 0 init agrees_init ltac:(done) Hg) as [used Hag].
  split; [by apply (stale_eq used (end_clock 0 calls))|]. intros k. fold (ev s k). unfold is_open. rewrite judge_open. fold s in Hag. split.
  - destruct (orders s !! k) as [r|] eqn:Ho; [|done]. intros _. pose proof (ag_live _ _ _ Hag k r Ho) as Ht. split; [|apply Ht].
    apply get_elem. change (ev s k ≠ []). destruct (tr_last _ _ Ht) as (e & He & _). by destruct (ev s k).
  - intros [Hk Hn]. destruct (orders s !! k) as [r|] eqn:Ho; [done|]. destruct (ag_dead _ _ _ Hag k Ho) as [E|[t Ht]]; [exfalso; by apply (load_get _ _ Hk)|]. change (first_terminal (ev s k) = None) in Hn. congruence.
Qed.

(** An order has one end: once it is terminal no call but a new placement changes its state,
    and a second terminal changes no SLO tally. *)
Theorem terminal_is_final s k c now :
  orders s !! k = None → call_key c = k → (∀ h m, c ≠ Placed k h m) →
  is_open (step now s c) k = false ∧ slo_cleared (step now s c) = slo_cleared s ∧
  slo_missed (step now s c) = slo_missed s ∧
  orders (step now s c) = orders s.
Proof.
  intros Ho <- Hp. destruct c; cbn [call_key step] in *; try (unfold update; rewrite Ho; unfold is_open; by rewrite Ho).
  - by destruct (Hp hidden mkt0).
  - unfold terminal, is_open. rewrite Ho. cbn [orders slo_cleared slo_missed marketable andb].
    rewrite lookup_delete_eq. split_and!; [done|lia|lia|]. by apply delete_id.
Qed.

(** ** Witnesses *)
Definition k1 : okey := (1, 7, 1000).
Definition k2 : okey := (1, 8, 1001).
Definition k3 : okey := (1, 9, 1002).
Definition calls1 : list (Z * call) :=
  [(1, Placed k1 false true); (2, Placed k2 true true); (3, Rounded k1); (4, Rounded k2);
   (5, Placed k3 false true); (9, Terminal k1 filled 5 None); (9, Rested k3 100 false 0 (Some 50));
   (12, Requeued k2); (20, Terminal k2 rejected 0 (Some "superseded"%string))].

Lemma stale_matches_stuck_witness :
  stale 700000 (run calls1 init) = 1 ∧
  rp_stuck (score 9999 10000 OPEN_GRACE 700000 (load (log (run calls1 init)))) = 1 ∧
  v_terminal (judge (get k3 (load (log (run calls1 init))))) = None.
Proof.
  destruct (stale_matches_stuck calls1 700000) as [H1 H2]; [cbn; split_and!; (done || lia || set_solver)|].
  split_and!; [vm_compute; reflexivity|rewrite <- H1; vm_compute; reflexivity|]. apply H2. vm_compute. reflexivity.
Defined.

Lemma terminal_is_final_witness :
  slo_missed (step 30 (run calls1 init) (Terminal k1 lost 0 None)) = 1.
Proof.
  pose proof (terminal_is_final (run calls1 init) k1 (Terminal k1 lost 0 None) 30
    ltac:(vm_compute; reflexivity) ltac:(reflexivity) ltac:(discriminate)) as (_ & _ & H & _).
  rewrite H. vm_compute. reflexivity.
Defined.

(** The live SLO and the verdict differ on an owner's cancel of a marketable order: only the
    verdict counts it as missed. *)
Example cancel_counts_differ :
  let s := run [(1, Placed k1 false true); (2, Terminal k1 cancelled 0 None)] init in
  slo_missed s = 0 ∧ rp_missed_terminal (score 9999 10000 OPEN_GRACE 3 (load (log s))) = 1.
Proof. split; vm_compute; reflexivity. Qed.

(** An order that rested and later filled is in the verdict's cleared count, not in the live one. *)
Example rested_fill_counts_differ :
  let s := run [(1, Placed k1 false true); (2, Rested k1 100 true 0 (Some 99)); (3, Terminal k1 filled 5 None)] init in
  slo_cleared s = 0 ∧ rp_cleared (score 9999 10000 OPEN_GRACE 4 (load (log s))) = 1.
Proof. split; vm_compute; reflexivity. Qed.
End Replay.
