(* ===== verification/Treasury.v ===== *)
(** * The self-funding treasury and its reserve keeper

    src/offchain/treasury.py (rent, profit, reserve target, top-up rule, solvency) and the parts
    of src/offchain/server.py that use it: [rent_reserve_atomic], [reserve_target_atomic],
    [jamkb_solvency], the top-up and sweep handlers, [deposit_nonce], and the reserve keeper
    ([reserve_keeper_tick], [_send_topup]).

    The keeper is proved as a transition system against the service's deposit rule (Wire.v):
    ticks, submissions with any outcome, late, lost and repeated landings, and spending, in any
    order.  Results: profit never touches the JAMKB reserve and needs solvency; a quiet keeper
    means the obligation is covered; the keeper never drives the reserve above its target.

    Amounts are atomic units; parsing a request's decimal amount is the caller's. *)
From S2P Require Import Prelude Bytes Wire.

Definition USDC : Z := 0.
Definition DOT : Z := 1.
Definition JAMKB : Z := 2.
Definition JAMKB_SUPPLY : Z := 1048576.
Definition SCALE : Z := 10000.

(** ** treasury.py *)
Definition jamkb_rent (footprint_octets : Z) : Z := (footprint_octets + 1023) / 1024.

Record split := Split {
  rent_reserve : Z;
  reserve_held : Z;
  shortfall : Z;
  over_reserved : Z;
  solvent : bool;
  withdrawable : gmap Z Z
}.

(** [treasury] is the dict {asset: balance}. *)
Definition profit_split (treasury : gmap Z Z) (rent : Z) : split :=
  let jamkb_bal := default 0 (treasury !! JAMKB) in
  let short := Z.max 0 (rent - jamkb_bal) in
  let ok := short =? 0 in
  Split rent (Z.min jamkb_bal rent) short (Z.max 0 (jamkb_bal - rent)) ok
    (map_imap (λ asset b, Some (if asset =? JAMKB then 0 else if negb ok then 0 else b)) treasury).

Definition max_withdrawable (treasury : gmap Z Z) (rent asset : Z) : Z :=
  default 0 (withdrawable (profit_split treasury rent) !! asset).

Definition reserve_target (obligation buffer_kb supply : Z) : Z :=
  Z.min (obligation + Z.max 0 buffer_kb) supply.

Definition topup_due (held target buffer : Z) : Z :=
  let short := target - held in
  if Z.max 1 (buffer / 2) <=? short then short else 0.

Definition solvency (jamkb_held rent : Z) : bool * Z :=
  let short := Z.max 0 (rent - jamkb_held) in (short =? 0, short).

(** ** server.py *)
Definition rent_reserve_atomic (octets : Z) : Z := jamkb_rent octets * SCALE.
Definition reserve_target_atomic (octets RESERVE_BUFFER_KB : Z) : Z :=
  reserve_target (jamkb_rent octets) RESERVE_BUFFER_KB JAMKB_SUPPLY * SCALE.
(** [held] is the treasury's JAMKB balance [bal(JAMKB, FEE_ACCOUNT)]. *)
Definition jamkb_solvency (held octets : Z) : bool * Z := solvency held (rent_reserve_atomic octets).

(** [api_reserve_topup] up to the payload it submits *)
Definition api_reserve_topup (amount held octets buffer_kb nonce : Z) : result bytes :=
  if amount <=? 0 then Raise (ValueError "top-up amount must be positive")
  else
    let target := reserve_target_atomic octets buffer_kb in
    let room := target - held in
    if room <=? 0 then Raise (ValueError "reserve already at target")
    else if room <? amount then Raise (ValueError "top-up capped")
    else deposit_payload FEE_ACCOUNT JAMKB amount nonce.

Definition TAG_TREASURY : Z := 8.

(** [api_treasury] and [api_beneficiary_sweep] up to the payload; [sg] is the governance
    signature over the same fields. *)
Definition sweep_payload (bals : gmap Z Z) (octets asset amount dest nonce : Z) (sg : bytes) : result bytes :=
  let allowed := max_withdrawable bals (rent_reserve_atomic octets) asset in
  if allowed <? amount then Raise (ValueError "withdrawal exceeds profit")
  else
    t ← byte TAG_TREASURY;
    b ← pack [(4%nat, asset); (8%nat, amount); (4%nat, dest); (8%nat, nonce)];
    Ok (t ++ b ++ sg).

(** [ensure_reserve]: the startup deposit, if one is due *)
Definition ensure_reserve (held octets buffer_kb nonce : Z) : result (option bytes) :=
  let target := reserve_target_atomic octets buffer_kb in
  if target <=? held then Ok None
  else p ← deposit_payload FEE_ACCOUNT JAMKB (target - held) nonce; Ok (Some p).

(** [deposit_nonce]: the nonce and the new [_deposit_nonce_last] *)
Definition deposit_nonce (time_ns last : Z) : Z := Z.max time_ns (last + 1).

(** ** The keeper *)
Definition TOPUP_RESEND_SECS : Z := 60.

Record topup := Topup { tu_payload : option bytes; tu_nonce : option Z; tu_sent : option Z }.

(** How [CHAIN.submit] ends: accepted, [ChainBusy] (never sent), another [ChainError] (unknown). *)
Inductive submit_outcome : Type := Accepted | Busy | Unknown.
#[global] Instance submit_outcome_eq_dec : EqDecision submit_outcome.
Proof. solve_decision. Defined.

(** [_send_topup]: a refused payload is due for a resend at the next look. *)
Definition send_topup (out : submit_outcome) (t : topup) : topup :=
  match out with
  | Busy => Topup (tu_payload t) (tu_nonce t) None
  | _ => t
  end.

Inductive tick_result : Type := Sent | Resent | Waiting | Nothing.
#[global] Instance tick_result_eq_dec : EqDecision tick_result.
Proof. solve_decision. Defined.

(** The second half of a tick: consider a new top-up. *)
Definition consider_topup (now time_ns held target buffer : Z) (out : submit_outcome) (t : topup)
    (last : Z) : result (tick_result * topup * Z * option bytes) :=
  let amount := topup_due held target buffer in
  if amount =? 0 then Ok (Nothing, t, last, None)
  else
    let nonce := deposit_nonce time_ns last in
    p ← deposit_payload FEE_ACCOUNT JAMKB amount nonce;
    Ok (Sent, send_topup out (Topup (Some p) (Some nonce) (Some now)), nonce, Some p).

(** [reserve_keeper_tick]; [landed] is [deposit_landed] of the treasury's record.  Returns the
    result, the new [_topup], the new [_deposit_nonce_last] and the payload handed to submit. *)
Definition reserve_keeper_tick (now time_ns : Z) (landed : Z → bool) (held target buffer : Z)
    (out : submit_outcome) (t : topup) (last : Z) : result (tick_result * topup * Z * option bytes) :=
  match tu_nonce t with
  | Some n =>
      if landed n then consider_topup now time_ns held target buffer out (Topup None None (tu_sent t)) last
      else if match tu_sent t with Some s => now - s <? TOPUP_RESEND_SECS | None => false end
      then Ok (Waiting, t, last, None)
      else Ok (Resent, send_topup out (Topup (tu_payload t) (tu_nonce t) (Some now)), last, tu_payload t)
  | None => consider_topup now time_ns held target buffer out t last
  end.

(** ** The keeper and the chain together *)
Record world := World {
  w_topup : topup;
  w_last : Z;              (* _deposit_nonce_last *)
  w_held : Z;              (* bal(JAMKB, FEE_ACCOUNT) *)
  w_dn : bytes;            (* the treasury's deposit record *)
  w_sent : list bytes      (* payloads handed to the chain: each may land, any number of times *)
}.

(** The service credits an arriving deposit of the treasury's JAMKB. *)
Definition land (w : world) (p : bytes) : world :=
  match decode_deposit p with
  | Some d =>
      if (d_account d =? FEE_ACCOUNT) && (d_asset d =? JAMKB) then
        match admit_deposit (w_dn w) (d_nonce d) with
        | Some dn => World (w_topup w) (w_last w) (w_held w + d_amount d) dn (w_sent w)
        | None => w
        end
      else w
  | None => w
  end.

Section keeper.
Context (target buffer : Z).

Inductive keeper_step : world → world → Prop :=
| step_tick w now time_ns out r t last p :
    reserve_keeper_tick now time_ns (deposit_landed (w_dn w)) (w_held w) target buffer out
      (w_topup w) (w_last w) = Ok (r, t, last, p) →
    keeper_step w (World t last (w_held w) (w_dn w)
                     (match out, p with Busy, _ => w_sent w | _, Some b => b :: w_sent w | _, None => w_sent w end))
| step_land w p : p ∈ w_sent w → keeper_step w (land w p)
| step_spend w x : 0 ≤ x → keeper_step w (World (w_topup w) (w_last w) (w_held w - x) (w_dn w) (w_sent w)).

Inductive reachable (held : Z) (dn : bytes) : world → Prop :=
| reach_init : reachable held dn (World (Topup None None None) 0 held dn [])
| reach_step w w' : reachable held dn w → keeper_step w w' → reachable held dn w'.
End keeper.

(** ** The keeper's invariant *)
Section keeper_invariant.
Context (target buffer M : Z).
Hypothesis target_le : target ≤ M.

(** A top-up the keeper made: its payload, amount and nonce. *)
Definition is_topup (p : bytes) (amount nonce : Z) : Prop :=
  deposit_payload FEE_ACCOUNT JAMKB amount nonce = Ok p.

Lemma is_topup_fits p a n : is_topup p a n → 0 < n < 2 ^ 64 ∧ 0 ≤ a.
Proof.
  unfold is_topup, deposit_payload. destruct ((0 <? n) && (n <? Z.shiftl 1 64)) eqn:E; [|done]. cbn [negb].
  apply andb_true_iff in E as [E1%Z.ltb_lt E2%Z.ltb_lt]. intros H. inv_bind.
  split; [exact (conj E1 E2)|].
  match goal with H : pack _ = Ok _ |- _ => apply pack_ok in H as [HF _] end.
  rewrite !Forall_cons in HF. cbn [fst snd] in HF. tauto.
Qed.

Record keeper_inv (w : world) : Prop := {
  ki_dn : dn_ok (w_dn w);
  ki_held : w_held w ≤ M;
  ki_sent p : p ∈ w_sent w → ∃ a n, is_topup p a n ∧ n ≤ w_last w ∧
    (deposit_landed (w_dn w) n = true ∨ (tu_nonce (w_topup w) = Some n ∧ tu_payload (w_topup w) = Some p));
  ki_cur n : tu_nonce (w_topup w) = Some n → ∃ p a, tu_payload (w_topup w) = Some p ∧ is_topup p a n ∧
    n ≤ w_last w ∧ (deposit_landed (w_dn w) n = true ∨ w_held w + a ≤ M)
}.

(** A new top-up is considered only when every earlier one has landed. *)
Lemma consider_inv w now time_ns out t0 r t last p :
  keeper_inv w → tu_nonce t0 = None →
  (∀ q, q ∈ w_sent w → ∃ a n, is_topup q a n ∧ n ≤ w_last w ∧ deposit_landed (w_dn w) n = true) →
  consider_topup now time_ns (w_held w) target buffer out t0 (w_last w) = Ok (r, t, last, p) →
  keeper_inv (World t last (w_held w) (w_dn w)
    (match out, p with Busy, _ => w_sent w | _, Some b => b :: w_sent w | _, None => w_sent w end)).
Proof.
  intros Hk Ht0 Hall. unfold consider_topup. destruct (topup_due (w_held w) target buffer =? 0) eqn:E0.
  { intros [= <- <- <- <-]. split; cbn [w_dn w_held w_sent w_topup w_last]; [apply Hk|apply Hk| |congruence].
    intros q Hq. assert (Hq' : q ∈ w_sent w) by (destruct out; done).
    destruct (Hall q Hq') as (a & n & ? & ? & ?). exists a, n. auto. }
  intros (b & Hb & H)%bind_ok. injection H as <- <- <- <-. set (n := deposit_nonce time_ns (w_last w)) in *.
  assert (Hn : w_last w < n) by (unfold n, deposit_nonce; lia).
  assert (Hamt : w_held w + topup_due (w_held w) target buffer ≤ M).
  { unfold topup_due in *. destruct (Z.leb_spec (Z.max 1 (buffer / 2)) (target - w_held w)); lia. }
  assert (Ht : tu_nonce (send_topup out (Topup (Some b) (Some n) (Some now))) = Some n ∧
               tu_payload (send_topup out (Topup (Some b) (Some n) (Some now))) = Some b) by (by destruct out).
  split; cbn [w_dn w_held w_sent w_topup w_last]; [apply Hk|apply Hk| |].
  - intros q Hq. destruct (decide (q = b)) as [->|Hne].
    + exists (topup_due (w_held w) target buffer), n. split_and!; [done|lia|by right].
    + assert (Hq' : q ∈ w_sent w) by (destruct out; set_solver).
      destruct (Hall q Hq') as (a & k & ? & ? & ?). exists a, k. split_and!; [done|lia|by left].
  - intros k Hk'. destruct Ht as [Ht1 Ht2]. rewrite Ht1 in Hk'. injection Hk' as <-.
    exists b, (topup_due (w_held w) target buffer). split_and!; [done|done|lia|by right].
Qed.

Lemma tick_inv w now time_ns out r t last p :
  keeper_inv w →
  reserve_keeper_tick now time_ns (deposit_landed (w_dn w)) (w_held w) target buffer out
    (w_topup w) (w_last w) = Ok (r, t, last, p) →
  keeper_inv (World t last (w_held w) (w_dn w)
    (match out, p with Busy, _ => w_sent w | _, Some b => b :: w_sent w | _, None => w_sent w end)).
Proof.
  intros Hk. unfold reserve_keeper_tick. destruct (tu_nonce (w_topup w)) as [n|] eqn:En.
  - destruct (ki_cur _ Hk n En) as (b & a & Hpay & Hb & Hlast & Hcur).
    destruct (deposit_landed (w_dn w) n) eqn:Hl.
    { apply consider_inv; [done|done|]. intros q Hq.
      destruct (ki_sent _ Hk q Hq) as (a' & n' & ? & ? & [?|[En' _]]); exists a', n'; [done|].
      rewrite En in En'. injection En' as <-. done. }
    case_match.
    { intros [= <- <- <- <-].
      assert (Hsame : match out with Busy => w_sent w | _ => w_sent w end = w_sent w) by (by destruct out).
      destruct out; by destruct w. }
    intros [= <- <- <- <-]. rewrite Hpay. set (t' := send_topup out _).
    assert (tu_nonce t' = Some n ∧ tu_payload t' = Some b) as [Ht1 Ht2].
    { unfold t'. rewrite ?En, ?Hpay. by destruct out. }
    split; cbn [w_dn w_held w_sent w_topup w_last]; [apply Hk|apply Hk| |].
    + intros q Hq. destruct (decide (q = b)) as [->|Hne]; [exists a, n; split_and!; [done|done|by right]|].
      assert (Hq' : q ∈ w_sent w) by (destruct out; set_solver).
      destruct (ki_sent _ Hk q Hq') as (a' & n' & ? & ? & [?|[En' Ep]]); exists a', n'; [by auto|].
      rewrite Hpay in Ep. congruence.
    + intros k Hk'. rewrite Ht1 in Hk'. injection Hk' as <-. exists b, a. split_and!; try done. by right; destruct Hcur.
  - apply consider_inv; [done|done|]. intros q Hq.
    destruct (ki_sent _ Hk q Hq) as (a' & n' & ? & ? & [?|[En' _]]); [by exists a', n'|congruence].
Qed.

Lemma land_inv w p : keeper_inv w → p ∈ w_sent w → keeper_inv (land w p).
Proof.
  intros Hk Hp. destruct (ki_sent _ Hk p Hp) as (a & n & Ht & Hn & Hor).
  destruct (is_topup_fits p a n Ht) as [Hfit Ha].
  unfold land. rewrite (deposit_payload_decodes _ _ _ _ _ Ht). cbn [d_account d_asset d_nonce d_amount].
  rewrite !Z.eqb_refl. cbn [andb]. destruct (admit_deposit (w_dn w) n) as [dn|] eqn:Had; [|done].
  destruct (admit_deposit_spec _ _ _ (ki_dn _ Hk) Hfit Had) as (Hnl & Hdn & Hl & Hmono).
  destruct Hor as [?|[En Ep]]; [congruence|].
  destruct (ki_cur _ Hk n En) as (b & a' & Ep' & Hb & _ & Hcur). rewrite Ep in Ep'. injection Ep' as <-.
  assert (a' = a) as ->.
  { pose proof (deposit_payload_decodes _ _ _ _ _ Ht) as E1. pose proof (deposit_payload_decodes _ _ _ _ _ Hb) as E2.
    congruence. }
  destruct Hcur as [?|Hroom]; [congruence|].
  assert (Hmono' : ∀ q a' n', is_topup q a' n' → deposit_landed (w_dn w) n' = true → deposit_landed dn n' = true).
  { intros q a' n' Hq. apply Hmono. apply (is_topup_fits q a' n' Hq). }
  split; cbn [w_dn w_held w_sent w_topup w_last]; [done|lia| |].
  - intros q Hq. destruct (ki_sent _ Hk q Hq) as (a' & n' & Hq' & Hn' & [Hx|Hx]); exists a', n'; split_and!; try done; [|by right].
    left. by eapply Hmono'.
  - intros k Ek. rewrite En in Ek. injection Ek as <-. exists p, a. split_and!; try done. by left.
Qed.

Lemma keeper_step_inv w w' : keeper_inv w → keeper_step target buffer w w' → keeper_inv w'.
Proof.
  intros Hk H. destruct H as [w now time_ns out r t last p Htick|w p Hp|w x Hx].
  - by eapply tick_inv.
  - by apply land_inv.
  - destruct Hk as [H1 H2 H3 H4]. split; cbn [w_dn w_held w_sent w_topup w_last]; try done; [lia|].
    intros n Hn. destruct (H4 n Hn) as (p & a & ? & ? & ? & [?|?]); exists p, a; split_and!; try done; [by left|].
    right. lia.
Qed.
End keeper_invariant.

(** ** Properties *)

(** The rent comes first: an asset is withdrawable only while the JAMKB held covers the
    obligation, JAMKB itself never is, and the reserve view adds up. *)
Theorem profit_split_protects_reserve treasury rent asset amount :
  let s := profit_split treasury rent in
  let jamkb := default 0 (treasury !! JAMKB) in
  reserve_held s + shortfall s = rent ∧ reserve_held s + over_reserved s = jamkb ∧
  (solvent s = true ↔ rent ≤ jamkb) ∧
  (0 < amount → amount ≤ max_withdrawable treasury rent asset →
   asset ≠ JAMKB ∧ rent ≤ jamkb ∧ amount ≤ default 0 (treasury !! asset)).
Proof.
  cbn zeta. unfold profit_split. cbn [reserve_held shortfall over_reserved solvent].
  set (j := default 0 (treasury !! JAMKB)).
  assert (Hs : (Z.max 0 (rent - j) =? 0) = true ↔ rent ≤ j) by (rewrite Z.eqb_eq; lia).
  split_and!; [lia|lia|done|]. intros Hpos Hle. unfold max_withdrawable, profit_split in Hle. cbn [withdrawable] in Hle.
  fold j in Hle. rewrite map_lookup_imap in Hle. destruct (treasury !! asset) as [b|]; cbn in Hle; [|lia].
  destruct (Z.eqb_spec asset JAMKB); [lia|]. destruct (Z.max 0 (rent - j) =? 0) eqn:E; cbn [negb] in Hle; [|lia].
  split_and!; [done|by apply Hs|done].
Qed.

(** A keeper with nothing to do means a covered obligation: if no top-up is due, the reserve is
    at least the obligation (with a buffer, while the supply does not cap the target). *)
Theorem no_topup_due_solvent octets held buffer_kb :
  0 ≤ octets → 1 ≤ buffer_kb → jamkb_rent octets + buffer_kb ≤ JAMKB_SUPPLY →
  topup_due held (reserve_target_atomic octets buffer_kb) (buffer_kb * SCALE) = 0 →
  jamkb_solvency held octets = (true, 0).
Proof.
  unfold topup_due, jamkb_solvency, solvency, rent_reserve_atomic, reserve_target_atomic, reserve_target, SCALE.
  intros Ho Hb Hs. rewrite Z.min_l, (Z.max_r 0 buffer_kb) by lia.
  destruct (Z.leb_spec (Z.max 1 (buffer_kb * 10000 / 2)) ((jamkb_rent octets + buffer_kb) * 10000 - held)) as [Hle|Hlt].
  { intros. lia. }
  intros _. assert (buffer_kb * 10000 / 2 = buffer_kb * 5000) as E.
  { replace (buffer_kb * 10000) with (buffer_kb * 5000 * 2) by lia. apply Z.div_mul. lia. }
  rewrite E in Hlt. assert (Z.max 0 (jamkb_rent octets * 10000 - held) = 0) as -> by lia. done.
Qed.

(** The keeper never hoards: whatever is resent, lost, repeated or lands late, the reserve never
    exceeds the target (or what was held at the start, if that was more). *)
Theorem keeper_never_hoards target buffer held dn w :
  dn_ok dn → reachable target buffer held dn w → w_held w ≤ Z.max target held.
Proof.
  intros Hdn Hr. apply (ki_held (Z.max target held) w).
  induction Hr as [|w w' Hr IH Hstep].
  - split; cbn; [done|lia|set_solver|done].
  - eapply keeper_step_inv; [|exact IH|exact Hstep]. lia.
Qed.

(** A manual top-up is refused beyond the target: the handler builds a deposit only for a
    positive amount that leaves the reserve at or below obligation plus buffer, and it is that
    amount of JAMKB for the treasury. *)
Theorem reserve_topup_capped amount held octets buffer_kb nonce p :
  api_reserve_topup amount held octets buffer_kb nonce = Ok p →
  0 < amount ∧ held + amount ≤ reserve_target_atomic octets buffer_kb ∧
  decode_deposit p = Some (Deposit FEE_ACCOUNT JAMKB amount nonce).
Proof.
  unfold api_reserve_topup. destruct (Z.leb_spec amount 0); [done|].
  destruct (Z.leb_spec (reserve_target_atomic octets buffer_kb - held) 0); [done|].
  destruct (Z.ltb_spec (reserve_target_atomic octets buffer_kb - held) amount); [done|]. intros Hp.
  split_and!; [lia|lia|]. by apply deposit_payload_decodes.
Qed.

(** ** Witnesses *)
Definition bals1 : gmap Z Z := {[ USDC := 500; JAMKB := 70000 ]}.

Lemma profit_split_protects_reserve_witness :
  max_withdrawable bals1 60000 USDC = 500 ∧ max_withdrawable bals1 80000 USDC = 0 ∧
  (USDC ≠ JAMKB ∧ 60000 ≤ default 0 (bals1 !! JAMKB) ∧ 500 ≤ default 0 (bals1 !! USDC)).
Proof.
  split; [vm_compute; reflexivity|]. split; [vm_compute; reflexivity|].
  pose proof (profit_split_protects_reserve bals1 60000 USDC 500) as (_ & _ & _ & H).
  apply H; vm_compute; done.
Defined.

Lemma no_topup_due_solvent_witness : jamkb_solvency 110000 5000 = (true, 0).
Proof. apply (no_topup_due_solvent 5000 110000 8); vm_compute; done. Defined.

(** A first top-up is sent but its outcome is unknown, it is resent, and both copies land. *)
Definition topup1 : bytes := get_ok (deposit_payload FEE_ACCOUNT JAMKB 80000 5).
Definition world1 : world :=
  World (Topup (Some topup1) (Some 5) (Some 61)) 5 80000 (dn_encode 0 [5]) [topup1; topup1].

Lemma world1_reachable : reachable 80000 40000 0 [] world1.
Proof.
  eapply reach_step; [eapply reach_step; [eapply reach_step; [eapply reach_step; [apply reach_init|]|]|]|].
  - apply (step_tick 80000 40000 _ 0 5 Unknown Sent (Topup (Some topup1) (Some 5) (Some 0)) 5 (Some topup1)).
    vm_compute. reflexivity.
  - apply (step_tick 80000 40000 _ 61 9 Accepted Resent (Topup (Some topup1) (Some 5) (Some 61)) 5 (Some topup1)).
    vm_compute. reflexivity.
  - apply (step_land 80000 40000 _ topup1). apply list_elem_of_here.
  - assert (E : land world1 topup1 = world1) by (vm_compute; reflexivity). rewrite <- E.
    apply (step_land 80000 40000 world1 topup1). apply list_elem_of_here.
Qed.

Lemma keeper_never_hoards_witness : w_held world1 ≤ Z.max 80000 0.
Proof. apply (keeper_never_hoards 80000 40000 0 []); [by left|exact world1_reachable]. Defined.

Lemma reserve_topup_capped_witness :
  decode_deposit (get_ok (api_reserve_topup 30000 90000 5000 8 17)) = Some (Deposit FEE_ACCOUNT JAMKB 30000 17).
Proof. apply (reserve_topup_capped 30000 90000 5000 8 17). vm_compute. reflexivity. Defined.
