(* ===== verification/Startup.v ===== *)
(** * The waits before the exchange opens

    src/offchain/server.py: [ensure_markets] lists the markets that are not on chain yet and waits until they are, resending
    what has not landed; [wait_reserved] waits until the treasury's reserve covers the service's footprint.  Both give up at
    their deadline, and no exception leaves them.  The chain and the clock are the views of Setup.v. *)
From S2P Require Import Prelude Bytes Wire Setup Treasury.

Definition LIST_WAIT_SECS : Z := 300.
Definition LIST_RESEND_SECS : Z := 60.
Definition RESERVE_WAIT_SECS : Z := 120.

(** The treasury's JAMKB balance *)
Definition RESERVE_KEY : bytes := 98 :: le_bytes 4 2 ++ le_bytes 4 4294967295.

Section startup.
Context (views : nat → setup_view) (poll : Z).
Notation P := (SE setup_state).

(** [api_list]: one list item relayed *)
Definition send_list (m base quote : Z) : P unit :=
  p ← se_lift (list_payload m base quote);
  _ ← se_put (λ s, SetupState (st_now s) (st_tick s) (st_groups s ++ [[p]]));
  r ← consult views (λ v, sv_submit v [p]);
  se_lift (match r with Ok _ => Ok tt | Raise e => Raise e end).
(** One market of a pass: is it missing, and when was its listing last sent *)
Definition visit_market (mk : Z * Z * Z) (sent : gmap Z Z) : P (bool * gmap Z Z) :=
  let '(m, base, quote) := mk in
  r ← se_try (market_listed views m);
  match r with
  | Ok true => mret (false, sent)
  | Raise _ => mret (true, sent)
  | Ok false =>
      due ← match sent !! m with None => mret true | Some t => now ← clock views; mret (LIST_RESEND_SECS <=? now - t) end;
      if due : bool then
        u ← se_try (send_list m base quote);
        match u with
        | Ok _ => now ← clock views; mret (true, <[m := now]> sent)
        | Raise _ => mret (true, sent)
        end
      else mret (true, sent)
  end.
Fixpoint markets_pass (mks : list (Z * Z * Z)) (sent : gmap Z Z) : P (list Z * gmap Z Z) :=
  match mks with
  | [] => mret ([], sent)
  | mk :: rest =>
      r ← visit_market mk sent;
      q ← markets_pass rest r.2;
      mret (if r.1 : bool then mk.1.1 :: q.1 else q.1, q.2)
  end.
Definition markets_turn (mks : list (Z * Z * Z)) (deadline : Z) (sent : gmap Z Z) : P (bool + gmap Z Z) :=
  r ← markets_pass mks sent;
  match r.1 with
  | [] => mret (inl true)
  | _ => t ← clock views; if deadline <=? t then mret (inl false) else _ ← sleep views poll; mret (inr r.2)
  end.
(** [ensure_markets]: [None] only out of fuel, which [ensure_markets_ends] excludes *)
Definition ensure_markets (mks : list (Z * Z * Z)) (timeout : Z) (s : setup_state) : option (result bool * setup_state) :=
  match clock views s with
  | (Raise e, s') => Some (Raise e, s')
  | (Ok t, s') => iterate (Z.to_nat timeout + 2) (markets_turn mks (t + timeout)) ∅ s'
  end.

(** [jamkb_solvency]: the reserve held and the service's octets, [CHAIN.service_info().octets], 0 when it cannot be read *)
Context (octets_of : setup_view → result Z).
Definition solvent_now : P bool :=
  v ← read_key views RESERVE_KEY;
  o ← consult views octets_of;
  mret (jamkb_solvency (le_int v) (match o with Ok n => n | Raise _ => 0 end)).1.
Definition reserved_turn (deadline : Z) (_ : unit) : P (bool + unit) :=
  r ← se_try solvent_now;
  match r with
  | Ok true => mret (inl true)
  | _ => t ← clock views; if deadline <=? t then mret (inl false) else _ ← sleep views poll; mret (inr tt)
  end.
Definition wait_reserved (backpressure : bool) (timeout : Z) (s : setup_state) : option (result bool * setup_state) :=
  if backpressure then
    match clock views s with
    | (Raise e, s') => Some (Raise e, s')
    | (Ok t, s') => iterate (Z.to_nat timeout + 2) (reserved_turn (t + timeout)) tt s'
    end
  else Some (Ok true, s).
End startup.

(** ** Both waits end *)
Section ends.
Context (views : nat → setup_view) (poll : Z) (Hpassed : ∀ n, 0 ≤ sv_passed (views n)) (Hpoll : 1 ≤ poll).

(** Time goes on, calls are counted. *)
Definition onward (s s' : setup_state) : Prop := st_now s ≤ st_now s' ∧ (st_tick s ≤ st_tick s')%nat.
#[export] Instance onward_tr : Transition onward.
Proof. split; unfold onward; [lia|]. intros a b c. lia. Qed.
Lemma onward_consult A (f : setup_view → A) : rel onward (consult views f).
Proof using Hpassed. intros s. unfold onward. cbn. specialize (Hpassed (st_tick s)). lia. Qed.
Lemma onward_clock : rel onward (clock views).
Proof using Hpassed. apply rel_clock, onward_consult. Qed.
Lemma onward_listed m : rel onward (market_listed views m).
Proof using Hpassed. apply (rel_check views onward onward_consult (Listed m)). Qed.
Lemma onward_send m b q : rel onward (send_list views m b q).
Proof using Hpassed.
  unfold send_list. apply rel_bind; [apply _|apply rel_lift, _|intros p]. apply rel_bind; [apply _|apply rel_put; intros s; unfold onward; cbn; lia|intros _].
  apply rel_bind; [apply _|apply onward_consult|intros r]. apply rel_lift, _.
Qed.
Lemma onward_visit mk sent : rel onward (visit_market views mk sent).
Proof using Hpassed.
  destruct mk as [[m b] q]. unfold visit_market. apply rel_bind; [apply _|apply rel_try, onward_listed|intros [[]|e]]; [apply rel_ret, _| |apply rel_ret, _].
  apply rel_bind; [apply _| |intros [|]; [|apply rel_ret, _]].
  - destruct (sent !! m); [apply rel_bind; [apply _|apply onward_clock|intros ?]|]; apply rel_ret, _.
  - apply rel_bind; [apply _|apply rel_try, onward_send|intros [u|e]]; [|apply rel_ret, _]. apply rel_bind; [apply _|apply onward_clock|intros ?]. apply rel_ret, _.
Qed.
Lemma onward_pass mks sent : rel onward (markets_pass views mks sent).
Proof using Hpassed.
  revert sent. induction mks as [|mk mks IH]; intros sent; cbn; [apply rel_ret, _|]. apply rel_bind; [apply _|apply onward_visit|intros r].
  apply rel_bind; [apply _|apply IH|intros q]. apply rel_ret, _.
Qed.
Lemma onward_solvent octets_of : rel onward (solvent_now views octets_of).
Proof using Hpassed.
  unfold solvent_now. apply rel_bind; [apply _|apply rel_read; [apply _|apply onward_consult]|intros v]. apply rel_bind; [apply _|apply onward_consult|intros o]. apply rel_ret, _.
Qed.
Lemma onward_run {A} (c : SE setup_state A) s r s' : rel onward c → c s = (r, s') → onward s s'.
Proof. intros H E. specialize (H s). by rewrite E in H. Qed.

(** No exception leaves a visit, and a market it does not miss was read as listed. *)
Lemma visit_ok mk sent s : ∃ r s', visit_market views mk sent s = (Ok r, s').
Proof. destruct mk as [[m b] q]. unfold visit_market, mbind, SE_bind, se_try. destruct (market_listed views m s) as [[[|]|e] s1]; [by do 2 eexists| |by do 2 eexists].
  destruct (sent !! m); cbn; [destruct (_ <=? _); [|by do 2 eexists]|]; destruct (send_list views m b q _) as [[u|e] s2]; by do 2 eexists. Qed.
Definition shown_listed (s s' : setup_state) (m : Z) : Prop := ∃ x, (st_tick s ≤ st_tick x ≤ st_tick s')%nat ∧ (market_listed views m x).1 = Ok true.
Lemma visit_listed mk sent s sent' s' : visit_market views mk sent s = (Ok (false, sent'), s') → shown_listed s s' mk.1.1.
Proof using Hpassed.
  intros H. exists s. pose proof (onward_run _ _ _ _ (onward_visit mk sent) H) as [_ ?]. split; [lia|]. destruct mk as [[m b] q]. cbn [fst]. unfold visit_market, mbind, SE_bind, se_try in H.
  destruct (market_listed views m s) as [[[|]|e] s1]; [done| |discriminate H]. exfalso. revert H.
  destruct (sent !! m); cbn; [destruct (_ <=? _); [|done]|]; destruct (send_list views m b q _) as [[u|e] s2]; done.
Qed.
Lemma pass_ok mks sent s : ∃ missing sent' s', markets_pass views mks sent s = (Ok (missing, sent'), s') ∧ (missing = [] → ∀ mk, mk ∈ mks → shown_listed s s' mk.1.1).
Proof using Hpassed.
  revert sent s. induction mks as [|mk mks IH]; intros sent s; cbn [markets_pass]; [exists [], sent, s; split; [done|]; intros _ ? []%not_elem_of_nil|].
  destruct (visit_ok mk sent s) as ([miss sent1] & s1 & E1). destruct (IH sent1 s1) as (missing & sent2 & s2 & E2 & Hm). unfold mbind, SE_bind. rewrite E1. cbn. rewrite E2.
  do 3 eexists. split; [done|]. destruct miss; [done|]. cbn. intros Hn x [->|Hx]%elem_of_cons.
  - apply visit_listed in E1 as (y & ? & ?). exists y. split; [|done]. apply (onward_run _ _ _ _ (onward_pass mks sent1)) in E2 as [_ ?]. lia.
  - destruct (Hm Hn x Hx) as (y & ? & ?). exists y. split; [|done]. apply (onward_run _ _ _ _ (onward_visit mk sent)) in E1 as [_ ?]. lia.
Qed.

(** A wait turn either ends or is [poll] later. *)
Lemma wait_more {A} (deadline : Z) (a : A) s r s' : (t ← clock views; if deadline <=? t then mret (inl false) else _ ← sleep views poll; mret (inr a)) s = (r, s') →
  onward s s' ∧ (r = Ok (inl false) ∨ r = Ok (inr a) ∧ st_now s < deadline ∧ st_now s + poll ≤ st_now s').
Proof using Hpassed Hpoll.
  unfold mbind, SE_bind. destruct (clock views s) as [[t|e] s1] eqn:Ec; [|done]. pose proof (onward_run _ _ _ _ onward_clock Ec) as Hc. injection Ec as <- _.
  destruct (Z.leb_spec deadline (st_now s)); [intros [= <- <-]; auto|]. intros [= <- <-]. unfold onward in *. cbn. pose proof (Hpassed (st_tick s1)). split; [lia|]. right. split; [done|]. lia.
Qed.
Lemma turn_ends mks deadline sent s r s' : markets_turn views poll mks deadline sent s = (r, s') → onward s s' ∧
  (r = Ok (inl true) ∧ (∀ mk, mk ∈ mks → shown_listed s s' mk.1.1) ∨ r = Ok (inl false) ∨ ∃ sent', r = Ok (inr sent') ∧ st_now s < deadline ∧ st_now s < st_now s').
Proof using Hpassed Hpoll.
  unfold markets_turn, mbind at 1, SE_bind at 1. destruct (pass_ok mks sent s) as (missing & sent' & s1 & E & Hm). rewrite E. cbn [fst snd].
  pose proof (onward_run _ _ _ _ (onward_pass mks sent) E) as H1. destruct missing as [|m ms]; [intros [= <- <-]; auto|]. intros H. apply wait_more in H as [H2 H].
  split; [unfold onward in *; lia|]. right. destruct H as [->|(-> & ? & ?)]; [by left|right]. exists sent'. unfold onward in *. split; [done|]. lia.
Qed.

(** A loop whose turns end, or are later and before the deadline, ends; what its last turn saw, the loop saw. *)
Lemma poll_ends {A} (turn : Z → A → SE setup_state (bool + A)) (a : A) (Q : setup_state → setup_state → Prop) timeout s :
  (∀ s0 s1 s2 s3, onward s0 s1 → onward s2 s3 → Q s1 s2 → Q s0 s3) →
  (∀ deadline a s r s', turn deadline a s = (r, s') → onward s s' ∧
    (r = Ok (inl true) ∧ Q s s' ∨ r = Ok (inl false) ∨ ∃ a', r = Ok (inr a') ∧ st_now s < deadline ∧ st_now s < st_now s')) →
  ∃ b s', match clock views s with (Raise e, s1) => Some (Raise e, s1) | (Ok t, s1) => iterate (Z.to_nat timeout + 2) (turn (t + timeout)) a s1 end = Some (Ok b, s') ∧
    onward s s' ∧ (b = true → Q s s').
Proof using Hpassed.
  intros Hmono Hturn. destruct (clock views s) as [[t|e] s1] eqn:Ec; [|done]. pose proof (onward_run _ _ _ _ onward_clock Ec) as H1. injection Ec as <- _.
  assert (∀ x, onward x x) as Hrefl by (intros x; unfold onward; lia). assert (∀ x y z, onward x y → onward y z → onward x z) as Htrans by (unfold onward; intros; lia).
  destruct (iterate_total (λ _ x, onward s1 x) (λ _ x, Z.to_nat (st_now s + timeout - st_now x)) (turn (st_now s + timeout))) with (fuel := (Z.to_nat timeout + 2)%nat) (a := a) (s := s1) as [[r s'] E].
  - intros b x b' x' Hx E. apply Hturn in E as [Hon [[? _]|[?|(c & _ & ? & ?)]]]; [done..|]. split; [by eapply Htrans|]. lia.
  - apply Hrefl.
  - unfold onward in H1. lia.
  - rewrite E. assert (∀ b x r0 x', onward s1 x → turn (st_now s + timeout) b x = (r0, x') →
      match r0 with Ok (inl b) => onward s1 x' ∧ (b = true → Q s1 x') | Ok (inr _) => onward s1 x' | Raise _ => False end) as Hstep.
    { intros b x r0 x' Hx [Hon Hr]%Hturn. assert (onward s1 x') by (by eapply Htrans). destruct Hr as [[-> Hq]|[->|(? & -> & _)]]; [|by split|done]. split; [done|]. intros _. eapply Hmono; [exact Hx|apply Hrefl|exact Hq]. }
    pose proof (iterate_inv (λ _ x, onward s1 x) (λ b x, onward s1 x ∧ (b = true → Q s1 x)) (λ _, False) _ Hstep _ _ _ _ _ (Hrefl s1) E) as HQ.
    destruct r as [b|e]; [|done]. destruct HQ as [Hon HQ]. exists b, s'. split; [done|]. split; [by eapply Htrans|]. intros Hb. eapply Hmono; [exact H1|apply Hrefl|by apply HQ].
Qed.

(** Listing the markets ends: [ensure_markets] returns, and returns True only when the chain showed every market listed. *)
Theorem ensure_markets_ends mks timeout s : ∃ b s', ensure_markets views poll mks timeout s = Some (Ok b, s') ∧ onward s s' ∧
  (b = true → ∀ mk, mk ∈ mks → shown_listed s s' mk.1.1).
Proof using Hpassed Hpoll.
  apply (poll_ends (markets_turn views poll mks) ∅ (λ s s', ∀ mk, mk ∈ mks → shown_listed s s' mk.1.1)); [|intros d a x r x' H; exact (turn_ends _ _ _ _ _ _ H)].
  intros s0 s1 s2 s3 [_ ?] [_ ?] Hq mk Hmk. destruct (Hq mk Hmk) as (y & ? & ?). exists y. split; [lia|done].
Qed.

(** So does waiting for the reserve: [wait_reserved] returns, and True only when the reserve was read as covering the footprint
    (or no order is refused for want of it). *)
Definition shown_solvent (octets_of : setup_view → result Z) (s s' : setup_state) : Prop :=
  ∃ x, (st_tick s ≤ st_tick x ≤ st_tick s')%nat ∧ (solvent_now views octets_of x).1 = Ok true.
Theorem wait_reserved_ends octets_of backpressure timeout s : ∃ b s', wait_reserved views poll octets_of backpressure timeout s = Some (Ok b, s') ∧ onward s s' ∧
  (b = true → backpressure = true → shown_solvent octets_of s s').
Proof using Hpassed Hpoll.
  destruct backpressure; [|exists true, s; split; [done|]; split; [unfold onward; lia|done]].
  edestruct (poll_ends (reserved_turn views poll octets_of) tt (shown_solvent octets_of) timeout s) as (b & s' & E & Hon & HQ); [..|exists b, s'; split; [exact E|auto]].
  - intros s0 s1 s2 s3 [_ ?] [_ ?] (y & ? & ?). exists y. split; [lia|done].
  - intros deadline [] x r x' H. unfold reserved_turn, mbind at 1, SE_bind at 1, se_try in H. destruct (solvent_now views octets_of x) as [v x1] eqn:E.
    pose proof (onward_run _ _ _ _ (onward_solvent octets_of) E) as H1. destruct v as [[|]|e].
    { injection H as <- <-. split; [done|]. left. split; [done|]. exists x. rewrite E. unfold onward in H1. split; [lia|done]. }
    all: apply wait_more in H as [H2 H]; (split; [unfold onward in *; lia|]); right; destruct H as [->|(-> & ? & ?)]; [by left|right]; exists tt; unfold onward in *; split; [done|lia].
Qed.
End ends.
