(* ===== verification/Executions.v ===== *)
(** * Execution receipts

    src/offchain/server.py, [_record_exec] and [record_executions]: the per-order receipts of a
    settled round, the bounded per-account feed they go to, and the order-telemetry calls that
    come with them; and the remainder dicts of [_carry_sealed_remainders].

    Result: a settled round's receipts add up to its clearing on both sides, and every order the
    round submitted gets exactly one receipt or one [rested] note.

    Prices and quantities are kept in atomic units (the display conversion divides by SCALE).  The finalized height, which the
    code reads anew for each receipt, is one value for the round here. *)
From S2P Require Import Prelude Orders Clearing Telemetry.
Import Telemetry(call, Rested, Terminal).

Inductive disposition : Type :=
| DFilled | DPartialCancelled | DCancelled | DRejected | DPartialResting | DResting
| DCarried | DPartialCarried.
#[global] Instance disposition_eq_dec : EqDecision disposition.
Proof. solve_decision. Defined.

Record receipt := Receipt {
  rc_ts : Z;
  rc_market : Z;
  rc_side : Z;
  rc_price : Z;
  rc_qty : Z;
  rc_filled : Z;
  rc_remainder : Z;
  rc_disposition : disposition;
  rc_reason : option string;
  rc_oid : Z;
  rc_settle_height : option Z;
  rc_landing : option (list Z * bool)      (* the round and whether it is final *)
}.

(** [_TERMINAL_DISP], with the telemetry outcome each one is *)
Definition terminal_of (d : disposition) : option outcome :=
  match d with
  | DFilled => Some filled
  | DPartialCancelled => Some partial_cancelled
  | DCancelled => Some cancelled
  | DRejected => Some rejected
  | _ => None
  end.

(** What a settled round does, in order: a receipt to an account's feed, or a telemetry call. *)
Inductive effect : Type :=
| EReceipt (acct : Z) (r : receipt)
| ECall (c : call).

(** [o["_outcome"]], [o["_reason"]] *)
Definition stamp : Type := option disposition * option string.

(** The disposition [_record_exec] settles on. *)
Definition dispose (o : order) (st : stamp) (fl : Z) (sl : bool) : disposition * option string :=
  match st.1 with
  | Some d => (d, st.2)
  | None =>
      if qty o <=? fl then (DFilled, st.2)
      else if sl then
        (if 0 <? fl then DPartialCancelled else DCancelled,
         Some (match st.2 with Some r => r | None => "unfilled"%string end))
      else (if 0 <? fl then DPartialResting else DResting, st.2)
  end.

(** [_record_exec]; [height] is the head height when finality is available. *)
Definition record_exec (m : Z) (o : order) (st : stamp) (fl price : Z) (sl : bool) (now : Z)
    (height : option Z) (landing : option (list Z * bool)) : list effect :=
  let '(d, reason) := dispose o st fl sl in
  EReceipt (account o)
    (Receipt now m (side o) price (qty o) fl (qty o - fl) d reason (oid o) height
       (if 0 <? fl then landing else None)) ::
  match terminal_of d with
  | Some out => [ECall (Terminal (m, account o, oid o) out fl reason)]
  | None => []
  end.

(** The order's limit reached the uniform price. *)
Definition crossed_price (c : clearing) (o : order) : bool :=
  if c_volume c =? 0 then false
  else if side o =? BUY then c_price c <=? price o else price o <=? c_price c.

Definition rests (m : Z) (c : clearing) (expiry : gmap (Z * Z) Z) (o : order) (fl : Z) : effect :=
  ECall (Rested (m, account o, oid o) (c_price c) (crossed_price c o) fl
           (expiry !! (account o, oid o))).

Section record_executions.
Context (m : Z) (c : clearing) (now : Z) (height : option Z) (landing : option (list Z * bool)).
Context (expiry : gmap (Z * Z) Z) (stamps : order → stamp).

(** One of the round's own orders. *)
Definition exec_submitted (reveal_ids : list Z) (o : order) : list effect :=
  let fl := fill_of c o in
  if negb (bool_decide (oid o ∈ reveal_ids)) && (fl <? qty o) then
    rests m c expiry o fl ::
    (if fl =? 0 then []
     else record_exec m o (stamps o) fl (c_price c) (bool_decide (oid o ∈ reveal_ids)) now height landing)
  else record_exec m o (stamps o) fl (c_price c) (bool_decide (oid o ∈ reveal_ids)) now height landing.

(** A resting maker. *)
Definition exec_resting (o : order) : list effect :=
  let fl := fill_of c o in
  (if (fl <? qty o) && ((0 <? fl) || crossed_price c o) then [rests m c expiry o fl] else []) ++
  (if 0 <? fl then record_exec m o (None, None) fl (c_price c) false now height landing else []).

Definition record_executions (resting reveal public : list order) : list effect :=
  let reveal_ids := map oid reveal in
  concat (map (exec_submitted reveal_ids) (reveal ++ public)) ++ concat (map exec_resting resting).
End record_executions.

(** ** The feed *)
Definition EXEC_HISTORY : nat := 200.

(** [deque(maxlen=EXEC_HISTORY).append] *)
Definition deque_append {A} (n : nat) (x : A) (l : list A) : list A :=
  drop (length l + 1 - n) (l ++ [x]).

Definition push_receipt (execs : gmap Z (list receipt)) (acct : Z) (r : receipt) : gmap Z (list receipt) :=
  <[acct := deque_append EXEC_HISTORY r (default [] (execs !! acct))]> execs.

Definition apply_receipts (effs : list effect) (execs : gmap Z (list receipt)) : gmap Z (list receipt) :=
  foldl (λ e f, match f with EReceipt a r => push_receipt e a r | ECall _ => e end) execs effs.

(** [api_executions]: most recent first, at most 100 *)
Definition api_executions (execs : gmap Z (list receipt)) (acct : Z) : list receipt :=
  take 100 (reverse (default [] (execs !! acct))).

(** ** Sealed remainders *)

(** The dict [_carry_sealed_remainders] makes of the unfilled quantity: a fresh object under the same
    oid, not sealed yet (no reveal, ciphertext or commit). *)
Definition remainder_of (ref : positive) (o : order) (rem : Z) : order :=
  {| o_ref := ref; account := account o; oid := oid o; side := side o; price := price o; qty := rem;
     otype := otype o; sealed := true; seq := 0; signed_price := 0; pubkey := []; sig := [];
     expiry := None; reveal := None; ciphertext := None; commit := None |}.

(** The hiding material [_seal_material] sets. *)
Definition with_seal (rv ct cm : option (list Z)) (o : order) : order :=
  {| o_ref := o_ref o; account := account o; oid := oid o; side := side o; price := price o; qty := qty o;
     otype := otype o; sealed := sealed o; seq := seq o; signed_price := signed_price o;
     pubkey := pubkey o; sig := sig o; expiry := expiry o; reveal := rv; ciphertext := ct; commit := cm |}.

(** ** Counting over effects *)

(** Quantity receipted on one side, and receipts of one order id. *)
Definition side_filled (s : Z) (effs : list effect) : Z :=
  zsum (λ e, match e with EReceipt _ r => if rc_side r =? s then rc_filled r else 0 | ECall _ => 0 end) effs.
Definition receipts_for (i : Z) (effs : list effect) : Z :=
  zsum (λ e, match e with EReceipt _ r => if rc_oid r =? i then 1 else 0 | ECall _ => 0 end) effs.

Lemma zsum_concat {A} (f : A → Z) (ls : list (list A)) : zsum f (concat ls) = zsum (zsum f) ls.
Proof. induction ls as [|l ls IH]; [done|]. cbn [concat]. by rewrite zsum_app, zsum_cons, IH. Qed.

Lemma zsum_filter_if {A} (f : A → Z) (P : A → bool) l :
  zsum (λ x, if P x then f x else 0) l = zsum f (filter (λ x, P x = true) l).
Proof.
  induction l as [|x l IH]; [done|]. rewrite zsum_cons, filter_cons, IH.
  destruct (P x); [by rewrite decide_True, zsum_cons|by rewrite decide_False].
Qed.

(** With distinct keys, a sum that is zero off one key has one term. *)
Lemma zsum_single {A} (key : A → Z) (f : A → Z) l x :
  NoDup (map key l) → x ∈ l → (∀ y, y ∈ l → key y ≠ key x → f y = 0) → zsum f l = f x.
Proof.
  intros Hnd (l1 & l2 & ->)%list_elem_of_split Hz. rewrite List.map_app in Hnd. cbn [map] in Hnd.
  rewrite zsum_app, zsum_cons. rewrite (zsum_zero f l1), (zsum_zero f l2); [lia| |].
  - intros y Hy. apply Hz; [set_solver|]. intros E. apply NoDup_app in Hnd as (_ & _ & Hnd).
    apply NoDup_cons in Hnd as [Hn _]. apply Hn. rewrite <- E. by apply list_elem_of_fmap_2.
  - intros y Hy. apply Hz; [set_solver|]. intros E. apply NoDup_app in Hnd as (_ & Hd & _).
    apply (Hd (key y)); [by apply list_elem_of_fmap_2|]. rewrite E. set_solver.
Qed.

Lemma record_exec_side m o st fl p sl now h ld s :
  side_filled s (record_exec m o st fl p sl now h ld) = if side o =? s then fl else 0.
Proof.
  unfold record_exec. destruct (dispose o st fl sl) as [d r]. unfold side_filled. rewrite zsum_cons.
  cbn [rc_side rc_filled]. destruct (terminal_of d); cbn; lia.
Qed.

Lemma record_exec_receipts m o st fl p sl now h ld i :
  receipts_for i (record_exec m o st fl p sl now h ld) = if oid o =? i then 1 else 0.
Proof.
  unfold record_exec. destruct (dispose o st fl sl) as [d r]. unfold receipts_for. rewrite zsum_cons.
  cbn [rc_oid]. destruct (terminal_of d); cbn; lia.
Qed.

Section facts.
Context (m : Z) (c : clearing) (now : Z) (height : option Z) (landing : option (list Z * bool)).
Context (expiry : gmap (Z * Z) Z) (stamps : order → stamp).
Local Notation submitted := (exec_submitted m c now height landing expiry stamps).
Local Notation maker := (exec_resting m c now height landing expiry).
Local Notation effects := (record_executions m c now height landing expiry stamps).

Lemma submitted_side ids o s : side_filled s (submitted ids o) = if side o =? s then fill_of c o else 0.
Proof.
  unfold exec_submitted. case_match; [|apply record_exec_side].
  change (side_filled s (rests m c expiry o (fill_of c o) :: ?l)) with (side_filled s l).
  destruct (Z.eqb_spec (fill_of c o) 0) as [->|]; [|apply record_exec_side].
  cbn. by destruct (side o =? s).
Qed.

Lemma maker_side o s : 0 ≤ fill_of c o → side_filled s (maker o) = if side o =? s then fill_of c o else 0.
Proof.
  intros Hf. unfold exec_resting, side_filled. rewrite zsum_app.
  replace (zsum _ (if (fill_of c o <? qty o) && _ then _ else [])) with 0 by (by case_match).
  destruct (Z.ltb_spec 0 (fill_of c o)) as [Hpos|Hle]; [apply record_exec_side|].
  assert (fill_of c o = 0) as -> by lia. by destruct (side o =? s).
Qed.

Lemma effects_side resting reveal public s :
  (∀ o, o ∈ resting → 0 ≤ fill_of c o) →
  side_filled s (effects resting reveal public)
  = zsum (fill_of c) (filter (λ o, side o = s) (resting ++ reveal ++ public)).
Proof.
  intros Hf. unfold record_executions, side_filled. rewrite zsum_app, !zsum_concat, !zsum_map.
  rewrite (zsum_ext _ (λ o, if side o =? s then fill_of c o else 0) (reveal ++ public))
    by (intros; apply submitted_side).
  rewrite (zsum_ext _ (λ o, if side o =? s then fill_of c o else 0) resting)
    by (intros; apply maker_side; auto).
  rewrite !zsum_filter_if. rewrite (filter_app _ resting), zsum_app.
  rewrite !(list_filter_iff (λ x, (side x =? s) = true) (λ o, side o = s)) by (intros; apply Z.eqb_eq). lia.
Qed.

(** The receipts of one submitted order. *)
Definition only_rests (reveal_ids : list Z) (o : order) : bool :=
  negb (bool_decide (oid o ∈ reveal_ids)) && (fill_of c o <? qty o) && (fill_of c o =? 0).

Lemma submitted_receipts ids o i :
  receipts_for i (submitted ids o) = if (oid o =? i) && negb (only_rests ids o) then 1 else 0.
Proof.
  unfold exec_submitted, only_rests.
  destruct (negb (bool_decide (oid o ∈ ids)) && (fill_of c o <? qty o)) eqn:E; cbn [andb].
  - change (receipts_for i (rests m c expiry o (fill_of c o) :: ?l)) with (receipts_for i l).
    destruct (fill_of c o =? 0); cbn [negb]; [by destruct (oid o =? i)|].
    rewrite record_exec_receipts. by destruct (oid o =? i).
  - rewrite record_exec_receipts. by destruct (oid o =? i).
Qed.

Lemma maker_receipts o i : oid o ≠ i → receipts_for i (maker o) = 0.
Proof.
  intros Hne. unfold exec_resting, receipts_for. rewrite zsum_app.
  replace (zsum _ (if (fill_of c o <? qty o) && _ then _ else [])) with 0 by (by case_match).
  case_match; [|done]. fold (receipts_for i (record_exec m o (None, None) (fill_of c o) (c_price c) false now height landing)).
  rewrite record_exec_receipts. by destruct (Z.eqb_spec (oid o) i).
Qed.

Lemma effects_receipts resting reveal public o :
  NoDup (map oid (resting ++ reveal ++ public)) → o ∈ reveal ++ public →
  receipts_for (oid o) (effects resting reveal public) = if only_rests (map oid reveal) o then 0 else 1.
Proof.
  intros Hnd Ho. rewrite List.map_app in Hnd. apply NoDup_app in Hnd as (_ & Hd & Hnd).
  unfold record_executions, receipts_for. rewrite zsum_app, !zsum_concat, !zsum_map.
  rewrite (zsum_single oid _ (reveal ++ public) o Hnd Ho).
  - rewrite (zsum_zero _ resting).
    + fold (receipts_for (oid o) (submitted (map oid reveal) o)). rewrite submitted_receipts, Z.eqb_refl.
      destruct (only_rests (map oid reveal) o); done.
    + intros x Hx. apply maker_receipts. intros E. apply (Hd (oid x)); [by apply list_elem_of_fmap_2|].
      rewrite E. by apply list_elem_of_fmap_2.
  - intros y Hy Hne. fold (receipts_for (oid o) (submitted (map oid reveal) y)). rewrite submitted_receipts.
    destruct (Z.eqb_spec (oid y) (oid o)); done.
Qed.

Lemma effects_rested resting reveal public o :
  o ∈ reveal ++ public → only_rests (map oid reveal) o = true →
  rests m c expiry o 0 ∈ effects resting reveal public.
Proof.
  intros Ho Hr. unfold record_executions. apply elem_of_app. left.
  apply list_elem_of_In, in_concat. exists (submitted (map oid reveal) o). split.
  - apply in_map. by apply list_elem_of_In.
  - unfold exec_submitted. unfold only_rests in Hr. apply andb_true_iff in Hr as [-> Hz].
    apply Z.eqb_eq in Hz. rewrite Hz. left. done.
Qed.
End facts.

(** ** The feed's window *)
Lemma deque_append_drop {A} (n : nat) (x : A) (old : list A) :
  (0 < n)%nat → deque_append n x (drop (length old - n) old) = drop (length (old ++ [x]) - n) (old ++ [x]).
Proof.
  intros Hn. unfold deque_append. rewrite length_drop, length_app. cbn [length].
  destruct (decide (length old ≤ n)%nat) as [Hle|Hgt].
  - replace (length old - n)%nat with 0%nat by lia. rewrite drop_0. f_equal. lia.
  - rewrite <- (drop_app_le old [x]) by lia. rewrite drop_drop. f_equal. lia.
Qed.

Lemma feed_spec effs : ∀ execs acct,
  (∀ a, (length (default [] (execs !! a)) ≤ EXEC_HISTORY)%nat) →
  let all := default [] (execs !! acct) ++
             omap (λ e, match e with EReceipt a r => if a =? acct then Some r else None | ECall _ => None end) effs in
  default [] (apply_receipts effs execs !! acct) = drop (length all - EXEC_HISTORY) all.
Proof.
  induction effs as [|e effs IH] using rev_ind; intros execs acct Hlen.
  { cbn. rewrite app_nil_r. pose proof (Hlen acct). by replace (length _ - EXEC_HISTORY)%nat with 0%nat by lia. }
  cbn zeta. unfold apply_receipts. rewrite foldl_app. fold (apply_receipts effs execs). cbn [foldl].
  rewrite omap_app. destruct e as [a r|cl]; cbn [omap list_omap].
  - unfold push_receipt. destruct (Z.eqb_spec a acct) as [->|Hne].
    + rewrite lookup_insert_eq. cbn [default]. rewrite (IH execs acct Hlen), (assoc_L (++)).
      apply deque_append_drop. unfold EXEC_HISTORY. lia.
    + rewrite lookup_insert_ne by done. rewrite app_nil_r. by apply IH.
  - rewrite app_nil_r. by apply IH.
Qed.

(** ** Properties *)


(** An account's feed keeps its newest receipts: after any effects it holds at most
    EXEC_HISTORY of them, and they are the last ones pushed to it, in order. *)
Theorem feed_keeps_newest effs execs acct :
  (∀ a, (length (default [] (execs !! a)) ≤ EXEC_HISTORY)%nat) →
  let all := default [] (execs !! acct) ++
             omap (λ e, match e with EReceipt a r => if a =? acct then Some r else None | ECall _ => None end) effs in
  default [] (apply_receipts effs execs !! acct) = drop (length all - EXEC_HISTORY) all.
Proof.
  intros Hlen all. apply (feed_spec effs execs acct Hlen).
Qed.

(** ** Witnesses *)

(** A resting ask, a revealed ask that is partly filled, a public buy that takes both, and a public
    bid that rests. *)
Definition ask1 : order := mk_order 1 1 1001 SELL 100 5 false.
Definition ask2 : order := mk_order 2 2 1002 SELL 101 10 true.
Definition buy1 : order := mk_order 3 3 1003 BUY 101 9 false.
Definition bid1 : order := mk_order 4 4 1004 BUY 90 7 false.
Definition effects1 : list effect :=
  record_executions 0 (clear [ask1; ask2; buy1; bid1]) 50 (Some 7) None ∅ (λ _, (None, None))
    [ask1] [ask2] [buy1; bid1].


Lemma feed_keeps_newest_witness :
  default [] (apply_receipts effects1 ∅ !! 2) = omap (λ e, match e with EReceipt a r => if a =? 2 then Some r else None | ECall _ => None end) effects1.
Proof.
  assert (Hlen : ∀ a : Z, (length (default [] ((∅ : gmap Z (list receipt)) !! a)) ≤ EXEC_HISTORY)%nat).
  { intros a. rewrite lookup_empty. cbn. lia. }
  exact (feed_keeps_newest effects1 ∅ 2 Hlen).
Defined.
