(* ===== verification/Door.v ===== *)
(** * The door: requests that change what the builder holds

    src/offchain/server.py: placing an order ([api_order] with [_marketable], [order_lifetime_secs],
    [open_order_count], [_seq_in_use], [verify_order_sig]), preparing a sealed one ([api_seal_prepare],
    [_submit_signed_commit]), on-chain cancels and their watch ([api_cancel], [_resolve_cancels], [_may_fill]),
    registrations with confirm-and-retry ([api_register], [_try_submit_register],
    [_resolve_registrations_once]), deposits, withdrawals, listings and treasury sweeps.

    Handlers run in a state and exception monad over a sequence of views of the outside world, one per read, submit
    or clock call.  The server runs them on threads: here one request is served at a time, so what two requests do between each
    other's steps (the unlocked [next_oid[0] += 1] among them) is not covered.  A request holds what [int], [bytes.fromhex] and
    [to_atomic] make of its fields; those the code converts only after it has changed something (the commit's signature and seq
    of a sealed order, and the ttl) hold the conversion's outcome, error included.  Error messages are without their numbers;
    times are milliseconds, a lifetime rounded down to one. *)
From S2P Require Import Prelude Orders Batch Bytes Wire Telemetry Treasury Executions.

(** ** State *)

(** The settings. *)
Record door_cfg := DoorCfg {
  JAMKB_BACKPRESSURE : bool;
  HAVE_NACL : bool;                                  (* PyNaCl is installed *)
  REQUIRE_ORDER_SIG_SET : bool;                      (* the environment's REQUIRE_ORDER_SIG *)
  ENC_MODE : bool;
  MAX_OPEN_ORDERS : Z;
  ORDER_RENT_BUDGET_KBS : Z;
  MAX_RESTING_SECS : Z;
  REG_RETRY_MS : Z;
  REG_GIVEUP_MS : Z;
  REG_MAX_ATTEMPTS : Z
}.
Definition default_door_cfg : door_cfg := DoorCfg true true true false 50 60 86400 8000 240000 20.
Definition REQUIRE_ORDER_SIG (cfg : door_cfg) : bool := HAVE_NACL cfg && REQUIRE_ORDER_SIG_SET cfg.

Definition FOOTPRINT_PUBLIC : Z := 17.
Definition FOOTPRINT_SEALED : Z := 32.
Definition CANCEL_WATCH_MS : Z := 600000.
Definition TAG_COMMIT : Z := 2.
Definition TAG_REGISTER : Z := 7.
Definition TAG_ENC_COMMIT : Z := 10.

(** One instant of the outside world. *)
Record world := World {
  w_time : Z;
  w_read : bytes → result bytes;                     (* CHAIN.read *)
  w_submit : bytes → result unit;                    (* CHAIN.submit *)
  w_octets : Z;                                      (* footprint_octets(), 0 when unreadable *)
  w_nonce : bytes;                                   (* secrets.token_bytes(32) *)
  w_encrypt : bytes → result bytes;                  (* the committee binary *)
  w_ref : positive;                                  (* the identity of a dict created now *)
  w_open : Z * Z * Z → bool;                         (* order_telemetry.is_open *)
  w_rounds : Z → list (gmap Z Z * bytes)             (* a market's tracked rounds: fills and id *)
}.

(** A signed cancel awaiting its effect, with the terms the order rested with. *)
Record cancel := Cancel { cn_market : Z; cn_account : Z; cn_oid : Z; cn_nonce : Z; cn_t : Z; cn_order : order }.
(** A registration awaiting its handle. *)
Record registration := Registration { rg_payload : bytes; rg_t : Z; rg_attempts : Z; rg_last : Z }.

Inductive door_event : Type :=
| DSubmit (payload : bytes)
| DPlaced (m : Z) (o : order) (marketable : bool)
| DEff (e : effect).

Record door := Door {
  d_pending : gmap Z (list order);
  d_inflight : gmap Z (list order);                  (* the public orders of each round in flight *)
  d_next_oid : Z;
  d_drafts : gmap (Z * Z) order;
  d_expiry : gmap (Z * Z * Z) Z;
  d_cancels : list cancel;
  d_regs : list (bytes * registration);
  d_log : list door_event;
  d_tick : nat
}.
Definition door_init : door := Door ∅ ∅ 1000 ∅ ∅ [] [] [] 0.

Definition set_pending f (d : door) : door :=
  Door (f (d_pending d)) (d_inflight d) (d_next_oid d) (d_drafts d) (d_expiry d) (d_cancels d) (d_regs d) (d_log d) (d_tick d).
Definition set_next_oid n (d : door) : door :=
  Door (d_pending d) (d_inflight d) n (d_drafts d) (d_expiry d) (d_cancels d) (d_regs d) (d_log d) (d_tick d).
Definition set_drafts f (d : door) : door :=
  Door (d_pending d) (d_inflight d) (d_next_oid d) (f (d_drafts d)) (d_expiry d) (d_cancels d) (d_regs d) (d_log d) (d_tick d).
Definition set_expiry f (d : door) : door :=
  Door (d_pending d) (d_inflight d) (d_next_oid d) (d_drafts d) (f (d_expiry d)) (d_cancels d) (d_regs d) (d_log d) (d_tick d).
Definition set_cancels l (d : door) : door :=
  Door (d_pending d) (d_inflight d) (d_next_oid d) (d_drafts d) (d_expiry d) l (d_regs d) (d_log d) (d_tick d).
Definition set_regs l (d : door) : door :=
  Door (d_pending d) (d_inflight d) (d_next_oid d) (d_drafts d) (d_expiry d) (d_cancels d) l (d_log d) (d_tick d).
Definition log_door l (d : door) : door :=
  Door (d_pending d) (d_inflight d) (d_next_oid d) (d_drafts d) (d_expiry d) (d_cancels d) (d_regs d) (d_log d ++ l) (d_tick d).
Definition next_tick (d : door) : door :=
  Door (d_pending d) (d_inflight d) (d_next_oid d) (d_drafts d) (d_expiry d) (d_cancels d) (d_regs d) (d_log d) (S (d_tick d)).

Notation D := (SE door).

(** The body of a POST to /api/order. *)
Record order_req := OrderReq {
  q_market : Z; q_buy : bool; q_type : order_type; q_account : Z; q_qty : Z; q_price : Z; q_base : Z; q_quote : Z;
  q_seq : Z; q_sig : bytes; q_sealed : bool; q_oid : Z;
  q_commit_sig : result bytes; q_commit_seq : result Z; q_ttl : result Z
}.

Definition text (s : string) : bytes := map (λ a, Z.of_nat (Ascii.nat_of_ascii a)) (String.list_ascii_of_string s).

Section door.
Context (worlds : nat → world) (ed25519 : bytes → bytes → bytes → bool) (commitment : bytes → bytes) (cfg : door_cfg).

Definition ask {A} (f : world → A) : D A := λ d, (Ok (f (worlds (d_tick d))), next_tick d).
Definition chain_read (k : bytes) : D bytes := r ← ask (λ w, w_read w k); se_lift r.
Definition now_ms : D Z := ask w_time.
(** [submit(payload)]: the relay is noted whatever its outcome. *)
Definition relay (p : bytes) : D unit := r ← ask (λ w, w_submit w p); _ ← se_put (log_door [DSubmit p]); se_lift r.

Definition key4 (prefix : string) (x : Z) : result bytes := b ← pack [(4%nat, x)]; Ok (text prefix ++ b).
Definition read4 (prefix : string) (x : Z) : D bytes := k ← se_lift (key4 prefix x); chain_read k.
(** [bal(asset, acct)] *)
Definition balance (asset acct : Z) : D Z :=
  k ← se_lift (pack [(4%nat, asset); (4%nat, acct)]);
  v ← chain_read (text "b" ++ k);
  mret (le_int v).
(** [handle_of(pubkey)], [nonce_of(handle)] *)
Definition handle_of (pk : bytes) : D (option Z) := v ← chain_read (text "h" ++ pk); mret (match v with [] => None | _ => Some (le_int v) end).
Definition nonce_of (h : Z) : D Z := v ← read4 "nc" h; mret (le_int v).
Definition pubkey_of_handle (h : Z) : D (option bytes) :=
  v ← read4 "pk" h; mret (if (32 <=? length v)%nat then Some v else None).
Definition signer_key (h : Z) : D bytes :=
  pk ← pubkey_of_handle h;
  match pk with Some k => mret (take 32 k) | None => se_lift (Raise (ValueError "account is not registered")) end.
Definition last_price (m : Z) : D Z := v ← read4 "lp" m; mret (le_int v).
Definition order_floor (acct : Z) : D Z := v ← read4 "sq" acct; mret (le_int v).

(** [verify_order_sig]: the message as signed, or in a wallet's framing; without PyNaCl anything *)
Definition framed_sig (pk msg sg : bytes) : bool := ed25519 pk msg sg || ed25519 pk (text "<Bytes>" ++ msg ++ text "</Bytes>") sg.
Definition verify_order_sig (pk msg sg : bytes) : bool := negb (HAVE_NACL cfg) || framed_sig pk msg sg.

(** [order_lifetime_secs(sealed)], in milliseconds *)
Definition order_lifetime (is_sealed : bool) : Z :=
  let fp := if is_sealed then FOOTPRINT_SEALED else FOOTPRINT_PUBLIC in
  let life := if 0 <? ORDER_RENT_BUDGET_KBS cfg then ORDER_RENT_BUDGET_KBS cfg * 1024 * 1000 / fp else MAX_RESTING_SECS cfg * 1000 in
  Z.min life (MAX_RESTING_SECS cfg * 1000).

(** [open_order_count(m, acct)] *)
Definition open_order_count (m acct : Z) : D Z :=
  queued ← se_get (λ d, length (filter (λ o, account o = acct) (default [] (d_pending d !! m))));
  raw ← read4 "book" m;
  mret (Z.of_nat queued + Z.of_nat (length (filter (λ o, account o = acct) (parse_book raw)))).

(** The live public orders: queued, or in a round in flight, on any market. *)
Definition live_orders (d : door) : list order :=
  concat (map snd (map_to_list (d_pending d))) ++ concat (map snd (map_to_list (d_inflight d))).
(** [_seq_in_use(acct, seq)] *)
Definition seq_in_use (acct sq : Z) (d : door) : bool :=
  existsb (λ o, negb (sealed o) && (account o =? acct) && (seq o =? sq)) (live_orders d).

(** [_marketable(m, side, price)]: an error reads as not marketable *)
Definition crosses_at (sd px : Z) (o : order) : bool :=
  ((sd =? BUY) && (side o =? SELL) && (price o <=? px)) || ((sd =? SELL) && (side o =? BUY) && (px <=? price o)).
Definition is_marketable (m sd px : Z) : D bool :=
  r ← se_try (raw ← read4 "book" m;
              if existsb (λ o, (0 <? qty o) && crosses_at sd px o) (parse_book raw) then mret true
              else rest ← se_get (λ d, default [] (d_pending d !! m));
                   mret (existsb (λ o, negb (sealed o) && crosses_at sd px o) rest));
  mret (match r with Ok b => b | Raise _ => false end).

(** The price an order is placed at. *)
Definition placed_price (m sd : Z) (t : order_type) (px : Z) : D Z :=
  match t with
  | market => lp ← last_price m; _ ← refuse_if (lp <=? 0) "no reference price yet on this market"; mret (market_price sd lp)
  | limit => mret px
  end.

(** [_submit_signed_commit] *)
Definition submit_signed_commit (m : Z) (draft : order) (commit_seq : Z) (commit_sig : bytes) : D unit :=
  sq ← se_lift (pack [(8%nat, commit_seq)]);
  k ← signer_key (account draft);
  let tail := sq ++ commit_sig ++ k in
  if ENC_MODE cfg then
    t ← se_lift (byte TAG_ENC_COMMIT); mb ← se_lift (pack [(4%nat, m)]); a ← se_lift (pack [(4%nat, account draft)]);
    relay (t ++ mb ++ default [] (ciphertext draft) ++ a ++ tail)
  else
    t ← se_lift (byte TAG_COMMIT); ma ← se_lift (pack [(4%nat, m); (4%nat, account draft)]);
    relay (t ++ ma ++ default [] (commit draft) ++ tail).

(** The sealed branch of the checks: the draft, used up by the attempt. *)
Definition take_draft (q : order_req) (pub : option bytes) : D order :=
  x ← se_get (λ d, d_drafts d !! (q_market q, q_oid q));
  _ ← se_put (set_drafts (delete (q_market q, q_oid q)));
  match x with
  | None => se_lift (Raise (ValueError "sealed order needs /api/seal_prepare first"))
  | Some draft =>
      _ ← refuse_if (negb (account draft =? q_account q)) "sealed draft belongs to a different account";
      _ ← refuse_if (match pub with None => true | Some _ => false end) "account not registered";
      cs ← se_lift (q_commit_sig q);
      _ ← refuse_if (negb (length cs =? 64)%nat) "sealed orders must carry an owner commit signature";
      n ← se_lift (q_commit_seq q);
      _ ← refuse_if (n =? 0) "sealed orders must carry an owner commit signature";
      mret draft
  end.

(** The guards on a public order's seq. *)
Definition check_seq (acct sq : Z) : D unit :=
  fl ← order_floor acct;
  _ ← refuse_if (sq <=? fl) "order seq is not above the account's settled seq";
  used ← se_get (seq_in_use acct sq);
  refuse_if used "order seq is already used by a live order of this account".

(** The collateral guard. *)
Definition check_funds (sd base quote acct px qt : Z) : D unit :=
  if (0 <=? base) && (0 <=? quote) then
    if sd =? BUY then b ← balance quote acct; refuse_if (b <? (qt * px + SCALE - 1) / SCALE) "insufficient quote asset"
    else b ← balance base acct; refuse_if (b <? qt) "insufficient base asset"
  else mret tt.

(** What [api_order] replies. *)
Record order_reply := OrderReply { re_oid : Z; re_sealed : bool; re_pending : nat }.

(** The last part of [api_order]: the order gets its id and expiry and enters the mempool. *)
Definition admit_order (q : order_req) (draft : option order) (sd px qt sp : Z) (pub : option bytes) : D order_reply :=
  oid' ← match draft with
         | Some dr => mret (oid dr)
         | None => n ← se_get d_next_oid; _ ← se_put (set_next_oid (n + 1)); mret n
         end;
  let life := order_lifetime (q_sealed q) in
  user_ttl ← se_lift (q_ttl q);
  let ttl := if 0 <? user_ttl then Z.min user_ttl life else life in
  t ← now_ms;
  _ ← se_put (set_expiry (insert (q_market q, q_account q, oid') (t + ttl)));
  ref ← ask w_ref;
  let o := {| o_ref := ref; account := q_account q; oid := oid'; side := sd; price := px; qty := qt; otype := q_type q;
              sealed := q_sealed q; seq := q_seq q; signed_price := sp; pubkey := default (repeat 0 32) pub; sig := q_sig q;
              expiry := None; reveal := draft ≫= reveal; ciphertext := draft ≫= ciphertext; commit := draft ≫= commit |} in
  _ ← match draft with
      | Some dr => n ← se_lift (q_commit_seq q); cs ← se_lift (q_commit_sig q); submit_signed_commit (q_market q) dr n cs
      | None => mret tt
      end;
  mk ← (if q_sealed q then mret false else is_marketable (q_market q) sd px);
  _ ← se_put (set_pending (λ p, <[q_market q := default [] (p !! q_market q) ++ [o]]> p));
  n ← se_get (λ d, length (default [] (d_pending d !! q_market q)));
  _ ← se_put (log_door [DPlaced (q_market q) o mk]);
  mret (OrderReply oid' (q_sealed q) n).

(** What the checks of [api_order] establish: the draft, and the terms the order is admitted with. *)
Record checked := Checked {
  ck_draft : option order; ck_side : Z; ck_price : Z; ck_qty : Z; ck_signed_price : Z; ck_pubkey : option bytes
}.
(** The first part of [api_order]: everything that can refuse an order before it gets an id. *)
Definition check_order (q : order_req) : D checked :=
  let sd := if q_buy q then BUY else SELL in
  _ ← (if JAMKB_BACKPRESSURE cfg then
         held ← balance JAMKB FEE_ACCOUNT; oct ← ask w_octets;
         refuse_if (negb (jamkb_solvency held oct).1) "service under-reserved on JAMKB"
       else mret tt);
  px ← placed_price (q_market q) sd (q_type q) (q_price q);
  pub ← pubkey_of_handle (q_account q);
  draft ← (if q_sealed q then dr ← take_draft q pub; mret (Some dr) else mret None);
  let px := match draft with Some dr => price dr | None => px end in
  let qt := match draft with Some dr => qty dr | None => q_qty q end in
  let sp := match q_type q with market => 0 | limit => px end in
  _ ← (if q_sealed q then mret tt
       else _ ← refuse_if (match pub with None => true | Some _ => false end) "account not registered";
            refuse_if ((q_seq q =? 0) || negb (length (q_sig q) =? 64)%nat) "public orders must carry a signature and seq");
  msg ← se_lift (order_msg (q_account q) (q_market q) sd qt (bool_decide (q_type q = market)) (q_sealed q) sp (q_seq q));
  _ ← refuse_if (REQUIRE_ORDER_SIG cfg &&
                 match pub with
                 | Some pk => negb (bool_decide (q_sig q = [])) && negb (verify_order_sig pk msg (q_sig q))
                 | None => false
                 end) "bad order signature";
  _ ← (if q_sealed q then mret tt else check_seq (q_account q) (q_seq q));
  _ ← check_funds sd (q_base q) (q_quote q) (q_account q) px qt;
  _ ← (if 0 <? MAX_OPEN_ORDERS cfg then
         n ← open_order_count (q_market q) (q_account q); refuse_if (MAX_OPEN_ORDERS cfg <=? n) "open-order limit reached"
       else mret tt);
  mret (Checked draft sd px qt sp pub).

(** [api_order] *)
Definition api_order (q : order_req) : D order_reply :=
  c ← check_order q;
  admit_order q (ck_draft c) (ck_side c) (ck_price c) (ck_qty c) (ck_signed_price c) (ck_pubkey c).

(** ** Sealed drafts *)

(** [_seal_material]: the draft with its hiding material, and the commit id *)
Definition draft_material (o : order) : D (order * bytes) :=
  ob ← se_lift (order_bytes (account o) (oid o) (side o) (price o) (qty o));
  if ENC_MODE cfg then
    ct ← ask (λ w, w_encrypt w ob); ct ← se_lift ct;
    mret (with_seal (reveal o) (Some ct) (commit o) o, commitment ct)
  else
    nonce ← ask w_nonce;
    mret (with_seal (Some (ob ++ nonce)) (ciphertext o) (commit o) o, commitment (ob ++ nonce)).

(** [api_seal_prepare]: the order id and the commit id to sign *)
Definition api_seal_prepare (q : order_req) : D (Z * bytes) :=
  let sd := if q_buy q then BUY else SELL in
  px ← placed_price (q_market q) sd (q_type q) (q_price q);
  n ← se_get d_next_oid;
  _ ← se_put (set_next_oid (n + 1));
  ref ← ask w_ref;
  let o := {| o_ref := ref; account := q_account q; oid := n; side := sd; price := px; qty := q_qty q; otype := q_type q;
              sealed := true; seq := 0; signed_price := 0; pubkey := []; sig := []; expiry := None;
              reveal := None; ciphertext := None; commit := None |} in
  x ← draft_material o;
  let o := with_seal (reveal x.1) (ciphertext x.1) (Some x.2) x.1 in
  _ ← se_put (set_drafts (insert (q_market q, n) o));
  mret (n, x.2).

(** ** Deposits, withdrawals, listings, sweeps *)

(** [api_deposit], with the nonce the caller passed or a fresh one *)
Definition api_deposit (acct asset amount : Z) (nonce : option Z) (fresh : Z) : D unit :=
  _ ← match nonce with
      | Some n => refuse_if (negb ((0 <? n) && (n <? Z.shiftl 1 64))) "deposit nonce must be in 1..2^64-1"
      | None => mret tt
      end;
  _ ← balance asset acct;
  p ← se_lift (deposit_payload acct asset amount (default fresh nonce));
  relay p.

(** [api_withdraw]: the balance it replies with *)
Definition api_withdraw (handle asset amount nonce : Z) (sg : bytes) : D Z :=
  _ ← se_lift (withdraw_payload handle asset amount nonce sg []);
  k ← signer_key handle;
  p ← se_lift (withdraw_payload handle asset amount nonce sg k);
  _ ← relay p;
  balance asset handle.

Definition api_list (m base quote : Z) : D unit := p ← se_lift (list_payload m base quote); relay p.

(** [api_treasury]: a sweep is refused beyond the profit *)
Definition api_treasury (asset amount dest nonce : Z) (sg : bytes) : D unit :=
  u ← balance USDC FEE_ACCOUNT; dt ← balance DOT FEE_ACCOUNT; k ← balance JAMKB FEE_ACCOUNT;
  oct ← ask w_octets;
  _ ← refuse_if (max_withdrawable {[ USDC := u; DOT := dt; JAMKB := k ]} (rent_reserve_atomic oct) asset <? amount) "withdrawal exceeds profit";
  t ← se_lift (byte TAG_TREASURY); b ← se_lift (pack [(4%nat, asset); (8%nat, amount); (4%nat, dest); (8%nat, nonce)]);
  relay (t ++ b ++ sg).

(** ** On-chain cancels *)

(** [_resting_entry(m, acct, oid)] *)
Definition resting_entry (m acct i : Z) : D (option order) :=
  raw ← read4 "book" m;
  mret (head (filter (λ o, account o = acct ∧ oid o = i) (parse_book raw))).

(** [_landed_slot(rid) is not None] *)
Definition is_landed (rid : bytes) : D bool := v ← chain_read (text "rl" ++ rid); mret (4 <=? length v)%nat.
(** [_may_fill(m, oid)] *)
Fixpoint any_landed_fill (i : Z) (rounds : list (gmap Z Z * bytes)) : D bool :=
  match rounds with
  | [] => mret false
  | (fills, rid) :: rest =>
      if default 0 (fills !! i) =? 0 then any_landed_fill i rest
      else b ← is_landed rid; if (b : bool) then mret true else any_landed_fill i rest
  end.
Definition may_fill (m i : Z) : D bool := rs ← ask (λ w, w_rounds w m); any_landed_fill i rs.

(** [api_cancel] *)
Definition api_cancel (handle m i nonce : Z) (sg : bytes) : D unit :=
  r ← se_try (resting_entry m handle i);
  _ ← se_lift (cancel_payload handle m i nonce sg []);
  k ← signer_key handle;
  p ← se_lift (cancel_payload handle m i nonce sg k);
  _ ← relay p;
  match r with
  | Ok (Some o) => t ← now_ms; se_put (λ d, set_cancels (d_cancels d ++ [Cancel m handle i nonce t o]) d)
  | _ => mret tt
  end.

(** One watched cancel of [_resolve_cancels]: kept in the watch, or done with *)
Definition resolve_cancel (now : Z) (c : cancel) : D bool :=
  if CANCEL_WATCH_MS <? now - cn_t c then mret false
  else
    r ← se_try (n ← nonce_of (cn_account c);
                if n <=? cn_nonce c then mret None
                else f ← may_fill (cn_market c) (cn_oid c);
                     if (f : bool) then mret None
                     else e ← resting_entry (cn_market c) (cn_account c) (cn_oid c); mret (Some e));
    match r with
    | Raise _ | Ok None => mret true
    | Ok (Some (Some _)) => mret false
    | Ok (Some None) =>
        op ← ask (λ w, w_open w (cn_market c, cn_account c, cn_oid c));
        if (op : bool) then
          _ ← se_put (set_expiry (delete (cn_market c, cn_account c, cn_oid c)));
          _ ← se_put (log_door (map DEff (record_exec (cn_market c) (cn_order c)
                 (Some DCancelled, Some "cancelled by owner (signed on-chain cancel)"%string) 0 (price (cn_order c)) false now None None)));
          mret false
        else mret false
    end.
Fixpoint resolve_each (now : Z) (batch : list cancel) : D (list cancel) :=
  match batch with
  | [] => mret []
  | c :: rest => k ← resolve_cancel now c; ks ← resolve_each now rest; mret (if (k : bool) then c :: ks else ks)
  end.
(** [_resolve_cancels(now)]: the list is taken, the kept ones go back ahead of later ones *)
Definition resolve_cancels (now : Z) : D unit :=
  batch ← se_get d_cancels;
  _ ← se_put (set_cancels []);
  keep ← resolve_each now batch;
  se_put (λ d, set_cancels (keep ++ d_cancels d) d).

(** ** Registrations *)
Definition reg_get (pk : bytes) (l : list (bytes * registration)) : option registration :=
  snd <$> (snd <$> list_find (λ p, p.1 = pk) l).
Definition reg_pop (pk : bytes) (l : list (bytes * registration)) : list (bytes * registration) := filter (λ p, p.1 ≠ pk) l.
Definition reg_set (pk : bytes) (f : registration → registration) (l : list (bytes * registration)) : list (bytes * registration) :=
  map (λ p, if decide (p.1 = pk) then (p.1, f p.2) else p) l.
Definition upd_regs f : D unit := se_put (λ d, set_regs (f (d_regs d)) d).

(** [_try_submit_register(pk, now)]: only a busy chain is swallowed *)
Definition try_submit_register (pk : bytes) (now : Z) : D unit :=
  e ← se_get (λ d, reg_get pk (d_regs d));
  match e with
  | None => mret tt
  | Some e =>
      u ← se_try (relay (rg_payload e));
      _ ← match u with
          | Ok _ => upd_regs (reg_set pk (λ e, Registration (rg_payload e) (rg_t e) (rg_attempts e + 1) (rg_last e)))
          | Raise (ChainBusy _) => mret tt
          | Raise x => se_lift (Raise x)
          end;
      upd_regs (reg_set pk (λ e, Registration (rg_payload e) (rg_t e) (rg_attempts e) now))
  end.

(** One pending registration of [_resolve_registrations_once] *)
Definition resolve_registration (now : Z) (pk : bytes) : D unit :=
  e ← se_get (λ d, reg_get pk (d_regs d));
  match e with
  | None => se_lift (Raise (KeyError "registration"))
  | Some e =>
      h ← handle_of pk;
      match h with
      | Some _ => upd_regs (reg_pop pk)
      | None =>
          if (REG_GIVEUP_MS cfg <? now - rg_t e) || (REG_MAX_ATTEMPTS cfg <=? rg_attempts e) then upd_regs (reg_pop pk)
          else if REG_RETRY_MS cfg <=? now - rg_last e then try_submit_register pk now
          else mret tt
      end
  end.
Fixpoint resolve_regs (now : Z) (pks : list bytes) : D unit :=
  match pks with
  | [] => mret tt
  | pk :: rest => _ ← resolve_registration now pk; resolve_regs now rest
  end.
Definition resolve_registrations (now : Z) : D unit := pks ← se_get (λ d, map fst (d_regs d)); resolve_regs now pks.

(** [api_register]: the handle, once it is on chain *)
Definition api_register (pk sg : bytes) : D (option Z) :=
  h ← handle_of pk;
  match h with
  | Some _ => _ ← upd_regs (reg_pop pk); mret h
  | None =>
      known ← se_get (λ d, reg_get pk (d_regs d));
      match known with
      | Some _ => mret None
      | None =>
          t ← se_lift (byte TAG_REGISTER);
          now ← now_ms;
          _ ← upd_regs (λ l, l ++ [(pk, Registration (t ++ pk ++ sg) now 0 0)]);
          now' ← now_ms;
          _ ← try_submit_register pk now';
          mret None
      end
  end.
End door.
