(* ===== verification/DoorSafety.v ===== *)
(** * The door: theorems

    What the handlers of Door.v promise: a refused order leaves nothing behind; an accepted public order is one that
    refine admits, with a fresh id and a seq no live order has. *)
From S2P Require Import Prelude Orders Batch Bytes Wire Telemetry Treasury Executions Door.

(** ** What the handlers leave alone *)

(** Nothing but the reads happened. *)
Definition quiet (d d' : door) : Prop :=
  d_pending d' = d_pending d ∧ d_inflight d' = d_inflight d ∧ d_next_oid d' = d_next_oid d ∧ d_drafts d' = d_drafts d ∧
  d_expiry d' = d_expiry d ∧ d_cancels d' = d_cancels d ∧ d_regs d' = d_regs d ∧ d_log d' = d_log d.
#[export] Instance quiet_tr : Transition quiet.
Proof. split; unfold quiet; naive_solver congruence. Qed.

(** No order was placed, and neither the ids, the cancels nor the registrations changed. *)
Definition no_placed (l : list door_event) : Prop := ∀ m o b, DPlaced m o b ∉ l.
Definition untouched (d d' : door) : Prop :=
  d_pending d' = d_pending d ∧ d_inflight d' = d_inflight d ∧ d_next_oid d' = d_next_oid d ∧
  d_cancels d' = d_cancels d ∧ d_regs d' = d_regs d ∧ ∃ l, d_log d' = d_log d ++ l ∧ no_placed l.
#[export] Instance untouched_tr : Transition untouched.
Proof.
  split; unfold untouched.
  - intros d. split_and!; [done..|]. exists []. rewrite app_nil_r. split; [done|]. unfold no_placed. set_solver.
  - intros a b c (-> & -> & -> & -> & -> & l & El & Hl) (-> & -> & -> & -> & -> & k & -> & Hk). split_and!; [done..|].
    exists (l ++ k). rewrite El, (assoc_L (++)). split; [done|]. unfold no_placed in *. set_solver.
Qed.
(** Of the drafts and the expiries an order changes at most its own: the draft it names, and expiries of its account and market. *)
Definition spent (q : order_req) (d d' : door) : Prop :=
  (d_drafts d' = d_drafts d ∨ d_drafts d' = delete (q_market q, q_oid q) (d_drafts d)) ∧
  ∀ k, k.1 ≠ (q_market q, q_account q) → d_expiry d' !! k = d_expiry d !! k.
#[export] Instance spent_tr q : Transition (spent q).
Proof.
  split; unfold spent; [naive_solver|]. intros a b c [H1 H2] [K1 K2]. split; [|intros k Hk; by rewrite K2, H2].
  destruct H1 as [H1|H1], K1 as [K1|K1]; rewrite K1, H1, ?delete_delete_eq; auto.
Qed.
Lemma quiet_spent q d d' : quiet d d' → spent q d d'.
Proof. intros (_ & _ & _ & H4 & H5 & _). split; [by left|]. by rewrite H5. Qed.
Lemma quiet_untouched d d' : quiet d d' → untouched d d'.
Proof.
  unfold untouched. intros (-> & -> & -> & _ & _ & -> & -> & ->). split_and!; [done..|]. exists []. rewrite app_nil_r. split; [done|]. unfold no_placed. set_solver.
Qed.

Section handlers.
Context (worlds : nat → world) (ed25519 : bytes → bytes → bytes → bool) (commitment : bytes → bytes) (cfg : door_cfg).

Lemma quiet_ask {A} (f : world → A) : rel quiet (ask worlds f).
Proof. intros d. done. Qed.
#[local] Hint Resolve quiet_ask : rel.
Ltac quiet_tac := rel_step; try apply quiet_ask; eauto with rel.

Lemma quiet_chain_read k : rel quiet (chain_read worlds k).
Proof. unfold chain_read. quiet_tac. Qed.
Lemma quiet_read4 p x : rel quiet (read4 worlds p x).
Proof. unfold read4. apply rel_bind; [apply _|quiet_tac|]. intros. apply quiet_chain_read. Qed.
#[local] Hint Resolve quiet_chain_read quiet_read4 : rel.
Lemma quiet_balance a b : rel quiet (balance worlds a b).
Proof. unfold balance. quiet_tac. Qed.
Lemma quiet_pubkey h : rel quiet (pubkey_of_handle worlds h).
Proof. unfold pubkey_of_handle. quiet_tac. Qed.
#[local] Hint Resolve quiet_balance quiet_pubkey : rel.
Lemma quiet_signer h : rel quiet (signer_key worlds h).
Proof. unfold signer_key. quiet_tac. Qed.
Lemma quiet_price m sd t px : rel quiet (placed_price worlds m sd t px).
Proof. unfold placed_price, last_price. quiet_tac. Qed.
Lemma quiet_seq a s : rel quiet (check_seq worlds a s).
Proof. unfold check_seq, order_floor. quiet_tac. Qed.
Lemma quiet_funds sd b q a p x : rel quiet (check_funds worlds sd b q a p x).
Proof. unfold check_funds. quiet_tac. Qed.
Lemma quiet_open m a : rel quiet (open_order_count worlds m a).
Proof. unfold open_order_count. quiet_tac. Qed.
Lemma quiet_marketable m s p : rel quiet (is_marketable worlds m s p).
Proof. unfold is_marketable. quiet_tac. Qed.
#[local] Hint Resolve quiet_signer quiet_price quiet_seq quiet_funds quiet_open quiet_marketable : rel.

Lemma rel_quiet_untouched {A} (c : SE door A) : rel quiet c → rel untouched c.
Proof. intros H d. apply quiet_untouched, H. Qed.
#[local] Hint Resolve rel_quiet_untouched : rel.

(** The checks of a public order only read; a sealed order's use up its draft. *)
Lemma check_quiet q : q_sealed q = false → rel quiet (check_order worlds ed25519 cfg q).
Proof. intros Hq. unfold check_order. rewrite Hq. quiet_tac. Qed.

Lemma untouched_put f : (∀ d, quiet d (set_drafts (λ _, d_drafts d) (set_expiry (λ _, d_expiry d) (f d)))) → rel untouched (se_put f).
Proof.
  intros H. apply rel_put. intros d. destruct (H d) as (H1 & H2 & H3 & _ & _ & H6 & H7 & H8). cbn in *. unfold untouched.
  rewrite H1, H2, H3, H6, H7, H8. split_and!; [done..|]. exists []. rewrite app_nil_r. split; [done|]. unfold no_placed. set_solver.
Qed.
Lemma untouched_drafts f : rel untouched (se_put (set_drafts f)).
Proof. apply untouched_put. intros []. done. Qed.
Lemma untouched_expiry f : rel untouched (se_put (set_expiry f)).
Proof. apply untouched_put. intros []. done. Qed.
#[local] Hint Resolve untouched_drafts untouched_expiry : rel.
Lemma untouched_take_draft q pub : rel untouched (take_draft q pub).
Proof. unfold take_draft. rel_step; eauto with rel. Qed.
Lemma untouched_relay p : rel untouched (relay worlds p).
Proof.
  unfold relay. rel_step. apply rel_put. intros d. unfold untouched. split_and!; [done..|].
  exists [DSubmit p]. split; [done|]. unfold no_placed. set_solver.
Qed.
#[local] Hint Resolve untouched_take_draft untouched_relay : rel.
Section spending.
Context (q : order_req).
Lemma rel_quiet_spent {A} (c : SE door A) : rel quiet c → rel (spent q) c.
Proof. intros H d. apply quiet_spent, H. Qed.
#[local] Hint Resolve rel_quiet_spent : rel.
Lemma spent_take pub : rel (spent q) (take_draft q pub).
Proof. unfold take_draft. rel_step; eauto with rel. apply rel_put. intros d. split; [by right|done]. Qed.
Lemma spent_relay p : rel (spent q) (relay worlds p).
Proof. unfold relay. rel_step. apply rel_put. intros d. split; [by left|done]. Qed.
#[local] Hint Resolve spent_take spent_relay : rel.
Lemma check_spent : rel (spent q) (check_order worlds ed25519 cfg q).
Proof. unfold check_order. rel_step; eauto with rel. Qed.
Lemma commit_spent m dr s sg : rel (spent q) (submit_signed_commit worlds cfg m dr s sg).
Proof. unfold submit_signed_commit. rel_step; eauto with rel. Qed.
End spending.
Lemma check_untouched q : rel untouched (check_order worlds ed25519 cfg q).
Proof. unfold check_order. rel_step; eauto with rel. Qed.
Lemma commit_untouched m dr s sg : rel untouched (submit_signed_commit worlds cfg m dr s sg).
Proof. unfold submit_signed_commit. rel_step; eauto with rel. Qed.

(** *** Computations that do not raise *)
Lemma total_marketable m s p : total (is_marketable worlds m s p).
Proof. unfold is_marketable. apply total_bind; [apply total_try|done]. Qed.

(** Once it has its id a public order is refused only for its ttl; a sealed one also when its commit cannot be posted. *)
Lemma admit_public q sd px qt sp pub s e s' : admit_order worlds cfg q None sd px qt sp pub s = (Raise e, s') →
  is_ok (q_ttl q) = false ∧ s' = set_next_oid (d_next_oid s + 1) s.
Proof.
  unfold admit_order. intros [H|(i & d1 & Hi & H)]%se_bind_raise; [discriminate H|].
  apply se_bind_ok in Hi as (? & ? & [= <- <-] & Hi). apply se_bind_ok in Hi as (? & ? & [= _ <-] & [= _ <-]).
  destruct (q_ttl q) as [t|e']; [|by injection H as _ <-]. exfalso.
  match type of H with (?m _) = _ => assert (Ht : total m) end.
  { apply total_bind; [intros ?; reflexivity|intros ?]. total_step. }
  specialize (Ht (set_next_oid (d_next_oid s + 1) s)). by rewrite H in Ht.
Qed.
Lemma admit_raises R `{!Transition R} q dr sd px qt sp pub :
  (∀ A (c : SE door A), rel quiet c → rel R c) → (∀ t i, rel R (se_put (set_expiry (insert (q_market q, q_account q, i) t)))) →
  (∀ m dr s sg, rel R (submit_signed_commit worlds cfg m dr s sg)) → raises R (admit_order worlds cfg q (Some dr) sd px qt sp pub).
Proof.
  intros Hq He Hc. assert (∀ A (x : result A), rel R (se_lift x)) as Hl by (intros; apply rel_lift, _).
  unfold admit_order. do 6 (apply raises_bind; [apply _|rel_step; eauto using quiet_ask|intros ?]).
  apply raises_bind; [apply _|rel_step; eauto using quiet_marketable|intros ?].
  apply total_raises. total_step.
Qed.

Lemma check_sealed q d c d' : check_order worlds ed25519 cfg q d = (Ok c, d') → q_sealed q = true → ∃ dr, ck_draft c = Some dr.
Proof.
  unfold check_order. intros H Hq. rewrite Hq in H. repeat (apply se_bind_ok in H as (? & ? & ?HH & H)).
  injection H as <- _. cbn. match goal with HH : _ = (Ok ?x, _) |- ∃ dr, ?x = Some dr => apply se_bind_ok in HH as (? & ? & _ & [= <- _]); eauto end.
Qed.
Lemma check_public q d c d' : check_order worlds ed25519 cfg q d = (Ok c, d') → q_sealed q = false → ck_draft c = None.
Proof.
  unfold check_order. intros H Hq. rewrite Hq in H. repeat (apply se_bind_ok in H as (? & ? & ?HH & H)).
  injection H as <- _. cbn. match goal with HH : mret None _ = (Ok ?x, _) |- ?x = None => by injection HH as <- end.
Qed.
End handlers.

(** What a refused order leaves: of a public one nothing, except that one with a ttl that is not a number has used up an id; of a
    sealed one at most its draft used, an expiry noted and its commit relayed. *)
Definition refused_leaves (q : order_req) (d d' : door) : Prop :=
  if q_sealed q then untouched d d' ∧ spent q d d'
  else quiet d d' ∨ is_ok (q_ttl q) = false ∧ quiet (set_next_oid (d_next_oid d + 1) d) d'.
Lemma order_refusal worlds ed25519 cfg q d e d' : api_order worlds ed25519 cfg q d = (Raise e, d') → refused_leaves q d d'.
Proof.
  unfold api_order, refused_leaves. intros [H|(c & d1 & Hc & H)]%se_bind_raise.
  - destruct (q_sealed q) eqn:Eq; [|left; by eapply (rel_raises _ _ (check_quiet worlds ed25519 cfg q Eq))].
    split; [by eapply (rel_raises _ _ (check_untouched worlds ed25519 cfg q))|by eapply (rel_raises _ _ (check_spent worlds ed25519 cfg q))].
  - destruct (q_sealed q) eqn:Eq.
    + destruct (check_sealed _ _ _ _ _ _ _ Hc Eq) as [dr Ed]. rewrite Ed in H. split.
      * apply (@tr_trans _ untouched _ d d1 d'); [rewrite <- (se_run _ _ _ _ Hc); apply check_untouched|]. eapply (admit_raises worlds cfg untouched); [..|exact H].
        -- intros. by apply rel_quiet_untouched.
        -- intros. apply untouched_expiry.
        -- intros. exact (commit_untouched worlds ed25519 (λ b, b) cfg _ _ _ _).
      * apply (@tr_trans _ (spent q) _ d d1 d'); [rewrite <- (se_run _ _ _ _ Hc); apply check_spent|]. eapply (admit_raises worlds cfg (spent q)); [..|exact H].
        -- intros. by apply rel_quiet_spent.
        -- intros t i. apply rel_put. intros d0. split; [by left|]. intros k Hk. cbn. rewrite lookup_insert_ne; [done|]. intros <-. by apply Hk.
        -- intros. apply commit_spent.
    + rewrite (check_public _ _ _ _ _ _ _ Hc Eq) in H. apply admit_public in H as [Ht ->]. right. split; [done|].
      assert (quiet d d1) as (H1 & H2 & H3 & H4) by (rewrite <- (se_run _ _ _ _ Hc); by apply check_quiet). rewrite H3. unfold quiet. cbn. naive_solver.
Qed.

(** A refused order leaves nothing behind: when [api_order] refuses a request or fails anywhere, no order is queued or reported placed
    and the cancels and registrations are as they were.  For a public order nothing at all has changed, unless its ttl was not a
    number and an id is used up; for a sealed one no id is used up, of the drafts at most its own is gone and of the expiries
    at most one of its account and market is new. *)
Theorem refused_order_leaves_nothing worlds ed25519 cfg q d e d' :
  api_order worlds ed25519 cfg q d = (Raise e, d') → refused_leaves q d d'.
Proof. apply order_refusal. Qed.

(** ** Orders that are admitted *)
Section admitted.
Context (worlds : nat → world) (ed25519 : bytes → bytes → bytes → bool) (cfg : door_cfg).

(** What the chain answered at some instant. *)
Definition answered (k v : bytes) : Prop := ∃ n, w_read (worlds n) k = Ok v.

Lemma read4_ok p x d v d' : read4 worlds p x d = (Ok v, d') → ∃ k, key4 p x = Ok k ∧ answered k v.
Proof.
  unfold read4, chain_read. intros (k & d1 & [Hk ->]%lift_ok & H)%se_bind_ok.
  apply se_bind_ok in H as (r & d2 & Hr & [Hv _]%lift_ok). exists k. split; [done|]. exists (d_tick d). by injection Hr as -> _.
Qed.

(** The checks a public order passed. *)
Record passed (q : order_req) (d : door) (c : checked) : Prop := {
  pa_draft : ck_draft c = None;
  pa_side : ck_side c = if q_buy q then BUY else SELL;
  pa_qty : ck_qty c = q_qty q;
  pa_price : match q_type q with limit => ck_price c = q_price q ∧ ck_signed_price c = q_price q
             | market => ck_signed_price c = 0 ∧ ∃ lp, 0 < lp ∧ ck_price c = market_price (ck_side c) lp end;
  pa_key : ∃ k pk, key4 "pk" (q_account q) = Ok k ∧ answered k pk ∧ (32 ≤ length pk)%nat ∧ ck_pubkey c = Some pk ∧
    (REQUIRE_ORDER_SIG cfg = true → ∃ msg,
       order_msg (q_account q) (q_market q) (ck_side c) (q_qty q) (bool_decide (q_type q = market)) false (ck_signed_price c) (q_seq q) = Ok msg ∧
       framed_sig ed25519 pk msg (q_sig q) = true);
  pa_sig : length (q_sig q) = 64%nat;
  pa_seq : seq_in_use (q_account q) (q_seq q) d = false;
  pa_floor : ∃ k v, key4 "sq" (q_account q) = Ok k ∧ answered k v ∧ le_int v < q_seq q
}.

Lemma seq_in_use_quiet a s d d' : quiet d d' → seq_in_use a s d' = seq_in_use a s d.
Proof. intros (Hp & Hi & _). unfold seq_in_use, live_orders. by rewrite Hp, Hi. Qed.

Lemma check_seq_ok a s d u d' : check_seq worlds a s d = (Ok u, d') →
  seq_in_use a s d = false ∧ ∃ k v, key4 "sq" a = Ok k ∧ answered k v ∧ le_int v < s.
Proof.
  unfold check_seq, order_floor. intros (fl & d1 & Hf & H)%se_bind_ok. apply se_bind_ok in H as (? & d2 & [Hlt ->]%refuse_ok & H).
  apply se_bind_ok in H as (used & d3 & [= <- <-] & [Hu _]%refuse_ok).
  assert (Hq : quiet d d1).
  { rewrite <- (se_run _ _ _ _ Hf). apply rel_bind; [apply _|apply quiet_read4|intros; apply rel_ret, _]. }
  apply se_bind_ok in Hf as (v & d4 & (k & Hk & Hv)%read4_ok & [= <- <-]).
  split; [by rewrite <- (seq_in_use_quiet _ _ _ _ Hq)|]. exists k, v. split_and!; [done..|]. by zbool.
Qed.

Lemma check_passed q d c d1 : check_order worlds ed25519 cfg q d = (Ok c, d1) → q_sealed q = false → passed q d c.
Proof.
  intros H Hq. unfold check_order in H. rewrite Hq in H. cbv beta iota zeta in H. set (sd := if q_buy q then BUY else SELL) in *.
  apply se_bind_ok in H as (? & d2 & H1 & H). apply se_bind_ok in H as (px & d3 & H2 & H).
  apply se_bind_ok in H as (pub & d4 & H3 & H). apply se_bind_ok in H as (dr & d5 & [= <- <-] & H).
  apply se_bind_ok in H as (? & d6 & H6 & H). apply se_bind_ok in H6 as (? & ? & [Hpub ->]%refuse_ok & [Hss ->]%refuse_ok).
  apply se_bind_ok in H as (msg & d7 & [Hmsg ->]%lift_ok & H). apply se_bind_ok in H as (? & d8 & [Hver ->]%refuse_ok & H).
  apply se_bind_ok in H as (? & d9 & Hseq & H). apply se_bind_ok in H as (? & d10 & _ & H). apply se_bind_ok in H as (? & d11 & _ & H).
  injection H as <- _. destruct pub as [pk|]; [|done]. apply orb_false_iff in Hss as [_ Hlen]. apply negb_false_iff, Nat.eqb_eq in Hlen.
  assert (Hq4 : quiet d d4).
  { apply (@tr_trans _ quiet _ d d2); [|apply (@tr_trans _ quiet _ d2 d3)].
    - rewrite <- (se_run _ _ _ _ H1). destruct (JAMKB_BACKPRESSURE cfg); [|apply tr_refl].
      apply rel_bind; [apply _|apply quiet_balance|]. intros. apply rel_bind; [apply _|apply quiet_ask|]. intros. apply rel_refuse, _.
    - rewrite <- (se_run _ _ _ _ H2). apply quiet_price.
    - rewrite <- (se_run _ _ _ _ H3). apply quiet_pubkey. }
  apply check_seq_ok in Hseq as [Hused Hfloor]. rewrite (seq_in_use_quiet _ _ _ _ Hq4) in Hused.
  split; cbn [ck_draft ck_side ck_qty ck_price ck_signed_price ck_pubkey]; try done.
  - unfold placed_price in H2. destruct (q_type q).
    + injection H2 as <- _. done.
    + apply se_bind_ok in H2 as (lp & ? & _ & H2). apply se_bind_ok in H2 as (? & ? & [Hlp ->]%refuse_ok & [= <- _]).
      zbool. eauto.
  - unfold pubkey_of_handle in H3. apply se_bind_ok in H3 as (v & ? & (k & Hk & Hv)%read4_ok & E). apply (f_equal fst) in E. cbn [mret SE_ret fst] in E.
    destruct (32 <=? length v)%nat eqn:El; [|done]. injection E as ->. apply Nat.leb_le in El.
    exists k, pk. split_and!; [done..|]. intros Hreq. exists msg. split; [done|]. rewrite Hreq in Hver.
    rewrite bool_decide_eq_false_2 in Hver by (intros E0; by rewrite E0 in Hlen). cbn in Hver. apply negb_false_iff in Hver.
    unfold verify_order_sig in Hver. apply andb_true_iff in Hreq as [Hn _]. by rewrite Hn in Hver.
Qed.

(** What admitting an order does; a sealed order comes with its draft. *)
Record admits (q : order_req) (c : checked) (d : door) (r : order_reply) (d' : door) (o : order) : Prop := {
  ad_account : account o = q_account q;
  ad_oid : oid o = match ck_draft c with Some dr => oid dr | None => d_next_oid d end;
  ad_side : side o = ck_side c;
  ad_terms : price o = ck_price c ∧ qty o = ck_qty c ∧ otype o = q_type q;
  ad_sealed : sealed o = q_sealed q;
  ad_auth : seq o = q_seq q ∧ signed_price o = ck_signed_price c ∧ sig o = q_sig q ∧ pubkey o = default (repeat 0 32) (ck_pubkey c);
  ad_reply : re_oid r = oid o;
  ad_pending : d_pending d' = <[q_market q := default [] (d_pending d !! q_market q) ++ [o]]> (d_pending d);
  ad_inflight : d_inflight d' = d_inflight d;
  ad_next : d_next_oid d' = match ck_draft c with Some _ => d_next_oid d | None => d_next_oid d + 1 end;
  ad_drafts : d_drafts d' = d_drafts d;
  ad_regs : d_regs d' = d_regs d ∧ d_cancels d' = d_cancels d;
  ad_log : ∃ l mk, d_log d' = d_log d ++ l ++ [DPlaced (q_market q) o mk] ∧ no_placed l;
  ad_expiry : ∃ t ttl, d_expiry d' = <[(q_market q, q_account q, oid o) := t + ttl]> (d_expiry d) ∧
    (∃ n, t = w_time (worlds n)) ∧ ttl ≤ order_lifetime cfg (q_sealed q)
}.

Lemma commit_keeps m dr s sg d u d' : submit_signed_commit worlds cfg m dr s sg d = (Ok u, d') →
  untouched d d' ∧ d_drafts d' = d_drafts d ∧ d_expiry d' = d_expiry d.
Proof.
  intros H. split; [rewrite <- (se_run _ _ _ _ H); apply (commit_untouched worlds ed25519 (λ b, b))|].
  assert (Hk : rel (λ d d', d_drafts d' = d_drafts d ∧ d_expiry d' = d_expiry d) (submit_signed_commit worlds cfg m dr s sg)).
  { assert (HT : Transition (λ d d', d_drafts d' = d_drafts d ∧ d_expiry d' = d_expiry d)) by (split; naive_solver congruence).
    assert (Hr : ∀ p, rel (λ d d', d_drafts d' = d_drafts d ∧ d_expiry d' = d_expiry d) (relay worlds p)).
    { intros p. unfold relay. apply rel_bind; [done|by intros ?|intros ?]. apply rel_bind; [done|by intros ?|intros ?]. by apply rel_lift. }
    assert (Hs : rel (λ d d', d_drafts d' = d_drafts d ∧ d_expiry d' = d_expiry d) (signer_key worlds (account dr))).
    { intros d0. destruct (quiet_signer worlds (account dr) d0) as (_ & _ & _ & ? & ? & _). done. }
    unfold submit_signed_commit. repeat first [apply Hr | apply Hs | by apply rel_lift | apply rel_bind; [done| |intros ?] | case_match]. }
  specialize (Hk d). by rewrite H in Hk.
Qed.

Lemma admit_spec q c d r d' :
  admit_order worlds cfg q (ck_draft c) (ck_side c) (ck_price c) (ck_qty c) (ck_signed_price c) (ck_pubkey c) d = (Ok r, d') →
  ∃ o, admits q c d r d' o.
Proof.
  unfold admit_order. intros (i & d1 & H1 & H)%se_bind_ok. cbv zeta in H. apply se_bind_ok in H as (ut & d0 & [Hut ->]%lift_ok & H).
  apply se_bind_ok in H as (t & d2 & [= Ht <-] & H).
  apply se_bind_ok in H as (? & d3 & [= _ <-] & H). apply se_bind_ok in H as (ref & d4 & [= _ <-] & H). set (o := Order _ _ _ _ _ _ _ _ _ _ _ _ _ _ _ _) in H.
  apply se_bind_ok in H as (? & d5 & H5 & H). apply se_bind_ok in H as (mk & d6 & H6 & H).
  apply se_bind_ok in H as (? & d7 & [= _ <-] & H). apply se_bind_ok in H as (n & d8 & [= <- <-] & H).
  apply se_bind_ok in H as (? & d9 & [= _ <-] & [= <- <-]).
  assert (Hd1 : i = match ck_draft c with Some dr => oid dr | None => d_next_oid d end ∧
                d1 = match ck_draft c with Some _ => d | None => set_next_oid (d_next_oid d + 1) d end).
  { destruct (ck_draft c); [by injection H1 as <- <-|]. apply se_bind_ok in H1 as (? & ? & [= <- <-] & H1).
    by apply se_bind_ok in H1 as (? & ? & [= _ <-] & [= <- <-]). }
  assert (Hq6 : quiet d5 d6).
  { rewrite <- (se_run _ _ _ _ H6). destruct (q_sealed q); [apply tr_refl|apply quiet_marketable]. }
  set (st := set_expiry (insert (q_market q, q_account q, i) (t + _)) _) in *.
  assert (H5' : untouched st d5 ∧ d_drafts d5 = d_drafts st ∧ d_expiry d5 = d_expiry st).
  { destruct (ck_draft c) as [dr|].
    { apply se_bind_ok in H5 as (? & ? & [_ ->]%lift_ok & H5). apply se_bind_ok in H5 as (? & ? & [_ ->]%lift_ok & H5). by apply commit_keeps in H5. }
    injection H5 as _ <-. split; [|done].
    split_and!; [done..|]. exists []. rewrite app_nil_r. split; [done|]. unfold no_placed. set_solver. }
  destruct Hd1 as [Ei Ed1], H5' as ((U1 & U2 & U3 & U4 & U5 & l & U6 & Hl) & U7 & U8), Hq6 as (Q1 & Q2 & Q3 & Q4 & Q5 & Q6 & Q7 & Q8).
  assert (E : d_pending st = d_pending d ∧ d_inflight st = d_inflight d ∧ d_drafts st = d_drafts d ∧ d_regs st = d_regs d ∧ d_cancels st = d_cancels d ∧
              d_log st = d_log d ∧ d_next_oid st = match ck_draft c with Some _ => d_next_oid d | None => d_next_oid d + 1 end ∧
              d_expiry st = <[(q_market q, q_account q, i) := t + (if 0 <? ut then Z.min ut (order_lifetime cfg (q_sealed q)) else order_lifetime cfg (q_sealed q))]> (d_expiry d)).
  { unfold st. rewrite Ed1. by destruct (ck_draft c). }
  destruct E as (E1 & E2 & E3 & E4 & E5 & E6 & E7 & E8).
  exists o. split; cbn [o account oid side price qty otype sealed seq signed_price sig pubkey re_oid]; try done;
    cbn [log_door set_pending d_pending d_inflight d_next_oid d_drafts d_regs d_cancels d_log d_expiry]; try congruence.
  - split; congruence.
  - exists l, mk. rewrite Q8, U6, E6. split; [by rewrite <- (assoc_L (++))|done].
  - eexists t, _. rewrite Q5, U8, E8. split; [done|]. split; [by exists (d_tick d1)|]. case_match; lia.
Qed.
End admitted.

(** (C18) The door admits only what refine will: a public order that [api_order] accepts is queued with a fresh id, over
    terms its registered key signed for this market, in the form refine checks of a signed order; its seq is above
    the account's settled seq and no live order of the account carries it; and it expires within the rent-funded
    lifetime, whatever the request asked for. *)
Theorem accepted_order_is_admissible worlds ed25519 cfg q d r d' :
  api_order worlds ed25519 cfg q d = (Ok r, d') → q_sealed q = false → REQUIRE_ORDER_SIG cfg = true →
  (∀ k v, key4 "pk" (q_account q) = Ok k → answered worlds k v → (length v ≤ 32)%nat) →
  ∃ o, d_pending d' = <[q_market q := default [] (d_pending d !! q_market q) ++ [o]]> (d_pending d) ∧
    account o = q_account q ∧ oid o = d_next_oid d ∧ d_next_oid d' = d_next_oid d + 1 ∧
    well_signed (framed_sig ed25519) (q_market q) o ∧
    seq_in_use (account o) (seq o) d = false ∧
    (∃ k v, key4 "sq" (account o) = Ok k ∧ answered worlds k v ∧ le_int v < seq o) ∧
    ∃ n, default 0 (d_expiry d' !! (q_market q, account o, oid o)) ≤ w_time (worlds n) + order_lifetime cfg false.
Proof.
  unfold api_order. intros (c & d1 & Hc & H)%se_bind_ok Hq Hreq Hlen.
  destruct (check_passed _ _ _ _ _ _ _ Hc Hq) as [Pd Ps Pq Pp (k & pk & Hk & Hans & Hpk & Ec & Hver) Psig Pseq Pfl].
  assert (Hquiet : quiet d d1) by (rewrite <- (se_run _ _ _ _ Hc); by apply check_quiet).
  destruct Hquiet as (Q1 & _ & Q3 & _). destruct (admit_spec worlds ed25519 cfg q c d1 r d' H) as [o A]. destruct A.
  rewrite Pd in ad_oid0, ad_next0. destruct ad_terms0 as (Ep & Eq & Et), ad_auth0 as (Es & Esp & Esig & Epk). destruct (Hver Hreq) as (msg & Hm & Hv).
  exists o. rewrite <- Q1, ad_account0, Es. split_and!; [done|done|congruence|lia| |done|done|].
  - split; [split_and!; [| |rewrite Epk, Ec; cbn; specialize (Hlen k pk Hk Hans); lia|by rewrite Esig]|split].
    + unfold valid_side. rewrite ad_side0, Ps. destruct (q_buy q); [by left|by right].
    + congruence.
    + intros El. rewrite Et in El. rewrite El in Pp. destruct Pp. congruence.
    + intros msg' Hm'. unfold is_market_order in Hm'. rewrite ad_account0, ad_side0, Eq, Pq, Et, Esp, Es in Hm'. rewrite Hm in Hm'. injection Hm' as <-.
      by rewrite Epk, Ec, Esig.
  - destruct ad_expiry0 as (t & ttl & -> & (n & ->) & Hle). exists n. rewrite lookup_insert_eq. cbn. rewrite Hq in Hle. lia.
Qed.

(** ** A concrete door *)
Module Sample.
(** A chain where every account holds the same key, which signs with one fixed signature. *)
Definition key : bytes := repeat 9 32.
Definition seven : bytes := repeat 7 64.
Definition ed25519 (pk msg sg : bytes) : bool := bool_decide (pk = key) && bool_decide (sg = seven).
Definition reads (k : bytes) : result bytes :=
  if bool_decide (take 2 k = text "pk") then Ok key
  else if bool_decide (take 1 k = text "b" ∧ take 4 k ≠ text "book") then Ok (le_bytes 8 1000000000)
  else Ok [].
Definition at_ (n : nat) : world :=
  World (Z.of_nat n * 1000) reads (λ _, Ok tt) 0 (repeat 3 32) Ok 1%positive (λ _, true) (λ _, []).
Definition buy (sq : Z) : order_req := OrderReq 1 true limit 7 5 3 0 1 sq seven false 0 (Ok []) (Ok 0) (Ok 0).
Definition first_order : result order_reply * door := api_order at_ ed25519 default_door_cfg (buy 4) door_init.
Definition replayed : result order_reply * door := api_order at_ ed25519 default_door_cfg (buy 4) first_order.2.
End Sample.

Lemma refused_order_leaves_nothing_witness :
  is_ok Sample.replayed.1 = false ∧ refused_leaves (Sample.buy 4) Sample.first_order.2 Sample.replayed.2.
Proof.
  split; [vm_compute; reflexivity|].
  apply (refused_order_leaves_nothing Sample.at_ Sample.ed25519 default_door_cfg (Sample.buy 4) Sample.first_order.2
           (ValueError "order seq is already used by a live order of this account")).
  vm_compute. reflexivity.
Defined.

(** A public order whose ttl is not a number is refused, and its id is never given to another. *)
Example bad_ttl_skips_id :
  let q := OrderReq 1 true limit 7 5 3 0 1 4 Sample.seven false 0 (Ok []) (Ok 0) (Raise (ValueError "could not convert string to float")) in
  let '(r, d) := api_order Sample.at_ Sample.ed25519 default_door_cfg q door_init in
  r = Raise (ValueError "could not convert string to float") ∧ d_next_oid d = 1001 ∧ d_pending d = ∅.
Proof. vm_compute. split_and!; reflexivity. Qed.

Lemma accepted_order_is_admissible_witness :
  ∃ o, d_pending Sample.first_order.2 = {[ 1 := [o] ]} ∧ account o = 7 ∧ seq o = 4 ∧
    well_signed (framed_sig Sample.ed25519) 1 o.
Proof.
  destruct (accepted_order_is_admissible Sample.at_ Sample.ed25519 default_door_cfg (Sample.buy 4) door_init
              (OrderReply 1000 false 1) Sample.first_order.2) as (o & Hp & Ha & _ & _ & Hw & _).
  - vm_compute. reflexivity.
  - reflexivity.
  - reflexivity.
  - intros k v _ [n Hn]. cbn in Hn. unfold Sample.reads in Hn. repeat case_match; injection Hn as <-; vm_compute; lia.
  - exists o. split_and!; [exact Hp|exact Ha| |exact Hw]. apply (f_equal (λ p, seq <$> (head (default [] (p !! 1))))) in Hp.
    rewrite lookup_insert_eq in Hp. vm_compute in Hp. injection Hp as Hp. exact (eq_sym Hp).
Defined.
