(* ===== verification/DoorInv.v ===== *)
(** * The door: what holds after any history

    The handlers of Door.v as steps, each run to its end before the next, interleaved with the round loop, which moves
    orders that were placed between the queues and the rounds in flight, drops them or brings them back.  In every state
    so reached order ids are unique and a draft's id is used by nothing else.  The server does more than that: its handlers
    run on threads of their own and [next_oid] is bumped without a lock, so two orders placed at once may share an id.

    Pending registrations: what one sweep of the resolver does to each of them, exactly. *)
From S2P Require Import Prelude Orders Batch Bytes Wire Telemetry Treasury Executions Door DoorSafety.

(** ** Steps that place no order *)

(** The ids of the orders reported placed. *)
Definition placed_oids (l : list door_event) : list Z := omap (λ e, match e with DPlaced _ o _ => Some (oid o) | _ => None end) l.
Definition reg_keys (d : door) : list bytes := map fst (d_regs d).

Definition aside (d d' : door) : Prop :=
  d_pending d' = d_pending d ∧ d_inflight d' = d_inflight d ∧ d_next_oid d' = d_next_oid d ∧ d_drafts d' ⊆ d_drafts d ∧
  placed_oids (d_log d') = placed_oids (d_log d) ∧ (NoDup (reg_keys d) → NoDup (reg_keys d')).
#[export] Instance aside_tr : Transition aside.
Proof.
  split; unfold aside; [done|]. intros a b c (-> & -> & -> & Hd & -> & Hr) (-> & -> & -> & Hd' & -> & Hr').
  split_and!; [done..| |done|naive_solver]. by etrans.
Qed.
Lemma quiet_aside d d' : quiet d d' → aside d d'.
Proof. unfold aside, reg_keys. intros (-> & -> & -> & -> & _ & _ & -> & ->). done. Qed.
Lemma rel_quiet_aside {A} (c : SE door A) : rel quiet c → rel aside c.
Proof. intros H d. apply quiet_aside, H. Qed.
Lemma aside_put f : (∀ d, aside d (f d)) → rel aside (se_put f).
Proof. apply rel_put. Qed.
Lemma aside_cancels f : rel aside (se_put (λ d, set_cancels (f d) d)).
Proof. by apply rel_put. Qed.
Lemma aside_expiry f : rel aside (se_put (set_expiry f)).
Proof. by apply rel_put. Qed.
Lemma aside_take m i : rel aside (se_put (set_drafts (delete (m, i)))).
Proof. apply rel_put. intros d. unfold aside. split_and!; try done. apply delete_subseteq. Qed.
Lemma aside_log l : placed_oids l = [] → rel aside (se_put (log_door l)).
Proof.
  intros Hl. apply rel_put. intros d. unfold aside. split_and!; try done. cbn. unfold placed_oids in *. rewrite omap_app, Hl. apply app_nil_r.
Qed.

Lemma reg_pop_keys pk l : NoDup (map fst l) → NoDup (map fst (reg_pop pk l)).
Proof. intros H. unfold reg_pop. eapply sublist_NoDup; [exact H|]. apply fmap_sublist, sublist_filter. Qed.
Lemma reg_set_keys pk f l : map fst (reg_set pk f l) = map fst l.
Proof. unfold reg_set. rewrite map_map. apply map_ext. intros [k e]. by case_decide. Qed.
Lemma aside_regs f : (∀ l, NoDup (map fst l) → NoDup (map fst (f l))) → rel aside (upd_regs f).
Proof. intros H. apply rel_put. intros d. unfold aside. split_and!; try done. apply H. Qed.
Lemma aside_reg_pop pk : rel aside (upd_regs (reg_pop pk)).
Proof. apply aside_regs. intros l. apply reg_pop_keys. Qed.
Lemma aside_reg_set pk f : rel aside (upd_regs (reg_set pk f)).
Proof. apply aside_regs. intros l. by rewrite reg_set_keys. Qed.
#[export] Hint Resolve rel_quiet_aside aside_cancels aside_expiry aside_take aside_reg_pop aside_reg_set : rel.

Section sides.
Context (worlds : nat → world) (ed25519 : bytes → bytes → bytes → bool) (commitment : bytes → bytes) (cfg : door_cfg).

Ltac aside_tac := rel_step; eauto 4 using quiet_ask, quiet_chain_read, quiet_read4, quiet_balance, quiet_pubkey, quiet_signer, quiet_price,
  quiet_seq, quiet_funds, quiet_open, quiet_marketable with rel.
Lemma aside_relay p : rel aside (relay worlds p).
Proof. unfold relay. aside_tac. by apply aside_log. Qed.
#[local] Hint Resolve aside_relay : rel.
Lemma aside_take_draft q pub : rel aside (take_draft q pub).
Proof. unfold take_draft. aside_tac. Qed.
#[local] Hint Resolve aside_take_draft : rel.
Lemma aside_check q : rel aside (check_order worlds ed25519 cfg q).
Proof. unfold check_order. aside_tac. Qed.
Lemma aside_commit m dr s sg : rel aside (submit_signed_commit worlds cfg m dr s sg).
Proof. unfold submit_signed_commit. aside_tac. Qed.
Lemma admit_raises_aside q dr sd px qt sp pub : raises aside (admit_order worlds cfg q (Some dr) sd px qt sp pub).
Proof.
  unfold admit_order. do 6 (apply raises_bind; [apply _|aside_tac; eauto using aside_commit|intros ?]).
  apply raises_bind; [apply _|aside_tac|intros ?]. apply total_raises. intros d. reflexivity.
Qed.
Lemma api_order_raises q d e d' : api_order worlds ed25519 cfg q d = (Raise e, d') → ∃ n, d_next_oid d ≤ n ∧ aside (set_next_oid n d) d'.
Proof.
  assert (Hid : ∀ d', aside d d' → ∃ n, d_next_oid d ≤ n ∧ aside (set_next_oid n d) d') by (intros d0 H; exists (d_next_oid d); destruct d; done).
  unfold api_order. intros [H|(c & d1 & Hc & H)]%se_bind_raise; [apply Hid; by eapply (rel_raises _ _ (aside_check q))|].
  assert (Ha : aside d d1) by (rewrite <- (se_run _ _ _ _ Hc); apply aside_check). destruct (ck_draft c) as [dr|] eqn:Ed.
  - apply Hid. apply (@tr_trans _ aside _ d d1 d'); [done|]. by eapply admit_raises_aside.
  - apply admit_public in H as [_ ->]. exists (d_next_oid d + 1). split; [lia|]. destruct Ha as (H1 & H2 & H3 & H4). rewrite H3. unfold aside. cbn. naive_solver.
Qed.
Lemma aside_deposit a s n x f : rel aside (api_deposit worlds a s n x f).
Proof. unfold api_deposit. aside_tac. Qed.
Lemma aside_withdraw h a n x s : rel aside (api_withdraw worlds h a n x s).
Proof. unfold api_withdraw. aside_tac. Qed.
Lemma aside_list m b q : rel aside (api_list worlds m b q).
Proof. unfold api_list. aside_tac. Qed.
Lemma aside_treasury a n t x s : rel aside (api_treasury worlds a n t x s).
Proof. unfold api_treasury. aside_tac. Qed.
Lemma quiet_resting m a i : rel quiet (resting_entry worlds m a i).
Proof. unfold resting_entry. apply rel_bind; [apply _|apply quiet_read4|intros ?; apply rel_ret, _]. Qed.
Lemma quiet_landed_fill i rs : rel quiet (any_landed_fill worlds i rs).
Proof.
  induction rs as [|[f r] rs IH]; cbn; [apply rel_ret, _|]. case_match; [done|]. apply rel_bind; [apply _| |intros []; [apply rel_ret, _|done]].
  unfold is_landed. apply rel_bind; [apply _|apply quiet_chain_read|intros ?; apply rel_ret, _].
Qed.
Lemma aside_cancel h m i n s : rel aside (api_cancel worlds h m i n s).
Proof. unfold api_cancel. aside_tac; eauto using quiet_resting with rel. Qed.
Lemma aside_resolve_cancel now c : rel aside (resolve_cancel worlds now c).
Proof.
  unfold resolve_cancel, may_fill, nonce_of. aside_tac; eauto using quiet_resting, quiet_landed_fill with rel.
  by apply aside_log.
Qed.
Lemma aside_resolve_each now l : rel aside (resolve_each worlds now l).
Proof. induction l as [|c l IH]; cbn; [apply rel_ret, _|]. aside_tac; eauto using aside_resolve_cancel. Qed.
Lemma aside_resolve_cancels now : rel aside (resolve_cancels worlds now).
Proof.
  unfold resolve_cancels. apply rel_bind; [apply _|apply rel_get, _|intros b]. apply rel_bind; [apply _|by apply rel_put|intros _].
  apply rel_bind; [apply _|apply aside_resolve_each|intros k]. by apply rel_put.
Qed.
Lemma aside_try_register pk now : rel aside (try_submit_register worlds pk now).
Proof. unfold try_submit_register. aside_tac. Qed.
Lemma aside_resolve_reg now pk : rel aside (resolve_registration worlds cfg now pk).
Proof. unfold resolve_registration, handle_of. aside_tac; eauto using aside_try_register. Qed.
Lemma aside_resolve_regs now : rel aside (resolve_registrations worlds cfg now).
Proof.
  unfold resolve_registrations. apply rel_bind; [apply _|apply rel_get, _|intros l]. induction l as [|pk l IH]; cbn; [apply rel_ret, _|].
  apply rel_bind; [apply _|apply aside_resolve_reg|done].
Qed.

Lemma reg_get_none pk l : reg_get pk l = None → pk ∉ map fst l.
Proof.
  unfold reg_get. intros H Hin. apply list_elem_of_fmap in Hin as ([k e] & -> & Hin). apply (list_find_elem_of (λ p, p.1 = k)) in Hin as [[i x] Hx]; [|done].
  cbn in *. rewrite Hx in H. done.
Qed.
Lemma aside_add pk e d : pk ∉ reg_keys d → aside d (set_regs (d_regs d ++ [(pk, e)]) d).
Proof.
  intros Hpk. unfold aside. split_and!; try done. unfold reg_keys in *. cbn. rewrite map_app. intros H. apply NoDup_app. split_and!; [done| |].
  - intros k Hk Hk'. apply list_elem_of_singleton in Hk'. cbn in Hk'. by subst.
  - apply NoDup_singleton.
Qed.
Lemma aside_register pk sg : rel aside (api_register worlds pk sg).
Proof.
  unfold api_register. apply rel_bind; [apply _|unfold handle_of; aside_tac|intros [h|]]; [aside_tac|].
  intros d. unfold mbind at 1, SE_bind at 1. cbn [se_get]. destruct (reg_get pk (d_regs d)) eqn:E; [apply tr_refl|]. apply reg_get_none in E.
  match goal with |- aside d (((_ ≫= ?f) d).2) => change (aside d (f (le_bytes 1 TAG_REGISTER) d).2) end. cbv beta.
  match goal with |- aside d (((_ ≫= ?f) d).2) => change (aside d (f (w_time (worlds (d_tick d))) (next_tick d)).2) end. cbv beta.
  unfold mbind at 1, SE_bind at 1. cbn [upd_regs se_put]. eapply tr_trans; [|apply (rel_bind aside)].
  - by apply (aside_add pk _ (next_tick d)).
  - apply rel_quiet_aside, quiet_ask.
  - intros t. apply rel_bind; [apply _|apply aside_try_register|intros _; apply rel_ret, _].
Qed.
End sides.

(** ** Histories *)
Section histories.
Context (worlds : nat → world) (ed25519 : bytes → bytes → bytes → bool) (commitment : bytes → bytes) (cfg : door_cfg).

(** One step: a request, a sweep of the resolver, or the round loop moving orders that were placed. *)
Inductive step (d : door) : door → Prop :=
| StepOrder q : step d (api_order worlds ed25519 cfg q d).2
| StepSeal q : step d (api_seal_prepare worlds commitment cfg q d).2
| StepDeposit a s n x f : step d (api_deposit worlds a s n x f d).2
| StepWithdraw h a n x sg : step d (api_withdraw worlds h a n x sg d).2
| StepList m b q : step d (api_list worlds m b q d).2
| StepTreasury a n t x sg : step d (api_treasury worlds a n t x sg d).2
| StepCancel h m i n sg : step d (api_cancel worlds h m i n sg d).2
| StepCancels now : step d (resolve_cancels worlds now d).2
| StepRegister pk sg : step d (api_register worlds pk sg d).2
| StepRegs now : step d (resolve_registrations worlds cfg now d).2
| StepRounds p f e :
    (∀ o, o ∈ live_orders (Door p f (d_next_oid d) (d_drafts d) e (d_cancels d) (d_regs d) (d_log d) (d_tick d)) → oid o ∈ placed_oids (d_log d)) →
    step d (Door p f (d_next_oid d) (d_drafts d) e (d_cancels d) (d_regs d) (d_log d) (d_tick d)).

(** The states a history leads to. *)
Inductive reachable : door → Prop :=
| reach_init : reachable door_init
| reach_step d d' : reachable d → step d d' → reachable d'.

Record unique (d : door) : Prop := {
  un_placed : NoDup (placed_oids (d_log d));
  un_below i : i ∈ placed_oids (d_log d) → i < d_next_oid d;
  un_draft m n dr : d_drafts d !! (m, n) = Some dr → oid dr = n ∧ n < d_next_oid d ∧ n ∉ placed_oids (d_log d);
  un_market m m' n dr dr' : d_drafts d !! (m, n) = Some dr → d_drafts d !! (m', n) = Some dr' → m = m';
  un_live o : o ∈ live_orders d → oid o ∈ placed_oids (d_log d);
  un_regs : NoDup (reg_keys d)
}.

Lemma unique_aside d d' : unique d → aside d d' → unique d'.
Proof.
  intros U (Ep & Ei & En & Hd & El & Hr). split.
  - rewrite El. apply U.
  - rewrite El, En. apply U.
  - intros m n dr H. rewrite El, En. eapply (un_draft _ U), lookup_weaken; done.
  - intros m m' n dr dr' H H'. eapply (un_market _ U); eapply lookup_weaken; done.
  - intros o. unfold live_orders. rewrite Ep, Ei, El. apply (un_live _ U).
  - apply Hr, U.
Qed.

Lemma unique_bump d : unique d → unique (set_next_oid (d_next_oid d + 1) d).
Proof.
  intros U. split; cbn; try apply U.
  - intros i Hi%(un_below _ U). lia.
  - intros m n dr H. destruct (un_draft _ U _ _ _ H) as (? & ? & ?). split_and!; [done|lia|done].
Qed.

Lemma unique_draft m n o d : unique d → oid o = n → n < d_next_oid d → n ∉ placed_oids (d_log d) →
  (∀ m' dr, d_drafts d !! (m', n) = Some dr → m' = m) → unique (set_drafts (insert (m, n) o) d).
Proof.
  intros U Ho Hn Hp Hm. split; cbn; try apply U.
  - intros m' n' dr. rewrite lookup_insert_Some. intros [[E <-]|[E H]]; [injection E as <- <-; done|by apply (un_draft _ U) in H].
  - intros m1 m2 n' dr dr'. rewrite !lookup_insert_Some. intros [[E1 _]|[E1 H1]] [[E2 _]|[E2 H2]]; [congruence|..].
    + injection E1 as -> <-. symmetry. by eapply Hm.
    + injection E2 as -> <-. by eapply Hm.
    + by eapply (un_market _ U).
Qed.

Lemma live_insert m l d : ∀ o, o ∈ live_orders (set_pending (λ p, <[m := l]> p) d) → o ∈ l ∨ o ∈ live_orders d.
Proof.
  intros o. unfold live_orders. cbn. rewrite !elem_of_app, !list_elem_of_In, !in_concat. setoid_rewrite in_map_iff.
  intros [(x & ([m' x'] & <- & Hx) & Ho)|H]; [|by right; right]. cbn in Ho. apply list_elem_of_In, elem_of_map_to_list in Hx.
  apply lookup_insert_Some in Hx as [[<- <-]|[_ Hx]]; [by left|]. right. left. exists x'. split; [|done]. exists (m', x').
  split; [done|]. by apply list_elem_of_In, elem_of_map_to_list.
Qed.
Lemma live_queue m d o : o ∈ default [] (d_pending d !! m) → o ∈ live_orders d.
Proof.
  unfold live_orders. destruct (d_pending d !! m) as [l|] eqn:E; cbn; [|by intros ?%not_elem_of_nil]. intros Ho.
  rewrite elem_of_app. left. rewrite list_elem_of_In, in_concat. exists l. split; [|by apply list_elem_of_In].
  rewrite in_map_iff. exists (m, l). split; [done|]. by apply list_elem_of_In, elem_of_map_to_list.
Qed.
(** The draft a sealed order is checked with was prepared, and is used up. *)
Lemma check_draft q d c d1 dr : check_order worlds ed25519 cfg q d = (Ok c, d1) → ck_draft c = Some dr →
  d_drafts d !! (q_market q, q_oid q) = Some dr ∧ d_drafts d1 !! (q_market q, q_oid q) = None.
Proof.
  intros H Hdr. destruct (q_sealed q) eqn:Hq; [|by rewrite (check_public _ _ _ _ _ _ _ H Hq) in Hdr].
  unfold check_order in H. rewrite Hq in H. cbv beta iota zeta in H. set (sd := if q_buy q then BUY else SELL) in *.
  apply se_bind_ok in H as (? & d2 & H1 & H). apply se_bind_ok in H as (px & d3 & H2 & H).
  apply se_bind_ok in H as (pub & d4 & H3 & H). apply se_bind_ok in H as (odr & d5 & H5 & H).
  apply se_bind_ok in H as (? & d6 & [= _ <-] & H). apply se_bind_ok in H as (? & d7 & [_ ->]%lift_ok & H).
  apply se_bind_ok in H as (? & d8 & [_ ->]%refuse_ok & H). apply se_bind_ok in H as (? & d9 & [= _ <-] & H).
  apply se_bind_ok in H as (? & d10 & H10 & H). apply se_bind_ok in H as (? & d11 & H11 & H). injection H as <- <-. cbn in Hdr. subst odr.
  assert (Hq4 : aside d d4 ∧ d_drafts d4 = d_drafts d).
  { assert (quiet d d4) as Hd4; [|split; [by apply quiet_aside|by destruct Hd4 as (_ & _ & _ & ? & _)]].
    apply (@tr_trans _ quiet _ d d2); [|apply (@tr_trans _ quiet _ d2 d3)].
    - rewrite <- (se_run _ _ _ _ H1). destruct (JAMKB_BACKPRESSURE cfg); [|apply tr_refl].
      apply rel_bind; [apply _|apply quiet_balance|]. intros. apply rel_bind; [apply _|apply quiet_ask|]. intros. apply rel_refuse, _.
    - rewrite <- (se_run _ _ _ _ H2). apply quiet_price.
    - rewrite <- (se_run _ _ _ _ H3). apply quiet_pubkey. }
  destruct Hq4 as [_ Ed4]. apply se_bind_ok in H5 as (dr' & d12 & H5 & [= -> <-]).
  unfold take_draft in H5. apply se_bind_ok in H5 as (y & ? & [= <- <-] & H5). apply se_bind_ok in H5 as (? & d13 & [= _ <-] & H5).
  destruct (d_drafts d4 !! (q_market q, q_oid q)) as [dr0|] eqn:E; [|done].
  apply se_bind_ok in H5 as (? & ? & [_ ->]%refuse_ok & H5). apply se_bind_ok in H5 as (? & ? & [_ ->]%refuse_ok & H5).
  apply se_bind_ok in H5 as (? & ? & [_ ->]%lift_ok & H5). apply se_bind_ok in H5 as (? & ? & [_ ->]%refuse_ok & H5).
  apply se_bind_ok in H5 as (? & ? & [_ ->]%lift_ok & H5). apply se_bind_ok in H5 as (? & ? & [_ ->]%refuse_ok & [= -> <-]). rewrite <- Ed4. split; [done|].
  apply (f_equal snd) in H10, H11. cbn in H10, H11. subst d10 d11.
  match goal with |- d_drafts (snd (?c ?d0)) !! _ = None => assert (quiet d0 (snd (c d0))) as (_ & _ & _ & -> & _) end.
  { destruct (0 <? MAX_OPEN_ORDERS cfg); [|apply tr_refl]. apply rel_bind; [apply _|apply quiet_open|]. intros. apply rel_refuse, _. }
  match goal with |- d_drafts (snd (?c ?d0)) !! _ = None => assert (quiet d0 (snd (c d0))) as (_ & _ & _ & -> & _) by apply quiet_funds end.
  apply lookup_delete_eq.
Qed.

Lemma unique_admit q c d r d' o : unique d → admits worlds cfg q c d r d' o →
  (∀ dr, ck_draft c = Some dr → oid dr < d_next_oid d ∧ oid dr ∉ placed_oids (d_log d) ∧ ∀ m, d_drafts d !! (m, oid dr) = None) →
  unique d'.
Proof.
  intros U [_ ad_oid0 _ _ _ _ _ ad_pending0 ad_inflight0 ad_next0 ad_drafts0 ad_regs0 ad_log0 _] Hdr. destruct ad_log0 as (l & mk & El & Hl), ad_regs0 as [Er _].
  assert (Hpl : placed_oids (d_log d') = placed_oids (d_log d) ++ [oid o]).
  { rewrite El. unfold placed_oids. rewrite !omap_app. cbn. f_equal. replace (omap _ l) with ([] : list Z); [done|].
    symmetry. apply elem_of_nil_inv. intros i Hi. apply list_elem_of_omap in Hi as ([] & Hin & E); try done. by apply Hl in Hin. }
  assert (Hfresh : oid o < d_next_oid d' ∧ d_next_oid d ≤ d_next_oid d' ∧ oid o ∉ placed_oids (d_log d) ∧
                   ∀ m dr, d_drafts d !! (m, oid o) = Some dr → False).
  { destruct (ck_draft c) as [dr|].
    - destruct (Hdr dr eq_refl) as (H1 & H2 & H3). rewrite ad_oid0, ad_next0. split_and!; [done|lia|done|]. intros m dr' H. by rewrite H3 in H.
    - rewrite ad_oid0, ad_next0. split_and!; [lia|lia| |].
      + intros Hi%(un_below _ U). lia.
      + intros m dr' (_ & ? & _)%(un_draft _ U). lia. }
  destruct Hfresh as (F1 & F2 & F3 & F4). split.
  - rewrite Hpl. apply NoDup_app. split_and!; [apply U| |apply NoDup_singleton]. intros i Hi ->%list_elem_of_singleton. done.
  - intros i. rewrite Hpl, elem_of_app, list_elem_of_singleton. intros [Hi%(un_below _ U)| ->]; lia.
  - intros m n dr. rewrite ad_drafts0, Hpl, not_elem_of_app, list_elem_of_singleton. intros H.
    destruct (un_draft _ U _ _ _ H) as (? & ? & ?). split_and!; [done|lia|done|]. intros ->. by eapply F4.
  - rewrite ad_drafts0. apply (un_market _ U).
  - intros x Hx. rewrite Hpl, elem_of_app, list_elem_of_singleton.
    assert (Hx' : x ∈ live_orders (set_pending (λ p, <[q_market q := default [] (d_pending d !! q_market q) ++ [o]]> p) d)).
    { revert Hx. unfold live_orders. cbn. by rewrite ad_pending0, ad_inflight0. }
    apply live_insert in Hx' as [Hx'|Hx']; [|left; by apply (un_live _ U)]. apply elem_of_app in Hx' as [Hx'| ->%list_elem_of_singleton]; [|by right].
    left. by eapply (un_live _ U), live_queue.
  - unfold reg_keys. rewrite Er. apply U.
Qed.

Lemma unique_next n d : d_next_oid d ≤ n → unique d → unique (set_next_oid n d).
Proof.
  intros Hn [H1 H2 H3 H4 H5 H6]. split; cbn; try done.
  - intros i Hi. specialize (H2 i Hi). lia.
  - intros m k dr Hd. destruct (H3 m k dr Hd) as (? & ? & ?). split_and!; [done|lia|done].
Qed.
Lemma unique_order q d : unique d → unique (api_order worlds ed25519 cfg q d).2.
Proof.
  intros U. destruct (api_order worlds ed25519 cfg q d) as [[r|e] d'] eqn:H; cbn.
  - unfold api_order in H. apply se_bind_ok in H as (c & d1 & Hc & H). destruct (admit_spec worlds ed25519 cfg q c d1 r d' H) as [o A].
    assert (Ha : aside d d1) by (rewrite <- (se_run _ _ _ _ Hc); apply aside_check).
    eapply unique_admit; [by eapply unique_aside|exact A|]. intros dr Hdr. destruct (check_draft _ _ _ _ _ Hc Hdr) as [H1 H2].
    destruct (un_draft _ U _ _ _ H1) as (E & ? & ?), Ha as (_ & _ & -> & Hsub & -> & _). rewrite E. split_and!; [done..|].
    intros m. destruct (d_drafts d1 !! (m, q_oid q)) as [dr'|] eqn:E'; [|done]. assert (m = q_market q) as ->; [|congruence].
    eapply (un_market _ U); [eapply lookup_weaken; [exact E'|exact Hsub]|exact H1].
  - apply api_order_raises in H as (n & Hn & H). eapply unique_aside; [|exact H]. by apply unique_next.
Qed.

Lemma draft_oid o d x d' : draft_material worlds commitment cfg o d = (Ok x, d') → oid x.1 = oid o ∧ quiet d d'.
Proof.
  unfold draft_material. intros (ob & d1 & [_ ->]%lift_ok & H)%se_bind_ok. destruct (ENC_MODE cfg).
  - apply se_bind_ok in H as (ct & d2 & H2 & H). apply se_bind_ok in H as (ct' & d3 & [_ ->]%lift_ok & [= <- <-]).
    split; [done|]. rewrite <- (se_run _ _ _ _ H2). apply quiet_ask.
  - apply se_bind_ok in H as (nn & d2 & H2 & [= <- <-]). split; [done|]. rewrite <- (se_run _ _ _ _ H2). apply quiet_ask.
Qed.
Lemma quiet_material o : rel quiet (draft_material worlds commitment cfg o).
Proof. unfold draft_material. rel_step; eauto using quiet_ask. Qed.

Lemma unique_seal q d : unique d → unique (api_seal_prepare worlds commitment cfg q d).2.
Proof.
  intros U. unfold api_seal_prepare. set (sd := if q_buy q then BUY else SELL). unfold mbind at 1, SE_bind at 1.
  pose proof (quiet_price worlds (q_market q) sd (q_type q) (q_price q) d) as Hq.
  destruct (placed_price _ _ _ _ _ d) as [[px|e] d1]; cbn in Hq; [|by eapply unique_aside, quiet_aside].
  assert (U1 : unique d1) by (by eapply unique_aside, quiet_aside). clear U Hq. unfold mbind, SE_bind. cbn [se_get se_put ask].
  set (o := Order _ _ _ _ _ _ _ _ _ _ _ _ _ _ _ _). set (d2 := next_tick _).
  assert (U2 : unique d2) by (eapply unique_aside; [by apply unique_bump|done]).
  pose proof (quiet_material o d2) as Hq.
  destruct (draft_material worlds commitment cfg o d2) as [[x|e] d3] eqn:E; cbn in Hq; [|by eapply unique_aside, quiet_aside].
  apply draft_oid in E as [E _]. assert (U3 : unique d3) by (by eapply unique_aside, quiet_aside). cbn.
  destruct Hq as (_ & _ & En & Ed & _ & _ & _ & El). apply unique_draft; [done|by destruct x as [[] ?]|rewrite En; cbn; lia| |].
  - rewrite El. intros Hi%(un_below _ U1). lia.
  - rewrite Ed. intros m dr H. destruct (un_draft _ U1 m (d_next_oid d1) dr H) as (_ & ? & _). lia.
Qed.

Lemma unique_init : unique door_init.
Proof. split; cbn; try done; try constructor; try (intros; set_solver); by intros ? ?%not_elem_of_nil. Qed.
Lemma unique_step d d' : unique d → step d d' → unique d'.
Proof.
  intros U []; [by apply unique_order|by apply unique_seal|..];
    try (eapply unique_aside; [exact U|]; first [apply aside_deposit|apply aside_withdraw|apply aside_list|apply aside_treasury|apply aside_cancel
           |apply aside_resolve_cancels|apply aside_register|apply aside_resolve_regs]).
  destruct U. by split.
Qed.
End histories.

(** Order ids, with one request at a time: no id is placed twice; every id placed or prepared is below the next one; the id
    of a prepared sealed order belongs to one draft and to no placed order; every live order was placed; and a key has one
    pending registration. *)
Lemma reachable_unique worlds ed25519 commitment cfg d : reachable worlds ed25519 commitment cfg d → unique d.
Proof.
  induction 1 as [|d d' _ IH H]; [apply unique_init|by eapply unique_step].
Qed.

(** ** Registrations settle *)
Section registrations.
Context (worlds : nat → world) (cfg : door_cfg).

(** The chain answers reads, and a submit fails at most because the chain is busy. *)
Definition answering : Prop :=
  ∀ n, (∀ k, is_ok (w_read (worlds n) k) = true) ∧ ∀ p, w_submit (worlds n) p = Ok tt ∨ ∃ why, w_submit (worlds n) p = Raise (ChainBusy why).

(** What a sweep at [now] makes of the pending registration [e] of [pk], reading its handle at the instant [n]: what stays
    pending, and the payloads submitted. *)
Definition fate (now : Z) (n : nat) (pk : bytes) (e : registration) (out : option registration * list bytes) : Prop :=
  match w_read (worlds n) (text "h" ++ pk) with
  | Raise _ => False
  | Ok (_ :: _) => out = (None, [])                                   (* landed *)
  | Ok [] =>
      if decide (REG_GIVEUP_MS cfg < now - rg_t e ∨ REG_MAX_ATTEMPTS cfg ≤ rg_attempts e) then out = (None, [])   (* given up *)
      else if decide (REG_RETRY_MS cfg ≤ now - rg_last e) then            (* due: submitted at the next instant *)
        ∃ counted, out = (Some (Registration (rg_payload e) (rg_t e) (rg_attempts e + counted) now), [rg_payload e]) ∧
          match w_submit (worlds (S n)) (rg_payload e) with
          | Ok _ => counted = 1
          | Raise x => counted = 0 ∧ ∃ why, x = ChainBusy why
          end
      else out = (Some e, [])
  end.
(** The entry as it is kept. *)
Definition still_pending (p : bytes * registration) (out : option registration * list bytes) : list (bytes * registration) :=
  match out.1 with Some e => [(p.1, e)] | None => [] end.

Lemma reg_get_at pk e l r : pk ∉ map fst l → reg_get pk (l ++ (pk, e) :: r) = Some e.
Proof.
  intros Hl. unfold reg_get. rewrite (proj2 (list_find_Some _ _ (length l) (pk, e))); [done|]. split_and!.
  - by apply list_lookup_middle.
  - done.
  - intros j y Hj Hlt. rewrite lookup_app_l in Hj by done. intros E. apply Hl, list_elem_of_fmap. exists y. split; [done|]. by eapply list_elem_of_lookup_2.
Qed.
Lemma reg_pop_at pk e l r : pk ∉ map fst l → pk ∉ map fst r → reg_pop pk (l ++ (pk, e) :: r) = l ++ r.
Proof.
  intros Hl Hr. assert (Hother : ∀ k : list (bytes * registration), pk ∉ map fst k → filter (λ p, p.1 ≠ pk) k = k).
  { intros k Hk. apply filter_all. intros p Hp E. apply Hk, list_elem_of_fmap. by exists p. }
  unfold reg_pop. rewrite filter_app, filter_cons, decide_False by (by intros H; apply H). by rewrite !Hother.
Qed.
Lemma reg_set_at pk f e l r : pk ∉ map fst l → pk ∉ map fst r → reg_set pk f (l ++ (pk, e) :: r) = l ++ (pk, f e) :: r.
Proof.
  intros Hl Hr. assert (Hother : ∀ k : list (bytes * registration), pk ∉ map fst k → reg_set pk f k = k).
  { induction k as [|p k IH]; intros Hk; [done|]. cbn [map] in Hk. apply not_elem_of_cons in Hk as [Hp Hk].
    unfold reg_set in *. cbn [map]. rewrite decide_False by done. by rewrite IH. }
  unfold reg_set in *. rewrite List.map_app. cbn [map fst snd]. rewrite decide_True by done. by rewrite !Hother.
Qed.

Lemma relay_answered p d : answering →
  ∃ r, relay worlds p d = (r, log_door [DSubmit p] (next_tick d)) ∧ (r = Ok tt ∨ ∃ why, r = Raise (ChainBusy why)).
Proof. intros Ha. destruct (Ha (d_tick d)) as [_ Hs]. exists (w_submit (worlds (d_tick d)) p). split; [done|apply Hs]. Qed.
Lemma handle_answered pk d : answering → ∃ h, handle_of worlds pk d = (Ok h, next_tick d).
Proof.
  intros Ha. destruct (Ha (d_tick d)) as [Hr _]. specialize (Hr (text "h" ++ pk)). unfold handle_of, chain_read, mbind, SE_bind, ask, se_lift.
  destruct (w_read (worlds (d_tick d)) (text "h" ++ pk)) as [v|]; [by eexists|done].
Qed.

Lemma resolve_reg_fate now pk e l r d : answering → d_regs d = l ++ (pk, e) :: r → pk ∉ map fst l → pk ∉ map fst r →
  ∃ d' out, resolve_registration worlds cfg now pk d = (Ok tt, d') ∧ fate now (d_tick d) pk e out ∧
    d_regs d' = l ++ still_pending (pk, e) out ++ r ∧ d_log d' = d_log d ++ map DSubmit out.2 ∧ (d_tick d < d_tick d')%nat.
Proof.
  intros Ha E Hl Hr. unfold resolve_registration, fate. unfold mbind, SE_bind at 1. cbn [se_get]. rewrite E, reg_get_at by done. unfold SE_bind.
  destruct (Ha (d_tick d)) as [Hread _]. specialize (Hread (text "h" ++ pk)).
  assert (Hh : handle_of worlds pk d = (match w_read (worlds (d_tick d)) (text "h" ++ pk) with Ok v => Ok (match v with [] => None | _ => Some (le_int v) end) | Raise x => Raise x end, next_tick d))
    by (unfold handle_of, chain_read, mbind, SE_bind, ask, se_lift; by destruct (w_read _ _)).
  rewrite Hh. clear Hh. destruct (w_read (worlds (d_tick d)) (text "h" ++ pk)) as [[|b v]|]; [| |done].
  2: { eexists _, (None, []). split; [reflexivity|]. cbn -[reg_pop]. rewrite E, reg_pop_at, app_nil_r by done. split_and!; [done..|lia]. }
  destruct ((REG_GIVEUP_MS cfg <? now - rg_t e) || (REG_MAX_ATTEMPTS cfg <=? rg_attempts e)) eqn:Eg.
  { apply orb_true_iff in Eg. eexists _, (None, []). split; [reflexivity|]. rewrite decide_True by (destruct Eg; zbool; auto).
    cbn -[reg_pop]. rewrite E, reg_pop_at, app_nil_r by done. split_and!; [done..|lia]. }
  apply orb_false_iff in Eg as [Eg1 Eg2]. zbool. destruct (decide (REG_GIVEUP_MS cfg < _ ∨ _)) as [?|_]; [lia|].
  destruct (REG_RETRY_MS cfg <=? now - rg_last e) eqn:Er; zbool.
  - destruct (decide (REG_RETRY_MS cfg ≤ _)) as [_|?]; [|lia]. unfold try_submit_register, mbind, SE_bind at 1. cbn [se_get]. change (d_regs (next_tick d)) with (d_regs d).
    rewrite E, reg_get_at by done. unfold SE_bind, se_try. destruct (relay_answered (rg_payload e) (next_tick d) Ha) as (x & Hx & Hok).
    assert (x = w_submit (worlds (S (d_tick d))) (rg_payload e)) as Ex by (injection Hx as <-; done).
    rewrite Hx, <- Ex. destruct Hok as [->|[why ->]].
    + eexists _, (Some (Registration (rg_payload e) (rg_t e) (rg_attempts e + 1) now), [rg_payload e]). split; [reflexivity|].
      split; [by exists 1|]. cbn -[reg_set]. rewrite E, !reg_set_at by done. split_and!; [done..|lia].
    + eexists _, (Some (Registration (rg_payload e) (rg_t e) (rg_attempts e + 0) now), [rg_payload e]). split; [reflexivity|].
      split; [exists 0; eauto|]. cbn -[reg_set Z.add]. rewrite E, !reg_set_at, Z.add_0_r by done. split_and!; [done..|lia].
  - destruct (decide (REG_RETRY_MS cfg ≤ _)) as [?|_]; [lia|]. eexists _, (Some e, []). split; [reflexivity|]. cbn. rewrite app_nil_r. split_and!; [done..|lia].
Qed.

(** An entry's fate, at some instant of the sweep. *)
Definition fate_within (now : Z) (from upto : nat) (p : bytes * registration) (out : option registration * list bytes) : Prop :=
  ∃ n, (from ≤ n < upto)%nat ∧ fate now n p.1 p.2 out.

Lemma resolve_regs_fate now todo : answering → ∀ l d, d_regs d = l ++ todo → NoDup (map fst (l ++ todo)) →
  ∃ d' outs, resolve_regs worlds cfg now (map fst todo) d = (Ok tt, d') ∧
    Forall2 (fate_within now (d_tick d) (d_tick d')) todo outs ∧
    d_regs d' = l ++ concat (zip_with still_pending todo outs) ∧
    d_log d' = d_log d ++ map DSubmit (concat (map snd outs)) ∧ (d_tick d ≤ d_tick d')%nat.
Proof.
  intros Ha. induction todo as [|[pk e] todo IH]; intros l d E Hn.
  { exists d, []. cbn. rewrite app_nil_r. split_and!; [done|constructor|by rewrite app_nil_r in E |by rewrite app_nil_r|lia]. }
  assert (pk ∉ map fst l ∧ pk ∉ map fst todo) as [Hl Hr].
  { rewrite List.map_app in Hn. cbn in Hn. apply NoDup_app in Hn as (_ & Hd & [Hnr _]%NoDup_cons). split; [|done]. intros Hin. apply (Hd pk Hin). by left. }
  destruct (resolve_reg_fate now pk e l todo d Ha E Hl Hr) as (d1 & out & H1 & Hf & E1 & L1 & T1).
  destruct (IH (l ++ still_pending (pk, e) out) d1) as (d' & outs & H2 & F2 & E2 & L2 & T2).
  { by rewrite E1, <- app_assoc. }
  { rewrite List.map_app in Hn. cbn in Hn. rewrite <- app_assoc, !List.map_app. apply NoDup_app in Hn as (N1 & N2 & [N3 N4]%NoDup_cons).
    apply NoDup_app. split; [done|]. unfold still_pending. destruct out.1; cbn; [split; [exact N2|by apply NoDup_cons]|split; [|done]].
    intros x Hx Hx'. apply (N2 x Hx). by right. }
  exists d', (out :: outs). split_and!.
  - cbn. unfold mbind, SE_bind. by rewrite H1.
  - constructor; [exists (d_tick d); split; [lia|done]|]. eapply Forall2_impl; [exact F2|]. intros p o (n & ? & ?). exists n. split; [lia|done].
  - cbn. by rewrite E2, <- app_assoc.
  - cbn. by rewrite L2, L1, List.map_app, app_assoc.
  - lia.
Qed.
End registrations.

(** (C19) What the resolver does with the pending registrations, exactly.  On a chain that answers reads, and refuses a submit
    at most because it is busy, a sweep completes and treats the entries one by one, in their order, each by what its handle
    reads as at an instant of the sweep: one that landed is dropped, and so is one older than the give-up time or out of
    attempts; any other stays pending, and if its retry is due its payload is submitted, the attempt counted unless the chain
    is busy, and the time of the attempt noted.  Nothing else is submitted or dropped.  A sweep later than the give-up time
    of all of them leaves none. *)
Theorem registrations_settle worlds cfg now d :
  answering worlds → NoDup (reg_keys d) →
  ∃ d' outs, resolve_registrations worlds cfg now d = (Ok tt, d') ∧
    Forall2 (fate_within worlds cfg now (d_tick d) (d_tick d')) (d_regs d) outs ∧
    d_regs d' = concat (zip_with still_pending (d_regs d) outs) ∧
    d_log d' = d_log d ++ map DSubmit (concat (map snd outs)) ∧
    ((∀ pk e, (pk, e) ∈ d_regs d → REG_GIVEUP_MS cfg < now - rg_t e) → d_regs d' = []).
Proof.
  intros Ha Hn. destruct (resolve_regs_fate worlds cfg now (d_regs d) Ha [] d eq_refl Hn) as (d' & outs & H & F & E & L & _).
  exists d', outs. split_and!; [exact H|done|done|done|]. intros Hold. rewrite E. cbn [app]. clear H E L. revert Hold.
  induction F as [|[pk e] out regs outs (n & _ & Hf) F IH]; intros Hold; [done|]. cbn. rewrite IH by (intros; eapply Hold; by right).
  assert (out = (None, [])) as ->; [|done]. unfold fate in Hf. cbn [fst snd] in Hf. destruct (w_read _ _) as [[]|]; [|done|done].
  rewrite decide_True in Hf; [done|]. left. apply (Hold pk). by left.
Qed.

(** A history with a public order, a sealed draft and a pending registration. *)
Definition sample_draft : door := (api_seal_prepare Sample.at_ (λ b, b) default_door_cfg (Sample.buy 0) Sample.first_order.2).2.
Definition sample_reg : door := (api_register Sample.at_ Sample.key Sample.seven sample_draft).2.

(** The registration was submitted when it was made; nine seconds later it is due and submitted again. *)
Definition reg_summary (p : bytes * registration) : Z * Z * Z := (rg_t p.2, rg_attempts p.2, rg_last p.2).
Lemma registrations_settle_witness :
  map reg_summary (d_regs sample_reg) = [(12000, 1, 13000)] ∧
  ∃ d' outs, resolve_registrations Sample.at_ default_door_cfg 22000 sample_reg = (Ok tt, d') ∧
    d_regs d' = concat (zip_with still_pending (d_regs sample_reg) outs) ∧
    map reg_summary (d_regs d') = [(12000, 2, 22000)] ∧ length (d_log d') = S (length (d_log sample_reg)).
Proof.
  split; [vm_compute; reflexivity|].
  destruct (registrations_settle Sample.at_ default_door_cfg 22000 sample_reg) as (d' & outs & H & _ & Hk & _).
  - intros n. split; [|by left]. intros k. cbn. unfold Sample.reads. repeat case_match; reflexivity.
  - apply (bool_decide_unpack _). vm_compute. exact I.
  - exists d', outs. split; [exact H|]. split; [exact Hk|].
    assert (d' = (resolve_registrations Sample.at_ default_door_cfg 22000 sample_reg).2) as -> by (by rewrite H).
    split; vm_compute; reflexivity.
Defined.

(** A failed submit that is not the busy answer leaves the sweep, and the resolver with it. *)
Definition refusing (n : nat) : world :=
  let w := Sample.at_ n in World (w_time w) (w_read w) (λ _, Raise (ChainError "submit failed")) (w_octets w) (w_nonce w) (w_encrypt w) (w_ref w) (w_open w) (w_rounds w).
Example sweep_escapes : (resolve_registrations refusing default_door_cfg 100000 sample_reg).1 = Raise (ChainError "submit failed").
Proof. vm_compute. reflexivity. Qed.
