(* ===== verification/Netwatch.v ===== *)
(** * The net watch

    src/offchain/netwatch.py: how one sample of a net's nodes is taken ([Probe.observe],
    [Probe.ancestor_at], [Sampler.sample]), judged ([judge_sample]), and how a run of samples is
    judged against the net's acceptance ([verdict]); the validator statistics folded over a run
    ([PiTracker]).

    A node's answers are a record of functions ([node_rpc]), one per sample; JSON objects are maps by node
    name, and lists the reports sort by name are sets.  Times are milliseconds, as the sampler rounds
    them; a slot length is whole seconds and quotients are exact where the code has floats. *)
From S2P Require Import Prelude Bytes.

Definition DEFAULT_MAX_LAG : Z := 3.
Definition DEFAULT_EPOCH_SLOTS : Z := 12.
Definition DEFAULT_SLOT_SECS : Z := 6.
Definition PI_FIELDS : nat := 6.

(** [a or b], for a number that may be missing: zero counts as missing *)
Definition or_default (a : option Z) (b : Z) : Z :=
  match a with Some x => if x =? 0 then b else x | None => b end.
Definition or_else (a b : option Z) : option Z :=
  match a with Some x => if x =? 0 then b else a | None => b end.

(** ** One sample *)
Record block := Block { b_slot : Z; b_hash : option bytes; b_height : option Z }.
Inductive node_kind : Type := Jip2 | Metrics.
#[global] Instance node_kind_eq_dec : EqDecision node_kind.
Proof. solve_decision. Defined.

Record observation := Obs {
  ob_client : string;
  ob_kind : node_kind;
  ob_up : bool;
  ob_best : option block;
  ob_final : option block;
  ob_peers : option Z;
  ob_sync : option string;
  ob_error : option exn
}.

(** The blocks the nodes hold at one slot, [None] where it could not be found. *)
Record aligned := Aligned { al_slot : Z; al_blocks : gmap string (option (Z * bytes)) }.

Record pi_read := PiRead { pi_node : string; pi_slot : Z; pi_current : list (list Z); pi_last : list (list Z) }.

Record sample := Sample {
  s_t : Z;
  s_epoch_slots : option Z;
  s_slot_secs : option Z;
  s_nodes : gmap string observation;
  s_head : option aligned;
  s_final : option aligned;
  s_pi : option pi_read
}.

(** What a node answers. *)
Record node_rpc := NodeRpc {
  rpc_head : result (option block);
  rpc_finalized : result (option block);
  rpc_sync : result (Z * option string);
  rpc_parent : bytes → result (Z * bytes);
  rpc_parameters : result (option (option Z * option Z));   (* V1: epoch_period, slot_period_sec *)
  rpc_statistics : bytes → result (option bytes)
}.
Record node := Node { n_name : string; n_client : string; n_kind : node_kind; n_rpc : node_rpc }.

(** [Probe.observe] *)
Definition observe_node (n : node) : observation :=
  match (b ← rpc_head (n_rpc n); f ← rpc_finalized (n_rpc n); Ok (b, f)) with
  | Raise e =>
      (* the head read stays when it was the finalized read that failed *)
      Obs (n_client n) (n_kind n) false (match rpc_head (n_rpc n) with Ok b => b | Raise _ => None end) None None None (Some e)
  | Ok (b, f) =>
      let '(peers, sync) :=
        match n_kind n, rpc_sync (n_rpc n) with
        | Jip2, Ok (p, st) => (Some p, st)
        | _, _ => (None, None)
        end in
      Obs (n_client n) (n_kind n) (match b with Some _ => true | None => false end) b f peers sync None
  end.

(** [Probe.ancestor_at]: at most [max_hops + 1] rounds of the loop *)
Fixpoint walk_back (parent : bytes → result (Z * bytes)) (fuel : nat) (cur : Z * bytes) (slot : Z) : option (Z * bytes) :=
  match fuel with
  | O => None
  | S fuel' =>
      if cur.1 <=? slot then Some cur
      else match parent cur.2 with
           | Ok cur' => walk_back parent fuel' cur' slot
           | Raise _ => None
           end
  end.
Definition ancestor_at (n : node) (b : block) (slot : Z) (max_hops : Z) : option (Z * bytes) :=
  match b_hash b with
  | Some h => walk_back (rpc_parent (n_rpc n)) (Z.to_nat (max_hops + 1)) (b_slot b, h) slot
  | None => None
  end.

(** [Sampler._align], [which] read off the observations *)
Definition min_slot (l : list Z) : option Z :=
  match l with [] => None | x :: l' => Some (foldl Z.min x l') end.
Definition align (probes : list (node * block)) (max_hops : Z) : option aligned :=
  match min_slot (map (λ p, b_slot p.2) probes) with
  | None => None
  | Some slot => Some (Aligned slot (list_to_map (map (λ p, (n_name p.1, ancestor_at p.1 p.2 slot max_hops)) probes)))
  end.

(** ** Validator statistics *)

(** [decode_nat(buf, i)] *)
Fixpoint leading_ones (n : nat) (b : Z) : nat :=
  match n with
  | O => 0
  | S n' => if Z.testbit b (Z.of_nat n') then S (leading_ones n' b) else 0
  end.
Definition decode_nat (buf : bytes) (i : nat) : result (Z * nat) :=
  match buf !! i with
  | None => Raise IndexError
  | Some b =>
      let n := leading_ones 8 b in
      if (n =? 8)%nat then Ok (le_int (slice buf (i + 1) (i + 9)), (i + 9)%nat)
      else if (length buf <? i + 1 + n)%nat then Raise (ValueError "truncated natural")
      else
        let hi := Z.land b (Z.shiftl 1 (7 - Z.of_nat n) - 1) in
        Ok (Z.shiftl hi (8 * Z.of_nat n) + le_int (slice buf (i + 1) (i + 1 + n)), (i + 1 + n)%nat)
  end.

(** [struct.unpack_from("<6I", raw, at)] *)
Definition unpack6 (raw : bytes) (pos : nat) : list Z :=
  map (λ k, le_int (slice raw (pos + 4 * k) (pos + 4 * k + 4))) (seq 0 PI_FIELDS).
Definition decode_records (raw : bytes) (i : nat) : result (list (list Z) * nat) :=
  x ← decode_nat raw i;
  let '(n, i) := x in
  if Z.of_nat (length raw) <? Z.of_nat i + 24 * n then Raise (ValueError "truncated validator statistics")
  else Ok (map (λ v, unpack6 raw (i + 24 * v)) (seq 0 (Z.to_nat n)), (i + 24 * Z.to_nat n)%nat).
Definition decode_validator_stats (raw : bytes) : result (list (list Z) * list (list Z)) :=
  x ← decode_records raw 0;
  y ← decode_records raw x.2;
  Ok (x.1, y.1).

(** [PiTracker] *)
Record pi_tracker := PiTracker { pt_epoch : option Z; pt_total : gmap nat (list Z); pt_current : list (list Z) }.
Definition pi_init : pi_tracker := PiTracker None ∅ [].
Definition zero_rec : list Z := repeat 0 PI_FIELDS.
Definition pi_add (a b : list Z) : list Z := zip_with Z.add a b.
Fixpoint fold_last (i : nat) (last : list (list Z)) (total : gmap nat (list Z)) : gmap nat (list Z) :=
  match last with
  | [] => total
  | rec :: rest => fold_last (S i) rest (<[i := pi_add (default zero_rec (total !! i)) rec]> total)
  end.
Definition pi_update (slot epoch_slots : Z) (current last : list (list Z)) (p : pi_tracker) : pi_tracker :=
  let e := slot / epoch_slots in
  let total := match pt_epoch p with
               | Some e0 => if e0 <? e then fold_last 0 last (pt_total p) else pt_total p
               | None => pt_total p
               end in
  match pt_epoch p with
  | Some e0 => if e0 <=? e then PiTracker (Some e) total current else PiTracker (Some e0) total (pt_current p)
  | None => PiTracker (Some e) total current
  end.
(** [max(self.total, default=-1) + 1] *)
Definition keys_bound (m : gmap nat (list Z)) : nat := foldr (λ p acc, Nat.max (S p.1) acc) 0%nat (map_to_list m).
Definition credited (p : pi_tracker) : list (list Z) :=
  let n := Nat.max (length (pt_current p)) (keys_bound (pt_total p)) in
  map (λ i, pi_add (default zero_rec (pt_total p !! i)) (default zero_rec (pt_current p !! i))) (seq 0 n).

(** ** Sampling *)

(** The sampler: its settings, what it learnt of the chain's parameters, the statistics. *)
Record sampler := Sampler {
  sa_max_lag : Z;
  sa_epoch_slots : option Z;
  sa_slot_secs : option Z;
  sa_params_from : option string;
  sa_statistics : bool;
  sa_pi : pi_tracker
}.

(** [Sampler._params] *)
Fixpoint find_params (up : list node) : option (string * (Z * option Z)) :=
  match up with
  | [] => None
  | p :: up' =>
      match rpc_parameters (n_rpc p) with
      | Ok (Some (Some e, ss)) => if e =? 0 then find_params up' else Some (n_name p, (e, ss))
      | _ => find_params up'
      end
  end.
Definition params (up : list node) (sa : sampler) : (Z * Z) * sampler :=
  let sa' :=
    if (negb (or_default (sa_epoch_slots sa) 0 =? 0)) && negb (or_default (sa_slot_secs sa) 0 =? 0) then sa
    else match sa_params_from sa with
         | Some _ => sa
         | None =>
             match find_params up with
             | Some (name, (e, ss)) =>
                 Sampler (sa_max_lag sa) (or_else (sa_epoch_slots sa) (Some e))
                   (or_else (sa_slot_secs sa) (Some (or_default ss DEFAULT_SLOT_SECS))) (Some name)
                   (sa_statistics sa) (sa_pi sa)
             | None => sa
             end
         end in
  ((or_default (sa_epoch_slots sa') DEFAULT_EPOCH_SLOTS, or_default (sa_slot_secs sa') DEFAULT_SLOT_SECS), sa').

(** The nodes that are lined up: JIP-2, up, with both heads. *)
Definition heads_of (n : node) (o : observation) : option (node * (block * block)) :=
  match n_kind n, ob_up o, ob_best o, ob_final o with
  | Jip2, true, Some b, Some f => Some (n, (b, f))
  | _, _, _, _ => None
  end.

(** The first node that serves statistics. *)
Fixpoint read_pi (up : list (node * (block * block))) : option pi_read :=
  match up with
  | [] => None
  | (n, (b, _)) :: up' =>
      match b_hash b with
      | Some h =>
          match (r ← rpc_statistics (n_rpc n) h;
                 match r with Some (x :: raw) => Some <$> decode_validator_stats (x :: raw) | _ => Ok None end) with
          | Ok (Some (cur, last)) => Some (PiRead (n_name n) (b_slot b) cur last)
          | _ => read_pi up'
          end
      | None => read_pi up'
      end
  end.

(** [Sampler.sample], at time [t] *)
Definition take_sample (nodes : list node) (t : Z) (sa : sampler) : sample * sampler :=
  let obs := map (λ n, (n, observe_node n)) nodes in
  let up := omap (λ p, heads_of p.1 p.2) obs in
  let '((epoch_slots, slot_secs), sa) := params (map fst up) sa in
  let pi := if sa_statistics sa then read_pi up else None in
  (Sample t (Some epoch_slots) (Some slot_secs) (list_to_map (map (λ p, (n_name p.1, p.2)) obs))
     (align (map (λ u, (u.1, u.2.1)) up) (2 * sa_max_lag sa + 4))
     (align (map (λ u, (u.1, u.2.2)) up) (Z.min (Z.max epoch_slots 16) 64)) pi,
   match pi with
   | Some p => Sampler (sa_max_lag sa) (sa_epoch_slots sa) (sa_slot_secs sa) (sa_params_from sa) (sa_statistics sa)
                 (pi_update (pi_slot p) epoch_slots (pi_current p) (pi_last p) (sa_pi sa))
   | None => sa
   end).

(** ** Judging one sample *)

(** [collections.Counter(values).most_common()] *)
Fixpoint count_in {A} `{EqDecision A} (x : A) (c : list (A * nat)) : list (A * nat) :=
  match c with
  | [] => [(x, 1%nat)]
  | (y, n) :: c' => if decide (y = x) then (y, S n) :: c' else (y, n) :: count_in x c'
  end.
Definition counter {A} `{EqDecision A} (l : list A) : list (A * nat) := foldl (λ c x, count_in x c) [] l.
Definition most_common {A} `{EqDecision A} (l : list A) : list (A * nat) :=
  sort_by (λ p q, (q.2 <=? p.2)%nat) (counter l).
(** [_modal(values)] *)
Definition modal {A} `{EqDecision A} (l : list A) : option A :=
  match most_common l with
  | [] => None
  | [(x, _)] => Some x
  | (x, n) :: (_, k) :: _ => if (n =? k)%nat then None else Some x
  end.

(** [{f(v) for v in m.values()}], and the largest of some numbers *)
Definition values {A} (m : gmap string A) : list A := map snd (map_to_list m).
Definition max_of (d : Z) (l : list Z) : Z := match l with [] => d | x :: l' => foldl Z.max x l' end.
Definition top_of (l : list Z) : option Z := match l with [] => None | x :: l' => Some (foldl Z.max x l') end.

Record judgement := Judgement {
  j_ok : bool;
  j_top : option Z;
  j_down : gset string;
  j_lag : gmap string Z;
  j_max_lag : Z;
  j_lagging : gset string;
  j_heads : nat;
  j_split : bool;
  j_height_split : gset Z;
  j_unaligned : gset string;
  j_head_hash : option bytes;
  j_hashes : gmap string bytes;
  j_final_heads : nat;
  j_final_hash : option bytes;
  j_final_hashes : gmap string bytes
}.

(** The best slot of a node that counts as up. *)
Definition best_of (o : observation) : option block := if ob_up o then ob_best o else None.
Definition blocks_of (a : option aligned) : gmap string (option (Z * bytes)) :=
  match a with Some x => al_blocks x | None => ∅ end.
Definition hashes_of (a : option aligned) : gmap string bytes := omap (λ b, snd <$> b) (blocks_of a).
Definition add_height (hs : gmap Z (gset Z)) (b : block) : gmap Z (gset Z) :=
  match b_hash b, b_height b with
  | None, Some h => <[b_slot b := {[h]} ∪ default ∅ (hs !! b_slot b)]> hs
  | _, _ => hs
  end.
Definition distinct (m : gmap string bytes) : nat := size (list_to_set (values m) : gset bytes).

Definition judge_sample (max_lag : Z) (s : sample) : judgement :=
  let up := omap best_of (s_nodes s) in
  let down := dom (s_nodes s) ∖ dom up in
  let top := top_of (map b_slot (values up)) in
  let lag := (λ b, default 0 top - b_slot b) <$> up in
  let hashes := hashes_of (s_head s) in
  let unaligned := dom (blocks_of (s_head s)) ∖ dom hashes in
  let heights := foldl add_height ∅ (values up) in
  let height_split := dom (filter (λ p : Z * gset Z, (1 < size p.2)%nat) heights) in
  let heads := distinct hashes in
  let lagging := dom (filter (λ p : string * Z, max_lag < p.2) lag) in
  let split := (1 <? heads)%nat || negb (bool_decide (height_split = ∅)) in
  let fhashes := hashes_of (s_final s) in
  Judgement
    (negb (bool_decide (up = ∅)) && bool_decide (down = ∅) && negb split && bool_decide (unaligned = ∅)
       && bool_decide (lagging = ∅))
    top down lag (max_of 0 (values lag)) lagging heads split height_split unaligned
    (modal (values hashes)) hashes (distinct fhashes) (modal (values fhashes)) fhashes.

Inductive problem : Type := Down | Split | Lag.
#[global] Instance problem_eq_dec : EqDecision problem.
Proof. solve_decision. Defined.
(** [_problems(j)] *)
Definition problems (j : judgement) : list problem :=
  (if bool_decide (j_down j = ∅) then [] else [Down]) ++
  (if j_split j then [Split] else []) ++
  (if bool_decide (j_lagging j = ∅ ∧ j_unaligned j = ∅) then [] else [Lag]).

(** ** Judging a run *)

(** [round(n / d, 1)], in tenths, halves to even *)
Definition tenths (n d : Z) : Z :=
  let q := (10 * n) / d in
  let r := (10 * n) mod d in
  if 2 * r <? d then q else if d <? 2 * r then q + 1 else if Z.even q then q else q + 1.

Inductive finality_mode : Type := Auto | Require | Report.
#[global] Instance finality_mode_eq_dec : EqDecision finality_mode.
Proof. solve_decision. Defined.
(** The options of [verdict]; the mode is one of FINALITY_MODES. *)
Record options := Options {
  op_max_lag : Z;
  op_epoch_slots : option Z;
  op_slot_secs : option Z;
  op_finality : finality_mode;
  op_final_stall_slots : option Z;
  op_require_authoring : bool;
  op_min_peers : option Z
}.

(** A run of samples that are not one head. *)
Record episode := Episode {
  ep_start_t : Z; ep_start_slot : Z; ep_end_t : Z; ep_end_slot : Z;
  ep_samples : Z; ep_kinds : list problem; ep_nodes : gset string
}.
Definition bad_nodes (j : judgement) : gset string :=
  j_down j ∪ j_lagging j ∪ j_unaligned j ∪
  (if j_split j then dom (filter (λ p, Some p.2 ≠ j_head_hash j) (j_hashes j)) else ∅).
(** The loop's body: the episodes closed so far and the one open. *)
Definition episode_step (st : list episode * option episode) (sj : sample * judgement) : list episode * option episode :=
  let '(eps, cur) := st in
  let '(s, j) := sj in
  if j_ok j then (eps ++ match cur with Some e => [e] | None => [] end, None)
  else
    let top := match j_top j with Some t => t | None => match cur with Some e => ep_end_slot e | None => 0 end end in
    let e := match cur with Some e => e | None => Episode (s_t s) top (s_t s) top 0 [] ∅ end in
    (eps, Some (Episode (ep_start_t e) (ep_start_slot e) (s_t s) top (ep_samples e + 1)
                 (remove_dups (ep_kinds e ++ problems j)) (ep_nodes e ∪ bad_nodes j))).
Definition episodes (sjs : list (sample * judgement)) : list episode * bool :=
  let '(eps, cur) := foldl episode_step ([], None) sjs in
  (eps ++ match cur with Some e => [e] | None => [] end, match cur with Some _ => true | None => false end).
(** [ep["slots"]], in tenths *)
Definition episode_slots (S : Z) (e : episode) : Z :=
  tenths (Z.max ((ep_end_slot e - ep_start_slot e) * (1000 * S)) (ep_end_t e - ep_start_t e)) (1000 * S).

Record one_head_report := OneHead {
  oh_pass : bool; oh_method : string; oh_samples : nat; oh_ok_samples : nat; oh_max_lag_slots : Z; oh_max_heads : Z;
  oh_episodes : list episode; oh_longest : Z; oh_open : bool; oh_failed : list episode
}.
Definition head_method (kinds : list node_kind) : string :=
  if bool_decide (Jip2 ∈ kinds) then
    "hash (JIP-2 nodes)" +:+ (if bool_decide (Metrics ∈ kinds) then ", slot/height (others)" else "")
  else "slot/height only (no node serves hashes)".
Definition one_head (E S : Z) (kinds : list node_kind) (sjs : list (sample * judgement)) : one_head_report :=
  let '(eps, open) := episodes sjs in
  let too_long := filter (λ e, 10 * E < episode_slots S e) eps in
  let oks := length (filter (λ p, j_ok p.2 = true) sjs) in
  OneHead ((0 <? oks)%nat && bool_decide (too_long = [])) (head_method kinds) (length sjs) oks
    (max_of 0 (map (λ p, j_max_lag p.2) sjs)) (max_of 0 (map (λ p, Z.of_nat (j_heads p.2)) sjs))
    eps (max_of 0 (map (episode_slots S) eps)) open too_long.

(** The best slots a node showed, in order. *)
Definition bests (n : string) (samples : list sample) : list Z :=
  omap (λ s, b_slot <$> (s_nodes s !! n ≫= best_of)) samples.
Definition advance (n : string) (samples : list sample) : option Z :=
  match head (bests n samples), last (bests n samples) with Some f, Some l => Some (l - f) | _, _ => None end.
Record liveness_report := Liveness { lv_pass : bool; lv_advance : list (string * option Z); lv_judged : bool }.
Definition liveness (S span : Z) (names : list string) (samples : list sample) : liveness_report :=
  let adv := map (λ n, (n, advance n samples)) names in
  let long_enough := 2000 * S <=? span in
  Liveness (negb long_enough || forallb (λ p, match p.2 with Some a => 0 <? a | None => false end) adv) adv long_enough.

(** What a sample shows of a node's finality: its finalized and best blocks. *)
Definition finals_of (o : observation) : option (block * block) :=
  match ob_up o, ob_final o, ob_best o with true, Some f, Some b => Some (f, b) | _, _, _ => None end.
Record fin_obs := FinObs { fo_t : Z; fo_final : Z; fo_best : Z; fo_was_down : bool }.
Definition fin_step (n : string) (st : list fin_obs * bool) (s : sample) : list fin_obs * bool :=
  let '(obs, was_down) := st in
  match s_nodes s !! n ≫= finals_of with
  | None => (obs, true)
  | Some (f, b) => (obs ++ [FinObs (s_t s) (b_slot f) (b_slot b) was_down], false)
  end.
Definition fin_of (n : string) (samples : list sample) : list fin_obs := (foldl (fin_step n) ([], false) samples).1.

(** The finalized blocks a sample shows: by hash (with the lined-up ones), and by height without one. *)
Definition final_hashes (s : sample) : list (Z * bytes * string) :=
  omap (λ p, match finals_of p.2 with
             | Some (f, _) => match b_hash f with Some h => Some (b_slot f, h, p.1) | None => None end
             | None => None
             end) (map_to_list (s_nodes s)) ++
  omap (λ p, match p.2 with Some (slot, h) => Some (slot, h, p.1) | None => None end) (map_to_list (blocks_of (s_final s))).
Definition final_heights (s : sample) : list (Z * Z * string) :=
  omap (λ p, match finals_of p.2 with
             | Some (f, _) => match b_hash f, b_height f with None, Some h => Some (b_slot f, h, p.1) | _, _ => None end
             | None => None
             end) (map_to_list (s_nodes s)).
(** [d[slot][key].add(n)] *)
Definition by_slot {K} `{Countable K} (l : list (Z * K * string)) : gmap Z (gmap K (gset string)) :=
  foldl (λ d x, let '(slot, k, n) := x in
                let ks := default ∅ (d !! slot) in
                <[slot := <[k := {[n]} ∪ default ∅ (ks !! k)]> ks]> d) ∅ l.
Definition conflicts {K} `{Countable K} (l : list (Z * K * string)) : gmap Z (gmap K (gset string)) :=
  filter (λ p : Z * gmap K (gset string), (1 < size p.2)%nat) (by_slot l).

(** One node's finality over the run; the stall is in tenths of a slot. *)
Record node_fin := NodeFin {
  nf_first : Z; nf_last : Z; nf_advanced : bool; nf_stall : Z; nf_lag : Z; nf_observations : nat
}.
(** The loop over consecutive observations: the stall so far (in milliseconds), the start of the
    current standstill, and the steps back. *)
Record fin_walk := FinWalk { fw_stall : Z; fw_run : fin_obs; fw_prev : fin_obs; fw_back : list (Z * Z * Z) }.
Definition walk_step (S : Z) (w : fin_walk) (cur : fin_obs) : fin_walk :=
  let back := if (fo_final cur <? fo_final (fw_prev w)) && negb (fo_was_down cur)
              then fw_back w ++ [(fo_final (fw_prev w), fo_final cur, fo_t cur)] else fw_back w in
  if negb (fo_final cur =? fo_final (fw_run w)) then FinWalk (fw_stall w) cur cur back
  else FinWalk (Z.max (fw_stall w) (Z.max ((fo_best cur - fo_best (fw_run w)) * (1000 * S)) (fo_t cur - fo_t (fw_run w))))
         (fw_run w) cur back.
Definition walk_fin (S : Z) (obs : list fin_obs) : option (node_fin * list (Z * Z * Z)) :=
  match obs with
  | [] => None
  | o :: rest =>
      let w := foldl (walk_step S) (FinWalk 0 o o []) rest in
      Some (NodeFin (fo_final o) (fo_final (fw_prev w)) (fo_final o <? fo_final (fw_prev w))
              (tenths (fw_stall w) (1000 * S)) (fo_best (fw_prev w) - fo_final (fw_prev w)) (length obs), fw_back w)
  end.

Record finality_report := FinalityReport {
  fr_pass : bool; fr_finalizing : bool; fr_mode : finality_mode; fr_judged : bool; fr_stall_limit : Z;
  fr_not_advanced : list string; fr_stalled : list string;
  fr_hash_conflicts : gmap Z (gmap bytes (gset string)); fr_height_conflicts : gmap Z (gmap Z (gset string));
  fr_regressions : list (string * (Z * Z * Z)); fr_nodes : list (string * option node_fin); fr_hash_checked : nat
}.
Definition finality (mode : finality_mode) (S stall_limit : Z) (long_enough : bool) (names : list string) (samples : list sample) :
    finality_report :=
  let walks := map (λ n, (n, walk_fin S (fin_of n samples))) names in
  let per_node := map (λ p, (p.1, fst <$> p.2)) walks in
  let back := concat (map (λ p, match p.2 with Some (_, l) => map (pair p.1) l | None => [] end) walks) in
  let hc := conflicts (concat (map final_hashes samples)) in
  let tc := conflicts (concat (map final_heights samples)) in
  let advanced (f : option node_fin) := match f with Some x => nf_advanced x | None => false end in
  let runs := existsb (λ p, advanced p.2) per_node in
  let stalled := map fst (filter (λ p, (match p.2 with Some x => 10 * stall_limit <? nf_stall x | None => false end) = true) per_node) in
  let still := map fst (filter (λ p, advanced p.2 = false) per_node) in
  let clean := bool_decide (hc = ∅) && bool_decide (tc = ∅) && bool_decide (back = []) in
  FinalityReport
    (if runs then bool_decide (still = []) && clean && bool_decide (stalled = [])
     else negb (bool_decide (mode = Require) && long_enough) && clean)
    runs mode (negb (bool_decide (mode = Report))) stall_limit (if runs then still else []) stalled hc tc back per_node
    (size (by_slot (concat (map final_hashes samples)))).

(** Blocks credited to the validators over the run. *)
Record authoring_report := Authoring { au_pass : bool; au_blocks : list Z; au_idle : list nat }.
Definition authoring (E : Z) (required : bool) (samples : list sample) : option authoring_report :=
  let pis := omap (λ s, (λ p, (p, or_default (s_epoch_slots s) E)) <$> s_pi s) samples in
  match pis with
  | [] => if required then Some (Authoring false [] []) else None
  | _ =>
      let tr := foldl (λ tr x, pi_update (pi_slot x.1) x.2 (pi_current x.1) (pi_last x.1) tr) pi_init pis in
      let blocks := map (λ r, default 0 (head r)) (credited tr) in
      let idle := filter (λ i, blocks !! i = Some 0) (seq 0 (length blocks)) in
      Some (Authoring (negb (required && (negb (bool_decide (idle = [])) || bool_decide (blocks = [])))) blocks idle)
  end.

(** The JIP-2 nodes with too few peers at the last sample. *)
Definition few_peers (min : Z) (s : sample) : gset string :=
  dom (filter (λ p : string * observation, ob_kind p.2 = Jip2 ∧
                match ob_peers p.2 with Some x => x <? min | None => true end = true) (s_nodes s)).

Record report := VerdictReport {
  vr_pass : bool; vr_samples : nat; vr_span : Z; vr_epoch_slots : Z; vr_slot_secs : Z;
  vr_one_head : one_head_report; vr_liveness : liveness_report; vr_finality : finality_report;
  vr_authoring : option authoring_report; vr_peers : option (gset string)
}.

(** The names of all nodes, each once. *)
Definition names_of (samples : list sample) : list string :=
  elements (⋃ (map (λ s, dom (s_nodes s)) samples) : gset string).

(** [verdict(samples, ...)]; [None] is the failing report on no samples. *)
Definition verdict (o : options) (all : list sample) : option report :=
  let samples := filter (λ s, s_nodes s ≠ ∅) all in
  match head samples, last samples with
  | Some s0, Some sl =>
      let E := or_default (or_else (op_epoch_slots o) (s_epoch_slots sl)) DEFAULT_EPOCH_SLOTS in
      let S := or_default (or_else (op_slot_secs o) (s_slot_secs sl)) DEFAULT_SLOT_SECS in
      let names := names_of samples in
      let span := s_t sl - s_t s0 in
      let kinds := values (foldl (λ k s, (ob_kind <$> s_nodes s) ∪ k) ∅ samples) in
      let oh := one_head E S kinds (map (λ s, (s, judge_sample (op_max_lag o) s)) samples) in
      let lv := liveness S span names samples in
      let fr := finality (op_finality o) S (or_default (op_final_stall_slots o) E) (lv_judged lv) names samples in
      let au := authoring E (op_require_authoring o) samples in
      let few := (λ m, few_peers m sl) <$> op_min_peers o in
      Some (VerdictReport
        (oh_pass oh && lv_pass lv && (fr_pass fr || negb (fr_judged fr)) &&
         match au with Some a => au_pass a | None => true end &&
         match few with Some f => bool_decide (f = ∅) | None => true end)
        (length samples) span E S oh lv fr au few)
  | _, _ => None
  end.
Definition passes (o : options) (samples : list sample) : bool :=
  match verdict o samples with Some r => vr_pass r | None => false end.

(** ** What one sample must show *)
Lemma size_le1 `{Countable A} (X : gset A) : (size X ≤ 1)%nat ↔ ∀ x y, x ∈ X → y ∈ X → x = y.
Proof.
  split.
  - intros Hs x y Hx Hy. destruct (decide (x = y)) as [|Hne]; [done|].
    assert (Hsub : {[x; y]} ⊆ X) by set_solver. apply subseteq_size in Hsub.
    rewrite size_union, !size_singleton in Hsub by set_solver. lia.
  - intros Heq. destruct (set_choose_or_empty X) as [[x Hx]|He]; [|rewrite He, size_empty; lia].
    assert (Hsub : X ⊆ {[x]}) by (intros y Hy; apply elem_of_singleton; by apply Heq).
    apply subseteq_size in Hsub. by rewrite size_singleton in Hsub.
Qed.

Lemma elem_of_values {A} (m : gmap string A) x : x ∈ values m ↔ ∃ n, m !! n = Some x.
Proof.
  unfold values. rewrite list_elem_of_fmap. split.
  - intros ([n y] & -> & Hn%elem_of_map_to_list). by exists n.
  - intros [n Hn]. exists (n, x). split; [done|]. by apply elem_of_map_to_list.
Qed.

Lemma distinct_le1 (m : gmap string bytes) :
  (distinct m ≤ 1)%nat ↔ ∀ n1 n2 h1 h2, m !! n1 = Some h1 → m !! n2 = Some h2 → h1 = h2.
Proof.
  unfold distinct. rewrite size_le1. setoid_rewrite elem_of_list_to_set. setoid_rewrite elem_of_values. naive_solver.
Qed.

Lemma foldl_max_ge l x : x ≤ foldl Z.max x l ∧ ∀ y, y ∈ l → y ≤ foldl Z.max x l.
Proof.
  revert x. induction l as [|y l IH]; intros x; cbn; [split; [lia|set_solver]|].
  destruct (IH (Z.max x y)) as [H1 H2]. split; [lia|]. intros z [->|Hz]%elem_of_cons; [lia|by apply H2].
Qed.
Lemma foldl_max_in l x : foldl Z.max x l = x ∨ foldl Z.max x l ∈ l.
Proof.
  revert x. induction l as [|y l IH]; intros x; cbn; [by left|].
  destruct (IH (Z.max x y)) as [H|H]; [|right; set_solver]. rewrite H. destruct (Z.max_spec x y) as [[_ ->]|[_ ->]]; [right|left]; set_solver.
Qed.
Lemma top_of_spec l : l ≠ [] → ∃ t, top_of l = Some t ∧ t ∈ l ∧ ∀ x, x ∈ l → x ≤ t.
Proof.
  destruct l as [|x l]; [done|]. intros _. exists (foldl Z.max x l). split; [done|].
  destruct (foldl_max_ge l x) as [H1 H2]. split.
  - destruct (foldl_max_in l x) as [->|H]; set_solver.
  - intros y [->|Hy]%elem_of_cons; [done|by apply H2].
Qed.

Lemma elem_of_heights l hs slot h :
  h ∈ default ∅ (foldl add_height hs l !! slot) ↔
  h ∈ default ∅ (hs !! slot) ∨ ∃ b, b ∈ l ∧ b_hash b = None ∧ b_height b = Some h ∧ b_slot b = slot.
Proof.
  revert hs. induction l as [|b l IH]; intros hs; cbn [foldl]; [set_solver|]. rewrite IH. clear IH.
  assert (E : h ∈ default ∅ (add_height hs b !! slot) ↔
            h ∈ default ∅ (hs !! slot) ∨ b_hash b = None ∧ b_height b = Some h ∧ b_slot b = slot).
  { unfold add_height. destruct (b_hash b), (b_height b) as [h'|]; try naive_solver.
    destruct (decide (b_slot b = slot)) as [->|Hne]; [rewrite lookup_insert_eq; cbn; set_solver|].
    rewrite lookup_insert_ne by done. naive_solver. }
  rewrite E. set_solver.
Qed.

Lemma dom_filter_empty {K A} `{Countable K} (P : K * A → Prop) `{!∀ x, Decision (P x)} (m : gmap K A) :
  dom (filter P m) = ∅ ↔ ∀ k a, m !! k = Some a → ¬ P (k, a).
Proof.
  rewrite dom_empty_iff_L, map_empty. setoid_rewrite map_lookup_filter_None.
  split; [intros Hm k a Hk; destruct (Hm k) as [?|Hp]; [congruence|by apply Hp]|].
  intros Hm k. destruct (m !! k) as [a|] eqn:E; [right|by left]. intros x [= <-]. by apply Hm.
Qed.

(** One head: every node is up, no best block trails another by more than the bound, every lined-up
    block was found and they are one block, and heads known by height agree where they share a slot. *)
Record one_head_at (max_lag : Z) (s : sample) : Prop := {
  oa_nodes : s_nodes s ≠ ∅;
  oa_up n o : s_nodes s !! n = Some o → is_Some (best_of o);
  oa_lag n1 n2 o1 o2 b1 b2 : s_nodes s !! n1 = Some o1 → s_nodes s !! n2 = Some o2 →
    best_of o1 = Some b1 → best_of o2 = Some b2 → b_slot b1 - b_slot b2 ≤ max_lag;
  oa_aligned n b : blocks_of (s_head s) !! n = Some b → is_Some b;
  oa_hash n1 n2 x1 x2 : blocks_of (s_head s) !! n1 = Some (Some x1) → blocks_of (s_head s) !! n2 = Some (Some x2) → x1.2 = x2.2;
  oa_height n1 n2 o1 o2 b1 b2 h1 h2 : s_nodes s !! n1 = Some o1 → s_nodes s !! n2 = Some o2 →
    best_of o1 = Some b1 → best_of o2 = Some b2 → b_hash b1 = None → b_hash b2 = None →
    b_height b1 = Some h1 → b_height b2 = Some h2 → b_slot b1 = b_slot b2 → h1 = h2
}.

Section one_sample.
Context (max_lag : Z) (s : sample).
Let up := omap best_of (s_nodes s).

Lemma up_lookup n b : up !! n = Some b ↔ ∃ o, s_nodes s !! n = Some o ∧ best_of o = Some b.
Proof. unfold up. rewrite lookup_omap, bind_Some. done. Qed.

Lemma diff_empty {A B} (m : gmap string A) (m' : gmap string B) :
  dom m ∖ dom m' = ∅ ↔ ∀ n a, m !! n = Some a → is_Some (m' !! n).
Proof.
  split.
  - intros H n a Hn. apply elem_of_dom. destruct (decide (n ∈ dom m')); [done|].
    assert (n ∈ dom m ∖ dom m') as Hin by (apply elem_of_difference; split; [by eapply elem_of_dom_2|done]). set_solver.
  - intros H. apply set_eq. intros n. split; [|set_solver]. intros [[a Hn]%elem_of_dom Hd]%elem_of_difference.
    destruct Hd. apply elem_of_dom. by eapply H.
Qed.

Lemma lag_empty :
  dom (filter (λ p : string * Z, max_lag < p.2) ((λ b, default 0 (top_of (map b_slot (values up))) - b_slot b) <$> up)) = ∅ ↔
  ∀ b1 b2, b1 ∈ values up → b2 ∈ values up → b_slot b1 - b_slot b2 ≤ max_lag.
Proof.
  rewrite dom_filter_empty. setoid_rewrite lookup_fmap. setoid_rewrite fmap_Some. cbn [snd]. split.
  - intros H b1 b2 H1 [n Hn]%elem_of_values.
    destruct (top_of_spec (map b_slot (values up))) as (t & Et & _ & Ht).
    { intros E%map_eq_nil. rewrite E in H1. set_solver. }
    specialize (H n _ (ex_intro _ b2 (conj Hn eq_refl))). rewrite Et in H. cbn in H.
    assert (b_slot b1 ≤ t); [|lia]. apply Ht, list_elem_of_fmap. eauto.
  - intros H n a (b & Hn & ->) Hlt.
    assert (Hb : b ∈ values up) by (apply elem_of_values; eauto).
    destruct (top_of_spec (map b_slot (values up))) as (t & Et & Hin & _).
    { intros E%map_eq_nil. rewrite E in Hb. set_solver. }
    rewrite Et in Hlt. cbn in Hlt. apply list_elem_of_fmap in Hin as (b' & -> & Hb'). specialize (H b' b Hb' Hb). lia.
Qed.

Lemma heights_empty :
  dom (filter (λ p : Z * gset Z, (1 < size p.2)%nat) (foldl add_height ∅ (values up))) = ∅ ↔
  ∀ b1 b2 h1 h2, b1 ∈ values up → b2 ∈ values up → b_hash b1 = None → b_hash b2 = None →
    b_height b1 = Some h1 → b_height b2 = Some h2 → b_slot b1 = b_slot b2 → h1 = h2.
Proof.
  rewrite dom_filter_empty. cbn [snd]. split.
  - intros H b1 b2 h1 h2 H1 H2 E1 E2 T1 T2 Es.
    assert (Hin : ∀ b h, b ∈ values up → b_hash b = None → b_height b = Some h →
              h ∈ default ∅ (foldl add_height ∅ (values up) !! b_slot b)) by (intros b h ???; apply elem_of_heights; right; exists b; done).
    pose proof (Hin _ _ H1 E1 T1) as I1. pose proof (Hin _ _ H2 E2 T2) as I2. rewrite <- Es in I2.
    destruct (foldl add_height ∅ (values up) !! b_slot b1) as [X|] eqn:EX; [|cbn in I1; set_solver].
    specialize (H _ _ EX). apply (proj1 (size_le1 X)); [lia|done..].
  - intros H slot X HX Hlt. assert (Hle : (size X ≤ 1)%nat); [|lia]. apply size_le1. intros h1 h2 Hh1 Hh2.
    assert (Hin : ∀ h, h ∈ X → ∃ b, b ∈ values up ∧ b_hash b = None ∧ b_height b = Some h ∧ b_slot b = slot).
    { intros h Hh. destruct (proj1 (elem_of_heights (values up) ∅ slot h)) as [?|?]; [by rewrite HX|set_solver|done]. }
    destruct (Hin _ Hh1) as (b1 & ? & ? & ? & ?), (Hin _ Hh2) as (b2 & ? & ? & ? & ?). eapply (H b1 b2); eauto; congruence.
Qed.
End one_sample.

(** A sample is judged one head exactly when it is: all nodes up, no best block more than [max_lag]
    slots behind another, one block at the common slot, one height at a shared slot. *)
Lemma judge_sample_one_head max_lag s : j_ok (judge_sample max_lag s) = true ↔ one_head_at max_lag s.
Proof.
  unfold judge_sample. cbn [j_ok].
  rewrite !andb_true_iff, !negb_true_iff, orb_false_iff, !bool_decide_eq_true, !bool_decide_eq_false, negb_false_iff, bool_decide_eq_true.
  rewrite Nat.ltb_ge, distinct_le1, !diff_empty. rewrite lag_empty, heights_empty.
  setoid_rewrite elem_of_values. setoid_rewrite (up_lookup s). unfold hashes_of. setoid_rewrite lookup_omap.
  split.
  - intros ((((Hne & Hup) & Hh & Ht) & Hal) & Hlag). split.
    + intros E. apply Hne. by rewrite E, omap_empty.
    + intros n o Ho. specialize (Hup n o Ho). by rewrite Ho in Hup.
    + intros. eapply Hlag; eauto.
    + intros n b Hb. specialize (Hal n b Hb). rewrite Hb in Hal. by destruct b, Hal.
    + intros n1 n2 x1 x2 H1 H2. apply (Hh n1 n2); [by rewrite H1|by rewrite H2].
    + intros. eapply (Ht b1 b2); eauto.
  - intros [H1 H2 H3 H4 H5 H6]. split_and!.
    + intros E. apply H1. apply map_empty. intros n. destruct (s_nodes s !! n) as [o|] eqn:Eo; [|done].
      destruct (H2 n o Eo) as [b Hb]. assert (omap best_of (s_nodes s) !! n = Some b) as Hn by (apply up_lookup; eauto). by rewrite E, lookup_empty in Hn.
    + intros n o Ho. rewrite Ho. by eapply H2.
    + intros n1 n2 h1 h2 (x1 & Hx1 & E1)%bind_Some (x2 & Hx2 & E2)%bind_Some.
      destruct x1 as [x1|], x2 as [x2|]; try done. injection E1 as <-. injection E2 as <-. by eapply H5.
    + intros b1 b2 h1 h2 (n1 & o1 & ? & ?) (n2 & o2 & ? & ?) ?????. by apply (H6 n1 n2 o1 o2 b1 b2).
    + intros n b Hb. rewrite Hb. destruct (H4 n b Hb) as [x ->]. by eexists.
    + intros b1 b2 (n1 & o1 & ? & ?) (n2 & o2 & ? & ?). by apply (H3 n1 n2 o1 o2).
Qed.

(** ** Episodes cover every run of samples that are not one head *)
Lemma tenths_bound n d e : 0 < d → tenths n d ≤ 10 * e → 20 * n ≤ (20 * e + 1) * d.
Proof.
  intros Hd. unfold tenths. pose proof (Z.div_mod (10 * n) d ltac:(lia)) as Hq. pose proof (Z.mod_pos_bound (10 * n) d Hd).
  set (q := 10 * n / d) in *. set (r := (10 * n) mod d) in *.
  destruct (2 * r <? d) eqn:E1; zbool; [intros; nia|]. destruct (d <? 2 * r) eqn:E2; zbool; [intros; nia|].
  destruct (Z.even q); intros; nia.
Qed.

Section runs.
Implicit Types (l : list (sample * judgement)) (cur : option episode).

Definition in_order (times : list Z) : Prop := ∀ i j a b, (i ≤ j)%nat → times !! i = Some a → times !! j = Some b → a ≤ b.
Definition bad_run l (i j : nat) : Prop := ∀ k x, (i ≤ k ≤ j)%nat → l !! k = Some x → j_ok x.2 = false.

Record covering l (eps : list episode) cur : Prop := {
  cv_run i j x y : (i ≤ j)%nat → l !! i = Some x → l !! j = Some y → bad_run l i j →
    ∃ e, (e ∈ eps ∨ cur = Some e) ∧ ep_start_t e ≤ s_t x.1 ∧ s_t y.1 ≤ ep_end_t e;
  cv_open i x : l !! i = Some x → bad_run l i (length l) → ∃ e, cur = Some e ∧ ep_start_t e ≤ s_t x.1;
  cv_last e : cur = Some e → ∃ i x, l !! i = Some x ∧ ep_end_t e = s_t x.1 ∧ ep_start_t e ≤ s_t x.1
}.

Lemma covering_step l eps cur x :
  in_order (map (λ p, s_t p.1) (l ++ [x])) → covering l eps cur →
  covering (l ++ [x]) (episode_step (eps, cur) x).1 (episode_step (eps, cur) x).2.
Proof.
  intros Hord [Hrun Hopen Hlast]. destruct x as [s j]. cbn [episode_step].
  assert (Hlate : ∀ i y, (l ++ [(s, j)]) !! i = Some y → s_t y.1 ≤ s_t s).
  { intros i y Hy. apply (Hord i (length l)).
    - apply lookup_lt_Some in Hy. rewrite length_app in Hy. cbn in Hy. lia.
    - by rewrite list_lookup_fmap, Hy.
    - by rewrite list_lookup_fmap, list_lookup_middle. }
  assert (Hold : ∀ i k y, (i ≤ k)%nat → (l ++ [(s, j)]) !! i = Some y → k ≠ length l → is_Some ((l ++ [(s, j)]) !! k) →
            l !! i = Some y ∧ (k < length l)%nat).
  { intros i k y Hik Hy Hk [z Hz]. apply lookup_lt_Some in Hz. rewrite length_app in Hz. cbn in Hz.
    rewrite lookup_app_l in Hy by lia. split; [done|lia]. }
  destruct (j_ok j) eqn:Ej; cbn [fst snd].
  - split; [|intros i y Hy Hb|done].
    + intros i k y z Hik Hy Hz Hb. destruct (decide (k = length l)) as [->|Hk].
      { assert (j_ok j = false); [|congruence]. apply (Hb (length l) (s, j)); [lia|by rewrite list_lookup_middle]. }
      destruct (Hold i k y Hik Hy Hk ltac:(eauto)) as [Hy' Hk']. rewrite lookup_app_l in Hz by done.
      destruct (Hrun i k y z Hik Hy' Hz) as (e & He & ?).
      { intros n w Hn Hw. apply (Hb n w Hn). by rewrite lookup_app_l by lia. }
      exists e. split; [|done]. left. destruct He as [He| ->]; set_solver.
    + assert (j_ok j = false); [|congruence]. apply (Hb (length l) (s, j)); [|by rewrite list_lookup_middle].
      apply lookup_lt_Some in Hy. rewrite length_app in *. cbn in *. lia.
  - set (top := match j_top j with Some t => t | None => _ end).
    set (e0 := match cur with Some e => e | None => Episode (s_t s) top (s_t s) top 0 [] ∅ end). set (e' := Episode _ _ _ _ _ _ _).
    assert (Hend : ∀ e, cur = Some e → ep_start_t e = ep_start_t e' ∧ ep_start_t e ≤ s_t s ∧ ep_end_t e ≤ s_t s).
    { intros e ->. destruct (Hlast e eq_refl) as (i & z & Hz & -> & Hst). split; [done|].
      assert (s_t z.1 ≤ s_t s); [|lia]. apply (Hlate i). by apply lookup_app_l_Some. }
    assert (Hstart : ∀ i y, (l ++ [(s, j)]) !! i = Some y → bad_run (l ++ [(s, j)]) i (length l) → ep_start_t e' ≤ s_t y.1).
    { intros i y [Hy|[Hi Hy]]%lookup_snoc_Some Hb.
      - destruct Hy as [Hi Hy]. destruct (Hopen i y Hy) as (e & Ee & He).
        { intros n w Hn Hw. apply (Hb n w); [|by apply lookup_app_l_Some]. apply lookup_lt_Some in Hw. lia. }
        destruct (Hend e Ee) as [<- _]. done.
      - subst. cbn [fst]. destruct cur as [e|]; [|cbn; lia]. destruct (Hend e eq_refl) as (<- & ? & _). done. }
    split.
    + intros i k y z Hik Hy Hz Hb. destruct (decide (k = length l)) as [->|Hk].
      { exists e'. rewrite list_lookup_middle in Hz by done. injection Hz as <-. split; [by right|]. split; [by apply (Hstart i)|done]. }
      destruct (Hold i k y Hik Hy Hk ltac:(eauto)) as [Hy' Hk']. rewrite lookup_app_l in Hz by done.
      destruct (Hrun i k y z Hik Hy' Hz) as (e & He & ? & ?).
      { intros n w Hn Hw. apply (Hb n w Hn). by apply lookup_app_l_Some. }
      destruct He as [He|He]; [exists e; auto|]. destruct (Hend e He) as (? & _ & ?). exists e'. split; [by right|]. cbn [ep_end_t e']. lia.
    + intros i y Hy Hb. exists e'. split; [done|]. apply (Hstart i y Hy). intros n w Hn. apply Hb. rewrite length_app. lia.
    + intros e [= <-]. exists (length l), (s, j). rewrite list_lookup_middle by done. split_and!; [done..|]. cbn [fst].
      apply (Hstart (length l) (s, j)); [by rewrite list_lookup_middle|]. intros n w Hn Hw.
      assert (n = length l) as -> by lia. rewrite list_lookup_middle in Hw by done. by injection Hw as <-.
Qed.

Lemma in_order_prefix (l l' : list Z) : in_order (l ++ l') → in_order l.
Proof. intros H i j a b Hij Ha Hb. apply (H i j); [done|by apply lookup_app_l_Some..]. Qed.

Lemma covering_run l : in_order (map (λ p, s_t p.1) l) →
  covering l (foldl episode_step ([], None) l).1 (foldl episode_step ([], None) l).2.
Proof.
  induction l as [|x l IH] using rev_ind; intros Hord; [by split|].
  rewrite foldl_app. cbn [foldl]. destruct (foldl episode_step ([], None) l) as [eps cur] eqn:E.
  apply (covering_step l eps cur x Hord). apply IH. rewrite List.map_app in Hord. by eapply in_order_prefix.
Qed.

(** Every run of samples that are not one head lies in an episode. *)
Lemma episodes_cover l i j x y :
  in_order (map (λ p, s_t p.1) l) → (i ≤ j)%nat → l !! i = Some x → l !! j = Some y → bad_run l i j →
  ∃ e, e ∈ (episodes l).1 ∧ s_t y.1 - s_t x.1 ≤ ep_end_t e - ep_start_t e.
Proof.
  intros Hord Hij Hx Hy Hb. destruct (cv_run _ _ _ (covering_run l Hord) i j x y Hij Hx Hy Hb) as (e & He & ? & ?).
  exists e. split; [|lia]. unfold episodes. destruct (foldl episode_step ([], None) l) as [eps cur]. cbn [fst snd] in *.
  destruct He as [He| ->]; set_solver.
Qed.

(** A whole run of such samples is one episode, from the top slot of its first sample to that of its last. *)
Lemma episode_run eps seg x : Forall (λ y, j_ok y.2 = false) (x :: seg) →
  ∃ e, foldl episode_step (eps, None) (x :: seg) = (eps, Some e) ∧
    (∀ t, j_top x.2 = Some t → ep_start_slot e = t) ∧
    (∀ y t, last (x :: seg) = Some y → j_top y.2 = Some t → ep_end_slot e = t).
Proof.
  induction seg as [|y seg IH] using rev_ind; intros Hb.
  - assert (Hx : j_ok x.2 = false) by (by apply Forall_cons in Hb as [? _]). destruct x as [s j]. cbn [foldl episode_step snd] in *. rewrite Hx. eexists. split; [done|].
    cbn [ep_start_slot ep_end_slot]. split; [by intros t ->|]. intros y t [= <-]. cbn [snd]. by intros ->.
  - rewrite app_comm_cons, Forall_app, Forall_singleton in Hb. destruct Hb as [Hb Hy]. destruct (IH Hb) as (e & He & Hs & _).
    rewrite app_comm_cons, foldl_app, He. destruct y as [s j]. cbn [foldl episode_step snd] in *. rewrite Hy. eexists. split; [done|].
    cbn [ep_start_slot ep_end_slot]. split; [done|]. intros z t. rewrite last_snoc. intros [= <-]. cbn [snd]. by intros ->.
Qed.

Lemma episodes_grow l st : st.1 `prefix_of` (foldl episode_step st l).1.
Proof.
  revert st. induction l as [|[s j] l IH]; intros [eps cur]; [done|]. cbn [foldl]. etrans; [|apply IH].
  cbn [episode_step]. destruct (j_ok j); cbn; auto using prefix_app_r.
Qed.

Lemma episodes_closed l eps x : j_ok x.2 = true → (foldl episode_step eps (l ++ [x])).2 = None.
Proof. rewrite foldl_app. destruct (foldl episode_step eps l), x as [s j]. cbn. by intros ->. Qed.

Lemma episodes_exact pre seg post x :
  (pre = [] ∨ ∃ l p, pre = l ++ [p] ∧ j_ok p.2 = true) → Forall (λ y, j_ok y.2 = false) (x :: seg) →
  (post = [] ∨ ∃ p l, post = p :: l ∧ j_ok p.2 = true) →
  ∃ e, e ∈ (episodes (pre ++ (x :: seg) ++ post)).1 ∧
    (∀ t, j_top x.2 = Some t → ep_start_slot e = t) ∧
    (∀ y t, last (x :: seg) = Some y → j_top y.2 = Some t → ep_end_slot e = t).
Proof.
  intros Hpre Hb Hpost. destruct (foldl episode_step ([], None) pre) as [eps cur] eqn:Ep.
  assert (cur = None) as ->.
  { destruct Hpre as [->|(l & p & -> & Hp)]; [by injection Ep as _ <-|].
    pose proof (episodes_closed l ([], None) p Hp) as H. by rewrite Ep in H. }
  destruct (episode_run eps seg x Hb) as (e & He & Hs & Hl). exists e. split; [|done].
  unfold episodes. rewrite foldl_app, Ep, foldl_app, He.
  destruct Hpost as [->|([s j] & l & -> & Hp)]; [cbn; set_solver|]. cbn [foldl episode_step]. cbn [snd] in Hp. rewrite Hp.
  pose proof (episodes_grow l (eps ++ [e], None)) as [more Hm]. destruct (foldl episode_step (eps ++ [e], None) l) as [eps' cur'].
  cbn [fst] in *. rewrite Hm. set_solver.
Qed.
End runs.

(** ** Finality over a run *)
Section by_slot.
Context {K : Type} `{Countable K}.
Implicit Types (l : list (Z * K * string)) (d : gmap Z (gmap K (gset string))).

Definition shows d (slot : Z) (k : K) : Prop := ∃ ks, d !! slot = Some ks ∧ is_Some (ks !! k).

Lemma by_slot_shows l slot k n : (slot, k, n) ∈ l → shows (by_slot l) slot k.
Proof.
  unfold by_slot. induction l as [|[[sl k'] n'] l IH] using rev_ind; [set_solver|].
  rewrite foldl_app. cbn [foldl]. intros [Hin|Hin]%elem_of_app.
  - destruct (IH Hin) as (ks & Hks & Hk). unfold shows. destruct (decide (sl = slot)) as [->|Hne].
    + rewrite lookup_insert_eq, Hks. eexists. split; [done|]. cbn. apply lookup_insert_is_Some. destruct (decide (k' = k)); auto.
    + rewrite lookup_insert_ne by done. eauto.
  - apply list_elem_of_singleton in Hin as [= -> -> ->]. eexists. rewrite lookup_insert_eq. split; [done|]. rewrite lookup_insert_eq. eauto.
Qed.

Lemma no_conflict l slot k1 k2 n1 n2 : conflicts l = ∅ → (slot, k1, n1) ∈ l → (slot, k2, n2) ∈ l → k1 = k2.
Proof.
  intros Hc H1%by_slot_shows H2%by_slot_shows. destruct H1 as (ks & Hks & H1), H2 as (ks' & Hks' & H2).
  rewrite Hks in Hks'. injection Hks' as <-. apply elem_of_dom in H1, H2.
  destruct (decide (1 < size ks)%nat) as [Hs|Hs].
  - assert (conflicts l !! slot = Some ks) as Hf by (apply map_lookup_filter_Some; done). by rewrite Hc, lookup_empty in Hf.
  - rewrite <- size_dom in Hs. apply (proj1 (size_le1 (dom ks))); [lia|done..].
Qed.
End by_slot.

Lemma fin_step_app n l obs d :
  ∃ more, foldl (fin_step n) (obs, d) l = (obs ++ more, (foldl (fin_step n) ([], d) l).2) ∧ (foldl (fin_step n) ([], d) l).1 = more.
Proof.
  revert obs d. induction l as [|s l IH]; intros obs d; cbn [foldl].
  - exists []. by rewrite app_nil_r.
  - cbn [fin_step]. destruct (s_nodes s !! n ≫= finals_of) as [[f b]|]; [|apply IH].
    destruct (IH (obs ++ [FinObs (s_t s) (b_slot f) (b_slot b) d]) false) as (m1 & -> & E1).
    destruct (IH ([] ++ [FinObs (s_t s) (b_slot f) (b_slot b) d]) false) as (m2 & -> & E2). cbn [app snd fst] in *.
    exists (FinObs (s_t s) (b_slot f) (b_slot b) d :: m1). rewrite <- (assoc_L (++)), <- E1, <- E2. done.
Qed.

(** Two samples in a row that show a node's finality give two observations in a row. *)
Lemma fin_of_adjacent n samples i s1 s2 f1 b1 f2 b2 :
  samples !! i = Some s1 → samples !! S i = Some s2 →
  s_nodes s1 !! n ≫= finals_of = Some (f1, b1) → s_nodes s2 !! n ≫= finals_of = Some (f2, b2) →
  ∃ o1 o2 l r, fin_of n samples = l ++ o1 :: o2 :: r ∧ fo_final o1 = b_slot f1 ∧ fo_final o2 = b_slot f2 ∧ fo_was_down o2 = false.
Proof.
  intros H1 H2 E1 E2. rewrite <- (take_drop_middle samples i s1 H1).
  assert (Hd : drop (S i) samples = s2 :: drop (S (S i)) samples) by (by apply drop_S).
  rewrite Hd. unfold fin_of. rewrite foldl_app. destruct (foldl (fin_step n) ([], false) (take i samples)) as [obs d].
  cbn [foldl fin_step]. rewrite E1. cbn [fin_step]. rewrite E2.
  destruct (fin_step_app n (drop (S (S i)) samples) ((obs ++ [FinObs (s_t s1) (b_slot f1) (b_slot b1) d]) ++ [FinObs (s_t s2) (b_slot f2) (b_slot b2) false]) false)
    as (more & -> & _).
  eexists _, _, obs, more. rewrite <- !(assoc_L (++)). cbn. done.
Qed.

Lemma walk_back_grows S w l : fw_back w `prefix_of` fw_back (foldl (walk_step S) w l).
Proof.
  revert w. induction l as [|o l IH]; intros w; [done|]. cbn [foldl]. etrans; [|apply IH].
  unfold walk_step. destruct (_ && _), (negb _); cbn; auto using prefix_app_r.
Qed.

Lemma walk_prev S w o l : fw_prev (foldl (walk_step S) w (l ++ [o])) = o.
Proof. rewrite foldl_app. cbn. unfold walk_step. by destruct (_ && _), (negb _). Qed.

Lemma walk_fin_monotone S obs nf back l o1 o2 r :
  walk_fin S obs = Some (nf, back) → back = [] → obs = l ++ o1 :: o2 :: r → fo_was_down o2 = false → fo_final o1 ≤ fo_final o2.
Proof.
  intros Hw -> -> Hd.
  assert (Hprev : ∃ w, fw_prev w = o1 ∧ fw_back (foldl (walk_step S) (walk_step S w o2) r) = []).
  { destruct l as [|x l]; cbn in Hw; injection Hw as _ Hb; [by exists (FinWalk 0 o1 o1 [])|].
    exists (foldl (walk_step S) (FinWalk 0 x x []) (l ++ [o1])). split; [apply walk_prev|].
    rewrite foldl_app in Hb |- *. exact Hb. }
  destruct Hprev as (w & <- & Hb). pose proof (walk_back_grows S (walk_step S w o2) r) as Hp. rewrite Hb in Hp.
  apply prefix_nil_inv in Hp. unfold walk_step in Hp. rewrite Hd in Hp.
  destruct (fo_final o2 <? fo_final (fw_prev w)) eqn:E; zbool; [|done]. cbn in Hp. destruct (negb _); cbn in Hp; by apply app_nil in Hp as [_ ?].
Qed.

(** ** The acceptance of a net *)

(** The highest best slot a sample shows. *)
Definition top_slot (s : sample) : option Z := top_of (map b_slot (values (omap best_of (s_nodes s)))).

(** What a passing verdict promises of the samples: *)
Record accepted (o : options) (E S : Z) (samples : list sample) : Prop := {
  (* some sample is one head, and no run of samples that are not lasts longer than an epoch *)
  ac_head : ∃ s, s ∈ samples ∧ one_head_at (op_max_lag o) s;
  ac_diverged i j si sj : (i ≤ j)%nat → samples !! i = Some si → samples !! j = Some sj →
    (∀ k s, (i ≤ k ≤ j)%nat → samples !! k = Some s → ¬ one_head_at (op_max_lag o) s) →
    20 * (s_t sj - s_t si) ≤ (20 * E + 1) * (1000 * S);
  (* nor does the chain move on by more than an epoch during a whole run of them *)
  ac_progress pre mid post s1 sl t1 tl : samples = pre ++ mid ++ post →
    (pre = [] ∨ ∃ s, last pre = Some s ∧ one_head_at (op_max_lag o) s) →
    (∀ s, s ∈ mid → ¬ one_head_at (op_max_lag o) s) →
    (post = [] ∨ ∃ s, head post = Some s ∧ one_head_at (op_max_lag o) s) →
    head mid = Some s1 → last mid = Some sl → top_slot s1 = Some t1 → top_slot sl = Some tl → tl - t1 ≤ E;
  (* over two slots or more, the best block of every node advances *)
  ac_live s0 sl n : head samples = Some s0 → last samples = Some sl → 2000 * S ≤ s_t sl - s_t s0 →
    (∃ s, s ∈ samples ∧ n ∈ dom (s_nodes s)) →
    ∃ b0 bl, head (bests n samples) = Some b0 ∧ last (bests n samples) = Some bl ∧ b0 < bl;
  (* two nodes that finalize a slot finalize one block there *)
  ac_final s1 s2 n1 n2 f1 f2 b1 b2 h1 h2 : op_finality o ≠ Report → s1 ∈ samples → s2 ∈ samples →
    s_nodes s1 !! n1 ≫= finals_of = Some (f1, b1) → s_nodes s2 !! n2 ≫= finals_of = Some (f2, b2) →
    b_hash f1 = Some h1 → b_hash f2 = Some h2 → b_slot f1 = b_slot f2 → h1 = h2;
  (* the finalized head of a node that stays up never goes back *)
  ac_forward i s1 s2 n f1 f2 b1 b2 : op_finality o ≠ Report → samples !! i = Some s1 → samples !! Datatypes.S i = Some s2 →
    s_nodes s1 !! n ≫= finals_of = Some (f1, b1) → s_nodes s2 !! n ≫= finals_of = Some (f2, b2) →
    b_slot f1 ≤ b_slot f2;
  (* when authoring is required, every validator was credited a block *)
  ac_authors : op_require_authoring o = true →
    ∃ a, authoring E true samples = Some a ∧ au_blocks a ≠ [] ∧ 0 ∉ au_blocks a
}.

Lemma elem_of_names samples n : n ∈ names_of samples ↔ ∃ s, s ∈ samples ∧ n ∈ dom (s_nodes s).
Proof.
  unfold names_of. rewrite elem_of_elements, elem_of_union_list. setoid_rewrite list_elem_of_fmap. naive_solver.
Qed.

Lemma final_hash_shown s n f b h : s_nodes s !! n ≫= finals_of = Some (f, b) → b_hash f = Some h → (b_slot f, h, n) ∈ final_hashes s.
Proof.
  intros (ob & Hn & Hf)%bind_Some Hh. unfold final_hashes. apply elem_of_app. left. apply list_elem_of_omap. exists (n, ob).
  split; [by apply elem_of_map_to_list|]. cbn [fst snd]. by rewrite Hf, Hh.
Qed.

Section acceptance.
Context (E S : Z) (samples : list sample).

Lemma one_head_pass max_lag kinds :
  let sjs := map (λ s, (s, judge_sample max_lag s)) samples in
  0 < S → in_order (map s_t samples) → oh_pass (one_head E S kinds sjs) = true →
  (∃ s, s ∈ samples ∧ one_head_at max_lag s) ∧
  ∀ i j si sj, (i ≤ j)%nat → samples !! i = Some si → samples !! j = Some sj →
    (∀ k s, (i ≤ k ≤ j)%nat → samples !! k = Some s → ¬ one_head_at max_lag s) →
    20 * (s_t sj - s_t si) ≤ (20 * E + 1) * (1000 * S).
Proof.
  intros sjs HS Hord. unfold one_head. destruct (episodes sjs) as [eps open] eqn:Ee. cbn [oh_pass].
  rewrite andb_true_iff, bool_decide_eq_true. intros [Hok Hlong]. split.
  - apply Nat.ltb_lt in Hok. destruct (filter (λ p, j_ok p.2 = true) sjs) as [|p l] eqn:Ef; [cbn in Hok; lia|].
    assert (Hp : p ∈ filter (λ p, j_ok p.2 = true) sjs) by (rewrite Ef; set_solver).
    apply list_elem_of_filter in Hp as [Hj (s & -> & Hs)%list_elem_of_fmap]. exists s. split; [done|]. by apply judge_sample_one_head.
  - intros i j si sj Hij Hi Hj Hbad.
    destruct (episodes_cover sjs i j (si, judge_sample max_lag si) (sj, judge_sample max_lag sj)) as (e & He & Ht).
    + unfold sjs. rewrite map_map. done.
    + done.
    + unfold sjs. by rewrite list_lookup_fmap, Hi.
    + unfold sjs. by rewrite list_lookup_fmap, Hj.
    + intros k x Hk. unfold sjs. rewrite list_lookup_fmap. intros (s & Hs & ->)%fmap_Some. cbn [snd].
      apply not_true_is_false. rewrite judge_sample_one_head. by apply (Hbad k s).
    + rewrite Ee in He. cbn [fst] in *. assert (Hle : episode_slots S e ≤ 10 * E).
      { destruct (decide (10 * E < episode_slots S e)) as [Hgt|]; [|lia].
        assert (e ∈ filter (λ e, 10 * E < episode_slots S e) eps) as Hin by (by apply list_elem_of_filter). rewrite Hlong in Hin. set_solver. }
      apply tenths_bound in Hle; lia.
Qed.

Lemma one_head_progress max_lag kinds pre mid post s1 sl t1 tl :
  let sjs := map (λ s, (s, judge_sample max_lag s)) samples in
  0 < S → oh_pass (one_head E S kinds sjs) = true → samples = pre ++ mid ++ post →
  (pre = [] ∨ ∃ s, last pre = Some s ∧ one_head_at max_lag s) → (∀ s, s ∈ mid → ¬ one_head_at max_lag s) →
  (post = [] ∨ ∃ s, head post = Some s ∧ one_head_at max_lag s) →
  head mid = Some s1 → last mid = Some sl → top_slot s1 = Some t1 → top_slot sl = Some tl → tl - t1 ≤ E.
Proof.
  intros sjs HS. unfold one_head. destruct (episodes sjs) as [eps open] eqn:Ee. cbn [oh_pass].
  rewrite andb_true_iff, bool_decide_eq_true. intros [_ Hlong] Es Hpre Hmid Hpost H1 Hl Ht1 Htl.
  destruct mid as [|x mid]; [done|]. injection H1 as ->. set (jd := λ s, (s, judge_sample max_lag s)).
  destruct (episodes_exact (map jd pre) (map jd mid) (map jd post) (jd s1)) as (e & He & Hs & Hend).
  - destruct Hpre as [->|(s & Hs & Ho)]; [by left|right]. apply last_Some in Hs as [l ->].
    exists (map jd l), (jd s). split; [by rewrite List.map_app|]. by apply judge_sample_one_head.
  - change (Forall (λ y, j_ok y.2 = false) (map jd (s1 :: mid))). apply Forall_forall. intros y (s & -> & Hs)%list_elem_of_fmap.
    apply not_true_is_false. unfold jd. cbn [snd]. rewrite judge_sample_one_head. by apply Hmid.
  - destruct Hpost as [->|(s & Hs & Ho)]; [by left|right]. destruct post as [|p l]; [done|]. injection Hs as ->.
    exists (jd s), (map jd l). split; [done|]. by apply judge_sample_one_head.
  - assert (Esjs : sjs = map jd pre ++ (jd s1 :: map jd mid) ++ map jd post) by (unfold sjs; by rewrite Es, !List.map_app).
    rewrite <- Esjs, Ee in He. cbn [fst] in He.
    assert (Hle : episode_slots S e ≤ 10 * E).
    { destruct (decide (10 * E < episode_slots S e)) as [Hgt|]; [|lia].
      assert (e ∈ filter (λ e, 10 * E < episode_slots S e) eps) as Hin by (by apply list_elem_of_filter). rewrite Hlong in Hin. set_solver. }
    apply tenths_bound in Hle; [|lia]. rewrite (Hs t1 Ht1), (Hend (jd sl) tl) in Hle; [nia| |exact Htl].
    change (jd s1 :: map jd mid) with (jd <$> (s1 :: mid)). by rewrite fmap_last, Hl.
Qed.

Lemma liveness_pass span n : lv_pass (liveness S span (names_of samples) samples) = true → 2000 * S ≤ span →
  n ∈ names_of samples → ∃ b0 bl, head (bests n samples) = Some b0 ∧ last (bests n samples) = Some bl ∧ b0 < bl.
Proof.
  cbn [liveness lv_pass]. intros H Hspan Hn. rewrite (proj2 (Z.leb_le _ _) Hspan) in H. cbn in H.
  rewrite forallb_forall in H. specialize (H (n, advance n samples)). cbn [snd] in H. unfold advance in H.
  assert (Hi : In (n, advance n samples) (map (λ n, (n, advance n samples)) (names_of samples)))
    by (apply in_map_iff; exists n; split; [done|by apply list_elem_of_In]).
  specialize (H Hi). destruct (head (bests n samples)) as [b0|], (last (bests n samples)) as [bl|]; try discriminate H.
  zbool. exists b0, bl. split_and!; [done..|lia].
Qed.

Lemma finality_clean mode lim long names : fr_pass (finality mode S lim long names samples) = true →
  conflicts (concat (map final_hashes samples)) = ∅ ∧
  ∀ n nf back, n ∈ names → walk_fin S (fin_of n samples) = Some (nf, back) → back = [].
Proof.
  unfold finality. cbn [fr_pass].
  set (back := concat (map (λ p, match p.2 with Some (_, l) => map (pair p.1) l | None => [] end) _)). intros H.
  assert (conflicts (concat (map final_hashes samples)) = ∅ ∧ back = []) as [Hc Hb].
  { destruct (existsb _ _); rewrite !andb_true_iff, !bool_decide_eq_true in H; tauto. }
  split; [done|]. intros n nf bk Hn Hw. destruct bk as [|x bk]; [done|].
  assert (In (n, x) back) as Hin; [|by rewrite Hb in Hin]. apply in_concat. exists (map (pair n) (x :: bk)). split; [|by left].
  apply in_map_iff. exists (n, walk_fin S (fin_of n samples)). cbn [fst snd]. rewrite Hw. split; [done|].
  apply in_map_iff. exists n. rewrite Hw. split; [done|by apply list_elem_of_In].
Qed.

Lemma authoring_pass : match authoring E true samples with Some a => au_pass a | None => true end = true →
  ∃ a, authoring E true samples = Some a ∧ au_blocks a ≠ [] ∧ 0 ∉ au_blocks a.
Proof.
  unfold authoring. destruct (omap _ samples) as [|p l]; [done|]. cbn [au_pass]. set (blocks := map _ (credited _)).
  cbn [andb]. rewrite negb_true_iff, orb_false_iff, negb_false_iff, bool_decide_eq_true, bool_decide_eq_false. intros [Hi Hb].
  eexists. split; [done|]. cbn [au_blocks]. split; [done|]. intros (i & Hl)%list_elem_of_lookup.
  assert (i ∈ filter (λ i, blocks !! i = Some 0) (seq 0 (length blocks))) as Hin; [|rewrite Hi in Hin; set_solver].
  apply list_elem_of_filter. split; [done|]. apply elem_of_seq. apply lookup_lt_Some in Hl. lia.
Qed.
End acceptance.

