(* ===== verification/NetwatchRun.v ===== *)
(** * The net watch at work

    The rest of src/offchain/netwatch.py that keeps state: the exporter's tallies ([Exporter.step]), with
    theorems on what the sampler lines up, what the validators are credited with, and how the running
    tallies agree with the verdict on the same samples. *)
From S2P Require Import Prelude Bytes Netwatch.

(** ** Lining heads up *)

(** [anc parent k a b]: [b] is reached from [a] in [k] steps to the parent *)
Inductive anc (parent : bytes → result (Z * bytes)) : nat → Z * bytes → Z * bytes → Prop :=
| anc_here a : anc parent 0 a a
| anc_up k a b c : parent a.2 = Ok b → anc parent k b c → anc parent (S k) a c.

Section ancestors.
Context (parent : bytes → result (Z * bytes)).
Context (slot_of : bytes → Z) (older : ∀ h b, parent h = Ok b → b.1 = slot_of b.2 ∧ b.1 < slot_of h).
Implicit Types (a b c : Z * bytes).

Lemma anc_slot k a b : anc parent k a b → a.1 = slot_of a.2 → b.1 ≤ a.1 - Z.of_nat k ∧ b.1 = slot_of b.2.
Proof. induction 1 as [|k a b c Hp _ IH]; [intros ->; lia|]. intros Ha. destruct (older _ _ Hp) as [Hb ?]. specialize (IH Hb). lia. Qed.

(** The walk stops at the newest block at or below the slot. *)
Lemma walk_back_newest fuel a slot b :
  walk_back parent fuel a slot = Some b → (∃ k, anc parent k a b) ∧ b.1 ≤ slot ∧ ∀ k c, anc parent k a c → c.1 ≤ slot → ∃ j, anc parent j b c.
Proof.
  revert a. induction fuel as [|fuel IH]; intros a; [done|]. cbn [walk_back]. destruct (a.1 <=? slot) eqn:E; zbool.
  - intros [= <-]. split_and!; [exists 0%nat; constructor|done|eauto].
  - destruct (parent a.2) as [a'|] eqn:Ep; [|done]. intros (Hk & Hb & Hmin)%IH. split_and!; [|done|].
    + destruct Hk as [k Hk]. exists (S k). by econstructor.
    + intros k c Hc Hle. destruct Hc as [|k a b' c Hp Hc]; [lia|]. rewrite Ep in Hp. injection Hp as <-. by eapply Hmin.
Qed.

(** Of two blocks on one chain the walks to the lower slot meet. *)
Lemma walks_meet fuel fuel' a b slot k x y :
  a.1 = slot_of a.2 → anc parent k a b → slot = b.1 →
  walk_back parent fuel a slot = Some x → walk_back parent fuel' b slot = Some y → x = b ∧ y = b.
Proof.
  intros Ha Hab -> (Hax & Hx & Hmin)%walk_back_newest Hy. split.
  - destruct (Hmin k b Hab ltac:(lia)) as [j Hj]. destruct j; [by inversion Hj|]. destruct Hax as [i Hi].
    apply anc_slot in Hi as [_ Hi]; [|done]. apply anc_slot in Hj as [Hj _]; [lia|done].
  - destruct fuel'; [done|]. cbn in Hy. rewrite Z.leb_refl in Hy. congruence.
Qed.
End ancestors.

Lemma foldl_min_le l x : foldl Z.min x l ≤ x ∧ (∀ y, y ∈ l → foldl Z.min x l ≤ y) ∧ (foldl Z.min x l = x ∨ foldl Z.min x l ∈ l).
Proof.
  revert x. induction l as [|y l IH]; intros x; cbn [foldl]; [split_and!; [lia|set_solver|by left]|].
  destruct (IH (Z.min x y)) as (H1 & H2 & H3). split_and!; [lia| |].
  - intros z [->|Hz]%elem_of_cons; [lia|by apply H2].
  - destruct H3 as [->|H3]; [|right; set_solver]. destruct (Z.min_spec x y) as [[_ ->]|[_ ->]]; [by left|right; set_solver].
Qed.

Lemma min_slot_spec l m : min_slot l = Some m → m ∈ l ∧ ∀ x, x ∈ l → m ≤ x.
Proof.
  destruct l as [|x l]; [done|]. cbn. intros [= <-]. destruct (foldl_min_le l x) as (H1 & H2 & H3). split.
  - destruct H3 as [->|?]; set_solver.
  - intros y [->|Hy]%elem_of_cons; auto.
Qed.

(** Nodes on one chain are never seen as a fork: if the heads of the nodes lie on one chain, each node
    answering parent reads from it, then all blocks the sampler lines up are the same block, whichever of the
    nodes lag or were read a moment apart. *)
Theorem align_no_false_fork parent slot_of probes max_hops a n1 n2 x1 x2 :
  (∀ h b, parent h = Ok b → b.1 = slot_of b.2 ∧ b.1 < slot_of h) →
  (∀ n b, (n, b) ∈ probes → rpc_parent (n_rpc n) = parent) →
  (∀ n b n' b' h h', (n, b) ∈ probes → (n', b') ∈ probes → b_hash b = Some h → b_hash b' = Some h' →
     (∃ k, anc parent k (b_slot b, h) (b_slot b', h')) ∨ (∃ k, anc parent k (b_slot b', h') (b_slot b, h))) →
  (∀ n b, (n, b) ∈ probes → ∃ h, b_hash b = Some h ∧ b_slot b = slot_of h) →
  align probes max_hops = Some a → al_blocks a !! n1 = Some (Some x1) → al_blocks a !! n2 = Some (Some x2) → x1 = x2.
Proof.
  intros Hold Hpar Hchain Hhash. unfold align. destruct (min_slot _) as [slot|] eqn:Em; [|done]. intros [= <-]. cbn [al_blocks].
  apply min_slot_spec in Em as [Hin Hmin]. apply list_elem_of_fmap in Hin as ([m bm] & Es & Hm). cbn in Es.
  destruct (Hhash m bm Hm) as (hm & Ehm & Hsm).
  assert (Hone : ∀ n x, (list_to_map (map (λ p, (n_name p.1, ancestor_at p.1 p.2 slot max_hops)) probes) : gmap string _) !! n = Some (Some x) →
            x = (slot, hm)).
  { intros n x Hx%elem_of_list_to_map_2. apply list_elem_of_fmap in Hx as ([p b] & [= -> Hx] & Hp).
    unfold ancestor_at in Hx. cbn [fst snd] in Hx. destruct (Hhash p b Hp) as (h & Eh & Hsb). rewrite Eh in Hx.
    rewrite (Hpar p b Hp) in Hx. symmetry in Hx.
    destruct (Hchain p b m bm h hm Hp Hm Eh Ehm) as [[k Hk]|[k Hk]].
    - destruct (Z.to_nat (max_hops + 1)) as [|f] eqn:Ef; [done|].
      destruct (walks_meet parent slot_of Hold (S f) (S f) (b_slot b, h) (b_slot bm, hm) slot k x (slot, hm) Hsb Hk) as [-> _]; [done|done| |by rewrite Es].
      cbn. by rewrite <- Es, Z.leb_refl.
    - destruct (anc_slot parent slot_of Hold k (b_slot bm, hm) (b_slot b, h) Hk Hsm) as [Hs _]. cbn in Hs.
      assert (slot ≤ b_slot b) as Hle by (apply Hmin, list_elem_of_fmap; by exists (p, b)).
      assert (k = 0%nat) as -> by lia. inversion Hk as [y E1 E2|].
      destruct (Z.to_nat (max_hops + 1)); [done|]. cbn in Hx.
      rewrite (proj2 (Z.leb_le _ _)) in Hx by lia. congruence. }
  intros ->%Hone ->%Hone. done.
Qed.

(** ** Blocks credited over a run *)
Lemma fold_last_lookup last i total k :
  fold_last i last total !! k =
  if decide (i ≤ k < i + length last)%nat then Some (pi_add (default zero_rec (total !! k)) (default zero_rec (last !! (k - i)%nat)))
  else total !! k.
Proof.
  revert i total. induction last as [|r last IH]; intros i total; cbn [fold_last length].
  - by rewrite decide_False by lia.
  - rewrite IH. destruct (decide (i = k)) as [->|Hne].
    + rewrite decide_False, lookup_insert_eq, decide_True by lia. by rewrite Nat.sub_diag.
    + rewrite lookup_insert_ne by done. destruct (decide (S i ≤ k < S i + length last)%nat).
      * rewrite decide_True by lia. replace (k - i)%nat with (S (k - S i)) by lia. done.
      * by rewrite decide_False by lia.
Qed.

Lemma keys_bound_le (m : gmap nat (list Z)) n : (∀ k, is_Some (m !! k) → (k < n)%nat) → (keys_bound m ≤ n)%nat.
Proof.
  intros Hm. unfold keys_bound.
  assert (H : ∀ p, p ∈ map_to_list m → (p.1 < n)%nat) by (intros [k r] Hp%elem_of_map_to_list; apply Hm; eauto).
  clear Hm. induction (map_to_list m) as [|p l IH]; [cbn; lia|]. cbn [foldr].
  pose proof (H p ltac:(set_solver)). specialize (IH ltac:(set_solver)). lia.
Qed.

Section credit.
Context (V : nat) (epoch_slots : Z) (R : Z → list (list Z)).   (* R e: the finished record of epoch e *)
Context (R_len : ∀ e, length (R e) = V).

(** What epochs [e0 .. e-1] credited to validator [i]. *)
Definition finished (e0 e : Z) (i : nat) : list Z :=
  foldl pi_add zero_rec (map (λ x, default zero_rec (R x !! i)) (seqZ e0 (e - e0))).

(** One statistics read: a slot and the epoch so far; the last epoch's record is the finished one. *)
Definition feed (p : pi_tracker) (r : Z * list (list Z)) : pi_tracker :=
  pi_update r.1 epoch_slots r.2 (R (r.1 / epoch_slots - 1)) p.
(** No epoch passes between two reads. *)
Fixpoint gapless (e : Z) (reads : list (Z * list (list Z))) : Prop :=
  match reads with
  | [] => True
  | r :: rest => (r.1 / epoch_slots = e ∨ r.1 / epoch_slots = e + 1) ∧ length r.2 = V ∧ gapless (r.1 / epoch_slots) rest
  end.

Record tracks (e0 e : Z) (c : list (list Z)) (p : pi_tracker) : Prop := {
  tk_epoch : pt_epoch p = Some e;
  tk_order : e0 ≤ e;
  tk_current : pt_current p = c;
  tk_total i : (i < V)%nat → default zero_rec (pt_total p !! i) = finished e0 e i;
  tk_keys i : is_Some (pt_total p !! i) → (i < V)%nat
}.

Lemma feed_tracks e0 e c p r :
  tracks e0 e c p → r.1 / epoch_slots = e ∨ r.1 / epoch_slots = e + 1 → tracks e0 (r.1 / epoch_slots) r.2 (feed p r).
Proof.
  intros [He Ho Hc Ht Hk] Hr. unfold feed, pi_update. rewrite He.
  destruct Hr as [-> | ->]; [rewrite Z.ltb_irrefl, Z.leb_refl; by split|].
  rewrite (proj2 (Z.ltb_lt e (e + 1))), (proj2 (Z.leb_le e (e + 1))) by lia. replace (e + 1 - 1) with e by lia.
  split; cbn [pt_epoch pt_current pt_total]; [done|lia|done|..].
  - intros i Hi. rewrite fold_last_lookup, R_len, decide_True by lia. cbn [default]. rewrite Ht, Nat.sub_0_r by done.
    unfold finished. replace (e + 1 - e0) with ((e - e0) + 1) by lia. rewrite seqZ_app, List.map_app, foldl_app by lia.
    replace (e0 + (e - e0)) with e by lia. done.
  - intros i. rewrite fold_last_lookup, R_len. case_decide; [lia|apply Hk].
Qed.

Lemma feed_run e0 e c p reads :
  tracks e0 e c p → gapless e reads →
  tracks e0 (default e (last (map (λ r, r.1 / epoch_slots) reads))) (default c (last (map snd reads))) (foldl feed p reads).
Proof.
  revert e c p. induction reads as [|r reads IH]; intros e c p Ht; [done|]. cbn [gapless foldl]. intros (Hr & _ & Hg).
  specialize (IH _ _ _ (feed_tracks _ _ _ _ _ Ht Hr) Hg).
  cbn [map]. rewrite !last_cons. by destruct (last (map _ reads)), (last (map snd reads)).
Qed.
End credit.

(** Validators are credited exactly what they authored: fed a statistics read in every epoch since the first,
    the tracker credits each validator the sum of the finished epochs and the current epoch so far. *)
Theorem credited_exact V epoch_slots R slot0 c0 reads :
  (∀ e, length (R e) = V) → length c0 = V → gapless V epoch_slots (slot0 / epoch_slots) reads →
  let e := default (slot0 / epoch_slots) (last (map (λ r, r.1 / epoch_slots) reads)) in
  let c := default c0 (last (map snd reads)) in
  credited (foldl (feed epoch_slots R) pi_init ((slot0, c0) :: reads)) =
  map (λ i, pi_add (finished R (slot0 / epoch_slots) e i) (default zero_rec (c !! i))) (seq 0 V).
Proof.
  intros HR Hc Hg e c.
  assert (H0 : tracks V R (slot0 / epoch_slots) (slot0 / epoch_slots) c0 (feed epoch_slots R pi_init (slot0, c0))).
  { split; cbn; [done|lia|done| |by intros i [? ?%lookup_empty_Some]]. intros i _. unfold finished.
    rewrite lookup_empty, Z.sub_diag. done. }
  destruct (feed_run V epoch_slots R HR _ _ _ _ _ H0 Hg) as [_ _ Hcur Ht Hk]. fold e c in Hcur, Ht. cbn [foldl].
  assert (Hlen : length c = V).
  { unfold c. clear -Hg Hc. revert Hg Hc. generalize (slot0 / epoch_slots) as x. revert c0.
    induction reads as [|r reads IH]; intros c0 x Hg Hc; [done|]. destruct Hg as (_ & Hl & Hg). cbn [map].
    specialize (IH r.2 _ Hg Hl). rewrite last_cons. by destruct (last (map snd reads)). }
  unfold credited. rewrite Hcur, Hlen, (Nat.max_l V) by (by apply keys_bound_le).
  apply map_ext_in. intros i Hi%in_seq. by rewrite Ht by lia.
Qed.

(** ** The exporter's tallies *)
Record exporter := Exporter {
  ex_last : option (sample * judgement);
  ex_samples : list sample;
  ex_n : Z;
  ex_diverged : Z;
  ex_episode_start : option (Z * Z);
  ex_final_seen : gmap Z (gset bytes);
  ex_conflicts : Z
}.
Definition ex_init : exporter := Exporter None [] 0 0 None ∅ 0.

(** [deque(maxlen=window).append] *)
Definition push_window (window : nat) (l : list sample) (s : sample) : list sample :=
  let l := l ++ [s] in drop (length l - window) l.

(** The finalized blocks with a hash that a sample shows, the nodes' own and the lined-up ones. *)
Definition seen_finals (s : sample) : list (Z * bytes) :=
  omap (λ p : string * observation,
    if ob_up p.2 then f ← ob_final p.2; h ← b_hash f; Some (b_slot f, h) else None) (map_to_list (s_nodes s)) ++
  omap snd (map_to_list (blocks_of (s_final s))).

Definition see_final (st : gmap Z (gset bytes) * Z) (b : Z * bytes) : gmap Z (gset bytes) * Z :=
  let '(seen, c) := st in
  let X := default ∅ (seen !! b.1) in
  if decide (b.2 ∈ X) then (<[b.1 := X]> seen, c)
  else let X' := {[b.2]} ∪ X in (<[b.1 := X']> seen, c + (if (1 <? size X')%nat then 1 else 0)).

Definition FINAL_SEEN_CAP : nat := 4096.
(** The oldest slots are forgotten beyond the cap. *)
Definition prune_seen (seen : gmap Z (gset bytes)) : gmap Z (gset bytes) :=
  if (FINAL_SEEN_CAP <? size seen)%nat then
    let old := take 1024 (sort_by Z.leb (map fst (map_to_list seen))) in
    filter (λ p, p.1 ∉ old) seen
  else seen.

(** [Exporter.step], on the sample taken *)
Definition export_step (max_lag : Z) (window : nat) (e : exporter) (s : sample) : exporter :=
  let j := judge_sample max_lag s in
  let '(seen, c) := foldl see_final (ex_final_seen e, ex_conflicts e) (seen_finals s) in
  Exporter (Some (s, j)) (push_window window (ex_samples e) s) (ex_n e + 1)
    (if j_ok j then ex_diverged e else ex_diverged e + 1)
    (if j_ok j then None
     else match ex_episode_start e with Some p => Some p | None => Some (s_t s, default 0 (j_top j)) end)
    (prune_seen seen) c.
Definition export (max_lag : Z) (window : nat) (l : list sample) : exporter := foldl (export_step max_lag window) ex_init l.

(** [see_final] tracks which blocks were seen and whether two share a slot. *)
Record seen_ok (L : list (Z * bytes)) (st : gmap Z (gset bytes) * Z) : Prop := {
  so_in slot h : h ∈ default ∅ (st.1 !! slot) ↔ (slot, h) ∈ L;
  so_some slot X : st.1 !! slot = Some X → X ≠ ∅;
  so_pos : 0 ≤ st.2;
  so_zero : st.2 = 0 ↔ ∀ slot h1 h2, (slot, h1) ∈ L → (slot, h2) ∈ L → h1 = h2
}.

Lemma see_final_ok L st b : seen_ok L st → seen_ok (L ++ [b]) (see_final st b).
Proof.
  destruct st as [seen c], b as [slot h]. intros [Hin Hne Hpos Hz]. cbn [fst snd] in *. unfold see_final. cbn [fst snd].
  case_decide as Hd.
  - assert (HL : ∀ x, x ∈ L ++ [(slot, h)] ↔ x ∈ L) by (apply Hin in Hd; intros x; set_solver).
    split; cbn [fst snd]; [|intros sl Y [[<- <-]|[_ HY]]%lookup_insert_Some; [set_solver|by eapply Hne]|done|by setoid_rewrite HL].
    intros sl k. rewrite HL, <- Hin. destruct (decide (slot = sl)) as [->|]; [by rewrite lookup_insert_eq|by rewrite lookup_insert_ne].
  - set (X := default ∅ (seen !! slot)) in *. assert (Hone : (size ({[h]} ∪ X) ≤ 1)%nat ↔ X = ∅).
    { rewrite size_le1. split; [|set_solver]. intros H. apply set_eq. intros k. split; [|set_solver]. intros Hk.
      rewrite (H h k) in Hd by set_solver. done. }
    split; cbn [fst snd].
    + intros sl k. rewrite elem_of_app, list_elem_of_singleton, <- Hin. destruct (decide (slot = sl)) as [->|].
      * rewrite lookup_insert_eq. cbn [default]. fold X. set_solver.
      * rewrite lookup_insert_ne by done. naive_solver.
    + intros sl Y [[<- <-]|[_ HY]]%lookup_insert_Some; [set_solver|by eapply Hne].
    + destruct (1 <? _)%nat; lia.
    + destruct (1 <? size ({[h]} ∪ X))%nat eqn:E; [apply Nat.ltb_lt in E|apply Nat.ltb_ge in E].
      * split; [lia|]. intros H. exfalso. assert (X = ∅) as HX; [|apply Hone in HX; lia].
        apply set_eq. intros k. split; [|set_solver]. intros Hk. rewrite (H slot h k) in Hd; [done|set_solver|].
        apply elem_of_app. left. by apply Hin.
      * rewrite Z.add_0_r, Hz. apply Hone in E. assert (Hno : ∀ k, (slot, k) ∉ L) by (intros k Hk%Hin; fold X in Hk; set_solver).
        setoid_rewrite elem_of_app. setoid_rewrite list_elem_of_singleton. split; [|naive_solver].
        intros H sl h1 h2 [H1|H1] [H2|H2]; simplify_eq; [by eapply H|by apply Hno in H1|by apply Hno in H2|done].
Qed.

Lemma see_finals_ok l L st : seen_ok L st → seen_ok (L ++ l) (foldl see_final st l).
Proof.
  revert L st. induction l as [|b l IH]; intros L st H; [by rewrite app_nil_r|]. cbn [foldl].
  replace (L ++ b :: l) with ((L ++ [b]) ++ l) by (by rewrite <- (assoc_L (++))). by apply IH, see_final_ok.
Qed.

Lemma by_slot_from {K} `{Countable K} (l : list (Z * K * string)) slot ks k :
  by_slot l !! slot = Some ks → is_Some (ks !! k) → ∃ n, (slot, k, n) ∈ l.
Proof.
  revert ks. unfold by_slot. induction l as [|[[sl k'] n'] l IH] using rev_ind; [done|]. rewrite foldl_app. cbn [foldl].
  set (d := foldl _ ∅ l) in *. intros ks. destruct (decide (sl = slot)) as [->|].
  - rewrite lookup_insert_eq. intros [= <-]. destruct (decide (k' = k)) as [->|]; [intros _; exists n'; set_solver|].
    rewrite lookup_insert_ne by done. destruct (d !! slot) as [ks|] eqn:E; cbn; [|by rewrite lookup_empty; intros [? ?]].
    intros Hk. destruct (IH ks eq_refl Hk) as [m ?]. exists m. set_solver.
  - rewrite lookup_insert_ne by done. intros Hks Hk. destruct (IH ks Hks Hk) as [m ?]. exists m. set_solver.
Qed.

Lemma no_conflicts_iff {K} `{Countable K} (l : list (Z * K * string)) :
  conflicts l = ∅ ↔ ∀ slot k1 k2 n1 n2, (slot, k1, n1) ∈ l → (slot, k2, n2) ∈ l → k1 = k2.
Proof.
  split; [intros Hc slot k1 k2 n1 n2; by apply no_conflict|]. intros Hl. apply map_empty. intros slot. unfold conflicts.
  apply map_lookup_filter_None. right. intros ks Hks Hs. cbn [snd] in Hs. rewrite <- size_dom in Hs.
  assert ((size (dom ks) ≤ 1)%nat); [|lia]. apply size_le1. intros k1 k2 H1%elem_of_dom H2%elem_of_dom.
  destruct (by_slot_from l slot ks k1 Hks H1) as [n1 ?], (by_slot_from l slot ks k2 Hks H2) as [n2 ?]. by eapply Hl.
Qed.

(** Up means a best block was read, as in every sample [observe_node] makes. *)
Definition well_observed (s : sample) : Prop := ∀ n o, s_nodes s !! n = Some o → ob_up o = true → is_Some (ob_best o).

Lemma observe_up n : ob_up (observe_node n) = true → is_Some (ob_best (observe_node n)).
Proof.
  unfold observe_node. destruct (rpc_head (n_rpc n)) as [b|e]; cbn; [|done].
  destruct (rpc_finalized (n_rpc n)) as [f|e]; cbn; [|done]. destruct (match n_kind n with Jip2 => _ | Metrics => _ end). cbn. by destruct b.
Qed.

Lemma seen_finals_shown s slot h : well_observed s → (slot, h) ∈ seen_finals s ↔ ∃ n, (slot, h, n) ∈ final_hashes s.
Proof.
  intros Hs. unfold seen_finals, final_hashes. setoid_rewrite elem_of_app. setoid_rewrite list_elem_of_omap. split.
  - intros [([n o] & Hn & Ho)|([n b] & Hn & Hb)].
    + exists n. left. exists (n, o). split; [done|]. cbn [fst snd] in *. destruct (ob_up o) eqn:Eu; [|done].
      apply elem_of_map_to_list in Hn. destruct (Hs n o Hn Eu) as [b Eb]. unfold finals_of. rewrite Eu, Eb.
      destruct (ob_final o) as [f|]; [|done]. cbn in Ho. destruct (b_hash f); [|done]. by injection Ho as -> ->.
    + exists n. right. exists (n, b). split; [done|]. cbn [snd] in *. subst b. done.
  - intros [n [([n' o] & Hn & Ho)|([n' b] & Hn & Hb)]].
    + left. exists (n', o). split; [done|]. cbn [fst snd] in *. unfold finals_of in Ho.
      destruct (ob_up o), (ob_final o) as [f|], (ob_best o); try done. cbn. destruct (b_hash f); [|done]. cbn. congruence.
    + right. exists (n', b). split; [done|]. cbn [snd] in *. destruct b as [[? ?]|]; [|done]. congruence.
Qed.

Record tallies (max_lag : Z) (l : list sample) (e : exporter) : Prop := {
  ta_n : ex_n e = Z.of_nat (length l);
  ta_diverged : ex_diverged e = zsum (λ s, if j_ok (judge_sample max_lag s) then 0 else 1) l;
  ta_episode : ex_episode_start e = None ↔ ∀ s, last l = Some s → j_ok (judge_sample max_lag s) = true;
  ta_seen : seen_ok (concat (map seen_finals l)) (ex_final_seen e, ex_conflicts e)
}.

Lemma seen_size (L : list (Z * bytes)) st n : seen_ok L st → (size (list_to_set (map fst L) : gset Z) ≤ n)%nat → (size st.1 ≤ n)%nat.
Proof.
  intros [Hin Hne _ _] Hs. rewrite <- size_dom. etrans; [|exact Hs]. apply subseteq_size. intros slot [X HX]%elem_of_dom.
  destruct (set_choose_L X (Hne _ _ HX)) as [h Hh]. apply elem_of_list_to_set, list_elem_of_fmap. exists (slot, h). split; [done|].
  apply Hin. by rewrite HX.
Qed.

Lemma export_tallies max_lag window l :
  (size (list_to_set (map fst (concat (map seen_finals l))) : gset Z) ≤ FINAL_SEEN_CAP)%nat → tallies max_lag l (export max_lag window l).
Proof.
  induction l as [|s l IH] using rev_ind; intros Hcap.
  { split; [done..|]. split; cbn; [|done|done|set_solver]. intros slot h. rewrite lookup_empty. set_solver. }
  rewrite !List.map_app, concat_app in Hcap. cbn [map concat] in Hcap. rewrite app_nil_r in Hcap.
  destruct IH as [Hn Hd He Hs]; [etrans; [apply subseteq_size|exact Hcap]; rewrite List.map_app; set_solver|].
  unfold export in *. rewrite foldl_app. cbn [foldl]. set (e := foldl _ ex_init l) in *. unfold export_step.
  pose proof (see_finals_ok (seen_finals s) _ _ Hs) as Hs'.
  destruct (foldl see_final (ex_final_seen e, ex_conflicts e) (seen_finals s)) as [seen c] eqn:Ef.
  split; cbn [ex_n ex_diverged ex_episode_start ex_final_seen ex_conflicts].
  - rewrite length_app, Hn. cbn. lia.
  - rewrite zsum_app, zsum_cons, zsum_nil, <- Hd. destruct (j_ok _); lia.
  - rewrite last_snoc. destruct (j_ok (judge_sample max_lag s)) eqn:Ej; [naive_solver|].
    split; [by destruct (ex_episode_start e)|]. intros H. specialize (H s eq_refl). congruence.
  - rewrite List.map_app, concat_app. cbn [map concat]. rewrite app_nil_r. unfold prune_seen.
    pose proof (seen_size _ _ _ Hs' Hcap) as Hle. cbn [fst] in Hle. rewrite (proj2 (Nat.ltb_ge _ _)) by done. exact Hs'.
Qed.

(** The exporter and the verdict tell the same story: on any samples showing at most FINAL_SEEN_CAP finalized
    slots, the exporter has counted every sample and every divergence, shows an open divergence exactly when the
    last sample is not one head, and its counter of finality conflicts is zero exactly when the verdict on those
    samples finds no two hashes at one finalized slot. *)
Theorem exporter_agrees max_lag window l :
  (∀ s, s ∈ l → well_observed s) →
  (size (list_to_set (map fst (concat (map seen_finals l))) : gset Z) ≤ FINAL_SEEN_CAP)%nat →
  let e := export max_lag window l in
  ex_n e = Z.of_nat (length l) ∧
  ex_diverged e = zsum (λ s, if j_ok (judge_sample max_lag s) then 0 else 1) l ∧
  (ex_episode_start e = None ↔ ∀ s, last l = Some s → j_ok (judge_sample max_lag s) = true) ∧
  (ex_conflicts e = 0 ↔ conflicts (concat (map final_hashes l)) = ∅).
Proof.
  intros Hobs Hcap e. destruct (export_tallies max_lag window l Hcap) as [Hn Hd He [_ _ _ Hz]]. split_and!; [done..|].
  cbn [snd] in Hz. unfold e. rewrite Hz, no_conflicts_iff.
  assert (Hin : ∀ slot h, (slot, h) ∈ concat (map seen_finals l) ↔ ∃ n, (slot, h, n) ∈ concat (map final_hashes l)).
  { intros slot h. rewrite list_elem_of_In, in_concat. setoid_rewrite list_elem_of_In. setoid_rewrite in_concat. setoid_rewrite in_map_iff.
    setoid_rewrite <- list_elem_of_In. split.
    - intros (x & (s & <- & Hs) & Hx). apply (seen_finals_shown s slot h (Hobs s Hs)) in Hx as [n Hx]. exists n, (final_hashes s). eauto.
    - intros (n & x & (s & <- & Hs) & Hx). exists (seen_finals s). split; [eauto|]. apply (seen_finals_shown s slot h (Hobs s Hs)). eauto. }
  split.
  - intros H slot k1 k2 n1 n2 H1 H2. apply (H slot); apply Hin; eauto.
  - intros H slot h1 h2 [n1 H1]%Hin [n2 H2]%Hin. by eapply H.
Qed.

(** ** A run: two JIP-2 nodes on one chain, the second falling behind for one sample *)
Definition parent1 (h : bytes) : result (Z * bytes) :=
  match h with [n] => if n <=? 0 then Raise (KeyError "genesis") else Ok (n - 1, [n - 1]) | _ => Raise (KeyError "block") end.
Definition block1 (n : Z) : block := Block n (Some [n]) None.
Definition rpc1 (best final : Z) : node_rpc :=
  NodeRpc (Ok (Some (block1 best))) (Ok (Some (block1 final))) (Ok (3, None)) parent1 (Ok (Some (Some 12, Some 6))) (λ _, Ok None).
Definition net1 (a b : Z) : list node :=
  [Node "pj0" "polkajam" Jip2 (rpc1 a (a - 2)); Node "la1" "lasair" Jip2 (rpc1 b (b - 3))].
Definition sampler1 : sampler := Sampler 3 None None None true pi_init.
Definition sample1 (t a b : Z) : sample := (take_sample (net1 a b) t sampler1).1.
Definition run_samples1 : list sample := [sample1 0 10 10; sample1 6000 15 11; sample1 12000 16 16; sample1 18000 17 16].
Definition options1 : options := Options 3 None None Auto None false (Some 2).

Lemma run_samples1_order : in_order (map s_t (filter (λ s, s_nodes s ≠ ∅) run_samples1)).
Proof.
  intros i j a b Hij. change (map s_t (filter _ run_samples1)) with [0; 6000; 12000; 18000].
  do 4 (destruct i as [|i]; [destruct j as [|[|[|[|j]]]]; cbn; intros; simplify_eq; lia|]). done.
Qed.


Lemma anc_down k a h : (0 ≤ a - Z.of_nat k)%Z → h = [a] → anc parent1 k (a, h) (a - Z.of_nat k, [a - Z.of_nat k]).
Proof.
  revert a h. induction k as [|k IH]; intros a h Ha ->; [rewrite Z.sub_0_r; constructor|].
  apply (anc_up _ _ _ (a - 1, [a - 1])); [cbn; by rewrite (proj2 (Z.leb_gt _ _)) by lia|].
  replace (a - Z.of_nat (S k)) with (a - 1 - Z.of_nat k) by lia. apply IH; [lia|done].
Qed.

Definition probes1 : list (node * block) := zip (net1 13 9) [block1 13; block1 9].
Lemma align_no_false_fork_witness : ∃ a, align probes1 10 = Some a ∧
  al_blocks a !! "pj0"%string = Some (Some (9, [9])) ∧ al_blocks a !! "la1"%string = Some (Some (9, [9])) ∧ (9, [9]) = (9, [9]).
Proof.
  exists (default (Aligned 0 ∅) (align probes1 10)). split; [by vm_compute|]. split; [by vm_compute|]. split; [by vm_compute|].
  apply (align_no_false_fork parent1 (λ h, default 0 (head h)) probes1 10 (default (Aligned 0 ∅) (align probes1 10)) "pj0"%string "la1"%string);
    [| | | |by vm_compute..].
  - intros h b. unfold parent1. destruct h as [|n [|]]; try done. destruct (n <=? 0) eqn:E; [done|]. intros [= <-]. cbn. zbool. lia.
  - intros n b [[= -> ->]|[[= -> ->]|H]%elem_of_cons]%elem_of_cons; [done|done|set_solver].
  - assert (Hd : ∀ n b, (n, b) ∈ probes1 → b = block1 13 ∨ b = block1 9).
    { intros n b [[= -> ->]|[[= -> ->]|H]%elem_of_cons]%elem_of_cons; [by left|by right|set_solver]. }
    pose proof (anc_down 4 13 [13] ltac:(lia) eq_refl) as H4. cbn in H4.
    intros n b n' b' h h' [-> | ->]%Hd [-> | ->]%Hd [= <-] [= <-]; [left; exists 0%nat; constructor|left; eauto|right; eauto|left; exists 0%nat; constructor].
  - intros n b [[= -> ->]|[[= -> ->]|H]%elem_of_cons]%elem_of_cons; [by eexists|by eexists|set_solver].
Defined.

(** Three validators over epochs of 12 slots: each finished epoch credits them 4, 5 and 3 blocks. *)
Definition epoch_record1 (_ : Z) : list (list Z) := [[4; 0; 0; 0; 1; 9]; [5; 0; 0; 0; 2; 9]; [3; 0; 0; 0; 3; 9]].
Definition reads1 : list (Z * list (list Z)) :=
  [(118, [[3; 0; 0; 0; 0; 0]; [1; 0; 0; 0; 0; 0]; [2; 0; 0; 0; 0; 0]]); (125, [[1; 0; 0; 0; 0; 0]; [1; 0; 0; 0; 0; 0]; [0; 0; 0; 0; 0; 0]]);
   (132, [[0; 0; 0; 0; 0; 0]; [0; 0; 0; 0; 0; 0]; [1; 0; 0; 0; 0; 0]])].
Definition current0 : list (list Z) := [[1; 0; 0; 0; 0; 0]; [0; 0; 0; 0; 0; 0]; [0; 0; 0; 0; 0; 0]].
Lemma credited_exact_witness :
  credited (foldl (feed 12 epoch_record1) pi_init ((109, current0) :: reads1)) =
  [[8; 0; 0; 0; 2; 18]; [10; 0; 0; 0; 4; 18]; [7; 0; 0; 0; 6; 18]].
Proof. rewrite (credited_exact 3 12 epoch_record1 109 current0 reads1); [by vm_compute|done|done|]. vm_compute. tauto. Defined.

Lemma exporter_agrees_witness :
  let e := export 3 8640 run_samples1 in
  ex_n e = 4 ∧ ex_diverged e = 1 ∧ (ex_conflicts e = 0 ↔ conflicts (concat (map final_hashes run_samples1)) = ∅).
Proof.
  destruct (exporter_agrees 3 8640 run_samples1) as (H1 & H2 & _ & H3).
  - intros s Hs n o Ho Hu. assert (Hall : forallb (λ s, forallb (λ p, negb (ob_up p.2) || match ob_best p.2 with Some _ => true | None => false end)
      (map_to_list (s_nodes s))) run_samples1 = true) by (by vm_compute).
    rewrite forallb_forall in Hall. specialize (Hall s (proj1 (list_elem_of_In _ _) Hs)). rewrite forallb_forall in Hall.
    apply elem_of_map_to_list, list_elem_of_In in Ho. specialize (Hall _ Ho). cbn in Hall. rewrite Hu in Hall. cbn in Hall.
    by destruct (ob_best o).
  - by apply Nat.leb_le; vm_compute.
  - split; [exact H1|]. split; [by rewrite H2; vm_compute|exact H3].
Defined.
