(* ===== verification/OneHead.v ===== *)
(** * One head?

    src/nets/onehead.py, the tool that polls a net's validators and says whether they are on one chain: reading a node
    ([LasairProbe.best]), walking parents with a shared cache ([on_chain]), one sample's verdict ([sample_net]) and the verdict on
    a run ([summarize]).  Block hashes are byte strings; what a node answers is part of its probe. *)
From S2P Require Import Prelude Bytes Netwatch NetwatchRun.

Notation block_at := (Z * bytes)%type (only parsing).          (* slot, hash *)
(** How a probe finds ancestors: JIP-2 [parent] calls, or the blocks its STATUS lines showed *)
Inductive ancestry := Walks (parent : bytes → result (option block_at)) | Reads (seen : gmap Z bytes).
(** A node in one sample: its kind and what its best() and finalized() answer; a finalized hash may be missing *)
Record head_probe := HeadProbe { hp_kind : ancestry; hp_best : result block_at; hp_fin : result (option (Z * option bytes)) }.
Notation cache_t := (gmap bytes block_at).

(** [LasairProbe.best]: every STATUS line of the log is remembered, the last one is the head *)
Definition lasair_best (lines : list block_at) (seen : gmap Z bytes) : result block_at * gmap Z bytes :=
  (match last lines with Some b => Ok b | None => Raise (ValueError "no STATUS line in the last 90 s") end, foldl (λ m b, <[b.1 := b.2]> m) seen lines).

(** ** Ancestry *)
Definition WALK : nat := 64.
Fixpoint walk (parent : bytes → result (option block_at)) (slot : Z) (h : bytes) (n : nat) (cur : block_at) : SE cache_t (option bool) :=
  match n with
  | O => mret None
  | S n =>
      if cur.1 <=? slot then mret (Some (bool_decide (cur = (slot, h))))
      else
        known ← se_get (λ cache, cache !! cur.2);
        match known with
        | Some nxt => walk parent slot h n nxt
        | None =>
            nxt ← se_lift (parent cur.2);
            match nxt with
            | None => mret (Some false)
            | Some nxt => se_put (λ cache, <[cur.2 := nxt]> cache) ;; walk parent slot h n nxt
            end
        end
  end.
(** Is [other] on the chain that ends at [tip]: yes, no, or it cannot tell *)
Definition on_chain (kind : ancestry) (tip other : block_at) : SE cache_t (option bool) :=
  let '(slot, h) := other in
  if decide (tip.2 = h) then mret (Some true)
  else if tip.1 <=? slot then mret (Some false)
  else match kind with
       | Reads seen => mret ((λ x, bool_decide (x = h)) <$> (seen !! slot))
       | Walks parent => walk parent slot h WALK tip
       end.

(** ** One sample *)
Inductive head_verdict := HSame | HLag | HFork | HDown.
#[global] Instance head_verdict_eq_dec : EqDecision head_verdict.
Proof. solve_decision. Defined.
Record head_sample := HeadSample {
  hs_verdict : head_verdict; hs_heads : list (string * block_at); hs_fins : list (string * option (Z * option bytes));
  hs_down : list string; hs_forked : list string; hs_conflict : list string
}.

(** The reads, in the probes' order: a node whose best block was read but not its finalized one has a head and is down *)
Definition net_heads (ps : list (string * head_probe)) : list (string * block_at) := omap (λ p, match hp_best p.2 with Ok b => Some (p.1, b) | Raise _ => None end) ps.
Definition fins_of (ps : list (string * head_probe)) : list (string * option (Z * option bytes)) :=
  omap (λ p, match hp_best p.2, hp_fin p.2 with Ok _, Ok f => Some (p.1, f) | _, _ => None end) ps.
Definition down_of (ps : list (string * head_probe)) : list string := omap (λ p, match hp_best p.2, hp_fin p.2 with Ok _, Ok _ => None | _, _ => Some p.1 end) ps.

(** [max(d, key=slot)]: the first entry with the largest slot *)
Fixpoint highest (l : list (string * block_at)) : option (string * block_at) :=
  match l with
  | [] => None
  | x :: l' => match highest l' with Some y => if y.2.1 <=? x.2.1 then Some x else Some y | None => Some x end
  end.
(** [dict(ps)[name]] *)
Definition probe_of (ps : list (string * head_probe)) (name : string) : option head_probe := snd <$> last (filter (λ p, p.1 = name) ps).

(** The loop over the heads: who is not on the tip's chain, and whether anyone lags *)
Fixpoint judge_heads (kind : ancestry) (tip : block_at) (heads : list (string * block_at)) (lag : bool) (forked : list string) : SE cache_t (bool * list string) :=
  match heads with
  | [] => mret (lag, forked)
  | (name, h) :: rest =>
      if decide (h = tip) then judge_heads kind tip rest lag forked
      else
        v ← on_chain kind tip h;
        match v with
        | Some false => judge_heads kind tip rest lag (forked ++ [name])
        | _ => judge_heads kind tip rest true forked
        end
  end.
Definition hashed (fins : list (string * option (Z * option bytes))) : list (string * block_at) :=
  omap (λ f, match f.2 with Some (s, Some h) => if bool_decide (h = []) then None else Some (f.1, (s, h)) | _ => None end) fins.
Fixpoint judge_fins (kind : ancestry) (top : block_at) (fins : list (string * block_at)) (bad : list string) : SE cache_t (list string) :=
  match fins with
  | [] => mret bad
  | (name, f) :: rest => v ← on_chain kind top f; judge_fins kind top rest (match v with Some false => bad ++ [name] | _ => bad end)
  end.

Definition sample_heads (ps : list (string * head_probe)) : SE cache_t (head_verdict * list string) :=
  match highest (net_heads ps) with
  | None => mret (HSame, [])
  | Some (tip_name, tip) =>
      match probe_of ps tip_name with
      | None => se_lift (Raise (KeyError tip_name))
      | Some p =>
          r ← judge_heads (hp_kind p) tip (net_heads ps) false [];
          mret (match r.2 with [] => if r.1 : bool then HLag else HSame | _ => HFork end, r.2)
      end
  end.
Definition sample_fins (ps : list (string * head_probe)) : SE cache_t (list string) :=
  match highest (hashed (fins_of ps)) with
  | None => mret []
  | Some (top_name, top) =>
      match probe_of ps top_name with
      | None => se_lift (Raise (KeyError top_name))
      | Some p => judge_fins (hp_kind p) top (hashed (fins_of ps)) []
      end
  end.
Definition sample_net (ps : list (string * head_probe)) : SE cache_t head_sample :=
  r ← sample_heads ps;
  bad ← sample_fins ps;
  mret (HeadSample (match down_of ps with [] => r.1 | _ => HDown end) (net_heads ps) (fins_of ps) (down_of ps) r.2 bad).

(** ** A run of samples *)
Fixpoint longest_fork (samples : list head_sample) (run worst : nat) : nat :=
  match samples with
  | [] => worst
  | s :: rest => let run := if decide (hs_verdict s = HFork) then S run else 0%nat in longest_fork rest run (Nat.max worst run)
  end.
Definition assoc {A} (k : string) (l : list (string * A)) : option A := snd <$> last (filter (λ p, p.1 = k) l).
(** The first and the last slot read of a node *)
Definition span_of (seen : list Z) : option Z * option Z := (head seen, last seen).
Definition head_span (samples : list head_sample) (k : string) : option Z * option Z := span_of (omap (λ s, fst <$> assoc k (hs_heads s)) samples).
Definition fin_span (samples : list head_sample) (k : string) : option Z * option Z := span_of (omap (λ s, fst <$> (assoc k (hs_fins s) ≫= id)) samples).
Definition grew (ab : option Z * option Z) : bool := match ab with (Some a, Some b) => a <? b | _ => false end.
Inductive finality_word := FinConflict (n : nat) | FinEvery | FinSome | FinNone.
Definition summarize (samples : list head_sample) (names : list string) : result (bool * finality_word) :=
  match last samples with
  | None => Raise IndexError
  | Some last_ =>
      let worst := longest_fork samples 0 0 in
      let fin_conf := length (filter (λ s, hs_conflict s ≠ []) samples) in
      let heads_ok := bool_decide (length samples = 1%nat) || forallb (λ k, grew (head_span samples k)) names in
      let finalizing := existsb (λ k, match (fin_span samples k).2 with Some b => negb (b =? 0) | None => false end) names in
      let fin_all := forallb (λ k, grew (fin_span samples k)) names in
      let ok := (worst <=? 2)%nat && match hs_verdict last_ with HSame | HLag => true | _ => false end && heads_ok && (fin_conf =? 0)%nat in
      Ok (ok, match fin_conf with O => if finalizing then if fin_all then FinEvery else FinSome else FinNone | n => FinConflict n end)
  end.

(** ** What a sample's words mean *)
Lemma highest_spec l x : highest l = Some x → x ∈ l ∧ ∀ y, y ∈ l → y.2.1 ≤ x.2.1.
Proof.
  revert x. induction l as [|z l IH]; intros x; cbn; [done|]. destruct (highest l) as [y|] eqn:E.
  - destruct (IH y eq_refl) as [Hin Hmax]. destruct (Z.leb_spec y.2.1 z.2.1) as [Hle|Hlt]; intros [= <-]; (split; [set_solver|]); intros w [Ew|Hw]%elem_of_cons; subst; try lia; specialize (Hmax w Hw); lia.
  - intros [= <-]. split; [set_solver|]. destruct l as [|w l]; [intros y ->%list_elem_of_singleton; lia|]. cbn in E. by repeat case_match.
Qed.
Lemma probe_of_spec ps name p : NoDup (map fst ps) → (name, p) ∈ ps → probe_of ps name = Some p.
Proof.
  intros Hnd Hin. unfold probe_of. assert (filter (λ q : string * head_probe, q.1 = name) ps = [(name, p)]) as ->; [|done].
  induction ps as [|[n q] ps IH]; [set_solver|]. cbn in Hnd. apply NoDup_cons in Hnd as [Hn Hnd]. apply elem_of_cons in Hin as [[= -> ->]|Hin].
  - rewrite filter_cons_True by done. f_equal. apply filter_none. intros [n' q'] Hx. cbn. intros ->. apply Hn. apply list_elem_of_fmap. by exists (n, q').
  - rewrite filter_cons_False; [by apply IH|]. cbn. intros ->. apply Hn. apply list_elem_of_fmap. by exists (name, p).
Qed.
Lemma elem_of_heads ps name b : (name, b) ∈ net_heads ps ↔ ∃ p, (name, p) ∈ ps ∧ hp_best p = Ok b.
Proof.
  unfold net_heads. rewrite list_elem_of_omap. split.
  - intros ([n p] & Hin & E). cbn in E. destruct (hp_best p) eqn:Eb; [|done]. injection E as -> ->. by exists p.
  - intros (p & Hin & E). exists (name, p). split; [done|]. cbn. by rewrite E.
Qed.
Lemma elem_of_hashed ps name b : (name, b) ∈ hashed (fins_of ps) → ∃ p, (name, p) ∈ ps ∧ hp_fin p = Ok (Some (b.1, Some b.2)).
Proof.
  unfold hashed, fins_of. intros ([n f] & Hin & E)%list_elem_of_omap. apply list_elem_of_omap in Hin as ([n' p] & Hin & E'). cbn in *.
  repeat case_match; simplify_eq. by exists p.
Qed.

Section tree.
(** The blocks form one tree: a header names its parent, in an earlier slot. *)
Context (par : bytes → option block_at) (slot_of : bytes → Z).
Context (older : ∀ h b, par h = Some b → b.1 = slot_of b.2 ∧ b.1 < slot_of h).
Definition par_r (h : bytes) : result (Z * bytes) := match par h with Some b => Ok b | None => Raise (KeyError "parent") end.
Definition chain_has (tip b : block_at) : Prop := ∃ k, anc par_r k tip b.
Definition real (b : block_at) : Prop := b.1 = slot_of b.2.
Definition coherent (cache : cache_t) : Prop := ∀ h b, cache !! h = Some b → par h = Some b.
(** A node that answers parent calls from the tree, or whose log has no block at a slot but its own chain's *)
Definition truthful (kind : ancestry) (tip : block_at) : Prop :=
  match kind with
  | Walks parent => ∀ h r, parent h = Ok r → r = par h
  | Reads seen => ∀ slot h b, seen !! slot = Some h → real b → b.1 = slot → (chain_has tip b ↔ b.2 = h)
  end.
(** Why a probe cannot tell: the walk is too short, or its log has no block of that slot *)
Definition unknown (kind : ancestry) (tip b : block_at) : Prop :=
  match kind with Walks _ => ∃ c, anc par_r WALK tip c | Reads seen => seen !! b.1 = None end.

Lemma par_older h b : par_r h = Ok b → b.1 = slot_of b.2 ∧ b.1 < slot_of h.
Proof using older. unfold par_r. destruct (par h) eqn:E; [|done]. intros [= <-]. by apply older. Qed.
Lemma anc_below k a b : anc par_r k a b → real a → b.1 ≤ a.1 - Z.of_nat k ∧ real b.
Proof using older. intros H Ha. apply (anc_slot par_r slot_of par_older k a b H Ha). Qed.
Lemma not_below a b : real a → a.1 ≤ b.1 → a ≠ b → ¬ chain_has a b.
Proof using older. intros Ha Hle Hne [k Hk]. pose proof (anc_below _ _ _ Hk Ha) as [? _]. destruct k; [by inversion Hk|lia]. Qed.
Lemma chain_step a a' b : par a.2 = Some a' → chain_has a' b → chain_has a b.
Proof. intros Hp [k Hk]. exists (S k). econstructor; [unfold par_r; by rewrite Hp|done]. Qed.
Lemma chain_step_inv a b : real a → b.1 < a.1 → chain_has a b → ∃ a', par a.2 = Some a' ∧ chain_has a' b.
Proof. intros Ha Hlt [k Hk]. inversion Hk as [|k' x y z Hp Hk' E1 E2 E3]; subst; [lia|]. unfold par_r in Hp. destruct (par a.2) as [y'|]; [|done]. injection Hp as ->. exists y. split; [done|by exists k']. Qed.

Lemma walk_sound parent slot h n cur cache v cache' : (∀ h r, parent h = Ok r → r = par h) → coherent cache → real cur →
  walk parent slot h n cur cache = (Ok v, cache') → coherent cache' ∧
  match v with Some true => chain_has cur (slot, h) | Some false => ¬ chain_has cur (slot, h) | None => ∃ c, anc par_r n cur c end.
Proof using older.
  intros Hpar. revert cur cache. induction n as [|n IH]; intros cur cache Hc Hcur; cbn [walk].
  { intros [= <- <-]. split; [done|]. exists cur. constructor. }
  assert (∀ nxt cache1, par cur.2 = Some nxt → coherent cache1 → slot < cur.1 → walk parent slot h n nxt cache1 = (Ok v, cache') → coherent cache' ∧
    match v with Some true => chain_has cur (slot, h) | Some false => ¬ chain_has cur (slot, h) | None => ∃ c, anc par_r (S n) cur c end) as Hgo.
  { intros nxt cache1 Hp Hc1 Hlt Hw. destruct (older _ _ Hp) as [Hreal _]. destruct (IH nxt cache1 Hc1 Hreal Hw) as [Hc' Hv]. split; [done|].
    destruct v as [[|]|]; [by eapply chain_step| |destruct Hv as [c Hv]; exists c; econstructor; [unfold par_r; by rewrite Hp|done]].
    intros Hin. apply chain_step_inv in Hin as (y & Ey & Hin); [|done|done]. congruence. }
  destruct (Z.leb_spec cur.1 slot) as [Hle|Hlt].
  { intros [= <- <-]. split; [done|]. case_bool_decide as E; [rewrite E; exists 0%nat; constructor|]. by apply not_below. }
  unfold mbind, SE_bind, se_get. cbn. destruct (cache !! cur.2) as [nxt|] eqn:Ec; [apply Hgo; auto|]. unfold se_lift. cbn.
  destruct (parent cur.2) as [[nxt|]|] eqn:Ep; [..|done]; apply Hpar in Ep; cbn.
  - apply Hgo; [done| |done]. intros x b. cbn beta. destruct (decide (x = cur.2)) as [->|]; [rewrite lookup_insert_eq; congruence|rewrite lookup_insert_ne by done; apply Hc].
  - intros [= <- <-]. split; [done|]. intros (y & Ey & _)%chain_step_inv; [congruence|done|done].
Qed.
Lemma on_chain_sound kind tip b cache v cache' : truthful kind tip → coherent cache → real tip → real b → on_chain kind tip b cache = (Ok v, cache') →
  coherent cache' ∧ match v with Some true => chain_has tip b | Some false => ¬ chain_has tip b | None => unknown kind tip b end.
Proof using older.
  destruct b as [slot h]. intros Ht Hc Htip Hb. unfold on_chain. case_decide as E.
  { intros [= <- <-]. split; [done|]. assert (tip = (slot, h)) as ->; [|exists 0%nat; constructor]. unfold real in *. cbn in *. destruct tip; cbn in *. congruence. }
  destruct (Z.leb_spec tip.1 slot). { intros [= <- <-]. split; [done|]. apply not_below; [done|done|]. by intros ->. }
  destruct kind as [parent|seen]; [by apply walk_sound|]. intros [= <- <-]. split; [done|]. cbn in *. destruct (seen !! slot) as [x|] eqn:Es; cbn; [|done].
  specialize (Ht slot x (slot, h) Es Hb eq_refl). cbn in Ht. case_bool_decide; naive_solver.
Qed.

Ltac weaken_forked H1 := let n := fresh "n" in let x := fresh "x" in intros n (x & ? & ?)%H1; exists x; split; [by apply list_elem_of_further|done].
Lemma judge_heads_sound kind tip heads : truthful kind tip → real tip → (∀ name h, (name, h) ∈ heads → real h) → ∀ cache lag forked r cache',
  coherent cache → judge_heads kind tip heads lag forked cache = (Ok r, cache') → coherent cache' ∧ ∃ fs, r.2 = forked ++ fs ∧
  (∀ name, name ∈ fs → ∃ h, (name, h) ∈ heads ∧ ¬ chain_has tip h) ∧
  (∀ name h, (name, h) ∈ heads → name ∉ fs → chain_has tip h ∨ unknown kind tip h) ∧
  (r.1 = false → lag = false ∧ ∀ name h, (name, h) ∈ heads → name ∉ fs → h = tip).
Proof using older.
  intros Ht Htip. induction heads as [|[name h] rest IH]; intros Hreal cache lag forked r cache' Hc; cbn [judge_heads].
  { intros [= <- <-]. split; [done|]. exists []. rewrite app_nil_r. split_and!; set_solver. }
  specialize (IH ltac:(set_solver)). case_decide as E.
  { intros Hj. destruct (IH _ _ _ _ _ Hc Hj) as (Hc' & fs & E1 & H1 & H2 & H3). split; [done|]. exists fs. split_and!; [done|weaken_forked H1|..].
    - intros n x [[= -> ->]|Hx]%elem_of_cons Hn; [left; subst; exists 0%nat; constructor|eauto].
    - intros Hr. destruct (H3 Hr) as [? H4]. split; [done|]. intros n x [[= -> ->]|Hx]%elem_of_cons Hn; eauto. }
  unfold mbind, SE_bind. destruct (on_chain kind tip h cache) as [[v|] cache1] eqn:Eo; [|done]. apply on_chain_sound in Eo as [Hc1 Hv]; [|done|done|done|apply (Hreal name); set_solver].
  destruct v as [[|]|]; intros Hj; destruct (IH _ _ _ _ _ Hc1 Hj) as (Hc' & fs & E1 & H1 & H2 & H3); (split; [done|]).
  2: { exists (name :: fs). rewrite E1, <- app_assoc. split_and!; [done|..].
       - intros n [->|Hn]%elem_of_cons; [exists h; split; [set_solver|done]|]. destruct (H1 n Hn) as (x & ? & ?). exists x. set_solver.
       - intros n x [[= -> ->]|Hx]%elem_of_cons Hn; apply not_elem_of_cons in Hn as [? Hn]; [done|]. by eapply H2.
       - intros Hr. destruct (H3 Hr) as [? H4]. split; [done|]. intros n x [[= -> ->]|Hx]%elem_of_cons Hn; apply not_elem_of_cons in Hn as [? Hn]; [done|]. by eapply H4. }
  all: exists fs; split_and!; [done|weaken_forked H1|intros n x [[= -> ->]|Hx]%elem_of_cons Hn; eauto|intros Hr; by destruct (H3 Hr)].
Qed.
Lemma judge_fins_sound kind top fins : truthful kind top → real top → (∀ name h, (name, h) ∈ fins → real h) → ∀ cache bad r cache',
  coherent cache → judge_fins kind top fins bad cache = (Ok r, cache') → coherent cache' ∧
  ∀ name, name ∈ r → name ∈ bad ∨ ∃ h, (name, h) ∈ fins ∧ ¬ chain_has top h.
Proof using older.
  intros Ht Htop. induction fins as [|[name f] rest IH]; intros Hreal cache bad r cache' Hc; cbn [judge_fins]; [intros [= <- <-]; auto|].
  unfold mbind, SE_bind. destruct (on_chain kind top f cache) as [[v|] cache1] eqn:Eo; [|done]. apply on_chain_sound in Eo as [Hc1 Hv]; [|done|done|done|apply (Hreal name); set_solver].
  intros Hj. destruct (IH ltac:(set_solver) _ _ _ _ Hc1 Hj) as [Hc' Hr]. split; [done|]. intros n Hn. destruct (Hr n Hn) as [Hb|(h & ? & ?)]; [|right; exists h; set_solver].
  destruct v as [[|]|]; auto. apply elem_of_app in Hb as [Hb| ->%list_elem_of_singleton]; [auto|]. right. exists f. set_solver.
Qed.

(** The net as it answers one sample: names are distinct, blocks are in the tree, probes answer truthfully. *)
Record honest (ps : list (string * head_probe)) : Prop := {
  ho_names : NoDup (map fst ps);
  ho_best name p b : (name, p) ∈ ps → hp_best p = Ok b → real b ∧ truthful (hp_kind p) b;
  ho_fin name p s h : (name, p) ∈ ps → hp_fin p = Ok (Some (s, Some h)) → real (s, h) ∧ truthful (hp_kind p) (s, h)
}.
Lemma sample_heads_sound ps cache v forked cache' : honest ps → coherent cache → sample_heads ps cache = (Ok (v, forked), cache') → coherent cache' ∧
  (v = HSame → forked = [] ∧ ∀ n h n' h', (n, h) ∈ net_heads ps → (n', h') ∈ net_heads ps → h = h') ∧ (v = HFork → forked ≠ []) ∧ (v = HLag → forked = []) ∧ v ≠ HDown ∧
  (∀ n tip p, highest (net_heads ps) = Some (n, tip) → (n, p) ∈ ps → (∀ name, name ∈ forked → ∃ h, (name, h) ∈ net_heads ps ∧ ¬ chain_has tip h) ∧
    (∀ name h, (name, h) ∈ net_heads ps → name ∉ forked → chain_has tip h ∨ unknown (hp_kind p) tip h)).
Proof using older.
  intros [Hnd Hbest _] Hc Eh. unfold sample_heads in Eh. destruct (highest (net_heads ps)) as [[tn tip]|] eqn:Eh'.
  2: { injection Eh as <- <- <-. split_and!; try done. intros _. split; [done|]. destruct (net_heads ps) as [|x l]; [intros ? ? ? ? []%not_elem_of_nil|]. cbn in Eh'. by repeat case_match. }
  apply highest_spec in Eh' as [Htip _]. apply elem_of_heads in Htip as (p & Hp & Ep). rewrite (probe_of_spec ps tn p Hnd Hp) in Eh.
  destruct (Hbest _ _ _ Hp Ep) as [Hreal Htrue]. unfold mbind, SE_bind in Eh. destruct (judge_heads _ _ _ _ _ _) as [[[lag fs]|] cache3] eqn:Ej; [|done]. injection Eh as <- <- <-.
  eapply judge_heads_sound in Ej as (Hc3 & fs' & E1 & J1 & J2 & J3); [|done|done|intros n h (q & Hq & Eq)%elem_of_heads; by eapply Hbest|done]. cbn in *. subst fs'.
  split_and!; [done|..|].
  - destruct fs; [|done]. destruct lag; [done|]. intros _. split; [done|]. destruct (J3 eq_refl) as [_ J4]. intros n h n' h' Hn Hn'. by rewrite (J4 n h Hn (not_elem_of_nil _)), (J4 n' h' Hn' (not_elem_of_nil _)).
  - destruct fs; [by destruct lag|done].
  - by destruct fs.
  - destruct fs; [by destruct lag|done].
  - intros n tip' p' [= <- <-] Hp'. assert (p' = p) as -> by (pose proof (probe_of_spec ps tn p' Hnd Hp'); pose proof (probe_of_spec ps tn p Hnd Hp); congruence). done.
Qed.
Lemma sample_fins_sound ps cache bad cache' : honest ps → coherent cache → sample_fins ps cache = (Ok bad, cache') → coherent cache' ∧
  ∀ n top, highest (hashed (fins_of ps)) = Some (n, top) → ∀ name, name ∈ bad → ∃ f, (name, f) ∈ hashed (fins_of ps) ∧ ¬ chain_has top f.
Proof using older.
  intros [Hnd _ Hfin] Hc Ef. unfold sample_fins in Ef. destruct (highest (hashed (fins_of ps))) as [[tn top]|] eqn:Eh'; [|injection Ef as <- <-; split; [done|by intros ? ?]].
  apply highest_spec in Eh' as [Htop _]. apply elem_of_hashed in Htop as (p & Hp & Ep). rewrite (probe_of_spec ps tn p Hnd Hp) in Ef.
  destruct (Hfin _ _ _ _ Hp Ep) as [Hreal Htrue]. rewrite <- surjective_pairing in Htrue. eapply judge_fins_sound in Ef as [Hc2 Hb]; [|done|done| |done].
  - split; [done|]. intros n top' [= <- <-] name [Hn|?]%Hb; [by apply not_elem_of_nil in Hn|done].
  - intros n h (q & Hq & Eq)%elem_of_hashed. by destruct (Hfin _ _ _ _ Hq Eq).
Qed.
End tree.

(** A sample's words are true of the chain: on nodes that answer from one block tree, SAME means every node answered and all
    best blocks are one block; FORK means every node answered and the nodes named are off the chain of the highest head; LAG
    means every head is on that chain or the probe could not tell (its walk of 64 parents, or its log, does not reach it);
    DOWN means a node did not answer.  A finality conflict names a node whose finalized block is off the highest one's chain,
    and the parents remembered for later samples are the tree's. *)
Theorem sample_sound par slot_of ps cache r cache' :
  (∀ h b, par h = Some b → b.1 = slot_of b.2 ∧ b.1 < slot_of h) → honest par slot_of ps → coherent par cache → sample_net ps cache = (Ok r, cache') →
  coherent par cache' ∧ hs_heads r = net_heads ps ∧
  (hs_verdict r = HSame → hs_down r = [] ∧ ∀ n h n' h', (n, h) ∈ hs_heads r → (n', h') ∈ hs_heads r → h = h') ∧
  (hs_verdict r = HFork → hs_down r = [] ∧ hs_forked r ≠ []) ∧ (hs_verdict r = HLag → hs_down r = [] ∧ hs_forked r = []) ∧ (hs_verdict r = HDown ↔ hs_down r ≠ []) ∧
  (∀ n tip p, highest (hs_heads r) = Some (n, tip) → (n, p) ∈ ps →
    (∀ name, name ∈ hs_forked r → ∃ h, (name, h) ∈ hs_heads r ∧ ¬ chain_has par tip h) ∧
    (∀ name h, (name, h) ∈ hs_heads r → name ∉ hs_forked r → chain_has par tip h ∨ unknown par (hp_kind p) tip h)) ∧
  (∀ n top, highest (hashed (hs_fins r)) = Some (n, top) → ∀ name, name ∈ hs_conflict r → ∃ f, (name, f) ∈ hashed (hs_fins r) ∧ ¬ chain_has par top f).
Proof.
  intros Hold Hho Hc Hs. unfold sample_net, mbind, SE_bind in Hs. destruct (sample_heads ps cache) as [[[v forked]|] cache1] eqn:Eh; [|done].
  destruct (sample_fins ps cache1) as [[bad|] cache2] eqn:Ef; [|done]. injection Hs as <- <-. cbn [hs_verdict hs_heads hs_fins hs_down hs_forked hs_conflict fst snd].
  apply (sample_heads_sound par slot_of Hold) in Eh as (Hc1 & H1 & H2 & H3 & H4 & H5); [|done|done].
  apply (sample_fins_sound par slot_of Hold) in Ef as (Hc2 & Hb); [|done|done].
  split_and!; try done; destruct (down_of ps); try done; naive_solver.
Qed.

(** ** The verdict on a run *)
Lemma longest_fork_ge l run worst : (worst ≤ longest_fork l run worst)%nat.
Proof. revert run worst. induction l as [|s l IH]; intros run worst; cbn; [lia|]. etransitivity; [|apply IH]. lia. Qed.
Lemma longest_fork_three pre a b c post run worst : hs_verdict a = HFork → hs_verdict b = HFork → hs_verdict c = HFork →
  (3 ≤ longest_fork (pre ++ a :: b :: c :: post) run worst)%nat.
Proof.
  intros Ha Hb Hc. revert run worst. induction pre as [|s pre IH]; intros run worst; cbn [app longest_fork]; [|apply IH].
  rewrite !decide_True by done. etransitivity; [|apply longest_fork_ge]. lia.
Qed.

Lemma grew_spec ab : grew ab = true → ∃ a b, ab = (Some a, Some b) ∧ a < b.
Proof. destruct ab as [[a|] [b|]]; cbn; try done. intros. exists a, b. split; [done|lia]. Qed.

(** ONE HEAD over a run: no three samples in a row were forks, the last one is SAME or LAG, no sample had a finality conflict, and
    (unless there was one sample only) every node's head moved on from its first answer to its last. *)
Theorem one_head_run samples names w : summarize samples names = Ok (true, w) →
  (∀ pre a b c post, samples = pre ++ a :: b :: c :: post → ¬ (hs_verdict a = HFork ∧ hs_verdict b = HFork ∧ hs_verdict c = HFork)) ∧
  (∃ s, last samples = Some s ∧ (hs_verdict s = HSame ∨ hs_verdict s = HLag)) ∧ (∀ s, s ∈ samples → hs_conflict s = []) ∧
  (length samples ≠ 1%nat → ∀ k, k ∈ names → ∃ a b, head_span samples k = (Some a, Some b) ∧ a < b).
Proof.
  unfold summarize. destruct (last samples) as [s|]; [|done]. intros [= Hok _]. apply andb_true_iff in Hok as [[[Hworst Hlast]%andb_true_iff Hheads]%andb_true_iff Hfin]. split_and!.
  - intros pre a b c post -> (Ha & Hb & Hc). pose proof (longest_fork_three pre a b c post 0 0 Ha Hb Hc). apply Nat.leb_le in Hworst. lia.
  - exists s. split; [done|]. destruct (hs_verdict s); auto; done.
  - intros x Hx. apply Nat.eqb_eq, nil_length_inv in Hfin. destruct (hs_conflict x) eqn:E; [done|]. exfalso. assert (x ∈ filter (λ s, hs_conflict s ≠ []) samples) as H by (apply list_elem_of_filter; by rewrite E).
    rewrite Hfin in H. by apply not_elem_of_nil in H.
  - intros Hlen k Hk. rewrite bool_decide_false in Hheads by done. cbn [orb] in Hheads. rewrite forallb_forall in Hheads. specialize (Hheads k ltac:(by apply list_elem_of_In)).
    exact (grew_spec (head_span samples k) Hheads).
Qed.

(** Finality that stands still is called advancing on some nodes: the word asks whether a node has a finalized slot, not whether
    the slot moved. *)
Lemma stalled_called_advancing samples names k s ok_ w : samples ≠ [] → k ∈ names → s ≠ 0 →
  (∀ x, x ∈ samples → hs_conflict x = [] ∧ ∃ h, assoc k (hs_fins x) = Some (Some (s, h))) → summarize samples names = Ok (ok_, w) → w = FinSome.
Proof.
  intros Hne Hk Hs Hx. unfold summarize. destruct (last samples) as [l|]; [|done]. assert (filter (λ s, hs_conflict s ≠ []) samples = []) as ->.
  { apply filter_none. intros x [-> _]%Hx. auto. }
  assert (fin_span samples k = (Some s, Some s)) as Hspan.
  { unfold fin_span, span_of. assert (omap (λ x, fst <$> (assoc k (hs_fins x) ≫= id)) samples = map (λ _, s) samples) as ->.
    { clear Hne. induction samples as [|x l' IH]; [done|]. cbn. destruct (Hx x ltac:(set_solver)) as [_ [h ->]]. cbn. f_equal. apply IH. intros y Hy. apply Hx. set_solver. }
    destruct samples as [|x l']; [done|]. cbn [map head]. f_equal. clear Hx Hne. revert x. induction l' as [|y l' IH]; intros x; [done|]. cbn [map] in *. rewrite last_cons_cons. exact (IH y). }
  assert (existsb (λ k, match (fin_span samples k).2 with Some b => negb (b =? 0) | None => false end) names = true) as ->.
  { apply existsb_exists. exists k. split; [by apply list_elem_of_In|]. rewrite Hspan. cbn. destruct (Z.eqb_spec s 0); done. }
  assert (forallb (λ k, grew (fin_span samples k)) names = false) as ->; [|intros Hw; by injection Hw as _ <-].
  apply not_true_iff_false. rewrite forallb_forall. intros Hall. specialize (Hall k ltac:(by apply list_elem_of_In)). rewrite Hspan in Hall. cbn in Hall. lia.
Qed.

(** ** A small net: a chain of seventy blocks and a branch, three nodes *)
Module OneHeadSample.
(** Block [n] of the chain has the hash of its slot; one branch leaves it at block 3. *)
Definition hash_of (n : Z) : bytes := [n].
Definition slot_of (h : bytes) : Z := match h with [n] => n | [n; _] => n | _ => -1 end.
Definition par (h : bytes) : option block_at :=
  match h with [n] => if (0 <? n) && (n <=? 70) then Some (n - 1, hash_of (n - 1)) else None | [n; b] => if n =? 4 then Some (3, hash_of 3) else None | _ => None end.
Definition node (b : block_at) : head_probe := HeadProbe (Walks (λ h, Ok (par h))) (Ok b) (Ok (Some (2, Some (hash_of 2)))).
Definition forked : list (string * head_probe) := [("a", node (5, hash_of 5)); ("b", node (4, [4; 1])); ("c", node (3, hash_of 3))]%string.
Definition far : list (string * head_probe) := [("a", node (70, hash_of 70)); ("b", node (4, [4; 1]))]%string.
Definition result_of (ps : list (string * head_probe)) : option (head_verdict * list string) := match (sample_net ps ∅).1 with Ok r => Some (hs_verdict r, hs_forked r) | Raise _ => None end.
Lemma older h b : par h = Some b → b.1 = slot_of b.2 ∧ b.1 < slot_of h.
Proof. unfold par. repeat case_match; intros [= <-]; cbn; zbool; lia. Qed.
Lemma forked_honest : honest par slot_of forked.
Proof.
  split.
  - apply (bool_decide_eq_true_1 _). reflexivity.
  - intros name p b Hp. unfold forked in Hp. repeat (apply elem_of_cons in Hp as [[= -> ->]|Hp]; [intros [= <-]; split; [done|by intros h r [= <-]]|]). by apply not_elem_of_nil in Hp.
  - intros name p s h Hp. unfold forked in Hp. repeat (apply elem_of_cons in Hp as [[= -> ->]|Hp]; [intros [= <- <-]; split; [done|by intros h' r [= <-]]|]). by apply not_elem_of_nil in Hp.
Qed.
Definition seen : head_sample := match (sample_net forked ∅).1 with Ok r => r | Raise _ => HeadSample HDown [] [] [] [] [] end.
Lemma start_coherent : coherent par ∅.
Proof. intros h b. by rewrite lookup_empty. Qed.
End OneHeadSample.

(** A fork is found, but not one more than 64 blocks back: there the node off the chain counts as lagging. *)
Example fork_found : OneHeadSample.result_of OneHeadSample.forked = Some (HFork, ["b"%string]).
Proof. reflexivity. Qed.
Example far_fork_is_lag : OneHeadSample.result_of OneHeadSample.far = Some (HLag, []).
Proof. reflexivity. Qed.

Lemma sample_sound_witness : ∃ h, ("b"%string, h) ∈ hs_heads OneHeadSample.seen ∧ ¬ chain_has OneHeadSample.par (5, OneHeadSample.hash_of 5) h.
Proof.
  assert (sample_net OneHeadSample.forked ∅ = (Ok OneHeadSample.seen, (sample_net OneHeadSample.forked ∅).2)) as Hs by reflexivity.
  pose proof (sample_sound OneHeadSample.par OneHeadSample.slot_of OneHeadSample.forked ∅ OneHeadSample.seen _ OneHeadSample.older OneHeadSample.forked_honest OneHeadSample.start_coherent Hs) as (_ & _ & _ & _ & _ & _ & H & _).
  apply (H "a"%string (5, OneHeadSample.hash_of 5) (OneHeadSample.node (5, OneHeadSample.hash_of 5))); [reflexivity|by apply list_elem_of_here|apply list_elem_of_here].
Defined.
