(* ===== verification/Parity.v ===== *)
(** * State parity

    src/offchain/netwatch.py: the service keys a parity probe reads ([service_keys]), the digest of a node's
    values ([state_digest]), the common block they are read at ([_common_block]) and the comparison with its
    retries ([parity]).

    A probe's answers are functions of the attempt, since the nodes move between attempts; the hash of the digest is
    a parameter. *)
From S2P Require Import Prelude Bytes Netwatch.

Definition TREASURY : Z := 4294967295.
Definition str_bytes (s : string) : bytes := map (λ a, Z.of_nat (Ascii.nat_of_ascii a)) (String.list_ascii_of_string s).
(** [_p32(x)] *)
Definition p32 (x : Z) : result bytes := pack [(4%nat, x)].

(** ** The keys *)
Definition key32 (prefix : string) (xs : list Z) : result bytes := t ← join p32 xs; Ok (str_bytes prefix ++ t).
(** The first occurrence of each key. *)
Fixpoint first_seen (seen : list bytes) (l : list bytes) : list bytes :=
  match l with
  | [] => []
  | k :: l' => if decide (k ∈ seen) then first_seen seen l' else k :: first_seen (k :: seen) l'
  end.
Definition market_keys (m : Z) : result (list bytes) :=
  mapM (λ p, key32 p [m]) ["mkt"; "book"; "cv"; "lp"; "commits"; "cage"; "encset"]%string.
Definition account_keys (assets : list Z) (h : Z) : result (list bytes) :=
  b ← mapM (λ a, key32 "b" [a; h]) assets;
  o ← (if h =? TREASURY then Ok [] else mapM (λ p, key32 p [h]) ["pk"; "nc"; "sq"; "sc"]%string);
  Ok (b ++ o).
Definition service_keys (markets accounts assets : list Z) (rounds extra : list bytes) : result (list bytes) :=
  ms ← mapM market_keys markets;
  cs ← mapM (λ a, key32 "cust" [a]) assets;
  hs ← mapM (account_keys assets) (accounts ++ [TREASURY]);
  Ok (first_seen [] (map str_bytes ["markets"; "nexthandle"; "govnonce"; "comnonce"; "committee"]%string
                     ++ concat ms ++ cs ++ concat hs ++ map (app (str_bytes "rl")) rounds ++ extra)).

(** ** The digest *)
Notation pairs := (list (bytes * option bytes)).
Definition kv_bytes (p : bytes * option bytes) : result bytes :=
  l ← p32 (Z.of_nat (length p.1));
  v ← match p.2 with
      | None => Ok [0]
      | Some v => n ← p32 (Z.of_nat (length v)); Ok (1 :: n ++ v)
      end;
  Ok (l ++ p.1 ++ v).
(** What the hash is fed. *)
Definition digest_input (ps : pairs) : result bytes := t ← join kv_bytes ps; Ok (str_bytes "jamswap:v1:parity" ++ t).

(** ** Reading the nodes *)
Record probe := Probe {
  p_name : string;
  p_kind : node_kind;
  p_reader : option string;
  p_block : nat → result (Z * bytes);                            (* finalized() or head(), at an attempt *)
  p_value : nat → bytes → bytes → result (option bytes);         (* serviceValue at a block *)
  p_read : nat → nat → bytes → result (option bytes * bytes)     (* the reader bridge: value and head *)
}.
Inductive place : Type := AtHead | AtHash (h : bytes).

Record target := Target { tg_slot : option Z; tg_hash : bytes; tg_from : option string }.

(** [min] over (slot, hash, name) *)
Fixpoint bytes_ltb (a b : bytes) : bool :=
  match a, b with
  | [], _ :: _ => true
  | x :: a', y :: b' => (x <? y) || ((x =? y) && bytes_ltb a' b')
  | _, [] => false
  end.
Definition head_ltb (a b : Z * bytes * string) : bool :=
  (a.1.1 <? b.1.1) || ((a.1.1 =? b.1.1) &&
   (bytes_ltb a.1.2 b.1.2 || (bool_decide (a.1.2 = b.1.2) && String.ltb a.2 b.2))).
Definition min_head (l : list (Z * bytes * string)) : option (Z * bytes * string) :=
  match l with [] => None | x :: l' => Some (foldl (λ m y, if head_ltb y m then y else m) x l') end.

(** [_common_block(probes, at)] at an attempt: the block, and the nodes that did not answer *)
Definition common_block (probes : list probe) (pl : place) (attempt : nat) : option target * gmap string exn :=
  match pl with
  | AtHash h => (Some (Target None h None), ∅)
  | AtHead =>
      let obs := omap (λ p, match p_block p attempt with Ok b => Some (b, p_name p) | Raise _ => None end) probes in
      let errs := list_to_map (omap (λ p, match p_block p attempt with Ok _ => None | Raise e => Some (p_name p, e) end) probes) in
      ((λ x, Target (Some x.1.1) x.1.2 (Some x.2)) <$> min_head obs, errs)
  end.

(** [Probe.read_keys_at] *)
Definition read_keys_at (p : probe) (attempt : nat) (h : bytes) (keys : list bytes) : result pairs :=
  mapM (λ k, v ← p_value p attempt h k; Ok (k, v)) keys.

(** [Probe.read_keys_at_reader_head]: all at one reader head, or tried again *)
Fixpoint read_at_reader_head (p : probe) (attempt : nat) (keys : list bytes) (tries i : nat) : result (pairs * bytes) :=
  match tries with
  | O => Raise (ChainError "the reader's head moved during every read")
  | S tries' =>
      rs ← mapM (λ k, r ← p_read p attempt i k; Ok (k, r)) keys;
      match remove_dups (map (λ r, r.2.2) rs) with
      | [h] => Ok (map (λ r, (r.1, r.2.1)) rs, h)
      | _ => read_at_reader_head p attempt keys tries' (S i)
      end
  end.
Definition READER_ATTEMPTS : nat := 3.

(** What one node's read gave: its pairs and where, or an error. *)
Definition read_node (tgt : option target) (errs : gmap string exn) (attempt : nat) (keys : list bytes) (p : probe) : result (pairs * bytes) :=
  match p_kind p with
  | Jip2 =>
      match errs !! p_name p, tgt with
      | Some e, _ => Raise (ChainError "a node did not answer")
      | None, None => Raise (ChainError "no JIP-2 node answered")
      | None, Some t => ps ← read_keys_at p attempt (tg_hash t) keys; Ok (ps, tg_hash t)
      end
  | Metrics =>
      match p_reader p with
      | None => Raise (ChainUnsupported "no reader bridge to read state through")
      | Some _ => read_at_reader_head p attempt keys READER_ATTEMPTS 0
      end
  end.

(** ** Comparing *)
Inductive skip_reason : Type := NoReader | SharedReader (owner : string).
(** The nodes without JIP-2 that are read, one per reader, and those that are not. *)
Fixpoint split_rest (readers : gmap string string) (l : list probe) : list probe * list (string * skip_reason) :=
  match l with
  | [] => ([], [])
  | p :: l' =>
      match p_kind p, p_reader p with
      | Jip2, _ => split_rest readers l'
      | Metrics, None => let '(r, s) := split_rest readers l' in (r, (p_name p, NoReader) :: s)
      | Metrics, Some u =>
          match readers !! u with
          | Some n => let '(r, s) := split_rest readers l' in (r, (p_name p, SharedReader n) :: s)
          | None => let '(r, s) := split_rest (<[u := p_name p]> readers) l' in (p :: r, s)
          end
      end
  end.

Record node_parity := NodeParity {
  np_name : string; np_pinned : bool; np_at : option bytes; np_values : option pairs; np_digest : option bytes; np_error : option exn
}.
Inductive parity_reason : Type := Agree | Errors (l : list string) | TooFew (n : nat) | Differ (n : nat).
Record parity_report := ParityReport {
  pr_pass : bool; pr_reason : parity_reason; pr_at : option target; pr_attempt : nat;
  pr_nodes : list node_parity; pr_skipped : list (string * skip_reason); pr_mismatched : list bytes
}.

Section parity.
Context (hash : bytes → bytes).

Definition state_digest (ps : pairs) : result bytes := hash <$> digest_input ps.

Definition judge_node (tgt : option target) (errs : gmap string exn) (attempt : nat) (keys : list bytes) (p : probe) : result node_parity :=
  let pinned := bool_decide (p_kind p = Jip2) in
  match read_node tgt errs attempt keys p with
  | Raise e => Ok (NodeParity (p_name p) pinned None None None (Some e))
  | Ok (ps, h) => d ← state_digest ps; Ok (NodeParity (p_name p) pinned (Some h) (Some ps) (Some d) None)
  end.

(** The keys on which the nodes read differ, at most [diff_keys] of them. *)
Definition mismatched (diff_keys : nat) (keys : list bytes) (ns : list node_parity) : list bytes :=
  let vals := omap np_values ns in
  take diff_keys (filter (λ k, (1 < length (remove_dups (map (λ ps, snd <$> list_find (λ q, q.1 = k) ps) vals)))%nat) keys).

(** One attempt. *)
Definition compare (keys : list bytes) (diff_keys : nat) (tgt : option target) (attempt : nat)
    (skipped : list (string * skip_reason)) (ns : list node_parity) : parity_report :=
  let groups := remove_dups (omap np_digest ns) in
  let errors := map np_name (filter (λ n, is_Some (np_error n)) ns) in
  let digested := length (omap np_digest ns) in
  let ok := bool_decide (errors = []) && (length groups =? 1)%nat && (2 <=? digested)%nat in
  let reason := if ok then Agree
                else if bool_decide (errors = []) then
                  if (digested <? 2)%nat then TooFew digested else Differ (length groups)
                else Errors errors in
  ParityReport ok reason tgt attempt ns skipped (if (1 <? length groups)%nat then mismatched diff_keys keys ns else []).

Definition pinned_split (ns : list node_parity) : bool :=
  (1 <? length (remove_dups (omap np_digest (filter (λ n, np_pinned n = true) ns))))%nat.

(** [parity]: at most [attempts] attempts; [None] is the report of no attempt. *)
Fixpoint parity_loop (jips rest : list probe) (skipped : list (string * skip_reason)) (keys : list bytes) (pl : place)
    (diff_keys : nat) (left attempt : nat) (prev : option parity_report) : result (option parity_report) :=
  match left with
  | O => Ok prev
  | S left' =>
      let '(tgt, errs) := match jips with [] => (None, ∅) | _ => common_block jips pl attempt end in
      ns ← mapM (judge_node tgt errs attempt keys) (jips ++ rest);
      let r := compare keys diff_keys tgt attempt skipped ns in
      if pr_pass r || pinned_split ns || (length (jips ++ rest) <? 2)%nat then Ok (Some r)
      else parity_loop jips rest skipped keys pl diff_keys left' (S attempt) (Some r)
  end.
Definition parity (probes : list probe) (keys : list bytes) (pl : place) (attempts diff_keys : nat) : result (option parity_report) :=
  let '(rest, skipped) := split_rest ∅ probes in
  parity_loop (filter (λ p, p_kind p = Jip2) probes) rest skipped keys pl diff_keys attempts 1 None.
End parity.

(** ** The digest input determines the values *)
Lemma mapM_ok {A B} (f : A → result B) l k : mapM f l = Ok k ↔ Forall2 (λ x y, f x = Ok y) l k.
Proof.
  revert k. induction l as [|x l IH]; intros k.
  - split; [intros [= <-]; constructor|by inversion 1].
  - change (mapM f (x :: l)) with (y ← f x; ys ← mapM f l; Ok (y :: ys)). rewrite bind_ok. setoid_rewrite bind_ok. setoid_rewrite IH. split.
    + intros (y & Hy & ys & Hys & [= <-]). by constructor.
    + inversion 1; subst. eauto.
Qed.

Lemma p32_ok x b : p32 x = Ok b ↔ 0 ≤ x < 256 ^ 4 ∧ b = le_bytes 4 x.
Proof.
  unfold p32. cbn [pack]. destruct (pack_u 4 x) as [h|e] eqn:E; cbn [mbind result_bind].
  - apply pack_u_ok in E as [Hx ->]. rewrite app_nil_r. naive_solver.
  - split; [done|]. intros [Hx ->]. assert (pack_u 4 x = Ok (le_bytes 4 x)) by (by apply pack_u_ok). congruence.
Qed.

Lemma len_prefix_inj (a b x y : bytes) l l' :
  p32 (Z.of_nat (length a)) = Ok l → p32 (Z.of_nat (length b)) = Ok l' → l ++ a ++ x = l' ++ b ++ y → a = b ∧ x = y.
Proof.
  intros [Ha ->]%p32_ok [Hb ->]%p32_ok H. apply app_inj_1 in H as [Hl H]; [|by rewrite !le_bytes_length].
  assert (length a = length b) as E.
  { apply (f_equal le_int) in Hl. rewrite !le_int_le_bytes in Hl by lia. lia. }
  by apply app_inj_1 in H.
Qed.

Lemma kv_bytes_inj p q x y t u : kv_bytes p = Ok x → kv_bytes q = Ok y → x ++ t = y ++ u → p = q ∧ t = u.
Proof.
  destruct p as [k v], q as [k' v']. unfold kv_bytes. cbn [fst snd]. intros Hp Hq H. inv_bind. subst.
  rewrite <- !(assoc_L (++)) in H. eapply len_prefix_inj in H as [-> H]; [|eassumption..].
  destruct v as [v|], v' as [v'|]; inv_bind; subst; cbn in H; [|discriminate H..|by injection H as ->].
  injection H as H. rewrite <- !(assoc_L (++)) in H. eapply len_prefix_inj in H as [-> ->]; [|eassumption..]. done.
Qed.

Lemma join_pairs_inj ps qs b : join kv_bytes ps = Ok b → join kv_bytes qs = Ok b → ps = qs.
Proof.
  assert (Hne : ∀ p x, kv_bytes p = Ok x → x ≠ []).
  { intros p x Hx ->. unfold kv_bytes in Hx. inv_bind.
    match goal with H : p32 _ = Ok _ |- _ => apply p32_ok in H as [_ ->] end. done. }
  revert qs b. induction ps as [|p ps IH]; intros [|q qs] b; cbn [join]; intros Hp Hq; inv_bind; subst; [done|..].
  - apply app_nil in Hq as [-> _]. by edestruct Hne.
  - symmetry in Hq. apply app_nil in Hq as [-> _]. by edestruct Hne.
  - symmetry in Hq. eapply kv_bytes_inj in Hq as [-> ->]; [|eassumption..]. f_equal. by eapply IH.
Qed.

Lemma digest_input_inj ps qs b : digest_input ps = Ok b → digest_input qs = Ok b → ps = qs.
Proof.
  unfold digest_input. generalize (str_bytes "jamswap:v1:parity") as pre. intros pre (x & Hx & [= <-])%bind_ok (y & Hy & [= E])%bind_ok.
  apply app_inj_1 in E as [_ ->]; [|done]. by eapply join_pairs_inj.
Qed.

(** ** The comparison *)

(** What a node shows for a key at an attempt. *)
Definition shows_value (p : probe) (attempt : nat) (tgt : option target) (k : bytes) (v : option bytes) : Prop :=
  match p_kind p with
  | Jip2 => ∃ t, tgt = Some t ∧ p_value p attempt (tg_hash t) k = Ok v
  | Metrics => ∃ i h, p_read p attempt i k = Ok (v, h)
  end.

Lemma reader_shows p attempt keys tries i ps h :
  read_at_reader_head p attempt keys tries i = Ok (ps, h) →
  map fst ps = keys ∧ ∀ k v, (k, v) ∈ ps → ∃ i h, p_read p attempt i k = Ok (v, h).
Proof.
  revert i. induction tries as [|tries IH]; intros i; [done|]. cbn [read_at_reader_head]. intros (rs & Hrs & H)%bind_ok.
  destruct (remove_dups (map (λ r, r.2.2) rs)) as [|h' [|? ?]]; [by eapply IH| |by eapply IH]. injection H as <- _.
  apply mapM_ok in Hrs. clear IH. induction Hrs as [|k [k' [v h0]] keys rs Hk _ IH]; [split; [done|set_solver]|].
  apply bind_ok in Hk as ([v' h1] & Hk & [= <- <- <-]). cbn. destruct IH as [IH1 IH2]. split; [by f_equal|].
  intros k0 v0 [[= -> ->]|Hin]%elem_of_cons; [eauto|by apply IH2].
Qed.

Lemma read_node_shows tgt errs attempt keys p ps h :
  read_node tgt errs attempt keys p = Ok (ps, h) → map fst ps = keys ∧ ∀ k v, (k, v) ∈ ps → shows_value p attempt tgt k v.
Proof.
  unfold read_node, shows_value. destruct (p_kind p).
  - destruct (errs !! p_name p); [done|]. destruct tgt as [t|]; [|done]. intros (qs & Hq & [= -> _])%bind_ok.
    unfold read_keys_at in Hq. apply mapM_ok in Hq.
    induction Hq as [|k [k' v] keys ps Hk _ IH]; [split; [done|set_solver]|]. apply bind_ok in Hk as (v' & Hk & [= <- <-]).
    destruct IH as [IH1 IH2]. cbn. split; [by f_equal|]. intros k0 v0 [[= -> ->]|Hin]%elem_of_cons; [eauto|by apply IH2].
  - destruct (p_reader p); [|done]. apply reader_shows.
Qed.

Lemma split_rest_readers readers l :
  NoDup (omap p_reader (split_rest readers l).1) ∧
  (∀ p u, p ∈ (split_rest readers l).1 → p_reader p = Some u → readers !! u = None) ∧
  ∀ p, p ∈ (split_rest readers l).1 → p ∈ l.
Proof.
  revert readers. induction l as [|p l IH]; intros readers; cbn [split_rest]; [split_and!; [constructor|set_solver..]|].
  destruct (p_kind p).
  - destruct (IH readers) as (? & ? & ?). split_and!; [done..|set_solver].
  - destruct (p_reader p) as [u|] eqn:Eu; [destruct (readers !! u) as [n|] eqn:En|].
    + destruct (IH readers) as (? & ? & ?). destruct (split_rest readers l). split_and!; [done..|set_solver].
    + destruct (IH (<[u := p_name p]> readers)) as (H1 & H2 & H3). destruct (split_rest _ l) as [r s]. cbn [fst] in *.
      split_and!; [| |set_solver].
      * cbn. rewrite Eu. constructor; [|done]. intros (q & Hq & Eq)%list_elem_of_omap. specialize (H2 q u Hq Eq).
        by rewrite lookup_insert_eq in H2.
      * intros q v [->|Hq]%elem_of_cons Ev; [congruence|]. specialize (H2 q v Hq Ev). by apply lookup_insert_None in H2 as [? _].
    + destruct (IH readers) as (? & ? & ?). destruct (split_rest readers l). split_and!; [done..|set_solver].
Qed.

Section agreement.
Context (hash : bytes → bytes).

Lemma loop_report jips rest skipped keys pl d left attempt prev r :
  parity_loop hash jips rest skipped keys pl d left attempt prev = Ok (Some r) →
  (∀ r0, prev = Some r0 → pr_pass r0 = false) → pr_pass r = true →
  ∃ a errs ns, (attempt ≤ a < attempt + left)%nat ∧ pr_attempt r = a ∧ pr_nodes r = ns ∧
    r = compare keys d (pr_at r) a skipped ns ∧ mapM (judge_node hash (pr_at r) errs a keys) (jips ++ rest) = Ok ns.
Proof.
  revert attempt prev. induction left as [|left IH]; intros attempt prev; cbn [parity_loop].
  { intros [= ->] Hprev Hp. rewrite (Hprev r eq_refl) in Hp. done. }
  destruct (match jips with [] => _ | _ => _ end) as [tgt errs] eqn:Et. intros (ns & Hns & H)%bind_ok Hprev Hp.
  destruct (pr_pass (compare _ _ _ _ _ _) || _ || _) eqn:Ec.
  - injection H as <-. exists attempt, errs, ns. cbn. split_and!; [lia..|done|done|done|done].
  - apply orb_false_iff in Ec as [[Ec _]%orb_false_iff _].
    destruct (IH (S attempt) _ H) as (a & errs' & ns' & Ha & ?); [|done|exists a, errs', ns'; split; [lia|done]].
    intros r0 [= <-]. done.
Qed.

(** One group of digests: all nodes hold the same values, or the hash collides. *)
Lemma one_digest (ns : list node_parity) (ps0 : pairs) d0 :
  (∀ n, n ∈ ns → ∃ ps b, np_values n = Some ps ∧ digest_input ps = Ok b ∧ hash b = d0) →
  (∃ b, digest_input ps0 = Ok b ∧ hash b = d0) →
  (∀ n, n ∈ ns → np_values n = Some ps0) ∨ ∃ x y, x ≠ y ∧ hash x = hash y.
Proof.
  intros Hns (b0 & Hb0 & <-). induction ns as [|n ns IH]; [left; set_solver|].
  destruct (Hns n) as (ps & b & Hv & Hb & Hh); [set_solver|].
  destruct (decide (b = b0)) as [->|Hne]; [|right; eauto]. destruct IH as [IH|?]; [set_solver| |by right].
  left. rewrite (digest_input_inj _ _ _ Hb Hb0) in Hv. intros m [->|Hm]%elem_of_cons; auto.
Qed.
End agreement.

Lemma compare_pass keys d tgt a skipped ns : pr_pass (compare keys d tgt a skipped ns) = true →
  (∀ n, n ∈ ns → np_error n = None) ∧ (2 ≤ length ns)%nat ∧ ∃ d0, ∀ x, x ∈ omap np_digest ns → x = d0.
Proof.
  unfold compare. cbn [pr_pass]. rewrite !andb_true_iff, bool_decide_eq_true, Nat.eqb_eq, Nat.leb_le. intros [[He Hg] Hd]. split_and!.
  - intros n Hn. destruct (np_error n) eqn:E; [|done].
    assert (n ∈ filter (λ n, is_Some (np_error n)) ns) as Hin by (apply list_elem_of_filter; split; [by rewrite E|done]).
    apply (list_elem_of_fmap_2 np_name) in Hin. change (fmap np_name) with (map np_name) in Hin. rewrite He in Hin. set_solver.
  - etrans; [exact Hd|]. clear. induction ns as [|n ns IH]; [done|]. cbn. destruct (np_digest n); cbn; lia.
  - destruct (remove_dups (omap np_digest ns)) as [|d0 [|? ?]] eqn:E; [done| |done]. exists d0. intros x Hx.
    apply elem_of_remove_dups in Hx. rewrite E in Hx. set_solver.
Qed.

Lemma judge_node_read hash tgt errs a keys p n : judge_node hash tgt errs a keys p = Ok n → np_error n = None →
  ∃ ps h b, read_node tgt errs a keys p = Ok (ps, h) ∧ np_values n = Some ps ∧ np_digest n = Some (hash b) ∧ digest_input ps = Ok b.
Proof.
  unfold judge_node, state_digest. destruct (read_node _ _ _ _ _) as [[ps h]|e]; [|by intros [= <-]].
  intros (x & Hx & [= <-])%bind_ok _. destruct (digest_input ps) as [b|] eqn:E; [|done]. injection Hx as <-. cbn. naive_solver.
Qed.

(** (C17) State parity is agreement: if the parity check passes, then at some attempt of the allowed number at
    least two nodes - every JIP-2 node, all at one block, and the others through readers of their own, no reader
    standing for two - were read without error and showed one and the same value for every key; unless two inputs with the
    same hash are found. *)
Theorem parity_pass_agrees hash probes keys pl attempts d r :
  parity hash probes keys pl attempts d = Ok (Some r) → pr_pass r = true →
  let rest := (split_rest ∅ probes).1 in
  let compared := filter (λ p, p_kind p = Jip2) probes ++ rest in
  (1 ≤ pr_attempt r ≤ attempts)%nat ∧ (2 ≤ length compared)%nat ∧ NoDup (omap p_reader rest) ∧
  ((∃ vals, ∀ p k, p ∈ compared → k ∈ keys → shows_value p (pr_attempt r) (pr_at r) k (vals k)) ∨
   (∃ x y, x ≠ y ∧ hash x = hash y)).
Proof.
  unfold parity. destruct (split_rest ∅ probes) as [rest skipped] eqn:Es. intros H Hp. cbn [fst]. set (jips := filter _ probes) in *.
  apply loop_report in H as (a & errs & ns & Ha & Ea & En & Er & Hns); [|done|done]. rewrite Er in Hp.
  apply compare_pass in Hp as (Herr & Hlen & d0 & Hd0). apply mapM_ok in Hns. rewrite (Forall2_length _ _ _ Hns), Ea.
  split; [lia|]. split; [done|]. split; [pose proof (split_rest_readers ∅ probes) as Hs; rewrite Es in Hs; apply Hs|].
  assert (Hnode : ∀ p n, judge_node hash (pr_at r) errs a keys p = Ok n → n ∈ ns → ∃ ps h b,
            read_node (pr_at r) errs a keys p = Ok (ps, h) ∧ np_values n = Some ps ∧ digest_input ps = Ok b ∧ hash b = d0).
  { intros p n Hj Hn. destruct (judge_node_read _ _ _ _ _ _ _ Hj (Herr n Hn)) as (ps & h & b & ? & ? & Hdg & ?).
    exists ps, h, b. split_and!; [done..|]. apply Hd0, list_elem_of_omap. eauto. }
  destruct Hns as [|p0 n0 ps' ns' Hj0 Hrest]; [cbn in Hlen; lia|].
  destruct (Hnode p0 n0 Hj0 ltac:(set_solver)) as (ps0 & h0 & b0 & Hr0 & Hv0 & Hb0 & Hh0).
  assert (Hall : Forall2 (λ p n, judge_node hash (pr_at r) errs a keys p = Ok n) (p0 :: ps') (n0 :: ns')) by (by constructor).
  destruct (one_digest hash (n0 :: ns') ps0 d0) as [Hsame|?]; [|by eauto| |by right].
  { intros n [k Hk]%list_elem_of_lookup. destruct (Forall2_lookup_r _ _ _ _ _ Hall Hk) as (p & Hpk & Hj).
    destruct (Hnode p n Hj) as (ps & h & b & _ & ? & ? & ?); [by eapply list_elem_of_lookup_2|]. eauto. }
  left. exists (λ k, default None (snd <$> (snd <$> list_find (λ q, q.1 = k) ps0))). intros p k [i Hi]%list_elem_of_lookup Hk.
  destruct (Forall2_lookup_l _ _ _ _ _ Hall Hi) as (n & Hni & Hj). assert (Hn : n ∈ n0 :: ns') by (by eapply list_elem_of_lookup_2).
  destruct (Hnode p n Hj Hn) as (ps & h & b & Hr & Hv & _ & _). rewrite (Hsame n Hn) in Hv. injection Hv as <-.
  destruct (read_node_shows _ _ _ _ _ _ _ Hr) as [Hkeys Hshow]. apply Hshow. rewrite <- Hkeys in Hk.
  apply list_elem_of_fmap in Hk as ([k' v] & -> & Hin).
  destruct (list_find_elem_of (λ q, q.1 = (k', v).1) ps0 (k', v) Hin eq_refl) as [[j [k2 v2]] Hf]. rewrite Hf. cbn.
  apply list_find_Some in Hf as (Hj2 & Ek & _). cbn in Ek. subst k2. by eapply list_elem_of_lookup_2.
Qed.

(** ** A comparison: two JIP-2 nodes and one read through its own reader; the third answers late *)
Definition value1 (k : bytes) : option bytes := match k with [109; _] => Some k | _ => None end.
Definition jip_probe (name : string) (slot : Z) : probe :=
  Probe name Jip2 None (λ a, Ok (slot + Z.of_nat a, [slot + Z.of_nat a])) (λ _ _ k, Ok (value1 k)) (λ _ _ _, Raise (KeyError "reader")).
Definition reader_probe (name url : string) : probe :=
  Probe name Metrics (Some url) (λ _, Raise (KeyError "head")) (λ _ _ _, Raise (KeyError "value"))
    (λ a i k, Ok (if (a <? 2)%nat then None else value1 k, [Z.of_nat a])).
Definition probes_parity : list probe :=
  [jip_probe "pj0" 20; reader_probe "la0" "http://r0"; jip_probe "pj1" 19; reader_probe "la1" "http://r0"].
Definition keys_parity : list bytes := [[109; 1]; [98; 2]].
Lemma parity_pass_agrees_witness :
  match parity (λ b, b) probes_parity keys_parity AtHead 3 20 with
  | Ok (Some r) => pr_pass r = true ∧ pr_attempt r = 2%nat ∧ pr_skipped r = [("la1"%string, SharedReader "la0")] ∧ tg_hash <$> pr_at r = Some [21] ∧
      (2 ≤ length (filter (λ p, p_kind p = Jip2) probes_parity ++ (split_rest ∅ probes_parity).1))%nat
  | _ => False
  end.
Proof.
  destruct (parity (λ b, b) probes_parity keys_parity AtHead 3 20) as [[r|]|] eqn:E; [|exfalso; vm_compute in E; discriminate E..].
  assert (Hp : pr_pass r = true) by (vm_compute in E; by injection E as <-).
  split; [done|]. split; [vm_compute in E; by injection E as <-|]. split; [vm_compute in E; by injection E as <-|].
  split; [vm_compute in E; by injection E as <-|].
  apply (parity_pass_agrees (λ b, b) probes_parity keys_parity AtHead 3 20 r E Hp).
Defined.
