(* ===== verification/Finality.v ===== *)
(** * Finality tracking

    src/offchain/server.py: [_fin_key], [_track_finality], [_read_finality],
    [_finality_advancing] and [settle_hold_secs].  What the chain answers is an argument; the cache
    and the tracker are explicit state.

    Result: finality counts as advancing only when two looks inside the window really saw two
    different finalized heads.  Times are whole seconds. *)
From S2P Require Import Prelude Bytes.

Definition SLOT_SECS : Z := 6.
Definition FINALITY_WINDOW_SLOTS : Z := 10.
Definition SETTLE_HOLD_SLOTS : Z := 25.

(** What the backend says of a head: any of the three may be missing. *)
Record head := Head { hd_slot : option Z; hd_height : option Z; hd_hash : option bytes }.

(** The identity of a finalized head. *)
Inductive fin_id : Type :=
| ByHash (slot : option Z) (hash : bytes)
| ByHeight (height : option Z).
#[global] Instance fin_id_eq_dec : EqDecision fin_id.
Proof. solve_decision. Defined.

(** [_fin_key]; a height of None is the key None *)
Definition fin_key (fin : head) : option fin_id :=
  match hd_hash fin with
  | Some h => Some (ByHash (hd_slot fin) h)
  | None => match hd_height fin with Some h => Some (ByHeight (Some h)) | None => None end
  end.

(** The dict [_read_finality] returns; only [fv_available] is there when it is False. *)
Record fin_view := FinView {
  fv_available : bool;
  fv_finalized : option Z;
  fv_block : option Z;
  fv_finalized_slot : Z;
  fv_slot : Z;
  fv_lag : Z;
  fv_by_slot : bool;
  fv_hashes : option (bytes * bytes)
}.
Definition unavailable : fin_view := FinView false None None 0 0 0 false None.

(** [_fin_cache] and [_fin_track] *)
Record fin_state := FinState {
  cache_t : Z;
  cache_v : option fin_view;
  tr_key : option fin_id;
  tr_seen : Z;
  tr_moved : option Z
}.
Definition fin_init : fin_state := FinState 0 None None 0 None.

Definition track_finality (key : option fin_id) (now : Z) (s : fin_state) : fin_state :=
  let moved :=
    match tr_key s with
    | Some _ => if bool_decide (key = tr_key s) then tr_moved s else Some (tr_seen s)
    | None => tr_moved s
    end in
  FinState (cache_t s) (cache_v s) key now moved.

(** The view of two heads: None is the TypeError of comparing a missing slot. *)
Definition heads_view (fin hd : head) : option fin_view :=
  let by_height := match hd_height fin, hd_height hd with Some _, Some _ => true | _, _ => false end in
  let fh := if by_height then hd_height fin else hd_slot fin in
  let bh := if by_height then hd_height hd else hd_slot hd in
  match fh, bh with
  | Some f, Some b =>
      Some (FinView (0 <? f) (Some f) (Some b) (default 0 (hd_slot fin)) (default 0 (hd_slot hd))
              (Z.max 0 (b - f)) (negb by_height)
              (match hd_hash fin, hd_hash hd with Some x, Some y => Some (x, y) | _, _ => None end))
  | _, _ => None
  end.

(** The uncached part of [_read_finality]: the view and the tracker, from what CHAIN.finalized()
    and CHAIN.head() return. *)
Definition look (tnow : Z) (finalized hd : result (option head)) (s : fin_state) : fin_view * fin_state :=
  match finalized with
  | Ok (Some f) =>
      match hd with
      | Ok (Some h) =>
          match heads_view f h with
          | Some v => (v, if fv_available v then track_finality (fin_key f) tnow s else s)
          | None => (unavailable, s)
          end
      | _ => (unavailable, s)
      end
  | _ => (unavailable, s)
  end.

Definition read_finality (tnow : Z) (finalized hd : result (option head)) (s : fin_state) :
    fin_view * fin_state :=
  let fresh :=
    let '(v, s') := look tnow finalized hd s in
    (v, FinState tnow (Some v) (tr_key s') (tr_seen s') (tr_moved s')) in
  match cache_v s with
  | Some v => if tnow - cache_t s <? 2 then (v, s) else fresh
  | None => fresh
  end.

Definition finality_advancing (now : Z) (finalized hd : result (option head)) (s : fin_state) :
    bool * fin_state :=
  let '(v, s') := read_finality now finalized hd s in
  (fv_available v &&
   match tr_moved s' with Some t => now - t <=? FINALITY_WINDOW_SLOTS * SLOT_SECS | None => false end, s').

(** [settle_hold_secs]; [advancing] is [_finality_advancing(now)]. *)
Definition settle_hold_secs (SETTLE_HOLD_SECS : option Z) (advancing : bool) : Z :=
  match SETTLE_HOLD_SECS with
  | Some h => h
  | None => if advancing then 0 else SETTLE_HOLD_SLOTS * SLOT_SECS
  end.

(** ** A history of looks *)

(** One call of [_read_finality] or [_finality_advancing]. *)
Record glance := Glance { g_now : Z; g_finalized : result (option head); g_head : result (option head) }.

Definition after (gs : list glance) : fin_state :=
  foldl (λ s g, (read_finality (g_now g) (g_finalized g) (g_head g) s).2) fin_init gs.

(** The finalized head a glance reads. *)
Definition seen (g : glance) : option fin_id :=
  match g_finalized g with Ok (Some f) => fin_key f | _ => None end.

(** The tracker only remembers what glances read: its key, and two different heads around a move. *)
Record tracked (gs : list glance) (s : fin_state) : Prop := {
  tk_key : tr_key s ≠ None → ∃ g, g ∈ gs ∧ g_now g = tr_seen s ∧ seen g = tr_key s;
  tk_moved t : tr_moved s = Some t → ∃ g g', g ∈ gs ∧ g' ∈ gs ∧ g_now g = t ∧ t ≤ g_now g' ∧ seen g ≠ seen g'
}.

Lemma read_finality_cases g s :
  let s' := (read_finality (g_now g) (g_finalized g) (g_head g) s).2 in
  (tr_key s' = tr_key s ∧ tr_seen s' = tr_seen s ∧ tr_moved s' = tr_moved s) ∨
  (tr_key s' = seen g ∧ tr_seen s' = g_now g ∧
   (tr_moved s' = tr_moved s ∨ (tr_moved s' = Some (tr_seen s) ∧ tr_key s ≠ None ∧ seen g ≠ tr_key s))).
Proof.
  unfold read_finality, look, track_finality, seen.
  repeat (case_match; simplify_eq/=; try (by left)); try (by right; auto).
  all: right; split_and!; try done; right; split_and!; try done.
  all: match goal with H : bool_decide _ = false |- _ => apply bool_decide_eq_false in H end; congruence.
Qed.

Lemma tracked_mono gs g s : tracked gs s → tracked (gs ++ [g]) s.
Proof.
  intros [Hk Hm]. split.
  - intros H. destruct (Hk H) as (x & ? & ?). exists x. set_solver.
  - intros t H. destruct (Hm t H) as (x & y & ? & ? & ?). exists x, y. set_solver.
Qed.

Lemma after_tracked gs : StronglySorted Z.le (map g_now gs) → tracked gs (after gs).
Proof.
  induction gs as [|g gs IH] using rev_ind; intros Hs; [by split|].
  rewrite List.map_app in Hs. unfold after. rewrite foldl_app. fold (after gs). cbn [foldl].
  assert (Hs' : StronglySorted Z.le (map g_now gs)) by (by apply StronglySorted_app_1_l in Hs).
  assert (Hle : ∀ x, x ∈ gs → g_now x ≤ g_now g).
  { intros x Hx. eapply StronglySorted_app_1_elem_of; [exact Hs|by apply list_elem_of_fmap_2|set_solver]. }
  specialize (IH Hs'). set (s := after gs) in *.
  destruct (read_finality_cases g s) as [(E1 & E2 & E3)|(E1 & E2 & E3)].
  - apply (tracked_mono _ g) in IH as [Hk Hm]. split; rewrite ?E1, ?E2, ?E3; done.
  - destruct (tracked_mono _ g _ IH) as [Hk' Hm']. destruct IH as [Hk Hm]. split; rewrite ?E1, ?E2.
    + intros _. exists g. set_solver.
    + intros t Ht. destruct E3 as [E3|(E3 & Hn & Hne)]; rewrite E3 in Ht; [by apply Hm'|].
      injection Ht as <-. destruct (Hk Hn) as (x & Hx & Hx1 & Hx2). exists x, g. split_and!; [set_solver..|done| |congruence].
      rewrite <- Hx1. by apply Hle.
Qed.

(** ** Property *)

(** Finality is advancing only when it really moved: with a monotone clock,
    [_finality_advancing] answers True only if two looks within the last FINALITY_WINDOW_SLOTS slots
    read two different finalized heads.  A look after a long silence does not count as a move now. *)
Theorem advancing_really_moved gs now finalized hd :
  let all := gs ++ [Glance now finalized hd] in
  StronglySorted Z.le (map g_now all) →
  (finality_advancing now finalized hd (after gs)).1 = true →
  ∃ g g', g ∈ all ∧ g' ∈ all ∧ seen g ≠ seen g' ∧
    now - FINALITY_WINDOW_SLOTS * SLOT_SECS ≤ g_now g ≤ g_now g' ∧ g_now g' ≤ now.
Proof.
  intros all Hs. pose proof (after_tracked all Hs) as [_ Hm]. unfold all, after in Hm. rewrite foldl_app in Hm.
  fold (after gs) in Hm. cbn [foldl g_now g_finalized g_head] in Hm. unfold finality_advancing.
  destruct (read_finality now finalized hd (after gs)) as [v s'] eqn:E. cbn [fst snd] in *.
  intros [_ Hw]%andb_true_iff. destruct (tr_moved s') as [t|]; [|done]. apply Z.leb_le in Hw.
  destruct (Hm t eq_refl) as (g & g' & Hg & Hg' & <- & Hle & Hne). exists g, g'. split_and!; try done; [lia|].
  apply elem_of_app in Hg' as [Hg'|Hg']; [|apply list_elem_of_singleton in Hg' as ->; done].
  unfold all in Hs. rewrite List.map_app in Hs.
  eapply StronglySorted_app_1_elem_of; [exact Hs|by apply list_elem_of_fmap_2|set_solver].
Qed.

(** ** Witness *)
Definition head_at (n : Z) : result (option head) := Ok (Some (Head (Some n) (Some n) None)).
Definition glances1 : list glance := [Glance 100 (head_at 5) (head_at 7); Glance 110 (head_at 6) (head_at 8)].

Lemma advancing_really_moved_witness :
  ∃ g g', g ∈ glances1 ++ [Glance 112 (head_at 6) (head_at 8)] ∧
    g' ∈ glances1 ++ [Glance 112 (head_at 6) (head_at 8)] ∧ seen g ≠ seen g' ∧
    112 - FINALITY_WINDOW_SLOTS * SLOT_SECS ≤ g_now g ≤ g_now g' ∧ g_now g' ≤ 112.
Proof.
  apply (advancing_really_moved glances1 112 (head_at 6) (head_at 8)).
  - repeat constructor; cbn; lia.
  - vm_compute. reflexivity.
Defined.

(** Five minutes without a look, then a moved head: not advancing yet. *)
Example silence_is_not_fresh :
  (finality_advancing 400 (head_at 9) (head_at 10) (after glances1)).1 = false.
Proof. vm_compute. reflexivity. Qed.
