(* ===== verification/Rounds.v ===== *)
(** * The life of a market's rounds

    src/offchain/server.py, for one market [m]: building a round from the mempool
    ([_build_round], [_assemble_round], [_requeue_unsent], [_sealed_ready_predicate]), the round in
    flight and its judgement ([_resolve_inflight], [_round_dead], [_confirmed], [_rival_landed]),
    released rounds still watched for a late landing ([_abandon], [_resolve_zombies], [_claim],
    [_unclaim]), settling ([_finalize_round], [_carry_sealed_remainders], [_post_carry_seal],
    [_drain_carry_retry]) and [api_cancel_pending].

    Every operation runs in a state and exception monad: an exception keeps the state changes made
    before it, as in Python.  The world outside is a sequence of [view]s: each chain read, submit
    or clock call sees the next one, so every read happens at its own instant of a chain that moves,
    re-orgs or fails between any two of them; and the orders that other threads queue meanwhile
    arrive at the end of the mempool there.  Round records are objects: [r_ref] is their identity, and
    the loops mutate them in place.

    The log lists, in order, the telemetry calls and receipts, the submitted payloads, and marks
    for the proofs: an order entering the mempool ([LPlaced]), a landed read of a round ([LSeen]),
    the landing of a round found taken back by a re-org ([LGone]), an order settled by a round ([LSettled]) or ended otherwise ([LEnded]).

    Metrics and prints are left out.  Times are whole seconds. *)
From stdpp Require Import pretty.
From S2P Require Import Prelude Orders Clearing RoundPlan Batch Bytes Wire Telemetry Finality Executions.
Import Telemetry(call, Rounded, Reverted, Requeued, Deferred, Terminal).

(** [_okey(o)]: one incarnation of an order. *)
Notation key := (Z * Z * option (list Z))%type.
Definition order_key (o : order) : key := (account o, oid o, commit o).

Definition ZOMBIE_CAP : nat := 32.
Definition MIN_CONFIRM_SECS : Z := 2.
Definition ROUND_ZEROFILL_SECS : Z := 30.
Definition TAG_CARRY_COMMIT : Z := 13.
Definition TAG_CARRY_ENC_COMMIT : Z := 14.

(** The settings read from the environment, and their defaults. *)
Record config := Config {
  ENC_MODE : bool;
  SETTLE_HOLD_SECS : option Z;
  DEAD_CONFIRM_SECS : Z;
  ZOMBIE_WATCH_SECS : Z;
  ROUND_GATE_SECS : Z;
  MAX_ROUND_ORDERS : Z;
  REFINE_GAS : Z
}.
Definition default_config : config := Config false None 4 900 300 150 1000000000.

(** One instant of the outside world. *)
Record view := View {
  v_time : Z;                                        (* time.time() *)
  v_read : bytes → result bytes;                     (* CHAIN.read(key) *)
  v_read_final : bytes → result (option bytes);      (* the same at the finalized head; None: unsupported *)
  v_finalized : result (option head);                (* CHAIN.finalized(), CHAIN.head() *)
  v_head : result (option head);
  v_submit : bytes → result unit;                    (* CHAIN.submit *)
  v_nonce : bytes;                                   (* secrets.token_bytes *)
  v_encrypt : bytes → result bytes;                  (* the committee binary: encrypt, round *)
  v_committee : list Z → bytes → list bytes → result bytes;
  v_ref : positive;                                  (* the identity of a dict created now *)
  v_arrivals : list (order * Z)                      (* orders queued meanwhile, with their expiry *)
}.

(** A round in flight or released: the dict of [_inflight] and [_zombies]. *)
Record round_rec := Rec {
  r_ref : positive;
  r_t : Z;
  r_sealed : list order;
  r_public : list order;
  r_resting : list order;
  r_clearing : clearing;
  r_pruned : list (Z * Z);
  r_rid : bytes;
  r_book_hash : bytes;
  r_consumed : list bytes;
  r_set_key : bytes;
  r_minseq : list (Z * Z);
  r_claimed : gmap key bytes;
  r_ok_since : option Z;
  r_dead_since : option Z;
  r_abandoned : option (Z * string)
}.

Definition r_orders (r : round_rec) : list order := r_sealed r ++ r_public r.
(** [_keys(fr)] *)
Definition keys (r : round_rec) : gset key := list_to_set (map order_key (r_orders r)).

Definition set_ok_since (t : option Z) (r : round_rec) : round_rec :=
  Rec (r_ref r) (r_t r) (r_sealed r) (r_public r) (r_resting r) (r_clearing r) (r_pruned r) (r_rid r)
    (r_book_hash r) (r_consumed r) (r_set_key r) (r_minseq r) (r_claimed r) t (r_dead_since r) (r_abandoned r).
Definition set_dead_since (t : option Z) (r : round_rec) : round_rec :=
  Rec (r_ref r) (r_t r) (r_sealed r) (r_public r) (r_resting r) (r_clearing r) (r_pruned r) (r_rid r)
    (r_book_hash r) (r_consumed r) (r_set_key r) (r_minseq r) (r_claimed r) (r_ok_since r) t (r_abandoned r).
Definition set_claimed (c : gmap key bytes) (r : round_rec) : round_rec :=
  Rec (r_ref r) (r_t r) (r_sealed r) (r_public r) (r_resting r) (r_clearing r) (r_pruned r) (r_rid r)
    (r_book_hash r) (r_consumed r) (r_set_key r) (r_minseq r) c (r_ok_since r) (r_dead_since r) (r_abandoned r).

Inductive entry : Type :=
| LPlaced (k : key) (ref : positive) (api : bool)    (* by [api_order], or a re-seal *)
| LSeen (rid : bytes) (ks : gset key)
| LGone (rid : bytes)
| LSettled (rid : bytes) (k : key)
| LEnded (k : key)
| LRivalError
| LSubmit (payload : bytes)
| LEff (e : effect).

Record state := State {
  pending : list order;
  inflight : option round_rec;
  zombies : list round_rec;
  round_gate : option Z;
  enc_cap : option Z;
  carry_retry : list order;
  order_expiry : gmap (Z * Z) Z;
  commit_seen : gmap bytes Z;
  fin : fin_state;
  log : list entry;
  tick : nat;
  next_ref : positive;
  taken : list order;           (* locals of the build in progress *)
  ended : gset key
}.
Definition init : state := State [] None [] None None [] ∅ ∅ fin_init [] 0 1 [] ∅.

(** Field updates. *)
Definition with_pending (f : list order → list order) (s : state) : state :=
  State (f (pending s)) (inflight s) (zombies s) (round_gate s) (enc_cap s) (carry_retry s)
    (order_expiry s) (commit_seen s) (fin s) (log s) (tick s) (next_ref s) (taken s) (ended s).
Definition with_inflight (r : option round_rec) (s : state) : state :=
  State (pending s) r (zombies s) (round_gate s) (enc_cap s) (carry_retry s)
    (order_expiry s) (commit_seen s) (fin s) (log s) (tick s) (next_ref s) (taken s) (ended s).
Definition with_zombies (f : list round_rec → list round_rec) (s : state) : state :=
  State (pending s) (inflight s) (f (zombies s)) (round_gate s) (enc_cap s) (carry_retry s)
    (order_expiry s) (commit_seen s) (fin s) (log s) (tick s) (next_ref s) (taken s) (ended s).
Definition with_gate (g : option Z) (s : state) : state :=
  State (pending s) (inflight s) (zombies s) g (enc_cap s) (carry_retry s)
    (order_expiry s) (commit_seen s) (fin s) (log s) (tick s) (next_ref s) (taken s) (ended s).
Definition with_enc_cap (c : option Z) (s : state) : state :=
  State (pending s) (inflight s) (zombies s) (round_gate s) c (carry_retry s)
    (order_expiry s) (commit_seen s) (fin s) (log s) (tick s) (next_ref s) (taken s) (ended s).
Definition with_retry (l : list order) (s : state) : state :=
  State (pending s) (inflight s) (zombies s) (round_gate s) (enc_cap s) l
    (order_expiry s) (commit_seen s) (fin s) (log s) (tick s) (next_ref s) (taken s) (ended s).
Definition with_expiry (f : gmap (Z * Z) Z → gmap (Z * Z) Z) (s : state) : state :=
  State (pending s) (inflight s) (zombies s) (round_gate s) (enc_cap s) (carry_retry s)
    (f (order_expiry s)) (commit_seen s) (fin s) (log s) (tick s) (next_ref s) (taken s) (ended s).
Definition with_commit_seen (c : gmap bytes Z) (s : state) : state :=
  State (pending s) (inflight s) (zombies s) (round_gate s) (enc_cap s) (carry_retry s)
    (order_expiry s) c (fin s) (log s) (tick s) (next_ref s) (taken s) (ended s).
Definition with_fin (f : fin_state) (s : state) : state :=
  State (pending s) (inflight s) (zombies s) (round_gate s) (enc_cap s) (carry_retry s)
    (order_expiry s) (commit_seen s) f (log s) (tick s) (next_ref s) (taken s) (ended s).
Definition with_log (l : list entry) (s : state) : state :=
  State (pending s) (inflight s) (zombies s) (round_gate s) (enc_cap s) (carry_retry s)
    (order_expiry s) (commit_seen s) (fin s) (log s ++ l) (tick s) (next_ref s) (taken s) (ended s).
Definition with_tick (s : state) : state :=
  State (pending s) (inflight s) (zombies s) (round_gate s) (enc_cap s) (carry_retry s)
    (order_expiry s) (commit_seen s) (fin s) (log s) (S (tick s)) (next_ref s) (taken s) (ended s).
Definition with_next_ref (s : state) : state :=
  State (pending s) (inflight s) (zombies s) (round_gate s) (enc_cap s) (carry_retry s)
    (order_expiry s) (commit_seen s) (fin s) (log s) (tick s) (Pos.succ (next_ref s)) (taken s) (ended s).
Definition with_build (t : list order) (e : gset key) (s : state) : state :=
  State (pending s) (inflight s) (zombies s) (round_gate s) (enc_cap s) (carry_retry s)
    (order_expiry s) (commit_seen s) (fin s) (log s) (tick s) (next_ref s) t e.

(** ** The monad *)
Definition M (A : Type) : Type := state → result A * state.
#[global] Instance M_ret : MRet M := λ A a s, (Ok a, s).
#[global] Instance M_bind : MBind M := λ A B f c s,
  match c s with
  | (Ok a, s') => f a s'
  | (Raise e, s') => (Raise e, s')
  end.

Definition modify (f : state → state) : M unit := λ s, (Ok tt, f s).
Definition gets {A} (f : state → A) : M A := λ s, (Ok (f s), s).
Definition lift {A} (r : result A) : M A := λ s, (r, s).
(** [try: c except Exception as e: h(e)] *)
Definition catch {A} (c : M A) (h : exn → M A) : M A := λ s,
  match c s with (Ok a, s') => (Ok a, s') | (Raise e, s') => h e s' end.
(** The outcome of [c] as a value. *)
Definition attempt {A} (c : M A) : M (result A) := λ s, let '(r, s') := c s in (Ok r, s').
(** [for x in l: body], threading an accumulator *)
Fixpoint for_each {A B} (body : B → A → M B) (acc : B) (l : list A) : M B :=
  match l with
  | [] => mret acc
  | x :: l' => acc' ← body acc x; for_each body acc' l'
  end.

Definition add_log (l : list entry) : M unit := modify (with_log l).
Definition effects (l : list effect) : M unit := add_log (map LEff l).

(** ASCII keys *)
Definition ascii_bytes (s : string) : bytes :=
  map (λ a, Z.of_nat (Ascii.nat_of_ascii a)) (String.list_ascii_of_string s).

Section rounds.
Context (views : nat → view) (commitment : bytes → bytes) (round_id : bytes → bytes).
Context (cfg : config) (m : Z).

(** ** Reading the world *)

(** [api_order]'s append, and the expiry it sets, of the orders that arrive at an instant. *)
Definition arrive (os : list (order * Z)) (s : state) : state :=
  with_expiry (λ e, foldl (λ e p, <[(account p.1, oid p.1) := p.2]> e) e os)
    (with_log (map (λ p, LPlaced (order_key p.1) (o_ref p.1) true) os)
      (with_pending (λ l, l ++ map fst os) s)).

Definition observe {A} (f : view → A) : M A := λ s,
  let v := views (tick s) in (Ok (f v), with_tick (arrive (v_arrivals v) s)).

Definition time : M Z := observe v_time.
Definition storage (k : bytes) : M bytes := r ← observe (λ v, v_read v k); lift r.
Definition storage_final (k : bytes) : M (option bytes) := r ← observe (λ v, v_read_final v k); lift r.
Definition submit (payload : bytes) : M unit :=
  r ← observe (λ v, v_submit v payload);
  _ ← add_log [LSubmit payload];
  lift r.

Definition mkey (prefix : string) : bytes := ascii_bytes prefix ++ le_bytes 4 m.
(** [mstate(prefix, m)] *)
Definition mstate (prefix : string) : M Z := v ← storage (mkey prefix); mret (le_int v).
Definition seq_floor (acct : Z) : M Z := v ← storage (ascii_bytes "sq" ++ le_bytes 4 acct); mret (le_int v).

Definition read_fin (now : Z) : M fin_view :=
  h ← observe (λ v, (v_finalized v, v_head v));
  f ← gets fin;
  let '(v, f') := read_finality now h.1 h.2 f in
  _ ← modify (with_fin f'); mret v.
Definition advancing (now : Z) : M bool :=
  h ← observe (λ v, (v_finalized v, v_head v));
  f ← gets fin;
  let '(b, f') := finality_advancing now h.1 h.2 f in
  _ ← modify (with_fin f'); mret b.

(** [_landed_slot(rid)] *)
Definition landed_slot (rid : bytes) : M (option Z) :=
  v ← storage (ascii_bytes "rl" ++ rid);
  mret (if (4 <=? length v)%nat then Some (le_int (take 4 v)) else None).
(** The same for a tracked round; a sighting is logged. *)
Definition see (r : round_rec) : M (option Z) :=
  slot ← landed_slot (r_rid r);
  match slot with
  | Some n => _ ← add_log [LSeen (r_rid r) (keys r)]; mret (Some n)
  | None => mret None
  end.
(** [_landed_final(rid)] *)
Definition landed_final (rid : bytes) : M (option bool) :=
  v ← storage_final (ascii_bytes "rl" ++ rid);
  mret (match v with Some b => Some (4 <=? length b)%nat | None => None end).

(** [_consumed_entry(o)] *)
Definition consumed_entry (o : order) : result bytes :=
  h ← (if ENC_MODE cfg then match ciphertext o with Some c => Ok c | None => Raise (KeyError "ciphertext") end
       else get_reveal o);
  a ← pack [(4%nat, account o)];
  Ok (commitment h ++ a).

(** [_confirmed(rec, now)] *)
Definition confirmed (r : round_rec) (now : Z) : M bool :=
  f ← attempt (landed_final (r_rid r));
  match f with
  | Raise _ => mret false
  | Ok (Some true) => mret true
  | Ok final =>
      wait ← match final, SETTLE_HOLD_SECS cfg with
             | Some false, None => advancing now
             | _, _ => mret false
             end;
      if (wait : bool) then mret false
      else
        hold ← match SETTLE_HOLD_SECS cfg with
               | Some h => mret h
               | None => a ← advancing now; mret (settle_hold_secs None a)
               end;
        mret (Z.max hold MIN_CONFIRM_SECS <=? now - default 0 (r_ok_since r))
  end.

(** [_round_dead(m, fr)]: the reason, or None *)
Definition round_dead (r : round_rec) : M (option string) :=
  book ← storage (mkey "book");
  if negb (bool_decide (commitment book = r_book_hash r)) then mret (Some "book-moved"%string)
  else
    gone ← match r_consumed r with
           | [] => mret false
           | es => raw ← storage (r_set_key r ++ le_bytes 4 m);
                   mret (existsb (λ e, negb (bool_decide (e ∈ set_entries raw))) es)
           end;
    if (gone : bool) then mret (Some "commit-gone"%string)
    else
      stale ← for_each (λ (b : bool) p, if b then mret true
                        else f ← seq_floor p.1; mret (p.2 <=? f)) false (r_minseq r);
      mret (if (stale : bool) then Some "seq-floor"%string else None).

(** ** Tracked rounds *)

(** [_records(m)] *)
Definition records (s : state) : list round_rec :=
  match inflight s with Some r => [r] | None => [] end ++ zombies s.

(** Mutates the object [ref], wherever it is tracked. *)
Definition upd_one (ref : positive) (f : round_rec → round_rec) (r : round_rec) : round_rec :=
  if decide (r_ref r = ref) then f r else r.
Definition upd_rec (ref : positive) (f : round_rec → round_rec) (s : state) : state :=
  with_zombies (map (upd_one ref f)) (with_inflight (upd_one ref f <$> inflight s) s).

(** [_rival_landed(m, fr)]: [any] stops at the first rival that reads as landed. *)
Definition rival_landed (r : round_rec) : M bool :=
  rs ← gets records;
  for_each (λ (b : bool) other,
    if b then mret true
    else if decide (r_ref other = r_ref r) then mret false
    else if decide (keys other ∩ keys r = ∅) then mret false
    else
      slot ← catch (landed_slot (r_rid other)) (λ e, _ ← add_log [LRivalError]; lift (Raise e));
      mret (match slot with Some _ => true | None => false end)) false rs.

(** [fr.setdefault("claimed", {})[k] = z["rid"]], for every key the two share *)
Definition mark (z r : round_rec) : round_rec :=
  if decide (r_ref r = r_ref z) then r
  else set_claimed (set_fold (λ k c, <[k := r_rid z]> c) (r_claimed r) (keys r ∩ keys z)) r.

(** [_claim(m, z)] *)
Definition claim (z : round_rec) : M (gset key) :=
  _ ← modify (with_pending (filter (λ o, order_key o ∉ keys z)));
  _ ← modify (λ s, with_zombies (map (mark z)) (with_inflight (mark z <$> inflight s) s));
  mret (keys z).

(** [del cl[k]], for every claim of [z] *)
Definition free (z r : round_rec) : round_rec :=
  if decide (r_ref r = r_ref z) then r
  else set_claimed (filter (λ p, p.2 ≠ r_rid z) (r_claimed r)) r.

(** [_unclaim(m, z)]; the re-queued orders are what is returned. *)
Definition unclaim (z : round_rec) : M (list order) :=
  _ ← modify (λ s, with_zombies (map (free z)) (with_inflight (free z <$> inflight s) s));
  busy ← gets (λ s, ⋃ (map keys (filter (λ r, r_ref r ≠ r_ref z ∧
           (r_ref <$> inflight s = Some (r_ref r) ∨ is_Some (r_ok_since r))) (records s))));
  queued ← gets (λ s, list_to_set (map order_key (pending s)) : gset key);
  let back := filter (λ o, order_key o ∉ busy ∪ queued) (r_orders z) in
  _ ← modify (with_pending (app back));
  mret back.

(** ** Settling *)

(** [_seal_material(m, o)]: the order with its hiding material and commit id *)
Definition seal_material (o : order) : M order :=
  ob ← lift (order_bytes (account o) (oid o) (side o) (price o) (qty o));
  if ENC_MODE cfg then
    ct ← observe (λ v, v_encrypt v ob);
    ct ← lift ct;
    mret (with_seal (reveal o) (Some ct) (Some (commitment ct)) o)
  else
    nonce ← observe v_nonce;
    mret (with_seal (Some (ob ++ nonce)) (ciphertext o) (Some (commitment (ob ++ nonce))) o).

Definition carry_payload (o : order) : result bytes :=
  if ENC_MODE cfg then
    t ← byte TAG_CARRY_ENC_COMMIT; mb ← pack [(4%nat, m)]; a ← pack [(4%nat, account o)];
    Ok (t ++ mb ++ default [] (ciphertext o) ++ a)
  else
    t ← byte TAG_CARRY_COMMIT; ma ← pack [(4%nat, m); (4%nat, account o)];
    Ok (t ++ ma ++ default [] (commit o)).

(** [_post_carry_seal(m, o)]: the order as it is left, and how the call ended *)
Definition post_carry_seal (o : order) : M (order * result unit) :=
  x ← attempt (match commit o with Some _ => mret o | None => seal_material o end);
  match x with
  | Raise e => mret (o, Raise e)
  | Ok o => u ← attempt (p ← lift (carry_payload o); submit p); mret (o, u)
  end.

(** [exp and exp <= now] of an order's good-till-time *)
Definition gtt_over (e : option Z) (now : Z) : bool :=
  match e with Some x => negb (x =? 0) && (x <=? now) | None => false end.

(** [disp(v)] as it is printed: a non-negative amount in units of 1/10000, without trailing zeros *)
Fixpoint frac_digits (n : nat) (scale v : Z) : string :=
  match n with
  | O => ""
  | S n' => if v =? 0 then "" else pretty (v / scale) +:+ frac_digits n' (scale / 10) (v mod scale)
  end.
Definition disp_text (v : Z) : string :=
  pretty (v / 10000) +:+ (if v mod 10000 =? 0 then "" else "." +:+ frac_digits 4 1000 (v mod 10000)).

(** [type(e).__name__] *)
Definition exn_name (e : exn) : string :=
  match e with
  | ValueError _ => "ValueError" | OverflowError => "OverflowError" | StructError => "error"
  | KeyError _ => "KeyError" | IndexError => "IndexError" | ChainError _ => "ChainError"
  | ChainBusy _ => "ChainBusy" | ChainUnsupported _ => "ChainUnsupported" | OSError _ => "OSError"
  | WebSocketError _ => "WebSocketError" | Jip2Error _ => "Jip2Error"
  | SetupError _ => "SetupError" | DeployError _ => "DeployError"
  end.

Definition is_busy (e : exn) : bool := match e with ChainBusy _ => true | _ => false end.

(** One order of [_carry_sealed_remainders]; the accumulator is what was carried and the stamps. *)
Definition carry_one (c : clearing) (now : Z) (acc : list order * list (positive * stamp)) (o : order) :
    M (list order * list (positive * stamp)) :=
  let '(carried, stamps) := acc in
  let fl := fill_of c o in
  let rem := qty o - fl in
  if rem <=? 0 then mret (carried, stamps ++ [(o_ref o, (Some DFilled, None))])
  else
    exp ← gets (λ s, order_expiry s !! (account o, oid o));
    if gtt_over exp now then
      mret (carried, stamps ++ [(o_ref o, (Some (if 0 <? fl then DPartialCancelled else DCancelled), Some "expired"%string))])
    else
      ref ← observe v_ref;
      x ← post_carry_seal (remainder_of ref o rem);
      match x.2 with
      | Ok _ =>
          mret (carried ++ [x.1], stamps ++
            [(o_ref o, if 0 <? fl then (Some DPartialCarried, Some ("filled " +:+ disp_text fl +:+ ", rest re-sealed & still working"))
                       else (Some DCarried, Some "didn't cross this round — still working (hidden)"%string))])
      | Raise e =>
          _ ← modify (λ s, with_retry (carry_retry s ++ [x.1]) s);
          mret (carried, stamps ++
            [(o_ref o, (Some (if 0 <? fl then DPartialCarried else DCarried),
                        Some (if is_busy e then "re-seal queued (chain busy)"%string else "re-seal queued (" +:+ exn_name e +:+ ")")))])
      end.

(** Orders enter the mempool, at its end. *)
Definition enqueue (os : list order) : M unit :=
  _ ← modify (with_pending (λ l, l ++ os));
  add_log (map (λ o, LPlaced (order_key o) (o_ref o) false) os).

Definition carry_sealed_remainders (sealed : list order) (c : clearing) (now : Z) :
    M (list (positive * stamp)) :=
  acc ← for_each (carry_one c now) ([], []) sealed;
  _ ← enqueue acc.1;
  mret acc.2.

Definition stamp_of (stamps : list (positive * stamp)) (o : order) : stamp :=
  match list_find (λ p, p.1 = o_ref o) stamps with Some (_, p) => p.2 | None => (None, None) end.

(** The height a receipt is stamped with. *)
Definition settle_height : M (option Z) :=
  now ← time;
  v ← read_fin now;
  mret (if fv_available v then fv_block v else None).

(** [record_executions(m, resting, reveal, public, clearing, rid)] *)
Definition record_settled (r : round_rec) (sealed public : list order) (stamps : list (positive * stamp)) : M unit :=
  match r_resting r ++ sealed ++ public with
  | [] => mret tt
  | _ =>
      f ← attempt (landed_final (r_rid r));
      let landing := match f with
                     | Ok (Some b) => Some (r_rid r, b)
                     | Ok None => None
                     | Raise _ => Some (r_rid r, false)
                     end in
      now ← time;
      height ← settle_height;
      exp ← gets order_expiry;
      effects (record_executions m (r_clearing r) now height landing exp (stamp_of stamps)
                 (r_resting r) sealed public)
  end.

(** [_finalize_round(m, fr)] *)
Definition finalize_round (r : round_rec) : M unit :=
  now ← time;
  let sealed := filter (λ o, order_key o ∉ dom (r_claimed r)) (r_sealed r) in
  let public := filter (λ o, order_key o ∉ dom (r_claimed r)) (r_public r) in
  _ ← modify (λ s,
    match enc_cap s with
    | Some cap =>
        if bool_decide (r_set_key r = ascii_bytes "encset") && negb (bool_decide (r_sealed r = [])) then
          let grown := Z.max cap (2 * Z.of_nat (length (r_sealed r))) in
          with_enc_cap (if MAX_ROUND_ORDERS cfg <=? grown then None else Some grown) s
        else s
    | None => s
    end);
  stamps ← carry_sealed_remainders sealed (r_clearing r) now;
  _ ← record_settled r sealed public stamps;
  _ ← add_log (map (λ o, LSettled (r_rid r) (order_key o)) (sealed ++ public));
  _ ← modify (with_expiry (λ e, foldl (λ e p, delete p e) e (r_pruned r)));
  effects (map (λ p, ECall (Terminal (m, p.1, p.2) expired 0 None)) (r_pruned r)).

(** One remainder of [_drain_carry_retry]; the accumulator is [keep]. *)
Definition drain_one (now : Z) (keep : list order) (r : order) : M (list order) :=
  exp ← gets (λ s, order_expiry s !! (account r, oid r));
  if gtt_over exp now then
    lp ← mstate "lp";
    height ← settle_height;
    _ ← effects (record_exec m r (Some DCancelled, Some "expired-before-reseal"%string) 0 lp true now height None);
    mret keep
  else
    x ← post_carry_seal r;
    match x.2 with
    | Raise _ => mret (keep ++ [x.1])
    | Ok _ => _ ← enqueue [x.1]; mret keep
    end.

Definition drain_carry_retry (now : Z) : M unit :=
  items ← gets carry_retry;
  keep ← for_each (drain_one now) [] items;
  modify (with_retry keep).

(** ** Releasing *)

(** [while len(zs) > ZOMBIE_CAP: ...]: forget the oldest unsighted ones *)
Fixpoint trim_zombies (n : nat) (zs : list round_rec) : list round_rec :=
  match n with
  | O => zs
  | S n' =>
      match list_find (λ z, r_ok_since z = None) zs with
      | Some (i, _) => trim_zombies n' (take i zs ++ drop (S i) zs)
      | None => zs
      end
  end.

(** [_abandon(m, fr, why, now)]: the round is no longer in flight. *)
Definition abandon (r : round_rec) (why : string) (now : Z) : M unit :=
  let orders := filter (λ o, order_key o ∉ dom (r_claimed r)) (r_orders r) in
  _ ← modify (with_pending (app orders));
  _ ← effects (map (λ o, ECall (Requeued (m, account o, oid o))) orders);
  ref ← gets next_ref;
  let z := Rec ref (r_t r) (r_sealed r) (r_public r) (r_resting r) (r_clearing r) (r_pruned r) (r_rid r)
             (r_book_hash r) (r_consumed r) (r_set_key r) (r_minseq r) (r_claimed r) None (r_dead_since r)
             (Some (now, why)) in
  _ ← modify with_next_ref;
  _ ← modify (with_zombies (λ zs, let zs := zs ++ [z] in trim_zombies (length zs - ZOMBIE_CAP) zs));
  if bool_decide (why = "timeout"%string) then
    _ ← modify (with_gate (Some now));
    if bool_decide (r_set_key r = ascii_bytes "encset") && negb (bool_decide (r_sealed r = [])) then
      modify (with_enc_cap (Some (Z.max 1 (Z.of_nat (length (r_sealed r)) / 2))))
    else mret tt
  else mret tt.

(** ** Resolving *)

(** One zombie of [_resolve_zombies]; the accumulator is [taken] and [keep] (identities). *)
Definition step_zombie (now : Z) (acc : gset key * list positive) (ref : positive) :
    M (gset key * list positive) :=
  let '(tk, keep) := acc in
  zo ← gets (λ s, list_find (λ z, r_ref z = ref) (zombies s));
  match zo with
  | None => mret (tk, keep)
  | Some (_, z) =>
      if bool_decide (r_ok_since z = None) &&
         (ZOMBIE_WATCH_SECS cfg <? now - match r_abandoned z with Some p => p.1 | None => 0 end)
      then mret (tk, keep)
      else
        slot ← attempt (see z);
        match slot, r_ok_since z with
        | Raise _, _ => mret (tk, keep ++ [ref])
        | Ok (Some _), None =>
            _ ← modify (upd_rec ref (set_ok_since (Some now)));
            ks ← claim z;
            mret (tk ∪ ks, keep ++ [ref])
        | Ok (Some _), Some _ =>
            ok ← confirmed z now;
            if (ok : bool) then
              rival ← rival_landed z;
              if (rival : bool) then mret (tk, keep ++ [ref])
              else _ ← attempt (finalize_round z); mret (tk, keep)
            else mret (tk, keep ++ [ref])
        | Ok None, Some _ =>
            _ ← modify (upd_rec ref (set_ok_since None));
            _ ← unclaim z;
            _ ← add_log [LGone (r_rid z)];
            _ ← effects (map (λ o, ECall (Reverted (m, account o, oid o))) (r_orders z));
            mret (tk, keep ++ [ref])
        | Ok None, None => mret (tk, keep ++ [ref])
        end
  end.

(** [_resolve_zombies(now, m)]: the keys it claimed *)
Definition resolve_zombies (now : Z) : M (gset key) :=
  refs ← gets (λ s, map r_ref (zombies s));
  acc ← for_each (step_zombie now) (∅, []) refs;
  _ ← modify (with_zombies (filter (λ z, r_ref z ∈ acc.2)));
  mret acc.1.

(** [_resolve_inflight(m, fr, now)] *)
Definition resolve_inflight (r : round_rec) (now : Z) : M unit :=
  x ← attempt (why ← round_dead r; slot ← see r; mret (why, slot));
  match x with
  | Raise _ => mret tt
  | Ok (why, Some _) =>
      _ ← modify (upd_rec (r_ref r) (set_dead_since None));
      match r_ok_since r with
      | None => modify (upd_rec (r_ref r) (set_ok_since (Some now)))
      | Some _ =>
          ok ← confirmed r now;
          if (ok : bool) then
            rival ← rival_landed r;
            if (rival : bool) then mret tt
            else _ ← modify (with_inflight None); _ ← attempt (finalize_round r); mret tt
          else mret tt
      end
  | Ok (why, None) =>
      match r_ok_since r, why with
      | Some _, _ =>
          _ ← modify (upd_rec (r_ref r) (set_ok_since None));
          _ ← add_log [LGone (r_rid r)];
          effects (map (λ o, ECall (Reverted (m, account o, oid o))) (r_orders r))
      | None, Some w =>
          let since := default now (r_dead_since r) in
          _ ← modify (upd_rec (r_ref r) (set_dead_since (Some since)));
          if DEAD_CONFIRM_SECS cfg <=? now - since then
            _ ← modify (with_inflight None);
            abandon (set_dead_since (Some since) r) w now
          else mret tt
      | None, None =>
          _ ← modify (upd_rec (r_ref r) (set_dead_since None));
          if ROUND_GATE_SECS cfg <? now - r_t r then
            _ ← modify (with_inflight None);
            abandon (set_dead_since None r) "timeout" now
          else mret tt
      end
  end.

(** The market's part of [_resolve_rounds_once]. *)
Definition resolve_market : M unit :=
  busy ← gets (λ s, match records s with [] => false | _ => true end);
  if (busy : bool) then
    t ← time;
    _ ← resolve_zombies t;
    r ← gets inflight;
    match r with Some r => resolve_inflight r t | None => mret tt end
  else mret tt.

(** ** Building *)

(** The state kept by [_sealed_ready_predicate]: the height at which each commit was first seen. *)
Definition pin_commits (entries : list bytes) (bh : option Z) (seen : gmap bytes Z) : gmap bytes Z :=
  let seen := match bh with
              | Some h => foldl (λ c e, match c !! e with Some _ => c | None => <[e := h]> c end) seen entries
              | None => seen
              end in
  filter (λ p, p.1 ∈ entries) seen.

(** [_sealed_ready_predicate(m, commit_entries, fin, final_entries)], on the entry an order
    consumes *)
Definition sealed_ready_predicate (entries : list bytes) (v : fin_view) (final_entries : option (list bytes)) :
    M (bytes → bool) :=
  match final_entries with
  | Some fe => mret (λ e, bool_decide (e ∈ entries) && bool_decide (e ∈ fe))
  | None =>
      _ ← modify (λ s, with_commit_seen (pin_commits entries (fv_block v) (commit_seen s)) s);
      seen ← gets commit_seen;
      mret (λ e, bool_decide (e ∈ entries) &&
        match (if fv_available v then fv_finalized v else None) with
        | None => true
        | Some fh => match seen !! e with Some h => h <=? fh | None => false end
        end)
  end.

(** [expired_pairs(m, rest_bytes)] *)
Definition expired_pairs (now : Z) (exp : gmap (Z * Z) Z) (raw : bytes) : list (Z * Z) :=
  filter (λ p, gtt_over (exp !! p) now = true) (map (λ o, (account o, oid o)) (parse_book raw)).

(** [o["expiry"] = order_expiry.get(...)] *)
Definition attach_expiry (exp : gmap (Z * Z) Z) (o : order) : order :=
  {| o_ref := o_ref o; account := account o; oid := oid o; side := side o; price := price o; qty := qty o;
     otype := otype o; sealed := sealed o; seq := seq o; signed_price := signed_price o;
     pubkey := pubkey o; sig := sig o; expiry := exp !! (account o, oid o); reveal := reveal o;
     ciphertext := ciphertext o; commit := commit o |}.

(** [_requeue_unsent(m, taken, ended)] *)
Definition requeue_unsent : M (list order) :=
  tk ← gets taken;
  skip ← gets (λ s, ended s ∪ ⋃ (map keys (filter (λ z, is_Some (r_ok_since z)) (zombies s)))
                    ∪ list_to_set (map order_key (pending s)));
  let back := filter (λ o, order_key o ∉ skip) tk in
  _ ← modify (with_pending (app back));
  mret back.

Definition reason_text (d : dead_reason) : string :=
  match d with
  | Superseded f s => "superseded: account seq floor (floor " +:+ pretty f +:+ " >= order seq " +:+ pretty s +:+ ")"
  | DuplicateSeq s => "duplicate: another order of this account carries seq " +:+ pretty s
  | NoLastPrice => "market order: the market has no last price to bound it"
  end.

(** The floors [_seq_sanitize] reads, one per account in the order it meets them. *)
Definition read_floors (orders : list order) : M (gmap Z Z) :=
  for_each (λ (fl : gmap Z Z) o,
    match fl !! account o with
    | Some _ => mret fl
    | None => f ← seq_floor (account o); mret (<[account o := f]> fl)
    end) ∅ (sort_by acct_seq_leb orders).

(** [_price_market_orders]: the last price is read only when there is a market order.  The dicts are
    re-priced in place, those of the build's own list too. *)
Definition price_orders (public : list order) : M (list order * list (order * dead_reason)) :=
  match filter (λ o, is_market o = true) public with
  | [] => mret (public, [])
  | _ =>
      lp ← mstate "lp";
      _ ← (if lp <=? 0 then mret tt
           else modify (λ s, with_build (map (λ o, if negb (sealed o) && is_market o
                                                   then with_price (market_price (side o) lp) o else o)
                                          (taken s)) (ended s) s));
      mret (price_market_orders lp public)
  end.

(** Ends one dead order: its receipt, its expiry, its key. *)
Definition reject_order (now : Z) (_ : unit) (d : order * dead_reason) : M unit :=
  height ← settle_height;
  _ ← effects (record_exec m d.1 (Some DRejected, Some (reason_text d.2)) 0 (price d.1) false now height None);
  _ ← modify (with_expiry (delete (account d.1, oid d.1)));
  _ ← add_log [LEnded (order_key d.1)];
  modify (λ s, with_build (taken s) (ended s ∪ {[order_key d.1]}) s).

(** [minseq]: each account's lowest seq, in order of first appearance *)
Fixpoint min_insert (a s : Z) (l : list (Z * Z)) : list (Z * Z) :=
  match l with
  | [] => [(a, s)]
  | (b, t) :: l' => if b =? a then (b, Z.min t s) :: l' else (b, t) :: min_insert a s l'
  end.
Definition minseq (public : list order) : list (Z * Z) :=
  foldl (λ l o, min_insert (account o) (seq o) l) [] public.

(** The payload of a round: through the committee when sealed orders are encrypted. *)
Definition make_payload (base quote : Z) (sealed public : list order) (pruned : list (Z * Z)) (raw section : bytes) :
    M bytes :=
  match sealed with
  | _ :: _ =>
      if ENC_MODE cfg then
        cts ← lift (mapM (λ o, match ciphertext o with Some c => Ok c | None => Raise (KeyError "ciphertext") end) sealed);
        p ← observe (λ v, v_committee v [m; base; quote] section cts);
        lift p
      else lift (round_payload commitment m base quote sealed public pruned raw)
  | [] => lift (round_payload commitment m base quote sealed public pruned raw)
  end.

Definition set_key : bytes := ascii_bytes (if ENC_MODE cfg then "encset" else "commits").

(** What a build returns. *)
Inductive reply : Type :=
| Gated (why : string)
| NothingToSubmit (hidden ended : nat)
| Backpressure (requeued : nat)
| Queued (sealed public hidden expired : nat).

(** The orders a look at the released rounds claimed leave the build. *)
Definition drop_claimed (cl : gset key) (l : list order) : list order := filter (λ o, order_key o ∉ cl) l.

(** Reveals whose counterparty is gone go back to the queue, still hidden. *)
Definition keep_crossing (sealed public resting : list order) (now : Z) : M (list order) :=
  match sealed with
  | [] => mret []
  | _ =>
      let kept := pl_reveal (plan_round (sealed ++ public) resting now all_ready) in
      if (length kept <? length sealed)%nat then
        _ ← modify (with_pending (app (filter (λ o, o_ref o ∉ refs kept) sealed)));
        mret kept
      else mret sealed
  end.

(** The end of [_assemble_round]: the payload and the record of the round. *)
Definition finish_round (base quote : Z) (raw : bytes) (pruned : list (Z * Z)) (resting sealed public : list order) :
    M (round_rec * bytes) :=
  _ ← lift (pack [(4%nat, m); (4%nat, base); (4%nat, quote)]);
  section ← lift (public_section_bytes public pruned raw);
  payload ← catch (make_payload base quote sealed public pruned raw section)
              (λ e, t ← time; _ ← modify (with_gate (Some t)); lift (Raise e));
  t ← time;
  consumed ← lift (mapM consumed_entry sealed);
  ref ← gets next_ref;
  _ ← modify with_next_ref;
  mret (Rec ref t sealed public resting (clear (resting ++ sealed ++ public)) pruned (round_id payload)
          (commitment raw) consumed set_key (minseq public) ∅ None None None, payload).

(** [_assemble_round]: the record and the payload, or None when there is nothing to submit. *)
Definition assemble_round (base quote now : Z) (raw : bytes) (pruned : list (Z * Z)) (p : plan)
    (resting : list order) (entries : list bytes) : M (option (round_rec * bytes)) :=
  _ ← for_each (λ _ o,
        e ← lift (consumed_entry o);
        effects [ECall (Deferred (m, account o, oid o)
          (if bool_decide (e ∈ entries) then "awaiting-finality" else "commit-not-onchain"))]) tt (pl_deferred p);
  pr ← price_orders (pl_public p);
  fl ← read_floors pr.1;
  let '(kept, stale, _) := seq_sanitize (λ a, default 0 (fl !! a)) pr.1 in
  zs ← gets zombies;
  cl ← (match zs with [] => mret ∅ | _ => t ← time; resolve_zombies t end);
  let sealed := drop_claimed cl (pl_reveal p) in
  let public := drop_claimed cl kept in
  let dead := filter (λ d, order_key d.1 ∉ cl) (pr.2 ++ stale) in
  _ ← for_each (reject_order now) tt dead;
  sealed ← keep_crossing sealed public resting now;
  if bool_decide (sealed = [] ∧ public = [] ∧ pruned = []) then
    _ ← mstate "lp"; _ ← mstate "cv"; _ ← storage (mkey "book"); mret None
  else r ← finish_round base quote raw pruned resting sealed public; mret (Some r).

(** The orders of the plan that a build takes out of the mempool. *)
Definition take_orders (pend_all : list order) (p : plan) : list order :=
  let out : gset key := list_to_set (map order_key (pl_reveal p ++ pl_public p ++ pl_expired p)) in
  filter (λ o, order_key o ∈ out) pend_all.

(** Ends one order that expired in the mempool. *)
Definition expire_order (_ : unit) (o : order) : M unit :=
  _ ← effects [ECall (Terminal (m, account o, oid o) expired 0 None)];
  _ ← modify (with_expiry (delete (account o, oid o)));
  _ ← add_log [LEnded (order_key o)];
  modify (λ s, with_build (taken s) (ended s ∪ {[order_key o]}) s).

(** Snapshots the mempool, plans, and leaves in it what waits. *)
Definition plan_and_take (now : Z) (pruned : list (Z * Z)) (resting : list order) (committee_n : Z) (ready : bytes → bool) :
    M plan :=
  _ ← modify (λ s, with_pending (map (attach_expiry (order_expiry s))) s);
  pend_all ← gets pending;
  cap ← gets enc_cap;
  entries ← lift (mapM (λ o, e ← consumed_entry o; Ok (o_ref o, e)) (filter (λ o, sealed o = true) pend_all));
  let fit := cap_batch (MAX_ROUND_ORDERS cfg) (order_gas (ENC_MODE cfg) committee_n) (ROUND_GAS_BUDGET (REFINE_GAS cfg))
               (if ENC_MODE cfg then cap else None) in
  let p := plan_batch pend_all resting fit now
             (λ o, match list_find (λ q, q.1 = o_ref o) entries with Some (_, q) => ready q.2 | None => false end) in
  let wait := refs (pl_carry p ++ pl_deferred p ++ pl_overflow p) in
  _ ← modify (with_pending (λ _, filter (λ o, o_ref o ∈ wait) pend_all));
  _ ← modify (with_build (take_orders pend_all p) ∅);
  mret p.

(** The end of [_build_round]: the round is registered in flight and submitted; a busy chain takes it
    back, any other outcome leaves it in flight. *)
Definition send_round (hidden expired : nat) (r : round_rec) (payload : bytes) : M reply :=
  _ ← modify (with_inflight (Some r));
  u ← attempt (submit payload);
  match u with
  | Raise (ChainBusy _) =>
      _ ← modify (with_inflight None);
      _ ← modify (with_pending (app (r_orders r)));
      t ← time;
      _ ← modify (with_gate (Some t));
      mret (Backpressure (length (r_orders r)))
  | _ =>
      _ ← modify (with_zombies (filter (λ z, r_rid z ≠ r_rid r ∨ is_Some (r_ok_since z))));
      _ ← effects (map (λ o, ECall (Rounded (m, account o, oid o))) (r_orders r));
      mret (Queued (length (r_sealed r)) (length (r_public r)) hidden expired)
  end.

(** [_build_round(m, base, quote)] *)
Definition build_round (base quote : Z) : M reply :=
  fl ← gets inflight;
  match fl with
  | Some _ => mret (Gated "previous round still settling")
  | None =>
  g ← gets round_gate;
  cool ← match g with
         | Some t0 => t ← time;
                      if t - t0 <? ROUND_ZEROFILL_SECS then mret true
                      else _ ← modify (with_gate None); mret false
         | None => mret false
         end;
  if (cool : bool) then mret (Gated "previous round cooling down") else
  zs ← gets zombies;
  _ ← (match zs with [] => mret ∅ | _ => t ← time; resolve_zombies t end);
  now ← time;
  raw ← storage (mkey "book");
  tp ← time;
  exp ← gets order_expiry;
  let pruned := expired_pairs tp exp raw in
  cr ← storage (set_key ++ le_bytes 4 m);
  tf ← time;
  v ← read_fin tf;
  final_raw ← (if fv_available v then storage_final (set_key ++ le_bytes 4 m) else mret None);
  ready ← sealed_ready_predicate (set_entries cr) v (set_entries <$> final_raw);
  n ← (if ENC_MODE cfg then c ← storage (ascii_bytes "committee"); mret (committee_size c) else mret 0);
  let resting := filter (λ o, (account o, oid o) ∉ pruned) (parse_book raw) in
  p ← plan_and_take now pruned resting n ready;
  x ← catch (_ ← for_each expire_order tt (pl_expired p);
             assemble_round base quote now raw pruned p resting (set_entries cr))
        (λ e, _ ← requeue_unsent; lift (Raise e));
  match x with
  | None => mret (NothingToSubmit (length (pl_carry p)) (length (pl_expired p)))
  | Some (r, payload) => send_round (length (pl_carry p)) (length (pl_expired p)) r payload
  end
  end.

(** ** Cancelling a queued order *)

(** [api_cancel_pending], in the order's market. *)
Definition cancel_pending (acct i : Z) : M Z :=
  hits ← gets (λ s, filter (λ o, account o = acct ∧ oid o = i) (pending s));
  match hits with
  | [] => mret 0
  | _ =>
      zs ← gets zombies;
      may ← for_each (λ (b : bool) z,
              if b then mret true
              else if decide (keys z ∩ list_to_set (map order_key hits) = ∅) then mret false
              else match r_ok_since z with
                   | Some _ => mret true
                   | None => d ← round_dead z; mret (match d with None => true | Some _ => false end)
                   end) false zs;
      if (may : bool) then lift (Raise (ValueError "order is in a round that may still settle on-chain"))
      else
        _ ← modify (with_pending (filter (λ o, ¬ (account o = acct ∧ oid o = i))));
        now ← time;
        _ ← for_each (λ _ o,
              _ ← modify (with_expiry (delete (acct, i)));
              height ← settle_height;
              _ ← effects (record_exec m o (Some DCancelled, Some "cancelled by owner (removed from the mempool)"%string)
                             0 (price o) (sealed o) now height None);
              add_log [LEnded (order_key o)]) tt hits;
        mret (Z.of_nat (length hits))
  end.

(** ** Runs *)
Inductive op : Type :=
| OpBuild (base quote : Z)      (* the auction loop, or /api/round *)
| OpResolve                     (* the resolver, this market *)
| OpDrain                       (* the resolver, queued re-seals *)
| OpCancel (acct i : Z)
| OpWait.                       (* orders arrive *)

Definition do_op (o : op) : M unit :=
  match o with
  | OpBuild b q => _ ← attempt (build_round b q); mret tt
  | OpResolve => _ ← attempt resolve_market; mret tt
  | OpDrain => _ ← attempt (t ← time; drain_carry_retry t); mret tt
  | OpCancel a i => _ ← attempt (cancel_pending a i); mret tt
  | OpWait => _ ← time; mret tt
  end.

Definition run (ops : list op) : state := foldl (λ s o, (do_op o s).2) init ops.
End rounds.
