(* ===== verification/RoundLogic.v ===== *)
(** * Reasoning about the rounds' monad

    Hoare triples for the state and exception monad of Rounds.v, relative to a predicate [good] on
    the log of the final state: what a program establishes is only claimed for runs whose log is
    good.  Since the log only grows ([Grows]) and the predicate is closed under prefixes, a good end
    makes every intermediate state good. *)
From S2P Require Import Prelude Orders Bytes Rounds.

(** ** The log only grows *)
Class Grows {A} (c : M A) : Prop := grows s : log s `prefix_of` log (c s).2.

Lemma grows_ret {A} (a : A) : Grows (mret a).
Proof. intros s. done. Qed.
Lemma grows_lift {A} (r : result A) : Grows (lift r).
Proof. intros s. done. Qed.
Lemma grows_gets {A} (f : state → A) : Grows (gets f).
Proof. intros s. done. Qed.

Lemma grows_bind {A B} (c : M A) (f : A → M B) :
  Grows c → (∀ a, Grows (f a)) → Grows (c ≫= f).
Proof.
  intros Hc Hf s. unfold mbind, M_bind. pose proof (Hc s) as H. destruct (c s) as [[a|e] s']; [|done].
  cbn [snd] in H. etrans; [exact H|apply Hf].
Qed.
Lemma grows_catch {A} (c : M A) (h : exn → M A) :
  Grows c → (∀ e, Grows (h e)) → Grows (catch c h).
Proof.
  intros Hc Hh s. unfold catch. pose proof (Hc s) as H. destruct (c s) as [[a|e] s']; [done|].
  cbn [snd] in H. etrans; [exact H|apply Hh].
Qed.
Lemma grows_attempt {A} (c : M A) : Grows c → Grows (attempt c).
Proof. intros Hc s. unfold attempt. pose proof (Hc s) as H. by destruct (c s). Qed.
Lemma grows_for_each {A B} (body : B → A → M B) acc l :
  (∀ b x, Grows (body b x)) → Grows (for_each body acc l).
Proof.
  intros Hb. revert acc. induction l; intros acc; [apply grows_ret|]. cbn. apply grows_bind; auto.
Qed.

Lemma grows_modify f : (∀ s, log s `prefix_of` log (f s)) → Grows (modify f).
Proof. intros H s. apply H. Qed.
Lemma grows_add_log l : Grows (add_log l).
Proof. intros s. cbn. by eexists. Qed.
Lemma grows_effects l : Grows (effects l).
Proof. apply grows_add_log. Qed.
Lemma grows_observe views {A} (f : view → A) : Grows (observe views f).
Proof. intros s. cbn. by eexists. Qed.

(** Proves [Grows] by following the program's structure. *)
Create HintDb grows discriminated.
Ltac grow :=
  repeat first
    [ progress intros
    | solve [auto with grows nocore]
    | apply grows_ret | apply grows_lift | apply grows_gets | apply grows_add_log | apply grows_effects
    | apply grows_observe
    | apply grows_bind | apply grows_catch | apply grows_attempt | apply grows_for_each
    | match goal with |- Grows (match ?x with _ => _ end) => destruct x end
    | apply grows_modify; intros; cbn; repeat case_match; cbn; first [done | by eexists] ].

Section grows_ops.
Context (views : nat → view) (commitment round_id : bytes → bytes) (cfg : config) (m : Z).

Lemma grows_time : Grows (time views).
Proof. unfold time. grow. Qed.
#[local] Hint Resolve grows_time : grows.
Lemma grows_storage k : Grows (storage views k).
Proof. unfold storage. grow. Qed.
#[local] Hint Resolve grows_storage : grows.
Lemma grows_storage_final k : Grows (storage_final views k).
Proof. unfold storage_final. grow. Qed.
#[local] Hint Resolve grows_storage_final : grows.
Lemma grows_submit p : Grows (submit views p).
Proof. unfold submit. grow. Qed.
#[local] Hint Resolve grows_submit : grows.
Lemma grows_mstate p : Grows (mstate views m p).
Proof. unfold mstate. grow. Qed.
#[local] Hint Resolve grows_mstate : grows.
Lemma grows_seq_floor a : Grows (seq_floor views a).
Proof. unfold seq_floor. grow. Qed.
#[local] Hint Resolve grows_seq_floor : grows.
Lemma grows_read_fin t : Grows (read_fin views t).
Proof. unfold read_fin. grow. Qed.
#[local] Hint Resolve grows_read_fin : grows.
Lemma grows_advancing t : Grows (advancing views t).
Proof. unfold advancing. grow. Qed.
#[local] Hint Resolve grows_advancing : grows.
Lemma grows_landed_slot r : Grows (landed_slot views r).
Proof. unfold landed_slot. grow. Qed.
#[local] Hint Resolve grows_landed_slot : grows.
Lemma grows_see r : Grows (see views r).
Proof. unfold see. grow. Qed.
#[local] Hint Resolve grows_see : grows.
Lemma grows_landed_final r : Grows (landed_final views r).
Proof. unfold landed_final. grow. Qed.
#[local] Hint Resolve grows_landed_final : grows.
Lemma grows_confirmed r t : Grows (confirmed views cfg r t).
Proof. unfold confirmed. grow. Qed.
#[local] Hint Resolve grows_confirmed : grows.
Lemma grows_round_dead r : Grows (round_dead views commitment m r).
Proof. unfold round_dead. grow. Qed.
#[local] Hint Resolve grows_round_dead : grows.
Lemma grows_rival_landed r : Grows (rival_landed views r).
Proof. unfold rival_landed. grow. Qed.
#[local] Hint Resolve grows_rival_landed : grows.
Lemma grows_claim z : Grows (claim z).
Proof. unfold claim. grow. Qed.
#[local] Hint Resolve grows_claim : grows.
Lemma grows_unclaim z : Grows (unclaim z).
Proof. unfold unclaim. grow. Qed.
#[local] Hint Resolve grows_unclaim : grows.
Lemma grows_seal_material o : Grows (seal_material views commitment cfg o).
Proof. unfold seal_material. grow. Qed.
#[local] Hint Resolve grows_seal_material : grows.
Lemma grows_post_carry_seal o : Grows (post_carry_seal views commitment cfg m o).
Proof. unfold post_carry_seal. grow. Qed.
#[local] Hint Resolve grows_post_carry_seal : grows.
Lemma grows_carry_one c t acc o : Grows (carry_one views commitment cfg m c t acc o).
Proof. unfold carry_one. grow. Qed.
#[local] Hint Resolve grows_carry_one : grows.
Lemma grows_enqueue os : Grows (enqueue os).
Proof. unfold enqueue. grow. Qed.
#[local] Hint Resolve grows_enqueue : grows.
Lemma grows_carry l c t : Grows (carry_sealed_remainders views commitment cfg m l c t).
Proof. unfold carry_sealed_remainders. grow. Qed.
#[local] Hint Resolve grows_carry : grows.
Lemma grows_settle_height : Grows (settle_height views).
Proof. unfold settle_height. grow. Qed.
#[local] Hint Resolve grows_settle_height : grows.
Lemma grows_record_settled r a b st : Grows (record_settled views m r a b st).
Proof. unfold record_settled. grow. Qed.
#[local] Hint Resolve grows_record_settled : grows.
Lemma grows_finalize r : Grows (finalize_round views commitment cfg m r).
Proof. unfold finalize_round. grow. Qed.
#[local] Hint Resolve grows_finalize : grows.
Lemma grows_drain_one t k r : Grows (drain_one views commitment cfg m t k r).
Proof. unfold drain_one. grow. Qed.
#[local] Hint Resolve grows_drain_one : grows.
Lemma grows_drain t : Grows (drain_carry_retry views commitment cfg m t).
Proof. unfold drain_carry_retry. grow. Qed.
#[local] Hint Resolve grows_drain : grows.
Lemma grows_abandon r w t : Grows (abandon m r w t).
Proof. unfold abandon. grow. Qed.
#[local] Hint Resolve grows_abandon : grows.
Lemma grows_step_zombie t acc r : Grows (step_zombie views commitment cfg m t acc r).
Proof. unfold step_zombie. grow. Qed.
#[local] Hint Resolve grows_step_zombie : grows.
Lemma grows_resolve_zombies t : Grows (resolve_zombies views commitment cfg m t).
Proof. unfold resolve_zombies. grow. Qed.
#[local] Hint Resolve grows_resolve_zombies : grows.
Lemma grows_resolve_inflight r t : Grows (resolve_inflight views commitment cfg m r t).
Proof. unfold resolve_inflight. grow. Qed.
#[local] Hint Resolve grows_resolve_inflight : grows.
Lemma grows_resolve_market : Grows (resolve_market views commitment cfg m).
Proof. unfold resolve_market. grow. Qed.
#[local] Hint Resolve grows_resolve_market : grows.
Lemma grows_sealed_ready es v fe : Grows (sealed_ready_predicate es v fe).
Proof. unfold sealed_ready_predicate. grow. Qed.
#[local] Hint Resolve grows_sealed_ready : grows.
Lemma grows_requeue_unsent : Grows (requeue_unsent).
Proof. unfold requeue_unsent. grow. Qed.
#[local] Hint Resolve grows_requeue_unsent : grows.
Lemma grows_read_floors l : Grows (read_floors views l).
Proof. unfold read_floors. grow. Qed.
#[local] Hint Resolve grows_read_floors : grows.
Lemma grows_price_orders l : Grows (price_orders views m l).
Proof. unfold price_orders. grow. Qed.
#[local] Hint Resolve grows_price_orders : grows.
Lemma grows_reject_order t u d : Grows (reject_order views m t u d).
Proof. unfold reject_order. grow. Qed.
#[local] Hint Resolve grows_reject_order : grows.
Lemma grows_make_payload b q l1 l2 l3 r x : Grows (make_payload views commitment cfg m b q l1 l2 l3 r x).
Proof. unfold make_payload. grow. Qed.
#[local] Hint Resolve grows_make_payload : grows.
Lemma grows_keep_crossing l1 l2 l3 t : Grows (keep_crossing l1 l2 l3 t).
Proof. unfold keep_crossing. grow. Qed.
#[local] Hint Resolve grows_keep_crossing : grows.
Lemma grows_finish_round b q r l1 l2 l3 l4 : Grows (finish_round views commitment round_id cfg m b q r l1 l2 l3 l4).
Proof. unfold finish_round. grow. Qed.
#[local] Hint Resolve grows_finish_round : grows.
Lemma grows_assemble_round b q t r l1 p l2 l3 : Grows (assemble_round views commitment round_id cfg m b q t r l1 p l2 l3).
Proof. unfold assemble_round. grow. Qed.
#[local] Hint Resolve grows_assemble_round : grows.
Lemma grows_expire_order u o : Grows (expire_order m u o).
Proof. unfold expire_order. grow. Qed.
#[local] Hint Resolve grows_expire_order : grows.
Lemma grows_plan_and_take t l1 l2 n f : Grows (plan_and_take commitment cfg t l1 l2 n f).
Proof. unfold plan_and_take. grow. Qed.
#[local] Hint Resolve grows_plan_and_take : grows.
Lemma grows_send_round a b r p : Grows (send_round views m a b r p).
Proof. unfold send_round. grow. Qed.
#[local] Hint Resolve grows_send_round : grows.
Lemma grows_build_round b q : Grows (build_round views commitment round_id cfg m b q).
Proof. unfold build_round. grow. Qed.
#[local] Hint Resolve grows_build_round : grows.
Lemma grows_cancel_pending a i : Grows (cancel_pending views commitment m a i).
Proof. unfold cancel_pending. grow. Qed.
#[local] Hint Resolve grows_cancel_pending : grows.
Lemma grows_do_op o : Grows (do_op views commitment round_id cfg m o).
Proof. unfold do_op. grow. Qed.
#[local] Hint Resolve grows_do_op : grows.
End grows_ops.

#[export] Hint Resolve
  grows_time grows_storage grows_storage_final grows_submit grows_mstate
  grows_seq_floor grows_read_fin grows_advancing grows_landed_slot grows_see
  grows_landed_final grows_confirmed grows_round_dead grows_rival_landed grows_claim
  grows_unclaim grows_seal_material grows_post_carry_seal grows_carry_one grows_enqueue
  grows_carry grows_settle_height grows_record_settled grows_finalize grows_drain_one
  grows_drain grows_abandon grows_step_zombie grows_resolve_zombies grows_resolve_inflight
  grows_resolve_market
  grows_sealed_ready grows_requeue_unsent grows_read_floors grows_price_orders grows_reject_order
  grows_make_payload grows_keep_crossing grows_finish_round grows_send_round grows_assemble_round grows_expire_order grows_plan_and_take
  grows_build_round grows_cancel_pending grows_do_op : grows.

(** ** Triples *)
Section triples.
Context (good : list entry → Prop).
Context (good_prefix : ∀ l l', l `prefix_of` l' → good l' → good l).

(** From [P], a run of [c] whose final log is good ends in [Q] with its value, or in [E] with an
    exception. *)
Definition triple {A} (P : state → Prop) (c : M A) (Q : A → state → Prop) (E : state → Prop) : Prop :=
  ∀ s, P s → good (log (c s).2) → match c s with (Ok a, s') => Q a s' | (Raise _, s') => E s' end.

Lemma triple_conseq {A} (P P' : state → Prop) (c : M A) (Q Q' : A → state → Prop) (E E' : state → Prop) :
  triple P' c Q' E' → (∀ s, P s → P' s) → (∀ a s, Q' a s → Q a s) → (∀ s, E' s → E s) → triple P c Q E.
Proof. intros H HP HQ HE s Hs Hg. specialize (H s (HP s Hs) Hg). destruct (c s) as [[a|e] s']; auto. Qed.

(** The precondition may use that the log is good at the start. *)
Lemma triple_good {A} P (c : M A) Q E : Grows c → triple (λ s, P s ∧ good (log s)) c Q E → triple P c Q E.
Proof. intros Hg H s Hs Hl. apply H; [|done]. split; [done|]. eapply good_prefix; [apply Hg|done]. Qed.

(** A fact of the precondition that is not about the state. *)
Lemma triple_fact {A} (P : state → Prop) (φ : Prop) (c : M A) Q E :
  (φ → triple P c Q E) → triple (λ s, P s ∧ φ) c Q E.
Proof. intros H s [Hs Hf]. by apply H. Qed.

Lemma triple_ret {A} (P : state → Prop) (a : A) Q E : (∀ s, P s → good (log s) → Q a s) → triple P (mret a) Q E.
Proof. intros H s Hs Hg. by apply H. Qed.

Lemma triple_raise {A} (P : state → Prop) e (Q : A → state → Prop) (E : state → Prop) :
  (∀ s, P s → good (log s) → E s) → triple P (lift (Raise e)) Q E.
Proof. intros H s Hs Hg. by apply H. Qed.

Lemma triple_lift {A} (P : state → Prop) (r : result A) (Q : A → state → Prop) (E : state → Prop) :
  (∀ a s, r = Ok a → P s → Q a s) → (∀ s, P s → E s) → triple P (lift r) Q E.
Proof. intros H HE s Hs Hg. unfold lift. destruct r; [by apply H|by apply HE]. Qed.

Lemma triple_gets {A} (P : state → Prop) (f : state → A) Q E :
  (∀ s, P s → Q (f s) s) → triple P (gets f) Q E.
Proof. intros H s Hs Hg. by apply H. Qed.

Lemma triple_modify (P : state → Prop) f Q E :
  (∀ s, P s → good (log (f s)) → Q tt (f s)) → triple P (modify f) Q E.
Proof. intros H s Hs Hg. by apply H. Qed.

Lemma triple_bind {A B} P (c : M A) (f : A → M B) Q R E :
  (∀ a, Grows (f a)) → triple P c Q E → (∀ a, triple (Q a) (f a) R E) → triple P (c ≫= f) R E.
Proof.
  intros Hf Hc Hk s Hs Hg. unfold mbind, M_bind in *. specialize (Hc s Hs).
  destruct (c s) as [[a|e] s'] eqn:Ec; [|by apply Hc].
  assert (good (log s')) as Hgs. { eapply good_prefix; [apply Hf|done]. }
  exact (Hk a s' (Hc Hgs) Hg).
Qed.

Lemma triple_catch {A} P (c : M A) h Q E E' :
  (∀ e, Grows (h e)) → triple P c Q E' → (∀ e, triple E' (h e) Q E) → triple P (catch c h) Q E.
Proof.
  intros Hh Hc Hk s Hs Hg. unfold catch in *. specialize (Hc s Hs).
  destruct (c s) as [[a|e] s'] eqn:Ec; [by apply Hc|].
  assert (good (log s')) as Hgs. { eapply good_prefix; [apply Hh|done]. }
  exact (Hk e s' (Hc Hgs) Hg).
Qed.

Lemma triple_attempt {A} P (c : M A) Q E F :
  triple P c Q E → triple P (attempt c) (λ r s, match r with Ok a => Q a s | Raise _ => E s end) F.
Proof.
  intros Hc s Hs Hg. unfold attempt in *. specialize (Hc s Hs). destruct (c s) as [[a|e] s']; by apply Hc.
Qed.

(** Loops: an invariant on the accumulator and the items left. *)
Lemma triple_for_each {A B} (I : B → list A → state → Prop) (body : B → A → M B) E l acc :
  (∀ b x, Grows (body b x)) →
  (∀ b x rest, triple (I b (x :: rest)) (body b x) (λ b', I b' rest) E) →
  triple (I acc l) (for_each body acc l) (λ b, I b []) E.
Proof.
  intros Hg Hb. revert acc. induction l as [|x l IH]; intros acc.
  - by apply triple_ret.
  - cbn [for_each]. eapply triple_bind; [intros; by apply grows_for_each|apply Hb|done].
Qed.

(** Preservation: [P] before and after, exception or not. *)
Definition keeps {A} (P : state → Prop) (c : M A) : Prop := triple P c (λ _, P) P.

Lemma keeps_bind {A B} P (c : M A) (f : A → M B) :
  (∀ a, Grows (f a)) → keeps P c → (∀ a, keeps P (f a)) → keeps P (c ≫= f).
Proof. intros. by eapply triple_bind. Qed.
Lemma keeps_ret {A} P (a : A) : keeps P (mret a).
Proof. by apply triple_ret. Qed.
Lemma keeps_lift {A} P (r : result A) : keeps P (lift r).
Proof. apply triple_lift; auto. Qed.
Lemma keeps_gets {A} P (f : state → A) : keeps P (gets f).
Proof. by apply triple_gets. Qed.
Lemma keeps_modify P f : (∀ s, P s → P (f s)) → keeps P (modify f).
Proof. intros H. apply triple_modify. auto. Qed.
Lemma keeps_catch {A} P (c : M A) h :
  (∀ e, Grows (h e)) → keeps P c → (∀ e, keeps P (h e)) → keeps P (catch c h).
Proof. intros. by eapply triple_catch. Qed.
Lemma keeps_attempt {A} P (c : M A) : keeps P c → keeps P (attempt c).
Proof.
  intros H. eapply triple_conseq; [by apply triple_attempt| | |]; [done| |done].
  by intros [] s.
Qed.
Lemma keeps_for_each {A B} P (body : B → A → M B) l acc :
  (∀ b x, Grows (body b x)) → (∀ b x, keeps P (body b x)) → keeps P (for_each body acc l).
Proof. intros Hg H. apply (triple_for_each (λ _ _, P)); auto. intros. apply H. Qed.
End triples.
