(* ===== verification/RoundInv.v ===== *)
(** * No order is lost: the invariant

    The conservation invariant of Rounds.v: every order that entered the mempool is in exactly one
    place - queued, held by a build, in the round in flight (and not claimed from it), held by one
    released round that was seen landing, or ended exactly once - in every run whose landed reads are
    coherent ([coherent]). *)
From S2P Require Import Prelude Orders Clearing RoundPlan Batch Bytes Wire Telemetry Finality Executions Rounds RoundLogic.

(** ** Counting keys *)
Definition cnt (k : key) (l : list order) : Z := zsum (λ o, if decide (order_key o = k) then 1 else 0) l.
Definition sighted (z : round_rec) : Prop := is_Some (r_ok_since z).
#[global] Instance sighted_dec z : Decision (sighted z).
Proof. unfold sighted. apply _. Defined.

Definition unclaimed (r : round_rec) : list order :=
  filter (λ o, order_key o ∉ dom (r_claimed r)) (r_orders r).
Definition infl (k : key) (f : option round_rec) : Z :=
  match f with Some r => cnt k (unclaimed r) | None => 0 end.
Definition sight (D : gset positive) (k : key) (zs : list round_rec) : Z :=
  zsum (λ z, if decide (sighted z ∧ r_ref z ∉ D) then cnt k (r_orders z) else 0) zs.
Definition placed_n (k : key) (lg : list entry) : Z :=
  zsum (λ e, match e with LPlaced k' _ _ => if decide (k' = k) then 1 else 0 | _ => 0 end) lg.
Definition ended_n (k : key) (lg : list entry) : Z :=
  zsum (λ e, match e with LSettled _ k' | LEnded k' => if decide (k' = k) then 1 else 0 | _ => 0 end) lg.

(** ** Coherent runs

    What the conservation of orders relies on, read off the log of a run: order keys are fresh, an
    order object has one key, an api order has a new (account, oid); a round id names one set of
    orders; no round is read as landed while another that shares an order with it counts as landed
    ([live]: it was read as landed, and not found taken back since), and none is after an order of it
    ended otherwise; and the reads of [_rival_landed] do not fail.  A re-org may take a landing back
    and let a rival land, as long as the loss of the first is noticed first. *)
Definition live (lg : list entry) (x : bytes) (ks : gset key) : Prop :=
  ∃ l1 l2, lg = l1 ++ LSeen x ks :: l2 ∧ LGone x ∉ l2.

Record coherent (lg : list entry) : Prop := {
  co_once k : placed_n k lg ≤ 1;
  co_ref k1 k2 r b1 b2 : LPlaced k1 r b1 ∈ lg → LPlaced k2 r b2 ∈ lg → k1 = k2;
  co_api l1 l2 k r : lg = l1 ++ LPlaced k r true :: l2 → ∀ k' r' b, LPlaced k' r' b ∈ l1 → k'.1 ≠ k.1;
  co_id x ks1 ks2 : LSeen x ks1 ∈ lg → LSeen x ks2 ∈ lg → ks1 = ks2;
  co_rival l1 l2 x1 x2 ks1 ks2 : lg = l1 ++ LSeen x2 ks2 :: l2 → live l1 x1 ks1 → x1 ≠ x2 → ks1 ## ks2;
  co_dead l1 l2 x ks k : lg = l1 ++ LSeen x ks :: l2 → LEnded k ∈ l1 → k ∉ ks;
  co_reads : LRivalError ∉ lg
}.

(** ** The invariant *)
Definition recs (s : state) : list round_rec := records s.
Definition was_placed (o : order) (lg : list entry) : Prop := ∃ b, LPlaced (order_key o) (o_ref o) b ∈ lg.

(** [h]: the orders only a build holds; [D]: released rounds a running sweep is done with. *)
Record Inv (h : list order) (D : gset positive) (s : state) : Prop := {
  iv_count k : cnt k h + cnt k (pending s) + infl k (inflight s) + sight D k (zombies s) + ended_n k (log s)
               = placed_n k (log s);
  iv_held o : o ∈ h → valid_side o ∧ was_placed o (log s);
  iv_pending o : o ∈ pending s → valid_side o ∧ was_placed o (log s);
  iv_orders r o : r ∈ recs s → o ∈ r_orders r → valid_side o ∧ was_placed o (log s);
  iv_nodup r : r ∈ recs s → NoDup (map order_key (r_orders r));
  iv_seen r k : r ∈ recs s → sighted r → k ∈ keys r → live (log s) (r_rid r) (keys r);
  iv_refs : NoDup (map r_ref (recs s));
  iv_fresh r : r ∈ recs s → (r_ref r < next_ref s)%positive;
  iv_rid r1 r2 k : r1 ∈ recs s → r2 ∈ recs s → r_ref r1 ≠ r_ref r2 → k ∈ keys r1 → k ∈ keys r2 →
                   r_rid r1 ≠ r_rid r2;
  iv_claimed r k x : r ∈ recs s → r_claimed r !! k = Some x →
                   k ∈ keys r ∧ x ≠ r_rid r ∧ ∃ ks, live (log s) x ks ∧ k ∈ ks;
  iv_settled x k : LSettled x k ∈ log s → ∃ ks, live (log s) x ks ∧ k ∈ ks;
  iv_gone r x k : r ∈ recs s → r_ref r ∉ D → k ∈ keys r → LSettled x k ∈ log s → x ≠ r_rid r;
  iv_retry o : o ∈ carry_retry s → valid_side o;
  iv_claimer r k x : r ∈ recs s → r_claimed r !! k = Some x →
                   (∃ z, z ∈ zombies s ∧ sighted z ∧ r_rid z = x ∧ k ∈ keys z) ∨ LSettled x k ∈ log s;
  iv_read r : r ∈ recs s → sighted r → LSeen (r_rid r) (keys r) ∈ log s
}.

(** ** Facts about counts *)
Lemma cnt_nonneg k l : 0 ≤ cnt k l.
Proof. apply zsum_nonneg. intros. case_decide; lia. Qed.

Lemma cnt_app k l1 l2 : cnt k (l1 ++ l2) = cnt k l1 + cnt k l2.
Proof. apply zsum_app. Qed.

#[global] Instance cnt_perm k : Proper ((≡ₚ) ==> (=)) (cnt k).
Proof. unfold cnt. apply _. Qed.

Lemma cnt_pos k l : 0 < cnt k l ↔ ∃ o, o ∈ l ∧ order_key o = k.
Proof.
  induction l as [|o l IH]; [cbn; split; [lia|intros (o & Ho & _); set_solver]|].
  unfold cnt in *. rewrite zsum_cons. fold (cnt k l) in *. pose proof (cnt_nonneg k l).
  case_decide as E.
  - split; [intros _; exists o; set_solver|lia].
  - rewrite Z.add_0_l, IH. set_solver.
Qed.

Lemma cnt_zero k l : cnt k l = 0 ↔ ∀ o, o ∈ l → order_key o ≠ k.
Proof.
  pose proof (cnt_nonneg k l) as Hn. pose proof (cnt_pos k l) as Hp. split.
  - intros E o Ho Ek. assert (0 < cnt k l) by (apply Hp; eauto). lia.
  - intros H. assert (¬ 0 < cnt k l); [|lia]. rewrite Hp. intros (o & Ho & Ek). by apply (H o).
Qed.

Lemma cnt_one k l : NoDup (map order_key l) → (∃ o, o ∈ l ∧ order_key o = k) → cnt k l = 1.
Proof.
  induction l as [|o l IH]; intros Hnd (o' & Ho & E); [set_solver|]. cbn in Hnd. apply NoDup_cons in Hnd as [Hni Hnd].
  unfold cnt. rewrite zsum_cons. fold (cnt k l). case_decide as Eo.
  - assert (cnt k l = 0) as ->; [|lia]. apply cnt_zero. intros x Hx Ex. apply Hni. rewrite Eo, <- Ex.
    by apply list_elem_of_fmap_2.
  - rewrite IH; [lia|done|]. exists o'. set_solver.
Qed.

Lemma cnt_filter_in k (P : order → Prop) `{!∀ o, Decision (P o)} l :
  (∀ o, o ∈ l → order_key o = k → P o) → cnt k (filter P l) = cnt k l.
Proof.
  induction l as [|o l IH]; intros Hf; [done|]. rewrite filter_cons. case_decide as HP; unfold cnt in *; rewrite ?zsum_cons.
  - rewrite IH; [done|]. set_solver.
  - case_decide as E; [exfalso; apply HP, Hf; set_solver|]. rewrite IH; [lia|set_solver].
Qed.

Lemma cnt_filter_out k (P : order → Prop) `{!∀ o, Decision (P o)} l :
  (∀ o, o ∈ l → order_key o = k → ¬ P o) → cnt k (filter P l) = 0.
Proof. intros Hf. apply cnt_zero. intros o [HP Ho]%list_elem_of_filter E. by apply (Hf o). Qed.

Lemma cnt_filter_ext k (P Q : order → Prop) `{!∀ o, Decision (P o), !∀ o, Decision (Q o)} l :
  (∀ o, o ∈ l → order_key o = k → P o ↔ Q o) → cnt k (filter P l) = cnt k (filter Q l).
Proof.
  induction l as [|o l IH]; intros Hf; [done|].
  assert (cnt k (filter P l) = cnt k (filter Q l)) as E by (apply IH; set_solver).
  destruct (decide (order_key o = k)) as [Ek|Ek].
  - assert (P o ↔ Q o) by (apply Hf; set_solver). rewrite !filter_cons. repeat case_decide; try tauto.
    unfold cnt in *. rewrite !zsum_cons, E. done.
  - rewrite !filter_cons. unfold cnt in *. repeat case_decide; rewrite ?zsum_cons, ?decide_False by done; lia.
Qed.

Lemma elem_of_keys k r : k ∈ keys r ↔ ∃ o, o ∈ r_orders r ∧ order_key o = k.
Proof.
  unfold keys. rewrite elem_of_list_to_set, list_elem_of_fmap. naive_solver.
Qed.

Lemma cnt_keys k r : k ∉ keys r ↔ cnt k (r_orders r) = 0.
Proof. rewrite elem_of_keys, cnt_zero. naive_solver. Qed.

Lemma cnt_keys_one k r : NoDup (map order_key (r_orders r)) → k ∈ keys r → cnt k (r_orders r) = 1.
Proof. intros Hnd Hk. apply cnt_one; [done|]. by apply elem_of_keys. Qed.

Lemma infl_nonneg k f : 0 ≤ infl k f.
Proof. destruct f; cbn; [apply cnt_nonneg|lia]. Qed.
Lemma sight_nonneg D k zs : 0 ≤ sight D k zs.
Proof. apply zsum_nonneg. intros. case_decide; [apply cnt_nonneg|lia]. Qed.
Lemma placed_nonneg k lg : 0 ≤ placed_n k lg.
Proof. apply zsum_nonneg. intros [] _; try case_decide; lia. Qed.
Lemma ended_nonneg k lg : 0 ≤ ended_n k lg.
Proof. apply zsum_nonneg. intros [] _; try case_decide; lia. Qed.

Lemma placed_app k l1 l2 : placed_n k (l1 ++ l2) = placed_n k l1 + placed_n k l2.
Proof. apply zsum_app. Qed.
Lemma ended_app k l1 l2 : ended_n k (l1 ++ l2) = ended_n k l1 + ended_n k l2.
Proof. apply zsum_app. Qed.

Lemma placed_pos k r b lg : LPlaced k r b ∈ lg → 1 ≤ placed_n k lg.
Proof.
  intros H. etrans; [|apply (zsum_elem_le _ _ (LPlaced k r b))]; [|intros [] _; try case_decide; lia|done].
  cbn. rewrite decide_True by done. done.
Qed.

Lemma ended_pos k lg : (LEnded k ∈ lg ∨ ∃ x, LSettled x k ∈ lg) → 1 ≤ ended_n k lg.
Proof.
  assert (∀ e, e ∈ lg → (match e with LSettled _ k' | LEnded k' => if decide (k' = k) then 1 else 0 | _ => 0 end) ≤ ended_n k lg) as H.
  { intros e He. apply (zsum_elem_le (λ e, match e with LSettled _ k' | LEnded k' => if decide (k' = k) then 1 else 0 | _ => 0 end)); [|done].
    intros [] _; try case_decide; lia. }
  intros [He|[x He]]; specialize (H _ He); cbn in H; rewrite decide_True in H by done; done.
Qed.

Lemma ended_zero k lg : LEnded k ∉ lg → (∀ x, LSettled x k ∉ lg) → ended_n k lg = 0.
Proof.
  intros H1 H2. apply zsum_zero. intros [] He; try done; case_decide; subst; try done. by destruct (H2 rid).
Qed.

Lemma sight_pos D k zs z : z ∈ zs → sighted z → r_ref z ∉ D → k ∈ keys z → 1 ≤ sight D k zs.
Proof.
  intros Hz Hs HD Hk.
  etrans; [|apply (zsum_elem_le _ _ z); [|done]].
  - cbn. rewrite decide_True by done. apply elem_of_keys in Hk. pose proof (cnt_pos k (r_orders z)) as [_ H]. specialize (H Hk). lia.
  - intros y _. cbn. case_decide; [apply cnt_nonneg|lia].
Qed.

Lemma sight_zero D k zs : (∀ z, z ∈ zs → sighted z → r_ref z ∉ D → k ∉ keys z) → sight D k zs = 0.
Proof.
  intros H. apply zsum_zero. intros z Hz. case_decide as E; [|done]. apply cnt_keys. apply H; tauto.
Qed.

(** ** Rounds that count as landed *)
Lemma live_app lg l x ks : live lg x ks → LGone x ∉ l → live (lg ++ l) x ks.
Proof.
  intros (l1 & l2 & -> & Hn) Hl. exists l1, (l2 ++ l). split; [by rewrite <- (assoc_L (++))|]. set_solver.
Qed.

Lemma live_seen lg x ks : live lg x ks → LSeen x ks ∈ lg.
Proof. intros (l1 & l2 & -> & _). set_solver. Qed.

Lemma live_last l x ks : live (l ++ [LSeen x ks]) x ks.
Proof. exists l, []. split; [done|set_solver]. Qed.

(** Two places in a list. *)
Lemma split_two {A} (a1 b1 a2 b2 : list A) e1 e2 :
  a1 ++ e1 :: b1 = a2 ++ e2 :: b2 →
  (e1 = e2 ∧ b1 = b2) ∨ (∃ c, a2 = a1 ++ e1 :: c ∧ b1 = c ++ e2 :: b2) ∨
  (∃ c, a1 = a2 ++ e2 :: c ∧ b2 = c ++ e1 :: b1).
Proof.
  revert a2. induction a1 as [|x a1 IH]; intros [|y a2] E; cbn in E; injection E as -> E.
  - by left.
  - right; left. exists a2. by subst.
  - right; right. exists a1. by subst.
  - destruct (IH _ E) as [?|[(c & -> & ->)|(c & -> & ->)]]; [by left|right; left|right; right]; eauto.
Qed.

(** ** Coherence is closed under prefixes *)
Lemma coherent_prefix l l' : l `prefix_of` l' → coherent l' → coherent l.
Proof.
  intros [r ->] [H1 H2 H3 H4 H5 H6 H7]. split.
  - intros k. specialize (H1 k). rewrite placed_app in H1. pose proof (placed_nonneg k r). lia.
  - intros k1 k2 x b1 b2 ? ?. eapply H2; apply elem_of_app; left; eassumption.
  - intros l1 l2 k x -> . apply (H3 l1 (l2 ++ r) k x). by rewrite <- (assoc_L (++)).
  - intros x ks1 ks2 ? ?. eapply H4; apply elem_of_app; left; eassumption.
  - intros l1 l2 x1 x2 ks1 ks2 ->. apply (H5 l1 (l2 ++ r) x1 x2 ks1 ks2). by rewrite <- (assoc_L (++)).
  - intros l1 l2 x ks k ->. apply (H6 l1 (l2 ++ r) x ks k). by rewrite <- (assoc_L (++)).
  - set_solver.
Qed.

(** Of the rounds that share an order, one counts as landed. *)
Lemma live_same lg x1 x2 ks1 ks2 k :
  coherent lg → live lg x1 ks1 → live lg x2 ks2 → k ∈ ks1 → k ∈ ks2 → x1 = x2.
Proof.
  intros Hc (a1 & b1 & E1 & H1) (a2 & b2 & E2 & H2) Hk1 Hk2.
  destruct (decide (x1 = x2)) as [|Hne]; [done|]. exfalso. pose proof E2 as E. rewrite E1 in E.
  apply split_two in E as [[[= ? _] _]|[(c & -> & ->)|(c & -> & ->)]]; [done|..].
  - assert (live (a1 ++ LSeen x1 ks1 :: c) x1 ks1) as Hl by (exists a1, c; set_solver).
    pose proof (co_rival _ Hc _ _ _ _ _ _ E2 Hl Hne). set_solver.
  - assert (live (a2 ++ LSeen x2 ks2 :: c) x2 ks2) as Hl by (exists a2, c; set_solver).
    pose proof (co_rival _ Hc _ _ _ _ _ _ E1 Hl (not_eq_sym Hne)). set_solver.
Qed.

(** ** What only reads the world keeps the invariant *)

(** Entries that are not orders entering or ending. *)
Definition neutral (e : entry) : Prop :=
  match e with LEff _ | LSubmit _ | LRivalError | LSeen _ _ => True | _ => False end.

Definition same_core (s s' : state) : Prop :=
  pending s' = pending s ∧ inflight s' = inflight s ∧ zombies s' = zombies s ∧ log s' = log s ∧
  next_ref s' = next_ref s ∧ taken s' = taken s ∧ ended s' = ended s ∧ carry_retry s' = carry_retry s.

Record stable (P : state → Prop) : Prop := {
  st_arrive s os : P s → coherent (log (with_tick (arrive os s))) → (∀ p, p ∈ os → valid_side p.1) →
                   P (with_tick (arrive os s));
  st_core s s' : P s → same_core s s' → P s';
  st_log s l : P s → Forall neutral l → P (with_log l s);
  st_retry s o : P s → valid_side o → P (with_retry (carry_retry s ++ [o]) s)
}.

Notation keep := (keeps coherent).

Section reads.
Context (views : nat → view) (commitment round_id : bytes → bytes) (cfg : config) (m : Z).
Hypothesis arrivals_ok : ∀ n p, p ∈ v_arrivals (views n) → valid_side p.1.
Context (P : state → Prop) (HP : stable P).

Lemma keep_core f : (∀ s, same_core s (f s)) → keep P (modify f).
Proof. intros H. apply keeps_modify. intros s Hs. by eapply st_core. Qed.

Lemma keep_log l : Forall neutral l → keep P (add_log l).
Proof. intros H. apply keeps_modify. intros s Hs. by apply st_log. Qed.

Lemma keep_effects l : keep P (effects l).
Proof. apply keep_log. apply Forall_forall. intros e (x & -> & _)%list_elem_of_fmap. done. Qed.

Lemma keep_observe {A} (f : view → A) : keep P (observe views f).
Proof. intros s Hs Hg. cbn in *. apply st_arrive; auto. intros p Hp. by eapply arrivals_ok. Qed.
End reads.

(** Proves [keep P c] by following the program's structure. *)
Create HintDb keeps discriminated.
Ltac keep_step :=
  first
    [ progress intros
    | solve [auto with keeps nocore]
    | apply keeps_ret | apply keeps_lift | apply keeps_gets
    | apply keep_effects; assumption
    | apply keep_observe; assumption
    | apply keeps_bind; [exact coherent_prefix| |  |]
    | apply keeps_catch; [exact coherent_prefix| |  |]
    | apply keeps_attempt
    | apply keeps_for_each; [exact coherent_prefix| |]
    | match goal with |- keep _ (match ?x with _ => _ end) => destruct x end
    | match goal with |- Grows _ => solve [grow] end
    | apply keep_log; [assumption|]; by repeat constructor
    | apply keep_core; [assumption|]; intros; repeat case_match; done ].
Ltac keep_tac := repeat keep_step.

Section read_ops.
Context (views : nat → view) (commitment round_id : bytes → bytes) (cfg : config) (m : Z).
Hypothesis arrivals_ok : ∀ n p, p ∈ v_arrivals (views n) → valid_side p.1.
Context (P : state → Prop) (HP : stable P).

Lemma keep_time : keep P (time views).
Proof. unfold time. keep_tac. Qed.
#[local] Hint Resolve keep_time : keeps.
Lemma keep_storage k : keep P (storage views k).
Proof. unfold storage. keep_tac. Qed.
#[local] Hint Resolve keep_storage : keeps.
Lemma keep_storage_final k : keep P (storage_final views k).
Proof. unfold storage_final. keep_tac. Qed.
#[local] Hint Resolve keep_storage_final : keeps.
Lemma keep_submit p : keep P (submit views p).
Proof. unfold submit. keep_tac. Qed.
#[local] Hint Resolve keep_submit : keeps.
Lemma keep_mstate p : keep P (mstate views m p).
Proof. unfold mstate. keep_tac. Qed.
#[local] Hint Resolve keep_mstate : keeps.
Lemma keep_seq_floor a : keep P (seq_floor views a).
Proof. unfold seq_floor. keep_tac. Qed.
#[local] Hint Resolve keep_seq_floor : keeps.
Lemma keep_read_fin t : keep P (read_fin views t).
Proof. unfold read_fin. keep_tac. Qed.
#[local] Hint Resolve keep_read_fin : keeps.
Lemma keep_advancing t : keep P (advancing views t).
Proof. unfold advancing. keep_tac. Qed.
#[local] Hint Resolve keep_advancing : keeps.
Lemma keep_landed_slot r : keep P (landed_slot views r).
Proof. unfold landed_slot. keep_tac. Qed.
#[local] Hint Resolve keep_landed_slot : keeps.
Lemma keep_see r : keep P (see views r).
Proof. unfold see. keep_tac. Qed.
#[local] Hint Resolve keep_see : keeps.
Lemma keep_landed_final r : keep P (landed_final views r).
Proof. unfold landed_final. keep_tac. Qed.
#[local] Hint Resolve keep_landed_final : keeps.
Lemma keep_confirmed r t : keep P (confirmed views cfg r t).
Proof. unfold confirmed. keep_tac. Qed.
Lemma keep_round_dead r : keep P (round_dead views commitment m r).
Proof. unfold round_dead. keep_tac. Qed.
Lemma keep_rival_landed r : keep P (rival_landed views r).
Proof. unfold rival_landed. keep_tac. Qed.
Lemma keep_settle_height : keep P (settle_height views).
Proof. unfold settle_height. keep_tac. Qed.
#[local] Hint Resolve keep_settle_height : keeps.
Lemma keep_record_settled r a b st : keep P (record_settled views m r a b st).
Proof. unfold record_settled. keep_tac. Qed.
Lemma keep_seal_material o : keep P (seal_material views commitment cfg o).
Proof. unfold seal_material. keep_tac. Qed.
#[local] Hint Resolve keep_seal_material : keeps.
Lemma keep_post_carry_seal o : keep P (post_carry_seal views commitment cfg m o).
Proof. unfold post_carry_seal. keep_tac. Qed.
#[local] Hint Resolve keep_post_carry_seal : keeps.
Lemma keep_read_floors l : keep P (read_floors views l).
Proof. unfold read_floors. keep_tac. Qed.
Lemma keep_make_payload b q l1 l2 l3 r x : keep P (make_payload views commitment cfg m b q l1 l2 l3 r x).
Proof. unfold make_payload. keep_tac. Qed.
Lemma keep_sealed_ready es v fe : keep P (sealed_ready_predicate es v fe).
Proof. unfold sealed_ready_predicate. keep_tac. Qed.
End read_ops.
#[export] Hint Resolve keep_time keep_storage keep_storage_final keep_submit keep_mstate keep_seq_floor
  keep_read_fin keep_advancing keep_landed_slot keep_see keep_landed_final keep_confirmed keep_round_dead
  keep_rival_landed keep_settle_height keep_record_settled keep_seal_material keep_post_carry_seal
  keep_read_floors keep_make_payload keep_sealed_ready : keeps.

(** ** The invariant is stable *)
Lemma inv_log h D s l : Inv h D s → Forall neutral l → Inv h D (with_log l s).
Proof.
  intros HI Hl. rewrite Forall_forall in Hl.
  assert (Hp : ∀ k, placed_n k l = 0) by (intros k; apply zsum_zero; intros [] He; try done; by destruct (Hl _ He)).
  assert (He : ∀ k, ended_n k l = 0) by (intros k; apply zsum_zero; intros [] Hx; try done; by destruct (Hl _ Hx)).
  destruct HI as [H1 H2 H3 H4 H5 H6 H7 H8 H9 H10 H11 H12 H13 H14 H15]. unfold was_placed in *.
  split; cbn [pending inflight zombies log next_ref with_log recs]; unfold was_placed; try done.
  - intros k. rewrite placed_app, ended_app, Hp, He. specialize (H1 k). lia.
  - intros o Ho. destruct (H2 o Ho) as [? [b ?]]. split; [done|]. exists b. set_solver.
  - intros o Ho. destruct (H3 o Ho) as [? [b ?]]. split; [done|]. exists b. set_solver.
  - intros r o Hr Ho. destruct (H4 r o Hr Ho) as [? [b ?]]. split; [done|]. exists b. set_solver.
  - intros r k Hr Hs Hk. apply live_app; [eauto|]. by intros Hx%Hl.
  - intros r k x Hr Hx. destruct (H10 r k x Hr Hx) as (? & ? & ks & ? & ?). split_and!; [done..|]. exists ks.
    split; [|done]. apply live_app; [done|]. by intros Hg%Hl.
  - intros x k [Hx|Hx]%elem_of_app; [|by destruct (Hl _ Hx)]. destruct (H11 x k Hx) as (ks & ? & ?). exists ks.
    split; [|done]. apply live_app; [done|]. by intros Hg%Hl.
  - intros r x k Hr HD Hk [Hx|Hx]%elem_of_app; [|by destruct (Hl _ Hx)]. by eapply H12.
  - intros r k x Hr Hx. destruct (H14 r k x Hr Hx) as [?|?]; [by left|right; set_solver].
  - intros r Hr Hs. apply elem_of_app. left. auto.
Qed.

(** Orders entering the mempool. *)
Lemma inv_enqueue h D s (os : list order) f :
  Inv h D s → (∀ o, o ∈ os → valid_side o) →
  Inv h D (with_log (map (λ o, LPlaced (order_key o) (o_ref o) f) os) (with_pending (λ l, l ++ os) s)).
Proof.
  intros [H1 H2 H3 H4 H5 H6 H7 H8 H9 H10 H11 H12 H13 H14 H15] Hos. unfold was_placed in *.
  set (l := map _ os).
  assert (Hp : ∀ k, placed_n k l = cnt k os).
  { intros k. unfold l, placed_n, cnt. clear. induction os as [|o os IH]; [done|]. cbn [map]. rewrite !zsum_cons, IH. done. }
  assert (He : ∀ k, ended_n k l = 0).
  { intros k. apply zsum_zero. intros e (o & -> & _)%list_elem_of_fmap. done. }
  assert (Hn : ∀ x k, LSettled x k ∉ l) by (intros x k (o & ? & _)%list_elem_of_fmap; done).
  assert (Hg : ∀ x, LGone x ∉ l) by (intros x (o & ? & _)%list_elem_of_fmap; done).
  split; cbn [pending inflight zombies log next_ref with_log with_pending recs]; unfold was_placed; try done.
  - intros k. rewrite placed_app, ended_app, cnt_app, Hp, He. specialize (H1 k). lia.
  - intros o Ho. destruct (H2 o Ho) as [? [b ?]]. split; [done|]. exists b. set_solver.
  - intros o [Ho|Ho]%elem_of_app; [destruct (H3 o Ho) as [? [b ?]]; split; [done|]; exists b; set_solver|].
    split; [by apply Hos|]. exists f. apply elem_of_app. right. apply list_elem_of_fmap. by exists o.
  - intros r o Hr Ho. destruct (H4 r o Hr Ho) as [? [b ?]]. split; [done|]. exists b. set_solver.
  - intros r k Hr Hs Hk. apply live_app; eauto.
  - intros r k x Hr Hx. destruct (H10 r k x Hr Hx) as (? & ? & ks & ? & ?). split_and!; [done..|]. exists ks.
    auto using live_app.
  - intros x k [Hx|Hx]%elem_of_app; [|by destruct (Hn x k)]. destruct (H11 x k Hx) as (ks & ? & ?). exists ks.
    auto using live_app.
  - intros r x k Hr HD Hk [Hx|Hx]%elem_of_app; [|by destruct (Hn x k)]. by eapply H12.
  - intros r k x Hr Hx. destruct (H14 r k x Hr Hx) as [?|?]; [by left|right; set_solver].
  - intros r Hr Hs. apply elem_of_app. left. auto.
Qed.

(** The invariant does not look at the build's locals. *)
Lemma inv_locals h D s s' :
  Inv h D s → pending s' = pending s → inflight s' = inflight s → zombies s' = zombies s → log s' = log s →
  next_ref s' = next_ref s → carry_retry s' = carry_retry s → Inv h D s'.
Proof.
  intros [H1 H2 H3 H4 H5 H6 H7 H8 H9 H10 H11 H12 H13 H14 H15] E1 E2 E3 E4 E5 E8.
  assert (Er : recs s' = recs s) by (unfold recs, records; by rewrite E2, E3).
  split; rewrite ?Er, ?E1, ?E2, ?E3, ?E4, ?E5, ?E8; try done.
Qed.

Lemma inv_core h D s s' : Inv h D s → same_core s s' → Inv h D s'.
Proof. intros HI (E1 & E2 & E3 & E4 & E5 & _ & _ & E8). by eapply inv_locals. Qed.

Lemma inv_stable h D : stable (Inv h D).
Proof.
  split; [|apply inv_core|apply inv_log|].
  2: { intros s o HI Ho. destruct HI as [H1 H2 H3 H4 H5 H6 H7 H8 H9 H10 H11 H12 H13 H14 H15]. split; try done.
       cbn. intros x [Hx| ->%list_elem_of_singleton]%elem_of_app; auto. }
  intros s os HI _ Hos.
  eapply inv_core; [apply (inv_enqueue h D s (map fst os) true HI)|].
  - intros o (p & -> & Hp)%list_elem_of_fmap. auto.
  - unfold same_core. cbn. rewrite !List.map_map. done.
Qed.

Lemma stable_and P Q : stable P → stable Q → stable (λ s, P s ∧ Q s).
Proof.
  intros [P1 P2 P3 P4] [Q1 Q2 Q3 Q4]. split.
  - intros s os [? ?] ? ?. auto.
  - intros s s' [? ?] ?. eauto.
  - intros s l [? ?] ?. auto.
  - intros s o [? ?] ?. auto.
Qed.

(** Facts about the tracked rounds and the build's locals. *)
Lemma stable_rest (F : option round_rec → list round_rec → positive → list order → gset key → Prop) :
  stable (λ s, F (inflight s) (zombies s) (next_ref s) (taken s) (ended s)).
Proof.
  split; [done| |done|done]. intros s s' HF (_ & -> & -> & _ & -> & -> & -> & _). done.
Qed.

Lemma neutral_not_gone l x : Forall neutral l → LGone x ∉ l.
Proof. intros H Hx. rewrite Forall_forall in H. exact (H _ Hx). Qed.

Lemma stable_in_log e : stable (λ s, e ∈ log s).
Proof.
  split.
  - intros s os He _ _. cbn. set_solver.
  - intros s s' He (_ & _ & _ & -> & _). done.
  - intros s l He _. cbn. set_solver.
  - done.
Qed.

Lemma stable_all {A} (P : A → state → Prop) : (∀ a, stable (P a)) → stable (λ s, ∀ a, P a s).
Proof.
  intros HP. split.
  - intros s os Hs Hc Ho a. by apply (st_arrive _ (HP a)).
  - intros s s' Hs Hc a. by eapply (st_core _ (HP a)).
  - intros s l Hs Hl a. by apply (st_log _ (HP a)).
  - intros s o Hs Ho a. by apply (st_retry _ (HP a)).
Qed.

Lemma stable_imp (A : Prop) (P : state → Prop) : stable P → stable (λ s, A → P s).
Proof.
  intros [P1 P2 P3 P4]. split; intros; [apply P1|eapply P2|apply P3|apply P4]; eauto.
Qed.

(** Every order of [r] was settled by it. *)
Definition all_settled (r : round_rec) (s : state) : Prop := ∀ k, k ∈ keys r → LSettled (r_rid r) k ∈ log s.
Lemma stable_settled r : stable (all_settled r).
Proof. apply stable_all. intros k. apply stable_imp, stable_in_log. Qed.

Lemma stable_live x ks : stable (λ s, live (log s) x ks).
Proof.
  split.
  - intros s os He _ _. apply live_app; [done|]. intros (p & ? & _)%list_elem_of_fmap. done.
  - intros s s' He (_ & _ & _ & -> & _). done.
  - intros s l He Hl. by apply live_app, neutral_not_gone.
  - done.
Qed.

(** ** In-place updates of the tracked rounds *)
Record keeps_orders (g : round_rec → round_rec) : Prop := {
  ko_ref r : r_ref (g r) = r_ref r;
  ko_orders r : r_orders (g r) = r_orders r;
  ko_rid r : r_rid (g r) = r_rid r
}.
Definition map_recs (g : round_rec → round_rec) (s : state) : state :=
  with_zombies (map g) (with_inflight (g <$> inflight s) s).

Lemma ko_keys g r : keeps_orders g → keys (g r) = keys r.
Proof. intros Hg. unfold keys. by rewrite (ko_orders g Hg). Qed.

Lemma recs_map g s : recs (map_recs g s) = map g (recs s).
Proof. unfold recs, records. cbn. destruct (inflight s); done. Qed.

Lemma inv_map h h' D s g pf :
  keeps_orders g → Inv h D s →
  (∀ k, cnt k h' + cnt k (pf (pending s)) + infl k (g <$> inflight s) + sight D k (map g (zombies s))
        + ended_n k (log s) = placed_n k (log s)) →
  (∀ o, o ∈ h' ++ pf (pending s) → o ∈ h ∨ o ∈ pending s ∨ ∃ r, r ∈ recs s ∧ o ∈ r_orders r) →
  (∀ r, r ∈ recs s → sighted (g r) →
     LSeen (r_rid r) (keys r) ∈ log s ∧ ∀ k, k ∈ keys r → live (log s) (r_rid r) (keys r)) →
  (∀ r k x, r ∈ recs s → r_claimed (g r) !! k = Some x →
     (k ∈ keys r ∧ x ≠ r_rid r ∧ ∃ ks, live (log s) x ks ∧ k ∈ ks) ∧
     ((∃ z, z ∈ zombies s ∧ sighted (g z) ∧ r_rid z = x ∧ k ∈ keys z) ∨ LSettled x k ∈ log s)) →
  Inv h' D (with_pending pf (map_recs g s)).
Proof.
  intros Hg HI Hcnt Hos Hseen Hcl. pose proof (recs_map g s) as Er.
  assert (Hgood : ∀ o, o ∈ h' ++ pf (pending s) → valid_side o ∧ was_placed o (log s)).
  { intros o Ho. destruct (Hos o Ho) as [?|[?|(r & ? & ?)]].
    - by apply (iv_held _ _ _ HI).
    - by apply (iv_pending _ _ _ HI).
    - by eapply (iv_orders _ _ _ HI). }
  split; try change (recs (with_pending pf (map_recs g s))) with (recs (map_recs g s)); rewrite ?Er;
    cbn [pending inflight zombies log next_ref with_pending map_recs with_zombies with_inflight].
  - done.
  - intros o Ho. apply Hgood. set_solver.
  - intros o Ho. apply Hgood. set_solver.
  - intros r o (r' & -> & Hr)%list_elem_of_fmap. rewrite (ko_orders g Hg). by apply (iv_orders _ _ _ HI).
  - intros r (r' & -> & Hr)%list_elem_of_fmap. rewrite (ko_orders g Hg). by apply (iv_nodup _ _ _ HI).
  - intros r k (r' & -> & Hr)%list_elem_of_fmap. rewrite (ko_rid g Hg), (ko_keys g _ Hg). intros Hs. by apply Hseen.
  - rewrite List.map_map. rewrite (List.map_ext _ r_ref) by apply (ko_ref g Hg). apply HI.
  - intros r (r' & -> & Hr)%list_elem_of_fmap. rewrite (ko_ref g Hg). by apply (iv_fresh _ _ _ HI).
  - intros r1 r2 k (x1 & -> & Hx1)%list_elem_of_fmap (x2 & -> & Hx2)%list_elem_of_fmap.
    rewrite !(ko_ref g Hg), !(ko_keys g _ Hg), !(ko_rid g Hg). by apply (iv_rid _ _ _ HI).
  - intros r k x (r' & -> & Hr)%list_elem_of_fmap. rewrite (ko_keys g _ Hg), (ko_rid g Hg). intros Hx. by apply Hcl.
  - apply (iv_settled _ _ _ HI).
  - intros r x k (r' & -> & Hr)%list_elem_of_fmap. rewrite (ko_ref g Hg), (ko_keys g _ Hg), (ko_rid g Hg).
    by apply (iv_gone _ _ _ HI).
  - apply (iv_retry _ _ _ HI).
  - intros r k x (r' & -> & Hr)%list_elem_of_fmap Hx. destruct (Hcl r' k x Hr Hx) as [_ [(z & Hz & Hs & Ez & Hk)|?]]; [left|by right].
    exists (g z). rewrite (ko_rid g Hg), (ko_keys g _ Hg). split_and!; [by apply list_elem_of_fmap_2|done..].
  - intros r (r' & -> & Hr)%list_elem_of_fmap Hs. rewrite (ko_rid g Hg), (ko_keys g _ Hg). by apply Hseen.
Qed.

Lemma infl_map g k f :
  keeps_orders g → (∀ r, f = Some r → dom (r_claimed (g r)) = dom (r_claimed r)) → infl k (g <$> f) = infl k f.
Proof.
  intros Hg H. destruct f as [r|]; [|done]. cbn. unfold unclaimed. by rewrite (ko_orders g Hg), (H r eq_refl).
Qed.

Lemma sight_map g D k zs :
  keeps_orders g → (∀ z, z ∈ zs → sighted (g z) ↔ sighted z) → sight D k (map g zs) = sight D k zs.
Proof.
  intros Hg H. unfold sight. induction zs as [|z zs IH]; [done|]. cbn [map]. rewrite !zsum_cons, IH by set_solver.
  rewrite (ko_orders g Hg), (ko_ref g Hg). f_equal.
  assert (sighted (g z) ↔ sighted z) by (apply H; set_solver). repeat case_decide; tauto.
Qed.

Lemma zombie_rec s z : z ∈ zombies s → z ∈ recs s.
Proof. unfold recs, records. set_solver. Qed.

(** Timestamps that are not sightings of released rounds. *)
Lemma inv_stamp h D s g :
  keeps_orders g → (∀ r, r ∈ recs s → r_claimed (g r) = r_claimed r) →
  (∀ z, z ∈ zombies s → r_ok_since (g z) = r_ok_since z) →
  (∀ r, inflight s = Some r → sighted (g r) → live (log s) (r_rid r) (keys r)) →
  Inv h D s → Inv h D (map_recs g s).
Proof.
  intros Hg Hc Hok Hfl HI. eapply inv_core.
  - apply (inv_map h h D s g (λ l, l) Hg HI).
    + intros k. rewrite infl_map, sight_map; [apply HI|done| |done|].
      * intros z Hz. unfold sighted. by rewrite Hok.
      * intros r E. rewrite Hc; [done|]. unfold recs, records. rewrite E. set_solver.
    + intros o [?|?]%elem_of_app; auto.
    + intros r Hr Hs. unfold recs, records in Hr. apply elem_of_app in Hr as [Hr|Hr].
      * destruct (inflight s) as [f|]; [|set_solver]. apply list_elem_of_singleton in Hr as ->.
        specialize (Hfl f eq_refl Hs). auto using live_seen.
      * unfold sighted in Hs. rewrite Hok in Hs by done. apply zombie_rec in Hr.
        split; [by apply (iv_read _ _ _ HI)|intros k; by apply (iv_seen _ _ _ HI)].
    + intros r k x Hr. rewrite Hc by done. intros Hx. split; [by apply (iv_claimed _ _ _ HI)|].
      destruct (iv_claimer _ _ _ HI r k x Hr Hx) as [(z & Hz & Hs & ? & ?)|?]; [left|by right].
      exists z. unfold sighted in *. by rewrite Hok.
  - done.
Qed.

(** ** Claims *)
Lemma claims_lookup (x : bytes) (c : gmap key bytes) (X : gset key) (k : key) :
  set_fold (λ k c, <[k := x]> c) c X !! k = if decide (k ∈ X) then Some x else c !! k.
Proof.
  set (Q := λ (m : gmap key bytes) (Y : gset key), (k ∈ Y → m !! k = Some x) ∧ (k ∉ Y → m !! k = c !! k)).
  assert (H : Q (set_fold (λ k c, <[k := x]> c) c X) X).
  { apply (set_fold_ind_L Q).
    - unfold Q. set_solver.
    - intros y Y mm Hy [IH1 IH2]. split; intros Hk; destruct (decide (y = k)) as [->|Hne];
        rewrite ?lookup_insert_eq; rewrite ?lookup_insert_ne by done; try done; try set_solver. }
  destruct H as [H1 H2]. case_decide; auto.
Qed.

Lemma mark_ko z : keeps_orders (mark z).
Proof. split; intros r; unfold mark; case_decide; done. Qed.
Lemma free_ko z : keeps_orders (free z).
Proof. split; intros r; unfold free; case_decide; done. Qed.
Lemma upd_ok_ko ref t : keeps_orders (upd_one ref (set_ok_since t)).
Proof. split; intros r; unfold upd_one; case_decide; done. Qed.
Lemma upd_dead_ko ref t : keeps_orders (upd_one ref (set_dead_since t)).
Proof. split; intros r; unfold upd_one; case_decide; done. Qed.
Lemma compose_ko f g : keeps_orders f → keeps_orders g → keeps_orders (λ r, f (g r)).
Proof.
  intros [F1 F2 F3] [G1 G2 G3]. split; intros r; [by rewrite F1|by rewrite F2|by rewrite F3].
Qed.

Lemma placed_one h D s k : Inv h D s → coherent (log s) → (∃ r, r ∈ recs s ∧ k ∈ keys r) → placed_n k (log s) = 1.
Proof.
  intros HI Hc (r & Hr & (o & Ho & <-)%elem_of_keys). destruct (iv_orders _ _ _ HI r o Hr Ho) as [_ [b Hb]].
  pose proof (placed_pos _ _ _ _ Hb). pose proof (co_once _ Hc (order_key o)). lia.
Qed.

Lemma rec_unique h D s r1 r2 : Inv h D s → r1 ∈ recs s → r2 ∈ recs s → r_ref r1 = r_ref r2 → r1 = r2.
Proof. intros HI. apply NoDup_map_inj. apply HI. Qed.

(** No order of a round just read as landed was ended, and none of one that counts as landed is held by
    another sighted round. *)
Lemma seen_not_ended h D s l r k :
  Inv h D s → coherent (log s) → r ∈ recs s → r_ref r ∉ D → log s = l ++ [LSeen (r_rid r) (keys r)] → k ∈ keys r →
  ended_n k (log s) = 0.
Proof.
  intros HI Hc Hr HD El Hk. apply ended_zero.
  - rewrite El. intros [He|He%list_elem_of_singleton]%elem_of_app; [|done]. by eapply (co_dead _ Hc).
  - intros x Hx. destruct (iv_settled _ _ _ HI x k Hx) as (ks & Hks & Hk').
    apply (iv_gone _ _ _ HI r x k Hr HD Hk Hx). eapply live_same; [done|done| |done|exact Hk]. rewrite El. apply live_last.
Qed.

Lemma seen_not_held h D s r z k :
  Inv h D s → coherent (log s) → r ∈ recs s → live (log s) (r_rid r) (keys r) → k ∈ keys r →
  z ∈ zombies s → sighted z → r_ref z ≠ r_ref r → k ∉ keys z.
Proof.
  intros HI Hc Hr Hs Hk Hz Hsz Hne Hkz. apply (iv_rid _ _ _ HI z r k); auto using zombie_rec.
  eapply live_same; [done|by eapply (iv_seen _ _ _ HI), Hkz; auto using zombie_rec|exact Hs|done|done].
Qed.

(** What one released round adds to the sighted count. *)
Definition holds (D : gset positive) (k : key) (z : round_rec) : Z :=
  if decide (sighted z ∧ r_ref z ∉ D) then cnt k (r_orders z) else 0.

Lemma sight_change g D k zs z :
  keeps_orders g → NoDup (map r_ref zs) → z ∈ zs →
  (∀ y, y ∈ zs → r_ref y ≠ r_ref z → sighted (g y) ↔ sighted y) →
  sight D k (map g zs) = sight D k zs + holds D k (g z) - holds D k z.
Proof.
  intros Hg Hnd (l1 & l2 & ->)%list_elem_of_split Hoth. rewrite List.map_app in Hnd. cbn [map] in Hnd.
  apply NoDup_app in Hnd as (_ & Hd & Hnd). apply NoDup_cons in Hnd as [Hni _].
  assert (Hsame : ∀ l, (∀ y, y ∈ l → y ∈ l1 ++ z :: l2 ∧ r_ref y ≠ r_ref z) → sight D k (map g l) = sight D k l).
  { intros l Hl. apply sight_map; [done|]. intros y Hy. apply Hoth; by apply Hl. }
  rewrite List.map_app. unfold sight. rewrite !zsum_app. cbn [map]. rewrite !zsum_cons.
  fold (sight D k (map g l1)) (sight D k (map g l2)) (sight D k l1) (sight D k l2) (holds D k (g z)) (holds D k z).
  rewrite !Hsame; [lia| |].
  - intros y Hy. split; [set_solver|]. intros E. apply Hni. rewrite <- E. by apply list_elem_of_fmap_2.
  - intros y Hy. split; [set_solver|]. intros E. apply (Hd (r_ref y)); [by apply list_elem_of_fmap_2|]. rewrite E. set_solver.
Qed.

Lemma zombie_refs h D s : Inv h D s → NoDup (map r_ref (zombies s)).
Proof. intros HI. pose proof (iv_refs _ _ _ HI) as H. unfold recs, records in H. rewrite List.map_app in H. by apply NoDup_app in H as (_ & _ & ?). Qed.

Lemma inflight_rec s r : inflight s = Some r → r ∈ recs s.
Proof. unfold recs, records. intros ->. set_solver. Qed.

Lemma inflight_not_zombie h D s r z : Inv h D s → inflight s = Some r → z ∈ zombies s → r_ref r ≠ r_ref z.
Proof.
  intros HI Ei Hz E. pose proof (iv_refs _ _ _ HI) as Hnd. unfold recs, records in Hnd. rewrite Ei in Hnd. cbn in Hnd.
  apply NoDup_cons in Hnd as [Hni _]. apply Hni. rewrite E. by apply list_elem_of_fmap_2.
Qed.

(** A released round read as landed takes its orders. *)
Definition claim_fn (z : round_rec) (now : Z) (r : round_rec) : round_rec :=
  mark z (upd_one (r_ref z) (set_ok_since (Some now)) r).

Lemma claim_fn_ko z now : keeps_orders (claim_fn z now).
Proof. apply (compose_ko (mark z)); [apply mark_ko|apply upd_ok_ko]. Qed.

Lemma claim_fn_sighted z now y : sighted (claim_fn z now y) ↔ sighted y ∨ r_ref y = r_ref z.
Proof.
  unfold claim_fn, mark, upd_one, sighted. destruct (decide (r_ref y = r_ref z)) as [E|E]; cbn.
  - rewrite decide_True by done. cbn. split; eauto.
  - rewrite decide_False by done. cbn. tauto.
Qed.

Lemma claim_fn_claimed z now r k : r_claimed (claim_fn z now r) !! k =
  if decide (r_ref r ≠ r_ref z ∧ k ∈ keys r ∧ k ∈ keys z) then Some (r_rid z) else r_claimed r !! k.
Proof.
  unfold claim_fn, upd_one, mark. destruct (decide (r_ref r = r_ref z)) as [E|E]; cbn.
  - rewrite decide_True, decide_False by tauto. done.
  - rewrite (decide_False (P := r_ref r = r_ref z)) by done. cbn [r_claimed set_claimed]. rewrite claims_lookup.
    apply decide_ext. rewrite elem_of_intersection. tauto.
Qed.

Lemma claim_infl h D s z now k :
  Inv h D s → z ∈ zombies s →
  infl k (claim_fn z now <$> inflight s) = if decide (k ∈ keys z) then 0 else infl k (inflight s).
Proof.
  intros HI Hz. destruct (inflight s) as [r|] eqn:Ei; [|by case_decide]. cbn. unfold unclaimed.
  pose proof (inflight_not_zombie _ _ _ _ _ HI Ei Hz) as Hne.
  rewrite (ko_orders _ (claim_fn_ko z now)). case_decide as Hk.
  - apply cnt_filter_out. intros o Ho <- Hn. apply Hn. apply elem_of_dom. rewrite claim_fn_claimed, decide_True; [eauto|].
    split_and!; [done|apply elem_of_keys; eauto|done].
  - apply cnt_filter_ext. intros o Ho <-. rewrite !elem_of_dom, claim_fn_claimed, decide_False by tauto. done.
Qed.

Lemma inv_claim h D s z now :
  Inv h D s → coherent (log s) → z ∈ zombies s → r_ok_since z = None → r_ref z ∉ D →
  (∃ l, log s = l ++ [LSeen (r_rid z) (keys z)]) →
  Inv (drop_claimed (keys z) h) D
    (with_pending (filter (λ o, order_key o ∉ keys z)) (map_recs (claim_fn z now) s)).
Proof.
  intros HI Hc Hz Hok HD [l El]. pose proof (claim_fn_ko z now) as Hg.
  assert (Hseen : live (log s) (r_rid z) (keys z)) by (rewrite El; apply live_last).
  assert (Hnz : ¬ sighted z) by (unfold sighted; rewrite Hok; intros [? ?]; done).
  apply (inv_map h); [done|done| | | |].
  - intros k. pose proof (iv_count _ _ _ HI k) as Hk. rewrite (claim_infl h D) by done.
    rewrite (sight_change _ D k (zombies s) z Hg);
      [|by eapply zombie_refs|done|intros y _ Hne; rewrite claim_fn_sighted; tauto].
    unfold holds. rewrite (ko_ref _ Hg), (ko_orders _ Hg). rewrite (decide_True (P := sighted (claim_fn z now z) ∧ _)) by (rewrite claim_fn_sighted; auto).
    rewrite (decide_False (P := sighted z ∧ _)) by tauto. unfold drop_claimed. case_decide as Hkz.
    + rewrite !(cnt_filter_out k) by (intros o _ <-; tauto).
      rewrite (placed_one _ _ _ k HI Hc) by (exists z; auto using zombie_rec).
      rewrite (seen_not_ended _ _ _ l z k HI Hc) by auto using zombie_rec.
      rewrite cnt_keys_one by (done || by apply (iv_nodup _ _ _ HI), zombie_rec).
      rewrite sight_zero; [lia|]. intros y Hy Hsy _. destruct (decide (r_ref y = r_ref z)) as [E|E].
      * rewrite (rec_unique _ _ _ y z HI) in Hsy by auto using zombie_rec. done.
      * by eapply (seen_not_held _ _ _ z y k HI Hc); auto using zombie_rec.
    + rewrite !(cnt_filter_in k) by (intros o _ <-; done). apply cnt_keys in Hkz. rewrite Hkz. lia.
  - intros o. unfold drop_claimed. rewrite elem_of_app, !list_elem_of_filter. tauto.
  - intros y Hy Hsy. rewrite claim_fn_sighted in Hsy. destruct (decide (r_ref y = r_ref z)) as [E|E].
    + rewrite (rec_unique _ _ _ y z HI) by auto using zombie_rec. auto using live_seen.
    + split; [apply (iv_read _ _ _ HI); tauto|intros k; apply (iv_seen _ _ _ HI); tauto].
  - intros r k x Hr. rewrite claim_fn_claimed. case_decide as Hd.
    + intros [= <-]. destruct Hd as (Hne & Hkr & Hkz). split.
      * split_and!; [done| |by eauto]. apply (iv_rid _ _ _ HI z r k); auto using zombie_rec.
      * left. exists z. split_and!; [done| |done..]. apply claim_fn_sighted. by right.
    + intros Hx. split; [by apply (iv_claimed _ _ _ HI)|].
      destruct (iv_claimer _ _ _ HI r k x Hr Hx) as [(y & ? & ? & ? & ?)|?]; [left|by right].
      exists y. split_and!; [done| |done..]. apply claim_fn_sighted. by left.
Qed.

(** A re-org takes the landing back: the orders are free again. *)
Definition unclaim_fn (z : round_rec) (r : round_rec) : round_rec :=
  free z (upd_one (r_ref z) (set_ok_since None) r).

Lemma unclaim_fn_ko z : keeps_orders (unclaim_fn z).
Proof. apply (compose_ko (free z)); [apply free_ko|apply upd_ok_ko]. Qed.

Lemma unclaim_fn_sighted z y : sighted (unclaim_fn z y) ↔ sighted y ∧ r_ref y ≠ r_ref z.
Proof.
  unfold unclaim_fn, free, upd_one, sighted. destruct (decide (r_ref y = r_ref z)) as [E|E]; cbn.
  - rewrite decide_True by done. cbn. split; [intros [? ?]; done|tauto].
  - rewrite decide_False by done. cbn. tauto.
Qed.

Lemma unclaim_fn_claimed z r k x : r_claimed (unclaim_fn z r) !! k = Some x ↔
  r_claimed r !! k = Some x ∧ (r_ref r ≠ r_ref z → x ≠ r_rid z).
Proof.
  unfold unclaim_fn, upd_one, free. destruct (decide (r_ref r = r_ref z)) as [E|E]; cbn.
  - rewrite decide_True by done. cbn. tauto.
  - rewrite (decide_False (P := r_ref r = r_ref z)) by done. cbn [r_claimed set_claimed].
    rewrite map_lookup_filter_Some. cbn. tauto.
Qed.

(** The orders another round or the mempool already has. *)
Definition busy_keys (z : round_rec) (s : state) : gset key :=
  ⋃ (map keys (filter (λ r, r_ref r ≠ r_ref z ∧ (r_ref <$> inflight s = Some (r_ref r) ∨ is_Some (r_ok_since r)))
      (records s))) ∪ list_to_set (map order_key (pending s)).

Lemma elem_of_busy h D z s k :
  Inv h D s → k ∈ busy_keys z (map_recs (unclaim_fn z) s) ↔
  (∃ r, r ∈ recs s ∧ r_ref r ≠ r_ref z ∧ (inflight s = Some r ∨ sighted r) ∧ k ∈ keys r) ∨
  ∃ o, o ∈ pending s ∧ order_key o = k.
Proof.
  intros HI. pose proof (unclaim_fn_ko z) as Hg. unfold busy_keys.
  change (records (map_recs (unclaim_fn z) s)) with (recs (map_recs (unclaim_fn z) s)). rewrite recs_map.
  rewrite elem_of_union, elem_of_union_list, elem_of_list_to_set, list_elem_of_fmap. cbn [pending map_recs with_zombies with_inflight inflight].
  split; (intros [H|H]; [left|right; naive_solver]).
  - destruct H as (ks & (r & -> & Hr)%list_elem_of_fmap & Hk). apply list_elem_of_filter in Hr as [[Hne Hor] Hr].
    apply list_elem_of_fmap in Hr as (r' & -> & Hr). rewrite (ko_ref _ Hg) in *. rewrite (ko_keys _ _ Hg) in Hk.
    exists r'. split_and!; [done|done| |done]. destruct Hor as [Hi|Hs].
    + left. destruct (inflight s) as [f|] eqn:Ei; [|done]. cbn in Hi. rewrite (ko_ref _ Hg) in Hi. injection Hi as Hi.
      f_equal. eapply (rec_unique _ _ _ _ _ HI); auto using inflight_rec.
    + right. by apply (unclaim_fn_sighted z r').
  - destruct H as (r & Hr & Hne & Hor & Hk). exists (keys (unclaim_fn z r)). split; [|by rewrite (ko_keys _ _ Hg)].
    apply list_elem_of_fmap. eexists. split; [done|]. apply list_elem_of_filter. rewrite (ko_ref _ Hg). split.
    + split; [done|]. destruct Hor as [->|Hs]; [left|right; by apply unclaim_fn_sighted].
      cbn. by rewrite (ko_ref _ Hg).
    + apply list_elem_of_fmap. eauto.
Qed.

(** The claims of [z] in the round in flight, and no other, are lifted. *)
Lemma unclaim_infl h D s z k r :
  Inv h D s → coherent (log s) → z ∈ zombies s → sighted z → inflight s = Some r →
  cnt k (unclaimed (unclaim_fn z r)) =
  if decide (k ∈ keys z ∧ r_claimed r !! k = Some (r_rid z)) then cnt k (r_orders r) else cnt k (unclaimed r).
Proof.
  intros HI Hc Hz Hs Ei. unfold unclaimed. rewrite (ko_orders _ (unclaim_fn_ko z)).
  pose proof (inflight_not_zombie _ _ _ _ _ HI Ei Hz) as Hne. case_decide as Hd.
  - destruct Hd as [Hk Hcl]. apply cnt_filter_in. intros o Ho E. rewrite E, elem_of_dom. intros [x Hx].
    apply unclaim_fn_claimed in Hx as [Hx Hx']. rewrite Hcl in Hx. injection Hx as <-. by apply Hx'.
  - apply cnt_filter_ext. intros o Ho E. rewrite E, !elem_of_dom. apply not_iff_compat. split.
    + intros [x Hx]. apply unclaim_fn_claimed in Hx as [? _]. eauto.
    + intros [x Hx]. exists x. apply unclaim_fn_claimed. split; [done|]. intros _ ->. apply Hd. split; [|done].
      destruct (iv_claimed _ _ _ HI r k _ (inflight_rec _ _ Ei) Hx) as (_ & _ & ks & Hks & Hk).
      rewrite <- (co_id _ Hc _ _ _ (live_seen _ _ _ Hks)); [done|]. apply (iv_read _ _ _ HI); [by apply zombie_rec|done].
Qed.

Lemma inv_unclaim h D s z :
  Inv h D s → coherent (log s) → z ∈ zombies s → sighted z → r_ref z ∉ D →
  let s1 := map_recs (unclaim_fn z) s in
  Inv h D (with_pending (app (filter (λ o, order_key o ∉ busy_keys z s1) (r_orders z))) s1).
Proof.
  intros HI Hc Hz Hs HD s1. pose proof (unclaim_fn_ko z) as Hg.
  pose proof (λ k, iv_seen _ _ _ HI z k (zombie_rec _ _ Hz) Hs) as Hseen.
  apply (inv_map h h D s); [done|done| | | |].
  - intros k. pose proof (iv_count _ _ _ HI k) as Hk. rewrite cnt_app.
    rewrite (sight_change _ D k (zombies s) z Hg);
      [|by eapply zombie_refs|done|intros y _ Hne; rewrite unclaim_fn_sighted; tauto].
    unfold holds. rewrite (ko_ref _ Hg), (ko_orders _ Hg).
    rewrite (decide_False (P := sighted (unclaim_fn z z) ∧ _)) by (rewrite unclaim_fn_sighted; tauto).
    rewrite (decide_True (P := sighted z ∧ _)) by done.
    pose proof (cnt_nonneg k h). pose proof (cnt_nonneg k (pending s)). pose proof (infl_nonneg k (inflight s)).
    pose proof (ended_nonneg k (log s)).
    destruct (decide (k ∈ keys z)) as [Hkz|Hkz].
    + pose proof (placed_one _ _ _ k HI Hc (ex_intro _ z (conj (zombie_rec _ _ Hz) Hkz))) as Hone.
      pose proof (sight_pos D k (zombies s) z Hz Hs HD Hkz).
      rewrite (cnt_keys_one k z) by (done || by apply (iv_nodup _ _ _ HI), zombie_rec).
      assert (Hp0 : cnt k (pending s) = 0) by lia. assert (Hi0 : infl k (inflight s) = 0) by lia.
      assert (Hback : (∀ r, inflight s = Some r → k ∉ keys r) →
        cnt k (filter (λ o, order_key o ∉ busy_keys z s1) (r_orders z)) = 1).
      { intros Hin. rewrite cnt_filter_in; [by apply cnt_keys_one, Hkz; apply (iv_nodup _ _ _ HI), zombie_rec|].
        intros o Ho E. rewrite E. unfold s1. rewrite (elem_of_busy _ _ _ _ _ HI).
        intros [(r & Hr & Hne & [Hi|Hsr] & Hkr)|(o' & Ho' & Eo')].
        - by apply (Hin r).
        - unfold recs, records in Hr. apply elem_of_app in Hr as [Hr|Hr].
          + destruct (inflight s) as [f|]; [|set_solver]. apply list_elem_of_singleton in Hr as ->. by apply (Hin f).
          + by apply (seen_not_held _ _ _ z r k HI Hc (zombie_rec _ _ Hz) (Hseen k Hkz) Hkz Hr Hsr Hne).
        - rewrite cnt_zero in Hp0. by apply (Hp0 o'). }
      destruct (inflight s) as [r|] eqn:Ei; cbn [fmap option_fmap option_map infl] in *.
      * rewrite (unclaim_infl _ _ _ _ _ _ HI Hc Hz Hs Ei). destruct (decide (k ∈ keys r)) as [Hkr|Hkr].
        -- assert (r_claimed r !! k = Some (r_rid z)) as Hcl.
           { apply elem_of_keys in Hkr as Hkr'. destruct Hkr' as (o & Ho & Eo).
             unfold unclaimed in Hi0. rewrite cnt_zero in Hi0.
             destruct (r_claimed r !! k) as [x|] eqn:Ex.
             - destruct (iv_claimed _ _ _ HI r k x (inflight_rec _ _ Ei) Ex) as (_ & _ & ks & Hks & Hkk).
               f_equal. by eapply live_same; eauto.
             - exfalso. apply (Hi0 o); [|done]. apply list_elem_of_filter. split; [|done].
               rewrite Eo, elem_of_dom, Ex. intros [? ?]; done. }
           rewrite decide_True by done. rewrite cnt_keys_one by (done || by apply (iv_nodup _ _ _ HI), inflight_rec).
           rewrite (cnt_filter_out k); [lia|]. intros o Ho E Hn. apply Hn. rewrite E. unfold s1.
           apply (elem_of_busy _ _ _ _ _ HI). left. exists r. split_and!; [by apply inflight_rec| |by left|done].
           by eapply inflight_not_zombie.
        -- rewrite decide_False; [|intros [_ Hcl]; by apply (iv_claimed _ _ _ HI r k _ (inflight_rec _ _ Ei)) in Hcl as (? & _)].
           rewrite Hback by (intros ? [= <-]; done). lia.
      * rewrite Hback by done. lia.
    + rewrite (cnt_filter_out k) by (intros o Ho <- _; apply Hkz, elem_of_keys; eauto).
      pose proof (proj1 (cnt_keys k z) Hkz) as Hz0. rewrite Hz0.
      assert (infl k (unclaim_fn z <$> inflight s) = infl k (inflight s)) as ->; [|lia].
      destruct (inflight s) as [r|] eqn:Ei; [|done]. cbn.
      rewrite (unclaim_infl _ _ _ _ _ _ HI Hc Hz Hs Ei), decide_False by tauto. done.
  - intros o [?|[[_ ?]%list_elem_of_filter|?]%elem_of_app]%elem_of_app; auto. right. right. exists z. auto using zombie_rec.
  - intros y Hy Hsy. apply unclaim_fn_sighted in Hsy as [? _].
    split; [by apply (iv_read _ _ _ HI)|intros k; by apply (iv_seen _ _ _ HI)].
  - intros r k x Hr Hx. apply unclaim_fn_claimed in Hx as [Hx Hfree]. split; [by apply (iv_claimed _ _ _ HI)|].
    destruct (iv_claimer _ _ _ HI r k x Hr Hx) as [(y & Hy & Hsy & Ey & Hky)|?]; [left|by right].
    exists y. split_and!; [done| |done..]. apply unclaim_fn_sighted. split; [done|]. intros E.
    rewrite (rec_unique _ _ _ y z HI) in Ey by auto using zombie_rec.
    destruct (decide (r_ref r = r_ref z)) as [E'|E']; [|by apply (Hfree E')].
    rewrite (rec_unique _ _ _ r z HI) in Hx by auto using zombie_rec.
    by destruct (iv_claimed _ _ _ HI z k x (zombie_rec _ _ Hz) Hx) as (_ & ? & _).
Qed.

(** The landing of a round is found taken back: it no longer counts as landed.  [z] is tracked, not
    done with, and no order is claimed in its name. *)
Lemma inv_gone h D s z :
  Inv h D s → coherent (log s) → z ∈ recs s → r_ref z ∉ D → ¬ sighted z → LSeen (r_rid z) (keys z) ∈ log s →
  (∀ r k, r ∈ recs s → r_claimed r !! k ≠ Some (r_rid z)) →
  Inv h D (with_log [LGone (r_rid z)] s).
Proof.
  intros HI Hc Hz HD Hns Hread Hcl.
  assert (Hp : ∀ k, placed_n k (log s ++ [LGone (r_rid z)]) = placed_n k (log s)) by (intros k; rewrite placed_app; cbn; lia).
  assert (He : ∀ k, ended_n k (log s ++ [LGone (r_rid z)]) = ended_n k (log s)) by (intros k; rewrite ended_app; cbn; lia).
  assert (Hin : ∀ e, e ∈ log s ++ [LGone (r_rid z)] → e = LGone (r_rid z) ∨ e ∈ log s) by set_solver.
  assert (Hlive : ∀ x ks, x ≠ r_rid z → live (log s) x ks → live (log s ++ [LGone (r_rid z)]) x ks)
    by (intros x ks Hne Hl; apply live_app; [done|set_solver]).
  destruct HI as [H1 H2 H3 H4 H5 H6 H7 H8 H9 H10 H11 H12 H13 H14 H15]. unfold was_placed in *.
  split; cbn [pending inflight zombies log next_ref carry_retry with_log recs]; unfold was_placed; try done.
  - intros k. rewrite Hp, He. apply H1.
  - intros o Ho. destruct (H2 o Ho) as [? [b ?]]. split; [done|]. exists b. set_solver.
  - intros o Ho. destruct (H3 o Ho) as [? [b ?]]. split; [done|]. exists b. set_solver.
  - intros r o Hr Ho. destruct (H4 r o Hr Ho) as [? [b ?]]. split; [done|]. exists b. set_solver.
  - intros r k Hr Hs Hk. apply Hlive; [|by eapply H6]. intros E.
    assert (keys r = keys z) as Ek. { apply (co_id _ Hc (r_rid z)); [rewrite <- E; by apply H15|done]. }
    revert E. apply (H9 r z k); [done|done| |done|by rewrite <- Ek]. intros Er.
    pose proof (NoDup_map_inj r_ref (recs s) r z H7 Hr Hz Er) as ->. done.
  - intros r k x Hr Hx. destruct (H10 r k x Hr Hx) as (? & ? & ks & ? & ?). split_and!; [done..|]. exists ks.
    split; [|done]. apply Hlive; [|done]. intros ->. by apply (Hcl r k).
  - intros x k [|Hx]%Hin; [done|]. destruct (H11 x k Hx) as (ks & Hl & Hk). exists ks. split; [|done].
    apply Hlive; [|done]. intros ->. eapply (H12 z); [done|done| |exact Hx|done].
    by rewrite (co_id _ Hc _ _ _ Hread (live_seen _ _ _ Hl)).
  - intros r x k Hr Hr' Hk [|Hx]%Hin; [done|]. by eapply H12.
  - intros r k x Hr Hx. destruct (H14 r k x Hr Hx) as [?|?]; [by left|right; set_solver].
  - intros r Hr Hs. apply elem_of_app. left. auto.
Qed.

(** Both at once, for a released round. *)
Lemma inv_reverted h D s z :
  Inv h D s → coherent (log s) → z ∈ zombies s → sighted z → r_ref z ∉ D →
  let s1 := map_recs (unclaim_fn z) s in
  Inv h D (with_log [LGone (r_rid z)]
    (with_pending (app (filter (λ o, order_key o ∉ busy_keys z s1) (r_orders z))) s1)).
Proof.
  intros HI Hc Hz Hs HD s1. pose proof (unclaim_fn_ko z) as Hg. pose proof (zombie_rec _ _ Hz) as Hr.
  pose proof (inv_unclaim _ _ _ _ HI Hc Hz Hs HD) as HI'. fold s1 in HI'.
  rewrite <- (ko_rid _ Hg z). apply inv_gone; [exact HI'|done|..]; try change (recs (with_pending _ s1)) with (recs s1);
    unfold s1; rewrite ?recs_map; cbn [log with_pending map_recs with_zombies with_inflight].
  - by apply list_elem_of_fmap_2.
  - by rewrite (ko_ref _ Hg).
  - rewrite unclaim_fn_sighted. tauto.
  - rewrite (ko_rid _ Hg), (ko_keys _ _ Hg). by apply (iv_read _ _ _ HI).
  - intros r k (r' & -> & Hr')%list_elem_of_fmap Hx. rewrite (ko_rid _ Hg) in Hx.
    apply unclaim_fn_claimed in Hx as [Hx Hne]. destruct (decide (r_ref r' = r_ref z)) as [E|E]; [|by apply (Hne E)].
    rewrite (rec_unique _ _ _ r' z HI) in Hx by done. by destruct (iv_claimed _ _ _ HI z k _ Hr Hx) as (_ & ? & _).
Qed.

(** ** Settling, ending, releasing *)

(** A round that counts as landed has no claimed order. *)
Lemma no_claims h D s r k :
  Inv h D s → coherent (log s) → r ∈ recs s → live (log s) (r_rid r) (keys r) → r_claimed r !! k = None.
Proof.
  intros HI Hc Hr Hs. destruct (r_claimed r !! k) as [x|] eqn:Ex; [|done].
  destruct (iv_claimed _ _ _ HI r k x Hr Ex) as (Hk & Hne & ks & Hks & Hkk). destruct Hne. by eapply live_same.
Qed.

(** Dropping tracked rounds that hold nothing. *)
Lemma inv_drop h D D' s f zs :
  Inv h D s → zs `sublist_of` zombies s → (f = inflight s ∨ f = None) →
  (∀ k, cnt k h + cnt k (pending s) + infl k f + sight D' k zs + ended_n k (log s) = placed_n k (log s)) →
  (∀ r, r ∈ (match f with Some r => [r] | None => [] end) ++ zs → r_ref r ∉ D' → r_ref r ∉ D) →
  (∀ z k, z ∈ zombies s → sighted z → k ∈ keys z → z ∈ zs ∨ LSettled (r_rid z) k ∈ log s) →
  Inv h D' (with_inflight f (with_zombies (λ _, zs) s)).
Proof.
  intros HI Hsub Hf Hcnt HD Hkept.
  assert (Hsubl : recs (with_inflight f (with_zombies (λ _, zs) s)) `sublist_of` recs s).
  { unfold recs, records. cbn. apply sublist_app; [|done]. destruct Hf as [->| ->]; [done|apply sublist_nil_l]. }
  assert (Hrec : ∀ r, r ∈ recs (with_inflight f (with_zombies (λ _, zs) s)) → r ∈ recs s).
  { intros r Hr. by eapply elem_of_sublist. }
  split; cbn [pending log next_ref inflight zombies with_inflight with_zombies]; intros.
  - apply Hcnt.
  - by apply (iv_held _ _ _ HI).
  - by apply (iv_pending _ _ _ HI).
  - eapply (iv_orders _ _ _ HI); eauto.
  - apply (iv_nodup _ _ _ HI); eauto.
  - eapply (iv_seen _ _ _ HI); eauto.
  - eapply sublist_NoDup; [apply (iv_refs _ _ _ HI)|]. by apply fmap_sublist.
  - apply (iv_fresh _ _ _ HI); eauto.
  - apply (iv_rid _ _ _ HI r1 r2 k); eauto.
  - eapply (iv_claimed _ _ _ HI); eauto.
  - by apply (iv_settled _ _ _ HI).
  - eapply (iv_gone _ _ _ HI); eauto.
  - by apply (iv_retry _ _ _ HI).
  - destruct (iv_claimer _ _ _ HI r k x) as [(z & Hz & Hs & <- & Hk)|?]; [eauto|done| |by right].
    destruct (Hkept z k Hz Hs Hk) as [?|?]; [left|by right]. by exists z.
  - apply (iv_read _ _ _ HI); eauto.
Qed.

(** Changing what a build holds. *)
Lemma inv_held h h' D s :
  Inv h D s → (∀ k, cnt k h' = cnt k h) → (∀ o, o ∈ h' → valid_side o ∧ was_placed o (log s)) → Inv h' D s.
Proof.
  intros [H1 H2 H3 H4 H5 H6 H7 H8 H9 H10 H11 H12 H13 H14 H15] Hcnt Hok. split; try done. intros k. by rewrite Hcnt.
Qed.

Lemma inv_held_perm h h' D s : Inv h D s → h' ≡ₚ h → Inv h' D s.
Proof.
  intros HI Hp. eapply inv_held; [done|intros k; by rewrite Hp|]. intros o. rewrite Hp. apply (iv_held _ _ _ HI).
Qed.

(** The round in flight is taken off, its orders held. *)
Lemma inv_hold_inflight h s r :
  Inv h ∅ s → inflight s = Some r → (∀ k, r_claimed r !! k = None) → Inv (r_orders r ++ h) ∅ (with_inflight None s).
Proof.
  intros HI Ei Hcl. assert (Hun : unclaimed r = r_orders r).
  { apply filter_all. intros o _. rewrite elem_of_dom, Hcl. intros [? ?]; done. }
  assert (HI' : Inv (r_orders r ++ h) ∅ (with_inflight None (with_zombies (λ _, zombies s) s))); [|by destruct s].
  destruct HI as [H1 H2 H3 H4 H5 H6 H7 H8 H9 H10 H11 H12 H13 H14 H15].
  assert (Hrec : ∀ x, x ∈ zombies s → x ∈ recs s) by apply zombie_rec.
  split; cbn [pending log next_ref inflight zombies with_inflight with_zombies recs records app]; intros; eauto.
  - specialize (H1 k). rewrite Ei in H1. cbn [infl] in *. rewrite Hun in H1. rewrite cnt_app. lia.
  - apply elem_of_app in H as [?|?]; [|by apply H2]. eapply H4; [|done]. by apply inflight_rec.
  - pose proof (zombie_refs h ∅ s (Build_Inv _ _ _ H1 H2 H3 H4 H5 H6 H7 H8 H9 H10 H11 H12 H13 H14 H15)). done.
Qed.

Lemma sight_done D k zs z :
  NoDup (map r_ref zs) → z ∈ zs → sight ({[r_ref z]} ∪ D) k zs = sight D k zs - holds D k z.
Proof.
  intros Hnd (l1 & l2 & ->)%list_elem_of_split. rewrite List.map_app in Hnd. cbn [map] in Hnd.
  apply NoDup_app in Hnd as (_ & Hd & Hnd). apply NoDup_cons in Hnd as [Hni _].
  assert (Hsame : ∀ l, (∀ y, y ∈ l → r_ref y ≠ r_ref z) → sight ({[r_ref z]} ∪ D) k l = sight D k l).
  { intros l Hl. unfold sight. apply zsum_ext. intros y Hy. specialize (Hl y Hy).
    destruct (decide (sighted y ∧ r_ref y ∉ D)) as [Ha|Ha].
    - rewrite decide_True by set_solver. done.
    - rewrite decide_False; [done|]. intros [? Hn]. apply Ha. set_solver. }
  unfold sight. rewrite !zsum_app, !zsum_cons. fold (sight D k l1) (sight D k l2) (holds D k z).
  fold (sight ({[r_ref z]} ∪ D) k l1) (sight ({[r_ref z]} ∪ D) k l2). rewrite decide_False by set_solver.
  rewrite !Hsame; [lia| |].
  - intros y Hy E. apply Hni. rewrite <- E. by apply list_elem_of_fmap_2.
  - intros y Hy E. apply (Hd (r_ref y)); [by apply list_elem_of_fmap_2|]. rewrite E. set_solver.
Qed.

(** A sighted released round is done with, its orders held. *)
Lemma inv_hold_zombie h D s z :
  Inv h D s → z ∈ zombies s → sighted z → r_ref z ∉ D → Inv (r_orders z ++ h) ({[r_ref z]} ∪ D) s.
Proof.
  intros HI Hz Hs HD. pose proof (zombie_refs _ _ _ HI) as Hnd.
  pose proof (λ o, iv_orders _ _ _ HI z o (zombie_rec _ _ Hz)) as Hos.
  destruct HI as [H1 H2 H3 H4 H5 H6 H7 H8 H9 H10 H11 H12 H13 H14 H15]. split; try done.
  - intros k. rewrite cnt_app, sight_done by done. specialize (H1 k). unfold holds. rewrite decide_True by done. lia.
  - intros o [?|?]%elem_of_app; auto.
  - intros r x k Hr Hn. apply H12; [done|set_solver].
Qed.

(** An unsighted one simply drops out. *)
Lemma inv_forget_zombie h D s z :
  Inv h D s → z ∈ zombies s → ¬ sighted z → Inv h ({[r_ref z]} ∪ D) s.
Proof.
  intros HI Hz Hs. pose proof (zombie_refs _ _ _ HI) as Hnd.
  destruct HI as [H1 H2 H3 H4 H5 H6 H7 H8 H9 H10 H11 H12 H13 H14 H15]. split; try done.
  - intros k. rewrite sight_done by done. specialize (H1 k). unfold holds. rewrite decide_False by tauto. lia.
  - intros r x k Hr Hn. apply H12; [done|set_solver].
Qed.

(** Held orders are ended, by the round [x] or otherwise. *)
Lemma inv_close h D s os (mk : key → entry) :
  (∀ k, match mk k with LSettled _ j | LEnded j => j = k | _ => False end) →
  (∀ x k o, o ∈ os → mk (order_key o) = LSettled x k → (∃ ks, live (log s) x ks ∧ k ∈ ks) ∧
     ∀ r, r ∈ recs s → r_ref r ∉ D → k ∈ keys r → x ≠ r_rid r) →
  Inv (os ++ h) D s → Inv h D (with_log (map (λ o, mk (order_key o)) os) s).
Proof.
  intros Hmk Hset [H1 H2 H3 H4 H5 H6 H7 H8 H9 H10 H11 H12 H13 H14 H15]. unfold was_placed in *.
  set (l := map _ os).
  assert (Hp : ∀ k, placed_n k l = 0).
  { intros k. apply zsum_zero. intros e (o & -> & _)%list_elem_of_fmap. specialize (Hmk (order_key o)). by destruct (mk _). }
  assert (He : ∀ k, ended_n k l = cnt k os).
  { intros k. unfold l, ended_n, cnt. clear -Hmk. induction os as [|o os IH]; [done|]. cbn [map]. rewrite !zsum_cons, IH.
    f_equal. specialize (Hmk (order_key o)). destruct (mk _); try done; by subst. }
  assert (Hg : ∀ x, LGone x ∉ l).
  { intros x (o & E & _)%list_elem_of_fmap. specialize (Hmk (order_key o)). by rewrite <- E in Hmk. }
  split; cbn [pending inflight zombies log next_ref with_log recs]; unfold was_placed; try done.
  - intros k. rewrite placed_app, ended_app, Hp, He. specialize (H1 k). rewrite cnt_app in H1. lia.
  - intros o Ho. destruct (H2 o) as [? [b ?]]; [set_solver|]. split; [done|]. exists b. set_solver.
  - intros o Ho. destruct (H3 o Ho) as [? [b ?]]. split; [done|]. exists b. set_solver.
  - intros r o Hr Ho. destruct (H4 r o Hr Ho) as [? [b ?]]. split; [done|]. exists b. set_solver.
  - intros r k Hr Hs Hk. apply live_app; eauto.
  - intros r k x Hr Hx. destruct (H10 r k x Hr Hx) as (? & ? & ks & ? & ?). split_and!; [done..|]. exists ks. auto using live_app.
  - intros x k [Hx|Hx]%elem_of_app.
    + destruct (H11 x k Hx) as (ks & ? & ?). exists ks. auto using live_app.
    + apply list_elem_of_fmap in Hx as (o & E & Ho). destruct (Hset x k o Ho (eq_sym E)) as [(ks & ? & ?) _]. exists ks. auto using live_app.
  - intros r x k Hr HD Hk [Hx|Hx]%elem_of_app; [by eapply H12|].
    apply list_elem_of_fmap in Hx as (o & E & Ho). destruct (Hset x k o Ho (eq_sym E)) as [_ H]. by apply H.
  - intros r k x Hr Hx. destruct (H14 r k x Hr Hx) as [?|?]; [by left|right; set_solver].
  - intros r Hr Hs. apply elem_of_app. left. auto.
Qed.

(** A round in flight is released: its orders go back to the front, a copy is still watched. *)
Lemma inv_release h s r z :
  Inv h ∅ s → inflight s = Some r → r_ref z = next_ref s → r_orders z = r_orders r → r_rid z = r_rid r →
  r_claimed z = r_claimed r → ¬ sighted z →
  Inv h ∅ (with_zombies (λ zs, zs ++ [z]) (with_next_ref (with_pending (app (unclaimed r)) (with_inflight None s)))).
Proof.
  intros HI Ei Ez Eo Eid Ecl Hns. assert (Hr : r ∈ recs s) by (by apply inflight_rec).
  assert (Ek : keys z = keys r) by (unfold keys; by rewrite Eo).
  assert (Hold : ∀ x, x ∈ zombies s → r_ref x ≠ r_ref z).
  { intros x Hx. rewrite Ez. pose proof (iv_fresh _ _ _ HI x (zombie_rec _ _ Hx)). lia. }
  assert (Hrecs : recs (with_zombies (λ zs, zs ++ [z]) (with_next_ref (with_pending (app (unclaimed r)) (with_inflight None s))))
                  = zombies s ++ [z]) by done.
  split; rewrite ?Hrecs; cbn [pending inflight zombies log next_ref with_zombies with_next_ref with_pending with_inflight].
  - intros k. pose proof (iv_count _ _ _ HI k) as Hk. rewrite Ei in Hk. cbn [infl] in *. rewrite cnt_app.
    unfold sight. rewrite zsum_app, zsum_cons, zsum_nil. fold (sight ∅ k (zombies s)). rewrite decide_False by tauto. lia.
  - apply HI.
  - intros o [[_ Ho]%list_elem_of_filter|Ho]%elem_of_app; [by eapply (iv_orders _ _ _ HI)|by apply (iv_pending _ _ _ HI)].
  - intros x o [Hx| ->%list_elem_of_singleton]%elem_of_app; [by apply (iv_orders _ _ _ HI), zombie_rec|].
    rewrite Eo. by apply (iv_orders _ _ _ HI).
  - intros x [Hx| ->%list_elem_of_singleton]%elem_of_app; [by apply (iv_nodup _ _ _ HI), zombie_rec|].
    rewrite Eo. by apply (iv_nodup _ _ _ HI).
  - intros x k [Hx| ->%list_elem_of_singleton]%elem_of_app Hs; [by apply (iv_seen _ _ _ HI), Hs; apply zombie_rec|done].
  - rewrite List.map_app. apply NoDup_app. split_and!; [by eapply zombie_refs| |apply NoDup_singleton].
    intros x (y & -> & Hy)%list_elem_of_fmap Hx%list_elem_of_singleton. by apply (Hold y).
  - intros x [Hx| ->%list_elem_of_singleton]%elem_of_app; [pose proof (iv_fresh _ _ _ HI x (zombie_rec _ _ Hx)); lia|lia].
  - intros r1 r2 k [H1| ->%list_elem_of_singleton]%elem_of_app [H2| ->%list_elem_of_singleton]%elem_of_app Hne; try done.
    + apply (iv_rid _ _ _ HI); auto using zombie_rec.
    + rewrite Ek, Eid. apply (iv_rid _ _ _ HI); auto using zombie_rec. intros E. symmetry in E. by eapply inflight_not_zombie.
    + rewrite Ek, Eid. apply (iv_rid _ _ _ HI); auto using zombie_rec. intros E. by eapply inflight_not_zombie.
  - intros x k v [Hx| ->%list_elem_of_singleton]%elem_of_app; [apply (iv_claimed _ _ _ HI); by apply zombie_rec|].
    rewrite Ecl, Ek, Eid. by apply (iv_claimed _ _ _ HI).
  - apply HI.
  - intros x v k [Hx| ->%list_elem_of_singleton]%elem_of_app HD; [apply (iv_gone _ _ _ HI); auto using zombie_rec|].
    rewrite Ek, Eid. apply (iv_gone _ _ _ HI); [done|set_solver].
  - apply (iv_retry _ _ _ HI).
  - intros x k v Hx Hv. assert (∃ x', x' ∈ recs s ∧ r_claimed x' !! k = Some v) as (x' & Hx' & Hv').
    { apply elem_of_app in Hx as [Hx| ->%list_elem_of_singleton]; [exists x; auto using zombie_rec|].
      exists r. by rewrite <- Ecl. }
    destruct (iv_claimer _ _ _ HI x' k v Hx' Hv') as [(y & ? & ?)|?]; [left; exists y; set_solver|by right].
  - intros x [Hx| ->%list_elem_of_singleton]%elem_of_app Hs; [by apply (iv_read _ _ _ HI), Hs; apply zombie_rec|done].
Qed.

Lemma trim_sublist n zs : trim_zombies n zs `sublist_of` zs.
Proof.
  revert zs. induction n as [|n IH]; intros zs; cbn; [done|]. destruct (list_find _ zs) as [[i z]|] eqn:E; [|done].
  etrans; [apply IH|]. apply list_find_Some in E as (Hi & _). rewrite <- (take_drop_middle zs i z Hi) at 3.
  apply sublist_app; [done|]. by apply sublist_cons.
Qed.

Lemma trim_sight D k n zs : sight D k (trim_zombies n zs) = sight D k zs.
Proof.
  revert zs. induction n as [|n IH]; intros zs; cbn [trim_zombies]; [done|]. destruct (list_find _ zs) as [[i z]|] eqn:E; [|done].
  rewrite IH. apply list_find_Some in E as (Hi & Hz & _). rewrite <- (take_drop_middle zs i z Hi) at 3.
  unfold sight. rewrite !zsum_app, zsum_cons. rewrite decide_False; [lia|]. unfold sighted. rewrite Hz. by intros [[? ?] _].
Qed.

Lemma trim_sighted n zs z : z ∈ zs → sighted z → z ∈ trim_zombies n zs.
Proof.
  revert zs. induction n as [|n IH]; intros zs Hz Hs; cbn [trim_zombies]; [done|].
  destruct (list_find _ zs) as [[i y]|] eqn:E; [|done]. apply IH; [|done].
  apply list_find_Some in E as (Hi & Hy & _). rewrite <- (take_drop_middle zs i y Hi) in Hz.
  apply elem_of_app in Hz as [?|[->|?]%elem_of_cons]; [set_solver| |set_solver].
  unfold sighted in Hs. rewrite Hy in Hs. by destruct Hs.
Qed.
