(* ===== verification/RoundSafety.v ===== *)
(** * No order is lost: the operations

    Every operation of Rounds.v preserves the conservation invariant of RoundInv.v, hence the
    theorem on runs at the end of the file. *)
From S2P Require Import Prelude Orders Clearing RoundPlan Batch Bytes Wire Telemetry Finality Executions Rounds RoundLogic RoundInv.

(** ** More about triples *)
Lemma bind_inv {A B} (c : M A) (f : A → M B) s b s' :
  (c ≫= f) s = (Ok b, s') → ∃ a s1, c s = (Ok a, s1) ∧ f a s1 = (Ok b, s').
Proof. unfold mbind, M_bind. destruct (c s) as [[a|e] s1]; [eauto|discriminate]. Qed.

Lemma triple_pure {A} P (c : M A) Q E (R : A → Prop) :
  triple coherent P c Q E → (∀ s a s', c s = (Ok a, s') → R a) → triple coherent P c (λ a s, Q a s ∧ R a) E.
Proof.
  intros H HR s Hs Hg. specialize (H s Hs Hg). destruct (c s) as [[a|e] s'] eqn:Ec; [|done]. eauto.
Qed.

(** Programs that never raise. *)
Definition total {A} (c : M A) : Prop := ∀ s e, (c s).1 ≠ Raise e.

Lemma triple_total {A} P (c : M A) Q E F : triple coherent P c Q E → total c → triple coherent P c Q F.
Proof.
  intros H Ht s Hs Hg. specialize (H s Hs Hg). specialize (Ht s). destruct (c s) as [[a|e] s']; [done|].
  by destruct (Ht e).
Qed.

Lemma m_total_bind {A B} (c : M A) (f : A → M B) : total c → (∀ a, total (f a)) → total (c ≫= f).
Proof.
  intros Hc Hf s e. unfold mbind, M_bind. specialize (Hc s). destruct (c s) as [[a|e'] s']; [apply Hf|].
  by destruct (Hc e').
Qed.

Lemma total_for_each {A B} (body : B → A → M B) l : (∀ b x, total (body b x)) → ∀ acc, total (for_each body acc l).
Proof. intros H. induction l as [|x l IH]; intros acc; [done|]. cbn [for_each]. by apply m_total_bind. Qed.

Lemma total_attempt {A} (c : M A) : total (attempt c).
Proof. intros s e. unfold attempt. by destruct (c s). Qed.

(** A step that keeps the precondition. *)
Lemma seq_keep {A B} P (c : M A) (f : A → M B) R E :
  (∀ a, Grows (f a)) → keep P c → (∀ s, P s → E s) → (∀ a, triple coherent P (f a) R E) →
  triple coherent P (c ≫= f) R E.
Proof.
  intros Hg Hc HE Hf. eapply (triple_bind coherent coherent_prefix _ _ _ (λ _, P)); [done| |done].
  eapply triple_conseq; [exact Hc|done..].
Qed.

Ltac total_tac :=
  repeat first
    [ progress intros
    | apply m_total_bind
    | match goal with |- total (match ?x with _ => _ end) => destruct x end
    | apply total_attempt | apply total_for_each
    | done ].

Lemma confirmed_total views cfg r t : total (confirmed views cfg r t).
Proof. unfold confirmed, advancing. total_tac. Qed.

(** The tracked rounds and the build's locals as they were in [s0]. *)
Definition frame (s0 s : state) : Prop :=
  inflight s = inflight s0 ∧ zombies s = zombies s0 ∧ next_ref s = next_ref s0 ∧ taken s = taken s0 ∧ ended s = ended s0.

Lemma frame_stable s0 : stable (frame s0).
Proof.
  apply (stable_rest (λ i z n t e, i = inflight s0 ∧ z = zombies s0 ∧ n = next_ref s0 ∧ t = taken s0 ∧ e = ended s0)).
Qed.

Lemma frame_recs s0 s : frame s0 s → recs s = recs s0.
Proof. intros (E1 & E2 & _). unfold recs, records. by rewrite E1, E2. Qed.

Section operations.
Context (views : nat → view) (commitment round_id : bytes → bytes) (cfg : config) (m : Z).
Hypothesis arrivals_ok : ∀ n p, p ∈ v_arrivals (views n) → valid_side p.1.
Local Notation seq := (triple_bind coherent coherent_prefix).

(** ** Reads *)
Lemma see_triple P r : stable P →
  triple coherent P (see views r) (λ a s, P s ∧ (a ≠ None → ∃ l, log s = l ++ [LSeen (r_rid r) (keys r)])) P.
Proof.
  intros HP. unfold see. eapply seq; [intros; grow|by apply keep_landed_slot|].
  intros [n|]; [|by apply triple_ret].
  eapply seq; [intros; grow| |].
  - apply (triple_modify coherent P _ (λ _ s, P s ∧ ∃ l, log s = l ++ [LSeen (r_rid r) (keys r)])).
    intros s Hs _. split; [apply st_log; [done..|by repeat constructor]|]. by exists (log s).
  - intros ?. apply triple_ret. intros s [? ?] _. done.
Qed.

Lemma rival_triple P r : stable P → triple coherent P (rival_landed views r) (λ _, P) (λ _, False).
Proof.
  intros HP. unfold rival_landed. eapply seq; [intros; grow|by apply (triple_gets coherent P records (λ _, P))|]. intros rs.
  apply (triple_for_each coherent coherent_prefix (λ _ _, P)); [intros; grow|]. intros b x _.
  repeat case_match; try by apply triple_ret.
  eapply (seq _ _ _ (λ _, P)); [intros; grow| |intros; by apply triple_ret].
  eapply (triple_catch coherent coherent_prefix _ _ _ (λ _, P)); [intros; grow|by apply keep_landed_slot|].
  intros e. eapply seq; [intros; grow| |].
  - apply (triple_modify coherent P _ (λ _ _, False)). intros s _ Hg. apply (co_reads _ Hg). cbn. set_solver.
  - intros ? s [].
Qed.

(** ** Settling *)
Lemma seal_side o s o' s' : seal_material views commitment cfg o s = (Ok o', s') → side o' = side o.
Proof.
  unfold seal_material. intros (ob & s1 & _ & H)%bind_inv. destruct (ENC_MODE cfg).
  - apply bind_inv in H as (ct & s2 & _ & H). apply bind_inv in H as (c & s3 & _ & H). injection H as <- _. done.
  - apply bind_inv in H as (n & s2 & _ & H). injection H as <- _. done.
Qed.

Lemma post_side o s x s' : post_carry_seal views commitment cfg m o s = (Ok x, s') → side x.1 = side o.
Proof.
  unfold post_carry_seal. intros ([o'|e] & s1 & H1 & H)%bind_inv.
  - assert (side o' = side o) as Hs.
    { unfold attempt in H1. destruct (commit o).
      - by injection H1 as <- _.
      - destruct (seal_material views commitment cfg o s) as [r s2] eqn:E. injection H1 as -> _. by eapply seal_side. }
    apply bind_inv in H as (u & s2 & _ & H). injection H as <- _. done.
  - by injection H as <- _.
Qed.

Lemma carry_one_sides c t acc o s acc' s' :
  carry_one views commitment cfg m c t acc o s = (Ok acc', s') →
  (∀ x, x ∈ acc.1 → valid_side x) → valid_side o → ∀ x, x ∈ acc'.1 → valid_side x.
Proof.
  destruct acc as [carried st]. unfold carry_one. intros H Hc Ho. case_match; [by injection H as <- _|].
  apply bind_inv in H as (exp & s1 & _ & H). case_match; [by injection H as <- _|].
  apply bind_inv in H as (ref & s2 & _ & H). apply bind_inv in H as (x & s3 & Hx & H).
  destruct x.2.
  - injection H as <- _. cbn [fst] in *. intros y [Hy|Hy]%elem_of_app; [by apply Hc|].
    apply list_elem_of_singleton in Hy as ->. apply post_side in Hx. unfold valid_side in *. cbn in Hx. by rewrite Hx.
  - apply bind_inv in H as (u & s4 & _ & H). by injection H as <- _.
Qed.

Lemma carry_sides c t l : ∀ acc s acc' s',
  for_each (carry_one views commitment cfg m c t) acc l s = (Ok acc', s') →
  (∀ x, x ∈ acc.1 → valid_side x) → (∀ o, o ∈ l → valid_side o) → ∀ x, x ∈ acc'.1 → valid_side x.
Proof.
  induction l as [|o l IH]; intros acc s acc' s' H Hc Hl; [by injection H as <- _|].
  cbn [for_each] in H. apply bind_inv in H as (acc1 & s1 & H1 & H).
  eapply IH; [exact H| |set_solver]. eapply carry_one_sides; [exact H1|done|set_solver].
Qed.

Lemma carry_one_keep P c t acc o : stable P → valid_side o → keep P (carry_one views commitment cfg m c t acc o).
Proof.
  intros HP Ho. destruct acc as [carried st]. unfold carry_one. case_match; [apply keeps_ret|].
  apply seq_keep; [intros; grow|apply keeps_gets|done|]. intros exp. case_match; [apply keeps_ret|].
  apply seq_keep; [intros; grow|by apply keep_observe|done|]. intros ref.
  eapply seq; [intros; grow|apply (triple_pure P _ (λ _, P) P (λ x, side x.1 = side o)); [by apply keep_post_carry_seal|intros s x s' Hx; by apply post_side in Hx]|].
  intros x. destruct x.2.
  - apply triple_ret. by intros s [? _].
  - eapply (seq _ _ _ (λ _, P)); [intros; grow| |intros; apply keeps_ret].
    apply triple_modify. intros s [Hs Hx] _. apply st_retry; [done..|]. unfold valid_side in *. cbn in Hx. by rewrite Hx.
Qed.

Lemma carry_triple P sealed c t :
  stable P → (∀ o, o ∈ sealed → valid_side o) →
  triple coherent P (for_each (carry_one views commitment cfg m c t) ([], []) sealed)
    (λ acc s, P s ∧ ∀ o, o ∈ acc.1 → valid_side o) P.
Proof.
  intros HP Hside. apply triple_pure; [|intros s acc s' H; eapply carry_sides; [exact H|set_solver|done]].
  assert (HT : triple coherent (λ s, P s ∧ ∀ o, o ∈ sealed → valid_side o) (for_each (carry_one views commitment cfg m c t) ([], []) sealed)
    (λ _ s, P s ∧ ∀ o, o ∈ ([] : list order) → valid_side o) P).
  - apply (triple_for_each coherent coherent_prefix (λ _ rest s, P s ∧ ∀ o, o ∈ rest → valid_side o)); [intros; grow|].
    intros acc o rest. intros s [Hs Hr] Hc. pose proof (carry_one_keep P c t acc o HP (Hr o ltac:(set_solver)) s Hs Hc) as H.
    destruct (carry_one _ _ _ _ _ _ _ _ s) as [[]]; [|done]. split; [done|]. set_solver.
  - eapply triple_conseq; [exact HT|done|by intros ?? [? _]|done].
Qed.

Lemma enqueue_triple h D s0 x ks os :
  (∀ o, o ∈ os → valid_side o) →
  keep (λ s, (Inv h D s ∧ live (log s) x ks) ∧ frame s0 s) (enqueue os).
Proof.
  intros Hos s [[HI He] Hf] _. unfold enqueue. cbn. split; [split|done].
  - by apply (inv_enqueue h D s os false).
  - apply live_app; [done|]. intros (o & ? & _)%list_elem_of_fmap. done.
Qed.

Lemma held_stable h D s0 x ks : stable (λ s, (Inv h D s ∧ live (log s) x ks) ∧ frame s0 s).
Proof. apply stable_and; [apply stable_and; [apply inv_stable|apply stable_live]|apply frame_stable]. Qed.

Lemma carry_keep h D s0 x ks sealed c t :
  (∀ o, o ∈ sealed → valid_side o) →
  keep (λ s, (Inv h D s ∧ live (log s) x ks) ∧ frame s0 s) (carry_sealed_remainders views commitment cfg m sealed c t).
Proof.
  intros Hside. unfold carry_sealed_remainders.
  eapply seq; [intros; grow|apply carry_triple; [apply held_stable|done]|]. intros acc.
  intros s [Hs Hacc]. apply (keeps_bind coherent coherent_prefix); [intros; grow|by apply enqueue_triple|intros; apply keeps_ret|done].
Qed.

(** The orders of a round that counts as landed, held and not claimed, are settled. *)
Lemma finalize_triple h D s0 r :
  (∀ k, r_claimed r !! k = None) → (∀ o, o ∈ r_orders r → valid_side o) →
  (∀ r' k, r' ∈ recs s0 → r_ref r' ∉ D → k ∈ keys r' → k ∈ keys r → r_rid r' ≠ r_rid r) →
  triple coherent (λ s, (Inv (r_orders r ++ h) D s ∧ live (log s) (r_rid r) (keys r)) ∧ frame s0 s)
    (finalize_round views commitment cfg m r) (λ _ s, (Inv h D s ∧ frame s0 s) ∧ all_settled r s) (λ _, True).
Proof.
  intros Hcl Hside Hoth. unfold finalize_round.
  assert (Hall : ∀ l : list order, filter (λ o, order_key o ∉ dom (r_claimed r)) l = l).
  { intros l. apply filter_all. intros o _. rewrite elem_of_dom, Hcl. intros [? ?]; done. }
  rewrite !Hall. pose proof (held_stable (r_orders r ++ h) D s0 (r_rid r) (keys r)) as HP.
  assert (HQ : stable (λ s, (Inv h D s ∧ frame s0 s) ∧ all_settled r s)).
  { apply stable_and; [apply stable_and; [apply inv_stable|apply frame_stable]|apply stable_settled]. }
  apply seq_keep; [intros; grow|by apply keep_time|done|]. intros now.
  apply seq_keep; [intros; grow|apply (keep_core _ HP); intros; repeat case_match; done|done|]. intros ?.
  apply seq_keep; [intros; grow|apply carry_keep; unfold r_orders in *; set_solver|done|]. intros stamps.
  apply seq_keep; [intros; grow|by apply keep_record_settled|done|]. intros ?.
  eapply (seq _ _ _ (λ _ s, (Inv h D s ∧ frame s0 s) ∧ all_settled r s)); [intros; grow| |].
  - apply triple_modify. intros s [[HI Hs] Hf] _. split; [split; [|done]|].
    2: { intros k (o & Ho & <-)%elem_of_keys. apply elem_of_app. right. apply list_elem_of_fmap. by exists o. }
    apply (inv_close h D s (r_orders r) (LSettled (r_rid r))); [done| |done].
    intros x k o Ho [= <- <-]. split.
    + exists (keys r). split; [done|]. apply elem_of_keys. eauto.
    + intros r' Hr' HD Hk. rewrite (frame_recs _ _ Hf) in Hr'. intros E. symmetry in E. revert E.
      eapply Hoth; [done|done|exact Hk|apply elem_of_keys; eauto].
  - intros ?. apply seq_keep; [intros; grow|by apply (keep_core _ HQ)|done|]. intros ?.
    eapply triple_conseq; [by apply keep_effects|done..].
Qed.

Lemma finalize_total r : total (finalize_round views commitment cfg m r).
Proof.
  unfold finalize_round, carry_sealed_remainders, carry_one, post_carry_seal, enqueue, record_settled,
    settle_height, read_fin, time. total_tac.
Qed.

(** ** Sweeping the released rounds *)

(** [D]: the rounds done with; [kept]: those still watched; [rest]: those not visited yet; [none]: no
    round is in flight. *)
Record sweep (h t : list order) (e : gset key) (none : Prop) (tk : gset key) (kept rest : list positive)
    (D : gset positive) (s : state) : Prop := {
  sw_inv : Inv (drop_claimed tk h) D s;
  sw_taken : taken s = t;
  sw_ended : ended s = e;
  sw_none : inflight s = None ↔ none;
  sw_nodup : NoDup rest;
  sw_rest x : x ∈ rest → x ∉ kept ∧ x ∉ D;
  sw_kept x : x ∈ kept → x ∉ D;
  sw_done x : x ∈ D → ∃ z, z ∈ zombies s ∧ r_ref z = x;
  sw_all z : z ∈ zombies s → r_ref z ∉ D → r_ref z ∈ kept ∨ r_ref z ∈ rest;
  sw_claimed k : k ∈ tk → ∃ z, z ∈ zombies s ∧ sighted z ∧ k ∈ keys z ∧ r_ref z ∈ kept;
  sw_settled z : z ∈ zombies s → r_ref z ∈ D → sighted z → all_settled z s
}.

Section sweep_facts.
Context (h t : list order) (e : gset key) (none : Prop) (tk : gset key) (kept rest : list positive).
Context (D : gset positive) (x : positive).
Local Notation sw := (sweep h t e none).

Lemma sweep_stable kept' rest' : stable (sw tk kept' rest' D).
Proof.
  split.
  - intros s os [] Hc Hs. split; try done; [by apply (st_arrive _ (inv_stable _ _))|].
    intros z Hz HD Hsz. apply (st_arrive _ (stable_settled z)); [|done..]. by apply sw_settled0.
  - intros s s' [] Hc. pose proof Hc as (E1 & E2 & E3 & E4 & E5 & E6 & E7 & E8).
    split; rewrite ?E2, ?E3, ?E6, ?E7; try done; [by eapply inv_core|].
    intros z Hz HD Hs k Hk. rewrite E4. by apply (sw_settled0 z).
  - intros s l [] Hl. split; try done; [by apply inv_log|].
    intros z Hz HD Hs. apply (st_log _ (stable_settled z)); [|done]. by apply sw_settled0.
  - intros s o [] Ho. split; try done. by apply (st_retry _ (inv_stable _ _)).
Qed.

Lemma sweep_keep s : sw tk kept (x :: rest) D s → sw tk (kept ++ [x]) rest D s.
Proof.
  intros [H1 H2 H3 H4 H5 H6 H7 H8 H9 H10 H11]. apply NoDup_cons in H5 as [Hx H5].
  assert (Hx' : x ∉ D) by (apply H6; set_solver). split; try done.
  - intros y Hy. destruct (H6 y); [set_solver|]. split; [|done]. intros [?|?]%elem_of_app; set_solver.
  - intros y [?|?]%elem_of_app; [auto|set_solver].
  - intros z Hz HD. destruct (H9 z Hz HD) as [?|?]; set_solver.
  - intros k Hk. destruct (H10 k Hk) as (z & ? & ? & ? & ?). exists z. set_solver.
Qed.

(** The visited round is done with: dropped or settled. *)
Lemma sweep_done s s' z :
  sw tk kept (x :: rest) D s → z ∈ zombies s → r_ref z = x → Inv (drop_claimed tk h) ({[x]} ∪ D) s' → frame s s' →
  log s `prefix_of` log s' → (sighted z → all_settled z s') → sw tk kept rest ({[x]} ∪ D) s'.
Proof.
  intros [H1 H2 H3 H4 H5 H6 H7 H8 H9 H10 H11] Hz Ez HI (E1 & E2 & _ & E3 & E4) Hpre Hset.
  assert (Hnd : NoDup (map r_ref (zombies s))) by (by eapply zombie_refs). apply NoDup_cons in H5 as [Hx H5].
  assert (Hxk : x ∉ kept) by (apply H6; set_solver).
  split; rewrite ?E1, ?E2, ?E3, ?E4; try done.
  - intros y Hy. destruct (H6 y); [set_solver|]. split; [done|]. set_solver.
  - intros y Hy. specialize (H7 y Hy). set_solver.
  - intros y [->%elem_of_singleton|Hy]%elem_of_union; [by exists z|auto].
  - intros y Hy HD. destruct (H9 y Hy) as [?|?]; set_solver.
  - intros y Hy HD Hs. destruct (decide (r_ref y = x)) as [E|E].
    + rewrite <- Ez in E. rewrite (NoDup_map_inj r_ref (zombies s) y z Hnd Hy Hz E) in *. by apply Hset.
    + intros k Hk. eapply elem_of_prefix; [|exact Hpre]. apply (H11 y); [done|set_solver|done..].
Qed.

(** There is no such round. *)
Lemma sweep_skip s : sw tk kept (x :: rest) D s → (∀ z, z ∈ zombies s → r_ref z ≠ x) → sw tk kept rest D s.
Proof.
  intros [H1 H2 H3 H4 H5 H6 H7 H8 H9 H10 H11] Hno. apply NoDup_cons in H5 as [Hx H5]. split; try done.
  - intros y Hy. apply H6. set_solver.
  - intros z Hz HD. destruct (H9 z Hz HD) as [?|[?|?]%elem_of_cons]; [by left|by destruct (Hno z)|by right].
Qed.

(** The tracked rounds were updated in place, and the visited one is kept. *)
Lemma sweep_map tk' g pf s :
  sw tk kept (x :: rest) D s → keeps_orders g → Inv (drop_claimed tk' h) D (with_pending pf (map_recs g s)) →
  (∀ y, y ∈ zombies s → r_ref y ≠ x → sighted y ↔ sighted (g y)) →
  (∀ k, k ∈ tk' → k ∈ tk ∨ ∃ z, z ∈ zombies s ∧ r_ref z = x ∧ sighted (g z) ∧ k ∈ keys z) →
  sw tk' (kept ++ [x]) rest D (with_pending pf (map_recs g s)).
Proof.
  intros Hsw Hg HI Hs Htk. pose proof (sweep_keep _ Hsw) as [_ _ _ _ _ K6 K7 K8 K9 _ _].
  destruct Hsw as [H1 H2 H3 H4 H5 H6 H7 H8 H9 H10 H11]. apply NoDup_cons in H5 as [Hx H5].
  split; cbn [taken ended inflight zombies with_pending map_recs with_zombies with_inflight]; try done.
  - rewrite <- H4. destruct (inflight s); done.
  - intros y Hy. destruct (K8 y Hy) as (z & Hz & Ez). exists (g z). rewrite (ko_ref g Hg). split; [by apply list_elem_of_fmap_2|done].
  - intros z (y & -> & Hy)%list_elem_of_fmap. rewrite (ko_ref g Hg). by apply K9.
  - intros k Hk. destruct (Htk k Hk) as [Hk'|(z & Hz & Ez & Hsz & Hkz)].
    + destruct (H10 k Hk') as (z & Hz & Hsz & Hkz & Hr). exists (g z).
      rewrite (ko_ref g Hg), (ko_keys g _ Hg). split_and!; [by apply list_elem_of_fmap_2| |done|set_solver].
      refine (proj1 (Hs z Hz _) Hsz). intros E. destruct (H6 x) as [Hn _]; [set_solver|]. apply Hn. by rewrite <- E.
    + exists (g z). rewrite (ko_ref g Hg), (ko_keys g _ Hg), Ez. split_and!; [by apply list_elem_of_fmap_2|done|done|set_solver].
  - intros z (y & -> & Hy)%list_elem_of_fmap. rewrite (ko_ref g Hg). intros HD Hsy k.
    rewrite (ko_keys g _ Hg), (ko_rid g Hg). apply (H11 y); [done|done|]. refine (proj2 (Hs y Hy _) Hsy).
    intros <-. destruct (H6 (r_ref y)); [set_solver|done].
Qed.

(** An entry that ends no order is logged. *)
Lemma sweep_log s l :
  sw tk kept rest D s → Inv (drop_claimed tk h) D (with_log l s) → sw tk kept rest D (with_log l s).
Proof.
  intros [H1 H2 H3 H4 H5 H6 H7 H8 H9 H10 H11] HI. split; try done.
  intros z Hz HD Hs k Hk. apply elem_of_app. left. by apply (H11 z).
Qed.
End sweep_facts.

Lemma drop_claimed_union tk ks h : drop_claimed (tk ∪ ks) h = drop_claimed ks (drop_claimed tk h).
Proof.
  unfold drop_claimed. rewrite list_filter_filter. apply filter_ext_elem. intros o _. set_solver.
Qed.

(** The visited round [z] is tracked. *)
Definition visiting (z : round_rec) (Q : state → Prop) (s : state) : Prop := Q s ∧ z ∈ zombies s.

Lemma visiting_stable z Q : stable Q → stable (visiting z Q).
Proof. intros HQ. apply stable_and; [done|]. apply (stable_rest (λ _ zs _ _ _, z ∈ zs)). Qed.

Section step.
Context (h t : list order) (e : gset key) (none : Prop) (now : Z) (tk : gset key) (kept rest : list positive).
Context (D : gset positive) (z : round_rec).
Local Notation here := (visiting z (sweep h t e none tk kept (r_ref z :: rest) D)).
Local Notation next := (λ (acc : gset key * list positive) s, ∃ D', sweep h t e none acc.1 acc.2 rest D' s).

Lemma here_stable : stable here.
Proof. apply visiting_stable, sweep_stable. Qed.

Lemma here_not_done s : here s → r_ref z ∉ D.
Proof. intros [Hs _]. apply (sw_rest _ _ _ _ _ _ _ _ _ Hs). set_solver. Qed.

Lemma step_keep : triple coherent here (mret (tk, kept ++ [r_ref z])) next (λ _, False).
Proof. apply triple_ret. intros s [Hs _] _. exists D. by apply sweep_keep. Qed.

Lemma step_claim :
  r_ok_since z = None →
  triple coherent (λ s, here s ∧ ∃ l, log s = l ++ [LSeen (r_rid z) (keys z)])
    (_ ← modify (upd_rec (r_ref z) (set_ok_since (Some now)));
     ks ← claim z; mret (tk ∪ ks, kept ++ [r_ref z])) next (λ _, False).
Proof.
  intros Hok s [Hh Hseen] Hc. pose proof (here_not_done s Hh) as HD. destruct Hh as [Hs Hz]. cbn in Hc |- *.
  exists D. pose proof (inv_claim _ _ _ z now (sw_inv _ _ _ _ _ _ _ _ _ Hs) Hc Hz Hok HD Hseen) as HI.
  rewrite <- drop_claimed_union in HI.
  assert (Hsw : sweep h t e none (tk ∪ keys z) (kept ++ [r_ref z]) rest D
    (with_pending (filter (λ o, order_key o ∉ keys z)) (map_recs (claim_fn z now) s))).
  { eapply sweep_map; [exact Hs|apply claim_fn_ko|done| |].
    - intros y Hy Hne. rewrite claim_fn_sighted. tauto.
    - intros k [?|?]%elem_of_union; [by left|]. right. exists z. split_and!; [done..| |done].
      apply claim_fn_sighted. by right. }
  eapply st_core; [apply sweep_stable|exact Hsw|].
  unfold same_core. cbn. rewrite List.map_map, <- option_fmap_compose. done.
Qed.

Lemma step_revert :
  sighted z →
  triple coherent here
    (_ ← modify (upd_rec (r_ref z) (set_ok_since None)); _ ← unclaim z;
     _ ← add_log [LGone (r_rid z)];
     _ ← effects (map (λ o, ECall (Telemetry.Reverted (m, account o, oid o))) (r_orders z));
     mret (tk, kept ++ [r_ref z])) next (λ _, False).
Proof.
  intros Hsz s Hh Hc. pose proof (here_not_done s Hh) as HD. destruct Hh as [Hs Hz].
  assert (Hc' : coherent (log s)).
  { eapply coherent_prefix; [|exact Hc].
    match goal with |- _ `prefix_of` log (?c s).2 => assert (Hg : Grows c) by (unfold unclaim; grow) end. apply Hg. }
  set (s1 := map_recs (unclaim_fn z) s).
  set (pf := app (filter (λ o, order_key o ∉ busy_keys z s1) (r_orders z))).
  assert (Hsw : sweep h t e none tk (kept ++ [r_ref z]) rest D (with_pending pf s1)).
  { eapply sweep_map; [exact Hs|apply unclaim_fn_ko| | |by left].
    - by apply (inv_unclaim _ _ _ z (sw_inv _ _ _ _ _ _ _ _ _ Hs)).
    - intros y Hy Hne. rewrite unclaim_fn_sighted. tauto. }
  apply (sweep_log _ _ _ _ _ _ _ _ _ [LGone (r_rid z)]) in Hsw;
    [|by apply (inv_reverted _ _ _ z (sw_inv _ _ _ _ _ _ _ _ _ Hs))].
  exists D. apply (st_log _ (sweep_stable _ _ _ _ _ _ _ _)); [|apply Forall_forall; intros ? (? & -> & _)%list_elem_of_fmap; done].
  eapply st_core; [apply sweep_stable|exact Hsw|].
  unfold same_core, pf, busy_keys, s1, records. cbn. destruct (inflight s); cbn; rewrite List.map_map; done.
Qed.

(** The landing held: the round is settled and no longer watched. *)
Lemma step_settle :
  sighted z →
  triple coherent (λ s, here s ∧ live (log s) (r_rid z) (keys z))
    (_ ← attempt (finalize_round views commitment cfg m z); mret (tk, kept)) next (λ _, False).
Proof.
  intros Hsz s [Hh Hseen] Hc. pose proof (here_not_done s Hh) as HD. destruct Hh as [Hs Hz].
  assert (Hg : Grows (_ ← attempt (finalize_round views commitment cfg m z); mret (tk, kept))) by grow.
  pose proof (coherent_prefix _ _ (Hg s) Hc) as Hc'. pose proof (sw_inv _ _ _ _ _ _ _ _ _ Hs) as HI.
  revert Hc. unfold mbind, M_bind, attempt.
  assert (Ht := finalize_total z s). destruct (finalize_round views commitment cfg m z s) as [[u|ex] s'] eqn:Ef; [|by destruct (Ht ex)].
  cbn. intros Hc. exists ({[r_ref z]} ∪ D).
  assert (Hcl : ∀ k, r_claimed z !! k = None) by (intros k; eapply no_claims; [exact HI|done|by apply zombie_rec|done]).
  assert (Hsd : ∀ o, o ∈ r_orders z → valid_side o) by (intros o Ho; by apply (iv_orders _ _ _ HI z o (zombie_rec _ _ Hz))).
  assert (Hoth : ∀ r' k, r' ∈ recs s → r_ref r' ∉ ({[r_ref z]} ∪ D : gset positive) → k ∈ keys r' → k ∈ keys z → r_rid r' ≠ r_rid z).
  { intros r' k Hr' HD' Hk Hkz. apply (iv_rid _ _ _ HI r' z k); auto using zombie_rec. set_solver. }
  pose proof (finalize_triple (drop_claimed tk h) ({[r_ref z]} ∪ D) s z Hcl Hsd Hoth s) as Hfin. rewrite Ef in Hfin.
  destruct Hfin as [[Hfi Hff] Hset]; [split; [split; [by apply inv_hold_zombie|done]|done]|exact Hc|].
  pose proof (grows_finalize views commitment cfg m z s) as Hpre. rewrite Ef in Hpre. by eapply sweep_done.
Qed.

Lemma step_sighted :
  sighted z →
  triple coherent (λ s, here s ∧ live (log s) (r_rid z) (keys z))
    (ok ← confirmed views cfg z now;
     if (ok : bool) then
       rival ← rival_landed views z;
       if (rival : bool) then mret (tk, kept ++ [r_ref z])
       else _ ← attempt (finalize_round views commitment cfg m z); mret (tk, kept)
     else mret (tk, kept ++ [r_ref z])) next (λ _, False).
Proof.
  intros Hsz. assert (HP : stable (λ s, here s ∧ live (log s) (r_rid z) (keys z))).
  { apply stable_and; [apply here_stable|apply stable_live]. }
  assert (Hkeep : triple coherent (λ s, here s ∧ live (log s) (r_rid z) (keys z)) (mret (tk, kept ++ [r_ref z])) next (λ _, False)).
  { eapply triple_conseq; [apply step_keep|by intros s [? _]|done|done]. }
  eapply seq; [intros; grow|eapply triple_total; [by apply keep_confirmed|apply confirmed_total]|].
  intros [|]; [|exact Hkeep].
  eapply seq; [intros; grow|by apply rival_triple|]. intros [|]; [exact Hkeep|]. by apply step_settle.
Qed.
End step.

Lemma step_zombie_triple h t e none now tk kept x rest D :
  triple coherent (sweep h t e none tk kept (x :: rest) D) (step_zombie views commitment cfg m now (tk, kept) x)
    (λ acc s, ∃ D', sweep h t e none acc.1 acc.2 rest D' s) (λ _, False).
Proof.
  unfold step_zombie.
  eapply (seq _ _ _ (λ zo s, sweep h t e none tk kept (x :: rest) D s ∧ list_find (λ z, r_ref z = x) (zombies s) = zo));
    [intros; grow|by apply triple_gets|].
  intros [[i z]|].
  2: { apply triple_ret. intros s [Hs Hn] _. exists D. eapply sweep_skip; [done|]. intros z Hz E.
       apply list_find_None in Hn. rewrite Forall_forall in Hn. by apply (Hn z). }
  intros s [Hs (Hi & <- & _)%list_find_Some]. revert s Hs Hi.
  enough (H : triple coherent (visiting z (sweep h t e none tk kept (r_ref z :: rest) D))
    (if bool_decide (r_ok_since z = None) &&
         (ZOMBIE_WATCH_SECS cfg <? now - match r_abandoned z with Some p => p.1 | None => 0 end)
      then mret (tk, kept)
      else
        slot ← attempt (see views z);
        match slot, r_ok_since z with
        | Raise _, _ => mret (tk, kept ++ [r_ref z])
        | Ok (Some _), None =>
            _ ← modify (upd_rec (r_ref z) (set_ok_since (Some now)));
            ks ← claim z;
            mret (tk ∪ ks, kept ++ [r_ref z])
        | Ok (Some _), Some _ =>
            ok ← confirmed views cfg z now;
            if (ok : bool) then
              rival ← rival_landed views z;
              if (rival : bool) then mret (tk, kept ++ [r_ref z])
              else _ ← attempt (finalize_round views commitment cfg m z); mret (tk, kept)
            else mret (tk, kept ++ [r_ref z])
        | Ok None, Some _ =>
            _ ← modify (upd_rec (r_ref z) (set_ok_since None));
            _ ← unclaim z;
            _ ← add_log [LGone (r_rid z)];
            _ ← effects (map (λ o, ECall (Telemetry.Reverted (m, account o, oid o))) (r_orders z));
            mret (tk, kept ++ [r_ref z])
        | Ok None, None => mret (tk, kept ++ [r_ref z])
        end) (λ acc s, ∃ D', sweep h t e none acc.1 acc.2 rest D' s) (λ _, False)).
  { intros s Hs Hi. apply H. split; [done|]. by eapply list_elem_of_lookup_2. }
  case_match eqn:Eold.
  - apply andb_true_iff in Eold as [Eok%bool_decide_eq_true _]. apply triple_ret. intros s [Hs Hz] _.
    exists ({[r_ref z]} ∪ D). assert (Hns : ¬ sighted z) by (unfold sighted; rewrite Eok; by intros [? ?]).
    eapply sweep_done; [exact Hs|exact Hz|done| |done|done|done]. apply inv_forget_zombie; [apply Hs|done..].
  - eapply seq; [intros; grow|apply triple_attempt; apply see_triple; apply here_stable|].
    intros [[n|]|ex]; destruct (r_ok_since z) as [t0|] eqn:Eok.
    + eapply triple_conseq; [apply (step_sighted h t e none now tk kept rest D z)| |intros ?? Hq; exact Hq|done].
      * unfold sighted. rewrite Eok. by eexists.
      * intros s [? Hs]. split; [done|]. destruct (Hs ltac:(done)) as [l ->]. apply live_last.
    + eapply triple_conseq; [by apply (step_claim h t e none now tk kept rest D z)| |intros ?? Hq; exact Hq|done].
      intros s [? Hs]. split; [done|]. by apply Hs.
    + eapply triple_conseq; [apply (step_revert h t e none tk kept rest D z)| |intros ?? Hq; exact Hq|done].
      * unfold sighted. rewrite Eok. by eexists.
      * by intros s [? ?].
    + eapply triple_conseq; [apply (step_keep h t e none tk kept rest D z)| |intros ?? Hq; exact Hq|done]. by intros s [? ?].
    + apply step_keep.
    + apply step_keep.
Qed.

(** ** A whole sweep *)
Lemma sight_kept (D : gset positive) (k : key) (kept : list positive) (zs : list round_rec) :
  (∀ x, x ∈ kept → x ∉ D) → (∀ z, z ∈ zs → r_ref z ∉ D → r_ref z ∈ kept) →
  sight ∅ k (filter (λ z, r_ref z ∈ kept) zs) = sight D k zs.
Proof.
  intros H7. induction zs as [|z l IH]; intros H9; [done|].
  change (sight D k (z :: l)) with (holds D k z + sight D k l). rewrite <- IH by set_solver.
  rewrite filter_cons. destruct (decide (r_ref z ∈ D)) as [HD|HD].
  - rewrite decide_False by (intros Hk; by apply (H7 _ Hk)). unfold holds. rewrite decide_False by tauto. lia.
  - rewrite decide_True by (apply H9; set_solver).
    change (sight ∅ k (z :: ?l')) with (holds ∅ k z + sight ∅ k l'). f_equal. unfold holds. apply decide_ext. set_solver.
Qed.

Lemma sweep_end h t e none tk kept D s :
  sweep h t e none tk kept [] D s →
  Inv (drop_claimed tk h) ∅ (with_zombies (filter (λ z, r_ref z ∈ kept)) s) ∧
  ∀ k, k ∈ tk → ∃ z, z ∈ filter (λ z, r_ref z ∈ kept) (zombies s) ∧ sighted z ∧ k ∈ keys z.
Proof.
  intros [HI H2 H3 H4 H5 H6 H7 H8 H9 H10 H11]. split.
  - assert (Hsub : filter (λ z, r_ref z ∈ kept) (zombies s) `sublist_of` zombies s) by apply sublist_filter.
    pose proof (inv_drop (drop_claimed tk h) D ∅ s (inflight s) _ HI Hsub) as Hd. eapply inv_core; [apply Hd|]; [by left| |..].
    + intros k. rewrite (sight_kept D) by set_solver. apply HI.
    + intros r Hr _ HD. destruct (H8 _ HD) as (z & Hz & Ez). apply elem_of_app in Hr as [Hr|Hr].
      * destruct (inflight s) as [f|] eqn:Ei; [|set_solver]. apply list_elem_of_singleton in Hr as ->.
        by apply (inflight_not_zombie _ _ _ _ _ HI Ei Hz).
      * apply list_elem_of_filter in Hr as [Hk _]. by apply (H7 _ Hk).
    + intros z k Hz Hs Hk. destruct (decide (r_ref z ∈ D)) as [HD|HD]; [right; by apply (H11 z)|left].
      apply list_elem_of_filter. split; [|done]. destruct (H9 z Hz HD); set_solver.
    + done.
  - intros k Hk. destruct (H10 k Hk) as (z & Hz & Hs & Hkz & Hr). exists z. split_and!; [|done|done].
    by apply list_elem_of_filter.
Qed.

Lemma resolve_zombies_triple h t e none now :
  triple coherent (λ s, Inv h ∅ s ∧ taken s = t ∧ ended s = e ∧ (inflight s = None ↔ none))
    (resolve_zombies views commitment cfg m now)
    (λ tk s, Inv (drop_claimed tk h) ∅ s ∧ taken s = t ∧ ended s = e ∧ (inflight s = None ↔ none) ∧
       ∀ k, k ∈ tk → ∃ z, z ∈ zombies s ∧ sighted z ∧ k ∈ keys z) (λ _, False).
Proof.
  unfold resolve_zombies.
  eapply (seq _ _ _ (λ refs s, ∃ D, sweep h t e none ∅ [] refs D s)); [intros; grow| |].
  - apply triple_gets. intros s (HI & Ht & He & Hn). exists ∅. split; try done.
    + unfold drop_claimed. rewrite filter_all by set_solver. done.
    + by eapply zombie_refs.
    + set_solver.
    + intros z Hz _. right. by apply list_elem_of_fmap_2.
  - intros refs. eapply (seq _ _ _ (λ acc s, ∃ D, sweep h t e none acc.1 acc.2 [] D s)); [intros; grow| |].
    + apply (triple_for_each coherent coherent_prefix (λ acc rest s, ∃ D, sweep h t e none acc.1 acc.2 rest D s)
        _ (λ _, False) refs (∅, [])); [intros; grow|].
      intros [tk kept] x rest s [D Hs]. by apply (step_zombie_triple h t e none now tk kept x rest D).
    + intros [tk kept] s [D Hs] Hc. cbn in *. destruct (sweep_end _ _ _ _ _ _ _ _ Hs) as [HI Hcl].
      destruct Hs. split_and!; done.
Qed.

(** ** Releasing a round *)
Lemma abandon_inv s r r' why now :
  Inv [] ∅ s → inflight s = Some r → r_orders r' = r_orders r → r_rid r' = r_rid r → r_claimed r' = r_claimed r →
  Inv [] ∅ (abandon m r' why now (with_inflight None s)).2.
Proof.
  intros HI Ei Eo Eid Ecl.
  set (z := Rec (next_ref s) (r_t r') (r_sealed r') (r_public r') (r_resting r') (r_clearing r') (r_pruned r') (r_rid r')
             (r_book_hash r') (r_consumed r') (r_set_key r') (r_minseq r') (r_claimed r') None (r_dead_since r')
             (Some (now, why))).
  assert (HI' := inv_release [] s r z HI Ei eq_refl Eo Eid Ecl). specialize (HI' ltac:(by intros [? ?])).
  assert (Eu : filter (λ o, order_key o ∉ dom (r_claimed r')) (r_orders r') = unclaimed r) by (unfold unclaimed; by rewrite Eo, Ecl).
  set (s1 := with_zombies _ _) in HI'.
  assert (HI2 : Inv [] ∅ (with_inflight None (with_zombies (λ _, trim_zombies (length (zombies s ++ [z]) - ZOMBIE_CAP) (zombies s ++ [z])) s1))).
  { apply (inv_drop [] ∅); [done|apply trim_sublist|by left| |done|].
    - intros k. rewrite trim_sight. apply (iv_count _ _ _ HI').
    - intros y k Hy Hs _. left. by apply trim_sighted. }
  assert (HI3 := inv_log [] ∅ _ (map LEff (map (λ o, ECall (Telemetry.Requeued (m, account o, oid o))) (unclaimed r))) HI2).
  eapply inv_core; [apply HI3|].
  - apply Forall_forall. intros ? (? & -> & _)%list_elem_of_fmap. done.
  - unfold abandon. rewrite Eu. unfold same_core. cbn -[trim_zombies].
    repeat (case_match; cbn -[trim_zombies]); done.
Qed.

(** ** The round in flight *)
Definition flying (r : round_rec) (s : state) : Prop := Inv [] ∅ s ∧ inflight s = Some r.

Lemma flying_stable r : stable (flying r).
Proof. apply stable_and; [apply inv_stable|]. apply (stable_rest (λ i _ _ _ _, i = Some r)). Qed.

(** Its timestamps may change. *)
Lemma flying_upd r f s :
  (∀ x, r_ref (f x) = r_ref x ∧ r_orders (f x) = r_orders x ∧ r_rid (f x) = r_rid x ∧ r_claimed (f x) = r_claimed x) →
  (sighted (f r) → live (log s) (r_rid r) (keys r)) →
  flying r s → flying (f r) (upd_rec (r_ref r) f s).
Proof.
  intros Hf Hl [HI Ei]. split.
  - apply (inv_stamp [] ∅ s (upd_one (r_ref r) f)); [| | | |done].
    + split; intros x; unfold upd_one; case_decide; try done; apply Hf.
    + intros x _. unfold upd_one. case_decide; [apply Hf|done].
    + intros z Hz. unfold upd_one. rewrite decide_False; [done|]. intros E. by apply (inflight_not_zombie _ _ _ _ _ HI Ei Hz).
    + intros x Ex. rewrite Ei in Ex. injection Ex as <-. unfold upd_one. rewrite decide_True by done. exact Hl.
  - unfold upd_rec. cbn. rewrite Ei. cbn. unfold upd_one. by rewrite decide_True.
Qed.

(** A re-org takes its landing back. *)
Lemma flying_gone r s :
  flying r s → ¬ sighted r → LSeen (r_rid r) (keys r) ∈ log s → coherent (log s) →
  Inv [] ∅ (with_log [LGone (r_rid r)] s).
Proof.
  intros [HI Ei] Hns Hread Hc. pose proof (inflight_rec _ _ Ei) as Hr.
  apply inv_gone; [done|done|done|set_solver|done|done|]. intros x k Hx Hcl.
  destruct (iv_claimed _ _ _ HI x k _ Hx Hcl) as (_ & _ & ks & Hl & Hk).
  rewrite <- (co_id _ Hc _ _ _ Hread (live_seen _ _ _ Hl)) in Hk.
  destruct (iv_claimer _ _ _ HI x k _ Hx Hcl) as [(z & Hz & _ & Ez & Hkz)|Hs].
  - revert Ez. apply (iv_rid _ _ _ HI z r k); [by apply zombie_rec|done| |done..].
    intros E. symmetry in E. by apply (inflight_not_zombie _ _ _ _ _ HI Ei Hz).
  - by apply (iv_gone _ _ _ HI r _ k Hr ltac:(set_solver) Hk Hs).
Qed.

Lemma flying_settle r r' s :
  flying r' s → r_orders r' = r_orders r → r_rid r' = r_rid r → r_claimed r' = r_claimed r →
  live (log s) (r_rid r) (keys r) → coherent (log (finalize_round views commitment cfg m r (with_inflight None s)).2) →
  Inv [] ∅ (finalize_round views commitment cfg m r (with_inflight None s)).2.
Proof.
  intros [HI Ei] Eo Eid Ecl Hseen Hc. assert (Hr : r' ∈ recs s) by (by apply inflight_rec).
  assert (Ek : keys r' = keys r) by (unfold keys; by rewrite Eo).
  pose proof (coherent_prefix _ _ (grows_finalize views commitment cfg m r (with_inflight None s)) Hc) as Hc'.
  rewrite <- Eid, <- Ek in Hseen.
  assert (Hnc : ∀ k, r_claimed r' !! k = None) by (intros k; by eapply no_claims).
  pose proof (finalize_triple [] ∅ (with_inflight None s) r) as Hfin.
  assert (Ht := finalize_total r (with_inflight None s)).
  specialize (Hfin ltac:(intros k; by rewrite <- Ecl)).
  specialize (Hfin ltac:(intros o Ho; rewrite <- Eo in Ho; by apply (iv_orders _ _ _ HI r' o Hr))).
  assert (Hoth : ∀ x k, x ∈ recs (with_inflight None s) → r_ref x ∉ (∅ : gset positive) → k ∈ keys x → k ∈ keys r → r_rid x ≠ r_rid r).
  { intros x k Hx _ Hkx Hkr. rewrite <- Eid. change (x ∈ zombies s) in Hx. apply (iv_rid _ _ _ HI x r' k); auto using zombie_rec.
    - intros E. symmetry in E. by apply (inflight_not_zombie _ _ _ _ _ HI Ei Hx).
    - by rewrite Ek. }
  specialize (Hfin Hoth (with_inflight None s)). destruct (finalize_round _ _ _ _ _ _) as [[u|ex] s'] eqn:Ef; [|by destruct (Ht ex)].
  apply Hfin; [|done]. split; [split|done]; [|by rewrite <- Eid, <- Ek]. rewrite <- Eo. by apply inv_hold_inflight.
Qed.

Lemma resolve_inflight_triple r now :
  triple coherent (flying r) (resolve_inflight views commitment cfg m r now) (λ _, Inv [] ∅) (Inv [] ∅).
Proof.
  unfold resolve_inflight.
  eapply (seq _ _ _ (λ x s, flying r s ∧ match x with Ok (_, Some _) => live (log s) (r_rid r) (keys r) | _ => True end)); [intros; grow| |].
  { eapply triple_conseq; [apply (triple_attempt coherent (flying r) _
      (λ x s, flying r s ∧ (x.2 ≠ None → ∃ l, log s = l ++ [LSeen (r_rid r) (keys r)])) (flying r) (λ _, False))|done| |intros ? []].
    - apply seq_keep; [intros; grow|apply keep_round_dead; [done|apply flying_stable]|done|]. intros why.
      eapply seq; [intros; grow|apply see_triple, flying_stable|]. intros slot. by apply triple_ret.
    - intros [[why [n|]]|ex] s; cbn; [|naive_solver..]. intros [? Hs]. split; [done|]. destruct (Hs ltac:(done)) as [l ->]. apply live_last. }
  intros [[why [n|]]|ex].
  - eapply (seq _ _ _ (λ _ s, flying (set_dead_since None r) s ∧ live (log s) (r_rid r) (keys r))); [intros; grow| |].
    { apply triple_modify. intros s [Hf Hs] _. split; [by apply flying_upd|done]. }
    intros ?. destruct (r_ok_since r) as [t0|].
    2: { apply triple_modify. intros s [Hf Hs] _. by apply (flying_upd (set_dead_since None r)). }
    assert (HP : stable (λ s, flying (set_dead_since None r) s ∧ live (log s) (r_rid r) (keys r))).
    { apply stable_and; [apply flying_stable|apply stable_live]. }
    apply seq_keep; [intros; grow|by apply keep_confirmed|by intros s [[? _] _]|]. intros [|].
    2: { apply triple_ret. by intros s [[? _] _]. }
    eapply seq; [intros; grow|eapply triple_conseq; [by apply rival_triple|done|intros ?? Hq; exact Hq|done]|]. intros [|].
    { apply triple_ret. by intros s [[? _] _]. }
    intros s [Hf Hs] Hc. unfold mbind, M_bind, attempt in *. cbn in *.
    destruct (finalize_round views commitment cfg m r (with_inflight None s)) as [u s'] eqn:Ef. cbn in *.
    pose proof (flying_settle r _ s Hf eq_refl eq_refl eq_refl Hs) as Hfin. rewrite Ef in Hfin. by apply Hfin.
  - destruct (r_ok_since r) as [t0|] eqn:Eok; [|assert (Hns : ¬ sighted r) by (unfold sighted; rewrite Eok; by intros [? ?]); destruct why as [w|]].
    + eapply (seq _ _ _ (λ _ s, flying (set_ok_since None r) s ∧ LSeen (r_rid r) (keys r) ∈ log s)); [intros; grow| |].
      * apply triple_modify. intros s [Hf _] _. split; [apply flying_upd; [done|by intros [? ?]|done]|].
        apply (iv_read _ _ _ (proj1 Hf)); [by apply inflight_rec, Hf|]. unfold sighted. rewrite Eok. eauto.
      * intros ?. eapply (seq _ _ _ (λ _, Inv [] ∅)); [intros; grow| |intros; apply keep_effects, inv_stable].
        apply triple_modify. intros s [Hf Hs] Hc. apply (flying_gone (set_ok_since None r)); [done|by intros [? ?]|done|].
        eapply coherent_prefix; [|exact Hc]. by eexists.
    + eapply (seq _ _ _ (λ _, flying (set_dead_since (Some (default now (r_dead_since r))) r))); [intros; grow| |].
      * apply triple_modify. intros s [Hf _] _. by apply (flying_upd r).
      * intros ?. case_match; [|apply triple_ret; by intros s [? _]]. intros s [HI Ei] _. unfold mbind, M_bind. cbn.
        pose proof (abandon_inv s _ (set_dead_since (Some (default now (r_dead_since r))) r) w now HI Ei eq_refl eq_refl eq_refl) as Ha.
        by destruct (abandon _ _ _ _ _) as [[]].
    + eapply (seq _ _ _ (λ _, flying (set_dead_since None r))); [intros; grow| |].
      * apply triple_modify. intros s [Hf _] _. by apply (flying_upd r).
      * intros ?. case_match; [|apply triple_ret; by intros s [? _]]. intros s [HI Ei] _. unfold mbind, M_bind. cbn.
        pose proof (abandon_inv s _ (set_dead_since None r) "timeout" now HI Ei eq_refl eq_refl eq_refl) as Ha.
        by destruct (abandon _ _ _ _ _) as [[]].
  - apply triple_ret. by intros s [[? _] _].
Qed.

Lemma resolve_market_triple : triple coherent (Inv [] ∅) (resolve_market views commitment cfg m) (λ _, Inv [] ∅) (Inv [] ∅).
Proof.
  unfold resolve_market. apply seq_keep; [intros; grow|apply keeps_gets|done|]. intros [|]; [|by apply triple_ret].
  apply seq_keep; [intros; grow|apply keep_time; [done|apply inv_stable]|done|]. intros now.
  eapply (seq _ _ _ (λ _, Inv [] ∅)); [intros; grow| |].
  - intros s HI Hc. pose proof (resolve_zombies_triple [] (taken s) (ended s) (inflight s = None) now s) as H.
    destruct (resolve_zombies _ _ _ _ _ s) as [[tk|ex] s'] eqn:E; [|by destruct H]. by apply H.
  - intros ?. eapply (seq _ _ _ (λ r s, Inv [] ∅ s ∧ inflight s = r)); [intros; grow|by apply triple_gets|].
    intros [r|]; [|apply triple_ret; by intros s [? _]]. apply resolve_inflight_triple.
Qed.

(** ** Queued re-seals *)
Lemma drain_triple now :
  triple coherent (Inv [] ∅) (drain_carry_retry views commitment cfg m now) (λ _, Inv [] ∅) (Inv [] ∅).
Proof.
  pose proof (inv_stable [] ∅) as HS. unfold drain_carry_retry.
  set (I := λ (kept rest : list order) s, Inv [] ∅ s ∧ ∀ o, o ∈ kept ++ rest → valid_side o).
  eapply (seq _ _ _ (λ items s, I [] items s)); [intros; grow| |].
  { apply triple_gets. intros s HI. split; [done|]. intros o Ho. by apply (iv_retry _ _ _ HI). }
  intros items. eapply (seq _ _ _ (λ kept s, I kept [] s)); [intros; grow| |].
  - apply (triple_for_each coherent coherent_prefix I); [intros; grow|]. intros kept r rest s [HI Hv]. revert s HI.
    enough (H : triple coherent (Inv [] ∅) (drain_one views commitment cfg m now kept r) (λ kept' s, I kept' rest s) (Inv [] ∅)) by (intros; by apply H).
    unfold drain_one. apply seq_keep; [intros; grow|apply keeps_gets|done|]. intros exp. case_match.
    + apply seq_keep; [intros; grow|by apply keep_mstate|done|]. intros lp.
      apply seq_keep; [intros; grow|by apply keep_settle_height|done|]. intros height.
      apply seq_keep; [intros; grow|by apply keep_effects|done|]. intros ?.
      apply triple_ret. intros s HI _. split; [done|]. set_solver.
    + eapply seq; [intros; grow|apply (triple_pure _ _ (λ _, Inv [] ∅) (Inv [] ∅) (λ x, side x.1 = side r));
        [by apply keep_post_carry_seal|intros s x s' Hx; by apply post_side in Hx]|].
      intros x s [HI Hx]. assert (Hvx : valid_side x.1).
      { unfold valid_side in *. rewrite Hx. apply Hv. set_solver. }
      revert s HI. destruct x.2.
      * eapply (seq _ _ _ (λ _, Inv [] ∅)); [intros; grow| |].
        -- intros s HI _. unfold enqueue. cbn. apply (inv_enqueue [] ∅ s [x.1] false HI). set_solver.
        -- intros ?. apply triple_ret. intros s HI _. split; [done|]. set_solver.
      * apply triple_ret. intros s HI _. split; [done|]. set_solver.
  - intros kept. apply triple_modify. intros s [HI Hv] _. rewrite app_nil_r in Hv.
    destruct HI as [H1 H2 H3 H4 H5 H6 H7 H8 H9 H10 H11 H12 H13]. by split.
Qed.

(** ** Cancelling *)

(** While an order of the account and oid is queued, no other arrives. *)
Lemma hits_stable acct i hits : hits ≠ [] →
  stable (λ s, Inv [] ∅ s ∧ filter (λ o, account o = acct ∧ oid o = i) (pending s) = hits).
Proof.
  intros Hne. split.
  - intros s os [HI Hh] Hc Hos. split; [by apply (st_arrive _ (inv_stable _ _))|]. cbn. rewrite filter_app, Hh.
    rewrite (filter_none _ (map fst os)); [apply app_nil_r|].
    intros o (p & -> & Hp)%list_elem_of_fmap [Ea Eo]. apply list_elem_of_split in Hp as (l1 & l2 & ->).
    destruct hits as [|x hits]; [done|].
    assert (Hx : x ∈ filter (λ o, account o = acct ∧ oid o = i) (pending s)) by (rewrite Hh; set_solver).
    apply list_elem_of_filter in Hx as [[Ex1 Ex2] Hx]. destruct (iv_pending _ _ _ HI x Hx) as [_ [b Hb]].
    pose proof (co_api _ Hc (log s ++ map (λ p, LPlaced (order_key p.1) (o_ref p.1) true) l1)
      (map (λ p, LPlaced (order_key p.1) (o_ref p.1) true) l2) (order_key p.1) (o_ref p.1)) as Hapi.
    cbn in Hapi. rewrite List.map_app in Hapi. cbn [map] in Hapi. rewrite <- (assoc_L (++)) in Hapi.
    specialize (Hapi eq_refl (order_key x) (o_ref x) b). apply Hapi; [set_solver|]. cbn. congruence.
  - intros s s' [HI Hh] Hcore. split; [by eapply inv_core|]. destruct Hcore as (-> & _). done.
  - intros s l [HI Hh] Hl. split; [by apply inv_log|done].
  - intros s o [HI Hh] Ho. split; [by apply (st_retry _ (inv_stable _ _))|done].
Qed.

Lemma cancel_triple acct i :
  triple coherent (Inv [] ∅) (cancel_pending views commitment m acct i) (λ _, Inv [] ∅) (Inv [] ∅).
Proof.
  unfold cancel_pending. set (P := λ hits s, Inv [] ∅ s ∧ filter (λ o, account o = acct ∧ oid o = i) (pending s) = hits).
  eapply (seq _ _ _ P); [intros; grow|by apply triple_gets|]. intros [|x hits]; [apply triple_ret; by intros s [? _]|].
  assert (HP : stable (P (x :: hits))) by (by apply hits_stable).
  assert (HE : ∀ s, P (x :: hits) s → Inv [] ∅ s) by (by intros s [? _]).
  set (hs := x :: hits) in *. clearbody hs.
  apply seq_keep; [intros; grow|apply keeps_gets|done|]. intros zs.
  apply seq_keep; [intros; grow| |done|].
  { apply keeps_for_each; [exact coherent_prefix|intros; grow|]. intros b z. repeat case_match; try apply keeps_ret.
    apply (keeps_bind coherent coherent_prefix); [intros; grow|by apply keep_round_dead|intros; apply keeps_ret]. }
  intros [|]; [apply triple_raise; auto|].
  eapply (seq _ _ _ (λ _, Inv hs ∅)); [intros; grow| |].
  { apply triple_modify. intros s [HI Hh] _. destruct HI as [H1 H2 H3 H4 H5 H6 H7 H8 H9 H10 H11 H12 H13].
    split; cbn [pending with_pending]; try done.
    - intros k. specialize (H1 k). rewrite <- Hh. change (cnt k []) with 0 in H1.
      rewrite <- (filter_dec_perm (λ o, account o = acct ∧ oid o = i) (pending s)), cnt_app in H1.
      cbn [inflight zombies log with_pending]. lia.
    - intros o Ho. apply H3. rewrite <- Hh in Ho. by apply list_elem_of_filter in Ho as [_ ?].
    - intros o Ho. apply H3. by apply list_elem_of_filter in Ho as [_ ?]. }
  intros ?. pose proof (inv_stable hs ∅) as HS.
  eapply (seq _ _ _ (λ _, Inv hs ∅)); [intros; grow|eapply triple_total; [by apply keep_time|by intros ??]|]. intros now.
  eapply (seq _ _ _ (λ _, Inv [] ∅)); [intros; grow| |intros; by apply triple_ret].
  eapply triple_total; [apply (triple_for_each coherent coherent_prefix (λ _ rest, Inv rest ∅)) with (E := λ _, True)|].
  - intros; grow.
  - intros u o rest. pose proof (inv_stable (o :: rest) ∅) as HR.
    apply seq_keep; [intros; grow|by apply keep_core|done|]. intros ?.
    apply seq_keep; [intros; grow|by apply keep_settle_height|done|]. intros height.
    apply seq_keep; [intros; grow|by apply keep_effects|done|]. intros ?.
    apply triple_modify. intros s HI _. by apply (inv_close rest ∅ s [o] LEnded).
  - unfold settle_height, read_fin, time. total_tac.
Qed.
End operations.
