(* ===== verification/RoundBuild.v ===== *)
(** * No order is lost: building a round

    [build_round] preserves the conservation invariant on every path: nothing to submit, submitted,
    refused by a busy chain, outcome unknown, and any exception on the way.  Then the theorem on
    runs. *)
From S2P Require Import Prelude Orders Clearing RoundPlan Batch Bytes Wire Telemetry Finality Executions Rounds RoundLogic RoundInv RoundSafety.

(** ** Orders in and out of the build's hands *)
Lemma inv_unhold h D s os : Inv (os ++ h) D s → Inv h D (with_pending (app os) s).
Proof.
  intros [H1 H2 H3 H4 H5 H6 H7 H8 H9 H10 H11 H12 H13 H14 H15]. split; cbn [pending inflight zombies log with_pending]; try done.
  - intros k. specialize (H1 k). rewrite cnt_app in *. lia.
  - intros o Ho. apply H2. set_solver.
  - intros o [Ho|Ho]%elem_of_app; [apply H2; set_solver|auto].
Qed.

Lemma inv_hold_pending h D s l l' :
  Inv h D s → pending s ≡ₚ l ++ l' → Inv (l ++ h) D (with_pending (λ _, l') s).
Proof.
  intros [H1 H2 H3 H4 H5 H6 H7 H8 H9 H10 H11 H12 H13 H14 H15] Hp. split; cbn [pending inflight zombies log with_pending]; try done.
  - intros k. specialize (H1 k). rewrite Hp in H1. rewrite cnt_app in *. lia.
  - intros o [Ho|Ho]%elem_of_app; [|auto]. apply H3. rewrite Hp. set_solver.
  - intros o Ho. apply H3. rewrite Hp. set_solver.
Qed.

(** In-place updates of order dicts that keep their identity. *)
Definition same_order (o o' : order) : Prop := order_key o' = order_key o ∧ o_ref o' = o_ref o ∧ side o' = side o.

Lemma same_order_good o o' lg : same_order o o' → valid_side o ∧ was_placed o lg → valid_side o' ∧ was_placed o' lg.
Proof. intros (E1 & E2 & E3) [Hv [b Hb]]. unfold valid_side, was_placed in *. rewrite E1, E2, E3. eauto. Qed.

Lemma cnt_same k l l' : Forall2 same_order l l' → cnt k l' = cnt k l.
Proof.
  induction 1 as [|o o' l l' (E & _) _ IH]; [done|]. unfold cnt in *. rewrite !zsum_cons, IH, E. done.
Qed.

Lemma same_orders_good l l' lg :
  Forall2 same_order l l' → (∀ o, o ∈ l → valid_side o ∧ was_placed o lg) → ∀ o, o ∈ l' → valid_side o ∧ was_placed o lg.
Proof.
  intros Hl Hg o' Ho'. apply list_elem_of_lookup in Ho' as [i Hi].
  destruct (Forall2_lookup_r _ _ _ _ _ Hl Hi) as (o & Ho & Hs). eapply same_order_good; [exact Hs|].
  apply Hg. by eapply list_elem_of_lookup_2.
Qed.

Lemma same_map (f : order → order) l : (∀ o, same_order o (f o)) → Forall2 same_order l (map f l).
Proof. intros Hf. induction l; constructor; auto. Qed.

Lemma inv_pending_map h D s f : (∀ o, same_order o (f o)) → Inv h D s → Inv h D (with_pending (map f) s).
Proof.
  intros Hf [H1 H2 H3 H4 H5 H6 H7 H8 H9 H10 H11 H12 H13 H14 H15]. pose proof (same_map f (pending s) Hf) as Hl.
  split; cbn [pending inflight zombies log with_pending]; try done.
  - intros k. rewrite (cnt_same k _ _ Hl). apply H1.
  - by apply (same_orders_good _ _ _ Hl).
Qed.

(** ** The invariant of a build *)

(** [held]: what the build still owns; [claims]: orders may have left it to a sighted round or back
    to the queue. *)
Record building (claims : bool) (held : list order) (s : state) : Prop := {
  bd_inv : Inv held ∅ s;
  bd_none : inflight s = None;
  bd_taken o : o ∈ taken s → valid_side o ∧ was_placed o (log s);
  bd_nodup : NoDup (map order_key (taken s));
  bd_own o : o ∈ held → ∃ o', o' ∈ taken s ∧ order_key o' = order_key o;
  bd_cover o : o ∈ taken s → (∃ x, x ∈ held ∧ order_key x = order_key o) ∨ order_key o ∈ ended s ∨
    (claims = true ∧ ((∃ z, z ∈ zombies s ∧ sighted z ∧ order_key o ∈ keys z) ∨ (∃ x, x ∈ pending s ∧ order_key x = order_key o)));
  bd_ended k : k ∈ ended s → LEnded k ∈ log s
}.

Lemma was_placed_app o l l' : was_placed o l → was_placed o (l ++ l').
Proof. intros [b Hb]. exists b. set_solver. Qed.

Lemma building_stable c held : stable (building c held).
Proof.
  split.
  - intros s os [H1 H2 H3 H4 H5 H6 H7] Hc Hos. split; try done.
    + by apply (st_arrive _ (inv_stable _ _)).
    + intros o Ho. destruct (H3 o Ho) as [? Hp]. split; [done|]. by apply was_placed_app.
    + intros o Ho. destruct (H6 o Ho) as [?|[?|(? & [?|(x & Hx & E)])]]; [by left|by right; left| |]; right; right; split; try done; [by left|].
      right. exists x. split; [cbn; set_solver|done].
    + intros k Hk. cbn. apply elem_of_app. left. auto.
  - intros s s' [H1 H2 H3 H4 H5 H6 H7] Hc. pose proof Hc as (E1 & E2 & E3 & E4 & E5 & E6 & E7 & E8).
    split; rewrite ?E1, ?E2, ?E3, ?E4, ?E6, ?E7; try done. by eapply inv_core.
  - intros s l [H1 H2 H3 H4 H5 H6 H7] Hl. split; try done.
    + by apply inv_log.
    + intros o Ho. destruct (H3 o Ho) as [? Hp]. split; [done|]. by apply was_placed_app.
    + intros k Hk. cbn. apply elem_of_app. left. auto.
  - intros s o [H1 H2 H3 H4 H5 H6 H7] Ho. split; try done. by apply (st_retry _ (inv_stable _ _)).
Qed.

Lemma building_weaken c held s : building c held s → building true held s.
Proof.
  intros [H1 H2 H3 H4 H5 H6 H7]. split; try done. intros o Ho. destruct (H6 o Ho) as [?|[?|[? ?]]]; auto.
Qed.

Lemma building_perm c held held' s : building c held s → held' ≡ₚ held → building c held' s.
Proof.
  intros [H1 H2 H3 H4 H5 H6 H7] Hp. split; try done.
  - by eapply inv_held_perm.
  - intros o. rewrite Hp. apply H5.
  - intros o Ho. destruct (H6 o Ho) as [(x & Hx & E)|?]; [|by right]. left. exists x. by rewrite Hp.
Qed.

(** An order is ended with a terminal. *)
Lemma building_end c o held s :
  building c (o :: held) s →
  building c held (with_build (taken s) (ended s ∪ {[order_key o]}) (with_log [LEnded (order_key o)] s)).
Proof.
  intros [H1 H2 H3 H4 H5 H6 H7]. split; cbn [inflight taken ended log zombies pending with_build with_log]; try done.
  - assert (HI := inv_close held ∅ s [o] LEnded (λ _, eq_refl) ltac:(done) H1). by eapply inv_locals.
  - intros x Hx. destruct (H3 x Hx) as [? Hp]. split; [done|]. by apply was_placed_app.
  - intros x Hx. apply H5. set_solver.
  - intros x Hx. destruct (H6 x Hx) as [(y & [->|Hy]%elem_of_cons & E)|[?|?]].
    + right; left. rewrite E. set_solver.
    + left. eauto.
    + right; left. set_solver.
    + by right; right.
  - intros k [Hk|Hk]%elem_of_union; [specialize (H7 k Hk); set_solver|]. apply elem_of_singleton in Hk as ->. set_solver.
Qed.

(** Orders go back to the front of the queue, still owned by no round. *)
Lemma building_return c os held s : building c (os ++ held) s → building true held (with_pending (app os) s).
Proof.
  intros [H1 H2 H3 H4 H5 H6 H7]. split; cbn [inflight taken ended log zombies pending with_pending]; try done.
  - by apply inv_unhold.
  - intros x Hx. apply H5. set_solver.
  - intros x Hx. destruct (H6 x Hx) as [(y & [Hy|Hy]%elem_of_app & E)|[?|(_ & [?|(y & Hy & E)])]].
    + right; right. split; [done|]. right. exists y. split; [apply elem_of_app; auto|done].
    + left. eauto.
    + by right; left.
    + right; right. split; [done|]. by left.
    + right; right. split; [done|]. right. exists y. split; [apply elem_of_app; auto|done].
Qed.

(** ** An exception before the round is registered *)
Lemma held_once c held s k : building c held s → coherent (log s) →
  0 < cnt k held → cnt k held = 1 ∧ cnt k (pending s) = 0 ∧ sight ∅ k (zombies s) = 0 ∧ ended_n k (log s) = 0.
Proof.
  intros [HI _ _ _ _ _ _] Hc Hk. pose proof (iv_count _ _ _ HI k). pose proof (co_once _ Hc k).
  pose proof (cnt_nonneg k (pending s)). pose proof (sight_nonneg ∅ k (zombies s)). pose proof (infl_nonneg k (inflight s)).
  pose proof (ended_nonneg k (log s)). lia.
Qed.

Definition skip_keys (s : state) : gset key :=
  ended s ∪ ⋃ (map keys (filter (λ z, is_Some (r_ok_since z)) (zombies s))) ∪ list_to_set (map order_key (pending s)).

Lemma elem_of_skip s k : k ∈ skip_keys s ↔
  k ∈ ended s ∨ (∃ z, z ∈ zombies s ∧ sighted z ∧ k ∈ keys z) ∨ (∃ o, o ∈ pending s ∧ order_key o = k).
Proof.
  unfold skip_keys. rewrite !elem_of_union, elem_of_union_list, elem_of_list_to_set, list_elem_of_fmap. split.
  - intros [[?|(ks & (z & -> & [Hs Hz]%list_elem_of_filter)%list_elem_of_fmap & Hk)]|(o & -> & Ho)]; [by left| |by right; right; eauto].
    right; left. eauto.
  - intros [?|[(z & Hz & Hs & Hk)|(o & Ho & <-)]]; [by left; left| |by right; eauto].
    left; right. exists (keys z). split; [|done]. apply list_elem_of_fmap. exists z. split; [done|]. by apply list_elem_of_filter.
Qed.

Lemma requeue_inv held s :
  building true held s → coherent (log s) → Inv [] ∅ (requeue_unsent s).2.
Proof.
  intros Hb Hc. set (back := filter (λ o, order_key o ∉ skip_keys s) (taken s)).
  change (requeue_unsent s).2 with (with_pending (app back) s). apply inv_unhold. rewrite app_nil_r.
  pose proof Hb as [HI Hn Htk Hnd Hown Hcov Hend]. apply (inv_held held); [done| |].
  - intros k. unfold back. destruct (decide (0 < cnt k held)) as [Hk|Hk].
    + destruct (held_once _ _ _ k Hb Hc Hk) as (-> & Hp & Hs & He).
      apply cnt_pos in Hk as (o & Ho & <-). destruct (Hown o Ho) as (o' & Ho' & E).
      rewrite cnt_filter_in; [by apply cnt_one; eauto|]. intros x Hx ->. rewrite elem_of_skip. intros [Hx'|[(z & Hz & Hsz & Hkz)|(y & Hy & Ey)]].
      * pose proof (ended_pos _ _ (or_introl (Hend _ Hx'))). lia.
      * pose proof (sight_pos ∅ _ _ z Hz Hsz ltac:(set_solver) Hkz). lia.
      * rewrite cnt_zero in Hp. by apply (Hp y).
    + pose proof (cnt_nonneg k held). assert (Hk0 : cnt k held = 0) by lia. rewrite Hk0. apply cnt_filter_out.
      intros o Ho <- Hns. rewrite elem_of_skip in Hns. rewrite cnt_zero in Hk0.
      destruct (Hcov o Ho) as [(x & Hx & E)|[?|(_ & [?|?])]]; [by apply (Hk0 x)|tauto..].
  - intros o [_ Ho]%list_elem_of_filter. auto.
Qed.

(** ** Planning *)
Lemma part_filter {A B} `{EqDecision B} (f : A → B) (l L1 L2 : list A) (P : A → Prop) `{!∀ x, Decision (P x)} :
  NoDup (map f l) → L1 ++ L2 ≡ₚ l → (∀ x, x ∈ l → P x ↔ f x ∈ map f L1) → filter P l ≡ₚ L1.
Proof.
  intros Hnd Hp HP. rewrite <- Hp in Hnd. rewrite List.map_app in Hnd. apply NoDup_app in Hnd as (_ & Hd & _).
  rewrite <- Hp, filter_app.
  rewrite (filter_all P L1), (filter_none P L2), app_nil_r; [done| |].
  - intros x Hx. rewrite HP by (rewrite <- Hp; set_solver). intros Hf. apply (Hd _ Hf). by apply list_elem_of_fmap_2.
  - intros x Hx. apply HP; [rewrite <- Hp; set_solver|]. by apply list_elem_of_fmap_2.
Qed.

Lemma cnt_le_nodup l : (∀ k, cnt k l ≤ 1) → NoDup (map order_key l).
Proof.
  induction l as [|o l IH]; intros H; [constructor|]. cbn. apply NoDup_cons. split.
  - intros (x & E & Hx)%list_elem_of_fmap. specialize (H (order_key o)). unfold cnt in H. rewrite zsum_cons in H.
    fold (cnt (order_key o) l) in H. rewrite decide_True in H by done.
    assert (0 < cnt (order_key o) l) by (apply cnt_pos; exists x; auto). lia.
  - apply IH. intros k. specialize (H k). unfold cnt in *. rewrite zsum_cons in H. case_decide; lia.
Qed.

Lemma queue_once h D s : Inv h D s → coherent (log s) → ∀ k, cnt k (h ++ pending s) ≤ 1.
Proof.
  intros HI Hc k. pose proof (iv_count _ _ _ HI k). pose proof (co_once _ Hc k). rewrite cnt_app.
  pose proof (sight_nonneg D k (zombies s)). pose proof (infl_nonneg k (inflight s)). pose proof (ended_nonneg k (log s)). lia.
Qed.

(** Distinct keys are distinct objects. *)
Lemma refs_distinct l lg :
  coherent lg → (∀ o, o ∈ l → was_placed o lg) → NoDup (map order_key l) → NoDup (map o_ref l).
Proof.
  intros Hc Hp Hnd. apply NoDup_fmap_2_strong; [|by eapply NoDup_fmap_1].
  intros x y Hx Hy E. eapply NoDup_map_inj; [exact Hnd|done..|].
  destruct (Hp x Hx) as [b1 Hb1], (Hp y Hy) as [b2 Hb2]. rewrite E in Hb1. by eapply (co_ref _ Hc).
Qed.

Section build.
Context (views : nat → view) (commitment round_id : bytes → bytes) (cfg : config) (m : Z).
Hypothesis arrivals_ok : ∀ n p, p ∈ v_arrivals (views n) → valid_side p.1.
Local Notation seq := (triple_bind coherent coherent_prefix).

Definition kinds (p : plan) : Prop :=
  (∀ o, o ∈ pl_reveal p → sealed o = true) ∧ (∀ o, o ∈ pl_public p → sealed o = false).

Lemma take_building s p :
  Inv [] ∅ s → inflight s = None → coherent (log s) →
  pl_reveal p ++ pl_public p ++ pl_carry p ++ pl_expired p ++ pl_deferred p ++ pl_overflow p ≡ₚ pending s →
  building false (pl_expired p ++ pl_reveal p ++ pl_public p)
    (with_build (take_orders (pending s) p) ∅
      (with_pending (λ _, filter (λ o, o_ref o ∈ refs (pl_carry p ++ pl_deferred p ++ pl_overflow p)) (pending s)) s)).
Proof.
  intros HI Hn Hc Hp.
  assert (Hnd : NoDup (map order_key (pending s))).
  { apply cnt_le_nodup. intros k. pose proof (queue_once _ _ _ HI Hc k). done. }
  assert (Hpl : ∀ o, o ∈ pending s → valid_side o ∧ was_placed o (log s)) by apply (iv_pending _ _ _ HI).
  assert (Hndr : NoDup (map o_ref (pending s))) by (eapply refs_distinct; [done|by intros o Ho; apply Hpl|done]).
  set (L1 := pl_expired p ++ pl_reveal p ++ pl_public p). set (L2 := pl_carry p ++ pl_deferred p ++ pl_overflow p).
  assert (HL : L1 ++ L2 ≡ₚ pending s) by (rewrite <- Hp; unfold L1, L2; solve_Permutation).
  assert (HL2 : filter (λ o, o_ref o ∈ refs L2) (pending s) ≡ₚ L2).
  { apply (part_filter o_ref _ L2 L1); [done|by rewrite Permutation_app_comm|].
    intros o Ho. unfold refs. by rewrite elem_of_list_to_set. }
  assert (HL1 : take_orders (pending s) p ≡ₚ L1).
  { apply (part_filter order_key _ L1 L2); [done|done|]. intros o Ho. unfold L1.
    rewrite elem_of_list_to_set, !List.map_app, !elem_of_app. tauto. }
  split; cbn [inflight taken ended log zombies pending with_build with_pending]; try done.
  - assert (HI2 := inv_hold_pending [] ∅ s L1 (filter (λ o, o_ref o ∈ refs L2) (pending s)) HI).
    rewrite app_nil_r in HI2. eapply inv_locals; [apply HI2|done..]. by rewrite HL2.
  - intros o [_ Ho]%list_elem_of_filter. by apply Hpl.
  - unfold take_orders. by apply NoDup_map_filter.
  - intros o Ho. exists o. split; [|done]. by rewrite HL1.
  - intros o Ho. left. exists o. split; [|done]. by rewrite <- HL1.
Qed.

Lemma attach_same exp o : same_order o (attach_expiry exp o).
Proof. done. Qed.

Lemma plan_and_take_triple now pruned resting n ready :
  0 ≤ n →
  triple coherent (λ s, Inv [] ∅ s ∧ inflight s = None) (plan_and_take commitment cfg now pruned resting n ready)
    (λ p s, building false (pl_expired p ++ pl_reveal p ++ pl_public p) s ∧ kinds p) (Inv [] ∅).
Proof.
  intros Hn. unfold plan_and_take. set (P := λ s, Inv [] ∅ s ∧ inflight s = None).
  eapply (seq _ _ _ (λ _, P)); [intros; grow| |].
  { apply triple_modify. intros s [HI Hnone] _. split; [|done]. by apply inv_pending_map. }
  intros ?. eapply (seq _ _ _ (λ pend s, P s ∧ pending s = pend)); [intros; grow|by apply triple_gets|]. intros pend_all.
  eapply (seq _ _ _ (λ _ s, P s ∧ pending s = pend_all)); [intros; grow|by apply triple_gets|]. intros cap.
  eapply (seq _ _ _ (λ _ s, P s ∧ pending s = pend_all)); [intros; grow|apply triple_lift; [done|by intros s [[? _] _]]|]. intros entries.
  intros s [[HI Hnone] Hpend] Hc. cbn in Hc |- *. subst pend_all.
  set (fit := cap_batch _ _ _ _). set (rdy := λ o : order, match list_find _ entries with Some (_, q) => ready q.2 | None => false end).
  set (p := plan_batch (pending s) resting fit now rdy).
  assert (FitPolicy fit) by (by apply order_gas_fit).
  assert (Hnd : NoDup (map order_key (pending s))).
  { apply cnt_le_nodup. intros k. pose proof (queue_once _ _ _ HI Hc k). done. }
  assert (Hndr : NoDup (map o_ref (pending s))).
  { eapply refs_distinct; [done| |done]. intros o Ho. by apply (iv_pending _ _ _ HI). }
  assert (Hsd : ∀ o, o ∈ pending s → valid_side o) by (intros o Ho; by apply (iv_pending _ _ _ HI)).
  split; [|by apply plan_batch_kinds]. apply take_building; [done..|]. by apply plan_batch_perm.
Qed.

(** ** Assembling *)
Definition failed (s : state) : Prop := ∃ held, building true held s.

Lemma building_failed c held s : building c held s → failed s.
Proof. intros H. exists held. by eapply building_weaken. Qed.
#[local] Hint Resolve building_failed : core.

(** Dicts updated in place: what is held and what was taken. *)
Lemma building_same c held held' f s :
  building c held s → Forall2 same_order held held' → (∀ o, same_order o (f o)) →
  building c held' (with_build (map f (taken s)) (ended s) s).
Proof.
  intros [H1 H2 H3 H4 H5 H6 H7] Hh Hf. pose proof (same_map f (taken s) Hf) as Ht.
  split; cbn [inflight taken ended log zombies pending with_build]; try done.
  - eapply inv_locals; [eapply (inv_held held); [done|intros k; by apply cnt_same|]|done..].
    apply (same_orders_good _ _ _ Hh). apply (iv_held _ _ _ H1).
  - by apply (same_orders_good _ _ _ Ht).
  - rewrite List.map_map. rewrite (List.map_ext _ order_key); [done|]. intros o. apply Hf.
  - intros o' Ho'. apply list_elem_of_lookup in Ho' as [i Hi].
    destruct (Forall2_lookup_r _ _ _ _ _ Hh Hi) as (o & Ho & (E & _)). rewrite E.
    destruct (H5 o) as (x & Hx & Ex); [by eapply list_elem_of_lookup_2|]. exists (f x).
    split; [by apply list_elem_of_fmap_2|]. rewrite <- Ex. apply Hf.
  - intros o (x & -> & Hx)%list_elem_of_fmap. assert (order_key (f x) = order_key x) as -> by apply Hf.
    destruct (H6 x Hx) as [(y & Hy & E)|?]; [|by right]. left.
    apply list_elem_of_lookup in Hy as [i Hi]. destruct (Forall2_lookup_l _ _ _ _ _ Hh Hi) as (y' & Hy' & (E' & _)).
    exists y'. split; [by eapply list_elem_of_lookup_2|congruence].
Qed.

Lemma same_refl l : Forall2 same_order l l.
Proof. induction l; by constructor. Qed.

Lemma price_triple rv public :
  (∀ o, o ∈ public → sealed o = false) →
  triple coherent (building false (rv ++ public)) (price_orders views m public)
    (λ pr s, building false (rv ++ pr.1 ++ map fst pr.2) s ∧ ∀ o, o ∈ pr.1 → sealed o = false) failed.
Proof.
  intros Hpub. unfold price_orders. destruct (filter (λ o, is_market o = true) public) as [|x mk] eqn:Emk.
  { apply triple_ret. intros s Hb _. cbn. by rewrite app_nil_r. }
  apply seq_keep; [intros; grow|apply keep_mstate; [done|apply building_stable]|by eauto|]. intros lp.
  unfold price_market_orders. rewrite Emk. destruct (lp <=? 0).
  - eapply (seq _ _ _ (λ _, building false (rv ++ public))); [intros; grow|by apply triple_ret|]. intros ?.
    apply triple_ret. intros s Hb _. cbn [fst snd]. split; [|intros o [_ Ho]%list_elem_of_filter; auto].
    eapply building_perm; [exact Hb|]. apply Permutation_app_head. rewrite List.map_map. cbn [fst]. rewrite List.map_id.
    rewrite <- Emk. rewrite Permutation_app_comm. apply (filter_bool_perm is_market).
  - set (f := λ o, if is_market o then with_price (market_price (side o) lp) o else o).
    assert (Hf : ∀ o, same_order o (f o)) by (intros o; unfold f; by case_match).
    eapply (seq _ _ _ (λ _, building false (rv ++ map f public))); [intros; grow| |].
    + apply triple_modify. intros s Hb _. eapply building_same; [exact Hb| |].
      * apply Forall2_app; [apply same_refl|by apply same_map].
      * intros o. by case_match.
    + intros ?. apply triple_ret. intros s Hb _. cbn [fst snd map]. rewrite app_nil_r. split; [done|].
      intros o (y & -> & Hy)%list_elem_of_fmap. specialize (Hpub y Hy). unfold f. by case_match.
Qed.

(** A look at the released rounds while a build holds orders. *)
Lemma drop_claimed_app cl l l' : drop_claimed cl (l ++ l') = drop_claimed cl l ++ drop_claimed cl l'.
Proof. apply filter_app. Qed.

Lemma look_triple held (zs : list round_rec) :
  triple coherent (building false held)
    (match zs with [] => mret ∅ | _ => t ← time views; resolve_zombies views commitment cfg m t end)
    (λ cl s, building true (drop_claimed cl held) s) failed.
Proof.
  destruct zs as [|z zs].
  { apply triple_ret. intros s Hb _. unfold drop_claimed. rewrite filter_all by set_solver. by eapply building_weaken. }
  apply seq_keep; [intros; grow|apply keep_time; [done|apply building_stable]|by eauto|]. intros t.
  intros s Hb Hc. pose proof Hb as [H1 H2 H3 H4 H5 H6 H7].
  pose proof (resolve_zombies_triple views commitment cfg m arrivals_ok held (taken s) (ended s) True t s) as H.
  pose proof (grows_resolve_zombies views commitment cfg m t s) as Hg.
  destruct (resolve_zombies views commitment cfg m t s) as [[cl|ex] s']; [|by destruct H].
  destruct H as (HI & Et & Ee & Hn & Hcl); [done|done|]. cbn in Hg. destruct Hg as [l El].
  split; rewrite ?Et, ?Ee, ?El; try done.
  - by apply Hn.
  - intros o Ho. destruct (H3 o Ho). split; [done|]. by apply was_placed_app.
  - intros o [_ Ho]%list_elem_of_filter. auto.
  - intros o Ho. destruct (H6 o Ho) as [(x & Hx & E)|[?|[? _]]]; [|by right; left|done].
    destruct (decide (order_key x ∈ cl)) as [Hk|Hk].
    + right; right. split; [done|]. left. rewrite <- E. by apply Hcl.
    + left. exists x. split; [|done]. by apply list_elem_of_filter.
  - intros k Hk. apply elem_of_app. left. auto.
Qed.

Lemma reject_triple now dead held :
  triple coherent (building true (map fst dead ++ held)) (for_each (reject_order views m now) tt dead)
    (λ _, building true held) failed.
Proof.
  apply (triple_for_each coherent coherent_prefix (λ _ rest, building true (map fst rest ++ held))); [intros; grow|].
  intros ? d rest. cbn [map]. unfold reject_order.
  pose proof (building_stable true ((d.1 :: map fst rest) ++ held)) as HS.
  apply seq_keep; [intros; grow|by apply keep_settle_height|by eauto|]. intros height.
  apply seq_keep; [intros; grow|by apply keep_effects|by eauto|]. intros ?.
  apply seq_keep; [intros; grow|by apply keep_core|by eauto|]. intros ?.
  intros s Hb _. exact (building_end true d.1 (map fst rest ++ held) s Hb).
Qed.

Lemma expire_triple os held :
  triple coherent (building false (os ++ held)) (for_each (expire_order m) tt os) (λ _, building false held) failed.
Proof.
  apply (triple_for_each coherent coherent_prefix (λ _ rest, building false (rest ++ held))); [intros; grow|].
  intros ? o rest. unfold expire_order. pose proof (building_stable false ((o :: rest) ++ held)) as HS.
  apply seq_keep; [intros; grow|by apply keep_effects|by eauto|]. intros ?.
  apply seq_keep; [intros; grow|by apply keep_core|by eauto|]. intros ?.
  intros s Hb _. exact (building_end false o (rest ++ held) s Hb).
Qed.

Lemma keep_crossing_triple hidden public resting now :
  (∀ o, o ∈ hidden → sealed o = true) → (∀ o, o ∈ public → sealed o = false) →
  triple coherent (building true (hidden ++ public)) (keep_crossing hidden public resting now)
    (λ kept, building true (kept ++ public)) failed.
Proof.
  intros Hh Hp. unfold keep_crossing. destruct hidden as [|o hidden]; [by apply triple_ret|].
  set (hs := o :: hidden) in *. clearbody hs. destruct (reveal_filter hs public resting now Hh Hp) as (x & Ex & _).
  cbn zeta in *. rewrite Ex. case_match; [|by apply triple_ret].
  set (kept := filter (λ o, x o = true) hs). intros s Hb Hc. cbn in Hc |- *.
  apply (building_return true). eapply building_perm; [exact Hb|]. rewrite (assoc_L (++)). apply Permutation_app_tail.
  assert (Hnd : NoDup (map o_ref hs)).
  { pose proof (queue_once _ _ _ (bd_inv _ _ _ Hb) Hc) as Hq. eapply refs_distinct; [done| |].
    - intros y Hy. apply (iv_held _ _ _ (bd_inv _ _ _ Hb)). set_solver.
    - apply cnt_le_nodup. intros k. specialize (Hq k). rewrite !cnt_app in Hq.
      pose proof (cnt_nonneg k public). pose proof (cnt_nonneg k (pending s)). lia. }
  assert (E : filter (λ o, o_ref o ∉ refs kept) hs = filter (λ o, x o = false) hs).
  { apply filter_ext_elem. intros y Hy. unfold refs. rewrite elem_of_list_to_set, list_elem_of_fmap. split.
    - intros Hn. destruct (x y) eqn:Exy; [|done]. destruct Hn. exists y. split; [done|]. by apply list_elem_of_filter.
    - intros Exy (w & Ew & Hw). apply list_elem_of_filter in Hw as [Exw Hw].
      assert (y = w) as -> by (eapply NoDup_map_inj; [exact Hnd|done..]). congruence. }
  rewrite E, Permutation_app_comm. apply (filter_bool_perm x).
Qed.

(** A record nobody tracks yet. *)
Definition new_rec (r : round_rec) (s : state) : Prop :=
  r_claimed r = ∅ ∧ r_ok_since r = None ∧ (r_ref r < next_ref s)%positive ∧ ∀ x, x ∈ recs s → r_ref x ≠ r_ref r.

Lemma inv_next_ref h D s : Inv h D s → Inv h D (with_next_ref s).
Proof.
  intros [H1 H2 H3 H4 H5 H6 H7 H8 H9 H10 H11 H12 H13 H14 H15]. split; try done.
  intros r Hr. cbn. specialize (H8 r Hr). lia.
Qed.

Lemma building_next_ref c held s : building c held s → building c held (with_next_ref s).
Proof. intros [H1 H2 H3 H4 H5 H6 H7]. split; try done. by apply inv_next_ref. Qed.

Lemma finish_triple base quote raw pruned resting hidden public :
  triple coherent (building true (hidden ++ public))
    (finish_round views commitment round_id cfg m base quote raw pruned resting hidden public)
    (λ x s, building true (r_orders x.1) s ∧ new_rec x.1 s) failed.
Proof.
  unfold finish_round. pose proof (building_stable true (hidden ++ public)) as HS.
  apply seq_keep; [intros; grow|apply keeps_lift|by eauto|]. intros hdr.
  apply seq_keep; [intros; grow|apply keeps_lift|by eauto|]. intros section.
  apply seq_keep; [intros; grow| |by eauto|].
  { apply (keeps_catch coherent coherent_prefix); [intros; grow|by apply keep_make_payload|]. intros e.
    apply (keeps_bind coherent coherent_prefix); [intros; grow|by apply keep_time|]. intros t.
    apply (keeps_bind coherent coherent_prefix); [intros; grow|by apply keep_core|]. intros ?. apply keeps_lift. }
  intros payload. apply seq_keep; [intros; grow|by apply keep_time|by eauto|]. intros t.
  apply seq_keep; [intros; grow|apply keeps_lift|by eauto|]. intros consumed.
  intros s Hb _. cbn. split; [by apply building_next_ref|]. split_and!; [done|done|cbn; lia|].
  intros x Hx. pose proof (iv_fresh _ _ _ (bd_inv _ _ _ Hb) x Hx). cbn. lia.
Qed.

Lemma assemble_triple base quote now raw pruned p resting entries :
  kinds p →
  triple coherent (building false (pl_reveal p ++ pl_public p))
    (assemble_round views commitment round_id cfg m base quote now raw pruned p resting entries)
    (λ x s, match x with
            | None => building true [] s
            | Some (r, _) => building true (r_orders r) s ∧ new_rec r s
            end) failed.
Proof.
  intros [Hrev Hpub]. unfold assemble_round. pose proof (building_stable false (pl_reveal p ++ pl_public p)) as HS.
  apply seq_keep; [intros; grow| |by eauto|].
  { apply keeps_for_each; [exact coherent_prefix|intros; grow|]. intros ? o.
    apply (keeps_bind coherent coherent_prefix); [intros; grow|apply keeps_lift|]. intros e. by apply keep_effects. }
  intros ?. eapply seq; [intros; grow|by apply price_triple|]. intros [priced unpriced]. cbn [fst snd].
  apply triple_fact. intros Hps. pose proof (building_stable false (pl_reveal p ++ priced ++ map fst unpriced)) as HS2.
  apply seq_keep; [intros; grow|by apply keep_read_floors|by eauto|]. intros fl.
  destruct (seq_sanitize_spec (λ a, default 0 (fl !! a)) (λ _, None) 0 0 priced) as (st & -> & _ & Hperm).
  set (kept := sn_kept st) in *. set (stale := sn_dead st) in *.
  apply seq_keep; [intros; grow|apply keeps_gets|by eauto|]. intros zs.
  set (held := map fst (unpriced ++ stale) ++ pl_reveal p ++ kept).
  eapply (seq _ _ _ (λ cl, building true (drop_claimed cl held))); [intros; grow| |].
  { eapply triple_conseq; [apply (look_triple held zs)| |done|done]. intros s Hb. eapply building_perm; [exact Hb|].
    unfold held. rewrite <- Hperm, List.map_app. solve_Permutation. }
  intros cl. unfold held. rewrite !drop_claimed_app.
  set (dead := filter (λ d, order_key d.1 ∉ cl) (unpriced ++ stale)).
  assert (Hdead : drop_claimed cl (map fst (unpriced ++ stale)) = map fst dead).
  { unfold dead. clear. induction (unpriced ++ stale) as [|d l IH]; [done|]. cbn [map]. unfold drop_claimed in *.
    rewrite !filter_cons, IH. by case_decide. }
  rewrite Hdead. eapply seq; [intros; grow|apply reject_triple|]. intros ?.
  eapply seq; [intros; grow|apply keep_crossing_triple|].
  { intros o [_ Ho]%list_elem_of_filter. auto. }
  { intros o [_ Ho]%list_elem_of_filter. apply Hps. rewrite <- Hperm. set_solver. }
  intros hidden. case_bool_decide as Enil.
  - destruct Enil as (-> & E & _). rewrite E. pose proof (building_stable true []) as HS3.
    do 2 (apply seq_keep; [intros; grow|by apply keep_mstate|by eauto|intros ?]).
    apply seq_keep; [intros; grow|by apply keep_storage|by eauto|]. intros ?. by apply triple_ret.
  - eapply seq; [intros; grow|apply finish_triple|]. intros [r payload]. apply triple_ret. done.
Qed.

(** ** Registering *)
Lemma sight_filter (D : gset positive) k (P : round_rec → Prop) `{!∀ z, Decision (P z)} zs :
  (∀ z, sighted z → P z) → sight D k (filter P zs) = sight D k zs.
Proof.
  intros HP. induction zs as [|z l IH]; [done|]. change (sight D k (z :: l)) with (holds D k z + sight D k l).
  rewrite filter_cons, <- IH. case_decide as Hd; [done|]. unfold holds. rewrite decide_False; [lia|]. intros [? _]. auto.
Qed.

Lemma inv_register r s :
  building true (r_orders r) s → new_rec r s → coherent (log s) →
  Inv [] ∅ (with_zombies (filter (λ z, r_rid z ≠ r_rid r ∨ is_Some (r_ok_since z))) (with_inflight (Some r) s)).
Proof.
  intros Hb (Hcl & Hok & Hlt & Hnew) Hc. pose proof Hb as [HI Hn _ _ _ _ _].
  set (zs := filter (λ z, r_rid z ≠ r_rid r ∨ is_Some (r_ok_since z)) (zombies s)).
  assert (Hunseen : ¬ sighted r) by (unfold sighted; rewrite Hok; by intros [? ?]).
  assert (Hsub : ∀ z, z ∈ zs → z ∈ zombies s ∧ (r_rid z ≠ r_rid r ∨ sighted z)).
  { intros z [Hz ?]%list_elem_of_filter. done. }
  assert (Hrec : recs (with_zombies (filter (λ z, r_rid z ≠ r_rid r ∨ is_Some (r_ok_since z))) (with_inflight (Some r) s)) = r :: zs) by done.
  assert (Hkr : ∀ k, k ∈ keys r → 0 < cnt k (r_orders r)) by (intros k Hk; by apply cnt_pos, elem_of_keys).
  assert (Hdiff : ∀ z k, z ∈ zs → k ∈ keys r → k ∈ keys z → r_rid r ≠ r_rid z).
  { intros z k Hz Hk Hkz. destruct (Hsub z Hz) as [Hz' [?|Hs]]; [done|].
    destruct (held_once _ _ _ k Hb Hc (Hkr k Hk)) as (_ & _ & H0 & _).
    pose proof (sight_pos ∅ k _ z Hz' Hs ltac:(set_solver) Hkz). lia. }
  split; rewrite ?Hrec; cbn [pending inflight zombies log next_ref carry_retry with_zombies with_inflight].
  - intros k. rewrite <- (iv_count _ _ _ HI k), Hn. cbn [infl]. unfold unclaimed. rewrite Hcl.
    rewrite (filter_all (λ o, order_key o ∉ dom ∅) (r_orders r)) by set_solver.
    rewrite sight_filter by tauto. change (cnt k []) with 0. lia.
  - set_solver.
  - apply (iv_pending _ _ _ HI).
  - intros x o [->|Hx]%elem_of_cons Ho; [by apply (iv_held _ _ _ HI)|]. apply (iv_orders _ _ _ HI x); [|done].
    apply zombie_rec. by apply Hsub.
  - intros x [->|Hx]%elem_of_cons; [|apply (iv_nodup _ _ _ HI), zombie_rec; by apply Hsub].
    apply cnt_le_nodup. intros k. pose proof (queue_once _ _ _ HI Hc k) as Hq. rewrite cnt_app in Hq.
    pose proof (cnt_nonneg k (pending s)). lia.
  - intros x k [->|Hx]%elem_of_cons Hs; [by destruct (Hunseen Hs)|]. apply (iv_seen _ _ _ HI), Hs. apply zombie_rec. by apply Hsub.
  - cbn [map]. apply NoDup_cons. split.
    + intros (z & E & Hz)%list_elem_of_fmap. apply (Hnew z); [apply zombie_rec; by apply Hsub|done].
    + eapply sublist_NoDup; [by eapply zombie_refs|]. apply fmap_sublist, sublist_filter.
  - intros x [->|Hx]%elem_of_cons; [done|]. apply (iv_fresh _ _ _ HI), zombie_rec. by apply Hsub.
  - intros r1 r2 k [->|H1]%elem_of_cons [->|H2]%elem_of_cons Hne Hk1 Hk2; [done| | |].
    + by eapply Hdiff.
    + intros E. symmetry in E. revert E. by eapply Hdiff.
    + apply (iv_rid _ _ _ HI r1 r2 k); try done; apply zombie_rec; by apply Hsub.
  - intros x k v [->|Hx]%elem_of_cons; [by rewrite Hcl|]. apply (iv_claimed _ _ _ HI), zombie_rec. by apply Hsub.
  - apply (iv_settled _ _ _ HI).
  - intros x v k [->|Hx]%elem_of_cons HD Hk Hs.
    + destruct (held_once _ _ _ k Hb Hc (Hkr k Hk)) as (_ & _ & _ & H0).
      pose proof (ended_pos k (log s) (or_intror (ex_intro _ v Hs))). lia.
    + eapply (iv_gone _ _ _ HI); [apply zombie_rec; by apply Hsub|done..].
  - apply (iv_retry _ _ _ HI).
  - intros x k v [->|Hx]%elem_of_cons; [by rewrite Hcl|]. intros Hv.
    destruct (iv_claimer _ _ _ HI x k v) as [(z & Hz & Hs & ? & ?)|?]; [apply zombie_rec; by apply Hsub|done|left|by right].
    exists z. split_and!; [|done..]. apply list_elem_of_filter. split; [by right|done].
  - intros x [->|Hx]%elem_of_cons Hs; [by destruct (Hunseen Hs)|]. apply (iv_read _ _ _ HI), Hs. apply zombie_rec. by apply Hsub.
Qed.

(** ** Sending *)

(** The round [r] is registered; without it, [P]. *)
Definition registered (r : round_rec) (P : state → Prop) (s : state) : Prop :=
  P (with_inflight None s) ∧ inflight s = Some r.

Lemma registered_stable r P : stable P → stable (registered r P).
Proof.
  intros HP. apply stable_and; [|apply (stable_rest (λ i _ _ _ _, i = Some r))]. split.
  - intros s os Hs Hc Hos. by apply (st_arrive _ HP (with_inflight None s) os).
  - intros s s' Hs (E1 & E2 & E3 & E4 & E5 & E6 & E7 & E8). eapply (st_core _ HP); [exact Hs|]. done.
  - intros s l Hs Hl. by apply (st_log _ HP (with_inflight None s)).
  - intros s o Hs Ho. by apply (st_retry _ HP (with_inflight None s)).
Qed.

Definition sending (r : round_rec) (s : state) : Prop := building true (r_orders r) s ∧ new_rec r s.

Lemma sending_stable r : stable (sending r).
Proof.
  apply stable_and; [apply building_stable|].
  apply (stable_rest (λ i zs n _ _, r_claimed r = ∅ ∧ r_ok_since r = None ∧ (r_ref r < n)%positive ∧
    ∀ x, x ∈ (match i with Some f => [f] | None => [] end) ++ zs → r_ref x ≠ r_ref r)).
Qed.

Lemma send_triple a b r payload :
  triple coherent (sending r) (send_round views m a b r payload) (λ _, Inv [] ∅) (Inv [] ∅).
Proof.
  pose proof (inv_stable [] ∅) as HS. pose proof (registered_stable r _ (sending_stable r)) as HR.
  unfold send_round. eapply (seq _ _ _ (λ _, registered r (sending r))); [intros; grow| |].
  { apply triple_modify. intros s [Hb Hn] _. split; [|done].
    eapply (st_core _ (sending_stable r)); [by split|]. unfold same_core. cbn. by rewrite (bd_none _ _ _ Hb). }
  intros ?. eapply (seq _ _ _ (λ _, registered r (sending r))); [intros; grow| |].
  { eapply triple_total; [by apply keeps_attempt, keep_submit|apply total_attempt]. }
  intros u. set (busy := match u with Raise (ChainBusy _) => true | _ => false end). destruct busy eqn:Eb.
  - assert (∃ w, u = Raise (ChainBusy w)) as [w ->] by (unfold busy in Eb; repeat case_match; naive_solver).
    eapply (seq _ _ _ (λ _, sending r)); [intros; grow| |].
    { apply triple_modify. intros s [Hs _] _. done. }
    intros ?. eapply (seq _ _ _ (λ _, Inv [] ∅)); [intros; grow| |].
    { apply triple_modify. intros s [Hb _] _. apply inv_unhold. rewrite app_nil_r. apply Hb. }
    intros ?. apply seq_keep; [intros; grow|by apply keep_time|done|]. intros t.
    apply seq_keep; [intros; grow|by apply keep_core|done|]. intros ?. by apply triple_ret.
  - assert (Hrest : triple coherent (registered r (sending r))
      (_ ← modify (with_zombies (filter (λ z, r_rid z ≠ r_rid r ∨ is_Some (r_ok_since z))));
       _ ← effects (map (λ o, ECall (Telemetry.Rounded (m, account o, oid o))) (r_orders r));
       mret (Queued (length (r_sealed r)) (length (r_public r)) a b)) (λ _, Inv [] ∅) (Inv [] ∅)).
    { eapply (seq _ _ _ (λ _, Inv [] ∅)); [intros; grow| |].
      - apply triple_modify. intros s [[Hb Hn] Ei] Hc. eapply inv_locals; [by apply inv_register|done| |done..].
        cbn. done.
      - intros ?. apply seq_keep; [intros; grow|by apply keep_effects|done|]. intros ?. by apply triple_ret. }
    unfold busy in Eb. repeat case_match; done.
Qed.

Lemma committee_size_pos raw : 0 ≤ committee_size raw.
Proof. unfold committee_size, DEFAULT_COMMITTEE_SIZE. destruct raw; lia. Qed.

Lemma build_triple base quote :
  triple coherent (Inv [] ∅) (build_round views commitment round_id cfg m base quote) (λ _, Inv [] ∅) (Inv [] ∅).
Proof.
  unfold build_round. eapply (seq _ _ _ (λ i s, Inv [] ∅ s ∧ inflight s = i)); [intros; grow|by apply triple_gets|].
  intros [r|]; [apply triple_ret; by intros s [? _]|].
  set (P := λ s, Inv [] ∅ s ∧ inflight s = None).
  assert (HP : stable P) by (apply stable_and; [apply inv_stable|apply (stable_rest (λ i _ _ _ _, i = None))]).
  assert (HE : ∀ s, P s → Inv [] ∅ s) by (by intros s [? _]).
  apply seq_keep; [intros; grow|apply keeps_gets|done|]. intros g.
  apply seq_keep; [intros; grow| |done|].
  { destruct g as [t0|]; [|apply keeps_ret]. apply (keeps_bind coherent coherent_prefix); [intros; grow|by apply keep_time|].
    intros t. case_match; [apply keeps_ret|]. apply (keeps_bind coherent coherent_prefix); [intros; grow|by apply keep_core|intros; apply keeps_ret]. }
  intros [|]; [apply triple_ret; auto|].
  apply seq_keep; [intros; grow|apply keeps_gets|done|]. intros zs.
  apply seq_keep; [intros; grow| |done|].
  { destruct zs; [apply keeps_ret|]. apply (keeps_bind coherent coherent_prefix); [intros; grow|by apply keep_time|]. intros t.
    intros s [HI Hn] Hc. pose proof (resolve_zombies_triple views commitment cfg m arrivals_ok [] (taken s) (ended s) True t s) as H.
    destruct (resolve_zombies views commitment cfg m t s) as [[tk|ex] s']; [|by destruct H].
    destruct H as (H1 & _ & _ & H2 & _); [done|done|]. split; [done|by apply H2]. }
  intros ?. apply seq_keep; [intros; grow|by apply keep_time|done|]. intros now.
  apply seq_keep; [intros; grow|by apply keep_storage|done|]. intros raw.
  apply seq_keep; [intros; grow|by apply keep_time|done|]. intros tp.
  apply seq_keep; [intros; grow|apply keeps_gets|done|]. intros exp.
  apply seq_keep; [intros; grow|by apply keep_storage|done|]. intros cr.
  apply seq_keep; [intros; grow|by apply keep_time|done|]. intros tf.
  apply seq_keep; [intros; grow|by apply keep_read_fin|done|]. intros v.
  apply seq_keep; [intros; grow|case_match; [by apply keep_storage_final|apply keeps_ret]|done|]. intros final_raw.
  apply seq_keep; [intros; grow|by apply keep_sealed_ready|done|]. intros ready.
  eapply (seq _ _ _ (λ n s, P s ∧ 0 ≤ n)); [intros; grow| |].
  { case_match; [|apply triple_ret; intros; split; [done|lia]].
    apply seq_keep; [intros; grow|by apply keep_storage|done|]. intros c. apply triple_ret.
    intros s Hs _. split; [done|]. apply committee_size_pos. }
  intros n. apply triple_fact. intros Hn.
  eapply seq; [intros; grow|by apply plan_and_take_triple|]. intros p. apply triple_fact. intros Hk.
  eapply (seq _ _ _ (λ x s, match x with None => Inv [] ∅ s | Some (r, _) => sending r s end)); [intros; grow| |].
  { eapply (triple_catch coherent coherent_prefix _ _ _ _ _ failed); [intros; grow| |].
    - eapply seq; [intros; grow|apply expire_triple|]. intros ?.
      eapply triple_conseq; [by apply assemble_triple|done| |done]. intros [[r payload]|] s; [done|]. intros Hb. apply Hb.
    - intros e s [held Hb] Hc. cbn. by apply (requeue_inv held). }
  intros [[r payload]|]; [apply send_triple|by apply triple_ret].
Qed.

(** ** Runs *)
Lemma do_op_triple o : triple coherent (Inv [] ∅) (do_op views commitment round_id cfg m o) (λ _, Inv [] ∅) (Inv [] ∅).
Proof.
  assert (Hatt : ∀ A (c : M A), triple coherent (Inv [] ∅) c (λ _, Inv [] ∅) (Inv [] ∅) →
    triple coherent (Inv [] ∅) (_ ← attempt c; mret tt) (λ _, Inv [] ∅) (Inv [] ∅)).
  { intros A c Hc. apply seq_keep; [intros; grow|by apply keeps_attempt|done|]. intros ?. by apply triple_ret. }
  pose proof (inv_stable [] ∅) as HS. destruct o; cbn [do_op].
  - apply Hatt, build_triple.
  - by apply Hatt, resolve_market_triple.
  - apply Hatt. apply seq_keep; [intros; grow|by apply keep_time|done|]. intros t. by apply drain_triple.
  - by apply Hatt, cancel_triple.
  - apply seq_keep; [intros; grow|by apply keep_time|done|]. intros ?. by apply triple_ret.
Qed.

Lemma init_inv : Inv [] ∅ init.
Proof. split; try set_solver; try done. constructor. Qed.

Lemma run_inv ops : coherent (log (run views commitment round_id cfg m ops)) → Inv [] ∅ (run views commitment round_id cfg m ops).
Proof.
  unfold run. induction ops as [|o ops IH] using rev_ind; intros Hc; [apply init_inv|].
  rewrite foldl_app in *. cbn [foldl] in *. set (s := foldl _ init ops) in *.
  pose proof (coherent_prefix _ _ (grows_do_op views commitment round_id cfg m o s) Hc) as Hc'.
  pose proof (do_op_triple o s (IH Hc') Hc) as H. by destruct (do_op views commitment round_id cfg m o s) as [[]].
Qed.
End build.
