(* ===== verification/RoundTheorems.v ===== *)
(** * The life of a round: theorems

    What RoundInv.v, RoundSafety.v and RoundBuild.v prove about the operations of Rounds.v, stated for
    runs; what may be revealed and when a round is settled; and runs that show which assumptions the
    code needs. *)
From S2P Require Import Prelude Orders Clearing RoundPlan Batch Bytes Wire Telemetry Finality Executions Rounds RoundLogic RoundInv RoundSafety RoundBuild.

(** ** Reveals that survive the assembly *)
Lemma filter_length_all {A} (P : A → bool) (l : list A) :
  ¬ (length (filter (λ x, P x = true) l) < length l)%nat → filter (λ x, P x = true) l = l.
Proof.
  intros Hlen. apply filter_all. intros x Hx. destruct (P x) eqn:E; [done|]. exfalso. apply Hlen.
  pose proof (filter_bool_perm P l) as Hp. apply Permutation_length in Hp. rewrite length_app in Hp.
  assert (x ∈ filter (λ x, P x = false) l) as Hin by (by apply list_elem_of_filter).
  destruct (filter (λ x, P x = false) l); [set_solver|]. cbn in Hp. lia.
Qed.

Lemma keep_crossing_result hidden public resting now kept s s' :
  (∀ o, o ∈ hidden → sealed o = true ∧ valid_side o) → (∀ o, o ∈ public → sealed o = false ∧ valid_side o) →
  keep_crossing hidden public resting now s = (Ok kept, s') →
  ∀ o, o ∈ kept → ∃ c, c ∈ resting ++ kept ++ public ∧ counterparty o c.
Proof.
  intros Hh Hp H o Ho. unfold keep_crossing in H. destruct hidden as [|x hidden]; [by injection H as <- _; set_solver|].
  set (hs := x :: hidden) in *. clearbody hs.
  destruct (reveal_filter hs public resting now) as (f & Ef & Epub); [naive_solver..|]. cbn zeta in *.
  assert (E : kept = pl_reveal (plan_round (hs ++ public) resting now all_ready)).
  { rewrite Ef in H |- *. case_match eqn:El.
    - by injection H as <- _.
    - injection H as <- _. symmetry. apply filter_length_all. by apply Nat.ltb_ge in El; lia. }
  rewrite E in Ho |- *. destruct (reveal_counterparty (hs ++ public) resting now all_ready o) as (c & Hc & Hcp); [|done|].
  - intros y [Hy|Hy]%elem_of_app; naive_solver.
  - exists c. split; [|done]. rewrite Epub in Hc. set_solver.
Qed.

Section theorems.
Context (views : nat → view) (commitment round_id : bytes → bytes) (cfg : config) (m : Z).

Lemma price_orders_result public s pr s' :
  price_orders views m public s = (Ok pr, s') → (∀ o, o ∈ public → sealed o = false ∧ valid_side o) →
  ∀ o, o ∈ pr.1 → sealed o = false ∧ valid_side o.
Proof.
  unfold price_orders. intros H Hp. destruct (filter (λ o, is_market o = true) public) eqn:Emk; [by injection H as <- _|].
  apply bind_inv in H as (lp & s1 & _ & H). apply bind_inv in H as (u & s2 & _ & H). injection H as <- _.
  unfold price_market_orders. rewrite Emk. case_match; cbn [fst].
  - intros x [_ Hx]%list_elem_of_filter. auto.
  - intros x (y & -> & Hy)%list_elem_of_fmap. case_match; apply (Hp y Hy).
Qed.

(** No sealed order is revealed for nothing: after re-pricing, the seq discipline and a last
    look at the released rounds have changed the batch, every sealed order of the assembled round
    still has a counterparty among the book and the orders of that very round. *)
Theorem assembled_reveals_cross base quote now raw pruned p resting entries s r payload s' :
  (∀ o, o ∈ pl_reveal p → sealed o = true ∧ valid_side o) → (∀ o, o ∈ pl_public p → sealed o = false ∧ valid_side o) →
  assemble_round views commitment round_id cfg m base quote now raw pruned p resting entries s = (Ok (Some (r, payload)), s') →
  r_resting r = resting ∧
  ∀ o, o ∈ r_sealed r → ∃ c, c ∈ r_resting r ++ r_sealed r ++ r_public r ∧ counterparty o c.
Proof.
  intros Hrev Hpub H. unfold assemble_round in H.
  apply bind_inv in H as (? & s1 & _ & H). apply bind_inv in H as ([priced unpriced] & s2 & Hpr & H).
  apply bind_inv in H as (fl & s3 & _ & H). cbn [fst snd] in H.
  pose proof (price_orders_result _ _ _ _ Hpr Hpub) as Hp. cbn [fst] in Hp.
  destruct (seq_sanitize_spec (λ a, default 0 (fl !! a)) (λ _, None) 0 0 priced) as (st & Est & _ & Hperm). rewrite Est in H.
  apply bind_inv in H as (zs & s4 & _ & H). apply bind_inv in H as (cl & s5 & _ & H).
  apply bind_inv in H as (? & s6 & _ & H). apply bind_inv in H as (hidden & s7 & Hk & H).
  case_bool_decide; [repeat (apply bind_inv in H as (? & ? & _ & H)); done|].
  apply bind_inv in H as ([r' pl'] & s8 & Hf & H). injection H as -> -> _.
  unfold finish_round in Hf. repeat (apply bind_inv in Hf as (? & ? & _ & Hf)). injection Hf as <- _ _. cbn [r_resting r_sealed r_public].
  split; [done|]. eapply keep_crossing_result; [| |exact Hk].
  - intros o [_ Ho]%list_elem_of_filter. auto.
  - intros o [_ Ho]%list_elem_of_filter. apply Hp. rewrite <- Hperm. set_solver.
Qed.

Lemma landed_final_eq rid s : landed_final views rid s =
  (match v_read_final (views (tick s)) (ascii_bytes "rl" ++ rid) with
   | Ok (Some b) => Ok (Some (4 <=? length b)%nat)
   | Ok None => Ok None
   | Raise e => Raise e
   end, with_tick (arrive (v_arrivals (views (tick s))) s)).
Proof.
  unfold landed_final, storage_final. unfold mbind, M_bind. cbn [observe lift].
  by destruct (v_read_final _ _) as [[]|].
Qed.

(** Asked twice at one time, [_finality_advancing] answers from its cache. *)
Lemma advancing_again now b s s' : advancing views now s = (Ok b, s') → ∃ s'', advancing views now s' = (Ok b, s'').
Proof.
  unfold advancing. intros (h & s1 & H1 & H)%bind_inv. apply bind_inv in H as (f & s2 & H2 & H).
  injection H1 as _ <-. injection H2 as <- <-. set (f := fin _) in H.
  destruct (finality_advancing now h.1 h.2 f) as [b' f'] eqn:Ef. apply bind_inv in H as (u & s3 & H3 & H).
  injection H3 as _ <-. injection H as <- <-. eexists. unfold mbind, M_bind. cbn.
  set (v := views _).
  assert (finality_advancing now (v_finalized v) (v_head v) f' = (b', f')) as ->; [|done].
  unfold finality_advancing in *. destruct (read_finality now h.1 h.2 f) as [w g] eqn:Er. injection Ef as Eb <-.
  assert (read_finality now (v_finalized v) (v_head v) g = (w, g)) as ->; [|by rewrite Eb].
  unfold read_finality in Er |- *. destruct (cache_v f) as [c|] eqn:Ec; [destruct (now - cache_t f <? 2) eqn:El|].
  - injection Er as <- <-. by rewrite Ec, El.
  - destruct (look now h.1 h.2 f). injection Er as <- <-. cbn. by rewrite Z.sub_diag.
  - destruct (look now h.1 h.2 f). injection Er as <- <-. cbn. by rewrite Z.sub_diag.
Qed.

(** (C15) A landing is receipted only when it is durable: the round's marker is in the finalized state,
    or the landing was first seen at least MIN_CONFIRM_SECS ago and the settle hold in force has
    elapsed: the explicit hold when there is one; otherwise the full SETTLE_HOLD_SLOTS, unless
    [_finality_advancing] answers at that moment that finality advances.  While it does, a backend that
    reads the finalized state receipts nothing but what is finalized, so only one that cannot read it
    gets by without the hold. *)
Theorem settled_is_durable r now s s' :
  confirmed views cfg r now s = (Ok true, s') →
  let final := v_read_final (views (tick s)) (ascii_bytes "rl" ++ r_rid r) in
  let held := now - default 0 (r_ok_since r) in
  (∃ v, final = Ok (Some v) ∧ (4 ≤ length v)%nat) ∨
  (MIN_CONFIRM_SECS ≤ held ∧
   match SETTLE_HOLD_SECS cfg with
   | Some hold => hold ≤ held
   | None =>
       ∃ adv, (advancing views now (landed_final views (r_rid r) s).2).1 = Ok adv ∧
         if (adv : bool) then final = Ok None else SETTLE_HOLD_SLOTS * SLOT_SECS ≤ held
   end).
Proof.
  intros H. cbn zeta. unfold confirmed in H. apply bind_inv in H as (f & s1 & H1 & H). unfold attempt in H1.
  rewrite landed_final_eq in H1 |- *. cbn [snd]. revert H1.
  destruct (v_read_final (views (tick s)) (ascii_bytes "rl" ++ r_rid r)) as [[v|]|ex]; [destruct (4 <=? length v)%nat eqn:El| |];
    intros H1; injection H1 as <- <-; [| | |discriminate H].
  - left. exists v. split; [done|by apply Nat.leb_le].
  - right.
    apply bind_inv in H as (wait & s2 & Hw & H). destruct wait; [discriminate H|].
    apply bind_inv in H as (hold & s3 & Hh & H). injection H as H _. apply Z.leb_le in H.
    destruct (SETTLE_HOLD_SECS cfg) as [h|]; [injection Hh as <- _; lia|].
    destruct (advancing_again _ _ _ _ Hw) as [s4 Ha]. apply bind_inv in Hh as (a & s5 & Ha' & Hh).
    rewrite Ha in Ha'. injection Ha' as <- <-. injection Hh as <- _. cbn in H. split; [lia|].
    exists false. split; [by rewrite Hw|lia].
  - right. apply bind_inv in H as (wait & s2 & Hw & H). destruct wait; [discriminate H|].
    apply bind_inv in H as (hold & s3 & Hh & H). injection H as H _. apply Z.leb_le in H. split; [lia|].
    injection Hw as <-. destruct (SETTLE_HOLD_SECS cfg) as [h|]; [injection Hh as <- _; lia|].
    apply bind_inv in Hh as (a & s5 & Ha & Hh). injection Hh as <- _. exists a. split; [by rewrite Ha|].
    destruct a; [done|]. cbn in H. lia.
Qed.
End theorems.

(** ** No order is lost *)

(** (C1) No order is lost and none is ended twice.  Take any sequence of builds, resolver sweeps, re-seals,
    cancels and arrivals, with reads that may fail or see the chain move, re-orgs included, between any two
    of them, whose log is coherent:
    - an order key is placed once, an order object has one key, and an order placed by the api has an
      (account, oid) not used before;
    - a round id names one set of orders;
    - no round is read as landed while another round that shares an order with it counts as landed, that
      is, was read as landed (and perhaps settled) and was not found taken back by a re-org since;
    - no round is read as landed after an order it carries was cancelled, rejected or expired;
    - no read of [_rival_landed] fails.
    Then every order that ever entered the mempool is in exactly one place: queued, in the round in flight
    and not claimed from it, held by one released round seen landing, or ended, and ended once. *)
Theorem no_order_lost views commitment round_id cfg m ops k ref api :
  (∀ n p, p ∈ v_arrivals (views n) → valid_side p.1) →
  let s := run views commitment round_id cfg m ops in
  coherent (log s) → LPlaced k ref api ∈ log s →
  cnt k (pending s) + infl k (inflight s) + sight ∅ k (zombies s) + ended_n k (log s) = 1.
Proof.
  intros Harr s Hc Hk. pose proof (iv_count _ _ _ (run_inv views commitment round_id cfg m Harr ops Hc) k) as H.
  fold s in H. change (cnt k []) with 0 in H. pose proof (placed_pos _ _ _ _ Hk). pose proof (co_once _ Hc k). lia.
Qed.

(** ** Checking a concrete log *)
Definition log_placed (lg : list entry) : list (key * positive) :=
  omap (λ e, match e with LPlaced k r _ => Some (k, r) | _ => None end) lg.
Definition log_seen (lg : list entry) : list (bytes * gset key) :=
  omap (λ e, match e with LSeen x ks => Some (x, ks) | _ => None end) lg.
Definition no_rival_error (lg : list entry) : bool :=
  forallb (λ e, match e with LRivalError => false | _ => true end) lg.

(** The landed reads in their order; [lv]: the rounds that count as landed, [dead]: the orders ended
    otherwise. *)
Fixpoint check_seen (lv : list (bytes * gset key)) (dead : list key) (lg : list entry) : bool :=
  match lg with
  | [] => true
  | LSeen x ks :: lg' =>
      bool_decide (Forall (λ a, a.1 ≠ x → a.2 ## ks) lv) && bool_decide (Forall (λ k, k ∉ ks) dead) &&
      check_seen ((x, ks) :: lv) dead lg'
  | LGone x :: lg' => check_seen (filter (λ a, a.1 ≠ x) lv) dead lg'
  | LEnded k :: lg' => check_seen lv (k :: dead) lg'
  | _ :: lg' => check_seen lv dead lg'
  end.

(** A sufficient condition that computes: order ids, (account, oid) pairs and objects are fresh. *)
Definition check_log (lg : list entry) : bool :=
  bool_decide (NoDup (map (λ p, p.1.1) (log_placed lg))) && bool_decide (NoDup (map snd (log_placed lg))) &&
  bool_decide (Forall (λ a, Forall (λ b, a.1 = b.1 → a.2 = b.2) (log_seen lg)) (log_seen lg)) &&
  check_seen [] [] lg && no_rival_error lg.

Lemma elem_of_placed lg k r b : LPlaced k r b ∈ lg → (k, r) ∈ log_placed lg.
Proof. intros H. apply list_elem_of_omap. eauto. Qed.
Lemma elem_of_seen lg x ks : LSeen x ks ∈ lg → (x, ks) ∈ log_seen lg.
Proof. intros H. apply list_elem_of_omap. eauto. Qed.

Lemma live_snoc p e x ks : live (p ++ [e]) x ks → e = LSeen x ks ∨ live p x ks ∧ e ≠ LGone x.
Proof.
  intros (l1 & l2 & E & Hn). destruct l2 as [|y l2 _] using rev_ind.
  - apply app_inj_tail in E as [_ ->]. by left.
  - rewrite app_comm_cons, (assoc_L (++)) in E. apply app_inj_tail in E as [-> ->]. right.
    split; [|set_solver]. exists l1, l2. split; [done|set_solver].
Qed.

Lemma check_seen_ok lg : ∀ p lv dead,
  (∀ x ks, live p x ks → (x, ks) ∈ lv) → (∀ k, LEnded k ∈ p → k ∈ dead) → check_seen lv dead lg = true →
  ∀ l1 x ks l2, lg = l1 ++ LSeen x ks :: l2 →
    (∀ x1 ks1, live (p ++ l1) x1 ks1 → x1 ≠ x → ks1 ## ks) ∧ ∀ k, LEnded k ∈ p ++ l1 → k ∉ ks.
Proof.
  induction lg as [|e lg IH]; intros p lv dead Hlv Hd Hc l1 x ks l2 E; [by destruct l1|].
  destruct l1 as [|e' l1]; cbn in E; injection E as -> E.
  - cbn in Hc. rewrite !andb_true_iff, !bool_decide_eq_true, !Forall_forall in Hc. destruct Hc as [[H1 H2] _].
    rewrite app_nil_r. split.
    + intros x1 ks1 Hl. exact (H1 _ (Hlv _ _ Hl)).
    + intros k Hk. exact (H2 _ (Hd _ Hk)).
  - assert (∃ lv' dead', check_seen lv' dead' lg = true ∧ (∀ x ks, live (p ++ [e']) x ks → (x, ks) ∈ lv') ∧
        ∀ k, LEnded k ∈ p ++ [e'] → k ∈ dead') as (lv' & dead' & Hc' & Hlv' & Hd').
    { assert (Hsame : (∀ y ys, e' ≠ LSeen y ys) → (∀ y ys, live (p ++ [e']) y ys → (y, ys) ∈ lv))
        by (intros Hne y ys [?|[? _]]%live_snoc; [by destruct (Hne y ys)|auto]).
      assert (Hdead : (∀ k, e' ≠ LEnded k) → (∀ k, LEnded k ∈ p ++ [e'] → k ∈ dead))
        by (intros Hne k [?|Hk%list_elem_of_singleton]%elem_of_app; [auto|by destruct (Hne k)]).
      destruct e' as [|y ys|y| |k'| | |]; cbn in Hc; try (exists lv, dead; split_and!; [done|by apply Hsame|by apply Hdead]).
      - apply andb_true_iff in Hc as [_ Hc]. exists ((y, ys) :: lv), dead. split_and!; [done| |by apply Hdead].
        intros z zs [[= <- <-]|[? _]]%live_snoc; [set_solver|apply elem_of_cons; auto].
      - exists (filter (λ a, a.1 ≠ y) lv), dead. split_and!; [done| |by apply Hdead].
        intros z zs [?|[? Hne]]%live_snoc; [done|]. apply list_elem_of_filter. split; [|auto]. cbn. congruence.
      - exists lv, (k' :: dead). split_and!; [done|by apply Hsame|].
        intros k [?|Hk%list_elem_of_singleton]%elem_of_app; [apply elem_of_cons; auto|]. injection Hk as ->. set_solver. }
    specialize (IH (p ++ [e']) lv' dead' Hlv' Hd' Hc' l1 x ks l2 E). by rewrite <- (assoc_L (++)) in IH.
Qed.

Lemma placed_n_once k lg : NoDup (map (λ p, p.1.1) (log_placed lg)) → placed_n k lg ≤ 1.
Proof.
  induction lg as [|e lg IH]; intros Hnd; [done|]. unfold placed_n in *. rewrite zsum_cons.
  destruct e as [k' r b| | | | | | |]; try (apply IH; exact Hnd).
  change (log_placed (LPlaced k' r b :: lg)) with ((k', r) :: log_placed lg) in Hnd. cbn [map] in Hnd.
  apply NoDup_cons in Hnd as [Hni Hnd]. case_decide as E; [|by apply IH]. subst k'.
  rewrite zsum_zero; [lia|]. intros [k' r' b'| | | | | | |] He; try done. case_decide as E; [|done]. subst k'.
  destruct Hni. apply list_elem_of_fmap. exists (k, r'). split; [done|]. by eapply elem_of_placed.
Qed.

Lemma log_placed_app l l' : log_placed (l ++ l') = log_placed l ++ log_placed l'.
Proof. apply omap_app. Qed.

Lemma check_log_ok lg : check_log lg = true → coherent lg.
Proof.
  unfold check_log. rewrite !andb_true_iff, !bool_decide_eq_true. intros ((((H1 & H2) & H3) & H4) & H5).
  pose proof (check_seen_ok lg [] [] [] (λ x ks H, ltac:(destruct H as ([] & ? & [=] & _))) ltac:(set_solver) H4) as Hseen.
  rewrite Forall_forall in H3. split.
  - intros k. by apply placed_n_once.
  - intros k1 k2 r b1 b2 Ha Hb. apply elem_of_placed in Ha, Hb.
    assert ((k1, r) = (k2, r)) as [= ->]; [|done]. by eapply (NoDup_map_inj snd).
  - intros l1 l2 k r -> k' r' b Hk E. rewrite log_placed_app, List.map_app in H1.
    apply NoDup_app in H1 as (_ & Hd & _). apply (Hd k'.1).
    + apply list_elem_of_fmap. exists (k', r'). split; [done|]. by eapply elem_of_placed.
    + rewrite E. apply list_elem_of_fmap. exists (k, r). split; [done|]. apply (elem_of_placed _ _ _ true). set_solver.
  - intros x ks1 ks2 Ha%elem_of_seen Hb%elem_of_seen. specialize (H3 _ Ha). rewrite Forall_forall in H3.
    by apply (H3 _ Hb).
  - intros l1 l2 x1 x2 ks1 ks2 E. by apply (Hseen l1 x2 ks2 l2 E).
  - intros l1 l2 x ks k E. by apply (Hseen l1 x ks l2 E).
  - intros He. unfold no_rival_error in H5. rewrite forallb_forall in H5. specialize (H5 _ (proj1 (list_elem_of_In _ _) He)). done.
Qed.

(** ** A run *)

(** A chain whose storage answers [f key] at every instant; the clock advances with each read. *)
Definition chain_view (f : nat → bytes → result bytes) (arr : nat → list (order * Z)) (n : nat) : view :=
  View (Z.of_nat n) (f n) (λ _, Ok None) (Ok None) (Ok None) (λ _, Ok tt) [Z.of_nat n] (λ _, Raise (KeyError "committee"))
    (λ _ _ _, Raise (KeyError "committee")) (Pos.of_nat (1000 + n)) (arr n).

Definition starts_with (p : string) (k : bytes) : bool := bool_decide (take (String.length p) k = ascii_bytes p).

(** Two public orders that cross arrive and are built into a round; another round rewrites the book, so
    this one looks dead and is released; then it lands after all. *)
Definition buy2 : order := signed_order 1 1 1001 BUY 100 5 1 limit.
Definition sell2 : order := signed_order 2 2 1002 SELL 90 5 1 limit.
Definition late_storage (n : nat) (k : bytes) : result bytes :=
  if starts_with "rl" k then Ok (if (n <? 24)%nat then [] else [7; 0; 0; 0])
  else if starts_with "book" k then Ok (if (n <? 11)%nat then [] else repeat 0 17)
  else Ok [].
Definition arrivals1 (n : nat) : list (order * Z) :=
  match n with O => [(buy2, 10000); (sell2, 10000)] | _ => [] end.
Definition cfg1 : config := Config false (Some 0) 4 900 300 150 1000000000.
Definition run1 (ops : list op) : state := run (chain_view late_storage arrivals1) commitment1 commitment1 cfg1 0 ops.

Lemma arrivals1_valid n p : p ∈ v_arrivals (chain_view late_storage arrivals1 n) → valid_side p.1.
Proof.
  destruct n; cbn; [|set_solver]. intros [->|[->|H]%elem_of_cons]%elem_of_cons; [by left|by right|set_solver].
Qed.

(** Two rounds with the same orders: the first is released and its orders are built into the second.
    The first is on the best chain from [a0] to [a1], the second from [b0] on. *)
Definition rivals_storage (a0 a1 b0 n : nat) (k : bytes) : result bytes :=
  if starts_with "rl" k then
    Ok (if (if bool_decide (nth 2 k 0 = 79) then (a0 <=? n)%nat && (n <? a1)%nat else (b0 <=? n)%nat)
        then [7; 0; 0; 0] else [])
  else if starts_with "book" k then Ok (if (n <? 11)%nat then [] else repeat 0 17)
  else Ok [].
Definition run_rivals (a0 a1 b0 sweeps : nat) : state :=
  run (chain_view (rivals_storage a0 a1 b0) arrivals1) commitment1 commitment1 cfg1 0
    ([OpWait; OpBuild 1 0; OpResolve; OpResolve; OpResolve; OpBuild 1 0] ++ replicate sweeps OpResolve).
Definition order1 : key := (1, 1001, None).

Lemma arrivals_rivals_valid a0 a1 b0 n p :
  p ∈ v_arrivals (chain_view (rivals_storage a0 a1 b0) arrivals1 n) → valid_side p.1.
Proof.
  destruct n; cbn; [|set_solver]. intros [->|[->|H]%elem_of_cons]%elem_of_cons; [by left|by right|set_solver].
Qed.

(** The landing of the first round is taken back by a re-org and the second lands instead: the order is
    claimed, freed and settled once. *)
Definition seen_rids (s : state) : list (bool * Z) :=
  omap (λ e, match e with
             | LSeen x _ => Some (true, nth 0 x 0)
             | LGone x => Some (false, nth 0 x 0)
             | _ => None
             end) (log s).

Lemma no_order_lost_witness :
  let s := run_rivals 34 38 44 3 in
  seen_rids s = [(true, 79); (false, 79); (true, 41); (true, 41)] ∧ check_log (log s) = true ∧
  cnt order1 (pending s) + infl order1 (inflight s) + sight ∅ order1 (zombies s) + ended_n order1 (log s) = 1 ∧
  ended_n order1 (log s) = 1.
Proof.
  split; [by vm_compute|]. split; [by vm_compute|]. split; [|by vm_compute].
  apply (no_order_lost (chain_view (rivals_storage 34 38 44) arrivals1) commitment1 commitment1 cfg1 0
           ([OpWait; OpBuild 1 0; OpResolve; OpResolve; OpResolve; OpBuild 1 0] ++ replicate 3 OpResolve) order1 1 true).
  - apply arrivals_rivals_valid.
  - apply check_log_ok. by vm_compute.
  - apply (list_elem_of_lookup_2 _ 0). by vm_compute.
Defined.

(** Without coherence the bookkeeping breaks: the second round lands, is settled and no longer tracked;
    when a deep re-org then lets the first one land, it is settled too, and the order is ended twice. *)
Example settled_twice :
  let s := run_rivals 60 99 34 12 in
  seen_rids s = [(true, 41); (true, 41); (true, 79); (true, 79)] ∧ check_log (log s) = false ∧
  ended_n order1 (log s) = 2.
Proof. split_and!; vm_compute; reflexivity. Qed.
(** The released round of that run, once it has been seen landing. *)
Definition late_round : round_rec :=
  Rec 1 1 [] [buy2; sell2] [] (clear [buy2; sell2]) [] [9; 9] [] [] [] [] ∅ (Some 3) None (Some (2, "timeout"%string)).

(** With no explicit hold, on a backend that can read neither the finalized state nor a finalized head,
    the landing waits the full hold. *)
Definition cfg_derived : config := Config false None 4 900 300 150 1000000000.
Definition confirmed_at (now : Z) : result bool * state :=
  confirmed (chain_view late_storage arrivals1) cfg_derived late_round now init.

Example held_until_the_end : (confirmed_at 152).1 = Ok false ∧ (confirmed_at 153).1 = Ok true.
Proof. split; vm_compute; reflexivity. Qed.

Lemma settled_is_durable_witness :
  (confirmed_at 153).1 = Ok true ∧ MIN_CONFIRM_SECS ≤ 153 - 3 ∧ SETTLE_HOLD_SLOTS * SLOT_SECS ≤ 153 - 3.
Proof.
  split; [by vm_compute|].
  destruct (settled_is_durable (chain_view late_storage arrivals1) cfg_derived late_round 153 init
              (confirmed_at 153).2 ltac:(by vm_compute)) as [(v & Hv & _)|(Hm & adv & Ha & H)]; [discriminate Hv|].
  split; [exact Hm|]. destruct adv; [vm_compute in Ha; discriminate Ha|exact H].
Defined.

(** A public order superseded on chain leaves the batch; the hidden order that crossed only with it goes
    back to the queue, the other is revealed. *)
Definition hide (o : order) : order := with_seal (Some (repeat 0 49)) None (Some [account o]) o.
Definition gone_sell : order := signed_order 12 2 1002 SELL 60 5 1 limit.
Definition lonely_buy : order := hide (mk_order 13 3 1003 BUY 70 5 true).
Definition matched_sell : order := hide (mk_order 14 4 1004 SELL 90 5 true).
Definition plan1 : plan := RoundPlan [lonely_buy; matched_sell] [buy2; gone_sell] [] [] [] [].
Definition floor_storage (_ : nat) (k : bytes) : result bytes :=
  Ok (if bool_decide (k = ascii_bytes "sq" ++ le_bytes 4 2) then [5; 0; 0; 0] else []).
Definition assembled1 : result (option (round_rec * bytes)) * state :=
  assemble_round (chain_view floor_storage (λ _, [])) commitment1 commitment1 cfg1 0 1 0 50 [] [] plan1 [] [] init.

Lemma assembled_reveals_cross_witness :
  match assembled1.1 with
  | Ok (Some (r, _)) => r_sealed r = [matched_sell] ∧ pending assembled1.2 = [lonely_buy] ∧
      ∀ o, o ∈ r_sealed r → ∃ c, c ∈ r_resting r ++ r_sealed r ++ r_public r ∧ counterparty o c
  | _ => False
  end.
Proof.
  destruct assembled1 as [[[[r payload]|]|] s'] eqn:E; [|exfalso; vm_compute in E; discriminate E..].
  split; [vm_compute in E; by injection E as <- _|].
  split; [vm_compute in E; by injection E as _ _ <-|].
  apply (assembled_reveals_cross (chain_view floor_storage (λ _, [])) commitment1 commitment1 cfg1 0 1 0 50 [] [] plan1 [] [] init
           r payload s'); [| |exact E].
  - intros o [->|[->|H]%elem_of_cons]%elem_of_cons; [split; [done|by left]|split; [done|by right]|set_solver].
  - intros o [->|[->|H]%elem_of_cons]%elem_of_cons; [split; [done|by left]|split; [done|by right]|set_solver].
Defined.
