(* ===== verification/Mine.v ===== *)
(** * A trader's own orders

    src/offchain/server.py, [api_mine]: the trader's live orders in every state - queued, in a round that is settling, or
    resting on the book.  With the invariant of RoundInv.v the view can be described exactly between two operations of
    the builder: an order has a row as long as it has not ended.  The code says that an order must never disappear from
    this view between states, which is more: the remainder of a partly filled hidden order whose re-seal is queued for a
    retry has no row ([retry_hides]), and neither have the orders a running build holds ([build_hides]).

    Prices and quantities are atomic (the code shows them divided by the scale); [outcome_of] reads the dict's [_outcome]
    mark, which the order record of Orders.v leaves out. *)
From S2P Require Import Prelude Orders Clearing RoundPlan Batch Bytes Wire Telemetry Finality Executions Rounds RoundLogic RoundInv RoundSafety RoundBuild RoundTheorems.

Inductive mine_status := InMempool | Settling | Resting.
Record mine_row := MineRow {
  mr_market : Z; mr_oid : Z; mr_account : Z; mr_side : Z; mr_sealed : bool; mr_price : Z; mr_qty : Z;
  mr_status : mine_status; mr_expires_in : option Z
}.

Section mine.
Context (outcome_of : order → string) (acct now : Z).

(** [endswith("carried")] *)
Definition carried (o : order) : bool :=
  let s := String.list_ascii_of_string (outcome_of o) in let w := String.list_ascii_of_string "carried" in
  (length w <=? length s)%nat && bool_decide (drop (length s - length w) s = w).
(** [tag(mempool_entry(o, owner=True), mid, status)] *)
Definition tag_row (m : Z) (s : state) (status : mine_status) (o : order) : mine_row :=
  MineRow m (oid o) (account o) (side o) (sealed o) (price o) (qty o) status
    (match order_expiry s !! (acct, oid o) with Some x => if x =? 0 then None else Some (Z.max 0 (x - now)) | None => None end).
(** Waiting in the mempool *)
Definition mine_pending (m : Z) (s : state) : list mine_row :=
  map (λ o, tag_row m s (if carried o then Settling else InMempool) o) (filter (λ o, account o = acct) (pending s)).
Definition row_id (r : mine_row) : Z * Z := (mr_market r, mr_oid r).
(** Rows for the orders of one group not surfaced yet, one by one *)
Fixpoint mine_more (m : Z) (s : state) (status : mine_status) (orders : list order) (out : list mine_row) : list mine_row :=
  match orders with
  | [] => out
  | o :: rest =>
      mine_more m s status rest
        (if decide (account o = acct ∧ (m, oid o) ∉ map row_id out) then out ++ [tag_row m s status o] else out)
  end.
(** The rounds that may be settling: in flight, or released and seen landing *)
Definition settling_rounds (markets : list (Z * state)) : list (Z * state * round_rec) :=
  omap (λ ms, (λ r, (ms, r)) <$> inflight ms.2) markets ++
  flat_map (λ ms, map (λ z, (ms, z)) (filter (λ z, is_Some (r_ok_since z)) (zombies ms.2))) markets.
(** [api_mine]; [books] is the stored book of each default market *)
Definition api_mine (markets : list (Z * state)) (books : list (Z * state * bytes)) : list mine_row :=
  let out := flat_map (λ ms, mine_pending ms.1 ms.2) markets in
  let out := foldl (λ out x, let '(ms, r) := x in mine_more ms.1 ms.2 Settling (r_orders r) out) out (settling_rounds markets) in
  foldl (λ out x, let '(ms, raw) := x in mine_more ms.1 ms.2 Resting (parse_book raw) out) out books.
End mine.

(** ** Nothing disappears *)
Section view.
Context (acct now : Z).
Notation mine_more := (mine_more acct now).

Lemma more_prefix m s st orders out : ∃ new, mine_more m s st orders out = out ++ new.
Proof.
  revert out. induction orders as [|o orders IH]; intros out; cbn; [exists []; by rewrite app_nil_r|]. destruct (IH (if decide (account o = acct ∧ (m, oid o) ∉ map row_id out) then out ++ [tag_row acct now m s st o] else out)) as [new ->].
  case_decide; [rewrite <- app_assoc|]; eauto.
Qed.
Lemma more_keeps m s st orders out r : r ∈ out → r ∈ mine_more m s st orders out.
Proof. intros Hr. destruct (more_prefix m s st orders out) as [new ->]. set_solver. Qed.
Lemma more_shows m s st orders out o : o ∈ orders → account o = acct → (m, oid o) ∈ map row_id (mine_more m s st orders out).
Proof.
  intros Ho Ha. revert out. induction orders as [|x orders IH]; intros out; [set_solver|]. cbn. apply elem_of_cons in Ho as [<-|Ho]; [|by apply IH].
  assert ((m, oid o) ∈ map row_id (if decide (account o = acct ∧ (m, oid o) ∉ map row_id out) then out ++ [tag_row acct now m s st o] else out)) as Hin.
  { destruct (decide ((m, oid o) ∈ map row_id out)) as [Hi|Hi]; [rewrite decide_False by naive_solver; done|]. rewrite decide_True by done. rewrite List.map_app. apply elem_of_app. right. by apply list_elem_of_singleton. }
  apply list_elem_of_fmap in Hin as (r & E & Hr). apply list_elem_of_fmap. exists r. split; [done|]. by apply more_keeps.
Qed.
Definition owned (r : mine_row) : Prop := mr_account r = acct.
Lemma more_forall (P : mine_row → Prop) m s st orders out : (∀ o, o ∈ orders → account o = acct → P (tag_row acct now m s st o)) →
  Forall P out → Forall P (mine_more m s st orders out).
Proof.
  revert out. induction orders as [|o orders IH]; intros out H Hout; cbn; [done|]. apply IH; [set_solver|]. case_decide as E; [|done]. apply Forall_app. split; [done|]. apply Forall_singleton, H; [set_solver|naive_solver].
Qed.
(** No order is listed again by a later group. *)
Lemma more_nodup m s st orders out : NoDup (map row_id out) → NoDup (map row_id (mine_more m s st orders out)).
Proof.
  revert out. induction orders as [|o orders IH]; intros out H; cbn; [done|]. apply IH. case_decide as E; [|done]. rewrite List.map_app. apply NoDup_app. split_and!; [done| |apply NoDup_singleton]. cbn. intros i Hi Hi'%list_elem_of_singleton. subst i. by destruct E.
Qed.

Lemma fold_keeps {A} (f : list mine_row → A → list mine_row) (xs : list A) out r : (∀ out x r, r ∈ out → r ∈ f out x) → r ∈ out → r ∈ foldl f out xs.
Proof. intros Hf. revert out. induction xs as [|x xs IH]; intros out Hr; cbn; [done|]. apply IH. by apply Hf. Qed.
Lemma fold_shows {A} (f : list mine_row → A → list mine_row) (xs : list A) out x i : (∀ out x r, r ∈ out → r ∈ f out x) → x ∈ xs → (∀ out, i ∈ map row_id (f out x)) → i ∈ map row_id (foldl f out xs).
Proof.
  intros Hf Hx Hi. revert out. induction xs as [|y xs IH]; intros out; [set_solver|]. cbn. apply elem_of_cons in Hx as [<-|Hx]; [|by apply IH].
  specialize (Hi out). apply list_elem_of_fmap in Hi as (r & E & Hr). apply list_elem_of_fmap. exists r. split; [done|]. by apply fold_keeps.
Qed.
Lemma fold_forall {A} (P : mine_row → Prop) (f : list mine_row → A → list mine_row) (xs : list A) out : (∀ out x, x ∈ xs → Forall P out → Forall P (f out x)) → Forall P out → Forall P (foldl f out xs).
Proof. intros Hf. revert out. induction xs as [|x xs IH]; intros out Hout; cbn; [done|]. apply IH; [intros; apply Hf; set_solver|]. apply Hf; [set_solver|done]. Qed.
End view.

(** Where a row's order is *)
Definition placed_as (acct : Z) (markets : list (Z * state)) (books : list (Z * state * bytes)) (r : mine_row) : Prop :=
  mr_account r = acct ∧ ∃ s o, account o = acct ∧ oid o = mr_oid r ∧
  match mr_status r with
  | InMempool => (mr_market r, s) ∈ markets ∧ o ∈ pending s
  | Settling => (mr_market r, s) ∈ markets ∧ (o ∈ pending s ∨ ∃ z, (inflight s = Some z ∨ z ∈ zombies s ∧ sighted z) ∧ o ∈ r_orders z)
  | Resting => ∃ raw, (mr_market r, s, raw) ∈ books ∧ o ∈ parse_book raw
  end.

Lemma elem_of_settling markets m s z : (m, s, z) ∈ settling_rounds markets ↔ (m, s) ∈ markets ∧ (inflight s = Some z ∨ z ∈ zombies s ∧ sighted z).
Proof.
  unfold settling_rounds. rewrite elem_of_app, list_elem_of_omap. split.
  - intros [([m' s'] & Hin & E)|H]; [cbn in E; destruct (inflight s') eqn:Ei; [|done]; injection E as -> -> ->; auto|].
    apply list_elem_of_In, in_flat_map in H as ([m' s'] & Hin & H). apply in_map_iff in H as (z' & [= -> -> ->] & H). apply list_elem_of_In, list_elem_of_filter in H as [H1 H2]. split; [by apply list_elem_of_In|auto].
  - intros [Hin [E|[H1 H2]]]; [left; exists (m, s); split; [done|]; cbn; by rewrite E|right]. apply list_elem_of_In, in_flat_map. exists (m, s). split; [by apply list_elem_of_In|].
    apply in_map_iff. exists z. split; [done|]. by apply list_elem_of_In, list_elem_of_filter.
Qed.

Section rows.
Context (outcome_of : order → string) (acct now : Z) (markets : list (Z * state)) (books : list (Z * state * bytes)).
Notation mine := (api_mine outcome_of acct now markets books).

Lemma rows_true : Forall (placed_as acct markets books) mine.
Proof.
  unfold api_mine. apply fold_forall; [|apply fold_forall].
  - intros out [[m s] raw] Hx Hout. apply (more_forall acct now (placed_as acct markets books)); [|exact Hout]. intros o Ho Ha. split; [done|]. exists s, o. split_and!; [done..|]. by exists raw.
  - intros out [[m s] z] Hx Hout. apply (more_forall acct now (placed_as acct markets books)); [|exact Hout]. intros o Ho Ha. split; [done|]. exists s, o. apply elem_of_settling in Hx as [Hm Hz]. split_and!; [done..|]. cbn. eauto.
  - apply Forall_forall. intros r Hr. apply list_elem_of_In, in_flat_map in Hr as ([m s] & Hin%list_elem_of_In & Hr). apply in_map_iff in Hr as (o & <- & Ho). apply list_elem_of_In, list_elem_of_filter in Ho as [Ha Ho].
    split; [done|]. exists s, o. cbn. split_and!; [done..|]. destruct (carried outcome_of o); auto.
Qed.
Lemma pending_shown m s o : (m, s) ∈ markets → o ∈ pending s → account o = acct → (m, oid o) ∈ map row_id mine.
Proof.
  intros Hm Ho Ha. set (r := tag_row acct now m s (if carried outcome_of o then Settling else InMempool) o). assert (r ∈ mine) as Hr; [|apply list_elem_of_fmap; by exists r].
  unfold api_mine. apply fold_keeps; [intros out [[m' s'] raw] x; apply more_keeps|]. apply fold_keeps; [intros out [[m' s'] z] x; apply more_keeps|].
  apply list_elem_of_In, in_flat_map. exists (m, s). split; [by apply list_elem_of_In|]. apply in_map_iff. exists o. split; [done|]. by apply list_elem_of_In, list_elem_of_filter.
Qed.
Lemma settling_shown m s z o : (m, s, z) ∈ settling_rounds markets → o ∈ r_orders z → account o = acct → (m, oid o) ∈ map row_id mine.
Proof.
  intros Hz Ho Ha. unfold api_mine. set (out := foldl _ _ (settling_rounds markets)). assert ((m, oid o) ∈ map row_id out) as H.
  { apply (fold_shows _ _ _ (m, s, z)); [intros out0 [[m' s'] z'] x; apply more_keeps|done|]. intros out0. by apply more_shows. }
  apply list_elem_of_fmap in H as (r & E & Hr). apply list_elem_of_fmap. exists r. split; [done|]. apply fold_keeps; [|done]. intros out0 [[m' s'] raw] x. apply more_keeps.
Qed.
Lemma resting_shown m s raw o : (m, s, raw) ∈ books → o ∈ parse_book raw → account o = acct → (m, oid o) ∈ map row_id mine.
Proof.
  intros Hb Ho Ha. unfold api_mine. apply (fold_shows _ _ _ (m, s, raw)); [intros out0 [[m' s'] raw'] x; apply more_keeps|done|]. intros out0. by apply more_shows.
Qed.
(** The view lists these orders, and no others. *)
Lemma rows_exact m i : (m, i) ∈ map row_id mine ↔ ∃ s o, account o = acct ∧ oid o = i ∧
  ((m, s) ∈ markets ∧ (o ∈ pending s ∨ ∃ z, (inflight s = Some z ∨ z ∈ zombies s ∧ sighted z) ∧ o ∈ r_orders z) ∨
   ∃ raw, (m, s, raw) ∈ books ∧ o ∈ parse_book raw).
Proof.
  split.
  - intros (r & [= -> ->] & Hr)%list_elem_of_fmap. pose proof rows_true as H. rewrite Forall_forall in H. destruct (H r Hr) as (_ & s & o & Ha & Ho & Hp).
    exists s, o. split_and!; [done..|]. destruct (mr_status r); [left; naive_solver|left; naive_solver|by right].
  - intros (s & o & Ha & <- & [[Hm [Ho|(z & Hz & Ho)]]|(raw & Hb & Ho)]); [by eapply pending_shown| |by eapply resting_shown].
    eapply settling_shown; [|done..]. by apply elem_of_settling.
Qed.
End rows.

Lemma zsum_pos_elem {A} (f : A → Z) (l : list A) : 0 < zsum f l → ∃ x, x ∈ l ∧ 0 < f x.
Proof.
  induction l as [|x l IH]; [rewrite zsum_nil; lia|]. rewrite zsum_cons. intros H. destruct (decide (0 < f x)); [exists x; set_solver|].
  destruct IH as (y & ? & ?); [lia|]. exists y. set_solver.
Qed.
Lemma sight_some k zs : 0 < sight ∅ k zs → ∃ z o, z ∈ zs ∧ sighted z ∧ o ∈ r_orders z ∧ order_key o = k.
Proof.
  intros (z & Hz & H)%zsum_pos_elem. case_decide as E; [|lia]. apply cnt_pos in H as (o & Ho & Hk). exists z, o. by destruct E.
Qed.


(** ** Runs *)
Definition no_outcome (_ : order) : string := "".
(** Inside a build, between taking its orders and registering the round, the view has neither. *)
Example build_hides :
  let s := (plan_and_take commitment1 cfg1 5 [] [] 0 (λ _, true) (run1 [OpWait])).2 in
  map mr_status (api_mine no_outcome 1 5 [(0, run1 [OpWait])] []) = [InMempool] ∧ api_mine no_outcome 1 5 [(0, s)] [] = [].
Proof. by vm_compute. Qed.

(** A hidden order fills 3 of 5 and its re-seal finds the chain busy: the remainder is queued for a retry and has no row. *)
Definition busy_view (n : nat) : view :=
  View (Z.of_nat n) (λ _, Ok []) (λ _, Ok None) (Ok None) (Ok None) (λ _, Raise (ChainBusy "full")) [Z.of_nat n]
    (λ _, Raise (KeyError "committee")) (λ _ _ _, Raise (KeyError "committee")) (Pos.of_nat (1000 + n)) [].
Definition hidden_buy : order := hide buy2.
Definition partly_round : round_rec :=
  Rec 1 1 [hidden_buy] [signed_order 2 2 1002 SELL 90 3 1 limit] [] (clear [hidden_buy; signed_order 2 2 1002 SELL 90 3 1 limit]) [] [9; 9] [] [] [] [] ∅ (Some 3) None None.
Example retry_hides :
  let s := (finalize_round busy_view commitment1 cfg1 0 partly_round init).2 in
  map qty (carry_retry s) = [2] ∧ api_mine no_outcome 1 5 [(0, with_inflight (Some partly_round) init)] [] ≠ [] ∧
  api_mine no_outcome 1 5 [(0, s)] [] = [].
Proof. by vm_compute. Qed.
