(* ===== verification/DevKeys.v ===== *)
(** * The standard dev accounts: nets/devkeys.py

    The seed of a dev account, its Ed25519 public key (RFC 8032, in extended coordinates) and its JAMNP-S peer id.  The two
    hashes, [hashlib.blake2b] and [hashlib.sha512], are arguments of what uses them.

    The constants of the curve are computed once, when the file is read, as the module computes them at import. *)
From S2P Require Import Prelude Bytes.
From Stdlib Require Import Znumtheory Ascii.

Module DevKeys.

(** ** Arithmetic modulo p *)

(** [pow(b, e, m)] *)
Fixpoint pow_pos (b : Z) (e : positive) (m : Z) : Z :=
  match e with
  | xH => b mod m
  | xO e' => pow_pos (b * b mod m) e' m
  | xI e' => b * pow_pos (b * b mod m) e' m mod m
  end.
Definition pow_mod (b e m : Z) : Z := match e with Zpos e' => pow_pos b e' m | _ => 1 mod m end.

Definition P_ : Z := Eval vm_compute in 2 ^ 255 - 19.
Definition D_ : Z := Eval vm_compute in (-121665 * pow_mod 121666 (P_ - 2) P_) mod P_.
Definition GY_ : Z := Eval vm_compute in (4 * pow_mod 5 (P_ - 2) P_) mod P_.
Definition GX_SQ_ : Z := Eval vm_compute in ((GY_ * GY_ - 1) * pow_mod (D_ * GY_ * GY_ + 1) (P_ - 2) P_) mod P_.
Definition GX_ : Z := Eval vm_compute in
  let gx := pow_mod GX_SQ_ ((P_ + 3) / 8) P_ in
  let gx := if negb ((gx * gx - GX_SQ_) mod P_ =? 0) then gx * pow_mod 2 ((P_ - 1) / 4) P_ mod P_ else gx in
  if negb (gx mod 2 =? 0) then P_ - gx else gx.

(** ** Points in extended coordinates *)
Record point := Pt { px : Z; py : Z; pz : Z; pt : Z }.
Definition BASE_ : point := Eval vm_compute in Pt GX_ GY_ 1 (GX_ * GY_ mod P_).
Definition neutral : point := Pt 0 1 1 0.

Definition add_ (p q : point) : point :=
  let 'Pt x1 y1 z1 t1 := p in
  let 'Pt x2 y2 z2 t2 := q in
  let a := (y1 - x1) * (y2 - x2) mod P_ in
  let b := (y1 + x1) * (y2 + x2) mod P_ in
  let c := 2 * t1 * t2 * D_ mod P_ in
  let d := 2 * z1 * z2 mod P_ in
  let e := b - a in let f := d - c in let g := d + c in let h := b + a in
  Pt (e * f mod P_) (g * h mod P_) (f * g mod P_) (e * h mod P_).

(** [while s: if s & 1: q = _add(q, p); p = _add(p, p); s >>= 1]; [None] when the fuel is used up. *)
Fixpoint mul_loop (fuel : nat) (s : Z) (p q : point) : option point :=
  if s =? 0 then Some q else
  match fuel with
  | O => None
  | S fuel' => mul_loop fuel' (Z.shiftr s 1) (add_ p p) (if Z.odd s then add_ q p else q)
  end.
Definition mul_fuel (s : Z) : nat := S (Z.to_nat (Z.log2 s)).
Definition mul_ (s : Z) (p : point) : option point := mul_loop (mul_fuel s) s p neutral.

(** ** Keys and names *)
Definition dev_seed (i : Z) : result bytes := b ← to_bytes 4 i; Ok (concat (replicate 8 b)).

Definition alphabet : string := "abcdefghijklmnopqrstuvwxyz234567".
(** [alphabet[d]], for a digit *)
Definition digit (d : Z) : Ascii.ascii := default "?"%char (String.get (Z.to_nat d) alphabet).
(** [for _ in range(k): out.append(alphabet[n % 32]); n //= 32] *)
Fixpoint digits (k : nat) (n : Z) : string :=
  match k with O => "" | S k' => String (digit (n mod 32)) (digits k' (n / 32)) end.
Definition peer_id (ed25519_pub : bytes) : string := String "e" (digits 52 (le_int ed25519_pub)).

(** [bytes.hex] and [bytes.fromhex] *)
Definition hexdigits : string := "0123456789abcdef".
Definition hexdigit (d : Z) : Ascii.ascii := default "?"%char (String.get (Z.to_nat d) hexdigits).
Fixpoint hex (l : bytes) : string :=
  match l with [] => "" | b :: l' => String (hexdigit (b / 16)) (String (hexdigit (b mod 16)) (hex l')) end.
Definition hexval (c : Ascii.ascii) : option Z :=
  let n := Z.of_N (Ascii.N_of_ascii c) in
  if (48 <=? n) && (n <=? 57) then Some (n - 48)
  else if (97 <=? n) && (n <=? 102) then Some (n - 87)
  else if (65 <=? n) && (n <=? 70) then Some (n - 55) else None.
Definition is_space (c : Ascii.ascii) : bool := let n := Ascii.N_of_ascii c in ((n =? 32) || ((9 <=? n) && (n <=? 13)))%N.
Fixpoint fromhex (s : string) : result bytes :=
  match s with
  | EmptyString => Ok []
  | String c s' =>
      if is_space c then fromhex s' else
      match s' with
      | EmptyString => Raise (ValueError "non-hexadecimal number found in fromhex()")
      | String c' s'' =>
          match hexval c, hexval c' with
          | Some h, Some l => t ← fromhex s''; Ok (16 * h + l :: t)
          | _, _ => Raise (ValueError "non-hexadecimal number found in fromhex()")
          end
      end
  end.

(** (name, ed25519_public), (bandersnatch_public, dns_alt_name) *)
Notation published := ((string * string) * (string * string))%type.
Definition PUBLISHED : list published :=
  [(("Alice", "4418fb8c85bb3985394a8c2756d3643457ce614546202a2f50b093d762499ace"),
    ("ff71c6c03ff88adb5ed52c9681de1629a54e702fc14729f6b50d2f0a76f185b3",
     "eecgwpgwq3noky4ijm4jmvjtmuzv44qvigciusxakq5epnrfj2utb"));
   (("Bob", "ad93247bd01307550ec7acd757ce6fb805fcf73db364063265b30a949e90d933"),
    ("dee6d555b82024f1ccf8a1e37e60fa60fd40b1958c4bb3006af78647950e1b91",
     "en5ejs5b2tybkfh4ym5vpfh7nynby73xhtfzmazumtvcijpcsz6ma"));
   (("Carol", "cab2b9ff25c2410fbe9b8a717abb298c716a03983c98ceb4def2087500b8e341"),
    ("9326edb21e5541717fde24ec085000b28709847b8aab1ac51f84e94b37ca1b66",
     "ekwmt37xecoq6a7otkm4ux5gfmm4uwbat4bg5m223shckhaaxdpqa"));
   (("David", "f30aa5444688b3cab47697b37d5cac5707bb3289e986b19b17db437206931a8d"),
    ("0746846d17469fb2f95ef365efcab9f4e22fa1feb53111c995376be8019981cc",
     "etxckkczii4mvm22ox4m3horvx2bwlzerjxbd3n6c36qehdms2idb"));
   (("Eve", "8b8c5d436f92ecf605421e873a99ec528761eb52a88a2f9a057b3b3003e6f32a"),
    ("151e5c8fe2b9d8a606966a79edd2f9e5db47e83947ce368ccba53bf6ba20a40b",
     "eled3vb5nse3n7cii6ybvtms5s2bdwvlkivc7cnwa33oatby4txka"));
   (("Fergie", "ab0084d01534b31c1dd87c81645fd762482a90027754041ca1b56133d0466c06"),
    ("2105650944fcd101621fd5bb3124c9fd191d114b7ad936c1d79d734f9f21392e",
     "elfaiiixcuzmzroa34lajwp52cdsucikaxdviaoeuvnygdi3imtba"))].

Record account := Account { ac_name : string; ac_seed : string; ac_ed25519 : string; ac_bandersnatch : string; ac_peer_id : string }.

Section hashes.
Context (blake2b256 sha512 : bytes → bytes).

Definition ascii_bytes (s : string) : bytes := map (λ c, Z.of_N (Ascii.N_of_ascii c)) (String.list_ascii_of_string s).
Definition ed25519_secret_seed (seed : bytes) : bytes := blake2b256 (ascii_bytes "jam_val_key_ed25519" ++ seed).
Definition bandersnatch_secret_seed (seed : bytes) : bytes := blake2b256 (ascii_bytes "jam_val_key_bandersnatch" ++ seed).

(** [a &= (1 << 254) - 8; a |= 1 << 254] *)
Definition clamp (a : Z) : Z := Z.lor (Z.land a (Z.shiftl 1 254 - 8)) (Z.shiftl 1 254).
Definition encode_point (p : point) : result bytes :=
  let zi := pow_mod (pz p) (P_ - 2) P_ in
  let x := px p * zi mod P_ in
  let y := py p * zi mod P_ in
  to_bytes 32 (Z.lor y (Z.shiftl (Z.land x 1) 255)).
Definition ed25519_public (secret_seed : bytes) : option (result bytes) :=
  let h := sha512 secret_seed in
  let a := clamp (le_int (take 32 h)) in
  encode_point <$> mul_ a BASE_.
(** [None] only when [_mul] does not end. *)
Definition dev_account (i : Z) : option (result account) :=
  if negb ((0 <=? i) && (i <? Z.of_nat (length PUBLISHED))) then Some (Raise (ValueError "only 0..5 have a published Bandersnatch key")) else
  match dev_seed i with
  | Raise e => Some (Raise e)
  | Ok seed =>
      ed ← ed25519_public (ed25519_secret_seed seed);
      Some (k ← ed;
            let '((name, _), (bandersnatch, _)) := default (("", ""), ("", "")) (PUBLISHED !! Z.to_nat i) in
            Ok (Account name (hex seed) (hex k) bandersnatch (peer_id k)))
  end.
End hashes.
(** ** Congruence modulo p

    Every step of the code reduces modulo p, so its results are determined up to congruence; [cong] is a congruence for the
    ring operations and the curve's identities are rewritten with it. *)
Definition cong (a b : Z) : Prop := (P_ | a - b).
Infix "≈" := cong (at level 70).

#[global] Instance cong_equiv : Equivalence cong.
Proof.
  unfold cong. split.
  - intros a. exists 0. ring.
  - intros a b [k H]. exists (- k). lia.
  - intros a b c [k H] [l H']. exists (k + l). lia.
Qed.
#[global] Instance cong_add : Proper (cong ==> cong ==> cong) Z.add.
Proof. intros a b [k H] c d [l H']. exists (k + l). lia. Qed.
#[global] Instance cong_sub : Proper (cong ==> cong ==> cong) Z.sub.
Proof. intros a b [k H] c d [l H']. exists (k - l). lia. Qed.
#[global] Instance cong_opp : Proper (cong ==> cong) Z.opp.
Proof. intros a b [k H]. exists (- k). lia. Qed.
#[global] Instance cong_mul : Proper (cong ==> cong ==> cong) Z.mul.
Proof.
  intros a b [k H] c d [l H']. exists (a * l + k * d).
  transitivity (a * (c - d) + (a - b) * d); [ring|]. rewrite H, H'. ring.
Qed.
Lemma cong_eq a b : a = b → a ≈ b.
Proof. by intros ->. Qed.
Lemma cong_mod a : a mod P_ ≈ a.
Proof. exists (- (a / P_)). rewrite Z.mod_eq by done. ring. Qed.
Lemma cong_mod_eq a b : a ≈ b → a mod P_ = b mod P_.
Proof. intros [k H]. replace a with (b + k * P_) by lia. by apply Z.mod_add. Qed.
Ltac cring := apply cong_eq; ring.

(** ** The curve *)

(** -x² + y² = 1 + d x² y², in extended coordinates: x = X/Z, y = Y/Z, xy = T/Z *)
Definition on_curve (p : point) : Prop :=
  px p * py p ≈ pz p * pt p ∧ py p * py p - px p * px p ≈ pz p * pz p + D_ * (pt p * pt p).
(** The extended coordinates of the affine point (x, y) *)
Definition stands_for (p : point) (x y : Z) : Prop := px p ≈ x * pz p ∧ py p ≈ y * pz p ∧ pt p ≈ x * y * pz p.

(** [_add] up to congruence, without its common factors of 2 *)
Lemma add_cong p q :
  let e := px p * py q + py p * px q in let h := py p * py q + px p * px q in
  let f := pz p * pz q - D_ * (pt p * pt q) in let g := pz p * pz q + D_ * (pt p * pt q) in
  px (add_ p q) ≈ 4 * (e * f) ∧ py (add_ p q) ≈ 4 * (g * h) ∧ pz (add_ p q) ≈ 4 * (f * g) ∧ pt (add_ p q) ≈ 4 * (e * h).
Proof.
  destruct p as [x1 y1 z1 t1], q as [x2 y2 z2 t2]. cbn [px py pz pt add_].
  split_and!; rewrite !cong_mod; cring.
Qed.

(** The addition of two points of the curve is a point of the curve. *)
Section closure.
Context (x1 y1 z1 t1 x2 y2 z2 t2 : Z).
Hypothesis A1 : x1 * y1 ≈ z1 * t1.
Hypothesis A2 : x2 * y2 ≈ z2 * t2.
Hypothesis B1 : y1 * y1 - x1 * x1 ≈ z1 * z1 + D_ * (t1 * t1).
Hypothesis B2 : y2 * y2 - x2 * x2 ≈ z2 * z2 + D_ * (t2 * t2).
Let e := x1 * y2 + y1 * x2.
Let h := y1 * y2 + x1 * x2.
Let f := z1 * z2 - D_ * (t1 * t2).
Let g := z1 * z2 + D_ * (t1 * t2).

Lemma cross_products : h * (x1 * y2 - y1 * x2) ≈ - (f * (z1 * t2 - t1 * z2)).
Proof.
  transitivity (x1 * y1 * (y2 * y2 - x2 * x2) - x2 * y2 * (y1 * y1 - x1 * x1)); [subst h; cring|].
  rewrite A1, A2, B1, B2. subst f. cring.
Qed.
Lemma norms : h * h - e * e ≈ g * g + D_ * ((z1 * t2 - t1 * z2) * (z1 * t2 - t1 * z2)).
Proof.
  transitivity ((y1 * y1 - x1 * x1) * (y2 * y2 - x2 * x2)); [subst e h; cring|].
  rewrite B1, B2. subst g. cring.
Qed.
Lemma squares : e * e - 4 * (z1 * t1 * (z2 * t2)) ≈ (x1 * y2 - y1 * x2) * (x1 * y2 - y1 * x2).
Proof. rewrite <- A1, <- A2. subst e. cring. Qed.

Lemma sum_on_curve : g * h * (g * h) - e * f * (e * f) ≈ f * g * (f * g) + D_ * (e * h * (e * h)).
Proof.
  set (k := z1 * t2 - t1 * z2). set (j := x1 * y2 - y1 * x2).
  assert (H1 : h * j * (h * j) ≈ f * k * (f * k)).
  { subst j k. rewrite cross_products. cring. }
  assert (H2 : e * e ≈ h * h - (g * g + D_ * (k * k))).
  { subst k. rewrite <- norms. cring. }
  assert (H3 : f * f ≈ g * g - D_ * (e * e - j * j)).
  { subst j. rewrite <- squares. subst f g. cring. }
  assert (H4 : D_ * (e * e) ≈ D_ * (j * j) + (g * g - f * f)).
  { rewrite H3. cring. }
  transitivity (g * g * (h * h) - f * f * (e * e)); [cring|].
  transitivity (f * f * (g * g) + h * h * (D_ * (e * e))); [|cring].
  rewrite H4, H2.
  transitivity (f * f * (g * g) + h * h * (g * g - f * f) + D_ * (f * k * (f * k))); [cring|].
  rewrite <- H1. cring.
Qed.
End closure.

Lemma add_on_curve p q : on_curve p → on_curve q → on_curve (add_ p q).
Proof.
  intros [A1 B1] [A2 B2]. destruct (add_cong p q) as (Hx & Hy & Hz & Ht). split.
  - rewrite Hx, Hy, Hz, Ht. cring.
  - rewrite Hx, Hy, Hz, Ht. pose proof (sum_on_curve _ _ _ _ _ _ _ _ A1 A2 B1 B2) as H.
    match type of H with ?a ≈ ?b => transitivity (16 * a); [cring|]; rewrite H; cring end.
Qed.
Lemma neutral_on_curve : on_curve neutral.
Proof. split; cbn; cring. Qed.
Lemma affine_of_curve p zi : on_curve p → pz p * zi ≈ 1 →
  let x := px p * zi mod P_ in let y := py p * zi mod P_ in y * y - x * x ≈ 1 + D_ * (x * x * (y * y)).
Proof.
  intros [A B] Hz x y. subst x y. rewrite !cong_mod.
  assert (Ht : pt p * zi ≈ px p * zi * (py p * zi)).
  { transitivity (zi * zi * (px p * py p)); [|cring]. rewrite A. transitivity (pz p * zi * (pt p * zi)); [rewrite Hz|]; cring. }
  transitivity (zi * zi * (py p * py p - px p * px p)); [cring|]. rewrite B.
  transitivity (pz p * zi * (pz p * zi) + D_ * (pt p * zi * (pt p * zi))); [cring|]. rewrite Hz, Ht. cring.
Qed.

(** ** The loop of [_mul] *)

(** A scalar of n bits takes n turns. *)
Lemma half_bits s n : 0 ≤ s < 2 ^ Z.of_nat (S n) → 0 ≤ s / 2 < 2 ^ Z.of_nat n.
Proof.
  rewrite Nat2Z.inj_succ, Z.pow_succ_r by lia. intros Hs.
  split; [apply Z.div_pos; lia|apply Z.div_lt_upper_bound; lia].
Qed.
Lemma mul_loop_some fuel : ∀ s p q, 0 ≤ s < 2 ^ Z.of_nat fuel → is_Some (mul_loop fuel s p q).
Proof.
  induction fuel as [|fuel IH]; intros s p q Hs; cbn [mul_loop].
  { replace s with 0 by (cbn in Hs; lia). cbn. eauto. }
  case_match; [eauto|]. apply IH. rewrite Z.shiftr_div_pow2 by lia. by apply half_bits.
Qed.
Lemma mul_fuel_enough s : 0 ≤ s → s < 2 ^ Z.of_nat (mul_fuel s).
Proof.
  intros Hs. unfold mul_fuel. rewrite Nat2Z.inj_succ, Z2Nat.id by apply Z.log2_nonneg.
  destruct (decide (s = 0)) as [->|]; [done|]. apply Z.log2_spec. lia.
Qed.
Lemma mul_some s p : 0 ≤ s → is_Some (mul_ s p).
Proof. intros Hs. apply mul_loop_some. split; [done|by apply mul_fuel_enough]. Qed.

Lemma mul_loop_on_curve fuel : ∀ s p q r, on_curve p → on_curve q → mul_loop fuel s p q = Some r → on_curve r.
Proof.
  induction fuel as [|fuel IH]; intros s p q r Hp Hq; cbn [mul_loop]; case_match; [congruence|done|congruence|].
  apply IH; [by apply add_on_curve|]. case_match; [by apply add_on_curve|done].
Qed.

(** ** The affine law of RFC 8032, section 5.1

    (x1, y1) + (x2, y2) = ((x1 y2 + y1 x2) / (1 + d x1 x2 y1 y2), (y1 y2 + x1 x2) / (1 - d x1 x2 y1 y2)), wherever the two
    denominators have inverses. *)
Notation affine := (Z * Z)%type.
Definition is_sum (p q r : affine) : Prop :=
  let k := D_ * (p.1 * q.1 * (p.2 * q.2)) in
  ∃ i j, (1 + k) * i ≈ 1 ∧ (1 - k) * j ≈ 1 ∧ r.1 ≈ (p.1 * q.2 + p.2 * q.1) * i ∧ r.2 ≈ (p.2 * q.2 + p.1 * q.1) * j.

(** The multiple of a scalar as the sum of the doublings its bits select, lowest bit first: [p] is the doubling of the
    current bit, [q] the sum so far. *)
Inductive bits_sum : Z → affine → affine → affine → Prop :=
| bits_done p q : bits_sum 0 p q q
| bits_step s p p2 q q' r :
    0 < s → (if Z.odd s then is_sum q p q' else q' = q) → (s / 2 ≠ 0 → is_sum p p p2) →
    bits_sum (s / 2) p2 q' r → bits_sum s p q r.

(** A point of the model stands for an affine point, with a denominator that has an inverse. *)
Definition represents (p : point) (a : affine) : Prop := stands_for p a.1 a.2 ∧ ∃ i, pz p * i ≈ 1.

Lemma represents_neutral : represents neutral (0, 1).
Proof. split; [split_and!; cbn; cring|]. exists 1. cbn. cring. Qed.

Lemma four_invertible : ∃ i, 4 * i ≈ 1.
Proof. exists 43422033463993573283839119378257965444976244249615211514796594002967423614962. by exists 3. Qed.

Lemma add_represents p q a b r : represents p a → represents q b → is_sum a b r → represents (add_ p q) r.
Proof.
  destruct a as [x1 y1], b as [x2 y2], r as [x3 y3]. intros [(X1 & Y1 & T1) (m & M)] [(X2 & Y2 & T2) (n & N)] (i & j & I & J & X3 & Y3).
  destruct (add_cong p q) as (Hx & Hy & Hz & Ht). cbn [fst snd] in *.
  set (u := pz p * pz q). set (k := D_ * (x1 * x2 * (y1 * y2))) in *.
  assert (E : px p * py q + py p * px q ≈ u * (x1 * y2 + y1 * x2)) by (rewrite X1, X2, Y1, Y2; subst u; cring).
  assert (H : py p * py q + px p * px q ≈ u * (y1 * y2 + x1 * x2)) by (rewrite X1, X2, Y1, Y2; subst u; cring).
  assert (F : pz p * pz q - D_ * (pt p * pt q) ≈ u * (1 - k)) by (rewrite T1, T2; subst u k; cring).
  assert (G : pz p * pz q + D_ * (pt p * pt q) ≈ u * (1 + k)) by (rewrite T1, T2; subst u k; cring).
  rewrite E, F in Hx. rewrite G, H in Hy. rewrite F, G in Hz. rewrite E, H in Ht. clear E F G H.
  destruct four_invertible as (o & O). split; [split_and!|]; cbn [fst snd].
  - rewrite Hx, Hz, X3. transitivity (4 * (u * (x1 * y2 + y1 * x2) * (u * (1 - k))) * ((1 + k) * i)); [rewrite I|]; cring.
  - rewrite Hy, Hz, Y3. transitivity (4 * (u * (1 + k) * (u * (y1 * y2 + x1 * x2))) * ((1 - k) * j)); [rewrite J|]; cring.
  - rewrite Ht, Hz, X3, Y3.
    transitivity (4 * (u * (x1 * y2 + y1 * x2) * (u * (y1 * y2 + x1 * x2))) * ((1 + k) * i) * ((1 - k) * j)); [rewrite I, J|]; cring.
  - exists (o * (m * m) * (n * n) * i * j). rewrite Hz. subst u.
    transitivity (4 * o * (pz p * m * (pz p * m)) * (pz q * n * (pz q * n)) * ((1 + k) * i) * ((1 - k) * j)); [cring|].
    rewrite O, M, N, I, J. cring.
Qed.

Lemma mul_loop_represents fuel : ∀ s p q a b c,
  0 ≤ s < 2 ^ Z.of_nat fuel → represents q b → (s ≠ 0 → represents p a) → bits_sum s a b c →
  ∃ r, mul_loop fuel s p q = Some r ∧ represents r c.
Proof.
  induction fuel as [|fuel IH]; intros s p q a b c Hs Hq Hp Hc.
  { replace s with 0 in * by (cbn in Hs; lia). inversion Hc; subst; [|lia]. cbn. eauto. }
  cbn [mul_loop]. inversion Hc as [|? ? p2 ? q' ? Hpos Hodd Hdbl Hrest]; subst; [cbn; eauto|].
  rewrite (proj2 (Z.eqb_neq s 0)), Z.shiftr_div_pow2 by lia. change (2 ^ 1) with 2.
  eapply IH; [by apply half_bits| |  |exact Hrest].
  - destruct (Z.odd s); [eapply add_represents; eauto; apply Hp; lia|by subst].
  - intros Hne. eapply add_represents; [apply Hp; lia..|by apply Hdbl].
Qed.
(** ** Bounds of the scalar and of the encoding *)
Lemma lor_below a b n : 0 ≤ a < 2 ^ n → 0 ≤ b < 2 ^ n → 0 < n → 0 ≤ Z.lor a b < 2 ^ n.
Proof.
  intros Ha Hb Hn. assert (H0 : 0 ≤ Z.lor a b) by (apply Z.lor_nonneg; lia). split; [done|].
  destruct (decide (Z.lor a b = 0)) as [->|Hne]; [lia|]. apply Z.log2_lt_pow2; [lia|].
  rewrite Z.log2_lor by lia. apply Z.max_lub_lt.
  - destruct (decide (a = 0)) as [->|]; [done|]. apply Z.log2_lt_pow2; lia.
  - destruct (decide (b = 0)) as [->|]; [done|]. apply Z.log2_lt_pow2; lia.
Qed.

Lemma clamp_bounds a : 0 ≤ a → 2 ^ 254 ≤ clamp a < 2 ^ 255 ∧ clamp a mod 8 = 0.
Proof.
  intros Ha. unfold clamp.
  assert (Hl : 0 ≤ Z.land a (Z.shiftl 1 254 - 8)) by (apply Z.land_nonneg; by left).
  assert (Hb : Z.log2 (Z.land a (Z.shiftl 1 254 - 8)) ≤ 253).
  { etransitivity; [by apply Z.log2_land|]. etransitivity; [apply Z.le_min_r|]. done. }
  assert (H : Z.log2 (Z.lor (Z.land a (Z.shiftl 1 254 - 8)) (Z.shiftl 1 254)) = 254).
  { rewrite Z.log2_lor by done. change (Z.log2 (Z.shiftl 1 254)) with 254. lia. }
  split.
  - assert (Hpos : 0 < Z.lor (Z.land a (Z.shiftl 1 254 - 8)) (Z.shiftl 1 254)).
    { apply Z.nle_gt. intros Hle. rewrite Z.log2_nonpos in H by done. done. }
    pose proof (Z.log2_spec _ Hpos) as Hs. rewrite H in Hs. exact Hs.
  - change (Z.shiftl 1 254 - 8) with (Z.shiftl (Z.ones 251) 3). change 8 with (2 ^ 3). rewrite <- Z.land_ones by lia. apply Z.bits_inj'. intros n Hn.
    rewrite Z.land_spec, Z.lor_spec, Z.land_spec, Z.bits_0.
    destruct (decide (n < 3)).
    + rewrite !Z.shiftl_spec_low by lia. by rewrite andb_false_r.
    + rewrite Z.ones_spec_high by lia. apply andb_false_r.
Qed.

Lemma encode_point_ok p : ∃ bs, encode_point p = Ok bs ∧ length bs = 32%nat ∧ wf_bytes bs ∧
  le_int bs = Z.lor (py p * pow_mod (pz p) (P_ - 2) P_ mod P_) (Z.shiftl (Z.land (px p * pow_mod (pz p) (P_ - 2) P_ mod P_) 1) 255).
Proof.
  unfold encode_point. set (zi := pow_mod _ _ _). unfold to_bytes.
  assert (Hf : 0 ≤ Z.lor (py p * zi mod P_) (Z.shiftl (Z.land (px p * zi mod P_) 1) 255) < 2 ^ 256).
  { apply lor_below; [| |lia].
    - pose proof (Z.mod_pos_bound (py p * zi) P_ ltac:(done)). assert (P_ < 2 ^ 256) by done. lia.
    - change 1 with (Z.ones 1) at 1 2. rewrite Z.land_ones by lia. rewrite Z.shiftl_mul_pow2 by lia.
      pose proof (Z.mod_pos_bound (px p * zi mod P_) (2 ^ 1) ltac:(done)). change (2 ^ 256) with (2 * 2 ^ 255). lia. }
  rewrite (proj2 (fits_spec 32 _)) by exact Hf. eexists; split_and!; [done|apply le_bytes_length|apply le_bytes_wf|].
  by apply le_int_le_bytes.
Qed.

(** ** Peer ids *)
Definition digit_value (c : ascii) : option Z :=
  match String.index 0 (String c "") alphabet with Some k => Some (Z.of_nat k) | None => None end.
Fixpoint digits_value (s : string) : option Z :=
  match s with
  | EmptyString => Some 0
  | String c s' => d ← digit_value c; n ← digits_value s'; Some (d + 32 * n)
  end.
(** The key a peer id names *)
Definition peer_key (s : string) : option bytes :=
  match s with String "e" s' => le_bytes 32 <$> digits_value s' | _ => None end.

(** A test of every number below a bound *)
Lemma all_below (n : nat) (Q : Z → Prop) `{!∀ d, Decision (Q d)} :
  forallb (λ k, bool_decide (Q (Z.of_nat k))) (seq 0 n) = true → ∀ d, 0 ≤ d < Z.of_nat n → Q d.
Proof.
  intros Hall d Hd. apply (bool_decide_eq_true_1 _). rewrite forallb_forall in Hall. specialize (Hall (Z.to_nat d)).
  rewrite Z2Nat.id in Hall by lia. apply Hall, in_seq. lia.
Qed.
Lemma digit_value_digit d : 0 ≤ d < 32 → digit_value (digit d) = Some d.
Proof.
  apply (all_below 32 (λ d, digit_value (digit d) = Some d)). vm_compute. reflexivity.
Qed.
Lemma digits_value_digits k : ∀ n, 0 ≤ n < 32 ^ Z.of_nat k → digits_value (digits k n) = Some n.
Proof.
  induction k as [|k IH]; intros n Hn; cbn [digits digits_value]; [f_equal; cbn in Hn; lia|].
  rewrite Nat2Z.inj_succ, Z.pow_succ_r in Hn by lia.
  rewrite digit_value_digit by (apply Z.mod_pos_bound; lia). cbn.
  rewrite IH by (split; [apply Z.div_pos; lia|apply Z.div_lt_upper_bound; lia]). cbn. f_equal.
  pose proof (Z.div_mod n 32). lia.
Qed.
Lemma peer_id_names k : wf_bytes k → length k = 32%nat → peer_key (peer_id k) = Some k.
Proof.
  intros Hwf Hl. unfold peer_id, peer_key. pose proof (le_int_bound k Hwf) as Hb. rewrite Hl in Hb.
  rewrite digits_value_digits by (split; [lia|]; etransitivity; [apply Hb|done]). cbn [fmap option_fmap option_map]. f_equal.
  rewrite <- Hl. by apply le_bytes_le_int.
Qed.

(** ** Hex *)
Lemma hexdigit_facts d : 0 ≤ d < 16 → hexval (hexdigit d) = Some d ∧ is_space (hexdigit d) = false.
Proof.
  apply (all_below 16 (λ d, hexval (hexdigit d) = Some d ∧ is_space (hexdigit d) = false)). vm_compute. reflexivity.
Qed.
Lemma fromhex_hex l : wf_bytes l → fromhex (hex l) = Ok l.
Proof.
  induction 1 as [|b l Hb Hl IH]; [done|]. cbn [hex fromhex]. unfold is_byte in Hb.
  destruct (hexdigit_facts (b / 16)) as [H1 H2]; [split; [apply Z.div_pos; lia|apply Z.div_lt_upper_bound; lia]|].
  destruct (hexdigit_facts (b mod 16)) as [H3 H4]; [apply Z.mod_pos_bound; lia|].
  rewrite H2, H1, H3, IH. cbn. f_equal. f_equal. pose proof (Z.div_mod b 16). lia.
Qed.
(** ** What the module's users rely on *)
Lemma base_on_curve : on_curve BASE_.
Proof.
  split; unfold cong, BASE_; cbn [px py pz pt]; apply Z.mod_divide; try done; vm_compute; reflexivity.
Qed.

Section accounts.
Context (blake2b256 sha512 : bytes → bytes).
Hypothesis sha512_bytes : ∀ m, wf_bytes (sha512 m).

Lemma scalar_nonneg seed : 0 ≤ le_int (take 32 (sha512 seed)).
Proof. pose proof (le_int_bound (take 32 (sha512 seed)) (Forall_take _ _ _ (sha512_bytes seed))). lia. Qed.

Lemma public_key seed : ∃ p bs,
  mul_ (clamp (le_int (take 32 (sha512 seed)))) BASE_ = Some p ∧ encode_point p = Ok bs ∧
  ed25519_public sha512 seed = Some (Ok bs) ∧ length bs = 32%nat ∧ wf_bytes bs.
Proof.
  destruct (clamp_bounds _ (scalar_nonneg seed)) as [[Hlo Hhi] _].
  destruct (mul_some (clamp (le_int (take 32 (sha512 seed)))) BASE_) as [p Hp]; [assert (0 < 2 ^ 254) by done; lia|].
  destruct (encode_point_ok p) as (bs & Hbs & Hl & Hwf & _). exists p, bs. split_and!; try done.
  unfold ed25519_public. rewrite Hp. cbn [fmap option_fmap option_map]. by rewrite Hbs.
Qed.

(** The Ed25519 public key of any secret seed: the scalar multiplication ends, the scalar is the clamped one of RFC 8032
    (bit 254 set, a multiple of 8, below 2^255), the point it reaches satisfies the curve's equation in extended coordinates,
    and its encoding always fits 32 bytes, so the key is produced and [to_bytes] never overflows. Wherever the denominator's
    power is its inverse, the encoded coordinates satisfy the affine equation -x² + y² = 1 + d x² y². *)
Theorem public_key_on_curve seed : ∃ p bs,
  let a := clamp (le_int (take 32 (sha512 seed))) in
  let zi := pow_mod (pz p) (P_ - 2) P_ in
  let x := px p * zi mod P_ in let y := py p * zi mod P_ in
  2 ^ 254 ≤ a < 2 ^ 255 ∧ a mod 8 = 0 ∧ mul_ a BASE_ = Some p ∧ on_curve p ∧
  ed25519_public sha512 seed = Some (Ok bs) ∧ length bs = 32%nat ∧ wf_bytes bs ∧
  le_int bs = Z.lor y (Z.shiftl (Z.land x 1) 255) ∧
  (pz p * zi ≈ 1 → y * y - x * x ≈ 1 + D_ * (x * x * (y * y))).
Proof.
  destruct (public_key seed) as (p & bs & Hp & Hbs & Hk & Hl & Hwf). exists p, bs. cbv zeta.
  destruct (clamp_bounds _ (scalar_nonneg seed)) as [Hb Hm].
  assert (Hc : on_curve p) by (eapply mul_loop_on_curve; [apply base_on_curve|apply neutral_on_curve|exact Hp]).
  destruct (encode_point_ok p) as (bs' & Hbs' & _ & _ & He). rewrite Hbs in Hbs'. injection Hbs' as <-.
  split_and!; try done; [apply Hb..|]. intros Hz. by apply affine_of_curve.
Qed.

(** A dev account of the table gets a name that is its key: for every index 0..5 the account is produced, its Ed25519 key
    prints 32 bytes, the peer id is the letter e and 52 digits, and reading those digits back gives the same 32 bytes; the
    seed is the index as four little-endian bytes, eight times. Any other index is refused with [ValueError]. *)
Theorem dev_account_named_by_key i :
  match dev_account blake2b256 sha512 i with
  | Some (Ok acct) =>
      0 ≤ i < 6 ∧ String.length (ac_peer_id acct) = 53%nat ∧
      fromhex (ac_seed acct) = Ok (concat (replicate 8 (le_bytes 4 i))) ∧
      ∃ key, fromhex (ac_ed25519 acct) = Ok key ∧ length key = 32%nat ∧ peer_key (ac_peer_id acct) = Some key
  | Some (Raise (ValueError _)) => ¬ 0 ≤ i < 6
  | _ => False
  end.
Proof.
  unfold dev_account. change (Z.of_nat (length PUBLISHED)) with 6.
  destruct ((0 <=? i) && (i <? 6)) eqn:E; cbn [negb]; [|intros ?; destruct (Z.leb_spec 0 i), (Z.ltb_spec i 6); try done; lia].
  zbool. unfold dev_seed, to_bytes. rewrite (proj2 (fits_spec 4 i)) by (cbn; lia). cbn [mbind result_bind].
  destruct (public_key (ed25519_secret_seed blake2b256 (concat (replicate 8 (le_bytes 4 i))))) as (p & k & _ & _ & Hk & Hl & Hwf).
  rewrite Hk. cbn [mbind option_bind result_bind]. destruct (default _ (PUBLISHED !! _)) as [[name ?] [bander ?]].
  cbn [ac_peer_id ac_seed ac_ed25519]. split_and!; [lia..|done| |exists k; split_and!; [by apply fromhex_hex|done|by apply peer_id_names]].
  apply fromhex_hex. apply Forall_concat, Forall_replicate, le_bytes_wf.
Qed.
End accounts.

(** (C30) [_mul] computes scalar multiples: on a point that stands for the affine point a, the loop ends for every scalar and its
    result stands for the sum, under RFC 8032's affine addition, of the doublings of a that the scalar's bits select (the
    neutral element for zero), with an invertible denominator; the four extended coordinates never lose the point. *)
Theorem mul_computes_multiple s p a c :
  0 ≤ s → represents p a → bits_sum s a (0, 1) c → ∃ r, mul_ s p = Some r ∧ represents r c.
Proof.
  intros Hs Hp Hc. eapply mul_loop_represents; [split; [done|by apply mul_fuel_enough]|apply represents_neutral|done|exact Hc].
Qed.

(** The published names are the peer ids of the published keys. *)
Example published_names : forallb (λ '((_, ed), (_, name)),
  match fromhex ed with Ok k => bool_decide (peer_id k = name) | _ => false end) PUBLISHED = true.
Proof. vm_compute. reflexivity. Qed.
Example dev_seed_one : dev_seed 1 = Ok (concat (replicate 8 [1; 0; 0; 0])) ∧ dev_seed (2 ^ 32) = Raise OverflowError.
Proof. split; vm_compute; reflexivity. Qed.
(** A hash of the right shape, for the witnesses *)
Definition flat_hash (m : bytes) : bytes := replicate 64 (zsum (λ b, b) m mod 256).
Lemma flat_hash_wf m : wf_bytes (flat_hash m).
Proof. apply Forall_replicate. unfold is_byte. apply Z.mod_pos_bound. lia. Qed.

Lemma public_key_on_curve_witness : ∃ p bs, on_curve p ∧ ed25519_public flat_hash [1; 2; 3] = Some (Ok bs) ∧ length bs = 32%nat.
Proof.
  destruct (public_key_on_curve flat_hash flat_hash_wf [1; 2; 3]) as (p & bs & _ & _ & _ & Hc & Hk & Hl & _). eauto.
Defined.
Lemma dev_account_named_by_key_witness : ∃ acct,
  dev_account flat_hash flat_hash 3 = Some (Ok acct) ∧ String.length (ac_peer_id acct) = 53%nat.
Proof.
  pose proof (dev_account_named_by_key flat_hash flat_hash flat_hash_wf 3) as H.
  destruct (dev_account flat_hash flat_hash 3) as [[acct|e]|]; [|destruct e; try done; exfalso; apply H; lia|done].
  exists acct. split; [reflexivity|apply H].
Defined.

(** Three times the base point, with the inverses of the denominators on the way *)
Definition base1 : affine := (GX_, GY_).
Definition base2 : affine :=
  (24727413235106541002554574571675588834622768167397638456726423682521233608206,
   15549675580280190176352668710449542251549572066445060580507079593062643049417).
Definition base3 : affine :=
  (46896733464454938657123544595386787789046198280132665686241321779790909858396,
   8324843778533443976490377120369201138301417226297555316741202210403726505172).
Lemma cong_check a b : (a - b) mod P_ =? 0 = true → a ≈ b.
Proof. intros H%Z.eqb_eq. by apply Z.mod_divide in H. Qed.
Lemma base_sums : is_sum (0, 1) base1 base1 ∧ is_sum base1 base1 base2 ∧ is_sum base1 base2 base3.
Proof.
  split_and!.
  - exists 1, 1. split_and!; apply cong_check; vm_compute; reflexivity.
  - exists 209325846291170943509691191589112255490563248687624486049616149279891676193,
      23433485286344922975343343183309822149119477277686524097973672123823657291327.
    split_and!; apply cong_check; vm_compute; reflexivity.
  - exists 29600802672229291977551086989035457193912897394190512490856270676290202971450,
      12427363435476498764622292639380187905816969151665599103759243972126144747838.
    split_and!; apply cong_check; vm_compute; reflexivity.
Qed.
Lemma base3_bits : bits_sum 3 base1 (0, 1) base3.
Proof.
  destruct base_sums as (H1 & H2 & H3). apply (bits_step 3 base1 base2 (0, 1) base1); [done|exact H1|done|].
  apply (bits_step 1 base2 base2 base1 base3); [done|exact H3|done|]. constructor.
Qed.
Lemma mul_computes_multiple_witness : ∃ r, mul_ 3 BASE_ = Some r ∧ represents r base3.
Proof.
  apply (mul_computes_multiple 3 BASE_ base1 base3); [done| |exact base3_bits].
  split; [split_and!; apply cong_check; vm_compute; reflexivity|]. exists 1. apply cong_check. vm_compute. reflexivity.
Defined.
End DevKeys.
