(* ===== verification/Accounts.v ===== *)
(** * The service's account registry and ledger

    The part of src/service/src/lib.rs that keeps accounts: keys bound to handles, balances and the custodied totals, in the
    service's storage of byte strings, and the work items of [accumulate] that change them (deposit, withdraw, register,
    treasury sweep, listing).  Refine has verified the signatures; an item here is refine's output.

    [set_storage] is refused by the host when the service's balance does not cover its footprint, and the code drops that
    error: [room] says which writes the host takes, and [h_refused] keeps the keys of those it refused. *)
From S2P Require Import Prelude Bytes Engine Wire.

Module Accounts.
Notation storage := (gmap (list Z) (list Z)).

Definition TAG_REGISTER : Z := 7.
Definition TAG_TREASURY : Z := 8.
Definition WITHDRAW_BODY : nat := 25.
Definition TREASURY_BODY : nat := 25.
Definition U32_MAX : Z := 2 ^ 32 - 1.

(** [u32::saturating_add], [u64::saturating_add], [u64::saturating_sub] *)
Definition sat_add32 (a b : Z) : Z := Z.min U32_MAX (a + b).
Definition sat_add (a b : Z) : Z := Z.min U64_MAX (a + b).
Definition sat_sub (a b : Z) : Z := Z.max 0 (a - b).

Definition ascii (s : string) : bytes := map (λ a, Z.of_nat (Ascii.nat_of_ascii a)) (String.list_ascii_of_string s).
Definition ru32 (b : bytes) (off : nat) : Z := le_int (slice b off (off + 4)).
Definition le_u64 (b : bytes) : Z := le_int (take 8 b).

(** ** Keys *)
Definition mkey (prefix : string) (x : Z) : bytes := ascii prefix ++ le_bytes 4 x.
Definition bal_key (asset account : Z) : bytes := ascii "b" ++ le_bytes 4 asset ++ le_bytes 4 account.
Definition cust_key (asset : Z) : bytes := mkey "cust" asset.
Definition hkey (pubkey : bytes) : bytes := ascii "h" ++ pubkey.

(** ** Reads *)
Definition get_u64 (st : storage) (k : bytes) : Z := match st !! k with Some v => le_u64 v | None => 0 end.
Definition get_bal (st : storage) (asset account : Z) : Z := get_u64 st (bal_key asset account).
Definition get_cust (st : storage) (asset : Z) : Z := get_u64 st (cust_key asset).
Definition get_nonce (st : storage) (handle : Z) : Z := get_u64 st (mkey "nc" handle).
Definition pubkey_of (st : storage) (handle : Z) : option bytes :=
  v ← st !! mkey "pk" handle; if (32 <=? length v)%nat then Some (take 32 v) else None.
Definition handle_of (st : storage) (pubkey : bytes) : option Z :=
  v ← st !! hkey pubkey; if (4 <=? length v)%nat then Some (ru32 v 0) else None.
Definition next_handle (st : storage) : Z :=
  match st !! ascii "nexthandle" with Some v => if (4 <=? length v)%nat then ru32 v 0 else 1 | None => 1 end.
Definition market_assets (st : storage) (market : Z) : option (Z * Z) :=
  v ← st !! mkey "mkt" market; if (8 <=? length v)%nat then Some (ru32 v 0, ru32 v 4) else None.

(** ** Writes *)

(** The storage, and the keys of the writes the host has refused *)
Record host := Host { h_st : storage; h_refused : list bytes }.
Coercion h_st : host >-> gmap.

Section writes.
Context (room : storage → bytes → bytes → bool).

Definition set_storage (k v : bytes) (st : host) : host :=
  if room st k v then Host (<[k := v]> (h_st st)) (h_refused st) else Host st (h_refused st ++ [k]).
Definition set_u64 (k : bytes) (x : Z) (st : host) : host := set_storage k (le_bytes 8 x) st.
Definition set_bal (asset account x : Z) (st : host) : host := set_u64 (bal_key asset account) x st.
Definition set_cust (asset x : Z) (st : host) : host := set_u64 (cust_key asset) x st.
Definition set_nonce (handle x : Z) (st : host) : host := set_u64 (mkey "nc" handle) x st.

Definition register_key (pubkey : bytes) (st : host) : Z * host :=
  match handle_of st pubkey with
  | Some h => (h, st)
  | None =>
      let next := next_handle st in
      let st := set_storage (mkey "pk" next) pubkey st in
      let st := set_storage (hkey pubkey) (le_bytes 4 next) st in
      let st := set_storage (ascii "nexthandle") (le_bytes 4 (sat_add32 next 1)) st in
      (next, st)
  end.

(** *** The arms of [accumulate] *)
Definition deposit_arm (out : bytes) (st : host) : host :=
  match decode_deposit out with
  | None => st
  | Some d =>
      let k := mkey "dn" (d_account d) in
      match admit_deposit (default [] (h_st st !! k)) (d_nonce d) with
      | None => st
      | Some v =>
          let st := set_storage k v st in
          let st := set_bal (d_asset d) (d_account d) (sat_add (get_bal st (d_asset d) (d_account d)) (d_amount d)) st in
          set_cust (d_asset d) (sat_add (get_cust st (d_asset d)) (d_amount d)) st
      end
  end.
Definition withdraw_arm (out : bytes) (st : host) : host :=
  let handle := ru32 out 1 in
  let asset := ru32 out 5 in
  let amount := le_u64 (slice out 9 17) in
  let nonce := le_u64 (slice out 17 25) in
  if negb (bool_decide (pubkey_of st handle = Some (drop WITHDRAW_BODY out))) || negb (nonce =? get_nonce st handle) then st else
  let st := set_nonce handle (nonce + 1) st in
  let b := get_bal st asset handle in
  if amount <=? b then
    let st := set_bal asset handle (b - amount) st in
    set_cust asset (sat_sub (get_cust st asset) amount) st
  else st.
Definition treasury_arm (out : bytes) (st : host) : host :=
  let asset := ru32 out 1 in
  let amount := le_u64 (slice out 5 13) in
  let dest := ru32 out 13 in
  let nonce := le_u64 (slice out 17 25) in
  if negb (nonce =? get_u64 st (ascii "govnonce")) then st else
  let st := set_u64 (ascii "govnonce") (nonce + 1) st in
  let t := get_bal st asset FEE_ACCOUNT in
  let moved := Z.min amount t in
  if 0 <? moved then
    let st := set_bal asset FEE_ACCOUNT (t - moved) st in
    set_bal asset dest (sat_add (get_bal st asset dest) moved) st
  else st.
Definition list_arm (out : bytes) (st : host) : host :=
  let market := ru32 out 1 in
  match market_assets st market with
  | Some _ => st
  | None =>
      let st := set_storage (mkey "mkt" market) (le_bytes 4 (ru32 out 5) ++ le_bytes 4 (ru32 out 9)) st in
      set_storage (ascii "markets") (default [] (h_st st !! ascii "markets") ++ le_bytes 4 market) st
  end.

(** One item of [accumulate]; the other tags are not of the account ledger and leave it alone. *)
Definition account_item (out : bytes) (st : host) : host :=
  match out with
  | [] => st
  | tag :: _ =>
      if tag =? TAG_DEPOSIT then deposit_arm out st
      else if (tag =? TAG_WITHDRAW) && (length out =? WITHDRAW_BODY + 32)%nat then withdraw_arm out st
      else if (tag =? TAG_REGISTER) && (length out =? 33)%nat then (register_key (slice out 1 33) st).2
      else if (tag =? TAG_TREASURY) && (length out =? TREASURY_BODY)%nat then treasury_arm out st
      else if (tag =? TAG_LIST) && (13 <=? length out)%nat then list_arm out st
      else st
  end.
Definition account_items (outs : list bytes) (st : host) : host := foldl (λ st out, account_item out st) st outs.
End writes.
(** A host that takes every write *)
Definition roomy (st : storage) (k v : bytes) : bool := true.

(** ** Keys of different kinds differ *)
Ltac keyne :=
  let E := fresh "E" in
  intros E; first [ discriminate (f_equal (@length Z) E) | discriminate (f_equal (take 2) E) | discriminate (f_equal (take 1) E) ].

Definition u32 (x : Z) : Prop := 0 ≤ x < 2 ^ 32.

Lemma le_bytes_inj n x y : 0 ≤ x < 256 ^ Z.of_nat n → 0 ≤ y < 256 ^ Z.of_nat n → le_bytes n x = le_bytes n y → x = y.
Proof. intros Hx Hy E. rewrite <- (le_int_le_bytes n x Hx), E. by apply le_int_le_bytes. Qed.
Lemma mkey_inj p x y : u32 x → u32 y → mkey p x = mkey p y → x = y.
Proof. intros Hx Hy E%app_inv_head. by apply (le_bytes_inj 4). Qed.
Lemma hkey_length pk : length (hkey pk) = S (length pk).
Proof. done. Qed.

(** The registry's keys *)
Definition reg_key (k : bytes) : Prop :=
  k = ascii "nexthandle" ∨ (∃ h, k = mkey "pk" h) ∨ ∃ pk, length pk = 32%nat ∧ k = hkey pk.
(** What an item writes that is neither a balance, nor a custody, nor of the registry *)
Inductive aside_key : bytes → Prop :=
| aside_nc h : aside_key (mkey "nc" h)
| aside_dn a : aside_key (mkey "dn" a)
| aside_gov : aside_key (ascii "govnonce")
| aside_mkt m : aside_key (mkey "mkt" m)
| aside_markets : aside_key (ascii "markets").

Ltac not_reg := let pk := fresh "pk" in let Hl := fresh "Hl" in let E := fresh "E" in
  intros [E|[[? E]|(pk & Hl & E)]]; [revert E; keyne..|apply (f_equal length) in E; rewrite hkey_length, Hl in E; discriminate E].
Lemma bal_not_reg x a : ¬ reg_key (bal_key x a).
Proof. not_reg. Qed.
Lemma cust_not_reg x : ¬ reg_key (cust_key x).
Proof. not_reg. Qed.
Lemma aside_not_reg k : aside_key k → ¬ reg_key k.
Proof. destruct 1; not_reg. Qed.

(** ** Totals *)
Definition is_bal (x : Z) (k : bytes) : bool := bool_decide (length k = 9%nat ∧ take 5 k = ascii "b" ++ le_bytes 4 x).
Definition total (x : Z) (st : storage) : Z := map_fold (λ k v acc, (if is_bal x k then le_u64 v else 0) + acc) 0 st.

Lemma is_bal_key x y a : u32 x → u32 y → is_bal x (bal_key y a) = bool_decide (x = y).
Proof.
  intros Hx Hy. apply bool_decide_ext. split; [|by intros ->].
  intros [_ E]. change (take 5 (bal_key y a)) with (ascii "b" ++ le_bytes 4 y) in E. apply app_inv_head in E. by apply (le_bytes_inj 4).
Qed.
Lemma is_bal_spec x k : is_bal x k = true → length k = 9%nat ∧ take 1 k = ascii "b".
Proof.
  intros [Hl Ht]%bool_decide_eq_true. split; [done|]. apply (f_equal (take 1)) in Ht. by rewrite take_take in Ht.
Qed.
Ltac not_bal := match goal with |- is_bal ?x ?k = false =>
  let E := fresh "E" in destruct (is_bal x k) eqn:E; [apply is_bal_spec in E as [Hl Ht]; first [discriminate Hl|discriminate Ht]|reflexivity] end.
Lemma cust_not_bal x y : is_bal x (cust_key y) = false.
Proof. not_bal. Qed.
Lemma aside_not_bal x k : aside_key k → is_bal x k = false.
Proof. destruct 1; not_bal. Qed.
Lemma reg_not_bal x k : reg_key k → is_bal x k = false.
Proof.
  intros [->|[[h ->]|(pk & Hp & ->)]]; [not_bal..|]. destruct (is_bal x (hkey pk)) eqn:E; [|done].
  apply is_bal_spec in E as [_ Ht]. discriminate Ht.
Qed.
Lemma cust_key_ne x k : (aside_key k ∨ reg_key k ∨ ∃ y a, k = bal_key y a) → k ≠ cust_key x.
Proof.
  intros [H|[H|(y & a & ->)]]; [destruct H; keyne| |keyne].
  intros ->. by apply cust_not_reg in H.
Qed.

Lemma total_insert x k v st : total x (<[k := v]> st) = total x st + (if is_bal x k then le_u64 v - get_u64 st k else 0).
Proof.
  assert (Hins : ∀ (m : storage) w, m !! k = None → total x (<[k := w]> m) = (if is_bal x k then le_u64 w else 0) + total x m).
  { intros m w Hm. unfold total. rewrite map_fold_insert_L; [done| |done]. intros. lia. }
  destruct (st !! k) as [old|] eqn:E.
  - rewrite <- (insert_delete_id st k old E) at 2. rewrite <- insert_delete_eq, !Hins by apply lookup_delete_eq.
    unfold get_u64. rewrite E. destruct (is_bal x k); lia.
  - rewrite Hins by done. unfold get_u64. rewrite E. destruct (is_bal x k); lia.
Qed.
(** ** The invariant *)
Definition stored (st : storage) : Prop := map_Forall (λ _ v, wf_bytes v) st.
Definition custody (st : storage) : Prop := ∀ x, u32 x → total x st = get_cust st x.
Record registry (st : storage) : Prop := {
  rg_next : 1 ≤ next_handle st;
  rg_keys pk h : length pk = 32%nat → handle_of st pk = Some h → 1 ≤ h < next_handle st ∧ pubkey_of st h = Some pk;
  rg_handles h pk : u32 h → pubkey_of st h = Some pk → length pk = 32%nat ∧ handle_of st pk = Some h
}.
Record ledger_ok (st : storage) : Prop := { lo_stored : stored st; lo_custody : custody st; lo_registry : registry st }.

Lemma le_u64_bound v : wf_bytes v → 0 ≤ le_u64 v ≤ U64_MAX.
Proof.
  intros Hv. unfold le_u64, U64_MAX. pose proof (le_int_bound (take 8 v) (Forall_take _ _ _ Hv)) as Hb.
  assert (256 ^ Z.of_nat (length (take 8 v)) ≤ 2 ^ 64); [|lia]. change (2 ^ 64) with (256 ^ Z.of_nat 8).
  apply Z.pow_le_mono_r; [lia|]. rewrite length_take. lia.
Qed.
Lemma ru32_bound v off : wf_bytes v → u32 (ru32 v off).
Proof.
  intros Hv. unfold ru32, u32, slice. set (b := take _ _). assert (Hb : wf_bytes b) by (by apply Forall_take, Forall_drop).
  pose proof (le_int_bound b Hb). assert (256 ^ Z.of_nat (length b) ≤ 2 ^ 32); [|lia]. change (2 ^ 32) with (256 ^ Z.of_nat 4).
  apply Z.pow_le_mono_r; [lia|]. unfold b. rewrite length_take. lia.
Qed.
Lemma le_u64_bytes x : 0 ≤ x ≤ U64_MAX → le_u64 (le_bytes 8 x) = x.
Proof. intros Hx. unfold le_u64. rewrite take_ge by (by rewrite le_bytes_length). apply le_int_le_bytes. unfold U64_MAX in Hx. cbn. lia. Qed.
Lemma ru32_bytes x : u32 x → ru32 (le_bytes 4 x) 0 = x.
Proof. intros Hx. unfold ru32, slice. rewrite drop_0, take_ge by (by rewrite le_bytes_length). by apply le_int_le_bytes. Qed.
Lemma get_u64_bound st k : stored st → 0 ≤ get_u64 st k ≤ U64_MAX.
Proof. intros Hs. unfold get_u64. destruct (st !! k) eqn:E; [apply le_u64_bound; by apply (Hs k)|unfold U64_MAX; lia]. Qed.
Lemma stored_insert k v st : stored st → wf_bytes v → stored (<[k := v]> st).
Proof. intros Hs Hv. by apply map_Forall_insert_2. Qed.

(** A balance is part of its asset's total. *)
Lemma total_nonneg x st : stored st → 0 ≤ total x st.
Proof.
  intros Hs. unfold total. revert Hs. apply (map_fold_weak_ind (λ acc m, stored m → 0 ≤ acc)); [done|].
  intros k v m acc Hk IH Hs. apply map_Forall_insert in Hs as [Hv Hs]; [|done]. specialize (IH Hs).
  pose proof (le_u64_bound v Hv). destruct (is_bal x k); lia.
Qed.
Lemma bal_le_total x k st : stored st → is_bal x k = true → get_u64 st k ≤ total x st.
Proof.
  intros Hs Hk. pose proof (total_insert x k [] st) as E. rewrite Hk in E.
  pose proof (total_nonneg x (<[k := []]> st) ltac:(apply stored_insert; [done|constructor])).
  change (le_u64 []) with 0 in E. lia.
Qed.
Lemma two_bals_le_total x j k st : stored st → j ≠ k → is_bal x j = true → is_bal x k = true → get_u64 st j + get_u64 st k ≤ total x st.
Proof.
  intros Hs Hne Hj Hk. pose proof (total_insert x k [] st) as E. rewrite Hk in E. change (le_u64 []) with 0 in E.
  pose proof (bal_le_total x j (<[k := []]> st) ltac:(apply stored_insert; [done|constructor]) Hj) as H.
  unfold get_u64 in H at 1. rewrite lookup_insert_ne in H by done. fold (get_u64 st j) in H. lia.
Qed.

(** ** Frames *)
Lemma get_u64_insert_ne k v j st : k ≠ j → get_u64 (<[k := v]> st) j = get_u64 st j.
Proof. intros H. unfold get_u64. by rewrite lookup_insert_ne. Qed.
Lemma get_u64_insert k x st : 0 ≤ x ≤ U64_MAX → get_u64 (<[k := le_bytes 8 x]> st) k = x.
Proof. intros H. unfold get_u64. rewrite lookup_insert_eq. by apply le_u64_bytes. Qed.

Lemma reg_reads_insert k v st : ¬ reg_key k →
  next_handle (<[k := v]> st) = next_handle st ∧ (∀ h, pubkey_of (<[k := v]> st) h = pubkey_of st h) ∧
  ∀ pk, length pk = 32%nat → handle_of (<[k := v]> st) pk = handle_of st pk.
Proof.
  intros Hk. unfold next_handle, pubkey_of, handle_of. split_and!.
  - rewrite lookup_insert_ne; [done|]. intros ->. apply Hk. by left.
  - intros h. rewrite lookup_insert_ne; [done|]. intros ->. apply Hk. right. left. eauto.
  - intros pk Hl. rewrite lookup_insert_ne; [done|]. intros ->. apply Hk. right. right. eauto.
Qed.
Lemma registry_insert k v st : ¬ reg_key k → registry st → registry (<[k := v]> st).
Proof.
  intros Hk [H1 H2 H3]. destruct (reg_reads_insert k v st Hk) as (En & Ep & Eh). split.
  - by rewrite En.
  - intros pk h Hl Hh. rewrite Eh in Hh by done. rewrite En, Ep. by apply H2.
  - intros h pk Hh Hp. rewrite Ep in Hp. destruct (H3 h pk Hh Hp) as [Hl Hr]. split; [done|]. by rewrite Eh.
Qed.

(** A write aside: any key of the item that is not a balance or a custody *)
Lemma aside_insert k v st : aside_key k → wf_bytes v → ledger_ok st → ledger_ok (<[k := v]> st).
Proof.
  intros Hk Hv [Hs Hc Hr]. split; [by apply stored_insert| |apply registry_insert; [by apply aside_not_reg|done]].
  intros x Hx. rewrite total_insert, aside_not_bal by done. unfold get_cust.
  rewrite get_u64_insert_ne by (apply cust_key_ne; eauto). rewrite (Hc x Hx). unfold get_cust. lia.
Qed.

(** Moves of a balance, and of the custody with it *)
Lemma total_set_bal x y a z st : u32 x → u32 y → 0 ≤ z ≤ U64_MAX →
  total x (<[bal_key y a := le_bytes 8 z]> st) = total x st + (if decide (x = y) then z - get_bal st y a else 0).
Proof.
  intros Hx Hy Hz. rewrite total_insert, is_bal_key by done. rewrite le_u64_bytes by done.
  unfold get_bal. by repeat case_decide || case_bool_decide.
Qed.
Lemma cust_after_bal x y a z st : get_cust (<[bal_key y a := le_bytes 8 z]> st) x = get_cust st x.
Proof. unfold get_cust. apply get_u64_insert_ne, cust_key_ne. eauto. Qed.
Lemma bal_le_cust st x a : ledger_ok st → u32 x → 0 ≤ get_bal st x a ≤ get_cust st x ∧ get_cust st x ≤ U64_MAX.
Proof.
  intros [Hs Hc _] Hx. rewrite <- (Hc x Hx). split; [split|].
  - apply get_u64_bound. done.
  - apply bal_le_total; [done|]. rewrite is_bal_key by done. by apply bool_decide_eq_true.
  - rewrite (Hc x Hx). by apply get_u64_bound.
Qed.
Lemma move_ok st x a z c : ledger_ok st → u32 x → 0 ≤ z ≤ U64_MAX → 0 ≤ c ≤ U64_MAX →
  c - get_cust st x = z - get_bal st x a →
  ledger_ok (<[cust_key x := le_bytes 8 c]> (<[bal_key x a := le_bytes 8 z]> st)).
Proof.
  intros [Hs Hc Hr] Hx Hz Hcr Hd. split.
  - apply stored_insert; [apply stored_insert; [done|]|]; apply le_bytes_wf.
  - intros y Hy. rewrite total_insert, cust_not_bal, total_set_bal by done. unfold get_cust at 1.
    destruct (decide (y = x)) as [->|Hne].
    + rewrite get_u64_insert by done. specialize (Hc x Hx). lia.
    + rewrite get_u64_insert_ne by (intros E; by apply mkey_inj in E). fold (get_cust (<[bal_key x a := le_bytes 8 z]> st) y).
      rewrite cust_after_bal, <- (Hc y Hy). lia.
  - apply registry_insert; [apply cust_not_reg|]. apply registry_insert; [apply bal_not_reg|done].
Qed.
(** ** The arms keep the ledger *)
Section arms.
Notation room := roomy.

Lemma set_storage_insert k v st : h_st (set_storage room k v st) = <[k := v]> (h_st st).
Proof. done. Qed.

Lemma admit_wf v n w : admit_deposit v n = Some w → wf_bytes w.
Proof.
  assert (Hd : ∀ f l, wf_bytes (dn_encode f l)).
  { intros f l. unfold dn_encode. apply Forall_app. split; [apply le_bytes_wf|]. apply Forall_concat, Forall_fmap, Forall_true. intros; apply le_bytes_wf. }
  unfold admit_deposit. repeat case_match; intros [= <-]; apply Hd.
Qed.
Lemma decode_fields out d : wf_bytes out → decode_deposit out = Some d → u32 (d_account d) ∧ u32 (d_asset d) ∧ 0 ≤ d_amount d ≤ U64_MAX.
Proof.
  intros Hw. unfold decode_deposit. case_match; [|done]. cbn [unpack]. intros [= <-]. cbn [d_account d_asset d_amount].
  pose proof (ru32_bound out 1 Hw) as H1. pose proof (ru32_bound out 5 Hw) as H2.
  pose proof (le_u64_bound (drop 9 out) (Forall_drop _ _ _ Hw)) as H3.
  unfold ru32, slice, le_u64 in *. by rewrite !drop_drop.
Qed.

(** The amount an item deposits of an asset *)
Definition deposited (x : Z) (out : bytes) : Z :=
  match out, decode_deposit out with
  | tag :: _, Some d => if (tag =? TAG_DEPOSIT) && (d_asset d =? x) then d_amount d else 0
  | _, _ => 0
  end.

Lemma deposit_ok out (st : host) d : wf_bytes out → decode_deposit out = Some d → ledger_ok st →
  get_cust st (d_asset d) + d_amount d ≤ U64_MAX → ledger_ok (deposit_arm room out st).
Proof.
  intros Hw Hd Hok Hfit. unfold deposit_arm. rewrite Hd. destruct (decode_fields out d Hw Hd) as (Ha & Hx & Hm).
  destruct (admit_deposit _ _) as [v|] eqn:Ev; [|done]. unfold set_cust, set_bal, set_u64. rewrite !set_storage_insert.
  set (st1 := <[mkey "dn" (d_account d) := v]> (h_st st)).
  assert (Hok1 : ledger_ok st1) by (apply aside_insert; [constructor|by eapply admit_wf|done]).
  assert (Hc1 : get_cust st1 (d_asset d) = get_cust st (d_asset d)) by (apply get_u64_insert_ne, cust_key_ne; left; constructor).
  rewrite cust_after_bal. destruct (bal_le_cust st1 (d_asset d) (d_account d) Hok1 Hx) as [Hb _]. rewrite Hc1 in *.
  apply move_ok; [done..| | |]; unfold sat_add, U64_MAX in *; lia.
Qed.
Lemma withdraw_ok out (st : host) : wf_bytes out → ledger_ok st → ledger_ok (withdraw_arm room out st).
Proof.
  intros Hw Hok. unfold withdraw_arm. case_match; [done|]. unfold set_cust, set_bal, set_nonce, set_u64. rewrite !set_storage_insert.
  set (st1 := <[mkey "nc" _ := _]> (h_st st)). assert (Hok1 : ledger_ok st1) by (apply aside_insert; [constructor|apply le_bytes_wf|done]).
  destruct (bal_le_cust st1 (ru32 out 5) (ru32 out 1) Hok1 (ru32_bound out 5 Hw)) as [Hb Hc].
  pose proof (le_u64_bound (slice out 9 17) ltac:(by apply Forall_take, Forall_drop)) as Ham.
  destruct (Z.leb_spec (le_u64 (slice out 9 17)) (get_bal st1 (ru32 out 5) (ru32 out 1))); [|done].
  rewrite !set_storage_insert. fold st1. rewrite cust_after_bal. apply move_ok; [done|by apply ru32_bound| | |]; unfold sat_sub; lia.
Qed.
Lemma bal_key_inj x a b : u32 a → u32 b → bal_key x a = bal_key x b → a = b.
Proof. intros Ha Hb E. apply app_inv_head, app_inv_head in E. by apply (le_bytes_inj 4). Qed.

(** A transfer between two accounts *)
Lemma transfer_ok st x a b m : ledger_ok st → u32 x → u32 a → u32 b → 0 ≤ m ≤ get_bal st x a →
  let st1 := <[bal_key x a := le_bytes 8 (get_bal st x a - m)]> st in
  ledger_ok (<[bal_key x b := le_bytes 8 (sat_add (get_bal st1 x b) m)]> st1).
Proof.
  intros Hok Hx Ha Hb Hm st1. pose proof (bal_le_cust st x a Hok Hx) as [Hba Hca]. destruct Hok as [Hs Hc Hr].
  assert (Hz : get_bal st1 x b + m ≤ U64_MAX ∧ 0 ≤ get_bal st1 x b).
  { destruct (decide (a = b)) as [<-|Hne].
    - unfold st1, get_bal at 1 3. rewrite !get_u64_insert by lia. lia.
    - assert (bal_key x a ≠ bal_key x b) as Hk by (intros E; by apply bal_key_inj in E).
      unfold get_bal at 1 2. unfold st1. rewrite !get_u64_insert_ne by done.
      pose proof (two_bals_le_total x (bal_key x a) (bal_key x b) st Hs Hk) as H2.
      rewrite !is_bal_key, !bool_decide_true in H2 by done. specialize (H2 eq_refl eq_refl). rewrite (Hc x Hx) in H2.
      pose proof (get_u64_bound st (bal_key x b) Hs). unfold get_bal in Hm. lia. }
  assert (Hsat : sat_add (get_bal st1 x b) m = get_bal st1 x b + m) by (unfold sat_add; lia). rewrite Hsat. split.
  - apply stored_insert; [apply stored_insert; [done|]|]; apply le_bytes_wf.
  - intros y Hy. rewrite cust_after_bal, total_set_bal by (done || lia).
    assert (get_cust st1 y = get_cust st y) as -> by apply cust_after_bal.
    assert (total y st1 = total y st + (if decide (y = x) then get_bal st x a - m - get_bal st x a else 0)) as ->
      by (apply total_set_bal; done || lia).
    rewrite <- (Hc y Hy). repeat case_decide; lia.
  - apply registry_insert; [apply bal_not_reg|]. apply registry_insert; [apply bal_not_reg|done].
Qed.
Lemma treasury_ok out (st : host) : wf_bytes out → ledger_ok st → ledger_ok (treasury_arm room out st).
Proof.
  intros Hw Hok. unfold treasury_arm. case_match; [done|]. unfold set_bal, set_u64. rewrite !set_storage_insert.
  set (st1 := <[ascii "govnonce" := _]> (h_st st)). assert (Hok1 : ledger_ok st1) by (apply aside_insert; [constructor|apply le_bytes_wf|done]).
  case_match; [|done]. zbool. rewrite !set_storage_insert. fold st1. apply transfer_ok; [done|by apply ru32_bound|done|by apply ru32_bound|lia].
Qed.
Lemma list_ok out (st : host) : wf_bytes out → ledger_ok st → ledger_ok (list_arm room out st).
Proof.
  intros Hw Hok. unfold list_arm. case_match; [done|]. rewrite !set_storage_insert.
  set (st1 := <[mkey "mkt" _ := _]> (h_st st)).
  assert (Hok1 : ledger_ok st1) by (apply aside_insert; [constructor|apply Forall_app; split; apply le_bytes_wf|done]).
  apply aside_insert; [constructor| |done]. apply Forall_app. split; [|apply le_bytes_wf].
  destruct (st1 !! ascii "markets") eqn:E; [by apply (lo_stored st1 Hok1 (ascii "markets"))|constructor].
Qed.
(** ** Registration *)
Lemma pk_key_ne h pk : length pk = 32%nat → mkey "pk" h ≠ hkey pk.
Proof. intros Hl E. apply (f_equal length) in E. rewrite hkey_length, Hl in E. discriminate E. Qed.
Lemma next_key_ne pk : length pk = 32%nat → ascii "nexthandle" ≠ hkey pk.
Proof. intros Hl E. apply (f_equal length) in E. rewrite hkey_length, Hl in E. discriminate E. Qed.
Lemma hkey_inj pk pk' : hkey pk = hkey pk' → pk = pk'.
Proof. apply app_inv_head. Qed.

(** The reads after a fresh key is bound *)
Lemma bind_reads pk n st : length pk = 32%nat → u32 n → n < U32_MAX →
  let st' := <[ascii "nexthandle" := le_bytes 4 (n + 1)]> (<[hkey pk := le_bytes 4 n]> (<[mkey "pk" n := pk]> st)) in
  next_handle st' = n + 1 ∧
  (∀ h, u32 h → pubkey_of st' h = if decide (h = n) then Some pk else pubkey_of st h) ∧
  ∀ pk', length pk' = 32%nat → handle_of st' pk' = if decide (pk' = pk) then Some n else handle_of st pk'.
Proof.
  intros Hl Hn Hlt st'. unfold u32, U32_MAX in *. split_and!.
  - unfold next_handle, st'. rewrite lookup_insert_eq, le_bytes_length. cbn [Nat.leb]. apply ru32_bytes. unfold u32. lia.
  - intros h Hh. unfold pubkey_of, st'. rewrite lookup_insert_ne by keyne. rewrite lookup_insert_ne by (apply not_eq_sym, pk_key_ne, Hl).
    case_decide as E.
    + subst h. rewrite lookup_insert_eq. cbn [mbind option_bind]. by rewrite Hl, take_ge by lia.
    + rewrite lookup_insert_ne; [done|]. intros Ek. apply mkey_inj in Ek; [congruence|done..].
  - intros pk' Hl'. unfold handle_of, st'. rewrite lookup_insert_ne by (by apply next_key_ne). case_decide as E.
    + subst pk'. rewrite lookup_insert_eq. cbn [mbind option_bind]. rewrite le_bytes_length. cbn [Nat.leb]. f_equal. by apply ru32_bytes.
    + rewrite lookup_insert_ne by (intros Ek; by apply hkey_inj in Ek). rewrite lookup_insert_ne by (by apply pk_key_ne). done.
Qed.
Lemma reg_insert_ok k v st : reg_key k → wf_bytes v → stored st ∧ custody st → stored (<[k := v]> st) ∧ custody (<[k := v]> st).
Proof.
  intros Hk Hv [Hs Hc]. split; [by apply stored_insert|]. intros x Hx. rewrite total_insert, reg_not_bal by done. unfold get_cust.
  rewrite get_u64_insert_ne by (apply cust_key_ne; eauto). rewrite (Hc x Hx). unfold get_cust. lia.
Qed.
Lemma register_ok pk (st : host) : length pk = 32%nat → wf_bytes pk → ledger_ok st → next_handle st < U32_MAX →
  let st' := (register_key room pk st).2 in
  ledger_ok st' ∧ handle_of st' pk = Some (register_key room pk st).1 ∧ next_handle st' ≤ next_handle st + 1 ∧
  (∀ x, get_cust st' x = get_cust st x) ∧
  ∀ pk' h, length pk' = 32%nat → handle_of st pk' = Some h → handle_of st' pk' = Some h.
Proof.
  intros Hl Hw Hok Hlt st'. pose proof Hok as [Hs Hc [R1 R2 R3]]. subst st'. unfold register_key.
  destruct (handle_of st pk) as [h|] eqn:Eh; [cbn; split_and!; [done..|lia|done|done]|]. cbn [fst snd]. rewrite !set_storage_insert.
  unfold sat_add32. rewrite Z.min_r by lia. set (n := next_handle st) in *.
  assert (Hn : u32 n) by (unfold u32, U32_MAX in *; lia).
  destruct (bind_reads pk n st Hl Hn Hlt) as (En & Ep & Ehh).
  set (st' := <[ascii "nexthandle" := _]> _) in *.
  assert (Hsc : stored st' ∧ custody st').
  { apply reg_insert_ok; [by left|apply le_bytes_wf|]. apply reg_insert_ok; [right; right; eauto|apply le_bytes_wf|].
    apply reg_insert_ok; [right; left; eauto|done|done]. }
  split_and!.
  - destruct Hsc as [Hs' Hc']. split; [done..|]. split.
    + lia.
    + intros pk' h Hl' Hh. rewrite Ehh in Hh by done. rewrite En. case_decide as E.
      * injection Hh as <-. subst pk'. rewrite Ep by done. rewrite decide_True by done. split; [lia|done].
      * destruct (R2 pk' h Hl' Hh) as [Hb Hp]. rewrite Ep by (unfold u32 in *; lia). rewrite decide_False by lia. split; [lia|done].
    + intros h pk' Hh Hp. rewrite Ep in Hp by done. case_decide as E.
      * injection Hp as <-. subst h. split; [done|]. rewrite Ehh by done. by rewrite decide_True.
      * destruct (R3 h pk' Hh Hp) as [Hl' Hk]. split; [done|]. rewrite Ehh by done. rewrite decide_False; [done|].
        intros ->. by rewrite Eh in Hk.
  - rewrite Ehh by done. by rewrite decide_True.
  - lia.
  - intros x. unfold get_cust, st'. rewrite !get_u64_insert_ne; [done|apply cust_key_ne; right; left..].
    + right. left. eauto.
    + right. right. eauto.
    + by left.
  - intros pk' h Hl' Hh. rewrite Ehh by done. rewrite decide_False; [done|]. intros ->. by rewrite Eh in Hh.
Qed.
(** ** How far one item moves the ledger *)
Record grows (dep : Z → Z) (n : Z) (st st' : storage) : Prop := {
  gr_cust x : u32 x → get_cust st' x ≤ get_cust st x + dep x;
  gr_next : next_handle st' ≤ next_handle st + n;
  gr_keys pk h : length pk = 32%nat → handle_of st pk = Some h → handle_of st' pk = Some h
}.
Notation still := (grows (λ _, 0) 0).
#[local] Instance still_preorder : PreOrder still.
Proof.
  split.
  - intros st. split; [intros; lia|lia|done].
  - intros a b c [H1 H2 H3] [K1 K2 K3]. split; [|lia|eauto]. intros x Hx. specialize (H1 x Hx). specialize (K1 x Hx). lia.
Qed.
Lemma grows_weaken d n st st' : (∀ x, u32 x → 0 ≤ d x) → 0 ≤ n → still st st' → grows d n st st'.
Proof. intros Hd Hn [H1 H2 H3]. split; [|lia|done]. intros x Hx. specialize (H1 x Hx). specialize (Hd x Hx). lia. Qed.
Lemma still_insert k v st : ¬ reg_key k → (∀ x, k ≠ cust_key x) → still st (<[k := v]> st).
Proof.
  intros Hr Hk. destruct (reg_reads_insert k v st Hr) as (En & _ & Eh). split; [|lia|].
  - intros x _. unfold get_cust. rewrite get_u64_insert_ne by done. lia.
  - intros pk h Hl Hh. by rewrite Eh.
Qed.
Lemma still_aside k v st : aside_key k → still st (<[k := v]> st).
Proof. intros Hk. apply still_insert; [by apply aside_not_reg|]. intros x. apply cust_key_ne. by left. Qed.
Lemma still_bal x a v st : still st (<[bal_key x a := v]> st).
Proof. apply still_insert; [apply bal_not_reg|]. intros y. apply cust_key_ne. eauto. Qed.
Lemma grows_cust x c st st' : u32 x → 0 ≤ c ≤ U64_MAX → still st st' →
  grows (λ y, if y =? x then Z.max 0 (c - get_cust st x) else 0) 0 st (<[cust_key x := le_bytes 8 c]> st').
Proof.
  intros Hx Hc [H1 H2 H3]. destruct (reg_reads_insert (cust_key x) (le_bytes 8 c) st' (cust_not_reg x)) as (En & _ & Eh). split; [|lia|].
  - intros y Hy. specialize (H1 y Hy). unfold get_cust in *. destruct (Z.eqb_spec y x) as [->|Hne].
    + rewrite get_u64_insert by done. lia.
    + rewrite get_u64_insert_ne by (intros E; by apply mkey_inj in E). lia.
  - intros pk h Hl Hh. rewrite Eh by done. by apply H3.
Qed.

Lemma deposited_nonneg x out : wf_bytes out → 0 ≤ deposited x out.
Proof.
  intros Hw. unfold deposited. destruct out as [|t out]; [lia|]. destruct (decode_deposit _) as [d|] eqn:E; [|lia].
  apply decode_fields in E as (_ & _ & H); [|done]. case_match; lia.
Qed.
Lemma grows_mono d e n st st' : (∀ x, u32 x → d x ≤ e x) → grows d n st st' → grows e n st st'.
Proof. intros H [H1 H2 H3]. split; [|done|done]. intros x Hx. specialize (H x Hx). specialize (H1 x Hx). lia. Qed.

Lemma deposit_grows out (st : host) d : wf_bytes out → decode_deposit out = Some d → ledger_ok st →
  get_cust st (d_asset d) + d_amount d ≤ U64_MAX →
  grows (λ x, if x =? d_asset d then d_amount d else 0) 0 st (deposit_arm room out st).
Proof.
  intros Hw Hd Hok Hfit. unfold deposit_arm. rewrite Hd. destruct (decode_fields out d Hw Hd) as (Ha & Hx & Hm).
  destruct (admit_deposit _ _) as [v|]; [|apply grows_weaken; [intros; case_match; lia|lia|reflexivity]].
  unfold set_cust, set_bal, set_u64. rewrite !set_storage_insert, cust_after_bal.
  assert (Hc1 : get_cust (<[mkey "dn" (d_account d) := v]> (h_st st)) (d_asset d) = get_cust st (d_asset d)) by (apply get_u64_insert_ne, cust_key_ne; left; constructor).
  rewrite Hc1. pose proof (bal_le_cust st (d_asset d) 0 Hok Hx).
  eapply grows_mono; [|apply (grows_cust (d_asset d)); [exact Hx| |etransitivity; [apply (still_aside (mkey "dn" (d_account d))); constructor|apply still_bal]]].
  - intros x _. unfold sat_add. case_match; lia.
  - unfold sat_add, U64_MAX in *. lia.
Qed.
Lemma withdraw_still out (st : host) : wf_bytes out → ledger_ok st → still st (withdraw_arm room out st).
Proof.
  intros Hw Hok. unfold withdraw_arm. case_match; [reflexivity|]. unfold set_cust, set_bal, set_nonce, set_u64. rewrite !set_storage_insert.
  set (st1 := <[mkey "nc" _ := _]> (h_st st)). assert (H1 : still st st1) by (apply still_aside; constructor).
  case_match; [|done]. rewrite !set_storage_insert. fold st1. rewrite cust_after_bal. pose proof (get_u64_bound st (cust_key (ru32 out 5)) (lo_stored st Hok)) as Hb.
  assert (Hc : get_cust st1 (ru32 out 5) = get_cust st (ru32 out 5)) by (apply get_u64_insert_ne, cust_key_ne; left; constructor).
  pose proof (le_u64_bound (slice out 9 17) ltac:(by apply Forall_take, Forall_drop)).
  eapply grows_mono; [|apply grows_cust; [by apply ru32_bound| |etransitivity; [exact H1|apply still_bal]]].
  - intros x _. cbn beta. rewrite Hc. unfold sat_sub, get_cust. case_match; lia.
  - rewrite Hc. unfold sat_sub, get_cust. lia.
Qed.
Lemma treasury_still out (st : host) : still st (treasury_arm room out st).
Proof.
  unfold treasury_arm. case_match; [reflexivity|]. unfold set_bal, set_u64. rewrite !set_storage_insert.
  case_match; rewrite !set_storage_insert; (etransitivity; [apply (still_aside (ascii "govnonce")); constructor|]); [|reflexivity]. etransitivity; apply still_bal.
Qed.
Lemma list_still out (st : host) : still st (list_arm room out st).
Proof.
  unfold list_arm. case_match; [reflexivity|]. rewrite !set_storage_insert. etransitivity; apply still_aside; constructor.
Qed.
Lemma register_grows pk (st : host) : length pk = 32%nat → wf_bytes pk → ledger_ok st → next_handle st < U32_MAX →
  grows (λ _, 0) 1 st (register_key room pk st).2.
Proof.
  intros Hl Hw Hok Hlt. destruct (register_ok pk st Hl Hw Hok Hlt) as (_ & _ & Hn & Hc & Hk). split; [|lia|done].
  intros x _. rewrite Hc. lia.
Qed.

Lemma item_step out (st : host) : wf_bytes out → ledger_ok st → (∀ x, u32 x → get_cust st x + deposited x out ≤ U64_MAX) → next_handle st < U32_MAX →
  ledger_ok (account_item room out st) ∧ grows (λ x, deposited x out) 1 st (account_item room out st).
Proof.
  intros Hw Hok Hfit Hlt. pose proof (λ x, deposited_nonneg x out Hw) as Hd.
  assert (Hs : ∀ st', still st st' → grows (λ x, deposited x out) 1 st st') by (intros; apply grows_weaken; [auto|lia|done]).
  unfold account_item. destruct out as [|tag rest]; [split; [done|apply Hs; reflexivity]|]. set (out := tag :: rest) in *.
  destruct (Z.eqb_spec tag TAG_DEPOSIT) as [Ht|Ht].
  { destruct (decode_deposit out) as [d|] eqn:Ed.
    - destruct (decode_fields out d Hw Ed) as (_ & Hx & _).
      assert (Edep : ∀ x, deposited x out = if x =? d_asset d then d_amount d else 0).
      { intros x. unfold deposited, out. fold out. rewrite Ed, Ht, Z.eqb_refl, (Z.eqb_sym x). done. }
      pose proof (Hfit _ Hx) as Hf. rewrite Edep, Z.eqb_refl in Hf. split; [by eapply deposit_ok|].
      destruct (deposit_grows out st d Hw Ed Hok Hf) as [H1 H2 H3]. split; [|lia|done]. intros x Hx'. rewrite Edep. by apply H1.
    - unfold deposit_arm. rewrite Ed. split; [done|apply Hs; reflexivity]. }
  repeat case_match; zbool.
  - split; [by apply withdraw_ok|]. by apply Hs, withdraw_still.
  - assert (length (slice out 1 33) = 32%nat) as Hl.
    { unfold slice. rewrite length_take, length_drop. match goal with H : (length out =? 33)%nat = true |- _ => apply Nat.eqb_eq in H; lia end. }
    assert (Hwp : wf_bytes (slice out 1 33)) by (by apply Forall_take, Forall_drop).
    split; [by apply register_ok|]. eapply grows_mono; [|by apply register_grows]. intros; apply Hd.
  - split; [by apply treasury_ok|]. apply Hs, treasury_still.
  - split; [by apply list_ok|]. apply Hs, list_still.
  - split; [done|]. apply Hs. reflexivity.
Qed.

Lemma items_balanced outs : ∀ st : host,
  Forall wf_bytes outs → ledger_ok st →
  (∀ x, u32 x → get_cust st x + zsum (deposited x) outs ≤ U64_MAX) → next_handle st + Z.of_nat (length outs) ≤ U32_MAX →
  ledger_ok (account_items room outs st) ∧
  ∀ pk h, length pk = 32%nat → handle_of st pk = Some h → handle_of (account_items room outs st) pk = Some h.
Proof.
  induction outs as [|out outs IH]; intros st Hw Hok Hfit Hn; [by split|]. apply Forall_cons in Hw as [Hw Hws].
  assert (Hpos : ∀ x, 0 ≤ zsum (deposited x) outs).
  { intros x. apply zsum_nonneg. intros o Ho. rewrite Forall_forall in Hws. by apply deposited_nonneg, Hws. }
  cbn [length] in Hn. destruct (item_step out st Hw Hok) as [Hok' [G1 G2 G3]]; [|lia|].
  { intros x Hx. specialize (Hfit x Hx). rewrite zsum_cons in Hfit. specialize (Hpos x). lia. }
  destruct (IH (account_item room out st) Hws Hok') as [IH1 IH2]; [|lia|split; [exact IH1|eauto]].
  intros x Hx. specialize (Hfit x Hx). rewrite zsum_cons in Hfit. specialize (G1 x Hx). lia.
Qed.
End arms.

(** ** A run without a refusal is the run of a host that takes every write *)
Section granted.
Context (room : storage → bytes → bytes → bool).

Lemma set_granted k v st : h_refused (set_storage room k v st) = [] → set_storage room k v st = set_storage roomy k v st ∧ h_refused st = [].
Proof using. unfold set_storage. destruct (room st k v); [done|]. cbn. by intros [_ ?]%app_nil. Qed.
(** [H] says the last write was taken; so were those before it. *)
Ltac grant H := repeat match type of H with h_refused (set_storage _ _ _ _) = [] =>
  let E := fresh "E" in apply set_granted in H as [E H]; rewrite ?E end.

Lemma deposit_granted out st : h_refused (deposit_arm room out st) = [] → deposit_arm room out st = deposit_arm roomy out st ∧ h_refused st = [].
Proof using.
  unfold deposit_arm. case_match; [|done]. case_match; [|done]. unfold set_cust, set_bal, set_u64. intros Hr. by grant Hr.
Qed.
Lemma withdraw_granted out st : h_refused (withdraw_arm room out st) = [] → withdraw_arm room out st = withdraw_arm roomy out st ∧ h_refused st = [].
Proof using.
  unfold withdraw_arm. case_match; [done|]. unfold set_cust, set_bal, set_nonce, set_u64. intros Hr.
  match goal with |- context [set_storage room ?k ?v st] => assert (h_refused (set_storage room k v st) = []) as H1 by (revert Hr; case_match; [intros Hr; by grant Hr|done]) end.
  destruct (set_granted _ _ _ H1) as [E1 H2]. rewrite E1 in Hr |- *. split; [|done]. case_match; [|done]. by grant Hr.
Qed.
Lemma treasury_granted out st : h_refused (treasury_arm room out st) = [] → treasury_arm room out st = treasury_arm roomy out st ∧ h_refused st = [].
Proof using.
  unfold treasury_arm. case_match; [done|]. unfold set_bal, set_u64. intros Hr.
  match goal with |- context [set_storage room ?k ?v st] => assert (h_refused (set_storage room k v st) = []) as H1 by (revert Hr; case_match; [intros Hr; by grant Hr|done]) end.
  destruct (set_granted _ _ _ H1) as [E1 H2]. rewrite E1 in Hr |- *. split; [|done]. case_match; [|done]. by grant Hr.
Qed.
Lemma list_granted out st : h_refused (list_arm room out st) = [] → list_arm room out st = list_arm roomy out st ∧ h_refused st = [].
Proof using. unfold list_arm. case_match; [done|]. intros Hr. by grant Hr. Qed.
Lemma register_granted pk st : h_refused (register_key room pk st).2 = [] → register_key room pk st = register_key roomy pk st ∧ h_refused st = [].
Proof using. unfold register_key. case_match; [done|]. cbn [snd]. intros Hr. by grant Hr. Qed.
Lemma item_granted out st : h_refused (account_item room out st) = [] → account_item room out st = account_item roomy out st ∧ h_refused st = [].
Proof using.
  unfold account_item. repeat case_match; try done; try first [apply deposit_granted|apply withdraw_granted|apply treasury_granted|apply list_granted].
  intros Hr. by destruct (register_granted _ _ Hr) as [-> ?].
Qed.
Lemma items_granted outs : ∀ st, h_refused (account_items room outs st) = [] →
  account_items room outs st = account_items roomy outs st ∧ h_refused st = [].
Proof using.
  unfold account_items. induction outs as [|out outs IH]; intros st Hr; cbn [foldl] in *; [done|].
  destruct (IH _ Hr) as [-> H1]. by destruct (item_granted out st H1) as [-> ?].
Qed.

(** (C31) The ledger of the service through any sequence of its work items (deposits, withdrawals, registrations, treasury sweeps,
    listings), items the code turns down included: for every asset the custodied total stays the sum of all balances, every
    registered key keeps the handle it has, and keys and handles stay in one-to-one correspondence below the next free handle.
    The deposits together must fit 64 bits with what is in custody, the handles must not run out, and this run must be one of
    which the host refused no write ([h_refused] is empty at its end). *)
Theorem ledger_stays_balanced outs (st : host) :
  Forall wf_bytes outs → ledger_ok st →
  (∀ x, u32 x → get_cust st x + zsum (deposited x) outs ≤ U64_MAX) → next_handle st + Z.of_nat (length outs) ≤ U32_MAX →
  h_refused (account_items room outs st) = [] →
  ledger_ok (account_items room outs st) ∧
  ∀ pk h, length pk = 32%nat → handle_of st pk = Some h → handle_of (account_items room outs st) pk = Some h.
Proof using. intros Hw Hok Hfit Hn [-> _]%items_granted. by apply items_balanced. Qed.
End granted.

(** ** Sample runs *)
Lemma ledger_ok_empty : ledger_ok ∅.
Proof.
  split.
  - apply map_Forall_empty.
  - intros x _. reflexivity.
  - split; [done| |].
    + intros pk h _. unfold handle_of. by rewrite lookup_empty.
    + intros h pk _. unfold pubkey_of. by rewrite lookup_empty.
Qed.
Definition sample_key : bytes := replicate 32 9.
Definition deposit_item (acct asset amount nonce : Z) : bytes := [TAG_DEPOSIT] ++ le_bytes 4 acct ++ le_bytes 4 asset ++ le_bytes 8 amount ++ le_bytes 8 nonce.
Definition withdraw_item (acct asset amount nonce : Z) : bytes :=
  [TAG_WITHDRAW] ++ le_bytes 4 acct ++ le_bytes 4 asset ++ le_bytes 8 amount ++ le_bytes 8 nonce ++ sample_key.
Definition sample_items : list bytes :=
  [TAG_REGISTER :: sample_key; deposit_item 1 0 500 7; deposit_item 1 0 500 7; withdraw_item 1 0 200 0; withdraw_item 1 0 200 0].
Example sample_ledger :
  let st := account_items roomy sample_items (Host ∅ []) in
  (get_bal st 0 1, get_cust st 0, get_nonce st 1, handle_of st sample_key, next_handle st) = (300, 300, 1, Some 1, 2).
Proof. vm_compute. reflexivity. Qed.
Lemma sample_deposits x : zsum (deposited x) sample_items ≤ 1000.
Proof.
  unfold sample_items. rewrite !zsum_cons, zsum_nil.
  assert (H : ∀ o, deposited x (deposit_item 1 0 500 o) = if 0 =? x then 500 else 0) by reflexivity. rewrite !H.
  change (deposited x (TAG_REGISTER :: sample_key)) with 0. change (deposited x (withdraw_item 1 0 200 0)) with 0. destruct (0 =? x); lia.
Qed.
(** A host with room for so many values *)
Definition room_for (n : nat) (st : storage) (k v : bytes) : bool := bool_decide (is_Some (st !! k)) || (size st <? n)%nat.
Lemma ledger_stays_balanced_witness : ledger_ok (account_items (room_for 7) sample_items (Host ∅ [])).
Proof.
  apply (ledger_stays_balanced (room_for 7) sample_items (Host ∅ [])).
  - apply (bool_decide_eq_true_1 _). vm_compute. reflexivity.
  - exact ledger_ok_empty.
  - intros x _. pose proof (sample_deposits x). change (get_cust (Host ∅ []) x) with 0. unfold U64_MAX. lia.
  - vm_compute. discriminate.
  - vm_compute. reflexivity.
Defined.

(** Two deposits that together pass 64 bits: the custody saturates and the balances do not add up to it. *)
Example saturated_custody :
  let st := account_items roomy [deposit_item 1 0 U64_MAX 1; deposit_item 2 0 U64_MAX 1] (Host ∅ []) in
  get_cust st 0 = U64_MAX ∧ get_bal st 0 1 + get_bal st 0 2 = 2 * U64_MAX ∧ total 0 st = 2 * U64_MAX.
Proof. vm_compute. split_and!; reflexivity. Qed.
(** A write the host refuses is dropped: the balance is credited and the custody is not. *)
Example refused_custody :
  let st := account_items (λ _ k _, negb (bool_decide (k = cust_key 0))) [deposit_item 1 0 500 1] (Host ∅ []) in
  get_bal st 0 1 = 500 ∧ get_cust st 0 = 0 ∧ h_refused st = [cust_key 0].
Proof. vm_compute. split_and!; reflexivity. Qed.
(** A refused nonce: the sample's one withdrawal, handed in twice, is paid twice. *)
Example refused_nonce :
  let st := account_items (room_for 5) sample_items (Host ∅ []) in (get_bal st 0 1, get_nonce st 1) = (100, 0) ∧ mkey "nc" 1 ∈ h_refused st.
Proof. split; [vm_compute; reflexivity|]. apply (bool_decide_eq_true_1 _). vm_compute. reflexivity. Qed.
End Accounts.
