(* ===== verification/Genesis.v ===== *)
(** * The genesis of a test net: nets/genesis.py

    The client layout, the validators and node table made from it, the peer lists, the service storage that pre-registers
    the dev accounts, and [main], the one-shot minter that writes them to the shared volume.  [polkajam gen-spec], lasair's
    two tools and the genesis hash are parameters.

    Strings are ASCII.  A file is the value written to it; JSON and text layout are not modelled, and every write succeeds and is
    complete: a full disk or a kill in the middle of a file is not covered. *)
From S2P Require Import Prelude Bytes Engine Wire DevKeys Accounts Door.
From stdpp Require Import pretty.
From Stdlib Require Import Ascii.
Import DevKeys.
#[local] Open Scope Z_scope.

Module Genesis.

(** ** Python strings *)
Definition lower_char (c : ascii) : ascii := let n := nat_of_ascii c in if (65 <=? n)%nat && (n <=? 90)%nat then ascii_of_nat (n + 32) else c.
Fixpoint lower (s : string) : string := match s with EmptyString => "" | String c s' => String (lower_char c) (lower s') end.
(** [str.isspace] of an ASCII character: the separators 28 to 31 too *)
Definition py_space (c : ascii) : bool := is_space c || ((28 <=? N_of_ascii c) && (N_of_ascii c <=? 31))%N.
Fixpoint lstrip (s : string) : string :=
  match s with EmptyString => "" | String c s' => if py_space c then lstrip s' else s end.
Fixpoint rstrip (s : string) : string :=
  match s with EmptyString => "" | String c s' => match rstrip s' with EmptyString => if py_space c then "" else String c "" | r => String c r end end.
Definition strip (s : string) : string := rstrip (lstrip s).
(** [int(s)] of a decimal text: a sign, digits, single underscores between digits *)
Fixpoint int_digits (acc : Z) (digit_before : bool) (s : string) : option Z :=
  match s with
  | EmptyString => if digit_before then Some acc else None
  | String c s' =>
      let n := Z.of_N (N_of_ascii c) in
      if (48 <=? n) && (n <=? 57) then int_digits (10 * acc + (n - 48)) true s'
      else if (n =? 95) && digit_before then int_digits acc false s' else None
  end.
Definition py_int (s : string) : result Z :=
  match match strip s with
        | String "-" s' => Z.opp <$> int_digits 0 false s'
        | String "+" s' => int_digits 0 false s'
        | s' => int_digits 0 false s'
        end with
  | Some z => Ok z
  | None => Raise (ValueError "invalid literal for int() with base 10")
  end.
(** [s.split(c)] *)
Fixpoint split (c : ascii) (s : string) : list string :=
  match s with
  | EmptyString => [""]
  | String d s' => if Ascii.eqb c d then "" :: split c s' else
      match split c s' with h :: t => String d h :: t | [] => [String d ""] end
  end.
(** [c.join(l)] *)
Fixpoint joined (c : string) (l : list string) : string :=
  match l with [] => "" | [x] => x | x :: l' => (x +:+ c +:+ joined c l') end.

(** ** The layout *)
Inductive client := Lasair | Polkajam | Pbnjam | Javajam.
#[global] Instance client_eq_dec : EqDecision client.
Proof. solve_decision. Defined.
Definition client_name (c : client) : string :=
  match c with Lasair => "lasair" | Polkajam => "polkajam" | Pbnjam => "pbnjam" | Javajam => "javajam" end.

Definition CLIENT_ALIASES : list (string * client) :=
  [("lasair", Lasair); ("pj", Polkajam); ("polkajam", Polkajam); ("pbnjam", Pbnjam); ("javajam", Javajam); ("jj", Javajam)].
Fixpoint clients_of (raws : list string) : result (list client) :=
  match raws with
  | [] => Ok []
  | raw :: rest =>
      let name := lower (strip raw) in
      if String.eqb name "" then clients_of rest else
      match snd <$> (snd <$> list_find (λ kv, kv.1 = name) CLIENT_ALIASES) with
      | None => Raise (ValueError "unknown client")
      | Some c => cs ← clients_of rest; Ok (c :: cs)
      end
  end.
Definition parse_clients (spec : string) : result (list client) :=
  out ← clients_of (split "," spec);
  match out with [] => Raise (ValueError "empty client layout") | _ => Ok out end.

(** ** Validators and nodes *)
Record validator := Validator { v_peer_id : string; v_bandersnatch : string; v_net_addr : string }.
(** A row of the node table; the fields a client's row lacks are [None]. *)
Record node := NodeRow {
  n_index : Z; n_role : client; n_host : string; n_port : Z; n_rpc : option Z; n_peer_id : string;
  n_identity : option Z; n_seed : option string; n_own : Z
}.

Definition addr (host : string) (port : Z) : string := host +:+ ":" +:+ pretty port.
Definition seed_name (i : Z) : string := "pj_" +:+ pretty i +:+ ".seed".
Definition node_row (i : Z) (c : client) (host : string) (port rpc : Z) (peer : string) : node :=
  match c with
  | Lasair => NodeRow i Lasair host port None peer (Some (100 + i)) None i
  | Polkajam => NodeRow i Polkajam host port (Some rpc) peer None (Some (seed_name i)) i
  | c => NodeRow i c host port (Some rpc) peer None None i
  end.

Section topology.
(** [devkeys.dev_account] *)
Context (dev_account : Z → result account).

Fixpoint topology_from (i : Z) (clients : list client) (base_port rpc_base : Z) (host_of : Z → string) : result (list validator * list node) :=
  match clients with
  | [] => Ok ([], [])
  | c :: rest =>
      acct ← dev_account i;
      let host := host_of i in
      let port := base_port + i in
      '(vals, nodes) ← topology_from (i + 1) rest base_port rpc_base host_of;
      Ok (Validator (ac_peer_id acct) (ac_bandersnatch acct) (addr host port) :: vals, node_row i c host port (rpc_base + i) (ac_peer_id acct) :: nodes)
  end.
Definition topology : list client → Z → Z → (Z → string) → result (list validator * list node) := topology_from 0.
End topology.

(** [next((n for n in nodes if role is polkajam), nodes[0])]: an empty table raises [IndexError]. *)
Definition bootnode (nodes : list node) : result string :=
  boot ← match list_find (λ n, n_role n = Polkajam) nodes, nodes with
         | Some (_, n), _ => Ok n
         | None, n :: _ => Ok n
         | None, [] => Raise IndexError
         end;
  Ok (n_peer_id boot +:+ "@" +:+ addr (n_host boot) (n_port boot)).
Definition peer_entry (m : node) : string := addr (n_host m) (n_port m) +:+ "@" +:+ n_peer_id m.
(** index -> the addresses of every other node *)
Definition peer_lists (nodes : list node) : list (Z * string) :=
  map (λ n, (n_index n, joined "," (map peer_entry (filter (λ m, n_index m ≠ n_index n) nodes)))) nodes.

(** ** The seeded accounts *)
Notation assignment := (string * string)%type.
Definition SCALE : Z := 10000.
Definition asset_row (h4 : bytes) (atomic a : Z) : result assignment :=
  a4 ← to_bytes 4 a; v ← to_bytes 8 atomic; Ok (hex (ascii_bytes "b" ++ a4 ++ h4), hex v).
Definition account_rows (atomic : Z) (assets : list Z) (h : Z) (pub : string) : result (list assignment) :=
  p ← fromhex pub;
  h4 ← to_bytes 4 h;
  rows ← mapM (asset_row h4 atomic) assets;
  Ok ((hex (ascii_bytes "h" ++ p), hex h4) :: (hex (ascii_bytes "pk" ++ h4), pub) :: rows).
Definition custody_row (total a : Z) : result assignment :=
  a4 ← to_bytes 4 a; v ← to_bytes 8 total; Ok (hex (ascii_bytes "cust" ++ a4), hex v).
Fixpoint accounts_rows (atomic : Z) (assets : list Z) (h : Z) (pubs : list string) : result (list assignment) :=
  match pubs with
  | [] => Ok []
  | pub :: rest => r ← account_rows atomic assets h pub; rs ← accounts_rows atomic assets (h + 1) rest; Ok (r ++ rs)
  end.
Definition dev_pubs : list string := map (λ row : published, row.1.2) PUBLISHED.
Definition genesis_rows (balance : Z) (assets : list Z) : result (list assignment) :=
  let atomic := balance * SCALE in
  let n := Z.of_nat (length dev_pubs) in
  accts ← accounts_rows atomic assets 1 dev_pubs;
  next ← to_bytes 4 (n + 1);
  custs ← mapM (custody_row (atomic * n)) assets;
  Ok (accts ++ (hex (ascii_bytes "nexthandle"), hex next) :: custs).
(** The dict: later assignments win. *)
Definition genesis_accounts (balance : Z) (assets : list Z) : result (gmap string string) :=
  rows ← genesis_rows balance assets;
  Ok (foldl (λ kv '(k, v), <[k := v]> kv) ∅ rows).
Definition ASSETS : list Z := [0; 1; 2].
(** ** [main]

    [sys.exit] is a status; an [assert] that fails is an uncaught exception, given here as [ValueError]. *)
Record spec := Spec { sp_header : option string; sp_state : option nat }.
Record topo := Topo { tp_nodes : list node; tp_bootnode : string; tp_base_port : Z; tp_rpc_base : Z }.
Inductive content : Type :=
| CfgJson (vals : list validator)
| SpecJson (sp : spec)
| NodesJson (t : topo)
| AccountsJson (kv : gmap string string)
| Text (t : string)
| Seed (b : bytes).
Notation files := (gmap string content).
Inductive status := Minted (clients : list client) | Reused | Exit (why : string).

Record tools := Tools {
  t_dev_account : Z → result account;                            (* devkeys.dev_account *)
  t_lasair_account : Z → gmap string string;                     (* lasair --dev-account i, by field *)
  t_gen_spec : list validator → option spec;                     (* polkajam gen-spec *)
  t_inject : spec → string → option (gmap string string) → option spec;   (* lasair --inject-service-spec *)
  t_exists : string → bool;                                      (* os.path.exists of the service blob *)
  t_blake2b : bytes → bytes
}.

Section main.
Context (tl : tools) (env : gmap string string).

Definition getenv (k d : string) : string := default d (env !! k).
(** [os.environ.get("CLIENTS") or os.environ.get("LAYOUT", ...)] *)
Definition layout : string :=
  match env !! "CLIENTS" with
  | Some (String c s) => String c s
  | _ => getenv "LAYOUT" "polkajam,polkajam,polkajam,lasair,lasair,lasair"
  end.
Definition host_of (host_ip ip_base : string) (ip_start i : Z) : string :=
  if negb (String.eqb host_ip "") then host_ip else ip_base +:+ "." +:+ pretty (ip_start + i).

(** The accounts of the table that lasair derives otherwise, for the first [n] indices; [main] exits on the first. *)
Fixpoint check_against_lasair (idx : list Z) : result (option Z) :=
  match idx with
  | [] => Ok None
  | i :: rest =>
      want ← t_dev_account tl i;
      let got := t_lasair_account tl i in
      if bool_decide (got !! "bandersnatch" = Some (ac_bandersnatch want)) && bool_decide (got !! "ed25519" = Some (ac_ed25519 want)) &&
         bool_decide (got !! "peer_id" = Some (ac_peer_id want))
      then check_against_lasair rest else Ok (Some i)
  end.

Definition write (f : string) (c : content) : SE files unit := se_put (<[f := c]>).
Definition peers_name (i : Z) : string := "peers_" +:+ pretty i +:+ ".txt".
Fixpoint write_peers (l : list (Z * string)) : SE files unit :=
  match l with [] => mret tt | (i, p) :: rest => _ ← write (peers_name i) (Text p); write_peers rest end.
Fixpoint write_seeds (nodes : list node) : SE files unit :=
  match nodes with
  | [] => mret tt
  | n :: rest =>
      _ ← match n_role n, n_seed n with
          | Polkajam, Some f => b ← se_lift (dev_seed (n_index n)); write f (Seed b)
          | _, _ => mret tt
          end;
      write_seeds rest
  end.

(** The service written into the spec, or [None] when lasair's tool fails *)
Definition inject_service (sp : spec) : SE files (option spec) :=
  let service := getenv "SERVICE" "" in
  if negb (String.eqb service "") && t_exists tl service then
    gbal ← se_lift (py_int (getenv "GENESIS_BALANCE" "1000000"));
    seed ← (if 0 <? gbal then kv ← se_lift (genesis_accounts gbal ASSETS); _ ← write "genesis_accounts.json" (AccountsJson kv); mret (Some kv)
            else mret None);
    match t_inject tl sp (getenv "SERVICE_ID" "100") seed with
    | None => mret None
    | Some sp' => _ ← write "spec.json" (SpecJson sp'); mret (Some sp')
    end
  else mret (Some sp).

(** [hashlib.blake2b(gh, digest_size=32).hexdigest()[:8]], then the marker *)
Definition finish (sp : spec) (clients : list client) : SE files status :=
  gh ← se_lift (match sp_header sp with Some h => fromhex h | None => Raise (KeyError "genesis_header") end);
  _ ← write "genesis_hex" (Text (String.substring 0 8 (hex (t_blake2b tl gh))));
  _ ← write "ready" (Text "ok");
  mret (Minted clients).

Definition mint (clients : list client) (base rpc_base : Z) (host : Z → string) : SE files status :=
  '(vals, nodes) ← se_lift (topology (t_dev_account tl) clients base rpc_base host);
  _ ← write "cfg.json" (CfgJson vals);
  match t_gen_spec tl vals with
  | None => mret (Exit "gen-spec failed")
  | Some sp =>
      _ ← write "spec.json" (SpecJson sp);
      boot ← se_lift (bootnode nodes);
      _ ← write "nodes.json" (NodesJson (Topo nodes boot base rpc_base));
      _ ← write_peers (peer_lists nodes);
      _ ← write_seeds nodes;
      match sp_header sp, sp_state sp with
      | Some _, Some _ =>
          inj ← inject_service sp;
          match inj with
          | None => mret (Exit "service injection failed")
          | Some sp' => finish sp' clients
          end
      | _, _ => se_lift (Raise (ValueError "assert: genesis_header and genesis_state in spec"))
      end
  end.

Definition main : SE files status :=
  base ← se_lift (py_int (getenv "BASE_PORT" "40060"));
  rpc_base ← se_lift (py_int (getenv "RPC_BASE" "19890"));
  ip_start ← se_lift (py_int (getenv "IP_START" "10"));
  match parse_clients layout with
  | Raise (ValueError e) => mret (Exit ("spec-init: " +:+ e))
  | Raise e => se_lift (Raise e)
  | Ok clients =>
      have ← se_get (λ fs : files, bool_decide (is_Some (fs !! "ready")) && bool_decide (is_Some (fs !! "spec.json")));
      if have : bool then mret Reused else
      bad ← (if bool_decide (Lasair ∈ clients) then se_lift (check_against_lasair (seqZ 0 (Z.of_nat (length clients)))) else mret None);
      match bad with
      | Some i => mret (Exit ("dev account " +:+ pretty i))
      | None => mint clients base rpc_base (host_of (getenv "HOST_IP" "") (getenv "IP_BASE" "172.28.0") ip_start)
      end
  end.
End main.

(** *** The shared volume

    An entrypoint waits for [ready] and then reads the spec, the node table, its peers and its seed. *)
Definition announces (t : topo) (fs : files) : Prop := ∃ sp,
  fs !! "nodes.json" = Some (NodesJson t) ∧ fs !! "spec.json" = Some (SpecJson sp) ∧ is_Some (fs !! "genesis_hex") ∧
  (∀ i p, (i, p) ∈ peer_lists (tp_nodes t) → fs !! peers_name i = Some (Text p)) ∧
  ∀ n, n ∈ tp_nodes t → n_role n = Polkajam → ∃ b, dev_seed (n_index n) = Ok b ∧ fs !! seed_name (n_index n) = Some (Seed b).
Definition complete (fs : files) : Prop := ∃ t, announces t fs.

Lemma append_cons (x : ascii) (a b : string) : String x a +:+ b = String x (a +:+ b).
Proof. reflexivity. Qed.
Lemma append_nil (b : string) : "" +:+ b = b.
Proof. reflexivity. Qed.
Lemma append_assoc (a b c : string) : (a +:+ b) +:+ c = a +:+ (b +:+ c).
Proof. induction a as [|x a IH]; [done|]. by rewrite !append_cons, IH. Qed.
Lemma append_dot (a b c d : string) : (∀ x, x ∈ String.list_ascii_of_string a → x ≠ "."%char) →
  (∀ x, x ∈ String.list_ascii_of_string b → x ≠ "."%char) →
  a +:+ String "." c = b +:+ String "." d → a = b.
Proof.
  revert b. induction a as [|x a IH]; intros [|y b] Ha Hb E; rewrite ?append_nil, ?append_cons in E.
  - done.
  - exfalso. apply (Hb y); [left|congruence].
  - exfalso. apply (Ha x); [left|congruence].
  - assert (x = y) as -> by congruence. f_equal. apply IH; [intros z Hz; apply Ha; by right|intros z Hz; apply Hb; by right|congruence].
Qed.
(** Decimal texts *)
Definition is_digit (c : ascii) : bool := let n := Z.of_N (N_of_ascii c) in (48 <=? n) && (n <=? 57).
Definition all_chars (Q : ascii → Prop) (s : string) : Prop := ∀ c, c ∈ String.list_ascii_of_string s → Q c.
Lemma all_chars_cons Q c s : all_chars Q (String c s) ↔ Q c ∧ all_chars Q s.
Proof.
  unfold all_chars. cbn. split.
  - intros H. split; [apply H; by left|]. intros d Hd. apply H. by right.
  - intros [H1 H2] d [->|Hd]%elem_of_cons; auto.
Qed.
Lemma all_chars_nil Q : all_chars Q "".
Proof. intros c H. by apply not_elem_of_nil in H. Qed.
Lemma digit_char (d : N) : (d < 10)%N → Z.of_N (N_of_ascii (pretty_N_char d)) = 48 + Z.of_N d.
Proof.
  intros H. assert (d = 0 ∨ d = 1 ∨ d = 2 ∨ d = 3 ∨ d = 4 ∨ d = 5 ∨ d = 6 ∨ d = 7 ∨ d = 8 ∨ d = 9)%N by lia. naive_solver.
Qed.
Lemma pretty_go_digits (x : N) : ∀ s, all_chars is_digit s → all_chars is_digit (pretty_N_go x s).
Proof.
  induction x as [x IH] using (well_founded_induction N.lt_wf_0). intros s Hs. destruct (decide (x = 0)%N) as [->|Hx]; [done|].
  rewrite pretty_N_go_step by lia. apply IH; [apply N.div_lt; lia|]. apply all_chars_cons. split; [|done].
  assert (Hd : (x mod 10 < 10)%N) by (apply N.mod_lt; lia). revert Hd. generalize (x mod 10)%N. intros d Hd.
  unfold is_digit. rewrite digit_char by done. apply Is_true_true, andb_true_iff. lia.
Qed.
Lemma pretty_digits (z : Z) : 0 ≤ z → all_chars is_digit (pretty z).
Proof.
  assert (HN : ∀ n : N, all_chars is_digit (pretty n)).
  { intros n. unfold pretty, pretty_N. case_decide; [by apply all_chars_cons; split; [|apply all_chars_nil]|].
    apply pretty_go_digits, all_chars_nil. }
  destruct z as [|q|q]; [intros _; apply (HN 0%N)|intros _; apply (HN (Npos q))|lia].
Qed.
Lemma pretty_no_dot (z : Z) : all_chars (λ c, c ≠ "."%char) (pretty z).
Proof.
  assert (Hd : ∀ z : Z, 0 ≤ z → all_chars (λ c, c ≠ "."%char) (pretty z)).
  { intros y Hy c Hc ->. by apply (pretty_digits y Hy) in Hc. }
  destruct (Z.le_gt_cases 0 z) as [|Hz]; [by apply Hd|]. destruct z as [|q|q]; try lia.
  change (all_chars (λ c, c ≠ "."%char) (String "-" (pretty (Z.pos q)))). apply all_chars_cons. split; [done|]. by apply Hd.
Qed.
Lemma int_digits_go (x : N) : (0 < x)%N → ∀ s, int_digits 0 false (pretty_N_go x s) = int_digits (Z.of_N x) true s.
Proof.
  induction x as [x IH] using (well_founded_induction N.lt_wf_0). intros Hx s. rewrite pretty_N_go_step by lia.
  assert (Hstep : ∀ a b, int_digits a b (String (pretty_N_char (x mod 10)) s) = int_digits (10 * a + Z.of_N (x mod 10)) true s).
  { assert (Hd : (x mod 10 < 10)%N) by (apply N.mod_lt; lia). revert Hd. generalize (x mod 10)%N. intros d Hd a b.
    cbn [int_digits]. rewrite digit_char by done. rewrite (proj2 (andb_true_iff _ _)) by lia. f_equal. lia. }
  assert (Hdm : (x = 10 * (x / 10) + x mod 10)%N) by (apply N.div_mod; lia).
  assert (Hz : 10 * Z.of_N (x / 10) + Z.of_N (x mod 10) = Z.of_N x).
  { revert Hdm. generalize (x / 10)%N (x mod 10)%N. intros; lia. }
  destruct (decide (x / 10 = 0)%N) as [E|E].
  - rewrite E in *. change (pretty_N_go 0 ?t) with t. rewrite Hstep. by f_equal.
  - rewrite IH; [by rewrite Hstep, Hz|apply N.div_lt; lia|by apply N.neq_0_lt_0].
Qed.
Lemma lstrip_id s : all_chars (λ c, py_space c = false) s → lstrip s = s.
Proof. destruct s as [|c s]; [done|]. intros [Hc _]%all_chars_cons. cbn. by rewrite Hc. Qed.
Lemma rstrip_id s : all_chars (λ c, py_space c = false) s → rstrip s = s.
Proof. induction s as [|c s IH]; [done|]. intros [Hc Hs]%all_chars_cons. cbn. rewrite (IH Hs). destruct s; [by rewrite Hc|done]. Qed.
Lemma digit_not_space c : is_digit c → py_space c = false.
Proof.
  unfold is_digit, py_space, is_space. generalize (N_of_ascii c). intros n [H1%Z.leb_le _]%Is_true_true%andb_true_iff.
  rewrite !orb_false_iff, !andb_false_iff. split_and!; [apply N.eqb_neq; lia|right; apply N.leb_gt; lia..].
Qed.
Lemma py_int_pretty z : 0 ≤ z → py_int (pretty z) = Ok z.
Proof.
  intros Hz. pose proof (pretty_digits z Hz) as Hd. unfold py_int, strip.
  assert (Hs : all_chars (λ c, py_space c = false) (pretty z)) by (intros c Hc; by apply digit_not_space, Hd).
  rewrite lstrip_id, rstrip_id by done.
  assert (Hv : int_digits 0 false (pretty z) = Some z).
  { destruct z as [|q|q]; [done| |lia]. change (pretty (Z.pos q)) with (pretty (N.pos q)). unfold pretty, pretty_N.
    rewrite decide_False by done. by rewrite int_digits_go by done. }
  destruct (pretty z) as [|c t] eqn:E; [done|]. apply all_chars_cons in Hd as [Hc _].
  clear Hs E. revert Hv. destruct c as [[] [] [] [] [] [] [] []]; try (by destruct Hc); intros Hv; by rewrite Hv.
Qed.
Lemma split_append c a b : split c (a +:+ String c b) = split c a ++ split c b.
Proof.
  induction a as [|x a IH]; rewrite ?append_nil, ?append_cons; cbn [split]; [by rewrite Ascii.eqb_refl|].
  rewrite IH. destruct (Ascii.eqb c x); [done|]. destruct (split c a) as [|h t] eqn:E; [|done].
  exfalso. destruct a as [|y a]; [done|]. cbn in E. destruct (Ascii.eqb c y); [done|]. by destruct (split c a).
Qed.
Lemma split_none c a : all_chars (λ x, x ≠ c) a → split c a = [a].
Proof.
  induction a as [|x a IH]; [done|]. intros [Hx Ha]%all_chars_cons. cbn [split]. rewrite (IH Ha).
  by rewrite (proj2 (Ascii.eqb_neq c x)) by congruence.
Qed.
Lemma digits_avoid z c : 0 ≤ z → ¬ is_digit c → all_chars (λ x, x ≠ c) (pretty z).
Proof. intros Hz Hc x Hx ->. by apply Hc, (pretty_digits z). Qed.
Lemma peers_name_inj i j : peers_name i = peers_name j → i = j.
Proof.
  intros E. apply (inj (String.append "peers_")) in E. change ".txt"%string with (String "." "txt") in E.
  apply append_dot in E; [by apply (inj pretty)|apply pretty_no_dot..].
Qed.
Lemma seed_name_inj i j : seed_name i = seed_name j → i = j.
Proof.
  intros E. apply (inj (String.append "pj_")) in E. change ".seed"%string with (String "." "seed") in E.
  apply append_dot in E; [by apply (inj pretty)|apply pretty_no_dot..].
Qed.

Lemma write_peers_run l : (∀ i p p', (i, p) ∈ l → (i, p') ∈ l → p = p') → ∀ fs, ∃ fs',
  write_peers l fs = (Ok tt, fs') ∧ (∀ i p, (i, p) ∈ l → fs' !! peers_name i = Some (Text p)) ∧
  ∀ f, (∀ i p, (i, p) ∈ l → f ≠ peers_name i) → fs' !! f = fs !! f.
Proof.
  induction l as [|[i p] l IH]; intros Hf fs.
  { exists fs. split_and!; [done| |done]. intros i p H. by apply not_elem_of_nil in H. }
  destruct (IH ltac:(intros j q q' H1 H2; eapply Hf; right; eassumption) (<[peers_name i := Text p]> fs)) as (fs' & Hr & Hp & Hk).
  exists fs'. split_and!; [done| |].
  - intros j q [E|Hj]%elem_of_cons; [|by apply Hp]. apply pair_equal_spec in E as [-> ->].
    destruct (decide ((i, p) ∈ l)) as [Hq|Hn]; [by apply Hp|].
    rewrite Hk; [by rewrite lookup_insert_eq|]. intros j q Hj E%peers_name_inj. subst j. apply Hn.
    by rewrite (Hf i p q ltac:(by left) ltac:(by right)).
  - intros f Hne. rewrite Hk by (intros j q Hj; apply (Hne j q); by right). rewrite lookup_insert_ne; [done|]. intros <-. by apply (Hne i p); [left|].
Qed.
Lemma peer_lists_fun nodes i p p' : (i, p) ∈ peer_lists nodes → (i, p') ∈ peer_lists nodes → p = p'.
Proof.
  unfold peer_lists. rewrite !list_elem_of_In, !in_map_iff. intros (n & E & _) (n' & E' & _).
  apply pair_equal_spec in E as [Ei <-], E' as [Ei' <-]. by rewrite Ei, Ei'.
Qed.

(** The seed names of the rows [topology] makes *)
Definition seeds_named (nodes : list node) : Prop := ∀ n, n ∈ nodes → n_role n = Polkajam → n_seed n = Some (seed_name (n_index n)).
Lemma topology_named acct clients base rpc host : ∀ i vals nodes,
  topology_from acct i clients base rpc host = Ok (vals, nodes) → seeds_named nodes.
Proof.
  induction clients as [|c clients IH]; intros i vals nodes; cbn [topology_from].
  { intros [= <- <-] n Hn. by apply not_elem_of_nil in Hn. }
  intros H. apply bind_ok in H as (a & _ & H). apply bind_ok in H as ([vals' nodes'] & Hr & H). injection H as _ <-.
  intros n [->|Hn]%elem_of_cons Hrole; [destruct c; done|]. by eapply IH.
Qed.
Lemma write_seeds_run nodes : seeds_named nodes → ∀ fs r fs', write_seeds nodes fs = (r, fs') →
  (∀ f, (∀ i, f ≠ seed_name i) → fs' !! f = fs !! f) ∧
  (r = Ok tt → (∀ i c, fs !! seed_name i = Some c → ∃ c', fs' !! seed_name i = Some c' ∧ (c' = c ∨ ∃ b, dev_seed i = Ok b ∧ c' = Seed b)) ∧
     ∀ n, n ∈ nodes → n_role n = Polkajam → ∃ b, dev_seed (n_index n) = Ok b ∧ fs' !! seed_name (n_index n) = Some (Seed b)).
Proof.
  induction nodes as [|n nodes IH]; intros Hn fs r fs' H; cbn [write_seeds] in H.
  { injection H as <- <-. split; [done|]. intros _. split; [by eauto|]. intros n H. by apply not_elem_of_nil in H. }
  assert (Hn' : seeds_named nodes) by (intros m Hm; apply Hn; by right).
  assert (Hskip : n_role n ≠ Polkajam → write_seeds nodes fs = (r, fs')).
  { intros Hr. destruct (n_role n); [exact H|done|exact H|exact H]. }
  destruct (decide (n_role n = Polkajam)) as [Hr|Hr].
  2:{ destruct (IH Hn' fs r fs' (Hskip Hr)) as [H1 H2]. split; [done|]. intros E. destruct (H2 E) as [H3 H4]. split; [done|].
      intros m [->|Hm]%elem_of_cons; [done|by apply H4]. }
  rewrite Hr, (Hn n ltac:(left) Hr) in H. unfold mbind, SE_bind, se_lift, write, se_put in H.
  destruct (dev_seed (n_index n)) as [b|e] eqn:Eb; [|by injection H as <- <-]. cbn in H.
  destruct (IH Hn' _ r fs' H) as [H1 H2]. split.
  - intros f Hf. rewrite H1 by done. rewrite lookup_insert_ne; [done|]. by apply not_eq_sym.
  - intros E. destruct (H2 E) as [H3 H4]. split.
    + intros i c Hc. destruct (decide (i = n_index n)) as [->|Hne].
      * destruct (H3 (n_index n) (Seed b)) as (c' & Hc' & Hor); [by rewrite lookup_insert_eq|]. exists c'. split; [done|]. right.
        destruct Hor as [->|?]; eauto.
      * apply H3. rewrite lookup_insert_ne; [done|]. intros Es%seed_name_inj. by subst.
    + intros m [->|Hm]%elem_of_cons Hrole; [|by apply H4]. exists b. split; [done|].
      destruct (H3 (n_index n) (Seed b)) as (c' & Hc' & Hor); [by rewrite lookup_insert_eq|]. rewrite Hc'. f_equal.
      destruct Hor as [->|(b' & Hb' & ->)]; [done|]. rewrite Eb in Hb'. congruence.
Qed.

(** *** A run of [mint] *)
Section mint.
Context (tl : tools) (env : gmap string string).

Definition keeps (f : string) (fs fs' : files) : Prop := fs' !! f = fs !! f.
#[local] Instance keeps_transition f : Transition (keeps f).
Proof. split; unfold keeps; [done|congruence]. Qed.
Lemma rel_write f g c : g ≠ f → rel (keeps f) (write g c).
Proof. intros H. apply rel_put. intros fs. unfold keeps. by rewrite lookup_insert_ne. Qed.
Lemma inject_keeps f sp : f ≠ "genesis_accounts.json" → f ≠ "spec.json" → rel (keeps f) (inject_service tl env sp).
Proof. intros H1 H2. unfold inject_service. rel_step; apply rel_write; congruence. Qed.
Lemma inject_spec sp fs sp' fs' : inject_service tl env sp fs = (Ok (Some sp'), fs') →
  fs !! "spec.json" = Some (SpecJson sp) → fs' !! "spec.json" = Some (SpecJson sp').
Proof.
  intros H Hs. unfold inject_service in H. case_match; [|by injection H as <- <-].
  apply se_bind_ok in H as (g & fs1 & H1%lift_ok & H). destruct H1 as [_ ->].
  apply se_bind_ok in H as (seed & fs2 & _ & H). case_match; [|done].
  apply se_bind_ok in H as ([] & fs3 & H3 & H). injection H as <- <-. unfold write, se_put in H3. injection H3 as <-. by rewrite lookup_insert_eq.
Qed.
(** The minter ends with the marker and everything it announces, or without the marker. *)
Definition minted (top : result (list validator * list node)) (r : result status) (fs' : files) : Prop :=
  (∃ cs t vals, r = Ok (Minted cs) ∧ is_Some (fs' !! "ready") ∧ announces t fs' ∧ top = Ok (vals, tp_nodes t)) ∨ (fs' !! "ready" = None ∧ ∀ cs, r ≠ Ok (Minted cs)).

Lemma name_ne (a b : string) (x y : ascii) : x ≠ y → String x a ≠ String y b.
Proof. congruence. Qed.
Lemma not_peers f : String.get 0 f ≠ Some "p"%char → ∀ i, f ≠ peers_name i.
Proof. intros H i ->. by apply H. Qed.
Lemma not_seed f : String.get 0 f ≠ Some "p"%char → ∀ i, f ≠ seed_name i.
Proof. intros H i ->. by apply H. Qed.
Lemma peers_not_seed i j : peers_name i ≠ seed_name j.
Proof. intros E. discriminate (f_equal (String.get 1) E). Qed.

Lemma finish_run sp clients fs r fs' : finish tl sp clients fs = (r, fs') → fs !! "ready" = None →
  (r = Ok (Minted clients) ∧ is_Some (fs' !! "ready") ∧ is_Some (fs' !! "genesis_hex") ∧
   ∀ f, f ≠ "genesis_hex" → f ≠ "ready" → fs' !! f = fs !! f) ∨ (fs' !! "ready" = None ∧ ∀ cs, r ≠ Ok (Minted cs)).
Proof.
  intros H Hr. unfold finish, mbind, SE_bind, se_lift, write, se_put in H.
  destruct (match sp_header sp with Some h => fromhex h | None => _ end) as [gh|e]; [|injection H as <- <-; right; split; [done|congruence]].
  cbn [mret SE_ret] in H. injection H as <- <-. left. split; [done|]. rewrite lookup_insert_eq. split; [eauto|].
  split; [rewrite lookup_insert_ne, lookup_insert_eq by done; eauto|]. intros f H1 H2. by rewrite !lookup_insert_ne.
Qed.

Lemma mint_run clients base rpc host fs r fs' : mint tl env clients base rpc host fs = (r, fs') → fs !! "ready" = None →
  minted (topology (t_dev_account tl) clients base rpc host) r fs'.
Proof.
  intros H Hr. unfold mint in H. unfold mbind at 1, SE_bind at 1, se_lift at 1 in H.
  destruct (topology _ _ _ _ _) as [[vals nodes]|e] eqn:Et; [|injection H as <- <-; right; split; [done|congruence]].
  unfold mbind at 1, SE_bind at 1, write at 1, se_put at 1 in H. set (fs1 := <["cfg.json" := _]> fs) in H.
  assert (Hr1 : fs1 !! "ready" = None) by (unfold fs1; by rewrite lookup_insert_ne).
  destruct (t_gen_spec tl vals) as [sp|]; [|injection H as <- <-; right; split; [done|congruence]].
  unfold mbind at 1, SE_bind at 1, write at 1, se_put at 1 in H. set (fs2 := <["spec.json" := _]> fs1) in H.
  assert (Hr2 : fs2 !! "ready" = None) by (unfold fs2; by rewrite lookup_insert_ne).
  unfold mbind at 1, SE_bind at 1, se_lift at 1 in H. destruct (bootnode nodes) as [boot|e]; [|injection H as <- <-; right; split; [done|congruence]].
  unfold mbind at 1, SE_bind at 1, write at 1, se_put at 1 in H. set (fs3 := <["nodes.json" := _]> fs2) in H.
  destruct (write_peers_run (peer_lists nodes) (peer_lists_fun nodes) fs3) as (fs4 & Hp & Hpl & Hpk).
  unfold mbind at 1, SE_bind at 1 in H. rewrite Hp in H. unfold mbind at 1, SE_bind at 1 in H.
  destruct (write_seeds nodes fs4) as [rs fs5] eqn:Es.
  destruct (write_seeds_run nodes (topology_named _ _ _ _ _ _ _ _ Et) _ _ _ Es) as [Hsk Hss].
  assert (Hkeep : ∀ f, String.get 0 f ≠ Some "p"%char → fs5 !! f = fs3 !! f).
  { intros f Hf. rewrite Hsk by (by apply not_seed). apply Hpk. intros. by apply not_peers. }
  assert (Hr5 : fs5 !! "ready" = None) by (rewrite Hkeep by done; unfold fs3; by rewrite lookup_insert_ne).
  destruct rs as [[]|e]; [|injection H as <- <-; right; split; [done|congruence]].
  destruct (sp_header sp) as [hd|]; [|injection H as <- <-; right; split; [done|congruence]].
  destruct (sp_state sp) as [stt|]; [|injection H as <- <-; right; split; [done|congruence]].
  unfold mbind at 1, SE_bind at 1 in H. destruct (inject_service tl env sp fs5) as [ri fs6] eqn:Ei.
  assert (Hik : ∀ f, f ≠ "genesis_accounts.json" → f ≠ "spec.json" → fs6 !! f = fs5 !! f).
  { intros f H1 H2. pose proof (inject_keeps f sp H1 H2 fs5) as Hk. by rewrite Ei in Hk. }
  assert (Hr6 : fs6 !! "ready" = None) by (by rewrite Hik).
  destruct ri as [[sp'|]|e]; [|injection H as <- <-; right; split; [done|congruence]..].
  assert (Hs6 : fs6 !! "spec.json" = Some (SpecJson sp')).
  { eapply inject_spec; [exact Ei|]. rewrite Hkeep by done. unfold fs3. rewrite lookup_insert_ne by done. unfold fs2. by rewrite lookup_insert_eq. }
  destruct (finish_run sp' clients fs6 r fs' H Hr6) as [(-> & Hrd & Hgh & Hfk)|?]; [|by right]. left.
  exists clients, (Topo nodes boot base rpc), vals. split; [done|]. split; [done|]. split; [|reflexivity].
  exists sp'. destruct (Hss eq_refl) as [_ Hseed]. cbn [tp_nodes]. split_and!.
  - rewrite Hfk, Hik, Hkeep by done. unfold fs3. by rewrite lookup_insert_eq.
  - by rewrite Hfk.
  - done.
  - intros i p Hin. rewrite Hfk, Hik; [|discriminate..]. rewrite Hsk by (intros j; apply peers_not_seed). by apply Hpl.
  - intros n Hn Hrole. destruct (Hseed n Hn Hrole) as (b & Hb & Hf). exists b. split; [done|]. by rewrite Hfk, Hik by discriminate.
Qed.
Lemma finish_clients sp clients fs cs fs' : finish tl sp clients fs = (Ok (Minted cs), fs') → cs = clients.
Proof.
  unfold finish. intros H. apply se_bind_ok in H as (gh & fs1 & _ & H). apply se_bind_ok in H as ([] & fs2 & _ & H).
  apply se_bind_ok in H as ([] & fs3 & _ & H). by injection H.
Qed.
Lemma mint_clients clients base rpc host fs cs fs' : mint tl env clients base rpc host fs = (Ok (Minted cs), fs') → cs = clients.
Proof.
  unfold mint. intros H. apply se_bind_ok in H as ([vals nodes] & fs1 & _ & H). apply se_bind_ok in H as ([] & fs2 & _ & H).
  destruct (t_gen_spec tl vals) as [sp|]; [|done].
  apply se_bind_ok in H as ([] & fs3 & _ & H). apply se_bind_ok in H as (boot & fs4 & _ & H). apply se_bind_ok in H as ([] & fs5 & _ & H).
  apply se_bind_ok in H as ([] & fs6 & _ & H). apply se_bind_ok in H as ([] & fs7 & _ & H).
  destruct (sp_header sp), (sp_state sp); try done. apply se_bind_ok in H as ([sp'|] & fs8 & _ & H); [|done]. by apply finish_clients in H.
Qed.
End mint.

(** (C33) The shared volume through any run of the minter, whatever the environment and the tools answer: if the marker [ready] is
    there before, with what it announces, the run changes nothing (a second genesis would split the net); otherwise the run either
    ends as minted, with the marker, the spec, the node table, every node's peer list and the seed of every PolkaJam validator in
    place, or ends without the marker. An entrypoint that sees the marker therefore always finds the files it waits for. *)
Theorem ready_means_complete tl env fs :
  (is_Some (fs !! "ready") → complete fs) →
  let '(r, fs') := main tl env fs in
  (is_Some (fs' !! "ready") → complete fs') ∧
  (is_Some (fs !! "ready") → fs' = fs) ∧
  (∀ cs, r = Ok (Minted cs) → is_Some (fs' !! "ready") ∧ complete fs').
Proof.
  intros Hinv. destruct (main tl env fs) as [r fs'] eqn:H. unfold main in H. unfold mbind, SE_bind, se_lift, se_get in H.
  assert (Hdone : fs' = fs → (∀ cs, r ≠ Ok (Minted cs)) → (is_Some (fs' !! "ready") → complete fs') ∧ (is_Some (fs !! "ready") → fs' = fs) ∧
    ∀ cs, r = Ok (Minted cs) → is_Some (fs' !! "ready") ∧ complete fs').
  { intros -> Hr. split_and!; [done..|]. intros cs ->. by destruct (Hr cs). }
  do 3 (match type of H with context [match ?x with Ok _ => _ | Raise _ => _ end] => destruct x end; [|injection H as <- <-; by apply Hdone]).
  destruct (parse_clients (layout env)) as [clients|[]]; try (injection H as <- <-; by apply Hdone).
  destruct (bool_decide (is_Some (fs !! "ready")) && bool_decide (is_Some (fs !! "spec.json"))) eqn:Eh; [injection H as <- <-; by apply Hdone|].
  assert (Hnr : fs !! "ready" = None).
  { destruct (fs !! "ready") as [c|] eqn:Er; [|done]. exfalso. destruct (Hinv ltac:(eauto)) as (t & sp & _ & Hs & _).
    rewrite Hs in Eh. rewrite !bool_decide_true in Eh by eauto. done. }
  assert (Hmint : ∀ host, mint tl env clients a a0 host fs = (r, fs') → (is_Some (fs' !! "ready") → complete fs') ∧ (is_Some (fs !! "ready") → fs' = fs) ∧
    ∀ cs, r = Ok (Minted cs) → is_Some (fs' !! "ready") ∧ complete fs').
  { intros host Hm. destruct (mint_run tl env clients a a0 host fs r fs' Hm Hnr) as [(cs & t & vals & -> & Hrd & Hc & _)|[Hrd Hr]].
    - assert (complete fs') by (by exists t). split_and!; [done| |done]. rewrite Hnr. by intros [? ?].
    - split_and!; [rewrite Hrd; by intros [? ?]|rewrite Hnr; by intros [? ?]|]. intros cs E. by destruct (Hr cs). }
  destruct (bool_decide (Lasair ∈ clients)); [|eapply Hmint, H]. destruct (check_against_lasair _ _) as [[i|]|e]; [injection H as <- <-; by apply Hdone|eapply Hmint, H|injection H as <- <-; by apply Hdone].
Qed.


(** A run on an empty volume *)
Definition sample_account (i : Z) : result account :=
  if (0 <=? i) && (i <? 6) then Ok (Account "" "" "00" "11" ("e" +:+ pretty i)) else Raise (ValueError "no key").
Definition sample_tools : tools := Tools sample_account
  (λ i, {["bandersnatch" := "11"; "ed25519" := "00"; "peer_id" := "e" +:+ pretty i]})%string
  (λ _, Some (Spec (Some "c0ffee") (Some 3%nat))) (λ sp _ _, Some sp) (λ _, true) (λ b, b ++ replicate 29 7).
Definition sample_env : gmap string string :=
  {["CLIENTS" := "lasair, PJ,pj"; "IP_BASE" := "10.231.6"; "BASE_PORT" := "41600"; "RPC_BASE" := "42600"; "SERVICE" := "/work/s.jam"]}%string.
Definition sample_run := main sample_tools sample_env ∅.
Definition was_minted (r : result status) : bool := match r with Ok (Minted _) => true | _ => false end.
Example sample_files : was_minted sample_run.1 = true ∧
  sample_run.2 !! "genesis_hex"%string = Some (Text "c0ffee07") ∧
  sample_run.2 !! "peers_1.txt"%string = Some (Text "10.231.6.10:41600@e0,10.231.6.12:41602@e2").
Proof. split_and!; vm_compute; reflexivity. Qed.
Lemma ready_means_complete_witness : is_Some (sample_run.2 !! "ready") ∧ complete sample_run.2.
Proof.
  pose proof (ready_means_complete sample_tools sample_env ∅) as H. fold sample_run in H. pose proof (proj1 sample_files) as Hm.
  destruct sample_run as [r fs]. destruct H as (_ & _ & H); [by intros [? ?]|]. cbn in Hm |- *. destruct r as [[cs| |]|]; try done. by apply (H cs).
Defined.

(** ** The seeded storage, in bytes

    [lasair --seed-service-storage] writes each hex key of the file with its hex value. *)
Definition decode_pair (kv : string * string) : option (list Z * list Z) :=
  match fromhex kv.1, fromhex kv.2 with Ok k, Ok v => Some (k, v) | _, _ => None end.
Definition seed_storage (kv : gmap string string) : gmap (list Z) (list Z) := list_to_map (omap decode_pair (map_to_list kv)).

Definition dev_keys : list bytes := Eval vm_compute in map (λ s, match fromhex s with Ok k => k | Raise _ => [] end) dev_pubs.
Fixpoint seed_accounts (va : bytes) (h : Z) (ps : list bytes) : list (list Z * list Z) :=
  match ps with
  | [] => []
  | p :: rest => (Accounts.hkey p, le_bytes 4 h) :: (Accounts.mkey "pk" h, p) ::
      map (λ a, (Accounts.bal_key a h, va)) ASSETS ++ seed_accounts va (h + 1) rest
  end.
Definition seed_rows (va vc : bytes) : list (list Z * list Z) :=
  seed_accounts va 1 dev_keys ++ (Accounts.ascii "nexthandle", le_bytes 4 7) :: map (λ a, (Accounts.cust_key a, vc)) ASSETS.
Definition hex_pair (kv : list Z * list Z) : string * string := (hex kv.1, hex kv.2).

Lemma to_bytes_exact n x : fits n x = true → to_bytes n x = Ok (le_bytes n x).
Proof. intros H. unfold to_bytes. by rewrite H. Qed.
Lemma to_bytes_raise n x : fits n x = false → to_bytes n x = Raise OverflowError.
Proof. intros H. unfold to_bytes. by rewrite H. Qed.
Lemma ascii_agree s : Accounts.ascii s = ascii_bytes s.
Proof.
  unfold Accounts.ascii, ascii_bytes. apply map_ext. intros c. unfold nat_of_ascii. by rewrite N_nat_Z.
Qed.

Lemma account_rows_ok atomic h p : wf_bytes p → fits 4 h = true → fits 8 atomic = true →
  account_rows atomic ASSETS h (hex p) = Ok (map hex_pair (seed_accounts (le_bytes 8 atomic) h [p])).
Proof.
  intros Hp Hh Ha. unfold account_rows. rewrite fromhex_hex by done. cbn [mbind result_bind]. rewrite to_bytes_exact by done. cbn [mbind result_bind].
  unfold ASSETS. cbn [mapM]. unfold asset_row. rewrite !(to_bytes_exact 8 atomic) by done. reflexivity.
Qed.
Lemma seed_accounts_cons va h p ps : seed_accounts va h (p :: ps) = seed_accounts va h [p] ++ seed_accounts va (h + 1) ps.
Proof. reflexivity. Qed.
Lemma accounts_rows_ok atomic ps : Forall wf_bytes ps → fits 8 atomic = true → ∀ h, 0 ≤ h → h + Z.of_nat (length ps) ≤ 2 ^ 32 →
  accounts_rows atomic ASSETS h (map hex ps) = Ok (map hex_pair (seed_accounts (le_bytes 8 atomic) h ps)).
Proof.
  intros Hps Ha. induction Hps as [|p ps Hp Hps IH]; intros h H0 Hl; [done|]. cbn [map accounts_rows]. cbn [length] in Hl.
  rewrite account_rows_ok; [|done|apply fits_spec; cbn; lia|done]. cbn [mbind result_bind]. rewrite IH by lia. cbn [mbind result_bind].
  by rewrite <- List.map_app, <- seed_accounts_cons.
Qed.
Lemma dev_keys_pubs : dev_pubs = map hex dev_keys ∧ Forall (λ k, wf_bytes k ∧ length k = 32%nat) dev_keys.
Proof. split; [vm_compute; reflexivity|]. apply (bool_decide_eq_true_1 _). vm_compute. reflexivity. Qed.
Lemma genesis_rows_ok balance : 0 ≤ balance * SCALE * 6 < 2 ^ 64 →
  genesis_rows balance ASSETS = Ok (map hex_pair (seed_rows (le_bytes 8 (balance * SCALE)) (le_bytes 8 (balance * SCALE * 6)))).
Proof.
  intros Hb. destruct dev_keys_pubs as [Hk Hw]. unfold genesis_rows. rewrite Hk. set (at_ := balance * SCALE) in *.
  assert (Ha : fits 8 at_ = true) by (apply fits_spec; cbn; lia). assert (Hc : fits 8 (at_ * 6) = true) by (by apply fits_spec).
  rewrite accounts_rows_ok; [|eapply Forall_impl; [exact Hw|by intros ? [? ?]]|done|lia|done]. cbn [mbind result_bind].
  rewrite length_map. change (Z.of_nat (length dev_keys)) with 6. rewrite to_bytes_exact by done. cbn [mbind result_bind].
  unfold ASSETS. cbn [mapM]. unfold custody_row. rewrite !(to_bytes_exact 8 (at_ * 6)) by done. unfold seed_rows. rewrite List.map_app. reflexivity.
Qed.
Lemma genesis_rows_overflow balance : ¬ 0 ≤ balance * SCALE * 6 < 2 ^ 64 → genesis_rows balance ASSETS = Raise OverflowError.
Proof.
  intros Hb. destruct dev_keys_pubs as [Hk Hw]. unfold genesis_rows. set (at_ := balance * SCALE) in *.
  destruct (fits 8 at_) eqn:Ha.
  - rewrite Hk, accounts_rows_ok; [|eapply Forall_impl; [exact Hw|by intros ? [? ?]]|done|lia|done]. cbn [mbind result_bind].
    rewrite length_map. change (Z.of_nat (length dev_keys)) with 6. rewrite to_bytes_exact by done. cbn [mbind result_bind].
    assert (Hc : fits 8 (at_ * 6) = false) by (destruct (fits 8 (at_ * 6)) eqn:E; [by apply fits_spec in E|done]).
    unfold ASSETS. cbn [mapM]. unfold custody_row. by rewrite (to_bytes_raise 8 (at_ * 6) Hc).
  - change dev_pubs with (hex (default [] (dev_keys !! 0%nat)) :: map hex (drop 1 dev_keys)). cbn [accounts_rows].
    unfold account_rows. rewrite fromhex_hex by (apply (bool_decide_eq_true_1 _); vm_compute; reflexivity). cbn [mbind result_bind].
    rewrite to_bytes_exact by done. cbn [mbind result_bind]. unfold ASSETS. cbn [mapM]. unfold asset_row. by rewrite (to_bytes_raise 8 at_ Ha).
Qed.
(** *** Reading the dict back *)
Lemma hex_inj k k' : wf_bytes k → wf_bytes k' → hex k = hex k' → k = k'.
Proof. intros H H' E. apply (f_equal fromhex) in E. rewrite !fromhex_hex in E by done. by injection E. Qed.
Lemma foldl_insert_map (rows : list (string * string)) : NoDup rows.*1 →
  foldl (λ kv '(k, v), <[k := v]> kv) ∅ rows = (list_to_map rows : gmap string string).
Proof.
  intros Hnd. rewrite (list_to_map_proper rows (reverse rows)) by (done || by rewrite reverse_Permutation).
  induction rows as [|[k v] rows IH] using rev_ind; [done|]. rewrite foldl_app, reverse_snoc. cbn.
  f_equal. apply IH. rewrite fmap_app in Hnd. by apply NoDup_app in Hnd as [? _].
Qed.
Definition pair_wf (kv : list Z * list Z) : Prop := wf_bytes kv.1 ∧ wf_bytes kv.2.
Lemma hexed_keys_nodup (l : list (list Z * list Z)) : Forall pair_wf l → NoDup l.*1 → NoDup (map hex_pair l).*1.
Proof.
  induction 1 as [|kv l Hkv Hl IH]; intros Hnd; [constructor|]. cbn in Hnd |- *. apply NoDup_cons in Hnd as [Hni Hnd].
  constructor; [|by apply IH]. intros Hin. apply Hni. apply list_elem_of_fmap in Hin as (hkv & Ek & Hin).
  apply list_elem_of_In, in_map_iff in Hin as (kv' & <- & Hin%list_elem_of_In). rewrite Forall_forall in Hl.
  cbn in Ek. apply hex_inj in Ek; [|apply Hkv|by apply Hl]. rewrite Ek. by apply list_elem_of_fmap_2.
Qed.
Lemma decode_hexed l : Forall pair_wf l → omap decode_pair (map hex_pair l) = l.
Proof.
  induction 1 as [|[k v] l [Hk Hv] Hl IH]; [done|]. cbn in *. unfold decode_pair at 1. cbn [fst snd hex_pair].
  rewrite !fromhex_hex by done. by rewrite IH.
Qed.
Lemma seed_storage_rows (l : list (list Z * list Z)) : Forall pair_wf l → NoDup l.*1 →
  seed_storage (foldl (λ kv '(k, v), <[k := v]> kv) ∅ (map hex_pair l)) = list_to_map l.
Proof.
  intros Hl Hnd. unfold seed_storage. pose proof (hexed_keys_nodup l Hl Hnd) as Hnh. rewrite foldl_insert_map by done.
  assert (Hp : omap decode_pair (map_to_list (list_to_map (map hex_pair l) : gmap string string)) ≡ₚ l).
  { rewrite map_to_list_to_map by done. by rewrite decode_hexed. }
  symmetry. apply list_to_map_proper; [done|]. by symmetry.
Qed.

(** *** The rows *)
Section rows.
Context (va vc : bytes).
Hypothesis Hva : wf_bytes va.
Hypothesis Hvc : wf_bytes vc.
Notation W := (seed_rows va vc).

Lemma elem_of_accounts ps : ∀ h kv, kv ∈ seed_accounts va h ps ↔ ∃ (i : nat) p, ps !! i = Some p ∧
  (kv = (Accounts.hkey p, le_bytes 4 (h + Z.of_nat i)) ∨ kv = (Accounts.mkey "pk" (h + Z.of_nat i), p) ∨
   ∃ a, a ∈ ASSETS ∧ kv = (Accounts.bal_key a (h + Z.of_nat i), va)).
Proof.
  induction ps as [|p ps IH]; intros h kv; cbn [seed_accounts].
  { split; [intros Hin; by apply not_elem_of_nil in Hin|by intros (i & p & ? & _)]. }
  rewrite !elem_of_cons, elem_of_app, IH, list_elem_of_In, in_map_iff. split.
  - intros [->|[->|[(a & <- & Ha)|(i & q & Hi & H)]]].
    + exists 0%nat, p. rewrite Z.add_0_r. eauto.
    + exists 0%nat, p. rewrite Z.add_0_r. eauto.
    + exists 0%nat, p. rewrite Z.add_0_r. split; [done|]. right. right. exists a. by rewrite list_elem_of_In.
    + exists (S i), q. split; [done|]. by replace (h + Z.of_nat (S i)) with (h + 1 + Z.of_nat i) by lia.
  - intros ([|i] & q & Hi & H); cbn in Hi.
    + injection Hi as <-. rewrite Z.add_0_r in H. destruct H as [->|[->|(a & Ha & ->)]]; [by left|by right; left|].
      right. right. left. exists a. by rewrite <- list_elem_of_In.
    + right. right. right. exists i, q. split; [done|]. by replace (h + 1 + Z.of_nat i) with (h + Z.of_nat (S i)) by lia.
Qed.
Lemma elem_of_rows kv : kv ∈ W ↔ (∃ (i : nat) p, dev_keys !! i = Some p ∧
    (kv = (Accounts.hkey p, le_bytes 4 (1 + Z.of_nat i)) ∨ kv = (Accounts.mkey "pk" (1 + Z.of_nat i), p) ∨
     ∃ a, a ∈ ASSETS ∧ kv = (Accounts.bal_key a (1 + Z.of_nat i), va))) ∨
  kv = (Accounts.ascii "nexthandle", le_bytes 4 7) ∨ ∃ a, a ∈ ASSETS ∧ kv = (Accounts.cust_key a, vc).
Proof.
  unfold seed_rows. rewrite elem_of_app, elem_of_accounts, elem_of_cons, list_elem_of_In, in_map_iff.
  do 2 f_equiv. f_equiv. intros a. rewrite list_elem_of_In. split; intros [? ?]; by split.
Qed.
Lemma rows_keys : W.*1 = (seed_rows [] []).*1.
Proof. reflexivity. Qed.
Lemma rows_nodup : NoDup W.*1.
Proof. rewrite rows_keys. apply (bool_decide_eq_true_1 _). vm_compute. reflexivity. Qed.
Lemma dev_key_facts i p : dev_keys !! i = Some p → wf_bytes p ∧ length p = 32%nat ∧ (i < 6)%nat.
Proof.
  intros Hi. destruct dev_keys_pubs as [_ Hw]. rewrite Forall_forall in Hw. destruct (Hw p) as [? ?]; [by eapply list_elem_of_lookup_2|].
  split_and!; [done..|]. by apply lookup_lt_Some in Hi.
Qed.
Lemma ascii_wf t : wf_bytes (Accounts.ascii t).
Proof.
  apply Forall_fmap, Forall_true. intros c. cbn. unfold is_byte. pose proof (nat_ascii_bounded c). lia.
Qed.
Lemma wf_app a b : wf_bytes a → wf_bytes b → wf_bytes (a ++ b).
Proof. intros. by apply Forall_app. Qed.
Lemma rows_wf : Forall pair_wf W.
Proof.
  apply Forall_forall. intros kv. rewrite elem_of_rows.
  intros [(i & p & Hi & [->|[->|(a & Ha & ->)]])|[->|(a & Ha & ->)]]; try destruct (dev_key_facts _ _ Hi) as [Hp _];
    (split; cbn [fst snd]; [|done || apply le_bytes_wf]); repeat first [apply wf_app | apply ascii_wf | apply le_bytes_wf | done].
Qed.

Notation st := (list_to_map W : gmap (list Z) (list Z)).
Lemma row_read k v : (k, v) ∈ W → st !! k = Some v.
Proof. apply elem_of_list_to_map_1, rows_nodup. Qed.
Lemma read_row k v : st !! k = Some v → (k, v) ∈ W.
Proof. apply elem_of_list_to_map_2. Qed.
(** *** What the service reads *)
Lemma seeded_next : Accounts.next_handle st = 7.
Proof.
  unfold Accounts.next_handle. rewrite (row_read (Accounts.ascii "nexthandle") (le_bytes 4 7)); [vm_compute; reflexivity|].
  apply elem_of_rows. eauto.
Qed.
Lemma index_u32 (i : nat) : (i < 6)%nat → Accounts.u32 (1 + Z.of_nat i).
Proof. unfold Accounts.u32. lia. Qed.
Lemma seeded_handle i p : dev_keys !! i = Some p → Accounts.handle_of st p = Some (1 + Z.of_nat i).
Proof.
  intros Hi. destruct (dev_key_facts i p Hi) as (_ & _ & Hlt). unfold Accounts.handle_of.
  rewrite (row_read _ (le_bytes 4 (1 + Z.of_nat i))) by (apply elem_of_rows; left; eauto 6).
  cbn [mbind option_bind]. rewrite le_bytes_length. cbn [Nat.leb]. f_equal. by apply Accounts.ru32_bytes, index_u32.
Qed.
Lemma seeded_pubkey i p : dev_keys !! i = Some p → Accounts.pubkey_of st (1 + Z.of_nat i) = Some p.
Proof.
  intros Hi. destruct (dev_key_facts i p Hi) as (_ & Hl & Hlt). unfold Accounts.pubkey_of.
  rewrite (row_read _ p) by (apply elem_of_rows; left; eauto 7). cbn [mbind option_bind]. rewrite Hl, take_ge by lia. done.
Qed.
Lemma seeded_bal i p a : dev_keys !! i = Some p → a ∈ ASSETS → Accounts.get_bal st a (1 + Z.of_nat i) = Accounts.le_u64 va.
Proof.
  intros Hi Ha. unfold Accounts.get_bal, Accounts.get_u64. rewrite (row_read _ va); [done|]. apply elem_of_rows. left. eauto 9.
Qed.
Lemma seeded_cust a : a ∈ ASSETS → Accounts.get_cust st a = Accounts.le_u64 vc.
Proof.
  intros Ha. unfold Accounts.get_cust, Accounts.get_u64. rewrite (row_read _ vc); [done|]. apply elem_of_rows. eauto.
Qed.
Lemma asset_u32 a : a ∈ ASSETS → Accounts.u32 a.
Proof. unfold ASSETS, Accounts.u32. rewrite !elem_of_cons, elem_of_nil. lia. Qed.
Lemma seeded_cust_none x : Accounts.u32 x → x ∉ ASSETS → Accounts.get_cust st x = 0.
Proof.
  intros Hx Hni. unfold Accounts.get_cust, Accounts.get_u64. destruct (st !! Accounts.cust_key x) as [v|] eqn:E; [|done]. exfalso.
  apply read_row, elem_of_rows in E. destruct E as [(i & p & Hi & [E|[E|(a & Ha & E)]])|[E|(a & Ha & E)]]; apply pair_equal_spec in E as [E _].
  - destruct (dev_key_facts i p Hi) as (_ & Hl & _). revert E. apply not_eq_sym, (Accounts.cust_key_ne x (Accounts.hkey p)). right. left. right. right. eauto.
  - revert E. apply not_eq_sym, Accounts.cust_key_ne. right. left. right. left. eauto.
  - revert E. apply not_eq_sym, Accounts.cust_key_ne. eauto.
  - revert E. apply not_eq_sym, Accounts.cust_key_ne. right. left. by left.
  - apply Accounts.mkey_inj in E; [|done|by apply asset_u32]. by subst.
Qed.
Lemma seeded_registry : Accounts.registry st.
Proof.
  split; rewrite ?seeded_next; [lia| |].
  - intros pk h Hl Hh. unfold Accounts.handle_of in Hh. destruct (st !! Accounts.hkey pk) as [v|] eqn:E; [|done]. cbn in Hh.
    apply read_row, elem_of_rows in E. destruct E as [(i & p & Hi & [E|[E|(a & Ha & E)]])|[E|(a & Ha & E)]].
    + apply pair_equal_spec in E as [E%Accounts.hkey_inj ->]. subst p. destruct (dev_key_facts i pk Hi) as (_ & _ & Hlt). rewrite le_bytes_length in Hh. cbn [Nat.leb] in Hh.
      apply (inj Some) in Hh. change (Accounts.ru32 (le_bytes 4 (1 + Z.of_nat i)) 0 = h) in Hh.
      rewrite Accounts.ru32_bytes in Hh by (by apply index_u32). subst h. split; [lia|]. by apply seeded_pubkey.
    + apply pair_equal_spec in E as [E _]. by apply (Accounts.pk_key_ne (1 + Z.of_nat i)) in Hl.
    + apply pair_equal_spec in E as [E _]. exfalso. eapply (Accounts.bal_not_reg a). right. right. eauto.
    + apply pair_equal_spec in E as [E _]. by apply Accounts.next_key_ne in Hl.
    + apply pair_equal_spec in E as [E _]. exfalso. eapply (Accounts.cust_not_reg a). right. right. eauto.
  - intros h pk Hh Hp. unfold Accounts.pubkey_of in Hp. destruct (st !! Accounts.mkey "pk" h) as [v|] eqn:E; [|done]. cbn in Hp.
    apply read_row, elem_of_rows in E. destruct E as [(i & p & Hi & [E|[E|(a & Ha & E)]])|[E|(a & Ha & E)]].
    + apply pair_equal_spec in E as [E _]. destruct (dev_key_facts i p Hi) as (_ & Hl & _). by apply (Accounts.pk_key_ne h) in Hl.
    + apply pair_equal_spec in E as [E ->]. destruct (dev_key_facts i p Hi) as (_ & Hl & Hlt). apply Accounts.mkey_inj in E; [|done|by apply index_u32].
      rewrite Hl, take_ge in Hp by lia. apply (inj Some) in Hp. subst pk. rewrite E. split; [done|]. by apply seeded_handle.
    + apply pair_equal_spec in E as [E _]. exfalso. eapply (Accounts.bal_not_reg a). right. left. eauto.
    + apply pair_equal_spec in E as [E _]. exfalso. revert E. Accounts.keyne.
    + apply pair_equal_spec in E as [E _]. exfalso. eapply (Accounts.cust_not_reg a). right. left. eauto.
Qed.

(** *** The total of each asset *)
Lemma total_rows (l : list (list Z * list Z)) x : NoDup l.*1 →
  Accounts.total x (list_to_map l) = zsum (λ kv, if Accounts.is_bal x kv.1 then Accounts.le_u64 kv.2 else 0) l.
Proof.
  induction l as [|[k v] l IH]; intros Hnd; [done|]. cbn in Hnd. apply NoDup_cons in Hnd as [Hni Hnd]. cbn [list_to_map foldr].
  rewrite Accounts.total_insert. fold (list_to_map l : gmap (list Z) (list Z)). rewrite IH by done. rewrite zsum_cons. cbn [fst snd].
  unfold Accounts.get_u64. rewrite not_elem_of_list_to_map_1 by done. case_match; lia.
Qed.
Definition asset_share (x : Z) : Z := if decide (x ∈ ASSETS) then Accounts.le_u64 va else 0.
Lemma total_accounts x ps : Accounts.u32 x → Forall (λ p, length p = 32%nat) ps → ∀ h,
  zsum (λ kv, if Accounts.is_bal x kv.1 then Accounts.le_u64 kv.2 else 0) (seed_accounts va h ps) = Z.of_nat (length ps) * asset_share x.
Proof.
  intros Hx Hps. induction Hps as [|p ps Hp Hps IH]; intros h; [done|]. cbn [seed_accounts length]. rewrite !zsum_cons, zsum_app, IH. cbn [fst snd].
  rewrite (Accounts.reg_not_bal x (Accounts.hkey p)) by (right; right; eauto).
  rewrite (Accounts.reg_not_bal x (Accounts.mkey "pk" h)) by (right; left; eauto). unfold ASSETS. cbn [map]. rewrite !zsum_cons, zsum_nil. cbn [fst snd].
  rewrite !Accounts.is_bal_key by (done || by apply asset_u32; unfold ASSETS; rewrite !elem_of_cons; auto).
  unfold asset_share, ASSETS. rewrite Nat2Z.inj_succ. repeat case_bool_decide; case_decide as Hd; try lia;
    rewrite !elem_of_cons, elem_of_nil in Hd; lia.
Qed.
Lemma seeded_total x : Accounts.u32 x → Accounts.total x st = 6 * asset_share x.
Proof.
  intros Hx. rewrite total_rows by apply rows_nodup. unfold seed_rows. rewrite zsum_app, zsum_cons, total_accounts; [|done|].
  - cbn [fst snd]. rewrite (Accounts.reg_not_bal x (Accounts.ascii "nexthandle")) by (by left). unfold ASSETS. cbn [map]. rewrite !zsum_cons, zsum_nil.
    cbn [fst snd]. rewrite !Accounts.cust_not_bal. change (Z.of_nat (length dev_keys)) with 6. lia.
  - eapply Forall_impl; [apply dev_keys_pubs|]. by intros ? [? ?].
Qed.
Lemma seeded_ledger : Accounts.le_u64 vc = 6 * Accounts.le_u64 va → Accounts.ledger_ok st.
Proof.
  intros Hc. split.
  - intros k v Hk%read_row. pose proof rows_wf as Hw. rewrite Forall_forall in Hw. apply (Hw _ Hk).
  - intros x Hx. rewrite seeded_total by done. unfold asset_share. case_decide; [by rewrite seeded_cust|by rewrite seeded_cust_none].
  - apply seeded_registry.
Qed.
End rows.
(** *** What the server reads *)
Definition reads_storage (st : gmap (list Z) (list Z)) (worlds : nat → world) : Prop := ∀ t k, w_read (worlds t) k = Ok (default [] (st !! k)).
Section server.
Context (st : gmap (list Z) (list Z)) (worlds : nat → world).
Hypothesis Hreads : reads_storage st worlds.

Lemma chain_read_storage k d : chain_read worlds k d = (Ok (default [] (st !! k)), next_tick d).
Proof. unfold chain_read, ask, se_lift, mbind, SE_bind. by rewrite Hreads. Qed.
Lemma server_handle pk h d : Accounts.stored st → Accounts.handle_of st pk = Some h → length pk = 32%nat →
  (∀ v, st !! Accounts.hkey pk = Some v → length v = 4%nat) → (handle_of worlds pk d).1 = Ok (Some h).
Proof.
  intros Hs Hh Hl Hv. unfold handle_of, mbind, SE_bind. change (text "h" ++ pk) with (Accounts.hkey pk). rewrite chain_read_storage.
  unfold Accounts.handle_of in Hh. destruct (st !! Accounts.hkey pk) as [v|] eqn:E; [|done]. cbn in Hh. specialize (Hv v eq_refl).
  rewrite Hv in Hh. cbn [Nat.leb] in Hh. apply (inj Some) in Hh. subst h. cbn [default].
  destruct v as [|b v]; [done|]. unfold Accounts.ru32, slice. rewrite drop_0, take_ge by lia. done.
Qed.
Lemma server_balance a h d : Accounts.u32 a → Accounts.u32 h → (∀ v, st !! Accounts.bal_key a h = Some v → length v = 8%nat) →
  (Door.balance worlds a h d).1 = Ok (Accounts.get_bal st a h).
Proof.
  intros Ha Hh Hv. unfold Door.balance, mbind, SE_bind, pack, pack_u, se_lift.
  rewrite (proj2 (fits_spec 4 a)), (proj2 (fits_spec 4 h)) by (unfold Accounts.u32 in *; cbn; lia). cbn [mbind result_bind]. rewrite app_nil_r.
  change (text "b" ++ le_bytes 4 a ++ le_bytes 4 h) with (Accounts.bal_key a h). rewrite chain_read_storage.
  unfold Accounts.get_bal, Accounts.get_u64. destruct (st !! Accounts.bal_key a h) as [v|] eqn:E; [|done]. specialize (Hv v eq_refl).
  unfold Accounts.le_u64. cbn [default mret SE_ret fst]. by rewrite take_ge by lia.
Qed.
Lemma server_key h p d : Accounts.u32 h → st !! Accounts.mkey "pk" h = Some p → length p = 32%nat → (signer_key worlds h d).1 = Ok p.
Proof.
  intros Hh Hp Hl. unfold signer_key, pubkey_of_handle, read4, key4, mbind, SE_bind, pack, pack_u, se_lift.
  rewrite (proj2 (fits_spec 4 h)) by (unfold Accounts.u32 in *; cbn; lia). cbn [mbind result_bind]. rewrite app_nil_r.
  change (text "pk" ++ le_bytes 4 h) with (Accounts.mkey "pk" h). rewrite chain_read_storage, Hp.
  cbn -[take]. rewrite Hl. cbn -[take]. by rewrite take_ge by lia.
Qed.
End server.

(** (C32) The accounts a net is born with. [genesis_accounts] either refuses with [OverflowError], exactly when six times the
    balance in atomic units does not fit 64 bits, or it writes a storage in which the service's ledger is in order (custody of
    every asset equals the sum of balances, keys and handles correspond, the next free handle is 7), and from which the server
    reads the six published keys under handles 1 to 6, each signing for its own handle and holding the balance of each asset. *)
Theorem genesis_seeds_ledger balance :
  match genesis_accounts balance ASSETS with
  | Ok kv =>
      let st := seed_storage kv in
      0 ≤ balance * SCALE * 6 < 2 ^ 64 ∧ Accounts.ledger_ok st ∧ Accounts.next_handle st = 7 ∧
      (∀ a, a ∈ ASSETS → Accounts.get_cust st a = balance * SCALE * 6) ∧
      ∀ worlds, reads_storage st worlds → ∀ (i : nat) p, dev_keys !! i = Some p → ∀ d,
        (handle_of worlds p d).1 = Ok (Some (1 + Z.of_nat i)) ∧ (signer_key worlds (1 + Z.of_nat i) d).1 = Ok p ∧
        ∀ a, a ∈ ASSETS → (Door.balance worlds a (1 + Z.of_nat i) d).1 = Ok (balance * SCALE)
  | Raise e => e = OverflowError ∧ ¬ 0 ≤ balance * SCALE * 6 < 2 ^ 64
  end.
Proof.
  unfold genesis_accounts. destruct (decide (0 ≤ balance * SCALE * 6 < 2 ^ 64)) as [Hb|Hb]; [|by rewrite genesis_rows_overflow].
  rewrite genesis_rows_ok by done. cbn [mbind result_bind]. set (va := le_bytes 8 (balance * SCALE)). set (vc := le_bytes 8 (balance * SCALE * 6)).
  assert (Hva : wf_bytes va) by apply le_bytes_wf. assert (Hvc : wf_bytes vc) by apply le_bytes_wf.
  rewrite seed_storage_rows by (by apply rows_wf || apply rows_nodup). cbv zeta.
  assert (Ea : Accounts.le_u64 va = balance * SCALE) by (apply Accounts.le_u64_bytes; unfold U64_MAX; lia).
  assert (Ec : Accounts.le_u64 vc = balance * SCALE * 6) by (apply Accounts.le_u64_bytes; unfold U64_MAX; lia).
  assert (Hok : Accounts.ledger_ok (list_to_map (seed_rows va vc))) by (apply seeded_ledger; [done..|lia]).
  split; [done|]. split; [done|]. split; [apply seeded_next|]. split; [by intros a Ha; rewrite seeded_cust|].
  intros worlds Hw i p Hi d. destruct (dev_key_facts i p Hi) as (_ & Hl & Hlt). split_and!.
  - eapply server_handle; [exact Hw|apply Hok|by apply seeded_handle|done|]. intros v Hv.
    rewrite (row_read va vc _ (le_bytes 4 (1 + Z.of_nat i))) in Hv by (apply elem_of_rows; left; eauto 6). apply (inj Some) in Hv. by subst v.
  - eapply server_key; [exact Hw|by apply index_u32| |done]. apply row_read, elem_of_rows. left. eauto 7.
  - intros a Ha. rewrite (server_balance _ _ Hw); [f_equal; by rewrite (seeded_bal va vc i p a Hi Ha)|by apply asset_u32|by apply index_u32|].
    intros v Hv. rewrite (row_read va vc _ va) in Hv by (apply elem_of_rows; left; eauto 9). apply (inj Some) in Hv. by subst v.
Qed.
End Genesis.
