(* ===== verification/Netgen.v ===== *)
(** * Test-net compose files: nets/netgen.py and nets/profiles.py

    The profiles, the node table of a layout, one compose service per validator, the services of a DEX net, the labels of the
    observability stack, the whole compose document and the YAML writer that prints it.  A compose document is a tree whose
    dicts keep Python's insertion order.  Strings are ASCII. *)
From S2P Require Import Prelude Bytes DevKeys Genesis.
From stdpp Require Import pretty.
From Stdlib Require Import Ascii.
Import DevKeys Genesis.
#[local] Open Scope string_scope.
#[local] Open Scope list_scope.
#[local] Open Scope Z_scope.

Module Netgen.

(** ** Profiles *)
Record layout := Layout { l_clients : string; l_net : Z; l_finality : string; l_dex : bool; l_issue : string; l_about : string }.
Record hand := Hand { h_compose : string; h_project : string; h_clients : string; h_finality : string; h_dex_url : string; h_soak : bool; h_issue : string; h_about : string }.
(** A hand-written compose file, or a layout to generate one from *)
Inductive profile := HandWritten (h : hand) | Layered (l : layout).

Definition PROFILES : list (string * profile) :=
  [("lasair6", HandWritten (Hand "docker-compose.lasair6.yml" "lasair6" "lasair,lasair,lasair,lasair,lasair,lasair" "grandpa" "http://localhost:8081" true "#12"
      "6x lasair, GRANDPA: a DEX net (lasair's bridges; the ./dex up default)"));
   ("mixed", HandWritten (Hand "docker-compose.mixed.yml" "jamswap" "pj,pj,pj,lasair,lasair,lasair" "" "http://localhost:8090" false "#2"
      "3 PolkaJam : 3 lasair, dummy finality; consensus research"));
   ("pj6", Layered (Layout "pj,pj,pj,pj,pj,pj" 1 "grandpa" true "#17" "6x PolkaJam, GRANDPA + the DEX on JIP-2: no lasair node at all"));
   ("pj-pbnjam", Layered (Layout "pj,pj,pj,pj,pj,pbnjam" 2 "grandpa" false "#19" "5 PolkaJam : 1 pbnjam; PolkaJam's 5-of-6 GRANDPA quorum alone"));
   ("pj-pbnjam-42", Layered (Layout "pj,pj,pj,pj,pbnjam,pbnjam" 3 "grandpa" false "#19" "4 PolkaJam : 2 pbnjam"));
   ("pj-javajam", Layered (Layout "pj,pj,pj,javajam,javajam,javajam" 4 "grandpa" false "#18" "3 PolkaJam : 3 JavaJAM, both GRANDPA (the PR #6 draft between them)"));
   ("pj-javajam-42", Layered (Layout "pj,pj,pj,pj,javajam,javajam" 5 "grandpa" false "#18" "4 PolkaJam : 2 JavaJAM, both GRANDPA"));
   ("lasair-pj", Layered (Layout "lasair,lasair,lasair,pj,pj,pj" 6 "grandpa" true "#20" "3 lasair : 3 PolkaJam, GRANDPA, one key each + the DEX (lasair guarantees)"));
   ("nolasair", Layered (Layout "pj,pj,javajam,javajam,pbnjam,pbnjam" 7 "grandpa" false "#21" "2 PolkaJam : 2 JavaJAM : 2 pbnjam, the control with no lasair"))].
Definition PJ_RELEASE := "nightly-2026-09-22".
Definition LASAIR_IMAGE := "ghcr.io/abutlabs/lasair:2.1.3".
Definition PBNJAM_IMAGE := "docker.io/shimonchick/pbnjam-node:main-54226be@sha256:ceb5f651164d754280c4aa88f0cf3203f0f6115cb30eb1a3dd72788224aba1aa".
Definition JAVAJAM_AMD64 := "ghcr.io/methodfive/javajam:0.4.3@sha256:573c030b793208af25c0212f9f44e71e99322b70cc1ecc26281b9441cf55293f".
Definition CTX := "../..".

(** [profile(name)]; [None] is [sys.exit] *)
Definition profile_of (name : string) : option profile := (λ iv, iv.2.2) <$> list_find (λ kv, kv.1 = name) PROFILES.
Definition generated (p : profile) : bool := match p with Layered _ => true | HandWritten _ => false end.
Definition project (name : string) (p : profile) : string := match p with HandWritten h => h_project h | Layered _ => name end.
Definition compose_path (name : string) (p : profile) : string :=
  match p with HandWritten h => h_compose h | Layered _ => "nets/compose/" +:+ name +:+ ".yml" end.

(** ** Nodes *)
Definition ports (l : layout) : Z * Z := (41000 + 100 * l_net l, 42000 + 100 * l_net l).
Definition SERVICE_PREFIX (c : client) : string := match c with Lasair => "lm" | Polkajam => "pj" | Pbnjam => "pb" | Javajam => "jj" end.
Record nnode := NNode { nn_index : Z; nn_client : client; nn_service : string; nn_port : Z; nn_rpc : option Z; nn_ip : string }.
Definition nnode_at (l : layout) (i : Z) (c : client) : nnode :=
  let '(quic, rpc) := ports l in
  NNode i c (SERVICE_PREFIX c +:+ pretty i) (quic + i) (if bool_decide (c = Lasair) then None else Some (rpc + i))
    ("10.231." +:+ pretty (l_net l) +:+ "." +:+ pretty (10 + i)).
Fixpoint nodes_from (l : layout) (i : Z) (cs : list client) : list nnode :=
  match cs with [] => [] | c :: rest => nnode_at l i c :: nodes_from l (i + 1) rest end.
Definition nodes (l : layout) : result (list nnode) := cs ← parse_clients (l_clients l); Ok (nodes_from l 0 cs).

(** ** Compose documents *)
Inductive yaml : Type :=
| YStr (s : string)
| YInt (z : Z)
| YBool (b : bool)
| YDict (kvs : list (string * yaml))
| YList (l : list yaml).
Notation dict := (list (string * yaml)).
(** [d[k] = v] and [d.update(e)] *)
Fixpoint dset (k : string) (v : yaml) (d : dict) : dict :=
  match d with [] => [(k, v)] | (k', v') :: r => if String.eqb k k' then (k, v) :: r else (k', v') :: dset k v r end.
Definition dupdate (d e : dict) : dict := foldl (λ d kv, dset kv.1 kv.2 d) d e.
Fixpoint dget (k : string) (d : dict) : option yaml := match d with [] => None | (k', v) :: r => if String.eqb k k' then Some v else dget k r end.
Definition strs (l : list string) : yaml := YList (map YStr l).
Definition sdict (l : list (string * string)) : yaml := YDict (map (λ kv, (kv.1, YStr kv.2)) l).

Definition with_default (var d : string) : string := "${" +:+ var +:+ ":-" +:+ d +:+ "}".
Definition after_init : yaml := YDict [("spec-init", sdict [("condition", "service_completed_successfully")])].
Definition on_net : yaml := YDict [("net", YDict [])].

Definition pj_image (with_lasair : bool) : yaml * string :=
  let args := [("PJ_RELEASE", with_default "PJ_RELEASE" PJ_RELEASE)] ++ (if with_lasair then [("MESH_IMAGE", with_default "LASAIR_IMAGE" LASAIR_IMAGE)] else []) in
  (YDict [("context", YStr CTX); ("dockerfile", YStr "mixed/Dockerfile.polkajam"); ("target", YStr (if with_lasair then "with-lasair" else "polkajam")); ("args", sdict args)],
   "jamswap-polkajam:" +:+ with_default "PJ_RELEASE" PJ_RELEASE +:+ (if with_lasair then "-lasair" else "")).
Definition node_common (n : nnode) : dict :=
  [("depends_on", after_init); ("networks", YDict [("net", sdict [("ipv4_address", nn_ip n)])]); ("restart", YStr "unless-stopped")].
Definition udp (port : Z) : string := with_default "HOST_IP" "127.0.0.1" +:+ ":" +:+ pretty port +:+ ":" +:+ pretty port +:+ "/udp".
(** [n["rpc"]] of a lasair node is [None] and never formatted. *)
Definition rpc_of (n : nnode) : Z := default 0 (nn_rpc n).
Definition rpc_port (rpc : Z) : string := "127.0.0.1:" +:+ pretty rpc +:+ ":" +:+ pretty rpc.

Record ctx := Ctx { x_pj_image : string; x_all_lasair : bool; x_lasair_set : string }.

Definition svc_polkajam (n : nnode) (l : layout) (x : ctx) : dict :=
  [("image", YStr (x_pj_image x)); ("pull_policy", YStr "never")] ++ node_common n ++
  [("environment", sdict [("ROLE", "validator"); ("INDEX", pretty (nn_index n)); ("SHARED", "/shared"); ("FINALITY_MODE", l_finality l);
      ("EXTERNAL_IP", with_default "HOST_IP" ""); ("TELEMETRY", with_default "OBS_JIP3" "")]);
   ("volumes", strs ["shared:/shared"]); ("ports", strs [udp (nn_port n); rpc_port (rpc_of n)])].
Definition svc_pbnjam (n : nnode) (l : layout) (x : ctx) : dict :=
  [("image", YStr (with_default "PBNJAM_IMAGE" PBNJAM_IMAGE))] ++ node_common n ++
  [("command", strs ["--chain"; "/shared/spec.json"; "--dev-validator"; pretty (nn_index n); "--rpc-port"; pretty (rpc_of n); "--temp"]);
   ("volumes", strs ["shared:/shared:ro"]); ("ports", strs [udp (nn_port n); rpc_port (rpc_of n)])].
Definition svc_javajam (n : nnode) (l : layout) (x : ctx) : dict :=
  [("image", YStr (with_default "JAVAJAM_IMAGE" JAVAJAM_AMD64)); ("profiles", strs ["javajam-docker"])] ++ node_common n ++
  [("environment", sdict [("JAVA_TOOL_OPTIONS", "-Xms512m -Xmx${JAVAJAM_HEAP:-2g} -XX:+UseSignalChaining -XX:+UseFastJNIAccessors " +:+
      "-XX:+UseThreadPriorities -XX:+UseZGC --enable-native-access=ALL-UNNAMED " +:+ "-Djava.library.path=/app")]);
   ("command", strs ["run"; "--chain"; "/shared/spec.json"; "--dev-validator"; pretty (nn_index n); "--listen-ip"; "0.0.0.0"; "--port"; pretty (nn_port n);
      "--rpc-listen-ip"; "0.0.0.0"; "--rpc-port"; pretty (rpc_of n); "--finality-mode"; l_finality l; "--data-path"; "/data"]);
   ("volumes", strs ["shared:/shared:ro"]); ("ports", strs [udp (nn_port n); rpc_port (rpc_of n)])].

Definition nl : string := String "010" "".
Definition dq : string := String "034" "".
Definition LASAIR_ENTRYPOINT : yaml := strs ["bash"; "-c";
  "if [ " +:+ dq +:+ "$${LASAIR_DEV_ALL_KEYS:-0}" +:+ dq +:+ " = 1 ]; then export OWN=" +:+ dq +:+ "$${OWN:-$$INDEX}" +:+ dq +:+ nl +:+
  "else unset OWN; export DEV_VALIDATOR=" +:+ dq +:+ "$$INDEX" +:+ dq +:+ "; fi" +:+ nl +:+ "exec /usr/local/bin/mesh-entrypoint.sh" +:+ nl].
Definition service_blob : string := CTX +:+ "/service/jamswap-service.jam:/work/jamswap-service.jam:ro".
Definition svc_lasair (n : nnode) (l : layout) (x : ctx) : dict :=
  [("image", YStr (with_default "LASAIR_IMAGE" LASAIR_IMAGE)); ("entrypoint", LASAIR_ENTRYPOINT)] ++ node_common n ++
  [("environment", sdict ([("SPEC", "/shared/spec.json"); ("INDEX", pretty (nn_index n)); ("IDENTITY", pretty (100 + nn_index n)); ("PORT", pretty (nn_port n));
      ("WALL", if x_all_lasair x then "0" else "1"); ("INTERVAL", if x_all_lasair x then "6" else "1");
      ("LASAIR_FINALITY", with_default "LASAIR_FINALITY" "grandpa"); ("LASAIR_DEV_ALL_KEYS", with_default "LASAIR_DEV_ALL_KEYS" "0");
      ("DATA_DIR", with_default "LASAIR_DATA_DIR" ""); ("GUARANTOR_OWN", x_lasair_set x); ("LASAIR_TELEMETRY", with_default "OBS_JIP3" "")] ++
      (if l_dex l then [("SERVICE", "/work/jamswap-service.jam"); ("SERVICE_ID", "100")] else [])));
   ("volumes", strs ["shared:/shared"; service_blob]); ("ports", strs [udp (nn_port n)])].
Definition ADAPTERS (n : nnode) : layout → ctx → dict :=
  match nn_client n with Polkajam => svc_polkajam n | Pbnjam => svc_pbnjam n | Javajam => svc_javajam n | Lasair => svc_lasair n end.
(** ** The DEX of a net *)
Definition bridge (binary : string) (env : list (string * string)) : dict :=
  [("image", YStr (with_default "LASAIR_IMAGE" LASAIR_IMAGE)); ("depends_on", after_init); ("volumes", strs ["shared:/shared"]); ("entrypoint", strs ["bash"; "-c"]);
   ("command", strs ["for _ in $$(seq 1 60); do [ -s /shared/genesis_hex ] && break; sleep 1; done" +:+ nl +:+
      "export LASAIR_JAMNP_GENESIS_HEX=$$(cat /shared/genesis_hex)" +:+ nl +:+ "exec /usr/local/bin/" +:+ binary +:+ nl]);
   ("environment", sdict env); ("networks", on_net); ("restart", YStr "unless-stopped")].

Inductive backend := Reader | Gateway.
Definition dex_backend (l : layout) : result (option backend) :=
  if negb (l_dex l) then Ok None else
  cs ← parse_clients (l_clients l);
  Ok (Some (if bool_decide (Lasair ∈ cs) then Reader else Gateway)).
Definition dex_url (l : layout) : string := "http://localhost:" +:+ pretty (8200 + l_net l).
Definition dex_url_of (p : profile) : string :=
  match p with Layered l => if l_dex l then dex_url l else "" | HandWritten h => h_dex_url h end.
Definition soakable (p : profile) : result bool :=
  match p with Layered l => b ← dex_backend l; Ok (match b with Some _ => true | None => false end) | HandWritten h => Ok (h_soak h) end.
Definition netwatch_port (l : layout) : Z := 9300 + l_net l.

Definition lasair_nodes (ns : list nnode) : list nnode := filter (λ n, nn_client n = Lasair) ns.
(** service of a lasair node -> its reader: the first one's is [reader] *)
Definition reader_services (ns : list nnode) : list (string * string) :=
  match lasair_nodes ns with
  | [] => []
  | n :: rest => (nn_service n, "reader") :: map (λ m, (nn_service m, "reader" +:+ pretty (nn_index m))) rest
  end.
Definition reader_of (readers : list (string * string)) (service : string) : option string :=
  (λ iv, iv.2.2) <$> list_find (λ kv, kv.1 = service) readers.
Definition ws (service : string) (port : Z) : string := "ws://" +:+ service +:+ ":" +:+ pretty port.
Definition watch_url (n : nnode) (readers : list (string * string)) : string :=
  match reader_of readers (nn_service n) with Some r => "ws://" +:+ r +:+ ":19800" | None => ws (nn_service n) (rpc_of n) end.

Definition dex_build : yaml := sdict [("context", CTX); ("dockerfile", "offchain/Dockerfile")].
Definition offchain : string := CTX +:+ "/offchain:/app:ro".
Definition loadgen : dict :=
  [("build", dex_build); ("depends_on", strs ["dex"]); ("command", strs ["python3"; "loadgen.py"]);
   ("environment", sdict [("DEX_URL", "http://dex:8080"); ("PROFILE", with_default "PROFILE" "trading"); ("RATE", with_default "RATE" "12");
      ("SEALED_RATIO", with_default "SEALED_RATIO" "0.2"); ("PYTHONUNBUFFERED", "1")]);
   ("volumes", strs [offchain]); ("networks", on_net); ("restart", YStr "unless-stopped")].
Definition netwatch (l : layout) (ns : list nnode) (watched : list (nnode * string)) (depends : yaml) : dict :=
  [("build", sdict [("context", CTX); ("dockerfile", "monitor/Dockerfile")]); ("depends_on", depends);
   ("environment", sdict [
      ("NETWATCH_NODES", joined " " (map (λ nu, nn_service nu.1 +:+ "," +:+ client_name (nn_client nu.1) +:+ "," +:+ nu.2) watched));
      ("NETWATCH_VALIDATORS", joined "," (map nn_service ns))]);
   ("ports", strs ["127.0.0.1:" +:+ pretty (netwatch_port l) +:+ ":9106"]); ("networks", on_net); ("restart", YStr "unless-stopped")].

Definition string_leb (a b : string) : bool := match String.compare a b with Gt => false | _ => true end.
Definition dex_ports (l : layout) : yaml := strs [pretty (8200 + l_net l) +:+ ":8080"].
Definition dex_services_reader (l : layout) (ns : list nnode) : dict :=
  let lm := lasair_nodes ns in
  let readers := reader_services ns in
  let first := nn_service <$> head lm in
  let reader := default "" (first ≫= reader_of readers) in
  let guarantors := joined "," (map (λ n, nn_ip n +:+ ":" +:+ pretty (nn_port n + 1)) lm) in
  [("builder", YDict (bridge "jamnp-builder" [("LASAIR_GUARANTOR_HOST", joined "," (map nn_ip lm));
      ("LASAIR_GUARANTOR_PORT", joined "," (map (λ n, pretty (nn_port n + 1)) lm)); ("LASAIR_BUILDER_HTTP_PORT", "19980")]))] ++
  map (λ n, (default "" (reader_of readers (nn_service n)), YDict (bridge "lasair-reader" [("LASAIR_NODE_HOST", nn_ip n); ("LASAIR_NODE_PORT", pretty (nn_port n));
      ("LASAIR_CHAIN_SPEC", "/shared/spec.json"); ("LASAIR_READER_HTTP_PORT", "19800"); ("LASAIR_RPC_GUARANTORS", guarantors)]))) lm ++
  [("dex", YDict [("build", dex_build); ("depends_on", strs [reader]);
      ("environment", sdict [("CHAIN_BACKEND", with_default "LASAIR_DEX_BACKEND" "jip2"); ("CHAIN_RPC", "ws://" +:+ reader +:+ ":19800");
         ("CHAIN_SPEC", "/shared/spec.json"); ("SERVICE_ID", "100"); ("RESERVE_TOPUP", "1"); ("BUILDER_URL", "http://builder:19980");
         ("READER_URL", "http://" +:+ reader +:+ ":19800"); ("NODE_METRICS_URL", "http://" +:+ default "" first +:+ ":9615/metrics");
         ("ROUND_GATE_SECS", "180"); ("MAX_ROUND_ORDERS", "48"); ("PORT", "8080"); ("PYTHONUNBUFFERED", "1"); ("ORDER_EVENTS_FILE", "/shared/order_events.jsonl")]);
      ("volumes", strs [offchain; service_blob; "shared:/shared"]); ("working_dir", YStr "/app"); ("command", strs ["python3"; "server.py"]);
      ("ports", dex_ports l); ("networks", on_net); ("restart", YStr "unless-stopped")]);
   ("loadgen", YDict loadgen);
   ("netwatch", YDict (netwatch l ns (map (λ n, (n, watch_url n readers)) ns) (strs (sort_by string_leb (map snd readers)))))].

Definition gateway_ports (l : layout) : Z * Z := let '(quic, rpc) := ports l in (quic + 50, rpc + 50).
Definition dex_services_gateway (l : layout) (ns : list nnode) (x : ctx) : dict :=
  let '(gq, gr) := gateway_ports l in
  let rpc_nodes := filter (λ n, is_Some (nn_rpc n)) ns in
  [("rpc", YDict [("image", YStr (x_pj_image x)); ("pull_policy", YStr "never"); ("depends_on", after_init);
      ("environment", sdict [("ROLE", "node"); ("SHARED", "/shared"); ("PORT", pretty gq); ("RPC_PORT", pretty gr); ("FINALITY_MODE", l_finality l);
         ("EXTERNAL_IP", with_default "HOST_IP" ""); ("TELEMETRY", with_default "OBS_JIP3" "")]);
      ("volumes", strs ["shared:/shared"]); ("ports", strs [udp gq; rpc_port gr]); ("networks", on_net); ("restart", YStr "unless-stopped")]);
   ("dex", YDict [("build", dex_build);
      ("depends_on", YDict [("spec-init", sdict [("condition", "service_completed_successfully")]); ("rpc", sdict [("condition", "service_started")])]);
      ("environment", sdict [("CHAIN_BACKEND", "jip2"); ("CHAIN_RPC", ws "rpc" gr); ("CHAIN_SPEC", "/shared/spec.json"); ("SERVICE_CODE", "/work/jamswap-service.jam");
         ("DEPLOY_STATE", "/shared/jamswap_deploy.json"); ("RESERVE_TOPUP", "1"); ("PORT", "8080"); ("PYTHONUNBUFFERED", "1");
         ("ORDER_EVENTS_FILE", "/shared/order_events.jsonl")]);
      ("volumes", strs [offchain; service_blob; "shared:/shared"]); ("working_dir", YStr "/app"); ("command", strs ["python3"; "server.py"]);
      ("ports", dex_ports l); ("networks", on_net); ("restart", YStr "unless-stopped")]);
   ("loadgen", YDict loadgen);
   ("netwatch", YDict (netwatch l ns (map (λ n, (n, ws (nn_service n) (rpc_of n))) rpc_nodes) after_init))].

(** ** Labels *)
Definition OBS : string := "org.abutlabs.obs.".
(** kind -> (job, client, metrics port) *)
Definition OBS_KINDS : list (string * (string * string * option Z)) :=
  [("lasair", ("lasair", "lasair", Some 9615)); ("polkajam", ("polkajam", "polkajam", None)); ("pbnjam", ("pbnjam", "pbnjam", None));
   ("javajam", ("javajam", "javajam", None)); ("builder", ("builder", "lasair", Some 19980)); ("reader", ("reader", "lasair", None));
   ("dex", ("dex", "dex", Some 8080)); ("loadgen", ("loadgen", "loadgen", Some 9111)); ("netwatch", ("netwatch", "netwatch", Some 9106));
   ("spec-init", ("spec-init", "jamswap", None))].
Definition kind_of (kind : string) : option (string * string * option Z) := (λ iv, iv.2.2) <$> list_find (λ kv, kv.1 = kind) OBS_KINDS.
(** [None]: an unknown kind, a [KeyError] *)
Definition obs_labels (name kind : string) (jip2 : option Z) (jip2_node : option string) : option yaml :=
  '(job, client, port) ← kind_of kind;
  Some (sdict ([(OBS +:+ "net", name); (OBS +:+ "run_id", with_default "OBS_RUN_ID" ""); (OBS +:+ "job", job); (OBS +:+ "client", client); (OBS +:+ "logs", "true")] ++
    match port with Some p => [(OBS +:+ "scrape", "true"); (OBS +:+ "port", pretty p)] | None => [] end ++
    match jip2 with Some p => [(OBS +:+ "jip2", pretty p)] | None => [] end ++
    match jip2_node with Some n => [(OBS +:+ "jip2.node", n); (OBS +:+ "jip2.client", "lasair")] | None => [] end)).
Definition node_named (ns : list nnode) (svc : string) : option nnode := snd <$> list_find (λ n, nn_service n = svc) ns.
(** The label of a service, [None] when it gets none *)
Definition label_for (name : string) (l : layout) (ns : list nnode) (svc : string) : option yaml :=
  match node_named ns svc with
  | Some n => obs_labels name (client_name (nn_client n)) (nn_rpc n) None
  | None =>
      match list_find (λ kv, kv.2 = svc) (reader_services ns) with
      | Some (_, (nd, _)) => obs_labels name "reader" (Some 19800) (Some nd)
      | None =>
          if String.eqb svc "rpc" then obs_labels name "polkajam" (Some (gateway_ports l).2) None
          else match kind_of svc with Some _ => obs_labels name svc None None | None => None end
      end
  end.
Definition label_service (name : string) (l : layout) (ns : list nnode) (kv : string * yaml) : string * yaml :=
  match kv.2, label_for name l ns kv.1 with
  | YDict d, Some lb => (kv.1, YDict (dset "labels" lb d))
  | v, _ => (kv.1, v)
  end.

(** ** The document *)
Definition init_env (l : layout) (b : option backend) : list (string * string) :=
  let '(quic, rpc) := ports l in
  [("ROLE", "init"); ("SHARED", "/shared"); ("CLIENTS", l_clients l); ("IP_BASE", "10.231." +:+ pretty (l_net l)); ("IP_START", "10");
   ("BASE_PORT", pretty quic); ("RPC_BASE", pretty rpc); ("HOST_IP", with_default "HOST_IP" "")] ++
  match b with Some Reader => [("SERVICE", "/work/jamswap-service.jam"); ("SERVICE_ID", "100")] | _ => [("GENESIS_BALANCE", "0")] end.
Definition services (name : string) (l : layout) (ns : list nnode) (b : option backend) : dict :=
  let with_lasair := bool_decide (Lasair ∈ map nn_client ns) in
  let '(pj_build, image) := pj_image with_lasair in
  let x := Ctx image (forallb (λ c, bool_decide (c = Lasair)) (map nn_client ns)) (joined "," (map (λ n, pretty (nn_index n)) (lasair_nodes ns))) in
  let init := [("build", pj_build); ("image", YStr image); ("restart", YStr "no");
     ("volumes", strs ("shared:/shared" :: match b with Some Reader => [service_blob] | _ => [] end)); ("networks", on_net); ("environment", sdict (init_env l b))] in
  let per_node := foldl (λ d n, dset (nn_service n) (YDict (ADAPTERS n l x)) d) [("spec-init", YDict init)] ns in
  let all := match b with
             | Some Reader => dupdate per_node (dex_services_reader l ns)
             | Some Gateway => dupdate per_node (dex_services_gateway l ns x)
             | None => per_node
             end in
  map (label_service name l ns) all.
Definition compose (name : string) (l : layout) : result yaml :=
  ns ← nodes l;
  b ← dex_backend l;
  Ok (YDict [("services", YDict (services name l ns b));
     ("networks", YDict [("net", YDict [("driver", YStr "bridge"); ("ipam", YDict [("config", YList [sdict [("subnet", "10.231." +:+ pretty (l_net l) +:+ ".0/24")]])])])]);
     ("volumes", YDict [("shared", YDict [])])]).
(** ** The YAML writer *)
Definition char_code (c : ascii) : Z := Z.of_N (N_of_ascii c).
Definition between (lo hi : Z) (c : ascii) : bool := (lo <=? char_code c) && (char_code c <=? hi).
Definition is_alnum (c : ascii) : bool := between 48 57 c || between 65 90 c || between 97 122 c.
(** [json.dumps] of an ASCII string *)
Definition hex2 (n : Z) : string := String (hexdigit (n / 16)) (String (hexdigit (n mod 16)) "").
Definition json_char (c : ascii) : string :=
  let n := char_code c in
  if n =? 34 then "\" +:+ dq else if n =? 92 then "\\" else if n =? 10 then "\n" else if n =? 13 then "\r" else if n =? 9 then "\t"
  else if n =? 8 then "\b" else if n =? 12 then "\f" else if n <? 32 then "\u00" +:+ hex2 n else String c "".
Fixpoint json_body (s : string) : string := match s with EmptyString => "" | String c s' => json_char c +:+ json_body s' end.
Definition json_string (s : string) : string := dq +:+ json_body s +:+ dq.
Fixpoint string_forallb (f : ascii → bool) (s : string) : bool := match s with EmptyString => true | String c s' => f c && string_forallb f s' end.
Definition key (k : string) : string :=
  if string_forallb (λ c, is_alnum c || (char_code c =? 95) || (char_code c =? 45) || (char_code c =? 46)) k then k else json_string k.
Fixpoint json (v : yaml) : string :=
  match v with
  | YStr s => json_string s
  | YInt z => pretty z
  | YBool b => if b then "true" else "false"
  | YDict kvs => "{" +:+ joined ", " (map (λ kv, json_string kv.1 +:+ ": " +:+ json kv.2) kvs) +:+ "}"
  | YList l => "[" +:+ joined ", " (map json l) +:+ "]"
  end.
Definition scalar : yaml → string := json.
Fixpoint spaces (n : nat) : string := match n with O => "" | S n' => "  " +:+ spaces n' end.
Definition has_newline (s : string) : bool := negb (string_forallb (λ c, negb (char_code c =? 10)) s).
Fixpoint rstrip_nl (s : string) : string :=
  match s with EmptyString => "" | String c s' => match rstrip_nl s' with EmptyString => if char_code c =? 10 then "" else String c "" | r => String c r end end.
Fixpoint lstrip_sp (s : string) : string := match s with EmptyString => "" | String c s' => if is_space c then lstrip_sp s' else s end.
Definition block (pad s : string) : list string := map (λ l, pad +:+ "  " +:+ l) (split "010" (rstrip_nl s)).

Fixpoint emit (v : yaml) (indent : nat) : list string :=
  let pad := spaces indent in
  match v with
  | YDict kvs =>
      concat (map (λ kv : string * yaml,
        let k := kv.1 in
        match kv.2 with
        | YDict [] => [pad +:+ key k +:+ ": {}"]
        | YList [] => [pad +:+ key k +:+ ": []"]
        | YDict _ | YList _ => (pad +:+ key k +:+ ":") :: emit kv.2 (S indent)
        | YStr s => if has_newline s then (pad +:+ key k +:+ ": |") :: block pad s else [pad +:+ key k +:+ ": " +:+ scalar (YStr s)]
        | x => [pad +:+ key k +:+ ": " +:+ scalar x]
        end) kvs)
  | YList l =>
      concat (map (λ x : yaml,
        match x with
        | YStr s => if has_newline s then (pad +:+ "- |") :: block pad s else [pad +:+ "- " +:+ scalar x]
        | YDict (_ :: _) => match emit x (S indent) with h :: t => (pad +:+ "- " +:+ lstrip_sp h) :: t | [] => [] end
        | x => [pad +:+ "- " +:+ scalar x]
        end) l)
  | _ => []
  end.

(** ** The header comment *)
Fixpoint rpad (n : nat) (s : string) : string :=
  match n with O => s | S n' => match s with EmptyString => " " +:+ rpad n' "" | String c s' => String c (rpad n' s') end end.
Definition header_lines (name : string) (l : layout) (ns : list nnode) (b : option backend) : list string :=
  ["GENERATED by nets/netgen.py from profile '" +:+ name +:+ "' (" +:+ l_issue l +:+ ") - do not edit.";
   "Change nets/profiles.py or nets/netgen.py, then `./dex gen`."; ""; l_about l +:+ "."; "";
   "  ./dex up NET=" +:+ name +:+ "        start it" +:+ (if existsb (λ n, bool_decide (nn_client n = Javajam)) ns then " (JavaJAM runs natively on macOS)" else "");
   "  ./dex heads NET=" +:+ name +:+ "     one head + finality across every node's RPC";
   "  ./dex down NET=" +:+ name +:+ "      tear down, wipe the chain"] ++
  match b with Some _ =>
    ["  ./dex load NET=" +:+ name +:+ "      start the load generator (up leaves it stopped)";
     "  ./dex soak NET=" +:+ name +:+ " 600  A1-A4: load + netwatch, then parity + soak verdict"] | None => [] end ++
  match b with
  | Some Reader =>
      [""; "DEX " +:+ dex_url l +:+ " (CHAIN_BACKEND=jip2, SERVICE_ID 100 in genesis) on the JIP-2 of";
       "`reader`, the first lasair node's lasair-reader, which hands each work-package";
       "to a lasair guarantor (CE-133). Every lasair node has a reader; netwatch reads";
       "each node through it or its own RPC: 127.0.0.1:" +:+ pretty (netwatch_port l) +:+ " (/metrics, /verdict).";
       "LASAIR_DEX_BACKEND=jamnp: the dex on lasair's HTTP bridges (`builder`, `reader`)."]
  | Some Gateway =>
      [""; "DEX " +:+ dex_url l +:+ " (CHAIN_BACKEND=jip2, no SERVICE_ID) on the JIP-2 RPC of `rpc`,";
       "an ordinary PolkaJam node (udp " +:+ pretty (gateway_ports l).1 +:+ ", RPC 127.0.0.1:" +:+ pretty (gateway_ports l).2 +:+ "): at startup it deploys";
       "the service through the Bootstrap service, lists the markets and funds the";
       "dev accounts. netwatch over every validator: 127.0.0.1:" +:+ pretty (netwatch_port l) +:+ " (/metrics, /verdict)."]
  | None => []
  end ++
  [""; "  i  client    service  JAMNP-S udp  RPC (host 127.0.0.1)"] ++
  map (λ n, "  " +:+ pretty (nn_index n) +:+ "  " +:+ rpad 8 (client_name (nn_client n)) +:+ "  " +:+ rpad 7 (nn_service n) +:+ "  " +:+ rpad 11 (pretty (nn_port n)) +:+ "  " +:+
       match nn_rpc n with Some r => pretty r | None => "-  (logs)" end +:+ (if bool_decide (nn_client n = Javajam) then "  (native on macOS)" else "")) ns ++
  [""; "Keys: validator i is standard dev account i and only its own node signs as it."] ++
  (if bool_decide (Lasair ∈ map nn_client ns) then
    ["lasair runs DEV_VALIDATOR=i; LASAIR_DEV_ALL_KEYS=1 switches its nodes to lasair's"; "devnet mode (OWN=i: every dev secret, guarantees as any lasair index)."] else []).
Definition comment_line (t : string) : string := if String.eqb t "" then "#" +:+ nl else "# " +:+ t +:+ nl.
Definition render (name : string) (l : layout) : result string :=
  doc ← compose name l;
  ns ← nodes l;
  b ← dex_backend l;
  Ok (joined "" (map comment_line (header_lines name l ns b)) +:+ nl +:+ joined nl (emit doc 0) +:+ nl).

(** [_sh]: a value quoted for the shell *)
Fixpoint quote_body (s : string) : string :=
  match s with EmptyString => "" | String c s' => (if char_code c =? 39 then "'\''" else String c "") +:+ quote_body s' end.
Definition sh (v : string) : string := "'" +:+ quote_body v +:+ "'".
(** ** The genesis minted in the net

    The environment the minter's container gets: compose substitutes the host's HOST_IP. *)
Definition container_env (host_ip : string) (l : layout) (b : option backend) : gmap string string :=
  list_to_map (map (λ kv, if String.eqb kv.1 "HOST_IP" then (kv.1, host_ip) else kv) (init_env l b)).

Definition row := (Z * client * string * Z * option Z)%type.
Definition genesis_row (n : node) : row := (n_index n, n_role n, n_host n, n_port n, n_rpc n).
Definition compose_row (host_ip : string) (n : nnode) : row :=
  (nn_index n, nn_client n, if String.eqb host_ip "" then nn_ip n else host_ip, nn_port n, nn_rpc n).

Lemma topology_rows acct host_ip l cs : ∀ i vals ns,
  topology_from acct i cs (ports l).1 (ports l).2 (host_of host_ip ("10.231." +:+ pretty (l_net l)) 10) = Ok (vals, ns) →
  map genesis_row ns = map (compose_row host_ip) (nodes_from l i cs).
Proof.
  induction cs as [|c cs IH]; intros i vals ns; cbn [topology_from nodes_from]; [by intros [= <- <-]|].
  intros H. apply bind_ok in H as (a & _ & H). apply bind_ok in H as ([vals' ns'] & Hr & H). injection H as _ <-.
  cbn [map]. rewrite (IH _ _ _ Hr). f_equal. unfold compose_row, host_of. cbn [nnode_at nn_index nn_client nn_ip nn_port nn_rpc].
  destruct (String.eqb host_ip ""); cbn [negb]; rewrite ?append_assoc; by destruct c.
Qed.

Lemma nodes_clients l cs : ∀ i, map nn_client (nodes_from l i cs) = cs.
Proof. induction cs as [|c cs IH]; intros i; cbn; [done|]. by rewrite IH. Qed.
Lemma env_keys host_ip l b : NoDup (map (λ kv : string * string, if String.eqb kv.1 "HOST_IP" then (kv.1, host_ip) else kv) (init_env l b)).*1.
Proof.
  assert (E : (map (λ kv : string * string, if String.eqb kv.1 "HOST_IP" then (kv.1, host_ip) else kv) (init_env l b)).*1 =
    ["ROLE"; "SHARED"; "CLIENTS"; "IP_BASE"; "IP_START"; "BASE_PORT"; "RPC_BASE"; "HOST_IP"] ++
    match b with Some Reader => ["SERVICE"; "SERVICE_ID"] | _ => ["GENESIS_BALANCE"] end) by (by destruct b as [[]|]).
  rewrite E. destruct b as [[]|]; apply (bool_decide_eq_true_1 _); vm_compute; reflexivity.
Qed.
Lemma env_at host_ip l b k v : k ≠ "HOST_IP" → (k, v) ∈ init_env l b → container_env host_ip l b !! k = Some v.
Proof.
  intros Hk Hin. apply elem_of_list_to_map_1; [apply env_keys|]. apply list_elem_of_In, in_map_iff. exists (k, v). cbn [fst].
  rewrite (proj2 (String.eqb_neq _ _)) by done. split; [done|]. by apply list_elem_of_In.
Qed.
Lemma env_host host_ip l b : container_env host_ip l b !! "HOST_IP" = Some host_ip.
Proof.
  apply elem_of_list_to_map_1; [apply env_keys|]. apply list_elem_of_In, in_map_iff. exists ("HOST_IP", with_default "HOST_IP" "").
  split; [done|]. unfold init_env. cbn [ports]. apply in_or_app. left. do 7 right. by left.
Qed.
Ltac in_env := unfold init_env; cbn [ports]; apply elem_of_app; left; repeat (first [apply list_elem_of_here | apply list_elem_of_further]).

(** (C34) The genesis a generated net mints is the genesis of its compose file: for any layout and any HOST_IP, when the minter runs in
    the environment the compose file gives it and mints, it mints for the layout's clients, and the node table it writes has, row by
    row, the index, client, address, port and RPC port of the validators of the compose file (their static addresses, or HOST_IP for
    all of them when it is set). *)
Theorem genesis_matches_compose tl host_ip l b ns fs cs fs' :
  0 ≤ l_net l → nodes l = Ok ns → fs !! "ready" = None →
  main tl (container_env host_ip l b) fs = (Ok (Minted cs), fs') →
  cs = map nn_client ns ∧ ∃ t, fs' !! "nodes.json" = Some (NodesJson t) ∧ map genesis_row (tp_nodes t) = map (compose_row host_ip) ns.
Proof.
  intros Hnet Hns Hr Hm. unfold nodes in Hns. apply bind_ok in Hns as (cs' & Hp & [= <-]).
  assert (Hq : 0 ≤ (ports l).1 ∧ 0 ≤ (ports l).2) by (cbn; lia). unfold main in Hm. unfold getenv in Hm.
  rewrite (env_at host_ip l b "BASE_PORT" (pretty (ports l).1)) in Hm by (done || in_env).
  rewrite (env_at host_ip l b "RPC_BASE" (pretty (ports l).2)) in Hm by (done || in_env).
  rewrite (env_at host_ip l b "IP_START" "10") in Hm by (done || in_env).
  rewrite (env_at host_ip l b "IP_BASE" ("10.231." +:+ pretty (l_net l))) in Hm by (done || in_env).
  rewrite env_host in Hm. cbn [from_option id] in Hm.
  assert (Hl : Genesis.layout (container_env host_ip l b) = l_clients l).
  { unfold Genesis.layout. rewrite (env_at host_ip l b "CLIENTS" (l_clients l)) by (done || in_env). by destruct (l_clients l). }
  rewrite Hl, Hp in Hm.
  apply se_bind_ok in Hm as (base & fs1 & Hb%lift_ok & Hm). destruct Hb as [Hb ->]. rewrite py_int_pretty in Hb by apply Hq. injection Hb as <-.
  apply se_bind_ok in Hm as (rpc & fs1 & Hb%lift_ok & Hm). destruct Hb as [Hb ->]. rewrite py_int_pretty in Hb by apply Hq. injection Hb as <-.
  apply se_bind_ok in Hm as (start & fs1 & Hb%lift_ok & Hm). destruct Hb as [Hb ->]. vm_compute in Hb. injection Hb as <-.
  apply se_bind_ok in Hm as (have & fs1 & [= <- <-] & Hm). rewrite Hr in Hm. cbn [bool_decide] in Hm.
  apply se_bind_ok in Hm as (bad & fs1 & Hb & Hm).
  assert (fs1 = fs) as -> by (destruct (bool_decide (Lasair ∈ cs')); [by apply lift_ok in Hb as [_ ->]|by injection Hb]).
  destruct bad as [i|]; [done|].
  assert (cs = cs') as -> by (by eapply mint_clients).
  split; [symmetry; apply nodes_clients|].
  destruct (mint_run tl _ _ _ _ _ _ _ _ Hm Hr) as [(cs & t & vals & _ & _ & (sp & Hn & _) & Ht)|[_ Hno]]; [|by destruct (Hno cs')].
  exists t. split; [done|]. by apply (topology_rows (t_dev_account tl) host_ip l cs' 0 vals).
Qed.
(** ** Service names *)
Lemma get_appended (a b : string) k : (k < String.length a)%nat → String.get k (a +:+ b) = String.get k a.
Proof. revert k. induction a as [|x a IH]; intros k Hk; cbn in Hk; [lia|]. rewrite append_cons. destruct k; [done|]. cbn. apply IH. lia. Qed.
Definition two (s : string) : option ascii * option ascii := (String.get 0 s, String.get 1 s).
Lemma two_append a b : (2 ≤ String.length a)%nat → two (a +:+ b) = two a.
Proof. intros H. unfold two. by rewrite !get_appended by lia. Qed.
Lemma prefix_length c : String.length (SERVICE_PREFIX c) = 2%nat.
Proof. by destruct c. Qed.
Lemma drop_two (a b c d : string) : String.length a = 2%nat → String.length c = 2%nat → a +:+ b = c +:+ d → b = d.
Proof.
  destruct a as [|? [|? [|? ?]]], c as [|? [|? [|? ?]]]; cbn [String.length]; try lia. intros _ _. rewrite !append_cons, !append_nil. congruence.
Qed.
Lemma service_index l i j c c' : nn_service (nnode_at l i c) = nn_service (nnode_at l j c') → i = j.
Proof. intros E. apply drop_two in E; [by apply (inj pretty)|apply prefix_length..]. Qed.
Lemma service_two l i c : two (nn_service (nnode_at l i c)) = two (SERVICE_PREFIX c).
Proof. apply two_append. by rewrite prefix_length. Qed.
(** A name no node has *)
Definition not_node (s : string) : Prop := ∀ c, two s ≠ two (SERVICE_PREFIX c).
Lemma not_node_service l s i c : not_node s → s ≠ nn_service (nnode_at l i c).
Proof. intros Hs ->. apply (Hs c). apply service_two. Qed.

Lemma elem_of_nodes l n cs : ∀ i, n ∈ nodes_from l i cs ↔ ∃ (k : nat) c, cs !! k = Some c ∧ n = nnode_at l (i + Z.of_nat k) c.
Proof.
  induction cs as [|c cs IH]; intros i; cbn [nodes_from].
  { split; [intros H; by apply not_elem_of_nil in H|by intros (k & c & H & _)]. }
  rewrite elem_of_cons, IH. split.
  - intros [->|(k & d & Hk & ->)]; [exists 0%nat, c; by rewrite Z.add_0_r|]. exists (S k), d. split; [done|]. f_equal. lia.
  - intros ([|k] & d & Hk & ->); [left; cbn in Hk; rewrite Z.add_0_r; congruence|]. right. exists k, d. split; [done|]. f_equal. lia.
Qed.
Lemma services_nodup l cs : ∀ i, NoDup (map nn_service (nodes_from l i cs)).
Proof.
  induction cs as [|c cs IH]; intros i; cbn [nodes_from map]; [constructor|]. constructor; [|apply IH].
  rewrite list_elem_of_In, in_map_iff. intros (n & E & Hn%list_elem_of_In). apply elem_of_nodes in Hn as (k & d & _ & ->).
  apply service_index in E. lia.
Qed.

Lemma indices_nodup l cs : ∀ i, NoDup (map nn_index (nodes_from l i cs)).
Proof.
  induction cs as [|c cs IH]; intros i; cbn [nodes_from map]; [constructor|]. constructor; [|apply IH].
  rewrite list_elem_of_In, in_map_iff. intros (n & E & Hn%list_elem_of_In). apply elem_of_nodes in Hn as (k & d & _ & ->). cbn in E. lia.
Qed.

Definition reader_names (ns : list nnode) : list string := map snd (reader_services ns).
Lemma reader_two ns r : r ∈ reader_names ns → two r = (Some "r"%char, Some "e"%char).
Proof.
  unfold reader_names, reader_services. destruct (lasair_nodes ns) as [|n rest]; [intros H; by apply not_elem_of_nil in H|].
  cbn [map]. intros [->|H]%elem_of_cons; [done|]. rewrite map_map in H. apply list_elem_of_In, in_map_iff in H as (m & <- & _). cbn [snd].
  by rewrite two_append by (cbn; lia).
Qed.
Lemma pretty_nonempty (z : Z) : pretty z ≠ "".
Proof.
  intros E. destruct z as [|q|q]; [done| |done]. assert (Hv : py_int (pretty (Z.pos q)) = Ok (Z.pos q)) by (by apply py_int_pretty).
  by rewrite E in Hv.
Qed.
Lemma reader_names_nodup l cs i : NoDup (reader_names (nodes_from l i cs)).
Proof.
  unfold reader_names, reader_services. destruct (lasair_nodes _) as [|n rest] eqn:E; [constructor|]. cbn [map]. rewrite map_map. cbn [snd].
  constructor.
  - rewrite list_elem_of_In, in_map_iff. intros (m & Em & _). change "reader" with ("reader" +:+ "") in Em at 2.
    apply (inj (String.append "reader")) in Em. by apply pretty_nonempty in Em.
  - assert (Hnd : NoDup (map nn_index (n :: rest))) by (rewrite <- E; apply NoDup_map_filter, indices_nodup).
    cbn [map] in Hnd. apply NoDup_cons in Hnd as [_ Hnd]. rewrite <- (map_map nn_index (λ z, "reader" +:+ pretty z)).
    by apply (NoDup_fmap_2 (λ z : Z, "reader" +:+ pretty z)).
Qed.
(** ** Dicts without collisions *)
Lemma dset_fresh k v (d : dict) : k ∉ map fst d → dset k v d = d ++ [(k, v)].
Proof.
  induction d as [|[k' v'] d IH]; [done|]. cbn. rewrite not_elem_of_cons. intros [Hne Hni].
  rewrite (proj2 (String.eqb_neq _ _)) by done. by rewrite IH.
Qed.
Lemma dupdate_fresh (e d : dict) : NoDup (map fst d ++ map fst e) → dupdate d e = d ++ e.
Proof.
  revert d. induction e as [|[k v] e IH]; intros d Hnd; cbn; [by rewrite app_nil_r|]. unfold dupdate in IH. cbn in Hnd.
  rewrite dset_fresh.
  - rewrite IH; [by rewrite <- app_assoc|]. rewrite List.map_app, <- app_assoc. exact Hnd.
  - apply NoDup_app in Hnd as (_ & Hd & _). intros Hk. apply (Hd k Hk). by left.
Qed.
Lemma foldl_dset (f : nnode → yaml) (nl : list nnode) : ∀ d, foldl (λ d n, dset (nn_service n) (f n) d) d nl = dupdate d (map (λ n, (nn_service n, f n)) nl).
Proof. induction nl as [|n nl IH]; intros d; [done|]. cbn. apply IH. Qed.
Lemma dget_dset_ne k k' v (d : dict) : k ≠ k' → dget k (dset k' v d) = dget k d.
Proof.
  intros Hne. induction d as [|[j w] d IH]; cbn; [by rewrite (proj2 (String.eqb_neq _ _))|].
  destruct (String.eqb_spec k' j) as [<-|]; cbn; [by rewrite (proj2 (String.eqb_neq k k'))|]. by rewrite IH.
Qed.
Lemma dget_dset k v (d : dict) : dget k (dset k v d) = Some v.
Proof.
  induction d as [|[j w] d IH]; cbn; [by rewrite String.eqb_refl|]. destruct (String.eqb_spec k j) as [<-|Hne]; cbn; [by rewrite String.eqb_refl|].
  by rewrite (proj2 (String.eqb_neq _ _)).
Qed.
Lemma reader_of_in (rs : list (string * string)) k v : NoDup (map fst rs) → (k, v) ∈ rs → reader_of rs k = Some v.
Proof.
  unfold reader_of. induction rs as [|[k' v'] rs IH]; intros Hnd Hin; [by apply not_elem_of_nil in Hin|]. cbn in Hnd. apply NoDup_cons in Hnd as [Hni Hnd].
  cbn [list_find]. case_decide as Hk; cbn in Hk |- *.
  - subst k'. apply elem_of_cons in Hin as [[= ->]|Hin]; [done|]. exfalso. apply Hni, list_elem_of_In, in_map_iff. exists (k, v). by rewrite <- list_elem_of_In.
  - apply elem_of_cons in Hin as [[= -> ->]|Hin]; [done|]. specialize (IH Hnd Hin).
    destruct (list_find _ rs) as [[j [a b]]|]; [done|discriminate IH].
Qed.
Lemma readers_keys ns : map fst (reader_services ns) = map nn_service (lasair_nodes ns).
Proof. unfold reader_services. destruct (lasair_nodes ns) as [|n rest]; [done|]. cbn. f_equal. rewrite map_map. done. Qed.
Lemma lasair_services_nodup l cs i : NoDup (map nn_service (lasair_nodes (nodes_from l i cs))).
Proof. apply NoDup_map_filter, services_nodup. Qed.
Lemma readers_of_nodes l cs i : let ns := nodes_from l i cs in
  map (λ n, default "" (reader_of (reader_services ns) (nn_service n))) (lasair_nodes ns) = reader_names ns.
Proof.
  intros ns. transitivity (map (λ kv : string * string, kv.2) (reader_services ns)); [|done].
  rewrite <- (map_map nn_service (λ k, default "" (reader_of (reader_services ns) k))), <- readers_keys, map_map.
  apply map_ext_in. intros [k v] Hin%list_elem_of_In. cbn [fst snd]. rewrite (reader_of_in _ k v); [done| |done].
  rewrite readers_keys. apply lasair_services_nodup.
Qed.

(** ** The services of a document *)
Definition the_ctx (ns : list nnode) : ctx :=
  Ctx (pj_image (bool_decide (Lasair ∈ map nn_client ns))).2 (forallb (λ c, bool_decide (c = Lasair)) (map nn_client ns))
    (joined "," (map (λ n, pretty (nn_index n)) (lasair_nodes ns))).
Definition init_service (l : layout) (ns : list nnode) (b : option backend) : dict :=
  [("build", (pj_image (bool_decide (Lasair ∈ map nn_client ns))).1); ("image", YStr (x_pj_image (the_ctx ns))); ("restart", YStr "no");
   ("volumes", strs ("shared:/shared" :: match b with Some Reader => [service_blob] | _ => [] end)); ("networks", on_net); ("environment", sdict (init_env l b))].
Definition dex_services (l : layout) (ns : list nnode) (b : option backend) : dict :=
  match b with Some Reader => dex_services_reader l ns | Some Gateway => dex_services_gateway l ns (the_ctx ns) | None => [] end.
Definition service_list (l : layout) (ns : list nnode) (b : option backend) : dict :=
  ("spec-init", YDict (init_service l ns b)) :: map (λ n, (nn_service n, YDict (ADAPTERS n l (the_ctx ns)))) ns ++ dex_services l ns b.
Definition dex_names (ns : list nnode) (b : option backend) : list string :=
  match b with
  | Some Reader => "builder" :: reader_names ns ++ ["dex"; "loadgen"; "netwatch"]
  | Some Gateway => ["rpc"; "dex"; "loadgen"; "netwatch"]
  | None => []
  end.

Section document.
Context (l : layout) (cs : list client) (b : option backend).
Notation ns := (nodes_from l 0 cs).

Lemma dex_services_names : map fst (dex_services l ns b) = dex_names ns b.
Proof.
  destruct b as [[]|]; cbn [dex_services dex_names]; [|done|done]. unfold dex_services_reader. rewrite !List.map_app, map_map. cbn [map fst].
  by rewrite readers_of_nodes.
Qed.
Lemma dex_names_not_node s : s ∈ "spec-init" :: dex_names ns b → not_node s.
Proof.
  assert (Hr : ∀ r, r ∈ reader_names ns → not_node r) by (intros r Hr c; rewrite (reader_two _ _ Hr); by destruct c).
  intros [->|H]%elem_of_cons; [by intros []|]. destruct b as [[]|]; cbn [dex_names] in H.
  - apply elem_of_cons in H as [->|H]; [by intros []|]. apply elem_of_app in H as [H|H]; [by apply Hr|].
    rewrite !elem_of_cons, elem_of_nil in H. destruct H as [->|[->|[->|[]]]]; by intros [].
  - rewrite !elem_of_cons, elem_of_nil in H. destruct H as [->|[->|[->|[->|[]]]]]; by intros [].
  - by apply not_elem_of_nil in H.
Qed.
Lemma dex_names_nodup : NoDup ("spec-init" :: dex_names ns b).
Proof.
  assert (Hr : ∀ s, two s ≠ (Some "r"%char, Some "e"%char) → s ∉ reader_names ns) by (intros s Hs H; by apply Hs, (reader_two ns)).
  destruct b as [[]|]; cbn [dex_names]; [|apply (bool_decide_eq_true_1 _); vm_compute; reflexivity..].
  repeat rewrite NoDup_cons. split_and!.
  - rewrite elem_of_cons, elem_of_app, !elem_of_cons, elem_of_nil. intros [H|[H|[H|[H|[H|H]]]]]; try done. by apply Hr in H.
  - rewrite elem_of_app, !elem_of_cons, elem_of_nil. intros [H|[H|[H|[H|H]]]]; try done. by apply Hr in H.
  - apply NoDup_app. split_and!; [apply reader_names_nodup| |apply (bool_decide_eq_true_1 _); vm_compute; reflexivity].
    intros s Hs%reader_two. rewrite !elem_of_cons, elem_of_nil. by intros [->|[->|[->|[]]]].
Qed.
Lemma names_nodup : NoDup (map fst (service_list l ns b)).
Proof.
  unfold service_list. cbn [map fst]. rewrite List.map_app, map_map. cbn [fst]. rewrite dex_services_names.
  pose proof dex_names_nodup as [H1 H2]%NoDup_cons.
  assert (Hn : ∀ s, s ∈ "spec-init" :: dex_names ns b → s ∉ map nn_service ns).
  { intros s Hs Hin. apply list_elem_of_In, in_map_iff in Hin as (n & <- & Hin%list_elem_of_In). apply elem_of_nodes in Hin as (k & c & _ & ->).
    apply dex_names_not_node in Hs. by apply (not_node_service l _ (0 + Z.of_nat k) c Hs). }
  constructor; [rewrite elem_of_app; intros [H|H]; [by apply (Hn "spec-init"); [left|]|done]|]. apply NoDup_app. split_and!; [apply services_nodup| |done].
  intros s Hs Hd. apply (Hn s); [by right|done].
Qed.
Lemma services_list name : services name l ns b = map (label_service name l ns) (service_list l ns b).
Proof.
  pose proof names_nodup as Hnd. unfold services. destruct (pj_image _) as [pj image] eqn:Ei.
  f_equal. unfold service_list, dex_services, init_service, the_ctx in *. rewrite Ei in *. cbn [fst snd x_pj_image] in *.
  set (x := Ctx _ _ _) in *. set (init := [("build", _); _; _; _; _; _]) in *.
  assert (Hf : foldl (λ d n, dset (nn_service n) (YDict (ADAPTERS n l x)) d) [("spec-init", YDict init)] ns =
    ("spec-init", YDict init) :: map (λ n, (nn_service n, YDict (ADAPTERS n l x))) ns).
  { rewrite (foldl_dset (λ n, YDict (ADAPTERS n l x))), dupdate_fresh; [done|]. cbn [map fst] in Hnd |- *. rewrite List.map_app in Hnd. cbn [app].
    apply NoDup_cons in Hnd as [H1 H2]. apply NoDup_app in H2 as [H2 _]. constructor; [|done]. intros H. apply H1, elem_of_app. by left. }
  rewrite Hf. destruct b as [[]|]; [rewrite dupdate_fresh by (rewrite <- List.map_app; exact Hnd)..|by rewrite app_nil_r]; done.
Qed.
End document.
(** ** What a document says of its services *)
Definition services_of (doc : yaml) : dict :=
  match doc with YDict d => match dget "services" d with Some (YDict ss) => ss | _ => [] end | _ => [] end.
Definition texts (v : option yaml) : list string := match v with Some (YList l) => omap (λ y, match y with YStr t => Some t | _ => None end) l | _ => [] end.
Definition field (k : string) (v : yaml) : option yaml := match v with YDict d => dget k d | _ => None end.
(** The services a service waits for *)
Definition depends (v : yaml) : list string := match field "depends_on" v with Some (YDict d) => map fst d | o => texts o end.
(** The host ports a service publishes: the protocol (is it udp?) and the port, of [[address:]host:container[/udp]] *)
Definition binding (t : string) : option (bool * Z) :=
  match reverse (split ":" t) with
  | container :: host :: _ => match py_int host with Ok p => Some (bool_decide (split "/" container !! 1%nat = Some "udp"), p) | Raise _ => None end
  | _ => None
  end.
Definition published (doc : yaml) : list (option (bool * Z)) := map binding (concat (map (λ kv, texts (field "ports" kv.2)) (services_of doc))).

Lemma port_field z : 0 ≤ z → split ":" (pretty z) = [pretty z].
Proof. intros Hz. apply split_none, digits_avoid; [done|]. by intros []. Qed.

Lemma colon t : ":" +:+ t = String ":" t.
Proof. reflexivity. Qed.
Lemma binding_udp p : 0 ≤ p → binding (udp p) = Some (true, p).
Proof.
  intros Hp. unfold binding, udp. rewrite !colon. rewrite !split_append, port_field by done.
  assert (Hc : split ":" (pretty p +:+ "/udp") = [pretty p +:+ "/udp"]).
  { apply split_none. assert (Hd := digits_avoid p ":" Hp ltac:(by intros [])). revert Hd. generalize (pretty p). intros t.
    induction t as [|x t IH]; [rewrite append_nil|rewrite append_cons].
    - intros _. repeat (apply all_chars_cons; split; [done|]). apply all_chars_nil.
    - intros [H1 H2]%all_chars_cons. apply all_chars_cons. auto. }
  rewrite Hc, !reverse_app. cbn [reverse rev_append app]. rewrite py_int_pretty by done. f_equal. f_equal. apply bool_decide_eq_true.
  change "/udp" with (String "/" "udp"). rewrite split_append, split_none by (apply digits_avoid; [done|by intros []]). done.
Qed.
Lemma binding_tcp pre p q : 0 ≤ p → all_chars (λ x, x ≠ ":"%char ∧ x ≠ "/"%char) q → binding (pre +:+ pretty p +:+ String ":" q) = binding (pretty p +:+ String ":" q) →
  binding (pre +:+ pretty p +:+ String ":" q) = Some (false, p).
Proof.
  intros Hp Hq ->. unfold binding. rewrite split_append, port_field by done.
  rewrite split_none by (intros c Hc; by apply Hq). cbn [reverse rev_append app]. rewrite py_int_pretty by done. f_equal. f_equal.
  rewrite split_none by (intros c Hc; by apply Hq). done.
Qed.
Lemma binding_local p q : 0 ≤ p → all_chars (λ x, x ≠ ":"%char ∧ x ≠ "/"%char) q → binding ("127.0.0.1:" +:+ pretty p +:+ String ":" q) = Some (false, p).
Proof.
  intros Hp Hq. apply binding_tcp; [done..|]. unfold binding. change ("127.0.0.1:" +:+ ?t) with ("127.0.0.1" +:+ String ":" t).
  rewrite (split_append ":" "127.0.0.1"), split_append, port_field, (split_none ":" q) by (done || by intros c Hc; apply Hq). done.
Qed.
Lemma digits_plain p : 0 ≤ p → all_chars (λ x, x ≠ ":"%char ∧ x ≠ "/"%char) (pretty p).
Proof. intros Hp c Hc. pose proof (pretty_digits p Hp c Hc) as Hd. by split; intros ->. Qed.

(** *** The explicit list of host ports *)
Definition node_binds (n : nnode) : list (bool * Z) := (true, nn_port n) :: match nn_rpc n with Some r => [(false, r)] | None => [] end.
Definition dex_binds (l : layout) (b : option backend) : list (bool * Z) :=
  let dex := [(false, 8200 + l_net l); (false, netwatch_port l)] in
  match b with
  | None => []
  | Some Reader => dex
  | Some Gateway => (true, (gateway_ports l).1) :: (false, (gateway_ports l).2) :: dex
  end.
Section published.
Context (l : layout) (cs : list client) (b : option backend).
Hypothesis net_range : 1 ≤ l_net l.
Notation ns := (nodes_from l 0 cs).

Lemma label_ports name kv : texts (field "ports" (label_service name l ns kv).2) = texts (field "ports" kv.2).
Proof. unfold label_service. destruct kv as [k [| | |d|]]; try done. cbn [fst snd]. case_match; [|done]. cbn [field snd]. by rewrite dget_dset_ne. Qed.
Lemma node_ports x n k c : n = nnode_at l (0 + Z.of_nat k) c → map binding (texts (field "ports" (YDict (ADAPTERS n l x)))) = map Some (node_binds n).
Proof.
  intros ->. assert (Hp : 0 ≤ nn_port (nnode_at l (0 + Z.of_nat k) c)) by (cbn; lia).
  assert (Hr : 0 ≤ 42000 + 100 * l_net l + (0 + Z.of_nat k)) by lia.
  assert (Hb : binding (rpc_port (42000 + 100 * l_net l + (0 + Z.of_nat k))) = Some (false, 42000 + 100 * l_net l + (0 + Z.of_nat k))).
  { unfold rpc_port. rewrite !colon. apply binding_local; [done|by apply digits_plain]. }
  set (u := nn_port _) in *. destruct c; cbn [texts field ADAPTERS nn_client nnode_at];
    [change (map binding [udp u] = map Some [(true, u)])|change (map binding [udp u; rpc_port (42000 + 100 * l_net l + (0 + Z.of_nat k))] = map Some [(true, u); (false, 42000 + 100 * l_net l + (0 + Z.of_nat k))])..];
    cbn [map]; by rewrite binding_udp, ?Hb by done.
Qed.
Lemma concat_ports (l1 l2 : dict) : concat (map (λ kv, texts (field "ports" kv.2)) (l1 ++ l2)) =
  concat (map (λ kv, texts (field "ports" kv.2)) l1) ++ concat (map (λ kv, texts (field "ports" kv.2)) l2).
Proof. by rewrite List.map_app, concat_app. Qed.
Lemma dex_ports_ok : map binding (concat (map (λ kv, texts (field "ports" kv.2)) (dex_services l ns b))) = map Some (dex_binds l b).
Proof.
  assert (Hd : binding (pretty (8200 + l_net l) +:+ ":8080") = Some (false, 8200 + l_net l)).
  { change ":8080" with (String ":" "8080"). rewrite <- (append_nil (pretty _ +:+ _)). apply binding_tcp; [lia| |done].
    repeat (apply all_chars_cons; split; [done|]). apply all_chars_nil. }
  assert (Hw : binding ("127.0.0.1:" +:+ pretty (netwatch_port l) +:+ ":9106") = Some (false, netwatch_port l)).
  { change ":9106" with (String ":" "9106"). apply binding_local; [unfold netwatch_port; lia|].
    repeat (apply all_chars_cons; split; [done|]). apply all_chars_nil. }
  destruct b as [[]|]; cbn [dex_services]; [| |done].
  - unfold dex_services_reader. rewrite !concat_ports, map_map, !map_app.
    assert (Hz : ∀ (m : list nnode) (g : nnode → list string), (∀ n, g n = []) → concat (map g m) = []).
    { intros m g Hg. induction m as [|n m IH]; [done|]. cbn [map concat]. by rewrite Hg, IH. }
    match goal with |- context [concat (map ?g (lasair_nodes ns))] => rewrite (Hz _ g) by done end.
    match goal with |- ?a ++ ?b ++ ?c = _ => change (a ++ b ++ c) with [binding (pretty (8200 + l_net l) +:+ ":8080"); binding ("127.0.0.1:" +:+ pretty (netwatch_port l) +:+ ":9106")] end.
    by rewrite Hd, Hw.
  - match goal with |- ?a = _ => change a with [binding (udp (gateway_ports l).1); binding (rpc_port (gateway_ports l).2);
      binding (pretty (8200 + l_net l) +:+ ":8080"); binding ("127.0.0.1:" +:+ pretty (netwatch_port l) +:+ ":9106")] end.
    rewrite Hd, Hw, binding_udp by (cbn; lia). unfold rpc_port. rewrite !colon.
    rewrite binding_local; [done|cbn; lia|]. apply digits_plain. cbn. lia.
Qed.
Lemma published_ok name : map binding (concat (map (λ kv, texts (field "ports" kv.2)) (services name l ns b))) =
  map Some (concat (map node_binds ns) ++ dex_binds l b).
Proof.
  rewrite services_list, (map_map (label_service name l ns)), (map_ext _ _ (label_ports name)). unfold service_list. cbn [map concat].
  rewrite concat_ports, !map_app, dex_ports_ok. change (map binding (texts (field "ports" (snd ("spec-init", YDict (init_service l ns b)))))) with (@nil (option (bool * Z))).
  cbn [app]. f_equal. rewrite map_map. cbn [snd]. rewrite !concat_map, !map_map. f_equal. apply map_ext_in. intros n Hn%list_elem_of_In.
  apply elem_of_nodes in Hn as (k & c & _ & E). by eapply node_ports.
Qed.
End published.
(** *** Where the host ports lie *)
Definition in_block (base len : Z) (p : Z) : Prop := base ≤ p < base + len.
Definition net_port (l : layout) (bd : bool * Z) : Prop :=
  if bd.1 then in_block (ports l).1 51 bd.2 else in_block (ports l).2 51 bd.2 ∨ bd.2 = 8200 + l_net l ∨ bd.2 = netwatch_port l.

Lemma node_binds_eq l i c : node_binds (nnode_at l i c) =
  (true, (ports l).1 + i) :: if bool_decide (c = Lasair) then [] else [(false, (ports l).2 + i)].
Proof. unfold node_binds. cbn. by case_bool_decide. Qed.
Lemma node_binds_at l cs : ∀ i (bd : bool * Z), bd ∈ concat (map node_binds (nodes_from l i cs)) →
  in_block ((if bd.1 then (ports l).1 else (ports l).2) + i) (Z.of_nat (length cs)) bd.2.
Proof.
  induction cs as [|c cs IH]; intros i bd; cbn [nodes_from map concat length]; [intros H; by apply not_elem_of_nil in H|].
  rewrite elem_of_app. unfold in_block in *. intros [H|H].
  - rewrite node_binds_eq in H. apply elem_of_cons in H as [->|H]; [cbn; lia|].
    destruct (bool_decide (c = Lasair)); [by apply not_elem_of_nil in H|]. apply list_elem_of_singleton in H as ->. cbn. lia.
  - specialize (IH _ _ H). destruct bd as [[] p]; cbn [fst snd] in *; lia.
Qed.
Lemma node_binds_nodup l cs : ∀ i, NoDup (concat (map node_binds (nodes_from l i cs))).
Proof.
  induction cs as [|c cs IH]; intros i; cbn [nodes_from map concat]; [constructor|]. apply NoDup_app. split_and!; [| |apply IH].
  - rewrite node_binds_eq. destruct (bool_decide (c = Lasair)); apply NoDup_cons; split; try apply NoDup_singleton; try apply NoDup_nil_2.
    + apply not_elem_of_nil.
    + by rewrite list_elem_of_singleton.
  - intros bd H H'. apply node_binds_at in H'. assert (H2 := node_binds_at l [c] i bd). cbn [nodes_from map concat] in H2. rewrite app_nil_r in H2.
    specialize (H2 H). unfold in_block in *. cbn [length] in H2. lia.
Qed.
Definition small (l : layout) (cs : list client) : Prop := 1 ≤ l_net l ≤ 99 ∧ (length cs ≤ 50)%nat.
Lemma binds_in_net l cs b bd : (length cs ≤ 50)%nat → bd ∈ concat (map node_binds (nodes_from l 0 cs)) ++ dex_binds l b → net_port l bd.
Proof.
  intros Hs. rewrite elem_of_app. unfold net_port. intros [H|H].
  - apply node_binds_at in H. unfold in_block in *. destruct bd as [[] p]; cbn [fst snd] in *; lia.
  - destruct b as [[]|]; cbn [dex_binds] in H; [| |by apply not_elem_of_nil in H]; rewrite !elem_of_cons, elem_of_nil in H; unfold in_block, gateway_ports in *;
      destruct_or?; subst; cbn; auto; try lia; done.
Qed.
Lemma binds_nodup l cs b : small l cs → NoDup (concat (map node_binds (nodes_from l 0 cs)) ++ dex_binds l b).
Proof.
  intros [Hn Hs]. apply NoDup_app. split_and!; [apply node_binds_nodup| |].
  - intros bd H H'. apply node_binds_at in H. unfold in_block in H.
    destruct b as [[]|]; cbn [dex_binds] in H'; [| |by apply not_elem_of_nil in H']; rewrite !elem_of_cons, elem_of_nil in H'; unfold gateway_ports, netwatch_port in *;
      destruct_or?; subst; cbn in *; lia.
  - destruct b as [[]|]; unfold dex_binds, gateway_ports, ports, netwatch_port; cbn [fst snd];
      repeat (apply NoDup_cons; split; [rewrite ?elem_of_cons, ?elem_of_nil; intros H; destruct_or?; simplify_eq; lia|]); apply NoDup_nil_2.
Qed.
Lemma compose_published name l doc : 1 ≤ l_net l → compose name l = Ok doc →
  ∃ cs b, parse_clients (l_clients l) = Ok cs ∧ dex_backend l = Ok b ∧ services_of doc = services name l (nodes_from l 0 cs) b ∧
    published doc = map Some (concat (map node_binds (nodes_from l 0 cs)) ++ dex_binds l b).
Proof.
  intros Hn H. unfold compose in H. apply bind_ok in H as (ns & Hns & H). apply bind_ok in H as (b & Hb & H). injection H as <-.
  unfold nodes in Hns. apply bind_ok in Hns as (cs & Hcs & [= <-]). exists cs, b. split_and!; [done..|]. unfold published. by apply published_ok.
Qed.

(** (C35) Every generated net can run next to every other on one host. For layouts of at most 50 validators with net numbers 1 to 99, the
    host ports the generated compose document publishes, read back from the document's port strings, are all well formed and within
    range, no two services of a net publish the same port, and two nets with different numbers publish no port in common. *)
Theorem published_ports_disjoint name1 l1 doc1 name2 l2 doc2 cs1 cs2 :
  compose name1 l1 = Ok doc1 → compose name2 l2 = Ok doc2 →
  parse_clients (l_clients l1) = Ok cs1 → parse_clients (l_clients l2) = Ok cs2 → small l1 cs1 → small l2 cs2 →
  NoDup (published doc1) ∧
  (∀ o, o ∈ published doc1 → ∃ udp p, o = Some (udp, p) ∧ 8200 < p < 65536) ∧
  (l_net l1 ≠ l_net l2 → ∀ o, o ∈ published doc1 → o ∉ published doc2).
Proof.
  intros H1 H2 Hc1 Hc2 [Hn1 Hs1] [Hn2 Hs2].
  destruct (compose_published name1 l1 doc1 ltac:(lia) H1) as (cs1' & b1 & Hp1 & _ & _ & P1). rewrite Hc1 in Hp1. injection Hp1 as <-.
  destruct (compose_published name2 l2 doc2 ltac:(lia) H2) as (cs2' & b2 & Hp2 & _ & _ & P2). rewrite Hc2 in Hp2. injection Hp2 as <-.
  assert (Hin : ∀ o, o ∈ published doc1 → ∃ bd, o = Some bd ∧ net_port l1 bd).
  { intros o. rewrite P1, list_elem_of_In, in_map_iff. intros (bd & <- & Hbd%list_elem_of_In). exists bd. split; [done|]. by apply (binds_in_net l1 cs1 b1). }
  split_and!.
  - rewrite P1. by apply (NoDup_fmap_2 Some), binds_nodup.
  - intros o (bd & -> & Hb)%Hin. exists bd.1, bd.2. split; [by destruct bd|]. unfold net_port, in_block, netwatch_port in Hb. destruct bd as [[] p]; cbn in *; lia.
  - intros Hne o (bd & -> & Hb)%Hin. rewrite P2, list_elem_of_In, in_map_iff. intros (bd' & [= ->] & Hbd%list_elem_of_In).
    apply binds_in_net in Hbd; [|done]. unfold net_port, in_block, netwatch_port in *. destruct bd as [[] p]; cbn in *; lia.
Qed.
(** ** Every service is labelled and waits only for services of its net *)
Lemma map_omap_texts (ts : list string) : omap (λ y, match y with YStr t => Some t | _ => None end) (map YStr ts) = ts.
Proof. induction ts as [|t ts IH]; [done|]. cbn. by rewrite IH. Qed.
Section closed.
Context (name : string) (l : layout) (cs : list client) (b : option backend).
Hypothesis Hb : dex_backend l = Ok b.
Hypothesis Hcs : parse_clients (l_clients l) = Ok cs.
Notation ns := (nodes_from l 0 cs).

Lemma label_name kv : (label_service name l ns kv).1 = kv.1.
Proof. unfold label_service. by destruct kv as [k [| | |d|]]; cbn; try case_match. Qed.
Lemma label_depends kv : depends (label_service name l ns kv).2 = depends kv.2.
Proof.
  unfold label_service. destruct kv as [k [| | |d|]]; try done. cbn [fst snd]. case_match; [|done]. unfold depends. cbn [field snd].
  by rewrite dget_dset_ne.
Qed.
Lemma names_of_list : map fst (services name l ns b) = map fst (service_list l ns b).
Proof. rewrite services_list, map_map. apply map_ext. apply label_name. Qed.

Lemma labelled s : s ∈ map fst (service_list l ns b) → is_Some (label_for name l ns s).
Proof.
  intros Hs. unfold label_for. destruct (node_named ns s) as [n|] eqn:En; [unfold obs_labels; destruct (nn_client n); eauto|].
  destruct (list_find _ (reader_services ns)) as [[j [nd r]]|] eqn:Er; [eauto|]. destruct (String.eqb_spec s "rpc") as [->|Hrpc]; [eauto|].
  assert (Hk : is_Some (kind_of s)); [|destruct Hk as [kd Hk]; rewrite Hk; unfold obs_labels; rewrite Hk; destruct kd as [[? ?] ?]; eauto].
  unfold service_list in Hs. cbn [map fst] in Hs. rewrite List.map_app, map_map, dex_services_names in Hs. cbn [fst] in Hs.
  rewrite elem_of_cons, elem_of_app in Hs. destruct Hs as [->|[Hs|Hs]]; [eauto| |].
  - exfalso. apply list_elem_of_In, in_map_iff in Hs as (n & <- & Hn%list_elem_of_In). unfold node_named in En.
    apply fmap_None in En. rewrite list_find_None, Forall_forall in En. by apply (En n Hn).
  - assert (Hr : s ∉ reader_names ns).
    { intros H. apply list_elem_of_In, in_map_iff in H as (kv & <- & Hk%list_elem_of_In). rewrite list_find_None, Forall_forall in Er. by apply (Er kv Hk). }
    destruct b as [[]|]; cbn [dex_names] in Hs; rewrite ?elem_of_cons, ?elem_of_app, ?elem_of_cons, ?elem_of_nil in Hs; destruct_or?; try done; subst; eauto.
Qed.
Lemma services_labelled kv : kv ∈ service_list l ns b → ∃ d, (label_service name l ns kv).2 = YDict d ∧ is_Some (dget "labels" d).
Proof.
  intros Hin. assert (Hd : ∃ d, kv.2 = YDict d).
  { unfold service_list in Hin. rewrite elem_of_cons, elem_of_app in Hin. destruct Hin as [->|[H|H]]; [eauto| |].
    - apply list_elem_of_In, in_map_iff in H as (n & <- & _). eauto.
    - destruct b as [[]|]; cbn [dex_services] in H; [| |by apply not_elem_of_nil in H].
      + unfold dex_services_reader in H. rewrite !elem_of_app, list_elem_of_singleton, !elem_of_cons, elem_of_nil in H.
        destruct H as [->|[H|H]]; [eauto| |destruct_or?; subst; eauto]. apply list_elem_of_In, in_map_iff in H as (n & <- & _). eauto.
      + unfold dex_services_gateway in H. cbn in H. rewrite !elem_of_cons, elem_of_nil in H. destruct_or?; subst; eauto. }
  destruct Hd as [d Hd]. destruct (labelled kv.1) as [lb Hl]; [apply list_elem_of_In, in_map, list_elem_of_In; done|].
  unfold label_service. rewrite Hd, Hl. exists (dset "labels" lb d). split; [done|]. rewrite dget_dset. eauto.
Qed.

Lemma init_in : "spec-init" ∈ map fst (service_list l ns b).
Proof. left. Qed.
Lemma dex_in s : s ∈ dex_names ns b → s ∈ map fst (service_list l ns b).
Proof.
  intros H. unfold service_list. cbn [map fst]. rewrite List.map_app, dex_services_names. right. apply elem_of_app. by right.
Qed.
Lemma reader_backend : b = Some Reader → Lasair ∈ cs.
Proof.
  intros ->. unfold dex_backend in Hb. destruct (negb (l_dex l)); [done|]. rewrite Hcs in Hb. cbn in Hb. by case_bool_decide.
Qed.
Lemma first_reader : Lasair ∈ cs → ∃ n, head (lasair_nodes ns) = Some n ∧ reader_of (reader_services ns) (nn_service n) = Some "reader" ∧ "reader" ∈ reader_names ns.
Proof.
  intros [k Hk]%list_elem_of_lookup. assert (Hn : nnode_at l (0 + Z.of_nat k) Lasair ∈ lasair_nodes ns).
  { apply list_elem_of_filter. split; [done|]. apply elem_of_nodes. eauto. }
  unfold reader_names, reader_services. destruct (lasair_nodes ns) as [|n rest]; [by apply not_elem_of_nil in Hn|]. exists n. split_and!; [done| |left].
  unfold reader_of. cbn [list_find]. by rewrite decide_True.
Qed.
Lemma depends_closed kv s : kv ∈ service_list l ns b → s ∈ depends kv.2 → s ∈ map fst (service_list l ns b).
Proof.
  intros Hin Hs. assert (Hi : s ∈ ["spec-init"] → s ∈ map fst (service_list l ns b)) by (intros ->%list_elem_of_singleton; apply init_in).
  unfold service_list in Hin. rewrite elem_of_cons, elem_of_app in Hin. destruct Hin as [->|[H|H]]; [by apply not_elem_of_nil in Hs| |].
  - apply list_elem_of_In, in_map_iff in H as (n & <- & _). apply Hi. by destruct n as [? [] ? ? ? ?].
  - pose proof dex_in as Hdex. pose proof reader_backend as Hrb. clear Hb. destruct b as [[]|]; cbn [dex_services dex_names] in H, Hdex; [| |by apply not_elem_of_nil in H].
    + destruct (first_reader (Hrb eq_refl)) as (n & Hh & Hr & Hin).
      unfold dex_services_reader in H. rewrite !elem_of_app, list_elem_of_singleton, !elem_of_cons, elem_of_nil in H.
      destruct H as [->|[H|[->|[->|[->|[]]]]]]; [by apply Hi| | | |].
      * apply list_elem_of_In, in_map_iff in H as (m & <- & _). by apply Hi.
      * rewrite Hh in Hs. cbn [fmap option_fmap option_map mbind option_bind] in Hs. rewrite Hr in Hs. cbn in Hs.
        apply list_elem_of_singleton in Hs as ->. apply Hdex. right. apply elem_of_app. by left.
      * cbn in Hs. apply list_elem_of_singleton in Hs as ->. apply Hdex. right. apply elem_of_app. right. left.
      * apply Hdex. right. apply elem_of_app. left. unfold depends, field in Hs. cbn [snd netwatch dget String.eqb Ascii.eqb Bool.eqb andb] in Hs.
        unfold texts, strs in Hs. rewrite map_omap_texts in Hs. by rewrite elem_of_sort_by in Hs.
    + unfold dex_services_gateway in H. cbn in H. rewrite !elem_of_cons, elem_of_nil in H. destruct H as [->|[->|[->|[->|[]]]]].
      * by apply Hi.
      * cbn in Hs. rewrite !elem_of_cons, elem_of_nil in Hs. destruct Hs as [->|[->|[]]]; [apply Hi; left|apply Hdex; left].
      * cbn in Hs. apply list_elem_of_singleton in Hs as ->. apply Hdex. right. left.
      * by apply Hi.
Qed.
End closed.

(** A generated compose document is closed: its services have distinct names, every service carries the labels the observability
    stack discovers it by, and every service another one waits for ([depends_on]) is a service of the same document. *)
Theorem compose_closed name l doc :
  compose name l = Ok doc →
  NoDup (map fst (services_of doc)) ∧
  ∀ s v, (s, v) ∈ services_of doc →
    (∃ d, v = YDict d ∧ is_Some (dget "labels" d)) ∧ ∀ t, t ∈ depends v → t ∈ map fst (services_of doc).
Proof.
  intros H. unfold compose in H. apply bind_ok in H as (ns & Hns & H). apply bind_ok in H as (b & Hb & H). injection H as <-.
  unfold nodes in Hns. apply bind_ok in Hns as (cs & Hcs & [= <-]).
  change (services_of _) with (services name l (nodes_from l 0 cs) b). rewrite (names_of_list name l cs b). split; [apply names_nodup|].
  intros s v Hin. rewrite services_list in Hin. apply list_elem_of_In, in_map_iff in Hin as (kv & E & Hkv%list_elem_of_In).
  apply (f_equal snd) in E. cbn in E. subst v. split; [by apply (services_labelled name l cs b)|]. intros t. rewrite label_depends.
  by apply (depends_closed l cs b Hb Hcs).
Qed.
(** ** The committed profiles *)
Definition generated_layouts : list (string * layout) :=
  omap (λ kv, match kv.2 with Layered l => Some (kv.1, l) | HandWritten _ => None end) PROFILES.
(** Net numbers are distinct and in range, layouts parse and are small, and every one composes and renders. *)
Example profiles_fit :
  NoDup (map (λ kv : string * layout, l_net kv.2) generated_layouts) ∧
  forallb (λ kv : string * layout, (1 <=? l_net kv.2) && (l_net kv.2 <=? 99) && match parse_clients (l_clients kv.2) with Ok cs => (length cs <=? 50)%nat | Raise _ => false end)
    generated_layouts = true.
Proof. split; [apply (bool_decide_eq_true_1 _)|]; vm_compute; reflexivity. Qed.

(** The text generated for the net pj6, by its length and a checksum of its characters; the right-hand side is that of
    nets/compose/pj6.yml as committed. *)
Fixpoint text_sum (n h : Z) (s : string) : Z * Z := match s with EmptyString => (n, h) | String c s' => text_sum (n + 1) ((h * 257 + char_code c) mod 2147483647) s' end.
Example rendered_as_committed :
  match profile_of "pj6" with
  | Some (Layered l) => match render "pj6" l with Ok t => text_sum 0 0 t | Raise _ => (0, 0) end
  | _ => (0, 0)
  end = (10691, 326120261).
Proof. vm_compute. reflexivity. Qed.

Definition pj6 : layout := Layout "pj,pj,pj,pj,pj,pj" 1 "grandpa" true "#17" "six".
Definition lasair_pj : layout := Layout "lasair,lasair,lasair,pj,pj,pj" 6 "grandpa" true "#20" "three and three".
Definition doc_of (name : string) (l : layout) : yaml := match compose name l with Ok d => d | Raise _ => YDict [] end.
Lemma doc_of_ok name l : is_ok (compose name l) = true → compose name l = Ok (doc_of name l).
Proof. unfold doc_of. by destruct (compose name l). Qed.
Lemma published_ports_disjoint_witness : NoDup (published (doc_of "pj6" pj6)) ∧
  ∀ o, o ∈ published (doc_of "pj6" pj6) → o ∉ published (doc_of "lasair-pj" lasair_pj).
Proof.
  pose proof (published_ports_disjoint "pj6" pj6 (doc_of "pj6" pj6) "lasair-pj" lasair_pj (doc_of "lasair-pj" lasair_pj)
    (replicate 6 Polkajam) (replicate 3 Lasair ++ replicate 3 Polkajam)) as H.
  destruct H as (H1 & _ & H3); [apply doc_of_ok; vm_compute; reflexivity|apply doc_of_ok; vm_compute; reflexivity|vm_compute; reflexivity|vm_compute; reflexivity|
    split; cbn; lia|split; cbn; lia|].
  split; [exact H1|]. apply H3. done.
Defined.
Lemma compose_closed_witness : NoDup (map fst (services_of (doc_of "lasair-pj" lasair_pj))).
Proof. apply (compose_closed "lasair-pj" lasair_pj). apply doc_of_ok. vm_compute. reflexivity. Defined.

(** The minter, run in the container of a net *)
Definition net_run := main sample_tools (container_env "" lasair_pj (Some Reader)) ∅.
Lemma genesis_matches_compose_witness : ∃ t, net_run.2 !! "nodes.json" = Some (NodesJson t) ∧
  map genesis_row (tp_nodes t) = map (compose_row "") (nodes_from lasair_pj 0 (replicate 3 Lasair ++ replicate 3 Polkajam)).
Proof.
  pose proof (genesis_matches_compose sample_tools "" lasair_pj (Some Reader) (nodes_from lasair_pj 0 (replicate 3 Lasair ++ replicate 3 Polkajam)) ∅) as H.
  fold net_run in H. assert (Hm : was_minted net_run.1 = true) by (vm_compute; reflexivity). destruct net_run as [r fs]. cbn in Hm |- *.
  destruct r as [[cs| |]|]; try done. destruct (H cs fs) as [_ Ht]; [done|vm_compute; reflexivity|done|done|exact Ht].
Defined.

(** ** Shell quoting

    What the shell makes of a word of single-quoted parts and backslash-escaped characters *)
Fixpoint unquote (quoted : bool) (s : string) : option string :=
  match s with
  | EmptyString => if quoted then None else Some ""
  | String c s' =>
      if char_code c =? 39 then unquote (negb quoted) s'
      else if (char_code c =? 92) && negb quoted then match s' with String d s'' => String d <$> unquote false s'' | EmptyString => None end
      else String c <$> unquote quoted s'
  end.
Lemma unquote_tick b x : unquote b (String "'" x) = unquote (negb b) x.
Proof. reflexivity. Qed.
Lemma unquote_body (s t : string) : unquote true (quote_body s +:+ "'" +:+ t) = (String.append s) <$> unquote false t.
Proof.
  induction s as [|c s IH]; cbn [quote_body].
  { rewrite append_nil. change ("'" +:+ t) with (String "'" t). rewrite unquote_tick. cbn [negb]. by destruct (unquote false t). }
  rewrite append_assoc. destruct (char_code c =? 39) eqn:Ec.
  - assert (c = "'"%char) as ->.
    { apply Z.eqb_eq in Ec. unfold char_code in Ec. rewrite <- (ascii_N_embedding c). by replace (N_of_ascii c) with 39%N by lia. }
    change ("'\''" +:+ ?x) with (String "'" (String "\" (String "'" (String "'" x)))). rewrite unquote_tick. cbn [negb].
    change (unquote false (String "\" (String "'" ?x))) with (String "'" <$> unquote false x). rewrite unquote_tick. cbn [negb]. rewrite IH.
    by destruct (unquote false t).
  - rewrite append_cons, append_nil. cbn [unquote]. rewrite Ec, andb_false_r, IH. by destruct (unquote false t).
Qed.
(** The shell gets back the value that was quoted. *)
Lemma sh_unquote v : unquote false (sh v) = Some v.
Proof.
  unfold sh. change ("'" +:+ quote_body v +:+ "'") with (String "'" (quote_body v +:+ "'" +:+ "")). cbn [unquote].
  change (char_code "'" =? 39) with true. cbn [negb]. rewrite unquote_body. cbn. f_equal. induction v as [|c v IH]; [done|]. by rewrite append_cons, IH.
Qed.
End Netgen.
