(* ===== verification/Http.v ===== *)
(** * The HTTP front: server.py, class H

    [do_GET] and [do_POST]: routing, the reply each outcome of a handler becomes, the request counters, static files and the
    event stream.  A handler is a computation on the application's state; JSON decoding and encoding, the file system and
    the connection are parameters.  A text is a list of code points where its characters matter, an ASCII string elsewhere. *)
From S2P Require Import Prelude Bytes Genesis Door DoorSafety.
From Stdlib Require Import Ascii.
#[local] Open Scope string_scope.
#[local] Open Scope list_scope.
#[local] Open Scope Z_scope.

Module Http.

(** ** [refusal_reason]: the message's first clause, numbers masked, at most 60 characters *)
Notation text := (list Z).
(** [\d] of a text pattern: the decimal digits of Unicode 14, ten from each of these zeros *)
Definition digit_zeros : list Z :=
  [48; 1632; 1776; 1984; 2406; 2534; 2662; 2790; 2918; 3046; 3174; 3302; 3430; 3558; 3664; 3792; 3872; 4160; 4240; 6112; 6160; 6470;
   6608; 6784; 6800; 6992; 7088; 7232; 7248; 42528; 43216; 43264; 43472; 43504; 43600; 44016; 65296; 66720; 68912; 69734; 69872; 69942;
   70096; 70384; 70736; 70864; 71248; 71360; 71472; 71904; 72016; 72784; 73040; 73120; 92768; 92864; 93008; 120782; 120792; 120802;
   120812; 120822; 123200; 123632; 125264; 130032].
Definition is_num (c : Z) : bool := existsb (λ z, (z <=? c) && (c <? z + 10)) digit_zeros.
(** [re.split(" — |: |; ", text, maxsplit=1)[0]]; the dash is U+2014 *)
Fixpoint first_clause (t : text) : text :=
  match t with
  | 32 :: 8212 :: 32 :: _ => []
  | 58 :: 32 :: _ => []
  | 59 :: 32 :: _ => []
  | c :: t' => c :: first_clause t'
  | [] => []
  end.
(** [re.sub("\d[\d.,]*", "N", text)]: [inside] a number, digits, points and commas are dropped *)
Fixpoint mask (inside : bool) (t : text) : text :=
  match t with
  | [] => []
  | c :: t' =>
      if is_num c then if inside then mask true t' else 78 :: mask true t'
      else if inside && ((c =? 46) || (c =? 44)) then mask true t'
      else c :: mask false t'
  end.
Definition code_points (s : string) : text := map (λ c, Z.of_N (N_of_ascii c)) (String.list_ascii_of_string s).
Definition refusal_reason (msg : text) : text :=
  match take 60 (mask false (first_clause msg)) with [] => code_points "unknown" | l => l end.

(** ** Replies and counters *)
Record reply := Reply { rp_code : Z; rp_body : bytes; rp_type : string; rp_cache : option string }.
Inductive count : Type :=
| Requests (route : string) (code : Z)                 (* jamswap_api_requests_total *)
| Refused (route : string) (reason : text)             (* jamswap_api_refused_total *)
| Errors (route : string).                             (* jamswap_api_errors_total *)

(** Opening a file: its bytes, [FileNotFoundError], or another error *)
Inductive opened := Bytes_ (b : bytes) | NotFound | Unreadable (e : exn).
(** [os.path.join(d, fn)] with a relative [fn] *)
Fixpoint ends_with (suffix s : string) : bool :=
  String.eqb s suffix || match s with EmptyString => false | String _ s' => ends_with suffix s' end.
Definition os_join (d fn : string) : string := if String.eqb d "" || ends_with "/" d then d +:+ fn else d +:+ "/" +:+ fn.

Section handler.
Context {S J : Type}.
(** The body of an error reply; [json.loads] and [json.dumps]; the message of an exception *)
Context (loads : bytes → result J) (dumps : J → result bytes) (error_body : exn → bool → bytes) (message : exn → text).
(** The outcome of the n-th write to the connection; the file system and the directory WEB; the metrics page *)
Context (wire : nat → result unit) (disk : string → opened) (WEB : string) (metrics_page : S → bytes).
Context (routes_get routes_post : list (string * (J → SE S J))).
Context (query_json : gmap string string → J).
Context (stream : J → SE S J).

(** The application's state, the replies begun, the counters and the events written to a stream *)
Record front := Front { f_app : S; f_sent : list reply; f_counts : list count; f_events : list bytes }.
Notation F := (SE front).
Record request := Request { rq_path : string; rq_length : option string; rq_read : Z → bytes }.

(** The Cache-Control header of a reply *)
Definition cache_control (no_cache : bool) : option string := if no_cache then Some "no-store, must-revalidate" else None.
Definition send (code : Z) (body : bytes) (ctype : string) (no_cache : bool) : F unit := λ f,
  (wire (length (f_sent f) + length (f_events f)), Front (f_app f) (f_sent f ++ [Reply code body ctype (cache_control no_cache)]) (f_counts f) (f_events f)).
Definition stream_head : F unit := λ f,
  (wire (length (f_sent f) + length (f_events f)), Front (f_app f) (f_sent f ++ [Reply 200 [] "text/event-stream" (Some "no-cache")]) (f_counts f) (f_events f)).
Definition event (b : bytes) : F unit := λ f,
  (wire (length (f_sent f) + length (f_events f)), Front (f_app f) (f_sent f) (f_counts f) (f_events f ++ [b])).
Definition inc (c : count) : F unit := se_put (λ f, Front (f_app f) (f_sent f) (f_counts f ++ [c]) (f_events f)).
Definition app {A} (c : SE S A) : F A := λ f, let '(r, a) := c (f_app f) in (r, Front a (f_sent f) (f_counts f) (f_events f)).
Definition JSON : string := "application/json".

(** [self.path.split("?")[0]] *)
Definition path_of (full : string) : string := default "" (head (Genesis.split "?" full)).
Definition route (routes : list (string * (J → SE S J))) (path : string) : option (J → SE S J) :=
  (λ iv, iv.2.2) <$> list_find (λ kv, kv.1 = path) routes.

(** The code a handler's exception becomes *)
Definition code_of (e : exn) : Z := match e with ChainBusy _ => 503 | ValueError _ => 400 | _ => 500 end.

Definition do_POST (r : request) : F unit :=
  let path := path_of (rq_path r) in
  ln ← se_lift (match rq_length r with Some t => Genesis.py_int t | None => Ok 0 end);
  body ← se_lift (loads (match rq_read r ln with [] => Door.text "{}" | raw => raw end));
  match route routes_post path with
  | None => send 404 (error_body (KeyError "no route") false) JSON false
  | Some h =>
      out ← se_try (v ← app (h body); b ← se_lift (dumps v); _ ← send 200 b JSON false; inc (Requests path 200));
      match out with
      | Ok _ => mret tt
      | Raise (ChainBusy w) => _ ← send 503 (error_body (ChainBusy w) true) JSON false; inc (Requests path 503)
      | Raise (ValueError w) =>
          _ ← send 400 (error_body (ValueError w) false) JSON false; _ ← inc (Requests path 400); inc (Refused path (refusal_reason (message (ValueError w))))
      | Raise e => _ ← send 500 (error_body e false) JSON false; _ ← inc (Requests path 500); inc (Errors path)
      end
  end.

(** [dict(p.split("=") for p in query.split("&"))]: a piece that is not one name and one value raises. *)
Fixpoint parse_pieces (d : gmap string string) (ps : list string) : result (gmap string string) :=
  match ps with
  | [] => Ok d
  | p :: rest =>
      match Genesis.split "=" p with
      | [k; v] => parse_pieces (<[k := v]> d) rest
      | _ => Raise (ValueError "dictionary update sequence element has length other than 2")
      end
  end.
Definition parse_query (full : string) : result (gmap string string) :=
  match Genesis.split "?" full with _ :: q :: _ => parse_pieces ∅ (Genesis.split "&" q) | _ => Ok ∅ end.

Fixpoint lstrip_slash (s : string) : string := match s with String c s' => if Ascii.eqb c "/" then lstrip_slash s' else s | EmptyString => "" end.

(** One turn of the event stream: a snapshot, sent as an event *)
Definition stream_turn (q : J) (u : unit) : F (unit + unit) :=
  v ← app (stream q);
  b ← se_lift (dumps v);
  _ ← event (Door.text "data: " ++ b ++ [10; 10]);
  mret (inr tt).
Definition lost (e : exn) : bool := match e with OSError _ => true | _ => false end.

(** [None]: the stream still runs when the fuel is used up. *)
Definition do_GET (fuel : nat) (full : string) (f : front) : option (result unit * front) :=
  let path := path_of full in
  match parse_query full with
  | Raise e => Some (Raise e, f)
  | Ok kvs =>
      let q := query_json kvs in
      if String.eqb path "/api/stream" then
        match stream_head f with
        | (Raise e, f1) => Some (Raise e, f1)
        | (Ok _, f1) =>
            match iterate fuel (stream_turn q) tt f1 with
            | Some (Raise e, f') => Some (if lost e then Ok tt else Raise e, f')
            | Some (Ok _, f') => Some (Ok tt, f')
            | None => None
            end
        end
      else if String.eqb path "/metrics" then Some (send 200 (metrics_page (f_app f)) "text/plain; version=0.0.4" false f)
      else Some (match route routes_get path with
        | Some h =>
            (out ← se_try (v ← app (h q); b ← se_lift (dumps v); _ ← send 200 b JSON false; inc (Requests path 200));
             match out with
             | Ok _ => mret tt
             | Raise e => _ ← send 500 (error_body e false) JSON false; _ ← inc (Requests path 500); inc (Errors path)
             end) f
        | None =>
            let fn := if String.eqb path "/" then "index.html" else lstrip_slash path in
            match disk (os_join WEB fn) with
            | Bytes_ data => send 200 data (if ends_with ".html" fn then "text/html" else "application/javascript") true f
            | NotFound => send 404 (Door.text "not found") "text/plain" false f
            | Unreadable e => (Raise e, f)
            end
        end)
  end.

(** ** What a request gets *)
Section replies.
Hypothesis wire_up : ∀ k, wire k = Ok tt.

Lemma send_ok code b ct nc f : send code b ct nc f = (Ok tt, Front (f_app f) (f_sent f ++ [Reply code b ct (cache_control nc)]) (f_counts f) (f_events f)).
Proof. unfold send. by rewrite wire_up. Qed.

(** The reply a handler's run becomes *)
Definition outcome (h : J → SE S J) (body : J) (a : S) : result bytes * S := let '(r, a') := h body a in (v ← r; dumps v, a').
Definition counted (path : string) (r : result bytes) : list count :=
  match r with
  | Ok _ => [Requests path 200]
  | Raise (ChainBusy _) => [Requests path 503]
  | Raise (ValueError w) => [Requests path 400; Refused path (refusal_reason (message (ValueError w)))]
  | Raise _ => [Requests path 500; Errors path]
  end.
Definition code_for (r : result bytes) : Z := match r with Ok _ => 200 | Raise e => code_of e end.

Lemma attempt_run h body path f :
  se_try (v ← app (h body); b ← se_lift (dumps v); _ ← send 200 b JSON false; inc (Requests path 200)) f =
  match outcome h body (f_app f) with
  | (Ok b, a') => (Ok (Ok tt), Front a' (f_sent f ++ [Reply 200 b JSON None]) (f_counts f ++ [Requests path 200]) (f_events f))
  | (Raise e, a') => (Ok (Raise e), Front a' (f_sent f) (f_counts f) (f_events f))
  end.
Proof.
  unfold outcome, se_try, app, mbind, SE_bind, se_lift. destruct (h body (f_app f)) as [[v|e] a']; cbn [mbind result_bind]; [|done].
  destruct (dumps v) as [b|e]; [|done]. rewrite send_ok. done.
Qed.

(** The body of a POST: as many bytes as Content-Length says, decoded; an empty one reads as the empty object *)
Definition posted_body (r : request) : result J :=
  n ← match rq_length r with Some t => Genesis.py_int t | None => Ok 0 end;
  loads (match rq_read r n with [] => Door.text "{}" | raw => raw end).
(** What a POST does to the front: nothing at all, a 404, or exactly one reply and the handler's effect *)
Inductive posted (r : request) (f : front) : result unit → front → Prop :=
| posted_unread e : posted_body r = Raise e → posted r f (Raise e) f
| posted_unrouted b body :
    posted_body r = Ok body → route routes_post (path_of (rq_path r)) = None → posted r f (Ok tt) (Front (f_app f) (f_sent f ++ [Reply 404 b JSON None]) (f_counts f) (f_events f))
| posted_handled h body res a' b :
    posted_body r = Ok body → route routes_post (path_of (rq_path r)) = Some h → outcome h body (f_app f) = (res, a') →
    posted r f (Ok tt) (Front a' (f_sent f ++ [Reply (code_for res) b JSON None]) (f_counts f ++ counted (path_of (rq_path r)) res) (f_events f)).

Lemma post_run r f : let '(o, f') := do_POST r f in posted r f o f'.
Proof.
  destruct (do_POST r f) as [o f'] eqn:H. unfold do_POST in H. unfold mbind at 1, SE_bind at 1, se_lift at 1 in H.
  assert (Hb : posted_body r = (n ← match rq_length r with Some t => Genesis.py_int t | None => Ok 0 end;
    loads (match rq_read r n with [] => Door.text "{}" | raw => raw end))) by done.
  destruct (match rq_length r with Some t => Genesis.py_int t | None => Ok 0 end) as [n|e] eqn:El; [|injection H as <- <-; by constructor].
  unfold mbind at 1, SE_bind at 1, se_lift at 1 in H. cbn [mbind result_bind] in Hb. destruct (loads _) as [body|e] eqn:Eb; [|injection H as <- <-; by constructor].
  destruct (route routes_post (path_of (rq_path r))) as [h|] eqn:Er.
  2:{ rewrite send_ok in H. injection H as <- <-. by econstructor. }
  unfold mbind at 1, SE_bind at 1 in H. rewrite attempt_run in H. destruct (outcome h body (f_app f)) as [res a'] eqn:Eo.
  assert (Hh : ∀ b, (o, f') = (Ok tt, Front a' (f_sent f ++ [Reply (code_for res) b JSON None]) (f_counts f ++ counted (path_of (rq_path r)) res) (f_events f)) → posted r f o f').
  { intros b [= -> ->]. by eapply posted_handled. }
  destruct res as [b|e]; [apply (Hh b); by rewrite <- H|].
  destruct e; unfold mbind, SE_bind in H; rewrite send_ok in H; unfold inc, se_put in H; cbn [f_app f_sent f_counts f_events] in H; rewrite <- ?app_assoc in H; cbn [List.app] in H;
    eapply Hh; rewrite <- H; reflexivity.
Qed.
End replies.
End handler.

(** ** Labels are bounded *)
Lemma mask_no_digit t : ∀ b, Forall (λ c, is_num c = false) (mask b t).
Proof.
  induction t as [|c t IH]; intros b; cbn [mask]; [constructor|]. destruct (is_num c) eqn:Ec.
  - destruct b; [apply IH|]. constructor; [done|apply IH].
  - case_match; [apply IH|]. by constructor.
Qed.
Lemma refusal_reason_bounded t : (1 ≤ length (refusal_reason t) ≤ 60)%nat ∧ Forall (λ c, is_num c = false) (refusal_reason t).
Proof.
  unfold refusal_reason. pose proof (Forall_take _ 60 _ (mask_no_digit (first_clause t) false)) as Hf.
  assert (Hl : (length (take 60 (mask false (first_clause t))) ≤ 60)%nat) by (rewrite length_take; lia).
  destruct (take 60 _) as [|c l]; [|split; [cbn in *; lia|done]]. split; [vm_compute; lia|]. apply (bool_decide_eq_true_1 _). vm_compute. reflexivity.
Qed.
Definition label_ok (c : count) : Prop := match c with Refused _ t => (length t ≤ 60)%nat ∧ Forall (λ c, is_num c = false) t | _ => True end.
Lemma counted_labels message path r : Forall label_ok (counted message path r).
Proof.
  assert (H : ∀ t, label_ok (Refused path (refusal_reason t))) by (intros t; destruct (refusal_reason_bounded t); split; [lia|done]).
  destruct r as [b|[]]; cbn [counted]; repeat (apply Forall_cons; split; [by first [apply H | exact I]|]); apply Forall_nil_2.
Qed.

(** ** Orders over HTTP *)
Section orders.
Context {J : Type} (loads : bytes → result J) (dumps : J → result bytes) (error_body : exn → bool → bytes) (message : exn → text).
Context (wire : nat → result unit) (routes_post : list (string * (J → SE door J))).
Context (worlds : nat → world) (ed25519 : bytes → bytes → bytes → bool) (cfg : door_cfg).
(** The request a body describes, and the reply's JSON *)
Context (order_of : J → result order_req) (reply_json : order_reply → J).
Definition order_route (body : J) : SE door J := q ← se_lift (order_of body); r ← api_order worlds ed25519 cfg q; mret (reply_json r).

End orders.

(** ** Sample requests *)
Definition sample_loads (b : bytes) : result bytes := match b with 123 :: _ => Ok b | _ => Raise (ValueError "not JSON") end.
Definition sample_dumps (b : bytes) : result bytes := Ok b.
Definition sample_error (e : exn) (retry : bool) : bytes := Door.text (if retry then "retry" else "error").
Definition sample_message (e : exn) : text := match e with ValueError w => code_points w | _ => [] end.
Definition always_up (k : nat) : result unit := Ok tt.
Definition bad_order (b : bytes) : result order_req := Raise (ValueError "open-order limit reached (50 per market): cancel some").
Definition sample_world (n : nat) : world :=
  World 0 (λ _, Ok []) (λ _, Ok tt) 0 [] (λ _, Raise (ValueError "no committee")) 1 (λ _, true) (λ _, []).
Definition sample_routes : list (string * (bytes → SE door bytes)) :=
  [("/api/order", order_route sample_world (λ _ _ _, false) default_door_cfg bad_order (λ _, []))].
Definition sample_post : request := Request "/api/order?x=1" (Some "2") (λ _, Door.text "{}").
Example sample_refusal :
  let f := (do_POST sample_loads sample_dumps sample_error sample_message always_up sample_routes sample_post (Front door_init [] [] [])).2 in
  map rp_code (f_sent f) = [400] ∧ f_counts f = [Requests "/api/order" 400; Refused "/api/order" (code_points "open-order limit reached (N per market)")].
Proof. vm_compute. split; reflexivity. Qed.

(** A body that is not JSON gets no reply at all: it is decoded outside the handlers' exception clauses. *)
Example malformed_body :
  do_POST sample_loads sample_dumps sample_error sample_message always_up sample_routes (Request "/api/order" (Some "3") (λ _, Door.text "abc")) (Front door_init [] [] []) =
  (Raise (ValueError "not JSON"), Front door_init [] [] []).
Proof. vm_compute. reflexivity. Qed.
(** A query that is not name=value pairs gets no reply either, also on a path that ignores it. *)
Example bare_question_mark disk web page fuel (f : front) :
  do_GET sample_dumps sample_error always_up disk web page ([] : list (string * (bytes → SE door bytes))) (λ _, []) (λ b, mret b) fuel "/?" f =
  Some (Raise (ValueError "dictionary update sequence element has length other than 2"), f).
Proof. reflexivity. Qed.
(** A path that climbs out of the directory of static files is opened and served. *)
Example path_escapes_web (disk : string → opened) secret page fuel (f : front) :
  disk "/app/web/../server.py" = Bytes_ secret →
  do_GET sample_dumps sample_error always_up disk "/app/web" page ([] : list (string * (bytes → SE door bytes))) (λ _, []) (λ b, mret b) fuel "/../server.py" f =
  Some (Ok tt, Front (f_app f) (f_sent f ++ [Reply 200 secret "application/javascript" (Some "no-store, must-revalidate")]) (f_counts f) (f_events f)).
Proof. intros H. unfold do_GET. vm_compute (os_join _ _). cbn. by rewrite H. Qed.
End Http.
