(* ===== verification/Backends.v ===== *)
(** * The chain behind its interface: chain.py

    [Chain], the interface the server, the deploy and the set-up use; [JamnpChain], which reaches the chain through lasair's two
    HTTP bridges and the node's gauges; [Jip2Chain] (Submit.v) seen through the same interface; [from_env], which selects one;
    and [Authorizer]'s text form.  What the interface promises its callers is a class of laws; both backends are instances,
    and so is the one the environment selects.

    The bridges are a sequence of views, one per request, whose answers have the fields the backend reads; a request that
    fails raises.  Strings are ASCII; times are microseconds; a gauge is an exact decimal. *)
From S2P Require Import Prelude Bytes WorkPackage ChainSpec Submit DevKeys Genesis Http.
From stdpp Require Import pretty.
From Stdlib Require Import Ascii.
Import DevKeys Genesis.
#[local] Open Scope string_scope.
#[local] Open Scope list_scope.
#[local] Open Scope Z_scope.

Module Backends.

(** ** The interface *)

(** What became of a call that carried payloads to the chain *)
Inductive fate := Refused | Taken | Unknown.
#[global] Instance fate_eq_dec : EqDecision fate.
Proof. solve_decision. Defined.

(** [Block]: a field is [None] where the backend cannot observe it. *)
Record view := View { v_slot : option Z; v_hash : option bytes; v_height : option Z }.

(** A backend with state [S] whose receipts are [R].  [attempts]: the calls made so far that carried payloads. *)
Class Chain (S R : Type) := {
  submits : S → bool;
  max_items : SE S Z;
  ready : SE S bool;
  head : SE S (option view);
  finalized : SE S (option view);
  read : bytes → at_block → SE S bytes;
  submit : bytes → SE S R;
  submit_items : list bytes → SE S R;
  service_info : at_block → SE S ServiceInfo;
  parameters : SE S (option (gmap string (option Z)));
  attempts : S → list (list bytes * fate)
}.

(** [Chain.submit_items], for a backend that sends one payload at a time *)
Definition one_at_a_time {S R} (submit1 : bytes → SE S R) (payloads : list bytes) : SE S R :=
  match payloads with
  | [p] => submit1 p
  | _ => se_lift (Raise (ChainUnsupported "payloads at once"))
  end.

(** What the outcome of one submission says of the calls it made: a receipt, that the last of them was not refused; ChainBusy
    and ChainUnsupported, that all were; any other exception, that at most one was not. *)
Definition told {R} (r : result R) (fates : list fate) : Prop :=
  match r with
  | Ok _ => ∃ pre f, fates = pre ++ [f] ∧ Forall (.= Refused) pre ∧ f ≠ Refused
  | Raise (ChainBusy _) | Raise (ChainUnsupported _) => Forall (.= Refused) fates
  | Raise _ => ∃ pre x, fates = pre ++ x ∧ Forall (.= Refused) pre ∧ (length x ≤ 1)%nat
  end.

Definition same_attempts {S R} `{Chain S R} (s s' : S) : Prop := attempts s' = attempts s.
#[global] Instance same_attempts_tr {S R} `{Chain S R} : Transition same_attempts.
Proof. split; unfold same_attempts; congruence. Qed.

Class ChainLaws (S R : Type) {C : Chain S R} : Prop := {
  law_submit payloads s r s' : submit_items payloads s = (r, s') →
    ∃ fates, attempts s' = attempts s ++ map (pair payloads) fates ∧ told r fates;
  law_one p s : submit p s = submit_items [p] s;
  law_read k a : rel same_attempts (read k a);
  law_head : rel same_attempts head;
  law_finalized : rel same_attempts finalized;
  law_ready : rel same_attempts ready;
  law_info a : rel same_attempts (service_info a);
  law_max_items : rel same_attempts max_items
}.

(** ** jamnp: lasair's builder and reader bridges *)
Record health_answer := HealthAnswer { ha_head_hex : option string; ha_best_hex : option (option string) }.
Record read_answer := ReadAnswer { ra_error : option string; ra_value_hex : option string }.
Record submit_answer := SubmitAnswer { sa_accepted : option bool }.
(** [_http_json]: a GET of a URL, or a POST of a service id and a payload; the gauges' page; the clock *)
Record bridges := Bridges {
  b_health : string → result health_answer;
  b_read : string → result read_answer;
  b_submit : string → Z → string → result submit_answer;
  b_metrics : string → result string;
  b_now : Z
}.

(** [float(s)]: a decimal mantissa and exponent, an infinity or a NaN *)
Inductive pyfloat := Dec (m e : Z) | Infinite | NaN.
Definition sign_of (s : string) : Z * string :=
  match s with String "-" s' => (-1, s') | String "+" s' => (1, s') | _ => (1, s) end.
Definition digit_count (s : string) : Z := Z.of_nat (length (filter (λ c, c ≠ "_"%char) (String.list_ascii_of_string s))).
(** The digits before and after the point, at least one in all *)
Definition mantissa (s : string) : option (Z * Z) :=
  match split "." s with
  | [i] => m ← int_digits 0 false i; Some (m, 0)
  | ["" ; f] => m ← int_digits 0 false f; Some (m, digit_count f)
  | [i; ""] => m ← int_digits 0 false i; Some (m, 0)
  | [i; f] => m ← int_digits 0 false i; n ← int_digits 0 false f; Some (m * 10 ^ digit_count f + n, digit_count f)
  | _ => None
  end.
Definition py_float (text : string) : option pyfloat :=
  let '(sg, s) := sign_of (lower (strip text)) in
  if String.eqb s "inf" || String.eqb s "infinity" then Some Infinite
  else if String.eqb s "nan" then Some NaN
  else match split "e" s with
       | [ms] => '(m, k) ← mantissa ms; Some (Dec (sg * m) (- k))
       | [ms; es] => '(m, k) ← mantissa ms; let '(se, ds) := sign_of es in e ← int_digits 0 false ds; Some (Dec (sg * m) (se * e - k))
       | _ => None
       end.
(** [int(f)] *)
Definition int_of (f : pyfloat) : result Z :=
  match f with
  | Dec m e => Ok (if 0 <=? e then m * 10 ^ e else m ÷ 10 ^ (- e))
  | Infinite => Raise OverflowError
  | NaN => Raise (ValueError "cannot convert float NaN to integer")
  end.

(** [str.splitlines]; the empty line inside a CR LF is one the reader of gauges skips *)
Definition line_break (c : ascii) : bool := let n := N_of_ascii c in (((10 <=? n) && (n <=? 13)) || ((28 <=? n) && (n <=? 30)))%N.
Fixpoint splitlines (s : string) : list string :=
  match s with
  | EmptyString => [""]
  | String c s' => if line_break c then "" :: splitlines s' else
      match splitlines s' with h :: t => String c h :: t | [] => [String c ""] end
  end.
(** [ln.partition(" ")], for a line with a space *)
Fixpoint partition_space (s : string) : option (string * string) :=
  match s with
  | EmptyString => None
  | String c s' => if Ascii.eqb c " " then Some ("", s') else '(k, v) ← partition_space s'; Some (String c k, v)
  end.
Definition gauge_line (g : gmap string pyfloat) (ln : string) : gmap string pyfloat :=
  if String.prefix "lasair_" ln then
    match partition_space ln with
    | Some (k, val) => match py_float val with Some v => <[k := v]> g | None => g end
    | None => g
    end
  else g.

Record jamnp := Jamnp {
  j_service : option Z; j_builder : string; j_reader : string; j_metrics : string;
  j_scrape : Z * option (gmap string pyfloat);
  j_posts : list (bytes * result submit_answer);
  j_tick : nat
}.
Notation B := (SE jamnp).
Definition METRICS_TTL : Z := 1000000.
Fixpoint rstrip_slash (s : string) : string :=
  match s with
  | EmptyString => ""
  | String c s' => match rstrip_slash s' with EmptyString => if Ascii.eqb c "/" then "" else String c "" | r => String c r end
  end.
Definition jamnp_init (service_id : option Z) (builder_url reader_url metrics_url : string) : jamnp :=
  Jamnp service_id (rstrip_slash builder_url) (rstrip_slash reader_url) (strip metrics_url) (0, None) [] 0.

Section jamnp.
Context (bridge : nat → bridges).

Definition ask {A} (f : bridges → result A) : B A := λ s,
  (f (bridge (j_tick s)), Jamnp (j_service s) (j_builder s) (j_reader s) (j_metrics s) (j_scrape s) (j_posts s) (S (j_tick s))).
Definition set_scrape (x : Z * option (gmap string pyfloat)) (s : jamnp) : jamnp :=
  Jamnp (j_service s) (j_builder s) (j_reader s) (j_metrics s) x (j_posts s) (j_tick s).
Definition log_post (p : bytes) (r : result submit_answer) (s : jamnp) : jamnp :=
  Jamnp (j_service s) (j_builder s) (j_reader s) (j_metrics s) (j_scrape s) (j_posts s ++ [(p, r)]) (j_tick s).

(** [_need], [_sid] *)
Definition need (url : string) (var : string) : B string := se_lift (if String.eqb url "" then Raise (ChainError (var +:+ " is not set")) else Ok url).
Definition jsid : B Z := s ← se_get j_service; se_lift (match s with Some i => Ok i | None => Raise (ChainError "no service id: set SERVICE_ID") end).
(** [bool(s)] of an optional text *)
Definition truthy (o : option string) : bool := match o with Some s => negb (String.eqb s "") | None => false end.

Definition jamnp_ready : B bool :=
  r ← se_try (u ← se_get j_reader; url ← need u "READER_URL"; ask (λ b, b_health b (url +:+ "/healthz")));
  match r with
  | Raise e => if transport_failure e then mret false else se_lift (Raise e)
  | Ok a => mret (truthy (ha_head_hex a) && match ha_best_hex a with None => true | Some b => truthy b end)
  end.

Definition jamnp_read (key : bytes) (at_ : at_block) : B bytes :=
  match at_ with
  | AtBest =>
      u ← se_get j_reader; url ← need u "READER_URL"; s ← jsid;
      r ← ask (λ b, b_read b (url +:+ "/read?service=" +:+ pretty s +:+ "&key=" +:+ hex key));
      if truthy (ra_error r) then se_lift (Raise (ChainError "jamnp reader"))
      else if truthy (ra_value_hex r) then se_lift (fromhex (default "" (ra_value_hex r))) else mret []
  | _ => se_lift (Raise (ChainUnsupported "jamnp: the reader bridge reads only at the head it follows"))
  end.

Definition jamnp_submit (payload : bytes) : B submit_answer :=
  u ← se_get j_builder; url ← need u "BUILDER_URL"; s ← jsid;
  r ← se_try (ask (λ b, b_submit b (url +:+ "/submit") s (hex payload)));
  _ ← se_put (log_post payload r);
  a ← se_lift r;
  match sa_accepted a with
  | Some false => se_lift (Raise (ChainBusy "all guarantors refused (CE-133 queues full)"))
  | _ => mret a
  end.

(** [_gauges]: a scrape younger than METRICS_TTL is reused. *)
Definition fetch (now : Z) : B (gmap string pyfloat) :=
  u ← se_get j_metrics; txt ← ask (λ b, b_metrics b u);
  let g := foldl gauge_line ∅ (splitlines txt) in
  _ ← se_put (set_scrape (now, Some g)); mret g.
Definition gauges : B (gmap string pyfloat) :=
  sc ← se_get j_scrape;
  now ← se_get (λ s, b_now (bridge (j_tick s)));
  match sc with
  | (t, Some g) => if now - t <? METRICS_TTL then mret g else fetch now
  | (_, None) => fetch now
  end.
Definition gauge (g : gmap string pyfloat) (name : string) : result Z := int_of (default (Dec 0 0) (g !! name)).
Definition gauge_view (slot_name height_name : string) : B (option view) :=
  u ← se_get j_metrics;
  if String.eqb u "" then mret None else
  g ← gauges; sl ← se_lift (gauge g slot_name); ht ← se_lift (gauge g height_name); mret (Some (View (Some sl) None (Some ht))).
Definition jamnp_head : B (option view) := gauge_view "lasair_slot" "lasair_block_height".
Definition jamnp_finalized : B (option view) := gauge_view "lasair_finalized_slot" "lasair_finalized_height".

(** The builder bridge answers that the guarantors refused; an answer that does not say, or none, leaves it open. *)
Definition post_fate (r : result submit_answer) : fate :=
  match r with Ok a => match sa_accepted a with Some true => Taken | Some false => Refused | None => Unknown end | Raise _ => Unknown end.

Definition jamnp_chain : Chain jamnp submit_answer := {|
  submits := λ _, true;
  max_items := mret 1;
  ready := jamnp_ready;
  head := jamnp_head;
  finalized := jamnp_finalized;
  read := jamnp_read;
  submit := jamnp_submit;
  submit_items := one_at_a_time jamnp_submit;
  service_info := λ _, se_lift (Raise (ChainUnsupported "jamnp: no CE-129 read of the service account record yet"));
  parameters := se_lift (Raise (ChainUnsupported "jamnp: the bridges do not expose chain parameters"));
  attempts := λ s, map (λ x, ([x.1], post_fate x.2)) (j_posts s)
|}.
End jamnp.

(** ** jip2 through the interface *)
Section jip2.
Context (nodes : nat → Submit.node) (blake2b256 : bytes → bytes).
Definition seen (b : Block) : view := View (Some (slot b)) (Some (hash b)) None.
Definition jip2_ready : J bool :=
  r ← se_try (best_head nodes);
  match r with Ok _ => mret true | Raise e => if is_chain_error e then mret false else se_lift (Raise e) end.
Definition call_fate (r : result unit) : fate := match r with Ok _ => Taken | Raise (Jip2Error _) => Refused | Raise _ => Unknown end.
Definition payloads_of (package : bytes) : list bytes := match decode_package package with Ok p => map payload (items p) | Raise _ => [] end.

Definition jip2_chain : Chain jip2 submit_receipt := {|
  submits := Submit.submits;
  max_items := Submit.max_items nodes;
  ready := jip2_ready;
  head := b ← best_head nodes; mret (Some (seen b));
  finalized := b ← finalized_head nodes; mret (Some (seen b));
  read := Submit.read nodes;
  submit := Submit.submit nodes blake2b256;
  submit_items := Submit.submit_items nodes blake2b256;
  service_info := Submit.service_info nodes;
  parameters := call nodes "parameters" n_parameters;
  attempts := λ c, map (λ x, (payloads_of (s_package x), call_fate (s_answer x))) (c_sent c)
|}.
End jip2.

(** ** The backend the environment selects *)
Inductive backend := SelJamnp (j : jamnp) | SelJip2 (c : jip2).
Definition on_jamnp {A A'} (j : jamnp) (f : A → A') (c : B A) : result A' * backend := let '(r, j') := c j in (f <$> r, SelJamnp j').
Definition on_jip2 {A A'} (c : jip2) (f : A → A') (m : J A) : result A' * backend := let '(r, c') := m c in (f <$> r, SelJip2 c').

Section selected.
Context (bridge : nat → bridges) (nodes : nat → Submit.node) (blake2b256 : bytes → bytes).
#[local] Notation JN := (jamnp_chain bridge).
#[local] Notation J2 := (jip2_chain nodes blake2b256).
Definition either {A A1 A2} (f1 : A1 → A) (f2 : A2 → A) (c1 : B A1) (c2 : J A2) : SE backend A := λ b,
  match b with SelJamnp j => on_jamnp j f1 c1 | SelJip2 c => on_jip2 c f2 c2 end.

Definition selected_chain : Chain backend (submit_answer + submit_receipt) := {|
  submits := λ b, match b with SelJamnp j => JN.(submits) j | SelJip2 c => J2.(submits) c end;
  max_items := either id id JN.(max_items) J2.(max_items);
  ready := either id id JN.(ready) J2.(ready);
  head := either id id JN.(head) J2.(head);
  finalized := either id id JN.(finalized) J2.(finalized);
  read := λ k a, either id id (JN.(read) k a) (J2.(read) k a);
  submit := λ p, either inl inr (JN.(submit) p) (J2.(submit) p);
  submit_items := λ ps, either inl inr (JN.(submit_items) ps) (J2.(submit_items) ps);
  service_info := λ a, either id id (JN.(service_info) a) (J2.(service_info) a);
  parameters := either id id JN.(parameters) J2.(parameters);
  attempts := λ b, match b with SelJamnp j => JN.(attempts) j | SelJip2 c => J2.(attempts) c end
|}.
End selected.

#[global] Existing Instances jamnp_chain jip2_chain selected_chain.

(** [Authorizer.parse] and [Authorizer.__str__] *)
Definition un0x (p : string) : string := match p with String "0" (String "x" p') => p' | _ => p end.
Fixpoint blobs_of (ps : list string) : result (list bytes) :=
  match ps with [] => Ok [] | p :: rest => b ← fromhex (un0x p); bs ← blobs_of rest; Ok (b :: bs) end.
Definition parse_authorizer (text : string) : result Authorizer :=
  match map strip (split ":" (strip text)) with
  | h :: ((_ :: rest) as ps) =>
      if (2 <? length rest)%nat then Raise (ValueError "authorizer") else
      blobs ← blobs_of ps;
      i ← py_int h;
      let code := default [] (blobs !! 0%nat) in
      _ ← hash32 code "authorizer code hash";
      Ok {| host := i; auth_code := code; config := default [] (blobs !! 1%nat); token := default [] (blobs !! 2%nat) |}
  | _ => Raise (ValueError "authorizer")
  end.
Definition print_authorizer (a : Authorizer) : string :=
  joined ":" ([pretty (host a); hex (auth_code a)] ++ match config a, token a with [], [] => [] | cf, tk => [hex cf; hex tk] end).

Section selection.
(** [chainspec.load] of a path, run when the authorizer is first needed *)
Context (load_spec : string → result (list (bytes * bytes))).
(** [env.get(k) or None] *)
Definition set_in (env : gmap string string) (k : string) : option string :=
  v ← env !! k; if String.eqb v "" then None else Some v.
Definition service_of (env : gmap string string) : result (option Z) :=
  match set_in env "SERVICE_ID" with Some t => i ← py_int t; Ok (Some i) | None => Ok None end.
Definition from_env (env : gmap string string) : result backend :=
  sid ← service_of env;
  let backend := lower (strip (default "jamnp" (set_in env "CHAIN_BACKEND"))) in
  let get k := default "" (env !! k) in
  if String.eqb backend "jamnp" then Ok (SelJamnp (jamnp_init sid (get "BUILDER_URL") (get "READER_URL") (get "NODE_METRICS_URL")))
  else if String.eqb backend "jip2" then
    auth ← match set_in env "AUTHORIZER" with Some t => a ← parse_authorizer t; Ok (Some a) | None => Ok None end;
    Ok (SelJip2 (jip2_init sid auth (load_spec <$> set_in env "CHAIN_SPEC") [] None None))
  else Raise (ValueError "CHAIN_BACKEND").
End selection.

(** ** A caller of the interface *)
Inductive answer := Receipt | Refusal | Failure.
#[global] Instance answer_eq_dec : EqDecision answer.
Proof. solve_decision. Defined.
Definition answer_of {R} (r : result R) : answer :=
  match r with Ok _ => Receipt | Raise (ChainBusy _) | Raise (ChainUnsupported _) => Refusal | Raise _ => Failure end.
Inductive use := UseSubmit (payloads : list bytes) | UseOne (payload : bytes) | UseRead (key : bytes) (a : at_block) | UseHead | UseFinalized | UseReady | UseInfo (a : at_block).

Section caller.
Context {S R : Type} {C : Chain S R}.
Definition told_of (payloads : list bytes) (x : result R * S) : list (list bytes * answer) * S := ([(payloads, answer_of x.1)], x.2).
Definition use1 (u : use) (s : S) : list (list bytes * answer) * S :=
  match u with
  | UseSubmit ps => told_of ps (submit_items ps s)
  | UseOne p => told_of [p] (submit p s)
  | UseRead k a => ([], (read k a s).2)
  | UseHead => ([], (head s).2)
  | UseFinalized => ([], (finalized s).2)
  | UseReady => ([], (ready s).2)
  | UseInfo a => ([], (service_info a s).2)
  end.
(** A sequence of uses: what each submission was told, and the state after *)
Fixpoint uses (us : list use) (s : S) : list (list bytes * answer) * S :=
  match us with
  | [] => ([], s)
  | u :: us' => let '(o, s1) := use1 u s in let '(os, s2) := uses us' s1 in (o ++ os, s2)
  end.
(** The calls that carried these payloads and were not refused *)
Definition may_have (ps : list bytes) (l : list (list bytes * fate)) : nat := length (filter (λ a, a.1 = ps ∧ a.2 ≠ Refused) l).
Definition times (ps : list bytes) (a : answer) (os : list (list bytes * answer)) : nat := length (filter (.= (ps, a)) os).

Lemma may_have_app ps l l' : may_have ps (l ++ l') = (may_have ps l + may_have ps l')%nat.
Proof. unfold may_have. by rewrite filter_app, length_app. Qed.
Lemma times_app ps a l l' : times ps a (l ++ l') = (times ps a l + times ps a l')%nat.
Proof. unfold times. by rewrite filter_app, length_app. Qed.
Lemma may_have_pair ps fates : may_have ps (map (pair ps) fates) = length (filter (.≠ Refused) fates).
Proof. unfold may_have. induction fates as [|f l IH]; [done|]. rewrite map_cons, !filter_cons. cbn [fst snd]. repeat case_decide; cbn [length]; naive_solver congruence. Qed.
Lemma may_have_other ps qs fates : qs ≠ ps → may_have ps (map (pair qs) fates) = O.
Proof. intros H. unfold may_have. induction fates as [|f l IH]; [done|]. rewrite map_cons, filter_cons, decide_False by naive_solver. done. Qed.
Lemma none_refused fates : Forall (.= Refused) fates → filter (.≠ Refused) fates = [].
Proof. induction 1 as [|f l ->]; [done|]. by rewrite filter_cons, decide_False by naive_solver. Qed.
(** One submission: one call when there is a receipt, none when it is refused, at most one otherwise *)
Lemma told_count (r : result R) fates : told r fates →
  let n := length (filter (.≠ Refused) fates) in
  match answer_of r with Receipt => n = 1%nat | Refusal => n = O | Failure => (n ≤ 1)%nat end.
Proof.
  assert (Hx : ∀ pre x, Forall (.= Refused) pre → (length (filter (.≠ Refused) (pre ++ x)) ≤ length x)%nat).
  { intros pre x Hp. rewrite filter_app, (none_refused pre) by done. apply length_filter. }
  cbv zeta. destruct r as [v|[]]; cbn [told answer_of]; try (intros H; by rewrite none_refused);
    try (intros (pre & x & -> & Hp & Hl); etrans; [by apply Hx|done]).
  intros (pre & f & -> & Hp & Hf). rewrite filter_app, (none_refused pre) by done. by rewrite filter_cons, decide_True.
Qed.
Lemma submission_count `{!ChainLaws S R} payloads s ps :
  let '(o, s') := told_of payloads (submit_items payloads s) in
  (may_have ps (attempts s) + times ps Receipt o ≤ may_have ps (attempts s') ≤ may_have ps (attempts s) + times ps Receipt o + times ps Failure o)%nat.
Proof.
  destruct (submit_items payloads s) as [r s'] eqn:E. cbn [told_of fst snd]. destruct (law_submit _ _ _ _ E) as (fates & -> & Ht).
  rewrite may_have_app. apply told_count in Ht. unfold times. rewrite !filter_cons, !filter_nil. destruct (decide (payloads = ps)) as [->|Hne].
  - rewrite may_have_pair. destruct (answer_of r); repeat case_decide; cbn in *; simplify_eq; lia.
  - rewrite may_have_other by done. repeat case_decide; simplify_eq; cbn; lia.
Qed.
Lemma use_count `{!ChainLaws S R} u s ps :
  let '(o, s') := use1 u s in
  (may_have ps (attempts s) + times ps Receipt o ≤ may_have ps (attempts s') ≤ may_have ps (attempts s) + times ps Receipt o + times ps Failure o)%nat.
Proof.
  destruct u as [qs|q|k a| | | |a]; cbn [use1]; [apply submission_count|rewrite law_one; apply submission_count|..];
    match goal with |- context [(?c s).2] => assert (Hs : same_attempts s (c s).2) by (first [apply law_read|apply law_head|apply law_finalized|apply law_ready|apply law_info]) end;
    rewrite Hs; cbn; lia.
Qed.
Lemma uses_count `{!ChainLaws S R} us ps : ∀ s,
  let '(o, s') := uses us s in
  (may_have ps (attempts s) + times ps Receipt o ≤ may_have ps (attempts s') ≤ may_have ps (attempts s) + times ps Receipt o + times ps Failure o)%nat.
Proof.
  induction us as [|u us IH]; intros s; cbn [uses]; [cbn; lia|]. pose proof (use_count u s ps) as H1.
  destruct (use1 u s) as [o s1]. specialize (IH s1). destruct (uses us s1) as [os s2]. rewrite !times_app. lia.
Qed.
End caller.

(** ** The backends keep the laws *)
Section jamnp_laws.
Context (bridge : nat → bridges).
#[local] Instance jamnp_chain' : Chain jamnp submit_answer := jamnp_chain bridge.

Lemma same_ask {A} (f : bridges → result A) : rel same_attempts (ask bridge f).
Proof. done. Qed.
Lemma same_scrape x : rel same_attempts (se_put (set_scrape x)).
Proof. done. Qed.
#[local] Hint Resolve same_ask same_scrape : rel.
Lemma same_gauges : rel same_attempts (gauges bridge).
Proof. unfold gauges, fetch. rel_step. Qed.
#[local] Hint Resolve same_gauges : rel.
Lemma same_view a b : rel same_attempts (gauge_view bridge a b).
Proof. unfold gauge_view. rel_step. Qed.
Lemma same_read k a : rel same_attempts (jamnp_read bridge k a).
Proof. unfold jamnp_read, need, jsid. rel_step. Qed.
Lemma same_ready : rel same_attempts (jamnp_ready bridge).
Proof. unfold jamnp_ready, need. rel_step. Qed.

(** What a request raises is not one of the backend's own exceptions. *)
Definition bridge_errors : Prop := ∀ n url i p e, b_submit (bridge n) url i p = Raise e → is_chain_error e = false.
Lemma told_failed {R} e fates : is_chain_error e = false → (length fates ≤ 1)%nat → told (Raise e : result R) fates.
Proof. intros He Hl. destruct e; try done; (exists [], fates; split_and!; [done|apply Forall_nil_2|done]). Qed.
Lemma told_unsent {R} w : told (Raise (ChainError w) : result R) [].
Proof. exists [], []. split_and!; [done|apply Forall_nil_2|cbn; lia]. Qed.

Lemma jamnp_submit_told p s r s' : bridge_errors → jamnp_submit bridge p s = (r, s') →
  ∃ fates, attempts s' = attempts s ++ map (pair [p]) fates ∧ told r fates.
Proof.
  intros Hb H. unfold jamnp_submit, need, jsid, mbind, SE_bind, se_get, se_lift in H.
  destruct (String.eqb (j_builder s) ""); [injection H as <- <-; exists []; rewrite app_nil_r; split; [done|apply told_unsent]|].
  destruct (j_service s) as [i|]; [|injection H as <- <-; exists []; rewrite app_nil_r; split; [done|apply told_unsent]].
  unfold se_try, ask, se_put in H. destruct (b_submit _ _ _ _) as [a|e] eqn:E; cbn in H.
  - exists [post_fate (Ok a)]. destruct (sa_accepted a) as [[]|] eqn:Ea; injection H as <- <-; cbn; rewrite ?Ea, map_app; cbn; rewrite ?Ea; (split; [done|]);
      [exists [], Taken; split_and!|apply Forall_singleton|exists [], Unknown; split_and!]; first [done|apply Forall_nil_2].
  - exists [Unknown]. injection H as <- <-. cbn [attempts jamnp_chain' jamnp_chain log_post j_posts]. rewrite map_app. split; [done|].
    apply told_failed; [by eapply Hb|done].
Qed.
#[local] Instance jamnp_laws (Hb : bridge_errors) : ChainLaws jamnp submit_answer.
Proof.
  split; try done.
  - intros ps s r s' H. cbn in H. unfold one_at_a_time in H. destruct ps as [|p [|q ps]]; [| |];
      [|by apply jamnp_submit_told|]; injection H as <- <-; exists []; (split; [by rewrite app_nil_r|apply Forall_nil_2]).
  - apply same_read.
  - apply same_view.
  - apply same_view.
  - apply same_ready.
Qed.
End jamnp_laws.

Section jip2_laws.
Context (nodes : nat → Submit.node) (blake2b256 : bytes → bytes).
#[local] Instance jip2_chain' : Chain jip2 submit_receipt := jip2_chain nodes blake2b256.

Lemma same_unsent {A} (c : J A) : rel (unsent nodes) c → rel same_attempts c.
Proof. intros H d. destruct (H d) as [E _]. unfold same_attempts. cbn. by rewrite E. Qed.
Lemma jip2_submit_told ps c r c' : client_errors nodes → Submit.submit_items nodes blake2b256 ps c = (r, c') →
  ∃ fates, attempts c' = attempts c ++ map (pair ps) fates ∧ told r fates.
Proof.
  intros Hcl (package & calls & Ec & [Hp Ho] & Hd)%submission_told; [|done].
  assert (Hr : ∀ l, Forall refusal l → Forall (.= Refused) (map (λ x, call_fate (s_answer x)) l)).
  { intros l Hl. apply Forall_map. eapply Forall_impl; [exact Hl|]. by intros x [code ->]. }
  exists (map (λ x, call_fate (s_answer x)) calls). cbn. rewrite Ec, map_app. split.
  - f_equal. rewrite map_map. apply map_ext_in. intros x Hx%list_elem_of_In. destruct Hd as [->|(p & Hd & <-)]; [by apply not_elem_of_nil in Hx|].
    rewrite Forall_forall in Hp. unfold payloads_of. by rewrite (Hp _ Hx), Hd.
  - destruct r as [rc|e]; [|destruct e]; cbn in *; try (by apply Hr); try (destruct Ho as (pre & x & -> & Hpre & Hx); rewrite map_app; eexists _, _; split_and!; [done|by apply Hr|by rewrite length_map]).
    destruct Ho as (pre & -> & Hpre & _). rewrite map_app. eexists _, Taken. split_and!; [done|by apply Hr|done].
Qed.
#[local] Instance jip2_laws (Hcl : client_errors nodes) : ChainLaws jip2 submit_receipt.
Proof.
  split; try done.
  - intros ps c r c'. by apply jip2_submit_told.
  - intros k a. apply same_unsent. cbn. unfold Submit.read.
    apply rel_bind; [apply _|apply unsent_at|intros]. apply rel_bind; [apply _|apply unsent_sid|intros]. apply rel_bind; [apply _|apply unsent_call|intros; apply rel_ret, _].
  - apply same_unsent, rel_bind; [apply _|apply unsent_head|intros; apply rel_ret, _].
  - apply same_unsent, rel_bind; [apply _|apply unsent_head|intros; apply rel_ret, _].
  - apply same_unsent, rel_bind; [apply _|apply rel_try, unsent_head|intros []; [apply rel_ret, _|case_match; [apply rel_ret, _|apply rel_lift, _]]].
  - intros a. apply same_unsent, unsent_info.
  - apply same_unsent, unsent_max_items.
Qed.
End jip2_laws.

Section selected_laws.
Context (bridge : nat → bridges) (nodes : nat → Submit.node) (blake2b256 : bytes → bytes).
#[local] Instance selected_chain' : Chain backend (submit_answer + submit_receipt) := selected_chain bridge nodes blake2b256.
Lemma told_map {A A'} (f : A → A') r fates : told r fates → told (f <$> r) fates.
Proof. by destruct r as [|[]]. Qed.
Lemma same_either {A A1 A2} (f1 : A1 → A) (f2 : A2 → A) c1 c2 :
  rel (same_attempts (H := jamnp_chain bridge)) c1 → rel (same_attempts (H := jip2_chain nodes blake2b256)) c2 →
  rel same_attempts (either f1 f2 c1 c2).
Proof.
  intros H1 H2 [j|c]; cbn; unfold on_jamnp, on_jip2.
  - specialize (H1 j). by destruct (c1 j).
  - specialize (H2 c). by destruct (c2 c).
Qed.
#[local] Instance selected_laws (Hb : bridge_errors bridge) (Hcl : client_errors nodes) : ChainLaws backend (submit_answer + submit_receipt).
Proof.
  pose proof (jamnp_laws bridge Hb) as L1. pose proof (jip2_laws nodes blake2b256 Hcl) as L2. split.
  - intros ps [j|c] r b' H; cbn in H; unfold on_jamnp, on_jip2 in H.
    + destruct (one_at_a_time _ ps j) as [r1 j'] eqn:E. injection H as <- <-. destruct (L1.(law_submit) _ _ _ _ E) as (fs & Ha & Ht).
      exists fs. split; [exact Ha|by apply told_map].
    + destruct (Submit.submit_items _ _ ps c) as [r1 c'] eqn:E. injection H as <- <-. destruct (L2.(law_submit) _ _ _ _ E) as (fs & Ha & Ht).
      exists fs. split; [exact Ha|by apply told_map].
  - by intros p [j|c].
  - intros k a. apply same_either; [apply L1.(law_read)|apply L2.(law_read)].
  - apply same_either; [apply L1.(law_head)|apply L2.(law_head)].
  - apply same_either; [apply L1.(law_finalized)|apply L2.(law_finalized)].
  - apply same_either; [apply L1.(law_ready)|apply L2.(law_ready)].
  - intros a. apply same_either; [apply L1.(law_info)|apply L2.(law_info)].
  - apply same_either; [apply L1.(law_max_items)|apply L2.(law_max_items)].
Qed.
End selected_laws.

Lemma from_env_fresh load bridge nodes h env b : from_env load env = Ok b → (selected_chain bridge nodes h).(attempts) b = [].
Proof.
  unfold from_env. intros (sid & _ & H)%bind_ok. case_match; [by injection H as <-|]. case_match; [|done].
  apply bind_ok in H as (a & _ & H). by injection H as <-.
Qed.

(** (C37) Whatever backend the environment selects keeps the interface's promise over any sequence of submissions and reads: of
    the calls that carried given payloads to the chain, those not refused are at least as many as the receipts their
    submissions returned and at most as many as the receipts and the errors that leave the outcome open; so payloads every
    submission of which ended with ChainBusy or ChainUnsupported never reached the chain and can be sent again. *)
Theorem selected_chain_honest bridge nodes blake2b256 load env b us :
  bridge_errors bridge → client_errors nodes → from_env load env = Ok b →
  let C := selected_chain bridge nodes blake2b256 in
  let '(os, b') := uses (C := C) us b in
  ∀ ps, (times ps Receipt os ≤ may_have ps (C.(attempts) b') ≤ times ps Receipt os + times ps Failure os)%nat.
Proof.
  intros Hb Hcl He C. pose proof (selected_laws bridge nodes blake2b256 Hb Hcl) as L.
  pose proof (from_env_fresh load bridge nodes blake2b256 env b He) as H0. pose proof (λ ps, uses_count (C := C) us ps b) as H.
  destruct (uses us b) as [os b']. intros ps. specialize (H ps). subst C. rewrite H0 in H. exact H.
Qed.

(** ** The authorizer's text *)
Definition plain (c : ascii) : Prop := py_space c = false ∧ c ≠ ":"%char ∧ c ≠ "x"%char.
#[local] Instance plain_dec c : Decision (plain c) := _.
Lemma hexdigit_plain d : 0 ≤ d < 16 → plain (hexdigit d).
Proof. apply (all_below 16 (λ d, plain (hexdigit d))). vm_compute. reflexivity. Qed.
Lemma hex_plain l : wf_bytes l → all_chars plain (hex l).
Proof.
  induction 1 as [|x l Hx Hl IH]; [apply all_chars_nil|]. cbn [hex]. rewrite !all_chars_cons.
  unfold is_byte in Hx. split_and!; [apply hexdigit_plain; split; [apply Z.div_pos; lia|apply Z.div_lt_upper_bound; lia]|apply hexdigit_plain, Z.mod_pos_bound; lia|done].
Qed.
Lemma digit_plain c : is_digit c → plain c.
Proof. intros H. split; [by apply digit_not_space|]. split; intros ->; by destruct H. Qed.
Lemma all_chars_append Q a b : all_chars Q a → all_chars Q b → all_chars Q (a +:+ b).
Proof.
  intros Ha Hb. induction a as [|c a IH]; [done|]. rewrite append_cons. apply all_chars_cons in Ha as [Hc Ha]. apply all_chars_cons. auto.
Qed.
Lemma strip_id s : all_chars (λ c, py_space c = false) s → strip s = s.
Proof. intros H. unfold strip. by rewrite lstrip_id, rstrip_id. Qed.
Lemma split_joined c l : l ≠ [] → Forall (all_chars (.≠ c)) l → split c (joined (String c "") l) = l.
Proof.
  intros Hne H. induction H as [|x l Hx Hl IH]; [done|]. destruct l as [|y l]; [by apply split_none|].
  change (joined (String c "") (x :: y :: l)) with (x +:+ String c "" +:+ joined (String c "") (y :: l)).
  rewrite append_cons, append_nil, split_append, split_none by done. by rewrite IH.
Qed.
Lemma joined_chars (Q : ascii → Prop) c l : Q c → Forall (all_chars Q) l → all_chars Q (joined (String c "") l).
Proof.
  intros Hc H. induction H as [|x l Hx Hl IH]; [apply all_chars_nil|]. destruct l as [|y l]; [done|].
  change (joined (String c "") (x :: y :: l)) with (x +:+ String c "" +:+ joined (String c "") (y :: l)).
  apply all_chars_append; [done|]. rewrite append_cons, append_nil. by apply all_chars_cons.
Qed.
Lemma un0x_plain s : all_chars plain s → un0x s = s.
Proof.
  destruct s as [|a [|b s]]; try done. 1: by destruct a as [[] [] [] [] [] [] [] []].
  rewrite !all_chars_cons. intros (_ & (_ & _ & Hb) & _). destruct a as [[] [] [] [] [] [] [] []]; try done.
  destruct b as [[] [] [] [] [] [] [] []]; done.
Qed.
Lemma blobs_hex l : Forall wf_bytes l → blobs_of (map hex l) = Ok l.
Proof.
  induction 1 as [|x l Hx Hl IH]; [done|]. cbn [map blobs_of]. rewrite un0x_plain by (by apply hex_plain). by rewrite fromhex_hex, IH by done.
Qed.
Definition authorizer_ok (a : Authorizer) : Prop := 0 ≤ host a ∧ length (auth_code a) = 32%nat ∧ Forall wf_bytes [auth_code a; config a; token a].
Lemma parse_printed i (code : bytes) (rest : list bytes) :
  0 ≤ i → length code = 32%nat → Forall wf_bytes (code :: rest) → (length rest ≤ 2)%nat →
  parse_authorizer (joined ":" (pretty i :: map hex (code :: rest))) =
  Ok {| host := i; auth_code := code; config := default [] (rest !! 0%nat); token := default [] (rest !! 1%nat) |}.
Proof.
  intros Hi Hc Hw Hl. assert (Hp : Forall (all_chars plain) (pretty i :: map hex (code :: rest))).
  { constructor; [intros c Hc'; by apply digit_plain, (pretty_digits i)|]. apply Forall_map. eapply Forall_impl; [exact Hw|]. apply hex_plain. }
  assert (Hsp : Forall (all_chars (λ c, py_space c = false)) (pretty i :: map hex (code :: rest))) by (eapply Forall_impl; [exact Hp|]; intros s Hs c Hc'; by apply Hs).
  unfold parse_authorizer. rewrite strip_id by (by apply joined_chars). rewrite split_joined; [|done|eapply Forall_impl; [exact Hp|]; intros s Hs c Hc'; by apply Hs].
  rewrite (map_ext_in strip id) by (intros s Hs%list_elem_of_In; rewrite Forall_forall in Hsp; by apply strip_id, Hsp).
  rewrite map_id. cbn [map]. rewrite (proj2 (Nat.ltb_ge 2 _)) by (by rewrite length_map).
  change (hex code :: map hex rest) with (map hex (code :: rest)). rewrite blobs_hex, py_int_pretty by done. cbn. unfold hash32. by rewrite Hc.
Qed.
Lemma authorizer_reads a : authorizer_ok a → parse_authorizer (print_authorizer a) = Ok a.
Proof.
  intros (Hi & Hc & Hw). destruct a as [i code cf tk]. cbn in *. inversion_clear Hw as [|? ? Hw1 Hw']. unfold print_authorizer. cbn.
  assert (Hbare : parse_authorizer (joined ":" [pretty i; hex code]) = Ok {| host := i; auth_code := code; config := []; token := [] |})
    by (apply (parse_printed i code []); auto; cbn; lia).
  assert (Hfull : parse_authorizer (joined ":" [pretty i; hex code; hex cf; hex tk]) = Ok {| host := i; auth_code := code; config := cf; token := tk |})
    by (apply (parse_printed i code [cf; tk]); auto; cbn; lia).
  destruct cf, tk; done.
Qed.

(** The text an authorizer prints as configures it: with [AUTHORIZER] set to that text, a backend name read in any case and
    with blanks around it as jip2 gives the jip2 backend with exactly this authorizer and the service id of the environment,
    able to submit; jamnp gives the jamnp backend for that service; and any other name is refused. *)
Theorem authorizer_configures load env a name sid :
  authorizer_ok a → env !! "AUTHORIZER" = Some (print_authorizer a) → env !! "CHAIN_BACKEND" = Some name → name ≠ "" → service_of env = Ok sid →
  match from_env load env with
  | Ok (SelJip2 c) => lower (strip name) = "jip2" ∧ c_authorizer c = Some a ∧ c_service c = sid ∧ Submit.submits c = true
  | Ok (SelJamnp j) => lower (strip name) = "jamnp" ∧ j_service j = sid
  | Raise e => e = ValueError "CHAIN_BACKEND" ∧ lower (strip name) ∉ ["jamnp"; "jip2"]
  end.
Proof.
  intros Ha Hau Hcb Hne Hs. unfold from_env. rewrite Hs. cbn [mbind result_bind].
  assert (Hn : set_in env "CHAIN_BACKEND" = Some name) by (unfold set_in; rewrite Hcb; cbn; by rewrite (proj2 (String.eqb_neq _ _) Hne)).
  assert (Ht : set_in env "AUTHORIZER" = Some (print_authorizer a)).
  { unfold set_in. rewrite Hau. cbn [mbind option_bind]. destruct (String.eqb_spec (print_authorizer a) "") as [E|]; [|done].
    by generalize (authorizer_reads a Ha); rewrite E. }
  rewrite Hn, Ht. cbn [from_option id]. rewrite authorizer_reads by done. cbn [mbind result_bind].
  destruct (String.eqb_spec (lower (strip name)) "jamnp") as [E|E]; [done|]. destruct (String.eqb_spec (lower (strip name)) "jip2") as [E'|E']; [done|].
  split; [done|]. rewrite !elem_of_cons, elem_of_nil. naive_solver.
Qed.

(** ** Samples *)
(** The builder bridge refuses, then times out, then accepts. *)
Definition sample_bridge (n : nat) : bridges :=
  Bridges (λ _, Ok (HealthAnswer (Some "ab") None)) (λ _, Ok (ReadAnswer None (Some "0a0b")))
    (λ _ _ _, match n with O => Ok (SubmitAnswer (Some false)) | S O => Raise (OSError "timed out") | _ => Ok (SubmitAnswer (Some true)) end)
    (λ _, Ok ("# HELP" +:+ String "010" ("lasair_slot 5e1" +:+ String "010" "lasair_block_height +12.75"))) 0.
Definition sample_jamnp : jamnp := jamnp_init (Some 9) "http://builder/" "http://reader" " http://node ".
Example sample_gauges : (jamnp_head sample_bridge sample_jamnp).1 = Ok (Some (View (Some 50) None (Some 12))).
Proof. vm_compute. reflexivity. Qed.
Definition sample_env : gmap string string := {["SERVICE_ID" := "9"; "BUILDER_URL" := "http://builder/"; "READER_URL" := "http://reader"; "NODE_METRICS_URL" := " http://node "]}.
Definition no_spec (_ : string) : result (list (bytes * bytes)) := Raise (OSError "no such file").
Lemma selected_chain_honest_witness :
  let C := selected_chain sample_bridge SubmitSample.answers id in
  (1 ≤ may_have [[1%Z]] (C.(attempts) (uses (C := C) [UseOne [1%Z]; UseOne [1%Z]; UseHead; UseOne [1%Z]] (SelJamnp sample_jamnp)).2) ≤ 2)%nat.
Proof.
  pose proof (selected_chain_honest sample_bridge SubmitSample.answers id no_spec sample_env (SelJamnp sample_jamnp) [UseOne [1]; UseOne [1]; UseHead; UseOne [1]]) as H.
  cbv zeta in H |- *. destruct (uses _ _) as [os b'] eqn:E. cbn [snd].
  assert (Ht : times [[1]] Receipt os = 1%nat ∧ times [[1]] Failure os = 1%nat) by (apply (f_equal fst) in E; cbn [fst] in E; subst os; vm_compute; split; reflexivity).
  destruct Ht as [H1 H2]. specialize (λ A B C, H A B C [[1]]) as H'. rewrite H1, H2 in H'. apply H'; [|intros n core p e; cbn; case_match; [discriminate|]; intros [= <-]; reflexivity|vm_compute; reflexivity].
  intros [|[|n]] url i p e He; cbn in He; [discriminate|injection He as <-; reflexivity|discriminate].
Defined.

Definition sample_auth : Authorizer := {| host := 7; auth_code := repeat 171 32; config := []; token := [1; 2] |}.
Definition auth_env : gmap string string := {["AUTHORIZER" := print_authorizer sample_auth; "CHAIN_BACKEND" := " JIP2 "]}.
Lemma authorizer_configures_witness : ∃ c, from_env no_spec auth_env = Ok (SelJip2 c) ∧ c_authorizer c = Some sample_auth.
Proof.
  pose proof (authorizer_configures no_spec auth_env sample_auth " JIP2 " None) as H.
  assert (Ha : authorizer_ok sample_auth) by (split_and!; [done|done|apply (bool_decide_eq_true_1 _); vm_compute; reflexivity]).
  specialize (H Ha eq_refl eq_refl ltac:(discriminate) eq_refl).
  destruct (from_env no_spec auth_env) as [[j|c]|e].
  - destruct H as [H _]. vm_compute in H. discriminate.
  - exists c. split; [reflexivity|apply H].
  - destruct H as [_ []]. apply list_elem_of_further, list_elem_of_here.
Defined.

(** An answer of the builder bridge that is not JSON leaves the submission's outcome open, but the HTTP front reports it as a
    refusal of the request: 400, counted as refused. *)
Definition garbled (n : nat) : bridges :=
  Bridges (λ _, Ok (HealthAnswer None None)) (λ _, Ok (ReadAnswer None None)) (λ _ _ _, Raise (ValueError "Expecting value")) (λ _, Ok "") 0.
Definition deposit_route (body : bytes) : SE jamnp bytes := _ ← jamnp_submit garbled body; mret body.
Example garbled_answer_is_400 :
  let f := (Http.do_POST Ok Ok (λ _ _, []) (λ _, []) (λ _, Ok tt) [("/api/deposit", deposit_route)] (Http.Request "/api/deposit" (Some "1") (λ _, [1])) (Http.Front sample_jamnp [] [] [])).2 in
  map Http.rp_code (Http.f_sent f) = [400] ∧ (jamnp_chain garbled).(attempts) (Http.f_app f) = [([[1]], Unknown)].
Proof. vm_compute. split; reflexivity. Qed.
End Backends.
