(* ===== verification/Supervise.v ===== *)
(** * The supervisor of a native node: nets/supervise.py

    [main] from its loop on, as a state machine: the main thread moves from one point where a signal can arrive to the next, the
    handler [stop] runs at any such point, and children exit when they like.  Times are milliseconds of a clock that does not go
    back.  [subprocess.wait] without a timeout returns only when the child has exited, also when a signal handler runs
    meanwhile. *)
From S2P Require Import Prelude.
#[local] Open Scope Z_scope.

Module Supervise.

(** A child: when it was started and, once it has, when it exited *)
Record proc := Proc { p_start : Z; p_end : option Z }.
Definition p_alive (p : proc) : bool := match p_end p with None => true | Some _ => false end.
(** Where the main thread is *)
Inductive point :=
| Check                                  (* while not state["stopping"] *)
| Spawn (started : Z)                    (* subprocess.Popen *)
| Assign (started : Z) (c : nat)         (* state["child"] = ... *)
| Wait (started : Z) (c : nat)           (* state["child"].wait() *)
| Reaped (started : Z)                   (* if state["stopping"]: break *)
| Pause (deadline : Z)                   (* the wait before a restart *)
| Final                                  (* after the loop *)
| Grace (deadline : Z) (c : nat)         (* child.wait(timeout=20) *)
| Done
| Crashed.
Record sup := Sup {
  s_at : point; s_delay : Z; s_child : option nat; s_stopping : bool; s_procs : list proc; s_clock : Z;
  s_log : list (Z * Z);                  (* a line per restart: how long the child lived, the delay in seconds *)
  s_told : list nat; s_killed : list nat (* the children SIGTERM and SIGKILL were sent to *)
}.
Definition start (clock : Z) : sup := Sup Check 2 None false [] clock [] [] [].

Definition lives (ps : list proc) (c : nat) : bool := from_option p_alive false (ps !! c).
Definition alive (s : sup) (c : nat) : bool := lives (s_procs s) c.
Definition move (p : point) (s : sup) : sup :=
  Sup p (s_delay s) (s_child s) (s_stopping s) (s_procs s) (s_clock s) (s_log s) (s_told s) (s_killed s).
Definition set_procs (ps : list proc) (s : sup) : sup :=
  Sup (s_at s) (s_delay s) (s_child s) (s_stopping s) ps (s_clock s) (s_log s) (s_told s) (s_killed s).

(** [delay = 2 if lived >= 60 else min(delay * 2, 30)] *)
Definition next_delay (lived delay : Z) : Z := if 60000 <=? lived then 2 else Z.min (delay * 2) 30.

(** The main thread's next move; [None] while it is blocked *)
Definition main_step (s : sup) : option sup :=
  match s_at s with
  | Check => Some (if s_stopping s then move Final s else move (Spawn (s_clock s)) s)
  | Spawn t => Some (move (Assign t (length (s_procs s))) (set_procs (s_procs s ++ [Proc (s_clock s) None]) s))
  | Assign t c => Some (Sup (Wait t c) (s_delay s) (Some c) (s_stopping s) (s_procs s) (s_clock s) (s_log s) (s_told s) (s_killed s))
  | Wait t c => if alive s c then None else Some (move (Reaped t) s)
  | Reaped t =>
      if s_stopping s then Some (move Final s) else
      let lived := s_clock s - t in
      let delay := next_delay lived (s_delay s) in
      Some (Sup (Pause (s_clock s + 1000 * delay)) delay (s_child s) (s_stopping s) (s_procs s) (s_clock s) (s_log s ++ [(lived, delay)])
        (s_told s) (s_killed s))
  | Pause deadline => if s_stopping s || (deadline <=? s_clock s) then Some (move Check s) else None
  | Final =>
      match s_child s with
      | Some c => if alive s c then Some (move (Grace (s_clock s + 20000) c) s) else Some (move Done s)
      | None => Some (move Done s)
      end
  | Grace deadline c =>
      if negb (alive s c) then Some (move Done s)
      else if deadline <=? s_clock s then
        Some (Sup Done (s_delay s) (s_child s) (s_stopping s) (s_procs s) (s_clock s) (s_log s) (s_told s) (s_killed s ++ [c]))
      else None
  | Done | Crashed => None
  end.
(** The handler: [stop] *)
Definition stop (s : sup) : sup :=
  Sup (s_at s) (s_delay s) (s_child s) true (s_procs s) (s_clock s) (s_log s)
    (match s_child s with Some c => if alive s c then s_told s ++ [c] else s_told s | None => s_told s end) (s_killed s).

Inductive act := Main | Fails | Signal | Tick (d : positive) | Exits (c : nat).
Definition running (s : sup) : bool := match s_at s with Done | Crashed => false | _ => true end.
Definition do_act (a : act) (s : sup) : option sup :=
  match a with
  | Main => main_step s
  | Fails =>                             (* the log or the command cannot be opened *)
      match s_at s with
      | Spawn _ => Some (move Crashed s)
      | Reaped _ => if s_stopping s then None else Some (move Crashed s)
      | _ => None
      end
  | Signal => if running s then Some (stop s) else None
  | Tick d => Some (Sup (s_at s) (s_delay s) (s_child s) (s_stopping s) (s_procs s) (s_clock s + Z.pos d) (s_log s) (s_told s) (s_killed s))
  | Exits c => if alive s c then Some (set_procs (alter (λ p, Proc (p_start p) (Some (s_clock s))) c (s_procs s)) s) else None
  end.
Definition run_acts (acts : list act) (s : sup) : option sup := foldl (λ s a, s ≫= do_act a) (Some s) acts.

(** ** The invariant *)
Definition held (p : point) : option nat := match p with Assign _ c | Wait _ c => Some c | _ => None end.
(** The last child's exit and the delay logged for it are over by [T]; the last child was started no earlier than [t]. *)
Definition due (s : sup) (T : Z) : Prop := ∀ p e l, last (s_procs s) = Some p → p_end p = Some e → last (s_log s) = Some l → e + 1000 * l.2 ≤ T.
Definition since (s : sup) (t : Z) : Prop := ∀ p, last (s_procs s) = Some p → t ≤ p_start p.
Definition placed (s : sup) : Prop :=
  match s_at s with
  | Check => length (s_procs s) = length (s_log s) ∧ (s_stopping s = true ∨ due s (s_clock s))
  | Spawn t => length (s_procs s) = length (s_log s) ∧ t ≤ s_clock s ∧ due s (s_clock s)
  | Assign t c | Wait t c => length (s_procs s) = S (length (s_log s)) ∧ c = length (s_log s) ∧ since s t
  | Reaped t => length (s_procs s) = S (length (s_log s)) ∧ since s t
  | Pause dl => length (s_procs s) = length (s_log s) ∧ due s dl ∧ dl ≤ s_clock s + 30000
  | Final | Done => s_stopping s = true
  | Grace _ _ => False
  | Crashed => True
  end.
(** A restart: the child before had ended, its line is in the log, and the delay it names was waited. *)
Definition rested (s : sup) : Prop := ∀ i p q, s_procs s !! i = Some p → s_procs s !! S i = Some q →
  ∃ lived d e, s_log s !! i = Some (lived, d) ∧ p_end p = Some e ∧ e + 1000 * d ≤ p_start q.
Definition delays (s : sup) : Prop := ∀ i a b, s_log s !! i = Some a → s_log s !! S i = Some b → b.2 = next_delay b.1 a.2.
Definition lifetimes (s : sup) : Prop := ∀ i p e l, s_procs s !! i = Some p → p_end p = Some e → s_log s !! i = Some l → e - p_start p ≤ l.1.
Record inv (s : sup) : Prop := {
  inv_alive c : alive s c = true → held (s_at s) = Some c;
  inv_child : match s_at s with Wait _ c => s_child s = Some c | _ => True end;
  inv_delay : s_delay s ∈ [2; 4; 8; 16; 30];
  inv_log : Forall (λ l, l.2 ∈ [2; 4; 8; 16; 30] ∧ (60000 ≤ l.1 → l.2 = 2)) (s_log s);
  inv_last l : last (s_log s) = Some l → l.2 = s_delay s;
  inv_ends : Forall (λ p, ∀ e, p_end p = Some e → e ≤ s_clock s) (s_procs s);
  inv_placed : placed s;
  inv_rested : rested s;
  inv_delays : delays s;
  inv_lifetimes : lifetimes s
}.

Lemma next_delay_steps lived delay : delay ∈ [2; 4; 8; 16; 30] → next_delay lived delay ∈ [2; 4; 8; 16; 30] ∧ (60000 ≤ lived → next_delay lived delay = 2).
Proof.
  unfold next_delay. destruct (Z.leb_spec 60000 lived); [by split; [left|]|]. intros Hd. split; [|lia].
  rewrite !elem_of_cons, elem_of_nil in *. destruct Hd as [->|[->|[->|[->|[->|[]]]]]]; cbn; tauto.
Qed.
Lemma delay_bound d : d ∈ [2; 4; 8; 16; 30] → 2 ≤ d ≤ 30.
Proof. rewrite !elem_of_cons, elem_of_nil. lia. Qed.
(** The invariant when only the point changes *)
Lemma inv_move p s : inv s → placed (move p s) → match p with Wait _ _ => False | _ => True end → (∀ c, alive s c = true → held p = Some c) → inv (move p s).
Proof. intros [] Hp Hw Ha. split; try done. by destruct p. Qed.
Lemma none_alive s : inv s → held (s_at s) = None → ∀ c p, alive s c = true → held p = Some c.
Proof. intros H Hn c p Hc. apply H in Hc. congruence. Qed.
Lemma ended ps p i : (∀ c, lives ps c = false) → ps !! i = Some p → ∃ e, p_end p = Some e.
Proof. intros H Hi. specialize (H i). unfold lives, p_alive in H. rewrite Hi in H. cbn in H. destruct (p_end p); [eauto|done]. Qed.
Lemma none_lives s : inv s → held (s_at s) = None → ∀ c, lives (s_procs s) c = false.
Proof. intros H Hn c. destruct (lives (s_procs s) c) eqn:E; [|done]. by discriminate (none_alive s H Hn c Check E). Qed.

Lemma inv_spawn t s : inv s → s_at s = Spawn t → inv (move (Assign t (length (s_procs s))) (set_procs (s_procs s ++ [Proc (s_clock s) None]) s)).
Proof.
  intros H Ea. pose proof (none_lives s H ltac:(by rewrite Ea)) as Hn. destruct H as [H1 H2 H3 H4 H5 H6 H7 H8 H9 H10].
  unfold placed in H7. rewrite Ea in H7. destruct H7 as (Hl & Ht & Hd). split; cbn; try done.
  - intros c Hc. unfold alive, lives in *. cbn in Hc. destruct (decide (c < length (s_procs s))%nat) as [Hlt|Hge].
    + rewrite lookup_app_l in Hc by done. by rewrite Hn in Hc.
    + rewrite lookup_app_r in Hc by lia. destruct (c - length (s_procs s))%nat as [|k] eqn:E; [f_equal; lia|done].
  - apply Forall_app_2; [done|]. by apply Forall_singleton.
  - unfold placed. cbn. rewrite length_app. cbn. split_and!; [lia|done|]. intros p Hp. cbn in Hp. rewrite last_snoc in Hp. injection Hp as <-. done.
  - intros i p q Hp Hq. cbn in *. destruct (decide (S i < length (s_procs s))%nat) as [Hlt|Hge].
    + rewrite lookup_app_l in Hp, Hq by lia. by apply (H8 i).
    + assert (S i = length (s_procs s)) as Ei by (apply lookup_lt_Some in Hq; rewrite length_app in Hq; cbn in Hq; lia).
      rewrite Ei, lookup_app_r, Nat.sub_diag in Hq by lia. injection Hq as <-. rewrite lookup_app_l in Hp by lia. destruct (ended _ _ _ Hn Hp) as [e He].
      destruct (lookup_lt_is_Some_2 (s_log s) i ltac:(lia)) as [[lived d] Hi]. exists lived, d, e. split_and!; [done..|].
      apply (Hd p e (lived, d)); [rewrite last_lookup, <- Ei; done|done|]. rewrite last_lookup, <- Hl, <- Ei. done.
  - intros i p e l Hp He Hi. cbn in *. apply lookup_lt_Some in Hi as Hlt. rewrite lookup_app_l in Hp by lia. by apply (H10 i p e l).
Qed.
Lemma inv_pause t s : inv s → s_at s = Reaped t → let d := next_delay (s_clock s - t) (s_delay s) in
  inv (Sup (Pause (s_clock s + 1000 * d)) d (s_child s) (s_stopping s) (s_procs s) (s_clock s) (s_log s ++ [(s_clock s - t, d)]) (s_told s) (s_killed s)).
Proof.
  intros H Ea d. pose proof (none_lives s H ltac:(by rewrite Ea)) as Hn. destruct H as [H1 H2 H3 H4 H5 H6 H7 H8 H9 H10].
  unfold placed in H7. rewrite Ea in H7. destruct H7 as (Hl & Ht). destruct (next_delay_steps (s_clock s - t) (s_delay s) H3) as [Hd1 Hd2]. fold d in Hd1, Hd2.
  pose proof (delay_bound d Hd1). split; cbn; try done.
  - intros c Hc. unfold alive in Hc. cbn in Hc. by rewrite Hn in Hc.
  - apply Forall_app_2; [done|by apply Forall_singleton].
  - intros l. rewrite last_snoc. by intros [= <-].
  - unfold placed. cbn. rewrite length_app. cbn. split_and!; [lia| |lia]. intros p e l Hp He Hi. cbn in *. rewrite last_snoc in Hi. injection Hi as <-. cbn.
    rewrite Forall_forall in H6. apply last_Some_elem_of in Hp. specialize (H6 p Hp e He). lia.
  - intros i p q Hp Hq. cbn in *. destruct (H8 i p q Hp Hq) as (lived & x & e & Hi & He). exists lived, x, e. split; [by apply lookup_app_l_Some|done].
  - intros i a b Ha Hb. cbn in *. destruct (decide (S i < length (s_log s))%nat) as [Hlt|Hge].
    + rewrite lookup_app_l in Ha, Hb by lia. by apply (H9 i).
    + assert (S i = length (s_log s)) as Ei by (apply lookup_lt_Some in Hb; rewrite length_app in Hb; cbn in Hb; lia).
      rewrite Ei, lookup_app_r, Nat.sub_diag in Hb by lia. injection Hb as <-. cbn. rewrite lookup_app_l in Ha by lia.
      rewrite (H5 a); [done|]. rewrite last_lookup, <- Ei. done.
  - intros i p e l Hp He Hi. cbn in *. destruct (decide (i < length (s_log s))%nat) as [Hlt|Hge].
    + rewrite lookup_app_l in Hi by lia. by apply (H10 i p e l).
    + assert (i = length (s_log s)) as -> by (apply lookup_lt_Some in Hi; rewrite length_app in Hi; cbn in Hi; lia).
      rewrite lookup_app_r, Nat.sub_diag in Hi by lia. injection Hi as <-. cbn. rewrite Forall_forall in H6.
      pose proof (H6 p ltac:(by eapply list_elem_of_lookup_2) e He). pose proof (Ht p ltac:(rewrite last_lookup, Hl; exact Hp)). lia.
Qed.
Lemma inv_main s s' : inv s → main_step s = Some s' → inv s'.
Proof.
  intros H Hs. unfold main_step in Hs. pose proof (inv_placed s H) as Hp. unfold placed in Hp.
  destruct (s_at s) as [|t|t c|t c|t|dl| |dl c| |] eqn:Ea; try done.
  all: pose proof (λ E c p, none_alive s H E c p) as Hn; rewrite Ea in Hn; cbn in Hn.
  - injection Hs as <-. destruct (s_stopping s) eqn:Es; apply inv_move; auto. destruct Hp as [Hl [?|Hd]]; [done|]. unfold placed. cbn. split_and!; [done|lia|done].
  - injection Hs as <-. by apply inv_spawn.
  - injection Hs as <-. destruct H as [H1 H2 H3 H4 H5 H6 H7 H8 H9 H10]. split; cbn; try done. intros c' Hc. rewrite Ea in H1. exact (H1 c' Hc).
  - destruct (alive s c) eqn:Ec; [discriminate|]. injection Hs as <-. apply inv_move; [done|unfold placed; cbn; naive_solver|done|]. intros c' Hc.
    pose proof (inv_alive s H c' Hc) as E. rewrite Ea in E. injection E as <-. congruence.
  - destruct (s_stopping s) eqn:Es; injection Hs as <-; [apply inv_move; auto|]. rewrite <- Es. by apply (inv_pause t).
  - case_match; [|discriminate]. injection Hs as <-. apply inv_move; auto. unfold placed. cbn. destruct Hp as (Hl & Hd & _). split; [done|].
    destruct (s_stopping s); [by left|right]. cbn in *. zbool. intros p e l H1 H2 H3. specialize (Hd p e l H1 H2 H3). lia.
  - destruct (s_child s) as [c|]; [|injection Hs as <-; apply inv_move; auto].
    destruct (alive s c) eqn:Ec; injection Hs as <-; [|apply inv_move; auto]. by specialize (Hn eq_refl c Check Ec).
Qed.
Lemma inv_tick d s : inv s → inv (Sup (s_at s) (s_delay s) (s_child s) (s_stopping s) (s_procs s) (s_clock s + Z.pos d) (s_log s) (s_told s) (s_killed s)).
Proof.
  intros [H1 H2 H3 H4 H5 H6 H7 H8 H9 H10]. split; cbn; try done.
  - eapply Forall_impl; [exact H6|]. intros p Hp e He. specialize (Hp e He). lia.
  - assert (∀ T, due s T → due (Sup (s_at s) (s_delay s) (s_child s) (s_stopping s) (s_procs s) (s_clock s + Z.pos d) (s_log s) (s_told s) (s_killed s)) (T + Z.pos d)) as Hd.
    { intros T HT p e l Hp He Hl. specialize (HT p e l Hp He Hl). lia. }
    unfold placed in *. cbn. destruct (s_at s); cbn; try done.
    + destruct H7 as [? [?|?]]; split; auto.
    + destruct H7 as (? & ? & ?). split_and!; [done|lia|by apply Hd].
    + destruct H7 as (? & ? & ?). split_and!; [done|done|lia].
Qed.
Lemma alter_start c x (ps : list proc) i p : alter (λ p, Proc (p_start p) (Some x)) c ps !! i = Some p →
  ∃ p0, ps !! i = Some p0 ∧ p_start p = p_start p0 ∧ (i ≠ c → p = p0) ∧ (i = c → p_end p = Some x).
Proof.
  destruct (decide (i = c)) as [->|Hne]; [rewrite list_lookup_alter_eq|rewrite list_lookup_alter_ne by done].
  - destruct (ps !! c) as [p0|]; [|done]. cbn. intros [= <-]. exists p0. split_and!; done.
  - intros Hp. exists p. split_and!; done.
Qed.
Lemma inv_exits c s : inv s → alive s c = true → inv (set_procs (alter (λ p, Proc (p_start p) (Some (s_clock s))) c (s_procs s)) s).
Proof.
  intros [H1 H2 H3 H4 H5 H6 H7 H8 H9 H10] Hc. pose proof (H1 c Hc) as Hh.
  assert (c = length (s_log s) ∧ length (s_procs s) = S (length (s_log s))) as [Ec El].
  { unfold placed in H7. destruct (s_at s); cbn in Hh; try done; injection Hh as ->; naive_solver. }
  split; cbn; try done.
  - intros c' Hc'. apply H1. unfold alive, lives in *. cbn in Hc'. destruct (_ !! c') as [p|] eqn:E in Hc'; [|done].
    apply alter_start in E as (p0 & -> & _ & Hne & He). cbn in *. destruct (decide (c' = c)) as [->|Hd]; [|by rewrite <- Hne].
    unfold p_alive in Hc'. by rewrite He in Hc'.
  - apply Forall_alter; [done|]. cbn. intros p _ _ e [= <-]. done.
  - assert (∀ t, since s t → since (set_procs (alter (λ p, Proc (p_start p) (Some (s_clock s))) c (s_procs s)) s) t) as Hsi.
    { intros t Ht p Hp. cbn in Hp. rewrite last_lookup, length_alter in Hp. apply alter_start in Hp as (p0 & Hp & -> & _). apply Ht. by rewrite last_lookup. }
    unfold placed in *. cbn. destruct (s_at s); cbn in Hh; try done; rewrite length_alter; naive_solver.
  - intros i p q Hp Hq. cbn in *. apply lookup_lt_Some in Hq as Hlt. rewrite length_alter in Hlt.
    apply alter_start in Hp as (p0 & Hp & _ & -> & _); [|lia]. apply alter_start in Hq as (q0 & Hq & -> & _). by apply (H8 i).
  - intros i p e l Hp He Hi. cbn in *. apply lookup_lt_Some in Hi as Hlt. apply alter_start in Hp as (p0 & Hp & _ & E & _). rewrite E in He |- * by lia. by apply (H10 i p0 e l).
Qed.
Lemma inv_act a s s' : inv s → do_act a s = Some s' → inv s'.
Proof.
  intros H Hs. destruct a as [| | |d|c]; cbn in Hs; [by eapply inv_main| | | |].
  - destruct (s_at s) eqn:Ea; try discriminate; [|destruct (s_stopping s); [discriminate|]].
    all: injection Hs as <-; apply inv_move; [done..|]; intros c; apply none_alive; [done|by rewrite Ea].
  - destruct (running s); [|discriminate]. injection Hs as <-. destruct H as [H1 H2 H3 H4 H5 H6 H7 H8 H9 H10]. split; cbn; try done.
    unfold placed in *. cbn. destruct (s_at s); naive_solver.
  - injection Hs as <-. by apply inv_tick.
  - destruct (alive s c) eqn:Ec; [|discriminate]. injection Hs as <-. by apply inv_exits.
Qed.
Lemma inv_start clock : inv (start clock).
Proof. split; cbn; try done; [by left|]. split; [done|]. right. intros p e l. done. Qed.
Lemma inv_run acts : ∀ s s', inv s → run_acts acts s = Some s' → inv s'.
Proof.
  unfold run_acts. induction acts as [|a acts IH] using rev_ind; intros s s' H Hr; [by injection Hr as <-|].
  rewrite foldl_app in Hr. cbn in Hr. destruct (foldl _ _ acts) as [s1|] eqn:E; [|done]. eapply inv_act; [|exact Hr]. by eapply IH.
Qed.

(** Once told to stop, and with no child running, the supervisor ends within three moves, unless a child is being started. *)
Lemma stop_ends s : inv s → s_stopping s = true → (∀ c, alive s c = false) → match s_at s with Spawn _ | Assign _ _ | Crashed => False | _ => True end →
  ∃ n s', (n ≤ 3)%nat ∧ run_acts (repeat Main n) s = Some s' ∧ s_at s' = Done.
Proof.
  intros H Hst Hd Ha. pose proof (inv_placed s H) as Hg. destruct s as [p dl ch st ps ck lg tl kl]. unfold placed in Hg. cbn in *. subst st. unfold alive in Hd. cbn in Hd.
  assert (Hf : ∀ d c, run_acts [Main] (Sup Final d ch true ps c lg tl kl) = Some (Sup Done d ch true ps c lg tl kl)).
  { intros d c. unfold run_acts. cbn. destruct ch as [n|]; [|done]. unfold alive. cbn. by rewrite Hd. }
  destruct p as [|t|t c|t c|t|x| |x c| |]; try done.
  - exists 2%nat. eexists. split; [lia|]. split; [apply Hf|done].
  - exists 3%nat, (Sup Done dl ch true ps ck lg tl kl). split; [lia|]. split; [|done]. unfold run_acts. cbn. unfold alive. cbn. rewrite Hd. apply Hf.
  - exists 2%nat. eexists. split; [lia|]. split; [apply Hf|done].
  - exists 3%nat. eexists. split; [lia|]. split; [apply Hf|done].
  - exists 1%nat. eexists. split; [lia|]. split; [apply Hf|done].
  - exists 0%nat. eexists. split; [lia|]. split; done.
Qed.
(** Not told to stop, and with no child running, the supervisor has a new child running after at most three moves, thirty seconds
    and three more moves. *)
Lemma restart_comes s : inv s → s_stopping s = false → (∀ c, alive s c = false) → s_at s ≠ Crashed →
  ∃ a b s' c, (a ≤ 3 ∧ b ≤ 3)%nat ∧ run_acts (repeat Main a ++ [Tick 30000] ++ repeat Main b) s = Some s' ∧ alive s' c = true.
Proof.
  intros H Hst Hd Ha. pose proof (inv_placed s H) as Hg. pose proof (inv_delay s H) as Hdl. destruct s as [p dl ch st ps ck lg tl kl]. unfold placed in Hg. cbn in *. subst st. unfold alive in Hd. cbn in Hd.
  assert (Hp : ∀ dl ch x ck lg, x ≤ ck + 30000 →
    ∃ s' c, run_acts ([Tick 30000] ++ repeat Main 3) (Sup (Pause x) dl ch false ps ck lg tl kl) = Some s' ∧ alive s' c = true).
  { intros dl' ch' x ck' lg' Hx. unfold run_acts. cbn. destruct (Z.leb_spec x (ck' + 30000)); [|lia]. cbn. eexists _, (length ps). split; [done|].
    unfold alive, lives. cbn. by rewrite lookup_app_r, Nat.sub_diag by lia. }
  assert (Hr : ∀ ch t, ∃ s' c, run_acts ([Main] ++ [Tick 30000] ++ repeat Main 3) (Sup (Reaped t) dl ch false ps ck lg tl kl) = Some s' ∧ alive s' c = true).
  { intros ch' t. destruct (next_delay_steps (ck - t) dl Hdl) as [Hn%delay_bound _].
    apply (Hp (next_delay (ck - t) dl) ch' (ck + 1000 * next_delay (ck - t) dl) ck (lg ++ [(ck - t, next_delay (ck - t) dl)])). lia. }
  destruct p as [|t|t c|t c|t|x| |x c| |]; try done.
  - exists 2%nat, 0%nat. eexists _, (length ps). split; [lia|]. split; [done|]. unfold alive, lives. cbn. by rewrite lookup_app_r, Nat.sub_diag by lia.
  - exists 1%nat, 0%nat. eexists _, (length ps). split; [lia|]. split; [done|]. unfold alive, lives. cbn. by rewrite lookup_app_r, Nat.sub_diag by lia.
  - destruct (Hr (Some c) t) as (s' & c' & Hs). exists 3%nat, 3%nat, s', c'. split; [lia|]. revert Hs. unfold run_acts. cbn. unfold alive at 2. cbn. by rewrite Hd.
  - destruct (Hr ch t) as (s' & c' & Hs). exists 2%nat, 3%nat, s', c'. split; [lia|]. revert Hs. unfold run_acts. cbn. unfold alive at 2. cbn. by rewrite Hd.
  - destruct (Hr ch t) as (s' & c' & Hs). exists 1%nat, 3%nat, s', c'. split; [lia|exact Hs].
  - destruct (Hp dl ch x ck lg ltac:(lia)) as (s' & c' & Hs). exists 0%nat, 3%nat, s', c'. split; [lia|exact Hs].
Qed.

(** (C38) Through any interleaving of its own moves, signals, exits of children and the passing of time, the supervisor runs at most
    one child.  A child is started only after the one before has exited, and no earlier than its exit and the delay logged for
    it, 2 to 30 seconds: 2 after a child that lived a minute, and otherwise twice the delay of the restart before, at most 30.
    With no child running the supervisor, unless its log or command could not be opened, has a new one running after at most six
    moves and thirty seconds if it was not told to stop, and ends within three moves if it was and is not starting one. *)
Theorem supervisor_runs_one clock acts s :
  run_acts acts (start clock) = Some s →
  (∀ c c', alive s c = true → alive s c' = true → c = c') ∧
  (∀ i p q, s_procs s !! i = Some p → s_procs s !! S i = Some q →
   ∃ lived d e, s_log s !! i = Some (lived, d) ∧ p_end p = Some e ∧ e + 1000 * d ≤ p_start q ∧ 2 ≤ d ≤ 30 ∧ (60000 ≤ e - p_start p → d = 2)) ∧
  (∀ i a b, s_log s !! i = Some a → s_log s !! S i = Some b → b.2 = if 60000 <=? b.1 then 2 else Z.min (2 * a.2) 30) ∧
  ((∀ c, alive s c = false) → s_at s ≠ Crashed →
   (s_stopping s = false → ∃ a b s' c, (a ≤ 3 ∧ b ≤ 3)%nat ∧ run_acts (repeat Main a ++ [Tick 30000] ++ repeat Main b) s = Some s' ∧ alive s' c = true) ∧
   (s_stopping s = true → match s_at s with Spawn _ | Assign _ _ => False | _ => True end →
    ∃ n s', (n ≤ 3)%nat ∧ run_acts (repeat Main n) s = Some s' ∧ s_at s' = Done)).
Proof.
  intros Hr. pose proof (inv_run acts _ _ (inv_start clock) Hr) as H. split_and!.
  - intros c c' Hc%H Hc'%H. congruence.
  - intros i p q Hp Hq. destruct (inv_rested s H i p q Hp Hq) as (lived & d & e & Hi & He & Hw). exists lived, d, e.
    pose proof (inv_lifetimes s H i p e _ Hp He Hi) as Hlf. pose proof (inv_log s H) as Hl. rewrite Forall_forall in Hl.
    destruct (Hl (lived, d) ltac:(by eapply list_elem_of_lookup_2)) as [Hd%delay_bound H2]. cbn in *. split_and!; try done; [lia..|]. intros Hm. apply H2. lia.
  - intros i a b Hi Hj. rewrite (inv_delays s H i a b Hi Hj), (Z.mul_comm 2). done.
  - intros Hn Hc. split; [intros; by apply restart_comes|]. intros Hst Ha. apply stop_ends; [done..|]. by destruct (s_at s).
Qed.
(** A child that dies young twice, then a signal while the third runs *)
Definition crash_loop : list act :=
  [Main; Main; Main; Exits 0; Main; Main; Tick 4000; Main; Main; Main; Main; Exits 1; Main; Main; Tick 8000; Main; Main; Main; Main; Signal; Exits 2].
Lemma supervisor_runs_one_witness : ∃ s, run_acts crash_loop (start 0) = Some s ∧
  s_procs s = [Proc 0 (Some 0); Proc 4000 (Some 4000); Proc 12000 (Some 12000)] ∧ s_log s = [(0, 4); (0, 8)] ∧
  (∃ lived d e, Some (0, 8) = Some (lived, d) ∧ Some 4000 = Some e ∧ e + 1000 * d ≤ 12000 ∧ 2 ≤ d ≤ 30 ∧ (60000 ≤ e - 4000 → d = 2)) ∧
  ∃ n s', (n ≤ 3)%nat ∧ run_acts (repeat Main n) s = Some s' ∧ s_at s' = Done.
Proof.
  destruct (run_acts crash_loop (start 0)) as [s|] eqn:E; [|vm_compute in E; discriminate]. exists s. split; [reflexivity|].
  destruct (supervisor_runs_one 0 crash_loop s E) as (_ & Hw & _ & Hend). vm_compute in E. injection E as <-. split_and!; [reflexivity..| |].
  - exact (Hw 1%nat _ _ eq_refl eq_refl).
  - apply Hend; [|discriminate|reflexivity|exact I]. intros [|[|[|c]]]; reflexivity.
Defined.

(** A signal between the start of a child and its registration is lost on the child: it is never told, and is waited for. *)
Example signal_lost : ∃ s, run_acts [Main; Main; Signal; Main] (start 0) = Some s ∧
  s_stopping s = true ∧ s_procs s = [Proc 0 None] ∧ s_told s = [] ∧ main_step s = None.
Proof. eexists. vm_compute. split_and!; reflexivity. Qed.
(** A child that does not exit on SIGTERM is still waited for a day later, and is not killed. *)
Example never_killed : ∃ s, run_acts [Main; Main; Main; Signal; Tick 86400000] (start 0) = Some s ∧
  s_procs s = [Proc 0 None] ∧ s_told s = [0%nat] ∧ s_killed s = [] ∧ main_step s = None.
Proof. eexists. vm_compute. split_and!; reflexivity. Qed.
(** The first restart after an early death is after four seconds. *)
Example first_restart : ∃ s, run_acts [Main; Main; Main; Exits 0; Main; Main] (start 0) = Some s ∧ s_log s = [(0, 4)].
Proof. eexists. vm_compute. split; reflexivity. Qed.
End Supervise.
