(* ===== verification/Metrics.v ===== *)
(** * The metrics page and who reads it: metrics.py's [render], loadgen.py's [op], soak.py's [load_counts] and [judge_load]

    [render] writes the registry of Ledger.v as Prometheus text; [parse_text] is the exposition format as its documentation gives
    it (a sample per line, label values between double quotes with backslash escapes).  The load generator counts what it offers
    in such a registry and the soak reads the counts back from the page.  Values are integers, as counters are; texts are ASCII;
    [judge_load] computes in binary64. *)
From S2P Require Import Prelude Ledger DevKeys Genesis Http Backends.
From stdpp Require Import pretty.
From Stdlib Require Import Ascii SpecFloat.
Import Genesis Backends.
#[local] Open Scope string_scope.
#[local] Open Scope list_scope.
#[local] Open Scope Z_scope.

Module Metrics.

(** ** Python's formatting *)
Definition SQ : ascii := "039".
Definition DQ : ascii := "034".
Definition BS : ascii := "092".
Fixpoint has (c : ascii) (s : string) : bool := match s with EmptyString => false | String d s' => Ascii.eqb c d || has c s' end.
(** [repr(s)] *)
Definition repr_char (q c : ascii) : string :=
  let n := N_of_ascii c in
  if Ascii.eqb c BS || Ascii.eqb c q then String BS (String c "")
  else if (n =? 10)%N then String BS "n" else if (n =? 13)%N then String BS "r" else if (n =? 9)%N then String BS "t"
  else if (n <? 32)%N || (n =? 127)%N then String BS ("x" +:+ DevKeys.hex [Z.of_N n])
  else String c "".
Fixpoint repr_body (q : ascii) (s : string) : string := match s with EmptyString => "" | String c s' => repr_char q c +:+ repr_body q s' end.
Definition py_repr (s : string) : string :=
  let q := if has SQ s && negb (has DQ s) then DQ else SQ in String q (repr_body q s +:+ String q "").
(** [s.replace]: single quotes become double ones *)
Fixpoint unsingle (s : string) : string := match s with EmptyString => "" | String c s' => String (if Ascii.eqb c SQ then DQ else c) (unsingle s') end.
(** [_fmt_labels] *)
Definition fmt_labels (lt : labels) (extra : list string) : string :=
  match (map (λ kv, kv.1 +:+ "=" +:+ py_repr kv.2) lt ++ extra)%list with
  | [] => ""
  | parts => "{" +:+ unsingle (joined "," parts) +:+ "}"
  end.

(** ["%g" % v] of an integer: six significant digits *)
Definition half_even (a d : Z) : Z :=
  let q := a / d in let r := a mod d in
  if (2 * r <? d) || ((2 * r =? d) && Z.even q) then q else q + 1.
Fixpoint rstrip_zeros (s : string) : string :=
  match s with
  | EmptyString => ""
  | String c s' => match rstrip_zeros s' with EmptyString => if Ascii.eqb c "0" then "" else String c "" | r => String c r end
  end.
Definition two_digits (x : Z) : string := if x <? 10 then "0" +:+ pretty x else pretty x.
Definition scientific (a : Z) : string :=
  let x := Z.of_nat (String.length (pretty a)) - 1 in
  let m := half_even a (10 ^ (x - 5)) in
  let '(m, x) := if m =? 1000000 then (100000, x + 1) else (m, x) in
  match pretty m with
  | String d frac => String d (match rstrip_zeros frac with "" => "" | f => "." +:+ f end) +:+ "e+" +:+ two_digits x
  | EmptyString => ""
  end.
Definition g6 (v : Z) : string :=
  if Z.abs v <? 1000000 then pretty v else if v <? 0 then "-" +:+ scientific (- v) else scientific v.

(** ** The page *)
Record registry := Registry {
  r_help : gmap string string; r_gauges : gmap metric Z; r_counters : gmap metric Z; r_hists : gmap metric hist;
  r_callbacks : list (string * result Z)
}.
(** The order of [sorted]: names, then label tuples *)
Fixpoint labels_leb (a b : labels) : bool :=
  match a, b with
  | [], _ => true
  | _ :: _, [] => false
  | (k, v) :: a', (k', v') :: b' =>
      if String.eqb k k' then if String.eqb v v' then labels_leb a' b' else String.leb v v' else String.leb k k'
  end.
Definition metric_leb {A} (x y : metric * A) : bool :=
  if String.eqb x.1.1 y.1.1 then labels_leb x.1.2 y.1.2 else String.leb x.1.1 y.1.1.
Definition sorted_items {A} (m : gmap metric A) : list (metric * A) := sort_by metric_leb (map_to_list m).

Definition head_lines (help : gmap string string) (kind name : string) (seen : list string) : list string :=
  if bool_decide (name ∈ seen) then [] else
  match help !! name with Some h => ["# HELP " +:+ name +:+ " " +:+ h] | None => [] end ++ ["# TYPE " +:+ name +:+ " " +:+ kind].
(** The lines of a family of samples, and the names seen *)
Fixpoint family {A} (help : gmap string string) (kind : string) (body : metric → A → list string) (seen : list string) (items : list (metric * A))
  : list string * list string :=
  match items with
  | [] => ([], seen)
  | (k, v) :: rest =>
      let '(ls, seen') := family help kind body (k.1 :: seen) rest in
      (head_lines help kind k.1 seen ++ body k v ++ ls, seen')
  end.
Definition value_line (k : metric) (v : Z) : list string := [k.1 +:+ fmt_labels k.2 [] +:+ " " +:+ g6 v].
Definition quoted (s : string) : string := String DQ (s +:+ String DQ "").
Definition hist_lines (k : metric) (h : hist) : list string :=
  zip_with (λ b n, k.1 +:+ "_bucket" +:+ fmt_labels k.2 ["le=" +:+ quoted (g6 b)] +:+ " " +:+ pretty n) BUCKETS (h_buckets h) ++
  [k.1 +:+ "_bucket" +:+ fmt_labels k.2 ["le=" +:+ quoted "+Inf"] +:+ " " +:+ pretty (h_count h);
   k.1 +:+ "_sum" +:+ fmt_labels k.2 [] +:+ " " +:+ g6 (h_sum h);
   k.1 +:+ "_count" +:+ fmt_labels k.2 [] +:+ " " +:+ pretty (h_count h)].
Definition callback_lines (help : gmap string string) (cb : string * result Z) : list string :=
  match cb.2 with
  | Ok v => ["# HELP " +:+ cb.1 +:+ " " +:+ default "" (help !! cb.1); "# TYPE " +:+ cb.1 +:+ " gauge"; cb.1 +:+ " " +:+ g6 v]
  | Raise _ => []
  end.
Definition NL : ascii := "010".
Definition page_lines (r : registry) : list string :=
  let '(gs, _) := family (r_help r) "gauge" value_line [] (sorted_items (r_gauges r)) in
  let '(cs, seen) := family (r_help r) "counter" value_line [] (sorted_items (r_counters r)) in
  let '(hs, _) := family (r_help r) "histogram" hist_lines seen (sorted_items (r_hists r)) in
  gs ++ cs ++ hs ++ concat (map (callback_lines (r_help r)) (r_callbacks r)).
Definition render (r : registry) : string := joined (String NL "") (page_lines r) +:+ String NL "".

(** ** The exposition format *)
Record sample := Sample { sm_name : string; sm_labels : labels; sm_value : pyfloat }.
#[global] Instance pyfloat_eq_dec : EqDecision pyfloat.
Proof. solve_decision. Defined.
#[global] Instance sample_eq_dec : EqDecision sample.
Proof. solve_decision. Defined.
Definition name_char (c : ascii) : bool :=
  let n := N_of_ascii c in
  (((97 <=? n) && (n <=? 122)) || ((65 <=? n) && (n <=? 90)) || ((48 <=? n) && (n <=? 58)) || (n =? 95))%N.
Fixpoint take_name (s : string) : string * string :=
  match s with
  | String c s' => if name_char c then let '(n, r) := take_name s' in (String c n, r) else ("", s)
  | EmptyString => ("", "")
  end.
Fixpoint take_value (s : string) : option (string * string) :=
  match s with
  | EmptyString => None
  | String c s' =>
      if Ascii.eqb c DQ then Some ("", s')
      else if Ascii.eqb c BS then
        match s' with
        | String d s'' =>
            '(v, r) ← take_value s'';
            if Ascii.eqb d "n" then Some (String NL v, r) else if Ascii.eqb d BS || Ascii.eqb d DQ then Some (String d v, r) else None
        | EmptyString => None
        end
      else '(v, r) ← take_value s'; Some (String c v, r)
  end.
Fixpoint take_labels (fuel : nat) (s : string) : option (labels * string) :=
  match fuel with
  | O => None
  | S fuel' =>
      match take_name s with
      | (String a n, String "=" (String q r)) =>
          if Ascii.eqb q DQ then
            '(v, r2) ← take_value r;
            match r2 with
            | String "}" r3 => Some ([(String a n, v)], r3)
            | String "," r3 => '(ls, r4) ← take_labels fuel' r3; Some ((String a n, v) :: ls, r4)
            | _ => None
            end
          else None
      | _ => None
      end
  end.
Definition parse_sample (line : string) : option sample :=
  let '(n, r) := take_name line in
  '(ls, r) ← match r with String "{" r' => take_labels (String.length r') r' | _ => Some ([], r) end;
  match n, r with
  | String _ _, String " " t => v ← py_float t; Some (Sample n ls v)
  | _, _ => None
  end.
Fixpoint parse_lines (lines : list string) : option (list sample) :=
  match lines with
  | [] => None
  | [last] => if String.eqb last "" then Some [] else None
  | l :: rest =>
      ss ← parse_lines rest;
      match l with EmptyString | String "#" _ => Some ss | _ => s ← parse_sample l; Some (s :: ss) end
  end.
Definition parse_text (text : string) : option (list sample) := parse_lines (split NL text).

(** ** What a page says, read back *)
Definition name_ok (n : string) : Prop := n ≠ "" ∧ all_chars name_char n.
Definition clean (c : ascii) : Prop := (32 <= N_of_ascii c <= 126)%N ∧ c ≠ SQ ∧ c ≠ DQ ∧ c ≠ BS.
#[local] Instance clean_dec c : Decision (clean c) := _.
Definition label_ok (kv : string * string) : Prop := name_ok kv.1 ∧ all_chars clean kv.2.
Definition metric_ok (k : metric) : Prop := name_ok k.1 ∧ Forall label_ok k.2.
Definition shown (v : Z) : Prop := 0 ≤ v < 1000000.

Definition value_samples (k : metric) (v : Z) : list sample := [Sample k.1 k.2 (Dec v 0)].
Definition hist_samples (k : metric) (h : hist) : list sample :=
  zip_with (λ b n, Sample (k.1 +:+ "_bucket") (k.2 ++ [("le", g6 b)]) (Dec n 0)) BUCKETS (h_buckets h) ++
  [Sample (k.1 +:+ "_bucket") (k.2 ++ [("le", "+Inf")]) (Dec (h_count h) 0); Sample (k.1 +:+ "_sum") k.2 (Dec (h_sum h) 0);
   Sample (k.1 +:+ "_count") k.2 (Dec (h_count h) 0)].
Definition callback_samples (cb : string * result Z) : list sample := match cb.2 with Ok v => [Sample cb.1 [] (Dec v 0)] | Raise _ => [] end.
Definition samples (r : registry) : list sample :=
  concat (map (λ kv, value_samples kv.1 kv.2) (map_to_list (r_gauges r))) ++ concat (map (λ kv, value_samples kv.1 kv.2) (map_to_list (r_counters r))) ++
  concat (map (λ kv, hist_samples kv.1 kv.2) (map_to_list (r_hists r))) ++ concat (map callback_samples (r_callbacks r)).

Definition line_samples (l : string) : option (list sample) :=
  match l with EmptyString | String "#" _ => Some [] | _ => s ← parse_sample l; Some [s] end.
Definition reads (l : string) (ss : list sample) : Prop := all_chars (.≠ NL) l ∧ line_samples l = Some ss.
Definition reads_all (ls : list string) (ss : list sample) : Prop := ∃ sss, Forall2 reads ls sss ∧ ss = concat sss.

Lemma reads_all_app a b sa sb : reads_all a sa → reads_all b sb → reads_all (a ++ b) (sa ++ sb).
Proof. intros (x & Hx & ->) (y & Hy & ->). exists (x ++ y). split; [by apply Forall2_app|by rewrite concat_app]. Qed.
Lemma reads_all_nil : reads_all [] [].
Proof. exists []. split; [constructor|done]. Qed.
Lemma reads_all_one l ss : reads l ss → reads_all [l] ss.
Proof. intros H. exists [ss]. split; [by constructor|cbn; by rewrite app_nil_r]. Qed.
Lemma reads_all_concat {A} (f : A → list string) (g : A → list sample) l : Forall (λ x, reads_all (f x) (g x)) l → reads_all (concat (map f l)) (concat (map g l)).
Proof. induction 1; [apply reads_all_nil|]. cbn. by apply reads_all_app. Qed.

Lemma parse_lines_cons l ls : ls ≠ [] → parse_lines (l :: ls) = ss ← parse_lines ls; xs ← line_samples l; Some (xs ++ ss).
Proof.
  intros Hne. destruct ls as [|l' ls]; [done|].
  change (parse_lines (l :: l' :: ls)) with
    (ss ← parse_lines (l' :: ls); match l with EmptyString | String "#" _ => Some ss | _ => s ← parse_sample l; Some (s :: ss) end).
  destruct (parse_lines (l' :: ls)) as [ss|]; [|reflexivity]. destruct l as [|c l]; [reflexivity|]. unfold line_samples. generalize (parse_sample (String c l)). intros o.
  destruct c as [[] [] [] [] [] [] [] []]; try reflexivity; destruct o; reflexivity.
Qed.
Lemma parse_reads ls ss : reads_all ls ss → parse_lines (ls ++ [""]) = Some ss.
Proof.
  intros (sss & H & ->). induction H as [|l xs ls sss [_ Hl] _ IH]; [done|]. cbn [app concat]. rewrite parse_lines_cons by (by destruct ls).
  rewrite IH. cbn. by rewrite Hl.
Qed.
Lemma page_reads ls ss : reads_all ls ss → parse_text (joined (String NL "") ls +:+ String NL "") = Some ss.
Proof.
  intros H. unfold parse_text. rewrite split_append. destruct ls as [|l ls].
  - destruct H as (sss & Hf & ->). inversion_clear Hf. done.
  - rewrite split_joined; [by apply parse_reads|done|]. destruct H as (sss & Hf & _). apply Forall_forall. intros x Hx.
    apply list_elem_of_lookup in Hx as [i Hi]. destruct (Forall2_lookup_l _ _ _ _ _ Hf Hi) as (y & _ & Hr & _). exact Hr.
Qed.

(** *** Labels *)
Lemma unsingle_append a b : unsingle (a +:+ b) = unsingle a +:+ unsingle b.
Proof. induction a as [|c a IH]; [done|]. rewrite append_cons. cbn [unsingle]. by rewrite append_cons, IH. Qed.
Lemma unsingle_id s : all_chars (.≠ SQ) s → unsingle s = s.
Proof.
  induction s as [|c s IH]; [done|]. intros [Hc Hs]%all_chars_cons. cbn [unsingle]. rewrite (IH Hs). by rewrite (proj2 (Ascii.eqb_neq c SQ)).
Qed.
Lemma name_chars n : all_chars name_char n → all_chars (λ c, c ≠ SQ ∧ c ≠ DQ ∧ c ≠ NL) n.
Proof. intros H c Hc%H. split_and!; intros ->; by vm_compute in Hc. Qed.
Lemma clean_chars v : all_chars clean v → all_chars (λ c, c ≠ SQ ∧ c ≠ DQ ∧ c ≠ NL ∧ c ≠ BS) v.
Proof. intros H c Hc. destruct (H c Hc) as (Hr & H1 & H2 & H3). split_and!; try done. intros ->. vm_compute in Hr. by destruct Hr as [[] _]. Qed.
Lemma repr_clean q v : q = SQ ∨ q = DQ → all_chars clean v → repr_body q v = v.
Proof.
  intros Hq. induction v as [|c v IH]; [done|]. intros [(Hr & H1 & H2 & H3) Hv]%all_chars_cons. cbn [repr_body]. rewrite (IH Hv).
  unfold repr_char. rewrite (proj2 (Ascii.eqb_neq c BS)) by done. rewrite (proj2 (Ascii.eqb_neq c q)) by (by destruct Hq; subst).
  cbn [orb]. rewrite !(proj2 (N.eqb_neq _ _)), (proj2 (N.ltb_ge _ _)) by lia. cbn [orb]. by rewrite append_cons, append_nil.
Qed.
Lemma unsingle_repr v : all_chars clean v → unsingle (py_repr v) = quoted v.
Proof.
  intros H. assert (Hq : has SQ v = false).
  { clear -H. induction v as [|c v IH]; [done|]. apply all_chars_cons in H as [(_ & Hc & _) Hv]. cbn [has]. rewrite (IH Hv).
    rewrite (proj2 (Ascii.eqb_neq SQ c)) by congruence. done. }
  unfold py_repr. rewrite Hq. cbn [andb]. rewrite repr_clean by auto. cbn [unsingle]. rewrite unsingle_append, unsingle_id; [done|].
  intros c Hc. by apply (clean_chars v H).
Qed.
Definition label_text (kv : string * string) : string := kv.1 +:+ "=" +:+ quoted kv.2.
Definition labels_text (ls : labels) : string := match ls with [] => "" | _ => "{" +:+ joined "," (map label_text ls) +:+ "}" end.
Lemma unsingle_joined l : unsingle (joined "," l) = joined "," (map unsingle l).
Proof.
  induction l as [|x [|y l] IH]; [done..|]. change (joined "," (x :: y :: l)) with (x +:+ "," +:+ joined "," (y :: l)).
  rewrite !unsingle_append, IH. done.
Qed.
Lemma unsingle_label kv : label_ok kv → unsingle (kv.1 +:+ "=" +:+ py_repr kv.2) = label_text kv.
Proof.
  intros [[_ Hn] Hv]. rewrite !unsingle_append, unsingle_repr by done. rewrite unsingle_id; [done|]. intros c Hc. by apply (name_chars _ Hn).
Qed.
Lemma unsingle_le b : all_chars clean b → unsingle ("le=" +:+ quoted b) = label_text ("le", b).
Proof.
  intros H. rewrite unsingle_append. unfold quoted at 1. cbn [unsingle]. rewrite unsingle_append, unsingle_id; [done|].
  intros c Hc. by apply (clean_chars b H).
Qed.
Lemma fmt_text ls extra (es : labels) : Forall label_ok ls → map unsingle extra = map label_text es → fmt_labels ls extra = labels_text (ls ++ es).
Proof.
  intros H He. set (f := λ kv : string * string, kv.1 +:+ "=" +:+ py_repr kv.2).
  assert (Hm : map unsingle (map f ls ++ extra) = map label_text (ls ++ es)).
  { rewrite !map_app, He, map_map. f_equal. apply map_ext_in. intros kv Hk%list_elem_of_In. rewrite Forall_forall in H. by apply unsingle_label, H. }
  unfold fmt_labels, labels_text. fold f. rewrite <- Hm, <- unsingle_joined. destruct (map f ls ++ extra)%list eqn:E; destruct (ls ++ es)%list eqn:E'; done.
Qed.
Lemma fmt_plain ls : Forall label_ok ls → fmt_labels ls [] = labels_text ls.
Proof. intros H. by rewrite (fmt_text ls [] []), app_nil_r. Qed.
Lemma fmt_le ls b : Forall label_ok ls → all_chars clean b → fmt_labels ls ["le=" +:+ quoted b] = labels_text (ls ++ [("le", b)]).
Proof. intros H Hb. apply fmt_text; [done|]. cbn [map]. by rewrite unsingle_le. Qed.

Lemma take_name_app n c r : all_chars name_char n → name_char c = false → take_name (n +:+ String c r) = (n, String c r).
Proof.
  intros Hn Hc. induction n as [|a n IH]; [rewrite append_nil; cbn; by rewrite Hc|].
  apply all_chars_cons in Hn as [Ha Hn]. rewrite append_cons. cbn [take_name]. rewrite (IH Hn). by destruct (name_char a).
Qed.
Lemma take_value_clean v r : all_chars clean v → take_value (v +:+ String DQ r) = Some (v, r).
Proof.
  induction v as [|c v IH]; [done|]. intros [(_ & _ & H2 & H3) Hv]%all_chars_cons. rewrite append_cons. cbn [take_value].
  rewrite (proj2 (Ascii.eqb_neq c DQ)), (proj2 (Ascii.eqb_neq c BS)), (IH Hv) by done. done.
Qed.
Lemma take_label fuel kv r : label_ok kv → take_labels (S fuel) (label_text kv +:+ r) =
  match r with
  | String "}" r3 => Some ([kv], r3)
  | String "," r3 => '(ls, r4) ← take_labels fuel r3; Some (kv :: ls, r4)
  | _ => None
  end.
Proof.
  intros [[Hne Hn] Hv]. destruct kv as [n v]. unfold label_text, quoted. cbn [fst snd] in *.
  assert (E : (n +:+ "=" +:+ String DQ (v +:+ String DQ "")) +:+ r = n +:+ String "=" (String DQ (v +:+ String DQ r))).
  { rewrite append_assoc. f_equal. rewrite !append_cons, append_nil, append_cons. f_equal. f_equal. by rewrite append_assoc, append_cons, append_nil. }
  rewrite E. cbn [take_labels]. rewrite take_name_app by done. destruct n as [|a n]; [done|].
  change (Ascii.eqb DQ DQ) with true. cbv iota. rewrite take_value_clean by done. reflexivity.
Qed.
Lemma take_labels_text ls r : ls ≠ [] → Forall label_ok ls → ∀ fuel, (length ls ≤ fuel)%nat → take_labels fuel (joined "," (map label_text ls) +:+ String "}" r) = Some (ls, r).
Proof.
  intros Hne H. induction H as [|kv ls Hk Hls IH]; [done|]. intros fuel Hf. destruct fuel as [|fuel]; [cbn in Hf; lia|].
  destruct ls as [|kv' ls]; [cbn [map joined]; by rewrite take_label|].
  change (joined "," (map label_text (kv :: kv' :: ls))) with (label_text kv +:+ "," +:+ joined "," (map label_text (kv' :: ls))).
  rewrite append_assoc, append_assoc, take_label, append_cons, append_nil by done. cbn in Hf. rewrite IH by (done || (cbn; lia)). done.
Qed.
Lemma length_append a b : String.length (a +:+ b) = (String.length a + String.length b)%nat.
Proof. induction a as [|c a IH]; [done|]. rewrite append_cons. cbn. by rewrite IH. Qed.
Lemma labels_length ls : (length ls ≤ String.length (joined "," (map label_text ls)))%nat.
Proof.
  assert (Hk : ∀ kv, (1 ≤ String.length (label_text kv))%nat) by (intros [k v]; unfold label_text; rewrite !length_append; cbn; lia).
  induction ls as [|kv [|kv' ls] IH]; [cbn; lia|apply Hk|].
  change (joined "," (map label_text (kv :: kv' :: ls))) with (label_text kv +:+ "," +:+ joined "," (map label_text (kv' :: ls))).
  rewrite !length_append. specialize (Hk kv). cbn in *. lia.
Qed.

(** *** Lines *)
Lemma parse_sample_text n ls t v : name_ok n → Forall label_ok ls → py_float t = Some v →
  parse_sample (n +:+ labels_text ls +:+ " " +:+ t) = Some (Sample n ls v).
Proof.
  intros [Hne Hn] Hls Ht. unfold parse_sample, labels_text. destruct ls as [|kv ls].
  - rewrite append_nil, append_cons, append_nil, take_name_app by done. cbn [mbind option_bind]. destruct n; [done|]. by rewrite Ht.
  - rewrite !append_assoc, append_cons, append_nil, take_name_app by done.
    rewrite (append_cons "}"), append_nil. rewrite take_labels_text; [|done|done|rewrite length_append; pose proof (labels_length (kv :: ls)); lia].
    cbn [mbind option_bind]. destruct n; [done|]. rewrite append_cons, append_nil. by rewrite Ht.
Qed.
Lemma no_newline_labels ls : Forall label_ok ls → all_chars (.≠ NL) (labels_text ls).
Proof.
  intros H. unfold labels_text. destruct ls as [|kv ls]; [apply all_chars_nil|].
  assert (Hj : all_chars (.≠ NL) (joined "," (map label_text (kv :: ls)))).
  { apply joined_chars; [done|]. apply Forall_map. eapply Forall_impl; [exact H|]. intros [k v] [[_ Hk] Hv]. unfold label_text, quoted. cbn [fst snd] in *.
    repeat apply all_chars_append; try apply all_chars_cons; [intros c Hc; by apply (name_chars k Hk)|split; [done|apply all_chars_nil]|split; [done|]].
    apply all_chars_append; [intros c Hc; by apply (clean_chars v Hv)|apply all_chars_cons; split; [done|apply all_chars_nil]]. }
  rewrite append_cons, append_nil. apply all_chars_cons. split; [done|]. apply all_chars_append; [done|]. apply all_chars_cons. split; [done|apply all_chars_nil].
Qed.
Lemma sample_reads n ls t v : name_ok n → Forall label_ok ls → py_float t = Some v → all_chars (.≠ NL) t →
  reads (n +:+ labels_text ls +:+ " " +:+ t) [Sample n ls v].
Proof.
  intros Hn Hls Hv Ht. split.
  - apply all_chars_append; [intros c Hc; by apply (name_chars n), Hc; apply Hn|]. apply all_chars_append; [by apply no_newline_labels|].
    rewrite append_cons, append_nil. by apply all_chars_cons.
  - pose proof (parse_sample_text n ls t v Hn Hls Hv) as Hp. destruct Hn as [Hne Hn]. destruct n as [|c n]; [done|]. rewrite append_cons in *.
    apply all_chars_cons in Hn as [Hc _]. unfold line_samples. rewrite Hp. clear Hp. destruct c as [[] [] [] [] [] [] [] []]; done.
Qed.
Lemma comment_reads s : all_chars (.≠ NL) s → reads ("# " +:+ s) [].
Proof. intros H. split; [|done]. rewrite !append_cons, append_nil. rewrite !all_chars_cons. by split_and!. Qed.

(** *** Values *)
Lemma digits_lower s : all_chars is_digit s → lower s = s.
Proof.
  induction s as [|c s IH]; [done|]. intros [Hc Hs]%all_chars_cons. cbn [lower]. rewrite (IH Hs). f_equal.
  destruct c as [[] [] [] [] [] [] [] []]; done.
Qed.
Lemma pretty_value z : 0 ≤ z → int_digits 0 false (pretty z) = Some z ∧ sign_of (pretty z) = (1, pretty z) ∧
  (String.eqb (pretty z) "inf" || String.eqb (pretty z) "infinity") = false ∧ String.eqb (pretty z) "nan" = false.
Proof.
  intros Hz. pose proof (py_int_pretty z Hz) as Hp. pose proof (pretty_digits z Hz) as Hd. unfold py_int in Hp.
  rewrite strip_id in Hp by (intros c Hc; by apply digit_not_space, Hd). destruct (pretty z) as [|c s] eqn:E; [done|].
  apply all_chars_cons in Hd as [Hc _]. clear E. destruct c as [[] [] [] [] [] [] [] []]; try done;
    (split; [destruct (int_digits 0 false _); cbn in Hp; congruence|split_and!; reflexivity]).
Qed.
Lemma py_float_pretty z : 0 ≤ z → py_float (pretty z) = Some (Dec z 0).
Proof.
  intros Hz. destruct (pretty_value z Hz) as (Hv & Hs & Hi & Hn). pose proof (pretty_digits z Hz) as Hd. unfold py_float.
  rewrite strip_id by (intros c Hc; by apply digit_not_space, Hd). rewrite digits_lower, Hs, Hi, Hn by done.
  rewrite split_none by (apply digits_avoid; [done|by intros []]). unfold mantissa. rewrite split_none by (apply digits_avoid; [done|by intros []]).
  destruct (pretty z) eqn:E; rewrite Hv; cbn [mbind option_bind]; f_equal; f_equal; lia.
Qed.
Lemma pretty_lines z : 0 ≤ z → all_chars (.≠ NL) (pretty z).
Proof. intros Hz. apply digits_avoid; [done|by intros []]. Qed.
Lemma g6_shown v : shown v → g6 v = pretty v.
Proof. intros H. unfold g6, shown in *. by rewrite (proj2 (Z.ltb_lt _ _)) by lia. Qed.
Lemma value_reads n ls v : name_ok n → Forall label_ok ls → 0 ≤ v → reads (n +:+ labels_text ls +:+ " " +:+ pretty v) [Sample n ls (Dec v 0)].
Proof. intros Hn Hls Hv. apply sample_reads; [done|done|by apply py_float_pretty|by apply pretty_lines]. Qed.

Lemma value_line_reads k v : metric_ok k → shown v → reads_all (value_line k v) (value_samples k v).
Proof.
  intros [Hn Hl] Hv. apply reads_all_one. rewrite fmt_plain, g6_shown by done. apply value_reads; [done|done|apply Hv].
Qed.
Definition hist_ok (h : hist) : Prop := Forall (λ n, 0 ≤ n) (h_buckets h) ∧ shown (h_sum h) ∧ 0 ≤ h_count h.
(** Facts about the characters of a literal, by evaluation *)
Lemma chars_check (Q : ascii → Prop) `{!∀ c, Decision (Q c)} s : bool_decide (Forall Q (String.list_ascii_of_string s)) = true → all_chars Q s.
Proof. intros Hb%bool_decide_eq_true. intros c. by apply (proj1 (Forall_forall Q _)). Qed.
Ltac chars := solve [apply (chars_check _); vm_compute; reflexivity].
Lemma suffix_ok n suf : name_ok n → all_chars name_char suf → name_ok (n +:+ suf).
Proof. intros [Hne Hn] Hs. split; [by destruct n|by apply all_chars_append]. Qed.
Lemma bucket_reads n ls b v : name_ok n → Forall label_ok ls → all_chars clean b → 0 ≤ v →
  reads (n +:+ "_bucket" +:+ fmt_labels ls ["le=" +:+ quoted b] +:+ " " +:+ pretty v) [Sample (n +:+ "_bucket") (ls ++ [("le", b)]) (Dec v 0)].
Proof.
  intros Hn Hls Hb Hv. rewrite fmt_le, <- append_assoc by done. apply value_reads; [|apply Forall_app_2; [done|]|done].
  - apply suffix_ok; [done|chars].
  - apply Forall_singleton. split; [|done]. split; [done|chars].
Qed.
Lemma suffixed_reads n suf ls v : name_ok n → all_chars name_char suf → Forall label_ok ls → 0 ≤ v →
  reads (n +:+ suf +:+ fmt_labels ls [] +:+ " " +:+ pretty v) [Sample (n +:+ suf) ls (Dec v 0)].
Proof. intros Hn Hs Hls Hv. rewrite fmt_plain, <- append_assoc by done. apply value_reads; [by apply suffix_ok|done|done]. Qed.
Lemma bucket_bounds : Forall (λ b, all_chars clean (g6 b)) BUCKETS.
Proof.
  assert (H : Forall (λ b, Forall clean (String.list_ascii_of_string (g6 b))) BUCKETS) by (apply (bool_decide_eq_true_1 _); vm_compute; reflexivity).
  eapply Forall_impl; [exact H|]. intros b Hb c. by apply (proj1 (Forall_forall clean _) Hb).
Qed.
Lemma hist_lines_read k h : metric_ok k → hist_ok h → reads_all (hist_lines k h) (hist_samples k h).
Proof.
  intros [Hn Hl] (Hb & Hs & Hc). unfold hist_lines, hist_samples. apply reads_all_app.
  - generalize bucket_bounds. revert Hb. generalize (h_buckets h). generalize BUCKETS. intros bs. induction bs as [|b bs IH]; intros ns Hns Hbs; [apply reads_all_nil|].
    destruct Hns as [|n ns Hn' Hns]; [apply reads_all_nil|]. apply Forall_cons in Hbs as [Hb Hbs]. cbn [zip_with].
    apply (reads_all_app [_] _ [_] _); [apply reads_all_one; by apply bucket_reads|by apply IH].
  - apply (reads_all_app [_] _ [_] _); [apply reads_all_one; apply bucket_reads; try done; chars|].
    apply (reads_all_app [_] _ [_] _); apply reads_all_one; [rewrite g6_shown by done|]; apply suffixed_reads; try done; try apply Hs; chars.
Qed.

(** *** The page *)
Definition help_ok (help : gmap string string) : Prop := ∀ n h, help !! n = Some h → all_chars (.≠ NL) h.
Lemma name_line n : name_ok n → all_chars (.≠ NL) n.
Proof. intros [_ Hn] c Hc. by apply (name_chars n Hn). Qed.
Lemma help_reads n h : name_ok n → all_chars (.≠ NL) h → reads ("# HELP " +:+ n +:+ " " +:+ h) [].
Proof.
  intros Hn Hh. apply (comment_reads ("HELP " +:+ n +:+ " " +:+ h)). apply all_chars_append; [chars|]. apply all_chars_append; [by apply name_line|].
  apply all_chars_append; [chars|done].
Qed.
Lemma type_reads n kind : name_ok n → all_chars (.≠ NL) kind → reads ("# TYPE " +:+ n +:+ " " +:+ kind) [].
Proof.
  intros Hn Hh. apply (comment_reads ("TYPE " +:+ n +:+ " " +:+ kind)). apply all_chars_append; [chars|]. apply all_chars_append; [by apply name_line|].
  apply all_chars_append; [chars|done].
Qed.
Lemma head_reads help kind n seen : help_ok help → name_ok n → all_chars (.≠ NL) kind → reads_all (head_lines help kind n seen) [].
Proof.
  intros Hh Hn Hk. unfold head_lines. case_bool_decide; [apply reads_all_nil|]. apply (reads_all_app _ _ [] []); [|by apply reads_all_one, type_reads].
  destruct (help !! n) as [h|] eqn:E; [|apply reads_all_nil]. apply reads_all_one, help_reads; [done|by eapply Hh].
Qed.
Lemma family_reads {A} help kind body (bs : metric → A → list sample) items : ∀ seen, help_ok help → all_chars (.≠ NL) kind →
  Forall (λ kv, name_ok kv.1.1 ∧ reads_all (body kv.1 kv.2) (bs kv.1 kv.2)) items →
  reads_all (family help kind body seen items).1 (concat (map (λ kv, bs kv.1 kv.2) items)).
Proof.
  induction items as [|[k v] items IH]; intros seen Hh Hk H; [apply reads_all_nil|]. apply Forall_cons in H as [[Hn Hb] H]. cbn [family].
  specialize (IH (k.1 :: seen) Hh Hk H). destruct (family help kind body (k.1 :: seen) items) as [ls seen']. cbn in *.
  apply (reads_all_app _ _ [] _); [by apply head_reads|]. by apply reads_all_app.
Qed.
Record page_ok (r : registry) : Prop := {
  po_help : help_ok (r_help r);
  po_gauges k v : r_gauges r !! k = Some v → metric_ok k ∧ shown v;
  po_counters k v : r_counters r !! k = Some v → metric_ok k ∧ shown v;
  po_hists k h : r_hists r !! k = Some h → metric_ok k ∧ hist_ok h;
  po_callbacks : Forall (λ cb, name_ok cb.1 ∧ match cb.2 with Ok v => shown v | Raise _ => True end) (r_callbacks r)
}.
Lemma sorted_forall {A} (m : gmap metric A) (P : metric → A → Prop) : (∀ k v, m !! k = Some v → P k v) → Forall (λ kv, P kv.1 kv.2) (sorted_items m).
Proof. intros H. apply Forall_forall. intros [k v] Hk. apply H. unfold sorted_items in Hk. by rewrite elem_of_sort_by, elem_of_map_to_list in Hk. Qed.
Definition sorted_samples (r : registry) : list sample :=
  concat (map (λ kv, value_samples kv.1 kv.2) (sorted_items (r_gauges r))) ++ concat (map (λ kv, value_samples kv.1 kv.2) (sorted_items (r_counters r))) ++
  concat (map (λ kv, hist_samples kv.1 kv.2) (sorted_items (r_hists r))) ++ concat (map callback_samples (r_callbacks r)).
Lemma page_lines_read r : page_ok r → reads_all (page_lines r) (sorted_samples r).
Proof.
  intros H. unfold page_lines, sorted_samples.
  assert (Kg : all_chars (.≠ NL) "gauge") by chars. assert (Kc : all_chars (.≠ NL) "counter") by chars. assert (Kh : all_chars (.≠ NL) "histogram") by chars.
  assert (Hv : ∀ m, (∀ k v, m !! k = Some v → metric_ok k ∧ shown v) → Forall (λ kv, name_ok kv.1.1 ∧ reads_all (value_line kv.1 kv.2) (value_samples kv.1 kv.2)) (sorted_items m)).
  { intros m Hm. apply (sorted_forall m (λ k v, name_ok k.1 ∧ reads_all (value_line k v) (value_samples k v))). intros k v [Hk' Hs]%Hm. split; [apply Hk'|by apply value_line_reads]. }
  pose proof (family_reads (r_help r) "gauge" value_line value_samples (sorted_items (r_gauges r)) [] (po_help r H) Kg (Hv _ (po_gauges r H))) as Hg.
  pose proof (family_reads (r_help r) "counter" value_line value_samples (sorted_items (r_counters r)) [] (po_help r H) Kc (Hv _ (po_counters r H))) as Hc.
  destruct (family _ "gauge" _ _ _) as [gs sg]. destruct (family _ "counter" _ _ _) as [cs sc].
  assert (Hh : Forall (λ kv, name_ok kv.1.1 ∧ reads_all (hist_lines kv.1 kv.2) (hist_samples kv.1 kv.2)) (sorted_items (r_hists r))).
  { apply (sorted_forall _ (λ k h, name_ok k.1 ∧ reads_all (hist_lines k h) (hist_samples k h))). intros k h [Hk' Hs]%(po_hists r H). split; [apply Hk'|by apply hist_lines_read]. }
  pose proof (family_reads (r_help r) "histogram" hist_lines hist_samples _ sc (po_help r H) Kh Hh) as Hhs.
  destruct (family _ "histogram" _ _ _) as [hs sh]. cbn in Hg, Hc, Hhs.
  apply reads_all_app; [done|]. apply reads_all_app; [done|]. apply reads_all_app; [done|]. apply reads_all_concat.
  eapply Forall_impl; [apply (po_callbacks r H)|]. intros [n [v|e]] [Hn Hv']; [|apply reads_all_nil]. unfold callback_lines, callback_samples. cbn [fst snd] in *.
  apply (reads_all_app [_] _ [] _); [apply reads_all_one, help_reads; [done|]; destruct (r_help r !! n) eqn:E; [by eapply po_help|apply all_chars_nil]|].
  apply (reads_all_app [_] _ [] _); [apply reads_all_one, type_reads; [done|chars]|]. rewrite g6_shown by done.
  apply reads_all_one, (value_reads n [] v); [done|constructor|apply Hv'].
Qed.
Lemma sorted_samples_perm r : sorted_samples r ≡ₚ samples r.
Proof. unfold sorted_samples, samples, sorted_items. by rewrite !sort_by_perm. Qed.

(** (C39) The metrics page of a registry reads back, by the rules of the exposition format, as exactly the registry's samples: every
    gauge, counter and histogram with its labels and value and the callbacks that answered, none missing, split or added; as
    long as names are metric names, label values are printable without quotes and backslashes, and values are whole and below a
    million. *)
Theorem page_reads_back r : page_ok r → ∃ ss, parse_text (render r) = Some ss ∧ ss ≡ₚ samples r.
Proof. intros H. exists (sorted_samples r). split; [by apply page_reads, page_lines_read|apply sorted_samples_perm]. Qed.

(** *** Samples *)
Definition sample_registry : registry :=
  Registry {["a_total" := "how often"]} {[("g", []) := 7]} {[("a_total", [("op", "buy")]) := 3; ("a_total", [("op", "sealed sell")]) := 12]}
    {[("h", [("op", "b")]) := observe_hist 4 hist0]} [("cb", Ok 5); ("down", Raise (OSError "refused"))].
Lemma page_reads_back_witness : ∃ ss, parse_text (render sample_registry) = Some ss ∧ Sample "a_total" [("op", "buy")] (Dec 3 0) ∈ ss.
Proof.
  assert (Hn : ∀ n, bool_decide (n ≠ "") && bool_decide (Forall name_char (String.list_ascii_of_string n)) = true → name_ok n).
  { intros n [H1%bool_decide_eq_true H2]%andb_true_iff. split; [exact H1|by apply (chars_check _)]. }
  assert (Hl : ∀ k v, name_ok k → bool_decide (Forall clean (String.list_ascii_of_string v)) = true → label_ok (k, v)).
  { intros k v Hk Hv. split; [exact Hk|by apply (chars_check _)]. }
  destruct (page_reads_back sample_registry) as (ss & Hp & Hs).
  - split; cbn.
    + intros n h Hh. apply lookup_singleton_Some in Hh as [_ <-]. chars.
    + intros k v Hk. apply lookup_singleton_Some in Hk as [<- <-]. split; [split; [apply Hn; vm_compute; reflexivity|constructor]|done].
    + intros k v Hk. apply lookup_insert_Some in Hk as [[<- <-]|[_ [<- <-]%lookup_singleton_Some]];
        (split; [split; [apply Hn; vm_compute; reflexivity|apply Forall_singleton, Hl; [apply Hn|]; vm_compute; reflexivity]|done]).
    + intros k h Hk. apply lookup_singleton_Some in Hk as [<- <-]. split; [split; [apply Hn; vm_compute; reflexivity|apply Forall_singleton, Hl; [apply Hn|]; vm_compute; reflexivity]|].
      split; [apply (bool_decide_eq_true_1 _); vm_compute; reflexivity|done].
    + do 2 (apply Forall_cons; split; [split; [apply Hn; vm_compute; reflexivity|done]|]). apply Forall_nil_2.
  - exists ss. split; [exact Hp|]. rewrite Hs. apply (bool_decide_eq_true_1 _). vm_compute. reflexivity.
Defined.

(** The refusal of an order whose seq is not above its account's floor: its label keeps the apostrophe of the message, which closes
    the label value early on the page, and a reader of the format refuses the page. *)
Definition ascii_of_points (t : list Z) : string := String.string_of_list_ascii (map (λ c, ascii_of_N (Z.to_N c)) t).
Definition stale_seq : list Z :=
  Http.code_points "order seq 7 is not above the account's settled seq 9" ++ [32; 8212; 32] ++ Http.code_points "sign the order with a fresh seq".
Definition after_stale_seq : registry :=
  Registry ∅ ∅ (inc "jamswap_api_refused_total" [("route", "/api/order"); ("reason", ascii_of_points (Http.refusal_reason stale_seq))] 1 ∅) ∅ [].
Example stale_seq_breaks_page : parse_text (render after_stale_seq) = None.
Proof. vm_compute. reflexivity. Qed.
(** Six digits: a counter or an atomic balance of more is shown rounded. *)
Example page_rounds : value_line ("jamswap_treasury_jamkb_atomic", []) 123456789 = ["jamswap_treasury_jamkb_atomic 1.23457e+08"].
Proof. vm_compute. reflexivity. Qed.
End Metrics.
