(* ===== verification/Soak.v ===== *)
(** * The offered load of a soak: loadgen.py's [op], soak.py's [load_counts] and [judge_load]

    The load generator counts every operation it offers and how the exchange answered; the soak reads the three counters back from
    the generator's metrics page just before it stops, and fails a run whose exchange turned too much of the load away.
    [judge_load] computes in binary64, as the source does. *)
From S2P Require Import Prelude Ledger Genesis Backends Metrics.
From stdpp Require Import pretty.
From Stdlib Require Import Ascii SpecFloat.
Import Genesis Backends Metrics.
#[local] Open Scope string_scope.
#[local] Open Scope list_scope.
#[local] Open Scope Z_scope.

Module Soak.

(** ** The load generator *)
(** How an operation ended: an answer, an HTTP error, another exception *)
Inductive op_end := OpOk | OpHttp (code : Z) | OpFailed.
Definition OPS : string := "loadgen_ops_total".
Definition ERRORS : string := "loadgen_op_errors_total".
Definition BUSY : string := "loadgen_ops_busy_total".
Definition op (c : gmap metric Z) (o : string * op_end) : gmap metric Z :=
  let c := inc OPS (op_label o.1) 1 c in
  match o.2 with
  | OpOk => c
  | OpHttp code => if code =? 503 then inc BUSY (op_label o.1) 1 c else inc ERRORS (op_label o.1) 1 c
  | OpFailed => inc ERRORS (op_label o.1) 1 c
  end.

(** ** The soak *)
Record tallies := Tallies { t_ops : pyfloat; t_errors : pyfloat; t_busy : pyfloat }.
Record load := Load { ld_offered : Z; ld_refused : Z; ld_busy : Z }.
(** Addition of decimals *)
Definition float_add (a b : pyfloat) : pyfloat :=
  match a, b with
  | NaN, _ | _, NaN => NaN
  | Infinite, _ | _, Infinite => Infinite
  | Dec m e, Dec m' e' => let x := Z.min e e' in Dec (m * 10 ^ (e - x) + m' * 10 ^ (e' - x)) x
  end.
(** [line.split("{")[0].split(" ")[0]] *)
Definition line_name (line : string) : string := default "" (hd_error (split " " (default "" (hd_error (split "{" line))))).
(** [line.rsplit(" ", 1)[1]] *)
Definition last_word (line : string) : result string :=
  match reverse (split " " line) with w :: _ :: _ => Ok w | _ => Raise IndexError end.
Definition tally (t : tallies) (name : string) (v : pyfloat) : tallies :=
  if String.eqb name OPS then Tallies (float_add (t_ops t) v) (t_errors t) (t_busy t)
  else if String.eqb name ERRORS then Tallies (t_ops t) (float_add (t_errors t) v) (t_busy t)
  else if String.eqb name BUSY then Tallies (t_ops t) (t_errors t) (float_add (t_busy t) v)
  else t.
Definition counted_name (name : string) : bool := String.eqb name OPS || String.eqb name ERRORS || String.eqb name BUSY.
Definition load_line (t : tallies) (line : string) : result tallies :=
  let name := line_name line in
  if counted_name name && negb (String.prefix "#" line) then
    w ← last_word line;
    v ← match py_float w with Some v => Ok v | None => Raise (ValueError "could not convert string to float") end;
    Ok (tally t name v)
  else Ok t.
Fixpoint load_lines (t : tallies) (lines : list string) : result tallies :=
  match lines with [] => Ok t | l :: rest => t' ← load_line t l; load_lines t' rest end.
Definition load_counts (text : string) : result load :=
  t ← load_lines (Tallies (Dec 0 0) (Dec 0 0) (Dec 0 0)) (splitlines text);
  o ← int_of (t_ops t); r ← int_of (t_errors t); b ← int_of (t_busy t);
  Ok (Load o r b).

(** binary64 *)
Definition float_of (z : Z) : spec_float := binary_normalize 53 1024 z 0 false.
Definition judge_load (c : load) (target : spec_float) : bool :=
  (0 <? ld_offered c) && SFleb (float_of (ld_refused c + ld_busy c)) (SFmul 53 1024 (SFsub 53 1024 (float_of 1) target) (float_of (ld_offered c))).
(** [done["pass"]]: the exit statuses of the poll ([None] on a timeout), the parity probe and the verdict, and the load *)
Definition soak_pass (poll : option Z) (parity verdict : Z) (load_pass : bool) : bool :=
  bool_decide (poll = Some 0) && (parity =? 0) && (verdict =? 0) && load_pass.

(** ** Reading the page *)
Definition unbroken (s : string) : Prop := all_chars (λ c, line_break c = false) s.
Lemma splitlines_append c a b : line_break c = true → splitlines (a +:+ String c b) = splitlines a ++ splitlines b.
Proof.
  intros Hc. induction a as [|x a IH]; rewrite ?append_nil, ?append_cons; cbn [splitlines]; [by rewrite Hc|].
  rewrite IH. destruct (line_break x); [done|]. destruct (splitlines a) as [|h t] eqn:E; [|done].
  exfalso. destruct a as [|y a]; [done|]. cbn in E. destruct (line_break y); [done|]. by destruct (splitlines a).
Qed.
Lemma splitlines_none a : unbroken a → splitlines a = [a].
Proof. induction a as [|x a IH]; [done|]. intros [Hx Ha]%all_chars_cons. cbn [splitlines]. by rewrite (IH Ha), Hx. Qed.
Lemma splitlines_joined l : l ≠ [] → Forall unbroken l → splitlines (joined (String NL "") l) = l.
Proof.
  intros Hne H. induction H as [|x l Hx Hl IH]; [done|]. destruct l as [|y l]; [by apply splitlines_none|].
  change (joined (String NL "") (x :: y :: l)) with (x +:+ String NL "" +:+ joined (String NL "") (y :: l)).
  rewrite append_cons, append_nil, splitlines_append, splitlines_none by done. by rewrite IH.
Qed.
Lemma load_lines_app a b t : load_lines t (a ++ b) = t' ← load_lines t a; load_lines t' b.
Proof. revert t. induction a as [|l a IH]; intros t; [done|]. cbn. destruct (load_line t l); [|done]. cbn. apply IH. Qed.
Lemma blank_line t : load_line t "" = Ok t.
Proof. reflexivity. Qed.
Lemma load_page ls t : Forall unbroken ls → load_lines t (splitlines (joined (String NL "") ls +:+ String NL "")) = load_lines t ls.
Proof.
  intros H. rewrite splitlines_append by done. destruct ls as [|l ls]; [done|]. rewrite splitlines_joined by done. rewrite load_lines_app.
  by destruct (load_lines t (l :: ls)).
Qed.

(** A line of a sample, and one of a comment *)
Lemma first_piece c a b : all_chars (.≠ c) a → hd_error (split c (a +:+ String c b)) = Some a.
Proof. intros H. by rewrite split_append, split_none. Qed.
Lemma name_avoids n c : name_ok n → name_char c = false → all_chars (.≠ c) n.
Proof. intros [_ Hn] Hc x Hx ->. assert (H : Is_true (name_char c)) by exact (Hn c Hx). by rewrite Hc in H. Qed.
Lemma sample_name n ls t : name_ok n → line_name (n +:+ labels_text ls +:+ " " +:+ t) = n.
Proof.
  intros Hn. unfold line_name, labels_text. destruct ls as [|kv ls].
  - rewrite append_nil, (append_cons " "), append_nil.
    assert (E : ∃ r, split "{" (n +:+ String " " t) = r ∧ ∃ u, hd_error r = Some (n +:+ String " " u)).
    { eexists. split; [reflexivity|]. clear -Hn. pose proof (name_avoids n "{" Hn eq_refl) as Ha. clear Hn.
      induction n as [|x n IH].
      - rewrite append_nil. cbn [split]. replace (Ascii.eqb "{" " ") with false by reflexivity. destruct (split "{" t) as [|h r]; eexists; reflexivity.
      - apply all_chars_cons in Ha as [Hx Ha]. destruct (IH Ha) as [u Hu]. rewrite append_cons. cbn [split]. rewrite (proj2 (Ascii.eqb_neq "{" x)) by congruence.
        destruct (split "{" (n +:+ String " " t)) as [|h r]; [done|]. cbn in *. exists u. rewrite append_cons. congruence. }
    destruct E as (r & Er & u & Hu). rewrite Er, Hu. cbn [from_option id]. by rewrite first_piece by (by apply name_avoids).
  - rewrite !append_assoc, (append_cons "{"), append_nil, first_piece by (by apply name_avoids). cbn [from_option id].
    by rewrite split_none by (by apply name_avoids).
Qed.
Lemma split_ne c a : split c a ≠ [].
Proof. induction a as [|x a IH]; [done|]. cbn [split]. destruct (Ascii.eqb c x); [done|]. by destruct (split c a). Qed.
Lemma last_word_digits a z : 0 ≤ z → last_word (a +:+ String " " (pretty z)) = Ok (pretty z).
Proof.
  intros Hz. unfold last_word. rewrite split_append, (split_none " " (pretty z)) by (apply digits_avoid; [done|by intros []]).
  rewrite reverse_app. cbn. destruct (split " " a) as [|x l] eqn:E.
  - by apply split_ne in E.
  - rewrite reverse_cons. by destruct (reverse l).
Qed.
Lemma prefix_sharp s : String.prefix "#" s = match s with String "#" _ => true | _ => false end.
Proof. destruct s as [|c s]; [done|]. destruct c as [[] [] [] [] [] [] [] []]; try done; by destruct s. Qed.
Lemma load_sample t n ls v : name_ok n → Forall label_ok ls → 0 ≤ v → load_line t (n +:+ labels_text ls +:+ " " +:+ pretty v) = Ok (tally t n (Dec v 0)).
Proof.
  intros Hn Hls Hv. unfold load_line. rewrite sample_name by done.
  assert (Hp : String.prefix "#" (n +:+ labels_text ls +:+ " " +:+ pretty v) = false).
  { destruct Hn as [Hne Hn]. destruct n as [|c n]; [done|]. apply all_chars_cons in Hn as [Hc _]. rewrite append_cons, prefix_sharp.
    destruct c as [[] [] [] [] [] [] [] []]; done. }
  rewrite Hp. destruct (counted_name n) eqn:Ec; cbn [andb negb].
  - rewrite <- append_assoc. change (" " +:+ pretty v) with (String " " ("" +:+ pretty v)). rewrite append_nil.
    rewrite last_word_digits by done. cbn [mbind result_bind]. by rewrite py_float_pretty.
  - unfold tally, counted_name in *. apply orb_false_iff in Ec as [[-> ->]%orb_false_iff ->]. done.
Qed.
Lemma load_comment t s : load_line t ("# " +:+ s) = Ok t.
Proof. unfold load_line. rewrite !append_cons, append_nil, prefix_sharp. cbn [negb]. by rewrite andb_false_r. Qed.

(** *** The whole page *)
(** The sum of a counter over its labels *)
Definition total (name : string) (items : list (metric * Z)) : Z := zsum (λ kv, if String.eqb kv.1.1 name then kv.2 else 0) items.
Definition tallied (items : list (metric * Z)) (t : tallies) (x y z : Z) : Prop :=
  t = Tallies (Dec (x + total OPS items) 0) (Dec (y + total ERRORS items) 0) (Dec (z + total BUSY items) 0).
Lemma tally_int x y z n v : ∃ x' y' z',
  tally (Tallies (Dec x 0) (Dec y 0) (Dec z 0)) n (Dec v 0) = Tallies (Dec x' 0) (Dec y' 0) (Dec z' 0) ∧
  x' = x + (if String.eqb n OPS then v else 0) ∧ y' = y + (if String.eqb n ERRORS then v else 0) ∧ z' = z + (if String.eqb n BUSY then v else 0).
Proof.
  assert (Hadd : ∀ a, float_add (Dec a 0) (Dec v 0) = Dec (a + v) 0) by (intros a; unfold float_add; change (10 ^ (0 - Z.min 0 0)) with 1; f_equal; lia).
  unfold tally. cbn [t_ops t_errors t_busy]. rewrite !Hadd.
  destruct (String.eqb_spec n OPS), (String.eqb_spec n ERRORS), (String.eqb_spec n BUSY); subst; try discriminate;
    eexists _, _, _; (split; [reflexivity|split_and!; lia]).
Qed.
Lemma load_help t s : load_line t ("# HELP " +:+ s) = Ok t.
Proof. exact (load_comment t ("HELP " +:+ s)). Qed.
Lemma load_type t s : load_line t ("# TYPE " +:+ s) = Ok t.
Proof. exact (load_comment t ("TYPE " +:+ s)). Qed.
Lemma load_head help n seen t : load_lines t (head_lines help "counter" n seen) = Ok t.
Proof.
  unfold head_lines. case_bool_decide; [done|]. rewrite load_lines_app. destruct (help !! n) as [h|]; cbn [load_lines mbind result_bind].
  - rewrite load_help. cbn [mbind result_bind]. by rewrite load_type.
  - by rewrite load_type.
Qed.
Lemma load_family help items : ∀ seen x y z,
  Forall (λ kv, metric_ok kv.1 ∧ shown kv.2) items →
  load_lines (Tallies (Dec x 0) (Dec y 0) (Dec z 0)) (family help "counter" value_line seen items).1 =
  Ok (Tallies (Dec (x + total OPS items) 0) (Dec (y + total ERRORS items) 0) (Dec (z + total BUSY items) 0)).
Proof.
  induction items as [|[k v] items IH]; intros seen x y z H; [cbn; by rewrite !Z.add_0_r|]. apply Forall_cons in H as [[[Hn Hl] Hv] H].
  cbn [family]. specialize (IH (k.1 :: seen)). destruct (family help "counter" value_line (k.1 :: seen) items) as [ls sn]. cbn [fst] in *.
  rewrite !load_lines_app, load_head. cbn [mbind result_bind]. unfold value_line. rewrite fmt_plain, g6_shown by done. cbn [app load_lines].
  rewrite load_sample by (done || apply Hv). cbn [mbind result_bind]. destruct (tally_int x y z k.1 v) as (x' & y' & z' & -> & -> & -> & ->).
  rewrite IH by done. unfold total. rewrite !zsum_cons. cbn [fst snd]. by rewrite !Z.add_assoc.
Qed.
Lemma total_sorted (n : string) (c : gmap metric Z) : total n (sorted_items c) = total n (map_to_list c).
Proof. unfold total, sorted_items. by rewrite sort_by_perm. Qed.

(** *** Counting operations *)
Lemma sum_insert (n : string) (k : metric) (v : Z) (c : gmap metric Z) :
  total n (map_to_list (<[k := v]> c)) = total n (map_to_list c) + (if String.eqb k.1 n then v - default 0 (c !! k) else 0).
Proof.
  assert (Hd : total n (map_to_list c) = total n (map_to_list (delete k c)) + (if String.eqb k.1 n then default 0 (c !! k) else 0)).
  { destruct (c !! k) as [w|] eqn:E; cbn.
    - rewrite <- (insert_delete_id c k w E) at 1. unfold total. rewrite map_to_list_insert by apply lookup_delete_eq. rewrite zsum_cons. cbn. lia.
    - rewrite delete_id by done. case_match; lia. }
  rewrite <- insert_delete_eq. unfold total in *. rewrite map_to_list_insert by apply lookup_delete_eq. rewrite zsum_cons. cbn [fst snd]. rewrite Hd.
  case_match; lia.
Qed.
Lemma total_inc (n name : string) (ls : labels) (c : gmap metric Z) : total n (map_to_list (inc name ls 1 c)) = total n (map_to_list c) + (if String.eqb name n then 1 else 0).
Proof. unfold inc. rewrite sum_insert. cbn [fst]. destruct (String.eqb name n); [|lia]. f_equal. apply Z.add_simpl_l. Qed.
Definition is_busy (o : string * op_end) : bool := match o.2 with OpHttp code => code =? 503 | _ => false end.
Definition is_refused (o : string * op_end) : bool := match o.2 with OpHttp code => negb (code =? 503) | OpFailed => true | OpOk => false end.
Definition tally_of (f : string * op_end → bool) (ops : list (string * op_end)) : Z := zsum (λ o, if f o then 1 else 0) ops.
Lemma total_op (c : gmap metric Z) (o : string * op_end) :
  total OPS (map_to_list (op c o)) = total OPS (map_to_list c) + 1 ∧
  total ERRORS (map_to_list (op c o)) = total ERRORS (map_to_list c) + (if is_refused o then 1 else 0) ∧
  total BUSY (map_to_list (op c o)) = total BUSY (map_to_list c) + (if is_busy o then 1 else 0).
Proof.
  destruct o as [name e]. unfold op, is_refused, is_busy. cbn [fst snd].
  assert (H1 : String.eqb OPS ERRORS = false) by reflexivity. assert (H2 : String.eqb OPS BUSY = false) by reflexivity.
  assert (H3 : String.eqb ERRORS OPS = false) by reflexivity. assert (H4 : String.eqb ERRORS BUSY = false) by reflexivity.
  assert (H5 : String.eqb BUSY OPS = false) by reflexivity. assert (H6 : String.eqb BUSY ERRORS = false) by reflexivity.
  destruct e as [|code|]; [|destruct (code =? 503)|]; rewrite !total_inc, ?String.eqb_refl, ?H1, ?H2, ?H3, ?H4, ?H5, ?H6; cbn [negb]; split_and!; lia.
Qed.
Lemma total_ops ops : ∀ c, let c' := foldl op c ops in
  total OPS (map_to_list c') = total OPS (map_to_list c) + Z.of_nat (length ops) ∧
  total ERRORS (map_to_list c') = total ERRORS (map_to_list c) + tally_of is_refused ops ∧
  total BUSY (map_to_list c') = total BUSY (map_to_list c) + tally_of is_busy ops.
Proof.
  induction ops as [|o ops IH]; intros c; cbn [foldl length]; [unfold tally_of; cbn; lia|].
  destruct (IH (op c o)) as (-> & -> & ->). destruct (total_op c o) as (-> & -> & ->). unfold tally_of. rewrite !zsum_cons. lia.
Qed.

(** Every counter is one of the three, of an operation. *)
Definition counts_ok (c : gmap metric Z) : Prop := ∀ k v, c !! k = Some v → metric_ok k ∧ k.1 ∈ [OPS; ERRORS; BUSY] ∧ 0 ≤ v.
Lemma counter_key (n name : string) : n ∈ [OPS; ERRORS; BUSY] → all_chars clean name → metric_ok (n, op_label name).
Proof.
  intros Hn Hc. split; [|apply Forall_singleton; split; [split; [done|chars]|exact Hc]].
  rewrite !elem_of_cons, elem_of_nil in Hn. destruct Hn as [->|[->|[->|[]]]]; (split; [done|chars]).
Qed.
Lemma counts_inc (n name : string) (c : gmap metric Z) : n ∈ [OPS; ERRORS; BUSY] → all_chars clean name → counts_ok c → counts_ok (inc n (op_label name) 1 c).
Proof.
  intros Hn Hc H k v. unfold inc. change (labels_key (op_label name)) with (op_label name). intros [[<- <-]|[_ Hl]]%lookup_insert_Some; [|by apply H].
  split; [by apply counter_key|]. split; [done|]. destruct (c !! _) as [w|] eqn:E; cbn; [apply H in E|]; lia.
Qed.
Lemma counts_ops ops : Forall (λ o, all_chars clean o.1) ops → counts_ok (foldl op ∅ ops).
Proof.
  assert (Hstep : ∀ c o, all_chars clean o.1 → counts_ok c → counts_ok (op c o)).
  { intros c o Ho Hc. assert (Hb : counts_ok (inc OPS (op_label o.1) 1 c)) by (apply counts_inc; [by left|done..]).
    unfold op. destruct o.2; [done|case_match|]; apply counts_inc; try done; set_solver. }
  assert (H0 : counts_ok ∅) by (intros k v; by rewrite lookup_empty). revert H0. generalize (∅ : gmap metric Z). intros c Hc H. revert c Hc.
  induction H as [|o ops Ho H IH]; intros c Hc; [done|]. cbn. apply IH. by apply Hstep.
Qed.
Lemma tally_bounds f ops : 0 ≤ tally_of f ops ≤ Z.of_nat (length ops).
Proof. unfold tally_of. induction ops as [|o ops IH]; [cbn; lia|]. rewrite zsum_cons. cbn [length]. destruct (f o); lia. Qed.
Lemma counts_shown ops : Forall (λ o, all_chars clean o.1) ops → Z.of_nat (length ops) < 1000000 →
  ∀ k v, foldl op ∅ ops !! k = Some v → metric_ok k ∧ shown v.
Proof.
  intros Hc Hn k v Hk. pose proof (counts_ops ops Hc) as H. destruct (H k v Hk) as (Hm & Hin & Hv). split; [done|].
  assert (Hle : v ≤ total k.1 (map_to_list (foldl op ∅ ops))).
  { transitivity (if String.eqb k.1 k.1 then v else 0); [by rewrite String.eqb_refl|].
    apply (zsum_elem_le (λ kv, if String.eqb kv.1.1 k.1 then kv.2 else 0) _ (k, v)); [|by apply elem_of_map_to_list].
    intros [k' v'] Hk'%elem_of_map_to_list. apply H in Hk'. cbn. case_match; lia. }
  destruct (total_ops ops ∅) as (H1 & H2 & H3). pose proof (tally_bounds is_refused ops). pose proof (tally_bounds is_busy ops).
  assert (Hz : ∀ n, total n (map_to_list (∅ : gmap metric Z)) = 0) by (intros n; by rewrite map_to_list_empty). rewrite Hz in H1, H2, H3.
  rewrite !elem_of_cons, elem_of_nil in Hin. unfold shown. destruct Hin as [E|[E|[E|[]]]]; rewrite E in Hle; lia.
Qed.
Definition unbroken_help (help : gmap string string) : Prop := ∀ n h, help !! n = Some h → unbroken h.
Definition loadgen_page (help : gmap string string) (ops : list (string * op_end)) : string := render (Registry help ∅ (foldl op ∅ ops) ∅ []).

Lemma name_unbroken n : name_ok n → unbroken n.
Proof. intros [_ Hn] c Hc. assert (H : Is_true (name_char c)) by exact (Hn c Hc). clear Hc. destruct c as [[] [] [] [] [] [] [] []]; done. Qed.
Lemma clean_unbroken v : all_chars clean v → unbroken v.
Proof. intros H c Hc. destruct (H c Hc) as [Hr _]. clear Hc. unfold line_break. apply orb_false_iff. rewrite !andb_false_iff, !N.leb_gt. lia. Qed.
Lemma labels_unbroken ls : Forall label_ok ls → unbroken (labels_text ls).
Proof.
  intros H. unfold labels_text. destruct ls as [|kv ls]; [apply all_chars_nil|].
  apply all_chars_append; [chars|]. apply all_chars_append; [|chars]. apply joined_chars; [done|]. apply Forall_map. eapply Forall_impl; [exact H|].
  intros [k v] [Hk Hv]. unfold label_text, quoted. cbn [fst snd] in *. apply all_chars_append; [by apply name_unbroken|]. apply all_chars_append; [chars|].
  apply all_chars_cons. split; [done|]. apply all_chars_append; [by apply clean_unbroken|chars].
Qed.
Lemma family_unbroken help items : unbroken_help help → ∀ seen, Forall (λ kv, metric_ok kv.1 ∧ shown kv.2) items → Forall unbroken (family help "counter" value_line seen items).1.
Proof.
  intros Hh. induction items as [|[k v] items IH]; intros seen H; [constructor|]. apply Forall_cons in H as [[[Hn Hl] Hv] H]. cbn [family].
  specialize (IH (k.1 :: seen) H). destruct (family help "counter" value_line (k.1 :: seen) items) as [ls sn]. cbn [fst] in *.
  apply Forall_app_2; [|apply Forall_app_2; [|done]].
  - unfold head_lines. case_bool_decide; [constructor|]. apply Forall_app_2; [destruct (help !! k.1) as [h|] eqn:E; [apply Forall_singleton|constructor]|apply Forall_singleton].
    + apply all_chars_append; [chars|]. apply all_chars_append; [by apply name_unbroken|]. apply all_chars_append; [chars|by eapply Hh].
    + apply all_chars_append; [chars|]. apply all_chars_append; [by apply name_unbroken|chars].
  - apply Forall_singleton. rewrite fmt_plain, g6_shown by done. apply all_chars_append; [by apply name_unbroken|]. apply all_chars_append; [by apply labels_unbroken|].
    apply all_chars_append; [chars|]. intros c Hc. pose proof (pretty_digits v (proj1 Hv) c Hc) as Hd. clear Hc. destruct c as [[] [] [] [] [] [] [] []]; done.
Qed.

(** (C40) The soak sees the load the generator offered: after any sequence of fewer than a million operations with plain names, however
    each ended, the counts read back from the generator's page are exactly the number of operations, of those the exchange
    refused or failed, and of those it answered with 503.  (From a million on the page rounds the counters to six digits.) *)
Theorem offered_load_counted help ops :
  unbroken_help help → Forall (λ o, all_chars clean o.1) ops → Z.of_nat (length ops) < 1000000 →
  load_counts (loadgen_page help ops) = Ok (Load (Z.of_nat (length ops)) (tally_of is_refused ops) (tally_of is_busy ops)).
Proof.
  intros Hh Hc Hn. pose proof (counts_shown ops Hc Hn) as Hs. pose proof (sorted_forall _ (λ k v, metric_ok k ∧ shown v) Hs) as Hf.
  unfold load_counts, loadgen_page, render. pose proof (family_unbroken help _ Hh [] Hf) as Hu. pose proof (load_family help _ [] 0 0 0 Hf) as Hl.
  assert (Hp : page_lines (Registry help ∅ (foldl op ∅ ops) ∅ []) = (family help "counter" value_line [] (sorted_items (foldl op ∅ ops))).1).
  { unfold page_lines. cbn [r_help r_gauges r_counters r_hists r_callbacks]. unfold sorted_items at 1 3. rewrite !map_to_list_empty. cbn [sort_by family].
    destruct (family help "counter" value_line [] _) as [ls sn]. cbn. by rewrite app_nil_r. }
  rewrite Hp, load_page by done. rewrite Hl. cbn [mbind result_bind t_ops t_errors t_busy int_of]. rewrite !total_sorted.
  destruct (total_ops ops ∅) as (-> & -> & ->). rewrite map_to_list_empty. cbn. f_equal. f_equal; lia.
Qed.

Definition LOADGEN_HELP : gmap string string := {[OPS := "operations offered to the dex API, by op"; ERRORS := "API calls the dex refused/failed, by op"]}.
Definition sample_ops : list (string * op_end) := [("sell", OpOk); ("buy", OpHttp 503); ("buy", OpHttp 400); ("sealed_sell", OpFailed); ("sell", OpOk)].
Lemma offered_load_counted_witness : load_counts (loadgen_page LOADGEN_HELP sample_ops) = Ok (Load 5 2 1).
Proof.
  apply (offered_load_counted LOADGEN_HELP sample_ops).
  - intros n h Hh. unfold LOADGEN_HELP in Hh. apply lookup_insert_Some in Hh as [[_ <-]|[_ [_ <-]%lookup_singleton_Some]]; chars.
  - repeat (apply Forall_cons; split; [chars|]). apply Forall_nil_2.
  - done.
Defined.
(** [float("0.9999")] *)
Definition default_target : spec_float := SFdiv 53 1024 (float_of 9999) (float_of 10000).
(** One order in ten thousand turned away fails the default target of 0.9999: the difference from one is rounded below a ten
    thousandth. *)
Example load_boundary : judge_load (Load 10000 1 0) default_target = false ∧ judge_load (Load 10001 1 0) default_target = true ∧ judge_load (Load 0 0 0) default_target = false.
Proof. vm_compute. split_and!; reflexivity. Qed.
End Soak.
